(* ===== verification/_CoqProject ===== *)
-Q . S2P
Prelude.v
Axes.v
BTree.v
Deadline.v
DeadlineFires.v
SettleCtx.v
Contained.v
Logger.v
EventStore.v
Owner.v
Journal.v
Barriers.v
Lifecycle.v
Observation.v
Dispatch.v
LoaderPlan.v
LoaderRun.v
LoaderJson.v
UpdateStore.v
Inertia.v
InertiaLive.v
Plugin.v
Fiber.v
Listener.v
Listening.v
Timer.v
Registry.v
Deps.v
Services.v
Generation.v
GenerationInv.v
GenerationOps.v
GenerationEffect.v
GenerationProps.v
Observers.v
GenerationLive.v
GenerationAge.v
GenerationPass.v
GenerationGroups.v
GenerationTarget.v
Handles.v
HandlesProps.v
HandlesSeals.v
HandlesSlots.v
HandlesControl.v
HandlesRemoval.v
UpdatePolicies.v
Convergence.v
