(* ===== verification/Prelude.v ===== *)
(** * cordis-rs: a verification development

    cordis-rs is a Runtime for composing plugins.  A plugin runs as a Fiber; a Fiber
    declares the Services it needs, is applied while they are all available, and owns
    what it publishes: Services, Event listeners, observers, update policies, timers and
    cleanups.  When a Service disappears the Fibers that depend on it are settled again,
    and everything a Fiber owns is withdrawn when its generation ends.  The Loader turns
    a declarative plan of entries into such Fibers.

    ** Parts of the program and the files that model them

    The sources are under src/crates/; [core] stands for cordis-core/src.

    - Prelude.v: results, [u64] counters, lemmas on lists and options, the tactics and
      the hint database [cordis] of the development.  BTree.v: the Standard Library's
      ordered map.
    - Axes.v (core/context.rs): the immutable axes of a Context: Service realms, the
      isolate axis, Event Scopes, intercept layers.
    - EventStore.v (core/events/store.rs, types.rs): contracts and registrations of
      Events, with lazy compaction.  Dispatch.v (core/events/dispatch.rs): emit,
      emit_parallel, query, waterfall over callbacks that may do anything to the store.
      Listener.v (core/events/listener.rs, dispatch.rs): the typed callbacks, the
      adapters that erase them, and the contained invocation.  Listening.v
      (core/events/listener.rs): a listener's registration, cleanup and removal.
    - Journal.v (core/effect.rs): the cleanup journal of a Fiber.  Owner.v
      (core/effect.rs, framework_task.rs): committed work between its caller, the
      caller's executor and the completion runtime.  Barriers.v (core/fiber/mod.rs,
      effect.rs): the latches of drains and disposals, the run of one claimed cleanup,
      the task of [Context::run] and its join.  Lifecycle.v (core/fiber/mod.rs): the published state of a Fiber and its waiters.
      Observation.v (core/observation.rs): the observer hub.  Observers.v
      (core/observation.rs, context.rs): the registration of observers, snapshots.
    - UpdateStore.v (core/update.rs): update policies and the precommit chain.
      UpdatePolicies.v: the typed policies, their erasure, registration and removal.
    - Inertia.v (core/fiber/inertia.rs, era.rs, spawn.rs): the convergence slot, one
      atomic access per step of a thread.  InertiaLive.v: how it comes to rest.
    - Plugin.v (core/plugin.rs, fiber/spawn_state.rs): declarations, seals, spawn state.
      Fiber.v (core/fiber/mod.rs, gated.rs): the Fiber record and its gates.
      Registry.v (core/registry.rs): residency.  Deps.v (core/deps.rs, context.rs): the
      reverse dependency index.  Services.v (core/service.rs, fiber/mod.rs): the slot
      store, publications, and the transition that changes visibility.
    - Generation.v (core/fiber/mod.rs, fiber/spawn.rs, gated.rs, effect.rs, service.rs):
      the above composed into one transition system, the Runtime.  GenerationInv.v and
      GenerationOps.v: its invariant.  GenerationEffect.v: what a step does to the
      Service store.  GenerationProps.v, GenerationLive.v: the properties.
      GenerationAge.v: what never comes back about a Fiber once it is claimed, dead or
      gone.  GenerationPass.v: where a pass goes, what it owes to the journal it found.
      GenerationGroups.v: what the steps do to the groups of the Registry.
      GenerationTarget.v: how the semantic target of a Fiber moves, and what a pass that
      settled towards one leaves.
    - Handles.v (core/fiber/spawn.rs, era.rs, inertia.rs, mod.rs, registry.rs): creation,
      disposal, readiness, restart, update, era replacement and bulk removal as threads
      over the Runtime, with the guards that complete what their callers abandon.  HandlesProps.v: their invariant
      and its properties.  HandlesSeals.v: the seals of the plugins under update and
      replacement.  HandlesSlots.v: who holds the slot of a Fiber.  HandlesControl.v:
      restarts and updates.  HandlesRemoval.v: bulk removal.
    - Convergence.v: the slot of one live Fiber (Inertia.v) composed with the Runtime
      (Generation.v): mutations of the store are the steps of the world, settle passes its
      passes.
    - Deadline.v, DeadlineFires.v (core/deadline.rs): the deadline scheduler, its worker
      and its watchdogs.  Timer.v (cordis-timer/src/shapes.rs, lib.rs): the timer shapes.
    - SettleCtx.v (core/fiber/settle_ctx.rs): attribution of lifecycle operations to the
      pass or task body that makes them, and the refusal of those that would wait for
      themselves.
    - Contained.v (core/contained.rs): what is reported of a panic of user code.
      Logger.v (core/logger.rs): exporters, the buffer, channel names, the fan-out.
    - LoaderPlan.v, LoaderRun.v (cordis-loader/src/plan.rs, resolver.rs, outcome.rs,
      handoff.rs): the plan builder, its validation and order, and its execution.
      LoaderJson.v (cordis-loader/src/resolver.rs): typed JSON preparation.

    ** How the parts interact

    A registration (an effect, a Service, a listener) crosses one seam, [push_gated]:
    under the journal lock of the owner it rechecks that the owner still accepts, does
    its work, and files the cleanup that undoes it.  A lifecycle pass (settle, apply,
    teardown) holds the convergence slot of its Fiber, drains the journal in reverse
    order, and changes the published state through [transition], which under the lock of
    the Service store also commits a recheck for each dependent found through the
    dependency index.  A committed recheck is delivered by a kick of the dependent's
    slot; Inertia.v shows that none is lost, GenerationProps.v that none is left out, and
    Convergence.v puts the two together.

    ** Representation

    An allocation ([Arc], [Weak]) is an address, and pointer equality is equality of
    addresses; upgrading a [Weak] is a lookup in the heap of what is still allocated.  A
    critical section of a mutex is one function.  Where the code releases a lock between
    two accesses the accesses are two steps, and steps of different threads interleave
    freely: Inertia.v at the granularity of atomic accesses, Generation.v at that of the
    locks.  User code (callbacks, cleanups, apply bodies, resolvers) is an arbitrary
    state transformer in the sequential files, and in Generation.v the point at which
    any other step may happen.  Panics and errors are values.  A [u64] is a [Z] within
    its range; a counter that refuses at the top answers [None], the behaviour the code
    turns into a panic.

    ** Groups of theorems

    - Runtime: a parked or disposed generation owns nothing; visibility never changes
      without the recheck of every dependent; a teardown completes; only residents hold;
      stale publications stay stale; a name stays bound to its contract.
    - Operations of a handle: eras never overlap; a creation is all or nothing; the
      successor of a replacement is handed over or cleaned up; disposal and bulk removal are
      barriers; the owner of a replacement reaches none of its panics; the slot of a Fiber is exclusive;
      an answered restart or update has replaced the whole generation, its commit never
      fails, and once committed it goes on.
    - Convergence: one holder, no recheck lost, a quiescent slot is settled on the right
      target, a held slot comes to rest; over the composed system, a quiescent Fiber is in
      the state the Service store prescribes.  The exceptions are a refused era swap, the
      handoff of a spawn, which can also strand a first apply, and the tail of the
      creation pass (findings).
    - Stores: the event store, the Registry and the dependency index refine plain lists;
      the outcome of publishing a Service; compaction bounds; claims at most once.
    - Dispatch and update control: order, first failure, once registrations; the erasure
      of the typed callbacks is invisible and none of its panics is reachable; a
      registration is undone by its removal exactly.
    - Framework-owned work: committed work has one owner at a time and runs to its end;
      its ending is answered or logged, and a failure may only be lost in a channel whose
      receiver went away after the send (finding); later drains wait for a cleanup an
      earlier one had claimed; a task of a Fiber is joined by the Fiber's cleanup.
    - Plugins: overlay of declarations, one owner of a behaviour.
    - Observers and snapshots: an observer lives as long as its registration; a snapshot
      says of each Service what a lookup answers.
    - Loader: order, validation, one outcome per entry, rollback of an abandoned load, what
      an entry of JSON source resolves to.
    - Time: a watchdog never fires early and always fires; the serving loop ends; a timer
      gives one terminal answer, arbitrated with the cleanup that cancels it.
    - Recursion refusal: the mutable frames of a task refuse what lexical environments
      would, and only while the pass is open; two brackets interleaved in one task are
      the exception (finding).
    - Logging: a record reaches the exporters registered when it was made, once each; the
      recursion of logging from exporters is bounded; the buffer keeps the latest.

    ** Bounds and fuel

    Recursion is structural or on a fuel argument computed from the input and proved
    sufficient: the traversal of a plan (LoaderPlan.v, one unit per entry), the pursuit
    of a teardown (GenerationLive.v, three steps per journal entry and seven more), the
    serving loop of the deadline worker (DeadlineFires.v, the due and armed entries and
    four more), the depth of log calls made by exporters (Logger.v, two).
    Results that need a free identity or revision say so: realm keys, publication
    revisions and recheck revisions are [u64] counters, and the hypotheses bound them
    below [2^64 - 1].

    ** Not modelled

    The executor, wakers and the memory order of atomics (every atomic access is
    sequentially consistent); the bodies of futures supplied by users; formatting and
    [Debug] output; serde; typed façades that only forward; vocabulary inventories;
    the diagnostics of destroying continuations and hooks that nobody called; Tokio's own
    timers, which are parameters of Timer.v; a future moved to another task
    in the middle of an attribution scope; the count of references to a Fiber (its memory
    goes by a step of its own once nothing needs it).  In Handles.v a seal has the name of
    its Fiber, and the refusal of a recursion and the verdict of an exit recheck are inputs
    of a step, which SettleCtx.v and Inertia.v decide; a disposal gives the slot back
    together with the residency, where the code does so a moment before, and a creation
    pass leaves a slot it has released alone.  Theorems on the fan-out of logging assume
    that destroying an exporter does not log.
*)
From stdpp Require Export base gmap strings list fin_maps.
From Stdlib Require Export ZArith Lia.

Create HintDb cordis.

(** * Results of fallible operations

    Rust's [Result<T, E>], with the constructors in the source's order. *)

Inductive result (A E : Type) : Type :=
| Ok (a : A)
| Err (e : E).
Arguments Ok {A E} a.
Arguments Err {A E} e.

Definition is_ok {A E} (r : result A E) : bool :=
  match r with Ok _ => true | Err _ => false end.

Definition result_bind {A B E} (r : result A E) (f : A → result B E) : result B E :=
  match r with Ok a => f a | Err e => Err e end.

Definition map_err {A E F} (f : E → F) (r : result A E) : result A F :=
  match r with Ok a => Ok a | Err e => Err (f e) end.

Declare Scope cordis_scope.
Delimit Scope cordis_scope with cordis.
Notation "'try' x := r 'in' k" :=
  (result_bind r (λ x, k)) (at level 10, x name, r at level 100, k at level 200) : cordis_scope.
Open Scope cordis_scope.

#[export] Instance result_eq_dec {A E} `{EqDecision A, EqDecision E} : EqDecision (result A E).
Proof. solve_decision. Defined.

(** * Machine integers

    The counters of the source are [u64].  A counter that is advanced with
    [checked_add] refuses at the top of its range; one advanced with an atomic
    [fetch_add] wraps. *)

Definition u64_max : Z := 18446744073709551615.

(** [u64::checked_add(1)] *)
Definition checked_succ (x : Z) : option Z :=
  if decide (x < u64_max)%Z then Some (x + 1)%Z else None.

(** [AtomicU64::fetch_add(1)]: the stored word after the addition. *)
Definition wrapping_succ (x : Z) : Z := ((x + 1) mod (u64_max + 1))%Z.

Lemma checked_succ_Some x y : checked_succ x = Some y ↔ (x < u64_max ∧ y = x + 1)%Z.
Proof. unfold checked_succ. case_decide; split; intros; simplify_eq; naive_solver. Qed.

Lemma wrapping_succ_small x : (0 <= x < u64_max)%Z → wrapping_succ x = (x + 1)%Z.
Proof. intros. unfold wrapping_succ. apply Z.mod_small. unfold u64_max in *. lia. Qed.

(** * Ordered collections *)

Section lists.
Context {A : Type}.
Implicit Types (l k : list A).

(** [Vec::iter().position(p)] followed by [Vec::remove] of that index. *)
Fixpoint remove_first (p : A → bool) l : option (A * list A) :=
  match l with
  | [] => None
  | x :: l' => if p x then Some (x, l')
               else match remove_first p l' with
                    | Some (y, k) => Some (y, x :: k)
                    | None => None
                    end
  end.

Lemma remove_first_None p l : remove_first p l = None ↔ (∀ x, x ∈ l → p x = false).
Proof.
  induction l as [|x l IH]; simpl.
  { split; [intros _ y Hy; by apply not_elem_of_nil in Hy | done]. }
  destruct (p x) eqn:Hx.
  { split; [done | intros H]. specialize (H x ltac:(by left)). congruence. }
  destruct (remove_first p l) as [[y k]|]; (split; [try done|]).
  { intros H. assert (Some (y, k) = None); [|done]. apply IH. intros z Hz. apply H. by right. }
  { intros _ z Hz. apply elem_of_cons in Hz as [->|Hz]; [done|]. by apply (proj1 IH). }
  done.
Qed.

Lemma remove_first_Some p l x k :
  remove_first p l = Some (x, k) →
  ∃ l1 l2, l = l1 ++ x :: l2 ∧ k = l1 ++ l2 ∧ p x = true ∧ (∀ y, y ∈ l1 → p y = false).
Proof.
  revert k. induction l as [|a l IH]; intros k H; simpl in H; [done|].
  destruct (p a) eqn:Ha; [simplify_eq; exists [], k; set_solver|].
  destruct (remove_first p l) as [[y k']|]; simplify_eq.
  destruct (IH k' eq_refl) as (l1 & l2 & -> & -> & Hp & Hl).
  exists (a :: l1), l2. split_and!; try done.
  intros z Hz. apply elem_of_cons in Hz as [->|]; eauto.
Qed.

Lemma filter_all (P : A → Prop) `{∀ x, Decision (P x)} l :
  (∀ x, x ∈ l → P x) → filter P l = l.
Proof.
  induction l as [|x l IH]; intros H1; [done|].
  rewrite filter_cons_True; [|set_solver]. f_equal. apply IH. set_solver.
Qed.

Lemma filter_nothing (P : A → Prop) `{∀ x, Decision (P x)} l :
  (∀ x, x ∈ l → ¬ P x) → filter P l = [].
Proof.
  induction l as [|x l IH]; intros H1; [done|].
  rewrite filter_cons_False; [|set_solver]. apply IH. set_solver.
Qed.

Lemma filter_ext_in (P Q : A → Prop) `{∀ x, Decision (P x)} `{∀ x, Decision (Q x)} l :
  (∀ x, x ∈ l → P x ↔ Q x) → filter P l = filter Q l.
Proof.
  induction l as [|x l IH]; intros H2; [done|]. specialize (IH ltac:(set_solver)).
  rewrite !filter_cons, IH. destruct (H2 x ltac:(by left)). repeat case_decide; tauto || done.
Qed.

Lemma omap_ext_in {B} (f g : A → option B) l :
  (∀ x, x ∈ l → f x = g x) → omap f l = omap g l.
Proof.
  induction l as [|x l IH]; intros H; [done|]. csimpl.
  rewrite H by set_solver. rewrite IH by set_solver. done.
Qed.

Lemma omap_None_in {B} (f : A → option B) l :
  (∀ x, x ∈ l → f x = None) → omap f l = [].
Proof.
  induction l as [|x l IH]; intros H; [done|]. csimpl.
  rewrite H by set_solver. apply IH. set_solver.
Qed.

(** [HashMap::retain]-style retention commutes with a partial projection. *)
Lemma omap_filter {B} (P : A → Prop) `{∀ x, Decision (P x)} (f : A → option B) l :
  (∀ x, x ∈ l → ¬ P x → f x = None) → omap f (filter P l) = omap f l.
Proof.
  induction l as [|x l IH]; intros H1; [done|].
  destruct (decide (P x)).
  - rewrite filter_cons_True by done. csimpl. rewrite IH by set_solver. done.
  - rewrite filter_cons_False by done. csimpl. rewrite (H1 x) by set_solver.
    apply IH. set_solver.
Qed.
End lists.

Lemma omap_rev {A B} (f : A → option B) (l : list A) : omap f (rev l) = rev (omap f l).
Proof.
  induction l as [|x l IH]; [done|]. simpl. rewrite omap_app, IH. csimpl.
  destruct (f x); simpl; by rewrite ?app_nil_r.
Qed.

(** A list without duplicates inside a finite set is no longer than the set. *)
Lemma NoDup_length_dom {A K} `{Countable K} (l : list K) (m : gmap K A) :
  NoDup l → (∀ x, x ∈ l → is_Some (m !! x)) → length l ≤ size m.
Proof.
  intros Hnd Hin. rewrite <- (size_list_to_set (C := gset K) l Hnd), <- size_dom.
  apply subseteq_size. intros x Hx. apply elem_of_dom, Hin.
  by apply elem_of_list_to_set in Hx.
Qed.

Lemma dom_length_NoDup {A K} `{Countable K} (l : list K) (m : gmap K A) :
  (∀ x, is_Some (m !! x) → x ∈ l) → size m ≤ length l.
Proof.
  intros Hin. rewrite <- size_dom.
  change (length (elements (dom m : gset K)) ≤ length l).
  apply submseteq_length, NoDup_submseteq; [apply NoDup_elements|].
  intros x Hx. apply Hin, elem_of_dom. by apply elem_of_elements.
Qed.

(** * Reachability of step relations *)

Section reach.
Context {S : Type} (init : S → Prop) (step : S → S → Prop).

Inductive reachable : S → Prop :=
| reach_init s : init s → reachable s
| reach_step s s' : reachable s → step s s' → reachable s'.

(** The invariant rule: what holds initially and is kept by every step holds
    in every reachable state. *)
Lemma reachable_invariant (I : S → Prop) :
  (∀ s, init s → I s) → (∀ s s', reachable s → I s → step s s' → I s') → ∀ s, reachable s → I s.
Proof. intros Hi Hs s Hr. induction Hr; eauto. Qed.
End reach.

#[export] Hint Constructors reachable : cordis.

(** * Automation *)

(** Case analysis on every [match] and [if] of the goal or a hypothesis,
    closing the branches that are contradictory. *)
Ltac split_matches :=
  repeat (case_match || case_decide); simplify_eq/=; try done.

Ltac unfold_results := unfold result_bind, map_err, is_ok in *.
