(* ===== verification/Axes.v ===== *)
(** The immutable axes of a [Context] (crates/cordis-core/src/context.rs): Service
    realms and their allocation, the isolate axis, the Event Scope chain, and the
    intercept axis with its configuration resolution.

    Pointer identities ([Arc::ptr_eq]) are natural numbers drawn from the
    allocator of the model; two objects are the same allocation exactly when their
    numbers are equal. *)
From S2P Require Import Prelude.

(** [std::any::TypeId]: an opaque identity with decidable equality. *)
Abbreviation TypeId := nat (only parsing).
(** The identity of an allocation, compared with [Arc::ptr_eq]. *)
Abbreviation Addr := nat (only parsing).

(** * Service realms *)

Abbreviation RealmKey := Z (only parsing).
(* @src crates/cordis-core/src/context.rs 31-41 RealmKey::DEFAULT *)
Definition RealmKey_DEFAULT : RealmKey := 0%Z.

(** The realm counter is an [AtomicU64]. *)
(* @src crates/cordis-core/src/context.rs 47-51 SnCounters *)
Record SnCounters := { sn_realm : Z }.

Definition SnCounters_default : SnCounters := {| sn_realm := 0 |}.

(** [None] is the [expect] panic "Service realm identity space exhausted", which
    leaves the counter unchanged. *)
(* @src crates/cordis-core/src/context.rs 53-64 SnCounters::next_realm_key *)
Definition next_realm_key (sn : SnCounters) : option (RealmKey * SnCounters) :=
  match checked_succ (sn_realm sn) with
  | Some next => Some ((sn_realm sn + 1)%Z, {| sn_realm := next |})
  | None => None
  end.

(* @src crates/cordis-core/src/service.rs 56-113 ServiceRealm *)
Record ServiceRealm := { realm_membership : Addr; realm_key : RealmKey }.

(* @src crates/cordis-core/src/service.rs 85-87 ServiceRealm::belongs_to *)
Definition realm_belongs_to (r : ServiceRealm) (membership : Addr) : bool :=
  bool_decide (realm_membership r = membership).

(* @src crates/cordis-core/src/service.rs 115-131 RealmMappingError *)
Inductive RealmMappingError :=
| DuplicateService (service : string)
| ForeignRealm (service : string).

(** * The isolate axis *)

(* @src crates/cordis-core/src/context.rs 565-572 IsolateLayer *)
Inductive IsolateLayer :=
  mkIsolateLayer (map : gmap string RealmKey) (outer : option IsolateLayer).

(* @src crates/cordis-core/src/context.rs 574-586 IsolateLayer::lookup *)
Fixpoint isolate_lookup (layer : IsolateLayer) (key : string) : option RealmKey :=
  match layer with
  | mkIsolateLayer map outer =>
      match map !! key with
      | Some id => Some id
      | None => match outer with Some o => isolate_lookup o key | None => None end
      end
  end.

(** * The Scope axis *)

(* @src crates/cordis-core/src/context.rs 534-541 ScopeNode *)
Inductive ScopeNode := mkScopeNode (addr : Addr) (parent : option ScopeNode).

Definition scope_addr (s : ScopeNode) : Addr := match s with mkScopeNode a _ => a end.
Definition scope_parent (s : ScopeNode) : option ScopeNode :=
  match s with mkScopeNode _ p => p end.

(* @src crates/cordis-core/src/context.rs 543-556 ScopeNode::reaches *)
Fixpoint scope_reaches (self head : ScopeNode) : bool :=
  match self with
  | mkScopeNode a parent =>
      if bool_decide (a = scope_addr head) then true
      else match parent with Some p => scope_reaches p head | None => false end
  end.

(** [addr] is the address of the fresh [Arc]. *)
(* @src crates/cordis-core/src/context.rs 558-563 ScopeNode::derive *)
Definition scope_derive (addr : Addr) (parent : option ScopeNode) : ScopeNode :=
  mkScopeNode addr parent.

(* @src crates/cordis-core/src/context.rs 511-526 Scope *)
Record Scope := { scope_membership : Addr; scope_layer : option ScopeNode }.

(* @src crates/cordis-core/src/context.rs 522-526 Scope::belongs_to *)
Definition scope_belongs_to (s : Scope) (membership : Addr) : bool :=
  bool_decide (scope_membership s = membership).

(** * The intercept axis *)

(** A prepared layer: the contract that produced it and its erased value. *)
(* @src crates/cordis-core/src/plugin.rs 18-39 ConfiguredLayer *)
Record ConfiguredLayer := { cl_service_type : TypeId; cl_value : nat }.

(* @src crates/cordis-core/src/plugin.rs 32-34 ConfiguredLayer::matches *)
Definition layer_matches (service : TypeId) (l : ConfiguredLayer) : bool :=
  bool_decide (cl_service_type l = service).

(* @src crates/cordis-core/src/context.rs 588-595 InterceptLayer *)
Inductive InterceptLayer :=
  mkInterceptLayer (name : string) (configured : ConfiguredLayer) (outer : option InterceptLayer).

(** * Contexts *)

(** [ctx_root] names the Runtime ([Arc<Root>]); the memberships of its realms and
    Scopes are the addresses the Runtime owns. *)
(* @src crates/cordis-core/src/context.rs 128-148 Context *)
Record Context := {
  ctx_root : Addr;
  ctx_fiber : Addr;
  ctx_isolate : option IsolateLayer;
  ctx_scope : option ScopeNode;
  ctx_intercept : option InterceptLayer;
}.

(* @src crates/cordis-core/src/context.rs 150-162 Context::with_fiber *)
Definition with_fiber (ctx : Context) (fiber : Addr) : Context :=
  {| ctx_root := ctx_root ctx; ctx_fiber := fiber; ctx_isolate := ctx_isolate ctx;
     ctx_scope := ctx_scope ctx; ctx_intercept := ctx_intercept ctx |}.

(** [root_fiber] is the permanently active Fiber of the Runtime. *)
(* @src crates/cordis-core/src/context.rs 201-218 Context::root *)
Definition context_root (ctx : Context) (root_fiber : Addr) : Context :=
  {| ctx_root := ctx_root ctx; ctx_fiber := root_fiber; ctx_isolate := None;
     ctx_scope := None; ctx_intercept := None |}.

(* @src crates/cordis-core/src/context.rs 281-289 Context::isolate_key *)
Definition isolate_key (ctx : Context) (name : string) : RealmKey :=
  default RealmKey_DEFAULT (l ← ctx_isolate ctx; isolate_lookup l name).

(* @src crates/cordis-core/src/context.rs 291-302 Context::new_service_realm *)
Definition new_service_realm (membership : Addr) (sn : SnCounters)
    : option (ServiceRealm * SnCounters) :=
  match next_realm_key sn with
  | Some (key, sn') => Some ({| realm_membership := membership; realm_key := key |}, sn')
  | None => None
  end.

(* @src crates/cordis-core/src/context.rs 404-417 Context::derive_isolate *)
Definition derive_isolate (ctx : Context) (map : gmap string RealmKey) : Context :=
  {| ctx_root := ctx_root ctx; ctx_fiber := ctx_fiber ctx;
     ctx_isolate := Some (mkIsolateLayer map (ctx_isolate ctx));
     ctx_scope := ctx_scope ctx; ctx_intercept := ctx_intercept ctx |}.

(* @src crates/cordis-core/src/context.rs 349-354 Context::with_isolated_service *)
Definition with_isolated_service (ctx : Context) (sn : SnCounters) (name : string)
    : option (Context * SnCounters) :=
  match next_realm_key sn with
  | Some (key, sn') => Some (derive_isolate ctx {[ name := key ]}, sn')
  | None => None
  end.

(** The first name of [pairs] that an earlier pair already used. *)
Fixpoint first_duplicate (names : gset string) (pairs : list (string * ServiceRealm))
    : option string :=
  match pairs with
  | [] => None
  | (name, _) :: rest =>
      if decide (name ∈ names) then Some name
      else first_duplicate ({[ name ]} ∪ names) rest
  end.

Fixpoint first_foreign (membership : Addr) (pairs : list (string * ServiceRealm))
    : option string :=
  match pairs with
  | [] => None
  | (name, realm) :: rest =>
      if negb (realm_belongs_to realm membership) then Some name
      else first_foreign membership rest
  end.

(** [collect] into a [HashMap]: a later pair overwrites an earlier one. *)
Definition collect_realms (pairs : list (string * ServiceRealm)) : gmap string RealmKey :=
  foldl (λ m '(name, realm), <[ name := realm_key realm ]> m) ∅ pairs.

(** The names have already been converted with [Into<String>]. *)
(* @src crates/cordis-core/src/context.rs 356-402 Context::with_service_realms *)
Definition with_service_realms (ctx : Context) (membership : Addr)
    (pairs : list (string * ServiceRealm)) : result Context RealmMappingError :=
  match first_duplicate ∅ pairs with
  | Some name => Err (DuplicateService name)
  | None =>
      match first_foreign membership pairs with
      | Some name => Err (ForeignRealm name)
      | None => Ok (derive_isolate ctx (collect_realms pairs))
      end
  end.

(* @src crates/cordis-core/src/context.rs 419-426 Context::scope *)
Definition context_scope (ctx : Context) (membership : Addr) : Scope :=
  {| scope_membership := membership; scope_layer := ctx_scope ctx |}.

(* @src crates/cordis-core/src/context.rs 428-443 Context::with_child_scope *)
Definition with_child_scope (ctx : Context) (addr : Addr) : Context :=
  {| ctx_root := ctx_root ctx; ctx_fiber := ctx_fiber ctx; ctx_isolate := ctx_isolate ctx;
     ctx_scope := Some (scope_derive addr (ctx_scope ctx)); ctx_intercept := ctx_intercept ctx |}.

(* @src crates/cordis-core/src/context.rs 445-473 Context::with_intercept *)
Definition with_configured_intercept (ctx : Context) (name : string)
    (configured : ConfiguredLayer) : Context :=
  {| ctx_root := ctx_root ctx; ctx_fiber := ctx_fiber ctx; ctx_isolate := ctx_isolate ctx;
     ctx_scope := ctx_scope ctx;
     ctx_intercept := Some (mkInterceptLayer name configured (ctx_intercept ctx)) |}.

(** A [ConfigurableService] contract: its name, its type, and its composition of
    an optional base, ordered layers and an optional head (user code). *)
Record ConfigurableService (Resolved ComposeError : Type) := {
  svc_name : string;
  svc_type : TypeId;
  svc_compose : option nat → list nat → option nat → result Resolved ComposeError;
}.
Arguments svc_name {_ _} _.
Arguments svc_type {_ _} _.
Arguments svc_compose {_ _} _ _ _ _.

(* @src crates/cordis-core/src/service.rs 164-177 ConfigResolutionError *)
Inductive ConfigResolutionError (E : Type) :=
| ConfigContractMismatch (service : string)
| Compose (e : E).
Arguments ConfigContractMismatch {E} service.
Arguments Compose {E} e.

(** The chain walk of [resolve_config]: innermost layer first. *)
Fixpoint matching_layers (name : string) (node : InterceptLayer) : list ConfiguredLayer :=
  match node with
  | mkInterceptLayer n c outer =>
      (if bool_decide (n = name) then [c] else []) ++
      match outer with Some o => matching_layers name o | None => [] end
  end.

(** The layers of [ctx] for one Service, outermost first. *)
Definition configured_layers (ctx : Context) (name : string) : list ConfiguredLayer :=
  rev (match ctx_intercept ctx with Some l => matching_layers name l | None => [] end).

(* @src crates/cordis-core/src/context.rs 475-508 Context::resolve_config *)
Definition resolve_config {Resolved ComposeError}
    (S : ConfigurableService Resolved ComposeError) (ctx : Context)
    (base head : option nat) : result Resolved (ConfigResolutionError ComposeError) :=
  let configured := configured_layers ctx (svc_name S) in
  if existsb (λ l, negb (layer_matches (svc_type S) l)) configured
  then Err (ConfigContractMismatch (svc_name S))
  else map_err Compose (svc_compose S base (map cl_value configured) head).

(** * Realm allocation *)

(** [n] successive allocations from one counter. *)
Fixpoint alloc_realms (n : nat) (sn : SnCounters) : option (list RealmKey * SnCounters) :=
  match n with
  | O => Some ([], sn)
  | S n' => match next_realm_key sn with
            | Some (k, sn') => match alloc_realms n' sn' with
                               | Some (ks, sn'') => Some (k :: ks, sn'')
                               | None => None
                               end
            | None => None
            end
  end.

Lemma next_realm_key_Some sn k sn' :
  next_realm_key sn = Some (k, sn') →
  (k = sn_realm sn + 1 ∧ sn_realm sn' = k ∧ sn_realm sn < u64_max)%Z.
Proof.
  unfold next_realm_key. destruct (checked_succ _) as [y|] eqn:E; intros; simplify_eq/=.
  apply checked_succ_Some in E. lia.
Qed.

Lemma alloc_realms_range n sn ks sn' :
  alloc_realms n sn = Some (ks, sn') →
  length ks = n ∧ NoDup ks ∧ (sn_realm sn' = sn_realm sn + Z.of_nat n)%Z ∧
  (∀ k, k ∈ ks → (sn_realm sn < k <= sn_realm sn')%Z).
Proof.
  revert sn ks sn'. induction n as [|n IH]; intros sn ks sn' H; simpl in H; simplify_eq/=.
  { split_and!; [done|constructor|lia|set_solver]. }
  destruct (next_realm_key sn) as [[k sn1]|] eqn:E; [|done].
  destruct (alloc_realms n sn1) as [[ks1 sn2]|] eqn:E1; [|done]. simplify_eq/=.
  apply next_realm_key_Some in E. apply IH in E1 as (<- & Hnd & Hsn & Hks).
  split_and!; [done| |lia|].
  - constructor; [|done]. intros Hin. apply Hks in Hin. lia.
  - intros k' Hk'. apply elem_of_cons in Hk' as [->|Hk']; [lia|]. apply Hks in Hk'. lia.
Qed.

Lemma alloc_realms_succeeds n sn :
  (sn_realm sn + Z.of_nat n <= u64_max)%Z → is_Some (alloc_realms n sn).
Proof.
  revert sn. induction n as [|n IH]; intros sn H; simpl; [done|].
  unfold next_realm_key. destruct (checked_succ (sn_realm sn)) as [y|] eqn:E.
  - apply checked_succ_Some in E. destruct (IH {| sn_realm := y |}) as [[ks sn'] ->]; simpl; [lia|done].
  - unfold checked_succ in E. case_decide; [done|]. lia.
Qed.

Lemma alloc_realms_bound n sn ks sn' :
  (sn_realm sn <= u64_max)%Z → alloc_realms n sn = Some (ks, sn') →
  (sn_realm sn' <= u64_max)%Z.
Proof.
  revert sn ks sn'. induction n as [|n IH]; intros sn ks sn' H E; simplify_eq/=; [done|].
  destruct (next_realm_key sn) as [[k sn1]|] eqn:E1; [|done].
  destruct (alloc_realms n sn1) as [[ks1 sn2]|] eqn:E2; simplify_eq/=.
  apply next_realm_key_Some in E1. eapply IH, E2. lia.
Qed.

(** * Isolation *)

Lemma first_duplicate_None names pairs :
  first_duplicate names pairs = None ↔
  NoDup pairs.*1 ∧ (∀ n, n ∈ pairs.*1 → n ∉ names).
Proof.
  revert names. induction pairs as [|[n r] pairs IH]; intros names; simpl.
  { split; [intros _; split; [constructor|set_solver]|done]. }
  case_decide as Hn; [split; [done|set_solver]|].
  rewrite IH, NoDup_cons. set_solver.
Qed.

Lemma first_foreign_None m pairs :
  first_foreign m pairs = None ↔ Forall (λ p, realm_belongs_to p.2 m = true) pairs.
Proof.
  induction pairs as [|[n r] pairs IH]; simpl; [done|].
  rewrite Forall_cons. simpl. destruct (realm_belongs_to r m); naive_solver.
Qed.

Lemma with_service_realms_ok ctx membership pairs :
  NoDup pairs.*1 → Forall (λ p, realm_belongs_to p.2 membership = true) pairs →
  ∃ ctx', with_service_realms ctx membership pairs = Ok ctx'.
Proof.
  intros Hnd Hf. unfold with_service_realms.
  rewrite (proj2 (first_duplicate_None ∅ pairs)) by set_solver.
  rewrite (proj2 (first_foreign_None membership pairs)) by done. eauto.
Qed.

Lemma first_duplicate_Some names pairs n :
  first_duplicate names pairs = Some n → n ∈ pairs.*1.
Proof.
  revert names. induction pairs as [|[n' r] pairs IH]; intros names; simpl; [done|].
  case_decide; intros; simplify_eq; set_solver.
Qed.

Lemma collect_realms_lookup_acc (pairs : list (string * ServiceRealm))
    (acc : gmap string RealmKey) (n : string) :
  NoDup pairs.*1 →
  foldl (λ m '(name, realm), <[ name := realm_key realm ]> m) acc pairs !! n =
  match list_find (λ p, p.1 = n) pairs with
  | Some (_, p) => Some (realm_key p.2)
  | None => acc !! n
  end.
Proof.
  revert acc. induction pairs as [|[n' r] pairs IH]; intros acc Hnd; [done|]. simpl.
  apply NoDup_cons in Hnd as [Hn' Hnd]. rewrite IH by done.
  case_decide as Hn; simplify_eq/=.
  - destruct (list_find (λ p, p.1 = n) pairs) as [[i p]|] eqn:E; simpl.
    + apply list_find_Some in E as (Hi & <- & _). exfalso. apply Hn'.
      apply list_elem_of_fmap. exists p. split; [done|]. eapply list_elem_of_lookup_2; eauto.
    + by rewrite lookup_insert_eq.
  - destruct (list_find (λ p, p.1 = n) pairs) as [[i p]|]; simpl; [done|].
    by rewrite lookup_insert_ne.
Qed.

Lemma isolate_key_derive ctx map name :
  isolate_key (derive_isolate ctx map) name =
  match map !! name with Some k => k | None => isolate_key ctx name end.
Proof.
  unfold isolate_key, derive_isolate. simpl. destruct (map !! name); [done|].
  by destruct (ctx_isolate ctx).
Qed.

(** [f]'s axes other than isolation are those of [ctx]. *)
Definition same_other_axes (ctx ctx' : Context) : Prop :=
  ctx_root ctx' = ctx_root ctx ∧ ctx_fiber ctx' = ctx_fiber ctx ∧
  ctx_scope ctx' = ctx_scope ctx ∧ ctx_intercept ctx' = ctx_intercept ctx.

(** * Scope reachability *)

Fixpoint ScopeNode_chain_ind (P : ScopeNode → Prop)
    (Hroot : ∀ a, P (mkScopeNode a None))
    (Hchild : ∀ a p, P p → P (mkScopeNode a (Some p))) (s : ScopeNode) : P s :=
  match s with
  | mkScopeNode a None => Hroot a
  | mkScopeNode a (Some p) => Hchild a p (ScopeNode_chain_ind P Hroot Hchild p)
  end.

(** The addresses of a Scope and all its ancestors, innermost first. *)
Fixpoint scope_chain (s : ScopeNode) : list Addr :=
  match s with
  | mkScopeNode a parent => a :: match parent with Some p => scope_chain p | None => [] end
  end.

Definition scope_chain_opt (s : option ScopeNode) : list Addr :=
  match s with Some n => scope_chain n | None => [] end.

Lemma scope_reaches_chain self head :
  scope_reaches self head = true ↔ scope_addr head ∈ scope_chain self.
Proof.
  induction self as [a|a p IH] using ScopeNode_chain_ind; simpl; case_bool_decide as H.
  - set_solver.
  - split; [done|]. intros [Heq|Hin]%elem_of_cons; [congruence|set_solver].
  - set_solver.
  - rewrite IH, elem_of_cons. naive_solver.
Qed.

#[global] Arguments scope_reaches : simpl never.

(** Whether a registration made at [registration] receives a dispatch routed to
    [dispatch] when it is not global: the rule shared by Event and update routing. *)
Definition scope_admits (registration dispatch : option ScopeNode) : bool :=
  match registration, dispatch with
  | None, _ => true
  | Some _, None => false
  | Some r, Some d => scope_reaches d r
  end.

(** * Properties *)

(** Realm identity: the keys one Runtime allocates are pairwise distinct,
    positive (never the default realm's key) and within [u64]; allocation refuses
    exactly when the [u64] space is used up, so no key is ever reused. *)
Theorem realm_keys_unique (n : nat) :
  match alloc_realms n SnCounters_default with
  | Some (ks, _) => length ks = n ∧ NoDup ks ∧ (RealmKey_DEFAULT ∉ ks) ∧
                    (∀ k, k ∈ ks → (0 < k <= u64_max)%Z)
  | None => (u64_max < Z.of_nat n)%Z
  end.
Proof.
  destruct (alloc_realms n SnCounters_default) as [[ks sn']|] eqn:E.
  - pose proof E as E'. apply alloc_realms_range in E as (<- & Hnd & Hsn & Hks). simpl in *.
    apply alloc_realms_bound in E'; [|done].
    split_and!; try done.
    + intros Hin. apply Hks in Hin. unfold RealmKey_DEFAULT in Hin. lia.
    + intros k Hk. apply Hks in Hk. lia.
  - destruct (decide (Z.of_nat n <= u64_max)%Z) as [Hle|]; [|lia].
    destruct (alloc_realms_succeeds n SnCounters_default) as [? E2]; simpl; [lia|congruence].
Qed.

(** [with_service_realms] validates the whole batch before deriving anything:
    a repeated name is reported first, then a foreign realm; on success exactly the
    batch's names move to their realms, every other name keeps its mapping, and the
    other axes are untouched. *)
Theorem with_service_realms_spec (ctx : Context) (membership : Addr)
    (pairs : list (string * ServiceRealm)) :
  match with_service_realms ctx membership pairs with
  | Ok ctx' =>
      NoDup pairs.*1 ∧ Forall (λ p, realm_belongs_to p.2 membership = true) pairs ∧
      same_other_axes ctx ctx' ∧
      ∀ name, isolate_key ctx' name =
        match list_find (λ p, p.1 = name) pairs with
        | Some (_, p) => realm_key p.2
        | None => isolate_key ctx name
        end
  | Err (DuplicateService name) => name ∈ pairs.*1 ∧ ¬ NoDup pairs.*1
  | Err (ForeignRealm name) =>
      NoDup pairs.*1 ∧ ∃ realm, (name, realm) ∈ pairs ∧ realm_belongs_to realm membership = false
  end.
Proof.
  unfold with_service_realms. destruct (first_duplicate ∅ pairs) as [n|] eqn:Ed.
  - split; [by eapply first_duplicate_Some|]. intros Hnd.
    assert (first_duplicate ∅ pairs = None); [|congruence].
    apply first_duplicate_None. set_solver.
  - apply first_duplicate_None in Ed as [Hnd _].
    destruct (first_foreign membership pairs) as [n|] eqn:Ef.
    + split; [done|]. clear Hnd. induction pairs as [|[n' r] pairs IH]; simpl in *; [done|].
      destruct (realm_belongs_to r membership) eqn:Er; simplify_eq/=; [|set_solver].
      destruct IH as (r' & ? & ?); [done|]. set_solver.
    + apply first_foreign_None in Ef. split_and!; try done. intros name.
      rewrite isolate_key_derive. unfold collect_realms.
      rewrite collect_realms_lookup_acc by done.
      destruct (list_find _ pairs) as [[i p]|]; [done|]. by rewrite lookup_empty.
Qed.

(** Scope routing: a child Scope receives what its parent's Scope receives and
    its own registrations, and nothing registered on the child leaks to the parent,
    to a sibling, or (other than through the parent) to any other dispatch. *)
Theorem child_scope_routing (ctx : Context) (a b : Addr)
    (Hab : a ≠ b) (Ha : a ∉ scope_chain_opt (ctx_scope ctx)) :
  let child := ctx_scope (with_child_scope ctx a) in
  let sibling := ctx_scope (with_child_scope ctx b) in
  scope_admits child child = true ∧
  scope_admits child sibling = false ∧
  scope_admits child (ctx_scope ctx) = false ∧
  (∀ r, scope_admits r child = true ↔
        scope_admits r (ctx_scope ctx) = true ∨ scope_addr <$> r = Some a).
Proof.
  intros child sibling. subst child sibling. simpl. unfold scope_derive.
  assert (∀ d, (scope_reaches (mkScopeNode d (ctx_scope ctx)) (mkScopeNode a (ctx_scope ctx)) = true
    ↔ d = a)) as Hself.
  { intros d. rewrite scope_reaches_chain. simpl. rewrite elem_of_cons.
    destruct (ctx_scope ctx); simpl in *; set_solver. }
  split_and!.
  - by apply Hself.
  - apply not_true_is_false. intros H%Hself. congruence.
  - destruct (ctx_scope ctx) as [s|]; simpl in *; [|done].
    apply not_true_is_false. by rewrite scope_reaches_chain.
  - intros [r|]; simpl; [|split; auto; done].
    rewrite scope_reaches_chain. destruct (ctx_scope ctx) as [s|]; simpl in *.
    + rewrite scope_reaches_chain, elem_of_cons. naive_solver.
    + rewrite list_elem_of_singleton. naive_solver.
Qed.

Example child_scope_routing_witness :
  let ctx := with_child_scope
    {| ctx_root := 0; ctx_fiber := 1; ctx_isolate := None; ctx_scope := None;
       ctx_intercept := None |} 7 in
  scope_admits (ctx_scope (with_child_scope ctx 8)) (ctx_scope (with_child_scope ctx 9)) = false.
Proof.
  intros ctx.
  exact (proj1 (proj2 (child_scope_routing ctx 8 9 ltac:(done)
    ltac:(apply (bool_decide_unpack _); vm_compute; exact I)))).
Defined.

(** The Context obtained by installing [layers] one after the other, the last
    one innermost. *)
Definition install_layers (ctx : Context) (layers : list (string * ConfiguredLayer)) : Context :=
  foldl (λ c '(name, l), with_configured_intercept c name l) ctx layers.

Lemma configured_layers_intercept ctx name c n :
  configured_layers (with_configured_intercept ctx n c) name =
  configured_layers ctx name ++ (if bool_decide (n = name) then [c] else []).
Proof.
  unfold configured_layers. simpl. rewrite rev_app_distr.
  destruct (ctx_intercept ctx); case_bool_decide; done.
Qed.

Lemma configured_layers_install ctx layers name :
  configured_layers (install_layers ctx layers) name =
  configured_layers ctx name ++ (filter (λ p, p.1 = name) layers).*2.
Proof.
  revert ctx. induction layers as [|[n l] layers IH]; intros ctx; simpl.
  { by rewrite app_nil_r. }
  unfold install_layers in *. simpl. rewrite IH, configured_layers_intercept, <- app_assoc.
  f_equal. case_bool_decide as Hn.
  - by rewrite filter_cons_True.
  - by rewrite filter_cons_False.
Qed.

(** Configuration resolution folds exactly the layers installed for the
    Service, outermost first; one layer of another contract refuses the whole
    resolution before the Service's composition runs. *)
Theorem resolve_config_outer_to_inner {Resolved ComposeError}
    (S : ConfigurableService Resolved ComposeError) (ctx : Context)
    (layers : list (string * ConfiguredLayer)) (base head : option nat)
    (Hctx : ctx_intercept ctx = None) :
  let mine := (filter (λ p, p.1 = svc_name S) layers).*2 in
  resolve_config S (install_layers ctx layers) base head =
  if decide (Forall (λ l, cl_service_type l = svc_type S) mine)
  then map_err Compose (svc_compose S base (map cl_value mine) head)
  else Err (ConfigContractMismatch (svc_name S)).
Proof.
  intros mine. unfold resolve_config. rewrite configured_layers_install.
  unfold configured_layers at 1 2. rewrite Hctx. simpl. fold mine.
  assert (existsb (λ l, negb (layer_matches (svc_type S) l)) mine = false ↔
          Forall (λ l, cl_service_type l = svc_type S) mine) as Hex.
  { clear Hctx. induction mine as [|l mine IH]; simpl; [done|].
    rewrite orb_false_iff, IH, Forall_cons. unfold layer_matches.
    case_bool_decide; simpl; naive_solver. }
  destruct (existsb _ _) eqn:E; case_decide as Hd; try done.
  - apply Hex in Hd. congruence.
  - destruct Hd. by apply Hex.
Qed.

Example resolve_config_outer_to_inner_witness :
  resolve_config
    {| svc_name := "db"; svc_type := 3;
       svc_compose := λ b ls h, if decide (ls = []) then Err 0 else Ok (b, ls, h) |}
    (install_layers
       {| ctx_root := 0; ctx_fiber := 1; ctx_isolate := None; ctx_scope := None;
          ctx_intercept := None |}
       [("db", {| cl_service_type := 3; cl_value := 10 |});
        ("log", {| cl_service_type := 4; cl_value := 11 |});
        ("db", {| cl_service_type := 3; cl_value := 12 |})]) (Some 1) None
  = Ok (Some 1, [10; 12], None).
Proof.
  rewrite resolve_config_outer_to_inner by reflexivity. reflexivity.
Defined.
