(* ===== verification/BTree.v ===== *)
(** [BTreeMap]: the Standard Library's ordered map, as a list of bindings strictly
    increasing in the key order.  Shared by the cleanup journal
    (crates/cordis-core/src/effect.rs), the deadline schedule
    (crates/cordis-core/src/deadline.rs) and dependency declarations
    (crates/cordis-core/src/plugin.rs). *)
From S2P Require Import Prelude.

(** A key order: the strict comparison of the key type's [Ord] instance. *)
Class KeyOrder (K : Type) `{EqDecision K} := {
  klt : K → K → bool;
  klt_irrefl : ∀ a, klt a a = false;
  klt_trans : ∀ a b c, klt a b = true → klt b c = true → klt a c = true;
  klt_total : ∀ a b, a ≠ b → klt a b = false → klt b a = true;
}.

Section btree.
Context {K A : Type} `{KeyOrder K}.
Implicit Types (m : list (K * A)) (k : K) (v : A).

Fixpoint bt_lookup m k : option A :=
  match m with
  | [] => None
  | (k', v) :: m' => if decide (k' = k) then Some v else bt_lookup m' k
  end.

(** [BTreeMap::insert]: replaces an equal key in place. *)
Fixpoint bt_insert m k v : list (K * A) :=
  match m with
  | [] => [(k, v)]
  | (k', v') :: m' =>
      if decide (k = k') then (k, v) :: m'
      else if klt k k' then (k, v) :: (k', v') :: m'
      else (k', v') :: bt_insert m' k v
  end.

(** [BTreeMap::remove]. *)
Fixpoint bt_remove m k : list (K * A) :=
  match m with
  | [] => []
  | (k', v') :: m' => if decide (k' = k) then m' else (k', v') :: bt_remove m' k
  end.

Definition bt_keys m : list K := m.*1.

Inductive bt_sorted : list (K * A) → Prop :=
| bt_sorted_nil : bt_sorted []
| bt_sorted_cons k v m :
    (∀ k', k' ∈ bt_keys m → klt k k' = true) → bt_sorted m → bt_sorted ((k, v) :: m).

Lemma klt_neq k k' : klt k k' = true → k ≠ k'.
Proof. intros Hlt ->. by rewrite klt_irrefl in Hlt. Qed.

Lemma bt_lookup_None m k : bt_lookup m k = None ↔ k ∉ bt_keys m.
Proof.
  induction m as [|[k' v'] m IH]; simpl; [set_solver|].
  case_decide; [set_solver|]. rewrite IH. set_solver.
Qed.

Lemma bt_lookup_Some_in m k v : bt_lookup m k = Some v → (k, v) ∈ m.
Proof.
  induction m as [|[k' v'] m IH]; simpl; [done|].
  case_decide; intros; simplify_eq; [by left|right; auto].
Qed.

Lemma bt_keys_insert m k v k' : k' ∈ bt_keys (bt_insert m k v) ↔ k' = k ∨ k' ∈ bt_keys m.
Proof.
  induction m as [|[k1 v1] m IH]; simpl; [set_solver|].
  case_decide; simplify_eq/=; [set_solver|]. destruct (klt k k1); [set_solver|].
  simpl. unfold bt_keys in *. simpl. rewrite !elem_of_cons, IH. naive_solver.
Qed.

Lemma bt_keys_remove_subset m k k' : k' ∈ bt_keys (bt_remove m k) → k' ∈ bt_keys m.
Proof.
  induction m as [|[k1 v1] m IH]; simpl; [done|].
  case_decide; [set_solver|]. unfold bt_keys in *. simpl. rewrite !elem_of_cons. naive_solver.
Qed.

Lemma bt_insert_sorted m k v : bt_sorted m → bt_sorted (bt_insert m k v).
Proof.
  induction 1 as [|k1 v1 m Hlt Hm IH]; simpl.
  { constructor; [set_solver|constructor]. }
  case_decide as Hk; simplify_eq; [by constructor|]. destruct (klt k k1) eqn:E.
  - constructor; [|by constructor]. intros k' Hk'. unfold bt_keys in Hk'. simpl in Hk'.
    apply elem_of_cons in Hk' as [->|Hk']; [done|]. eapply klt_trans; eauto.
  - constructor; [|done]. intros k' Hk'. apply bt_keys_insert in Hk' as [->|]; [|auto].
    by apply klt_total.
Qed.

Lemma bt_remove_sorted m k : bt_sorted m → bt_sorted (bt_remove m k).
Proof.
  induction 1 as [|k1 v1 m Hlt Hm IH]; simpl; [constructor|].
  case_decide; [done|]. constructor; [|done].
  intros k' Hk'. apply Hlt. by eapply bt_keys_remove_subset.
Qed.

Lemma bt_sorted_nodup m : bt_sorted m → NoDup (bt_keys m).
Proof.
  induction 1 as [|k v m Hlt Hm IH]; [constructor|]. unfold bt_keys in *. simpl.
  constructor; [|done]. intros Hin. apply Hlt in Hin. by rewrite klt_irrefl in Hin.
Qed.

Lemma bt_lookup_insert m k v k' :
  bt_lookup (bt_insert m k v) k' = if decide (k = k') then Some v else bt_lookup m k'.
Proof.
  induction m as [|[k1 v1] m IH]; simpl; [done|].
  repeat (case_decide || case_match); simplify_eq/=; repeat case_decide; simplify_eq; try done.
Qed.

Lemma bt_lookup_remove m k k' :
  bt_sorted m → bt_lookup (bt_remove m k) k' = if decide (k = k') then None else bt_lookup m k'.
Proof.
  induction 1 as [|k1 v1 m Hlt Hm IH]; simpl; [by case_decide|].
  repeat case_decide; simplify_eq/=; repeat case_decide; simplify_eq; try done.
  apply bt_lookup_None. intros Hin%Hlt. by rewrite klt_irrefl in Hin.
Qed.

(** In a sorted map the bindings are what the lookup finds. *)
Lemma bt_elem m k v : bt_sorted m → (k, v) ∈ m ↔ bt_lookup m k = Some v.
Proof.
  intros Hm. split; [|apply bt_lookup_Some_in].
  induction Hm as [|k1 v1 m Hlt Hm IH]; intros Hin; [by apply not_elem_of_nil in Hin|]. simpl.
  apply elem_of_cons in Hin as [[= <- <-]|Hin]; [by rewrite decide_True|].
  rewrite decide_False; [by apply IH|]. intros ->.
  assert (k ∈ bt_keys m) as Hk%Hlt by (by apply (list_elem_of_fmap_2 fst _ (k, v))).
  by rewrite klt_irrefl in Hk.
Qed.

Lemma bt_elem_insert m k v k' v' :
  bt_sorted m → (k', v') ∈ bt_insert m k v ↔ (k' = k ∧ v' = v) ∨ (k' ≠ k ∧ (k', v') ∈ m).
Proof.
  intros Hm. rewrite !bt_elem, bt_lookup_insert by auto using bt_insert_sorted. case_decide; naive_solver.
Qed.

Lemma bt_elem_remove m k k' v' :
  bt_sorted m → (k', v') ∈ bt_remove m k ↔ k' ≠ k ∧ (k', v') ∈ m.
Proof.
  intros Hm. rewrite !bt_elem, bt_lookup_remove by auto using bt_remove_sorted. case_decide; naive_solver.
Qed.

(** A key above every binding is appended. *)
Lemma bt_insert_last m k v :
  (∀ k', k' ∈ bt_keys m → klt k' k = true) → bt_insert m k v = m ++ [(k, v)].
Proof.
  induction m as [|[k1 v1] m IH]; intros Hlt; simpl; [done|].
  assert (klt k1 k = true) as H1 by (apply Hlt; set_solver).
  rewrite decide_False by (intros ->; by rewrite klt_irrefl in H1).
  destruct (klt k k1) eqn:E.
  { pose proof (klt_trans _ _ _ E H1) as H2. by rewrite klt_irrefl in H2. }
  f_equal. apply IH. intros k' Hk'. apply Hlt. set_solver.
Qed.

(** The first binding of a sorted map has the least key. *)
Lemma bt_sorted_first m k v k' :
  bt_sorted ((k, v) :: m) → k' ∈ bt_keys m → klt k k' = true.
Proof. inversion 1; auto. Qed.
End btree.

#[global, program] Instance Z_key_order : KeyOrder Z := {| klt := Z.ltb |}.
Next Obligation. intros; lia. Qed.
Next Obligation. intros; lia. Qed.
Next Obligation. intros; lia. Qed.

(** Pairs are ordered lexicographically, as [Ord] derives it for tuples. *)
#[global, program] Instance Zpair_key_order : KeyOrder (Z * Z) :=
  {| klt := λ a b, Z.ltb a.1 b.1 || (Z.eqb a.1 b.1 && Z.ltb a.2 b.2) |}.
Next Obligation. intros [] ; simpl; lia. Qed.
Next Obligation. intros [] [] []; simpl; lia. Qed.
Next Obligation.
  intros [a1 a2] [b1 b2] Hne; simpl.
  assert (a1 ≠ b1 ∨ a2 ≠ b2) by (destruct (decide (a1 = b1)); [right|by left]; congruence). lia.
Qed.

#[export] Hint Resolve bt_insert_sorted bt_remove_sorted bt_sorted_nil : cordis.
