(* ===== verification/Deadline.v ===== *)
(** The deadline scheduler (crates/cordis-core/src/deadline.rs): an ordered map of armed
    deadlines, the arms that insert and cancel them, and the worker thread that fires
    them, as a concurrent protocol.

    A critical section of the schedule's mutex is one step, as is a notification of its
    condition variable, a send, and a reading of the clock.  A oneshot channel is its
    sender's fate and whether its receiver is closed; the wake that a send performs runs
    contained user code and has no effect here.  The clock never goes backwards. *)
From S2P Require Import Prelude Axes BTree.

(** Nanoseconds of the monotonic clock; a [Duration] is one that is not negative. *)
Abbreviation Instant := Z (only parsing).

(** * The schedule *)

(* @src crates/cordis-core/src/deadline.rs 20-20 DeadlineKey *)
Definition DeadlineKey : Type := Instant * Z.

(* @src crates/cordis-core/src/deadline.rs 26-30 Schedule *)
Record Schedule := { sc_armed : list (DeadlineKey * Addr); sc_next_id : Z; sc_worker_running : bool }.

(* @src crates/cordis-core/src/deadline.rs 57-72 DeadlineScheduler::new *)
Definition Schedule_new : Schedule := {| sc_armed := []; sc_next_id := 0; sc_worker_running := false |}.

(** [Refused] is [Err(DeadlineUnavailable)]; [Exhausted] is the [expect] panic "deadline
    identity space exhausted". *)
Inductive Insertion := Inserted (key : DeadlineKey) (earliest : bool) | Refused | Exhausted.

(** [first_key_value().is_none_or(|(first, _)| key < *first)] *)
(* @src crates/cordis-core/src/deadline.rs 122-125 DeadlineScheduler::insert *)
Definition is_earliest (key : DeadlineKey) (armed : list (DeadlineKey * Addr)) : bool :=
  match armed with [] => true | (first, _) :: _ => klt (K := Z * Z) key first end.

(** The critical section of [insert]; [os] tells whether the operating system grants a
    worker thread when one is asked for. *)
(* @src crates/cordis-core/src/deadline.rs 106-128 DeadlineScheduler::insert *)
Definition insert (os : bool) (deadline : Instant) (sender : Addr) (s : Schedule) : Insertion * Schedule :=
  if negb (sc_worker_running s) && negb os then (Refused, s)
  else match checked_succ (sc_next_id s) with
       | None => (Exhausted, {| sc_armed := sc_armed s; sc_next_id := sc_next_id s; sc_worker_running := true |})
       | Some next =>
           let key := (deadline, sc_next_id s) in
           (Inserted key (is_earliest key (sc_armed s)),
            {| sc_armed := bt_insert (K := Z * Z) (sc_armed s) key sender; sc_next_id := next; sc_worker_running := true |})
       end.

(** The removed sender, which is dropped outside the lock. *)
(* @src crates/cordis-core/src/deadline.rs 137-141 DeadlineScheduler::disarm *)
Definition disarm (key : DeadlineKey) (s : Schedule) : option Addr * Schedule :=
  (bt_lookup (K := Z * Z) (sc_armed s) key,
   {| sc_armed := bt_remove (K := Z * Z) (sc_armed s) key; sc_next_id := sc_next_id s; sc_worker_running := sc_worker_running s |}).

(** [while let Some(entry) = schedule.armed.first_entry()]; the fuel bounds the rounds. *)
(* @src crates/cordis-core/src/deadline.rs 205-211 DeadlineScheduler::serve *)
Fixpoint collect_due (fuel : nat) (now : Instant) (armed : list (DeadlineKey * Addr)) (due : list Addr)
  : option (list Addr * list (DeadlineKey * Addr)) :=
  match fuel with
  | O => None
  | S fuel =>
      match armed with
      | [] => Some (due, armed)
      | (key, sender) :: rest =>
          if decide (now < key.1)%Z then Some (due, armed) else collect_due fuel now rest (due ++ [sender])
      end
  end.

(** The unwinding or exiting worker hands over to a replacement if entries are armed. *)
(* @src crates/cordis-core/src/deadline.rs 161-175 DeadlineScheduler::worker_main *)
Definition retire (os : bool) (s : Schedule) : Schedule :=
  {| sc_armed := sc_armed s; sc_next_id := sc_next_id s;
     sc_worker_running := match sc_armed s with [] => false | _ => os end |}.

(** * Channels *)

Inductive SenderFate := SenderHeld | SenderSent | SenderDropped.
Record Channel := { ch_sender : SenderFate; ch_closed : bool }.

(** [Sender::send] consumes the sender; a closed receiver gets nothing. *)
Definition send (ch : Channel) : Channel :=
  {| ch_sender := match ch_sender ch with SenderHeld => if ch_closed ch then SenderDropped else SenderSent | f => f end;
     ch_closed := ch_closed ch |}.

Definition drop_sender (ch : Channel) : Channel :=
  {| ch_sender := match ch_sender ch with SenderHeld => SenderDropped | f => f end; ch_closed := ch_closed ch |}.

Definition close (ch : Channel) : Channel := {| ch_sender := ch_sender ch; ch_closed := true |}.

(** Polling the receiver: ready once the sender was used or dropped. *)
(* @src crates/cordis-core/src/deadline.rs 263-268 Watchdog::poll *)
Definition poll (ch : Channel) : option (result () ()) :=
  match ch_sender ch with SenderHeld => None | SenderSent => Some (Ok ()) | SenderDropped => Some (Err ()) end.

(** * The protocol *)

(* @src crates/cordis-core/src/deadline.rs 240-250 Slot *)
Inductive Slot := Armed (key : DeadlineKey) | Never | Fired.

(** A watchdog, from the pinning of its deadline to the end of its drop: between the
    clock and the insertion; between the insertion and its notification; in its owner's
    hands; between the closing of the receiver and the removal of the entry. *)
(* @src crates/cordis-core/src/deadline.rs 255-258 Watchdog *)
Inductive Client :=
| Pinned (deadline : Instant)
| Notifying (key : DeadlineKey)
| Held (slot : Slot)
| Dropping (key : DeadlineKey).

(** The worker thread: about to take the lock, delivering, or parked on the condition
    variable, with the instant it wakes at. *)
Inductive Worker := NoWorker | Ready | Delivering (due : list Addr) | Parked (until : option Instant).

(** Channels and the watchdogs that hold their receivers. *)
Record Scheduler := {
  sy_schedule : Schedule;
  sy_channels : gmap Addr Channel;
  sy_clients : gmap Addr Client;
  sy_worker : Worker;
  sy_now : Instant;
}.

Definition Scheduler_new (now : Instant) : Scheduler :=
  {| sy_schedule := Schedule_new; sy_channels := ∅; sy_clients := ∅; sy_worker := NoWorker; sy_now := now |}.

Definition set_schedule f s := {| sy_schedule := f; sy_channels := sy_channels s; sy_clients := sy_clients s; sy_worker := sy_worker s; sy_now := sy_now s |}.
Definition set_channels f s := {| sy_schedule := sy_schedule s; sy_channels := f; sy_clients := sy_clients s; sy_worker := sy_worker s; sy_now := sy_now s |}.
Definition set_clients f s := {| sy_schedule := sy_schedule s; sy_channels := sy_channels s; sy_clients := f; sy_worker := sy_worker s; sy_now := sy_now s |}.
Definition set_worker f s := {| sy_schedule := sy_schedule s; sy_channels := sy_channels s; sy_clients := sy_clients s; sy_worker := f; sy_now := sy_now s |}.
Definition set_now f s := {| sy_schedule := sy_schedule s; sy_channels := sy_channels s; sy_clients := sy_clients s; sy_worker := sy_worker s; sy_now := f |}.

Definition on_channel (c : Addr) (f : Channel → Channel) (s : Scheduler) : Scheduler :=
  set_channels (alter f c (sy_channels s)) s.
Definition put_client (c : Addr) (cl : Client) (s : Scheduler) : Scheduler := set_clients (<[ c := cl ]> (sy_clients s)) s.
Definition drop_client (c : Addr) (s : Scheduler) : Scheduler := set_clients (delete c (sy_clients s)) s.

(** The worker thread exists exactly while [worker_running] says so; a spawned one first
    takes the lock. *)
(* @src crates/cordis-core/src/deadline.rs 143-153 DeadlineScheduler::spawn_worker *)
Definition spawn_worker (before : Schedule) (s : Scheduler) : Scheduler :=
  if negb (sc_worker_running before) && sc_worker_running (sy_schedule s) then set_worker Ready s else s.

Section protocol.
(** The last instant the platform's clock represents. *)
Variable instant_max : Instant.

(** [Instant::checked_add] *)
Definition checked_add (now : Instant) (timeout : Z) : option Instant :=
  if decide (now + timeout <= instant_max)%Z then Some (now + timeout)%Z else None.

(** The channel, the clock, and the two arms that need no scheduler. *)
(* @src crates/cordis-core/src/deadline.rs 78-93 DeadlineScheduler::arm *)
Definition arm (c : Addr) (timeout : Z) (s : Scheduler) : Scheduler :=
  let create fate slot := put_client c slot (set_channels (<[ c := {| ch_sender := fate; ch_closed := false |} ]> (sy_channels s)) s) in
  match checked_add (sy_now s) timeout with
  | None => create SenderHeld (Held Never)
  | Some deadline =>
      if decide (deadline <= sy_now s)%Z then create SenderSent (Held Fired) else create SenderHeld (Pinned deadline)
  end.

(** The receiver is dropped with the error or the panic, and the sender with it. *)
(* @src crates/cordis-core/src/deadline.rs 95-103 DeadlineScheduler::arm *)
Definition arm_insert (os : bool) (c : Addr) (deadline : Instant) (s : Scheduler) : Scheduler :=
  let '(outcome, sched) := insert os deadline c (sy_schedule s) in
  let s' := spawn_worker (sy_schedule s) (set_schedule sched s) in
  match outcome with
  | Inserted key earliest => put_client c (if earliest then Notifying key else Held (Armed key)) s'
  | Refused | Exhausted => drop_client c (on_channel c (drop_sender ∘ close) s')
  end.

(** [changed.notify_one()] wakes the worker if it is parked. *)
(* @src crates/cordis-core/src/deadline.rs 129-132 DeadlineScheduler::insert *)
Definition notify_one (s : Scheduler) : Scheduler :=
  match sy_worker s with Parked _ => set_worker Ready s | _ => s end.

(** Dropping a watchdog closes the receiver and then removes the entry; the sender of an
    unrepresentable deadline goes with its slot. *)
(* @src crates/cordis-core/src/deadline.rs 271-280 Watchdog::drop *)
Definition drop_watchdog (c : Addr) (slot : Slot) (s : Scheduler) : Scheduler :=
  match slot with
  | Armed key => put_client c (Dropping key) (on_channel c close s)
  | Never => drop_client c (on_channel c (drop_sender ∘ close) s)
  | Fired => drop_client c (on_channel c close s)
  end.

(* @src crates/cordis-core/src/deadline.rs 276-279 Watchdog::drop *)
Definition drop_disarm (c : Addr) (key : DeadlineKey) (s : Scheduler) : Scheduler :=
  let '(removed, sched) := disarm key (sy_schedule s) in
  let s' := drop_client c (set_schedule sched s) in
  match removed with Some sender => on_channel sender drop_sender s' | None => s' end.

(** One round of [serve] under the lock: what is due leaves the map, or the worker parks
    until the first deadline. *)
(* @src crates/cordis-core/src/deadline.rs 191-232 DeadlineScheduler::serve *)
Definition serve (s : Scheduler) : option Scheduler :=
  let sched := sy_schedule s in
  match collect_due (S (length (sc_armed sched))) (sy_now s) (sc_armed sched) [] with
  | None => None
  | Some ([], armed) => Some (set_worker (Parked (head (map (λ e, e.1.1) armed))) s)
  | Some (due, armed) =>
      Some (set_worker (Delivering due)
        (set_schedule {| sc_armed := armed; sc_next_id := sc_next_id sched; sc_worker_running := sc_worker_running sched |} s))
  end.

(** One contained wake outside the lock; after the last the worker takes the lock. *)
(* @src crates/cordis-core/src/deadline.rs 213-223 DeadlineScheduler::serve *)
Definition deliver (due : list Addr) (s : Scheduler) : Scheduler :=
  match due with
  | [] => set_worker Ready s
  | sender :: due => set_worker (Delivering due) (on_channel sender send s)
  end.

(** An unexpected panic while serving: the senders not yet used are dropped by the
    unwinding, and serving resumes on the same thread. *)
(* @src crates/cordis-core/src/deadline.rs 177-187 DeadlineScheduler::worker_main *)
Definition serve_fault (s : Scheduler) : Scheduler :=
  let due := match sy_worker s with Delivering due => due | _ => [] end in
  set_worker Ready (foldl (λ s c, on_channel c drop_sender s) s due).

(** What may happen next, by whichever thread. *)
Inductive Event :=
| EClock (now : Instant)
| EArm (c : Addr) (timeout : Z)
| EInsert (os : bool) (c : Addr)
| ENotify (c : Addr)
| EDrop (c : Addr)
| EDisarm (c : Addr)
| EWake
| EServe
| EDeliver
| EFault
| EExit (os : bool).

Definition step (e : Event) (s : Scheduler) : option Scheduler :=
  match e with
  | EClock now => if decide (sy_now s <= now)%Z then Some (set_now now s) else None
  | EArm c timeout =>
      match sy_channels s !! c with
      | None => if decide (0 <= timeout)%Z then Some (arm c timeout s) else None
      | Some _ => None
      end
  | EInsert os c => match sy_clients s !! c with Some (Pinned deadline) => Some (arm_insert os c deadline s) | _ => None end
  | ENotify c =>
      match sy_clients s !! c with Some (Notifying key) => Some (put_client c (Held (Armed key)) (notify_one s)) | _ => None end
  | EDrop c => match sy_clients s !! c with Some (Held slot) => Some (drop_watchdog c slot s) | _ => None end
  | EDisarm c => match sy_clients s !! c with Some (Dropping key) => Some (drop_disarm c key s) | _ => None end
  | EWake => match sy_worker s with Parked _ => Some (set_worker Ready s) | _ => None end
  | EServe => match sy_worker s with Ready => serve s | _ => None end
  | EDeliver => match sy_worker s with Delivering due => Some (deliver due s) | _ => None end
  | EFault => match sy_worker s with Ready | Delivering _ => Some (serve_fault s) | _ => None end
  | EExit os =>
      match sy_worker s with
      | Ready => let sched := retire os (sy_schedule s) in
                 Some (set_worker (if sc_worker_running sched then Ready else NoWorker) (set_schedule sched s))
      | _ => None
      end
  end.

Definition run (s : Scheduler) (es : list Event) : option Scheduler := foldl (λ o e, o ≫= step e) (Some s) es.
End protocol.

(** * The invariant *)

Definition due_of (w : Worker) : list Addr := match w with Delivering due => due | _ => [] end.

(** The entry a watchdog armed. *)
Definition client_key (cl : Client) : option DeadlineKey :=
  match cl with Notifying key | Held (Armed key) | Dropping key => Some key | _ => None end.

(** The instant a watchdog elapses at, if it has one in the future of its arming. *)
Definition client_deadline (cl : Client) : option Instant :=
  match cl with Pinned d => Some d | _ => fst <$> client_key cl end.

Definition held_open : Channel := {| ch_sender := SenderHeld; ch_closed := false |}.

(** An armed watchdog is in the map, or it is due: on its way to be delivered, or its
    sender was used. *)
Definition served (s : Scheduler) (c : Addr) (key : DeadlineKey) (fate : SenderFate) : Prop :=
  ((key, c) ∈ sc_armed (sy_schedule s) ∧ fate = SenderHeld) ∨
  ((key.1 <= sy_now s)%Z ∧ (c ∈ due_of (sy_worker s) ∨ fate ≠ SenderHeld)).

(** What holds of a watchdog and its channel. *)
Definition client_ok (s : Scheduler) (c : Addr) (cl : Client) (ch : Channel) : Prop :=
  match cl with
  | Pinned _ | Held Never => ch = held_open ∧ c ∉ due_of (sy_worker s) ∧ ∀ key, (key, c) ∉ sc_armed (sy_schedule s)
  | Held Fired => ch_sender ch = SenderSent
  | Notifying key | Held (Armed key) => ch_closed ch = false ∧ served s c key (ch_sender ch)
  | Dropping key => ch_closed ch = true ∧ served s c key (ch_sender ch)
  end.

(** The worker never sleeps past an armed deadline, unless a notification is on its way. *)
Definition parked_ok (s : Scheduler) : Prop :=
  ∀ until, sy_worker s = Parked until →
  (∃ c key, sy_clients s !! c = Some (Notifying key)) ∨
  ∀ key c, (key, c) ∈ sc_armed (sy_schedule s) → ∃ u, until = Some u ∧ (u <= key.1)%Z.

Record sched_ok (s : Scheduler) : Prop := {
  so_sorted : bt_sorted (sc_armed (sy_schedule s));
  so_ids : ∀ key, key ∈ bt_keys (sc_armed (sy_schedule s)) → (key.2 < sc_next_id (sy_schedule s))%Z;
  so_worker : sc_worker_running (sy_schedule s) = true ↔ sy_worker s ≠ NoWorker;
  so_armed : ∀ key c, (key, c) ∈ sc_armed (sy_schedule s) →
    c ∉ due_of (sy_worker s) ∧
    ∃ cl ch, sy_clients s !! c = Some cl ∧ client_key cl = Some key ∧
                                        sy_channels s !! c = Some ch ∧ ch_sender ch = SenderHeld;
  so_due : ∀ c, c ∈ due_of (sy_worker s) → is_Some (sy_channels s !! c);
  so_client : ∀ c cl, sy_clients s !! c = Some cl → ∃ ch, sy_channels s !! c = Some ch ∧ client_ok s c cl ch;
  so_keys : ∀ c cl key, sy_clients s !! c = Some cl → client_key cl = Some key →
    (key.2 < sc_next_id (sy_schedule s))%Z ∧
    ∀ c' cl', sy_clients s !! c' = Some cl' → client_key cl' = Some key → c' = c;
  so_parked : parked_ok s;
}.

Lemma Scheduler_new_ok now : sched_ok (Scheduler_new now).
Proof. by split; cbn; try (intros *; rewrite ?lookup_empty; try by intros ?%not_elem_of_nil); try done; constructor. Qed.

(** ** The collection of due entries *)

(** With a fuel above the number of entries the loop ends: what is due left the map in
    order, what stays is later. *)
Lemma collect_due_spec fuel now armed due :
  bt_sorted armed → length armed < fuel →
  ∃ out rest, collect_due fuel now armed due = Some (due ++ out.*2, rest) ∧ armed = out ++ rest ∧
    (∀ e, e ∈ out → e.1.1 <= now)%Z ∧ (∀ e, e ∈ rest → now < e.1.1)%Z.
Proof.
  intros Hm. revert fuel due. induction Hm as [|[d i] v m Hlt Hm IH]; intros [|fuel] due Hf; simpl in *; try lia.
  { exists [], []. rewrite app_nil_r. split_and!; try done; by intros ? ?%not_elem_of_nil. }
  case_decide as Hd.
  - exists [], (((d, i), v) :: m). rewrite app_nil_r. split_and!; try done; [by intros ? ?%not_elem_of_nil|].
    intros [[d' i'] v'] [[= -> -> ->]|Hin]%elem_of_cons; [done|].
    assert ((d', i') ∈ bt_keys m) as Hk%Hlt by (by apply (list_elem_of_fmap_2 fst _ ((d', i'), v'))). cbn in *. lia.
  - destruct (IH fuel (due ++ [v]) ltac:(lia)) as (out & rest & Heq & -> & Ho & Hr).
    exists (((d, i), v) :: out), rest. rewrite Heq. cbn. rewrite <- app_assoc. split_and!; try done.
    intros e [->|He]%elem_of_cons; [cbn; lia|by apply Ho].
Qed.

(** ** Preservation *)

Lemma served_mono s s' c key fate :
  (∀ k, (k, c) ∈ sc_armed (sy_schedule s) → (k, c) ∈ sc_armed (sy_schedule s')) → (sy_now s <= sy_now s')%Z →
  (c ∈ due_of (sy_worker s) → c ∈ due_of (sy_worker s')) → served s c key fate → served s' c key fate.
Proof. intros Ha Hn Hd [[H1 H2]|[H1 H2]]; [left; auto|right; split; [lia|naive_solver]]. Qed.

(** A step that leaves the entries and the delivery of a watchdog leaves it in order. *)
Lemma client_ok_frame s s' c cl ch :
  (∀ k, (k, c) ∈ sc_armed (sy_schedule s) ↔ (k, c) ∈ sc_armed (sy_schedule s')) → (sy_now s <= sy_now s')%Z →
  (c ∈ due_of (sy_worker s) ↔ c ∈ due_of (sy_worker s')) → client_ok s c cl ch → client_ok s' c cl ch.
Proof.
  intros Ha Hn Hd. destruct cl as [d|key|[key| |]|key]; cbn; try tauto.
  1, 4: intros (? & ? & ?); split_and!; [done|by rewrite <- Hd|intros k; by rewrite <- Ha].
  all: intros [? H]; (split; [done|]); revert H; apply served_mono; try done; intros *; (apply Ha || apply Hd).
Qed.

Lemma step_clock_ok now s : sched_ok s → (sy_now s <= now)%Z → sched_ok (set_now now s).
Proof.
  intros [Hs Hi Hw Ha Hd Hc Hks Hp] Hn. split; try done.
  intros c cl Hcl. destruct (Hc _ _ Hcl) as (ch & Hch & Hok). exists ch. split; [done|].
  by apply (client_ok_frame s).
Qed.

Lemma step_wake_ok u s : sched_ok s → sy_worker s = Parked u → sched_ok (set_worker Ready s).
Proof.
  intros [Hs Hi Hw Ha Hd Hc Hks Hp] Hu. rewrite Hu in *. split; try done; [cbn; naive_solver|].
  intros c cl Hcl. destruct (Hc _ _ Hcl) as (ch & Hch & Hok). exists ch. split; [done|].
  apply (client_ok_frame s); try done. by rewrite Hu.
Qed.

Lemma bt_sorted_app (m1 m2 : list (DeadlineKey * Addr)) : bt_sorted (m1 ++ m2) → bt_sorted m2.
Proof. induction m1 as [|[k v] m1 IH]; [done|]. cbn. inversion 1; subst. by apply IH. Qed.

(** An address has one armed entry at most. *)
Lemma armed_unique s k k' c :
  sched_ok s → (k, c) ∈ sc_armed (sy_schedule s) → (k', c) ∈ sc_armed (sy_schedule s) → k = k'.
Proof.
  intros Hok (_ & cl & ch & Hcl & Hk & _)%(so_armed _ Hok) (_ & cl' & ch' & Hcl' & Hk' & _)%(so_armed _ Hok). congruence.
Qed.

Definition with_armed (armed : list (DeadlineKey * Addr)) (s : Scheduler) : Scheduler :=
  set_schedule {| sc_armed := armed; sc_next_id := sc_next_id (sy_schedule s);
                  sc_worker_running := sc_worker_running (sy_schedule s) |} s.

(** A round parks until the first entry when none is due, else takes out what is due. *)
Lemma serve_spec s :
  sched_ok s → ∃ out rest,
    sc_armed (sy_schedule s) = out ++ rest ∧ (∀ e, e ∈ out → e.1.1 <= sy_now s)%Z ∧ (∀ e, e ∈ rest → sy_now s < e.1.1)%Z ∧
    serve s = Some (match out with
                    | [] => set_worker (Parked (head (map (λ e, e.1.1) rest))) s
                    | _ => set_worker (Delivering out.*2) (with_armed rest s)
                    end).
Proof.
  intros Hok. unfold serve.
  destruct (collect_due_spec (S (length (sc_armed (sy_schedule s)))) (sy_now s) (sc_armed (sy_schedule s)) [])
    as (out & rest & -> & Harm & Ho & Hr); [apply Hok|lia|].
  exists out, rest. split_and!; try done. by destruct out.
Qed.

Lemma serve_park_ok s :
  sched_ok s → sy_worker s = Ready → sched_ok (set_worker (Parked (head (map (λ e, e.1.1) (sc_armed (sy_schedule s))))) s).
Proof.
  intros [Hs Hi Hwk Ha Hd Hc Hks Hp] Hw. rewrite Hw in *. split; try done; [cbn; naive_solver| |].
  - intros c cl Hcl. destruct (Hc _ _ Hcl) as (ch & Hch & Hok). exists ch. split; [done|].
    apply (client_ok_frame s); try done. by rewrite Hw.
  - intros u [= <-]. right. intros key c Hin. cbn in Hin.
    destruct (sc_armed (sy_schedule s)) as [|[k1 c1] rest]; [by apply not_elem_of_nil in Hin|]. exists k1.1. split; [done|].
    apply elem_of_cons in Hin as [[= -> _]|Hin]; [done|].
    assert (klt (K := Z * Z) k1 key = true) as Hlt; [|destruct k1, key; cbn in Hlt |- *; lia].
    eapply bt_sorted_first; [exact Hs|]. by apply (list_elem_of_fmap_2 fst _ (key, c)).
Qed.

Lemma serve_deliver_ok s out rest :
  sched_ok s → sy_worker s = Ready → sc_armed (sy_schedule s) = out ++ rest → (∀ e, e ∈ out → e.1.1 <= sy_now s)%Z →
  sched_ok (set_worker (Delivering out.*2) (with_armed rest s)).
Proof.
  intros Hok Hw Harm Ho.
  assert (∀ c, c ∈ out.*2 → ∃ key, (key, c) ∈ sc_armed (sy_schedule s) ∧ (key, c) ∈ out) as Hout.
  { intros c ([key c'] & -> & Hin)%list_elem_of_fmap. exists key. rewrite Harm. set_solver. }
  assert (∀ key c, (key, c) ∈ rest → (key, c) ∈ sc_armed (sy_schedule s)) as Hrest by (intros; rewrite Harm; set_solver).
  assert (∀ key c, (key, c) ∈ rest → c ∉ out.*2) as Hdis.
  { intros key c Hin (key' & Hin' & Ho')%Hout.
    pose proof (armed_unique s key key' c Hok (Hrest _ _ Hin) Hin') as <-.
    pose proof (bt_sorted_nodup _ (so_sorted _ Hok)) as Hnd. rewrite Harm in Hnd. unfold bt_keys in Hnd.
    rewrite fmap_app in Hnd. apply NoDup_app in Hnd as (_ & Hnd & _).
    by apply (Hnd key); apply (list_elem_of_fmap_2 fst _ (key, c)). }
  split; cbn.
  - pose proof (so_sorted _ Hok) as Hs. rewrite Harm in Hs. by eapply bt_sorted_app.
  - intros key Hin. apply (so_ids _ Hok). rewrite Harm. unfold bt_keys in *. rewrite fmap_app. set_solver.
  - rewrite (so_worker _ Hok), Hw. naive_solver.
  - intros key c Hin. split; [by eapply Hdis|]. by apply (so_armed _ Hok), Hrest.
  - intros c (key & Hin & _)%Hout. destruct (so_armed _ Hok _ _ Hin) as (_ & _ & ch & _ & _ & -> & _). done.
  - intros c cl Hcl. destruct (so_client _ Hok _ _ Hcl) as (ch & Hch & Hcok). exists ch. split; [done|].
    assert (∀ key, served s c key (ch_sender ch) →
      served (set_worker (Delivering out.*2) (with_armed rest s)) c key (ch_sender ch)) as Hsrv.
    { intros key [[Hin Hf]|[Hle Hf]].
      - rewrite Harm in Hin. apply elem_of_app in Hin as [Hin|Hin]; [right|by left].
        split; [by apply (Ho _ Hin)|left]. by apply (list_elem_of_fmap_2 snd _ (key, c)).
      - right. rewrite Hw in Hf. cbn in *. split; [done|right]. destruct Hf as [[]%not_elem_of_nil|]; done. }
    destruct cl as [d|key|[key| |]|key]; cbn in Hcok |- *; try done.
    2, 3, 5: destruct Hcok; split; auto.
    all: destruct Hcok as (? & ? & Hno); split_and!; [done|by intros (? & ?%Hno & _)%Hout|by intros key ?%Hrest%Hno].
  - apply Hok.
  - by intros u.
Qed.

Lemma step_serve_ok s s' : sched_ok s → sy_worker s = Ready → serve s = Some s' → sched_ok s'.
Proof.
  intros Hok Hw. destruct (serve_spec s Hok) as (out & rest & Harm & Ho & _ & ->). intros [= <-].
  destruct out; [|by apply serve_deliver_ok]. cbn in Harm. rewrite <- Harm. by apply serve_park_ok.
Qed.

(** ** The senders used *)

(** A sender in delivery is used up by [f]. *)
Lemma use_sender_ok c f due s :
  (∀ ch, ch_sender (f ch) ≠ SenderHeld ∧ ch_closed (f ch) = ch_closed ch) → (∀ ch, ch_sender ch = SenderSent → f ch = ch) →
  sched_ok s → sy_worker s = Delivering (c :: due) → sched_ok (set_worker (Delivering due) (on_channel c f s)).
Proof.
  intros Hf Hf' [Hs Hi Hw Ha Hd Hc Hks Hp] Hwk. rewrite Hwk in *. cbn in *. split; cbn; try done.
  - naive_solver.
  - intros key c' Hin. destruct (Ha _ _ Hin) as (Hnin & cl & ch & Hcl & Hk & Hch & Hh). split; [set_solver|].
    exists cl, ch. by rewrite lookup_alter_ne by set_solver.
  - intros c' Hin. rewrite lookup_alter_is_Some. set_solver.
  - intros c' cl Hcl. destruct (Hc _ _ Hcl) as (ch & Hch & Hok). destruct (decide (c = c')) as [<-|Hne].
    + exists (f ch). rewrite lookup_alter_eq, Hch. split; [done|]. destruct (Hf ch) as [Hused Hcl'].
      assert (∀ key, served s c key (ch_sender ch) →
        served (set_worker (Delivering due) (on_channel c f s)) c key (ch_sender (f ch))) as Hsrv.
      { intros key [[Hin _]|[Hle _]]; [|right; auto]. destruct (Ha _ _ Hin) as [Hnin _]. set_solver. }
      destruct cl as [d|key|[key| |]|key]; cbn in Hok |- *; rewrite ?Hcl'; try by (destruct Hok; split; auto).
      1, 2: rewrite Hwk in Hok; destruct Hok as (_ & Hnin & _); set_solver. by rewrite Hf'.
    + exists ch. rewrite lookup_alter_ne by done. split; [done|].
      apply (client_ok_frame s); try done. rewrite Hwk. cbn. set_solver.
Qed.

Lemma send_used ch : ch_sender (send ch) ≠ SenderHeld ∧ ch_closed (send ch) = ch_closed ch.
Proof. by destruct ch as [[] []]. Qed.

Lemma drop_sender_used ch : ch_sender (drop_sender ch) ≠ SenderHeld ∧ ch_closed (drop_sender ch) = ch_closed ch.
Proof. by destruct ch as [[] []]. Qed.

Lemma delivered_ok s : sched_ok s → sy_worker s = Delivering [] → sched_ok (set_worker Ready s).
Proof.
  intros [Hs Hi Hw Ha Hd Hc Hks Hp] Hwk. rewrite Hwk in *. split; cbn in *; try done; [naive_solver|].
  intros c cl Hcl. destruct (Hc _ _ Hcl) as (ch & Hch & Hok). exists ch. split; [done|].
  apply (client_ok_frame s); try done. by rewrite Hwk.
Qed.

Lemma step_deliver_ok due s : sched_ok s → sy_worker s = Delivering due → sched_ok (deliver due s).
Proof.
  intros Hok Hw. destruct due as [|c due]; [by apply delivered_ok|]. cbn.
  apply use_sender_ok; try done; [apply send_used|by intros [[] []]].
Qed.

Lemma drop_all_ok due s :
  sched_ok s → sy_worker s = Delivering due → sched_ok (set_worker Ready (foldl (λ s c, on_channel c drop_sender s) s due)).
Proof.
  revert s. induction due as [|c due IH]; intros s Hok Hw; [by apply delivered_ok|]. cbn.
  assert (sched_ok (set_worker (Delivering due) (on_channel c drop_sender s))) as Hok'.
  { apply use_sender_ok; try done; [apply drop_sender_used|by intros [[] []]]. }
  apply IH in Hok'; [|done].
  assert (∀ l w s, foldl (λ s c, on_channel c drop_sender s) (set_worker w s) l =
                   set_worker w (foldl (λ s c, on_channel c drop_sender s) s l)) as Hcomm.
  { clear. induction l as [|c l IH]; intros w s; [done|]. cbn. by rewrite <- IH. }
  by rewrite Hcomm in Hok'.
Qed.

Lemma step_fault_ok s :
  sched_ok s → (sy_worker s = Ready ∨ ∃ due, sy_worker s = Delivering due) → sched_ok (serve_fault s).
Proof.
  intros Hok [Hw|[due Hw]]; unfold serve_fault; rewrite Hw; [|by apply drop_all_ok].
  assert (set_worker Ready s = s) as Heq by (destruct s; cbn in *; by subst). cbn. by rewrite Heq.
Qed.

Lemma step_exit_ok os s :
  sched_ok s → sy_worker s = Ready →
  sched_ok (set_worker (if sc_worker_running (retire os (sy_schedule s)) then Ready else NoWorker)
              (set_schedule (retire os (sy_schedule s)) s)).
Proof.
  intros [Hs Hi Hw Ha Hd Hc Hks Hp] Hwk. rewrite Hwk in *.
  assert (∀ b : bool, due_of (if b then Ready else NoWorker) = []) as Hdue by (by intros []).
  split; unfold parked_ok; cbn; rewrite ?Hdue; try done.
  - destruct (match sc_armed (sy_schedule s) with [] => false | _ => os end); naive_solver.
  - intros c cl Hcl. destruct (Hc _ _ Hcl) as (ch & Hch & Hok). exists ch. split; [done|].
    apply (client_ok_frame s); try done. by rewrite Hwk; cbn; rewrite Hdue.
  - intros u. by destruct (match sc_armed (sy_schedule s) with [] => false | _ => os end).
Qed.

(** ** The steps of a watchdog *)

(** A step that touches one watchdog and its channel only: the others keep their order. *)
Lemma others_ok s s' c :
  (∀ c', c' ≠ c → sy_clients s' !! c' = sy_clients s !! c' ∧ sy_channels s' !! c' = sy_channels s !! c') →
  (∀ k c', c' ≠ c → (k, c') ∈ sc_armed (sy_schedule s) ↔ (k, c') ∈ sc_armed (sy_schedule s')) →
  sy_now s' = sy_now s → due_of (sy_worker s') = due_of (sy_worker s) → sched_ok s →
  ∀ c' cl, c' ≠ c → sy_clients s' !! c' = Some cl → ∃ ch, sy_channels s' !! c' = Some ch ∧ client_ok s' c' cl ch.
Proof.
  intros Hsame Harm Hnow Hdue Hok c' cl Hne Hcl. destruct (Hsame _ Hne) as [Hcl' Hch']. rewrite Hcl' in Hcl.
  destruct (so_client _ Hok _ _ Hcl) as (ch & Hch & Hcok). exists ch. rewrite Hch'. split; [done|].
  apply (client_ok_frame s); [intros k; by apply Harm|lia|by rewrite Hdue|done].
Qed.

Lemma touch_ok s s' c :
  sched_ok s →
  (∀ c', c' ≠ c → sy_clients s' !! c' = sy_clients s !! c' ∧ sy_channels s' !! c' = sy_channels s !! c') →
  (∀ k c', c' ≠ c → (k, c') ∈ sc_armed (sy_schedule s) ↔ (k, c') ∈ sc_armed (sy_schedule s')) →
  sy_now s' = sy_now s → due_of (sy_worker s') = due_of (sy_worker s) →
  bt_sorted (sc_armed (sy_schedule s')) →
  (∀ key, key ∈ bt_keys (sc_armed (sy_schedule s')) → (key.2 < sc_next_id (sy_schedule s'))%Z) →
  (sc_worker_running (sy_schedule s') = true ↔ sy_worker s' ≠ NoWorker) →
  (sc_next_id (sy_schedule s) <= sc_next_id (sy_schedule s'))%Z →
  (∀ cl key, sy_clients s' !! c = Some cl → client_key cl = Some key → (key.2 < sc_next_id (sy_schedule s'))%Z ∧
     ((∃ cl0, sy_clients s !! c = Some cl0 ∧ client_key cl0 = Some key) ∨ (sc_next_id (sy_schedule s) <= key.2)%Z)) →
  (∃ ch, sy_channels s' !! c = Some ch ∧
    (∀ cl, sy_clients s' !! c = Some cl → client_ok s' c cl ch) ∧
    (∀ k, (k, c) ∈ sc_armed (sy_schedule s') → c ∉ due_of (sy_worker s) ∧ ch_sender ch = SenderHeld ∧
       ∃ cl, sy_clients s' !! c = Some cl ∧ client_key cl = Some k)) →
  parked_ok s' → sched_ok s'.
Proof.
  intros Hok Hsame Harm Hnow Hdue Hs Hi Hw Hnext Hnew (ch & Hch & Hcl & Hk) Hp.
  pose proof (others_ok s s' c Hsame Harm Hnow Hdue Hok) as Hothers. split; try done.
  - intros k c' Hin. rewrite Hdue. destruct (decide (c' = c)) as [->|Hne].
    + destruct (Hk _ Hin) as (? & ? & cl & ? & ?). split; [done|]. by exists cl, ch.
    + destruct (Hsame _ Hne) as [-> ->]. apply (so_armed _ Hok). by apply Harm.
  - intros c' Hin. rewrite Hdue in Hin. destruct (decide (c' = c)) as [->|Hne]; [done|].
    destruct (Hsame _ Hne) as [_ ->]. by apply (so_due _ Hok).
  - intros c' cl Hcl'. destruct (decide (c' = c)) as [->|Hne]; [exists ch; auto|by apply Hothers].
  - assert (∀ c' cl key, c' ≠ c → sy_clients s' !! c' = Some cl → client_key cl = Some key →
      sy_clients s !! c' = Some cl ∧ (key.2 < sc_next_id (sy_schedule s))%Z) as Hold.
    { intros c' cl key Hne Hcl' Hkey. destruct (Hsame _ Hne) as [Heq _]. rewrite Heq in Hcl'. split; [done|].
      by apply (so_keys _ Hok c' cl key). }
    intros c1 cl1 key H1 K1. split.
    { destruct (decide (c1 = c)) as [->|Hne]; [by eapply Hnew|]. destruct (Hold _ _ _ Hne H1 K1). lia. }
    intros c2 cl2 H2 K2. destruct (decide (c1 = c)) as [->|Hn1], (decide (c2 = c)) as [->|Hn2]; [done| | |].
    + destruct (Hold _ _ _ Hn2 H2 K2) as [H2' Hlt]. destruct (Hnew _ _ H1 K1) as [_ [(cl0 & H0 & K0)|?]]; [|lia].
      by apply (proj2 (so_keys _ Hok c cl0 key H0 K0) c2 cl2).
    + destruct (Hold _ _ _ Hn1 H1 K1) as [H1' Hlt]. destruct (Hnew _ _ H2 K2) as [_ [(cl0 & H0 & K0)|?]]; [|lia].
      by apply (proj2 (so_keys _ Hok c1 cl1 key H1' K1) c cl0).
    + destruct (Hold _ _ _ Hn1 H1 K1) as [H1' _], (Hold _ _ _ Hn2 H2 K2) as [H2' _]. by apply (proj2 (so_keys _ Hok c1 cl1 key H1' K1) c2 cl2).
Qed.

(** A watchdog that is not notifying may go: the notifications on their way stay. *)
Lemma parked_touch s s' c :
  parked_ok s → (∀ key, sy_clients s !! c ≠ Some (Notifying key)) →
  (∀ c', c' ≠ c → sy_clients s' !! c' = sy_clients s !! c') →
  (∀ u, sy_worker s' = Parked u → sy_worker s = Parked u) →
  (∀ k c', (k, c') ∈ sc_armed (sy_schedule s') → (k, c') ∈ sc_armed (sy_schedule s)) → parked_ok s'.
Proof.
  intros Hp Hno Hsame Hw Harm u Hu. destruct (Hp u (Hw u Hu)) as [(c' & key & Hc')|Hall]; [left|right].
  - exists c', key. rewrite Hsame; [done|]. intros ->. by apply (Hno key).
  - intros key c' Hin. by eapply Hall, Harm.
Qed.

Ltac others := by intros c' Hne; cbn; rewrite ?lookup_insert_ne, ?lookup_delete_ne, ?lookup_alter_ne by done.

Lemma step_notify_ok c key s :
  sched_ok s → sy_clients s !! c = Some (Notifying key) → sched_ok (put_client c (Held (Armed key)) (notify_one s)).
Proof.
  intros Hok Hcl.
  assert (∃ w, notify_one s = set_worker w s ∧ due_of w = due_of (sy_worker s) ∧ (w = NoWorker ↔ sy_worker s = NoWorker) ∧
               ∀ u, w ≠ Parked u) as (w & -> & Hdue & Hnw & Hu).
  { unfold notify_one. destruct (sy_worker s) eqn:Hw; [| | |by exists Ready];
      eexists; (split; [by destruct s; cbn in *; subst|done]). }
  destruct (so_client _ Hok _ _ Hcl) as (ch & Hch & Hopen & Hsrv).
  apply (touch_ok s _ c); cbn; try apply Hok; try done; [others| | | |].
  - rewrite (so_worker _ Hok). naive_solver.
  - intros cl key'. rewrite lookup_insert_eq. intros [= <-] [= <-]. split; [|by left; exists (Notifying key)].
    by apply (so_keys _ Hok c (Notifying key)).
  - exists ch. rewrite lookup_insert_eq, Hch. split_and!; [done| |].
    + intros cl [= <-]. split; [done|]. revert Hsrv. apply served_mono; cbn; try done. by rewrite Hdue.
    + intros k Hin. destruct (so_armed _ Hok _ _ Hin) as (? & cl & ch' & Hcl' & Hk & Hch' & Hh).
      split_and!; [done|congruence|]. eexists. split; [done|]. rewrite Hcl in Hcl'. by injection Hcl' as <-.
  - intros u [=]. by destruct (Hu u).
Qed.

Lemma client_fresh s c : sched_ok s → sy_channels s !! c = None →
  sy_clients s !! c = None ∧ c ∉ due_of (sy_worker s) ∧ ∀ k, (k, c) ∉ sc_armed (sy_schedule s).
Proof.
  intros Hok Hc. split_and!.
  - destruct (sy_clients s !! c) eqn:Hcl; [|done]. destruct (so_client _ Hok _ _ Hcl) as (? & ? & _). congruence.
  - intros [? ?]%(so_due _ Hok). congruence.
  - intros k (_ & _ & ? & _ & _ & ? & _)%(so_armed _ Hok). congruence.
Qed.

Lemma step_arm_ok max c timeout s : sched_ok s → sy_channels s !! c = None → sched_ok (arm max c timeout s).
Proof.
  intros Hok Hc. destruct (client_fresh s c Hok Hc) as (Hcl & Hdue & Harm).
  assert (∀ fate cl, client_key cl = None →
    (client_ok (put_client c cl (set_channels (<[c := {| ch_sender := fate; ch_closed := false |}]> (sy_channels s)) s)) c cl
       {| ch_sender := fate; ch_closed := false |}) →
    sched_ok (put_client c cl (set_channels (<[c := {| ch_sender := fate; ch_closed := false |}]> (sy_channels s)) s))) as Hnew.
  { intros fate cl Hno Hcok. apply (touch_ok s _ c); try apply Hok; try done; [others| | |].
    - intros cl' key. cbn. rewrite lookup_insert_eq. intros [= <-]. by rewrite Hno.
    - exists {| ch_sender := fate; ch_closed := false |}. cbn. rewrite !lookup_insert_eq. split_and!; [done|by intros ? [= <-]|].
      by intros k ?%Harm.
    - apply (parked_touch s _ c); try apply Hok; try done; [by rewrite Hcl|]. others. }
  unfold arm. destruct (checked_add max (sy_now s) timeout) as [d|]; [|by apply Hnew].
  case_decide; by apply Hnew.
Qed.

Lemma spawn_worker_spec sched s :
  sched_ok s → sc_worker_running sched = true →
  ∃ w, spawn_worker (sy_schedule s) (set_schedule sched s) = set_worker w (set_schedule sched s) ∧
       w ≠ NoWorker ∧ due_of w = due_of (sy_worker s) ∧ (∀ u, w = Parked u → sy_worker s = Parked u).
Proof.
  intros Hok Hr. unfold spawn_worker. cbn. rewrite Hr, andb_true_r. pose proof (so_worker _ Hok) as Hw.
  destruct (sc_worker_running (sy_schedule s)); cbn.
  - exists (sy_worker s). by rewrite <- Hw.
  - exists Ready. split_and!; try done. destruct (sy_worker s); try done; exfalso; naive_solver.
Qed.

(** The watchdog of an arm that failed is gone, with its channel. *)
Lemma arm_failed_ok s sched w c d :
  sched_ok s → sy_clients s !! c = Some (Pinned d) →
  sc_armed sched = sc_armed (sy_schedule s) → sc_next_id sched = sc_next_id (sy_schedule s) →
  (sc_worker_running sched = true ↔ w ≠ NoWorker) → due_of w = due_of (sy_worker s) →
  (∀ u, w = Parked u → sy_worker s = Parked u) →
  sched_ok (drop_client c (on_channel c (drop_sender ∘ close) (set_worker w (set_schedule sched s)))).
Proof.
  intros Hok Hc Ha Hn Hr Hd Hu. destruct (so_client _ Hok _ _ Hc) as (ch & Hch & -> & Hdue & Harm).
  apply (touch_ok s _ c); cbn; rewrite ?Ha, ?Hn; try apply Hok; try done; [others| | |].
  - intros cl key. by rewrite lookup_delete_eq.
  - exists (drop_sender (close held_open)). rewrite lookup_alter_eq, Hch, lookup_delete_eq. split_and!; [done|done|]. by intros k ?%Harm.
  - apply (parked_touch s _ c); cbn; rewrite ?Ha; try apply Hok; try done; [by rewrite Hc|others].
Qed.

Lemma is_earliest_false key armed :
  bt_sorted armed → key ∉ bt_keys armed → is_earliest key armed = false →
  ∃ first c, (first, c) ∈ armed ∧ (first.1 <= key.1)%Z.
Proof.
  intros Hs Hin. destruct armed as [|[first c] m]; [done|]. cbn [is_earliest]. intros Hlt. exists first, c. split; [by left|].
  assert (key ≠ first) as Hne by (intros ->; apply Hin; by left).
  pose proof (klt_total (K := Z * Z) key first Hne Hlt) as H. destruct key, first; cbn in *; lia.
Qed.

Lemma arm_inserted_ok s w c d n :
  sched_ok s → sy_clients s !! c = Some (Pinned d) → checked_succ (sc_next_id (sy_schedule s)) = Some n →
  w ≠ NoWorker → due_of w = due_of (sy_worker s) → (∀ u, w = Parked u → sy_worker s = Parked u) →
  let key := (d, sc_next_id (sy_schedule s)) in
  sched_ok (put_client c (if is_earliest key (sc_armed (sy_schedule s)) then Notifying key else Held (Armed key))
    (set_worker w (set_schedule {| sc_armed := bt_insert (K := Z * Z) (sc_armed (sy_schedule s)) key c; sc_next_id := n;
                                   sc_worker_running := true |} s))).
Proof.
  intros Hok Hc Hn Hw Hd Hu key. destruct (so_client _ Hok _ _ Hc) as (ch & Hch & -> & Hdue & Harm).
  apply checked_succ_Some in Hn as [_ ->].
  assert (key ∉ bt_keys (sc_armed (sy_schedule s))) as Hfresh by (intros H%(so_ids _ Hok); cbn in H; lia).
  assert (∀ k c', (k, c') ∈ bt_insert (K := Z * Z) (sc_armed (sy_schedule s)) key c ↔
                  (k = key ∧ c' = c) ∨ (k, c') ∈ sc_armed (sy_schedule s)) as Hins.
  { intros k c'. rewrite bt_elem_insert by apply Hok. split; [naive_solver|]. intros [?|Hin]; [by left|right].
    split; [|done]. intros ->. apply Hfresh. by apply (list_elem_of_fmap_2 fst _ (key, c')). }
  apply (touch_ok s _ c); cbn; try done; try apply Hok; [others|naive_solver| | |lia| | |].
  - apply bt_insert_sorted, Hok.
  - intros k [->|Hin]%bt_keys_insert; [cbn; lia|]. pose proof (so_ids _ Hok _ Hin). lia.
  - intros cl k. rewrite lookup_insert_eq. intros [= <-] Hk. assert (k = key) as -> by (by destruct (is_earliest _ _); injection Hk as ->).
    cbn. split; [lia|right; lia].
  - exists held_open. rewrite lookup_insert_eq. split; [done|]. split.
    + intros cl [= <-]. destruct (is_earliest _ _); (split; [done|]); left; split; [apply Hins; by left| |apply Hins; by left|]; done.
    + intros k [[-> _]|Hin]%Hins; [|by apply Harm in Hin]. split_and!; [done|done|]. eexists. split; [done|]. by destruct (is_earliest _ _).
  - intros u Hpk. cbn in Hpk. cbn. destruct (is_earliest _ _) eqn:He; [left; exists c, key; by rewrite lookup_insert_eq|].
    apply Hu in Hpk. destruct (so_parked _ Hok u Hpk) as [(c' & k & Hc')|Hall]; [left|right].
    + exists c', k. rewrite lookup_insert_ne; [done|]. intros ->. congruence.
    + intros k c' [[-> ->]|Hin]%Hins; [|by eapply Hall].
      destruct (is_earliest_false _ _ (so_sorted _ Hok) Hfresh He) as (first & cf & Hin & Hle).
      destruct (Hall _ _ Hin) as (u' & -> & Hu'). exists u'. split; [done|]. lia.
Qed.

Lemma step_insert_ok os c d s : sched_ok s → sy_clients s !! c = Some (Pinned d) → sched_ok (arm_insert os c d s).
Proof.
  intros Hok Hc. unfold arm_insert, insert. destruct (negb (sc_worker_running (sy_schedule s)) && negb os) eqn:Href.
  - assert (spawn_worker (sy_schedule s) (set_schedule (sy_schedule s) s) = set_worker (sy_worker s) (set_schedule (sy_schedule s) s)) as ->.
    { unfold spawn_worker. cbn. destruct (sc_worker_running (sy_schedule s)); done. }
    apply (arm_failed_ok _ _ _ _ d); try done. apply Hok.
  - destruct (checked_succ (sc_next_id (sy_schedule s))) as [n|] eqn:Hn;
      match goal with |- context [spawn_worker _ (set_schedule ?sc _)] =>
        destruct (spawn_worker_spec sc s Hok eq_refl) as (w & -> & Hw & Hd & Hu) end.
    + by apply arm_inserted_ok.
    + by apply (arm_failed_ok _ _ _ _ d).
Qed.


Lemma step_drop_ok c slot s : sched_ok s → sy_clients s !! c = Some (Held slot) → sched_ok (drop_watchdog c slot s).
Proof.
  intros Hok Hc. destruct (so_client _ Hok _ _ Hc) as (ch & Hch & Hcok).
  assert (∀ k, (k, c) ∈ sc_armed (sy_schedule s) → c ∉ due_of (sy_worker s) ∧ ch_sender ch = SenderHeld ∧ slot = Armed k) as Hk.
  { intros k Hin. destruct (so_armed _ Hok _ _ Hin) as (? & cl & ch' & Hcl & Hk & Hch' & Hh).
    rewrite Hc in Hcl. injection Hcl as <-. split_and!; [done|congruence|]. destruct slot; cbn in Hk; congruence. }
  destruct slot as [key| |]; (apply (touch_ok s _ c); cbn; try apply Hok; try done; [others| | |
    apply (parked_touch s _ c); try apply Hok; try done; [by rewrite Hc|others]]).
  - intros cl k. rewrite lookup_insert_eq. intros [= <-] [= <-]. split; [|left; by exists (Held (Armed key))].
    by apply (so_keys _ Hok c (Held (Armed key))).
  - destruct Hcok as [Hopen Hsrv]. exists (close ch). rewrite lookup_alter_eq, Hch, lookup_insert_eq.
    split_and!; [done|by intros cl [= <-]|]. intros k (? & ? & [= ->])%Hk. split_and!; try done. by exists (Dropping k).
  - intros cl k. by rewrite lookup_delete_eq.
  - eexists. rewrite lookup_alter_eq, Hch, lookup_delete_eq. split_and!; [done|done|]. by intros k (_ & _ & ?)%Hk.
  - intros cl k. by rewrite lookup_delete_eq.
  - eexists. rewrite lookup_alter_eq, Hch, lookup_delete_eq. split_and!; [done|done|]. by intros k (_ & _ & ?)%Hk.
Qed.

(** The entry under the key of a watchdog is its own. *)
Lemma entry_owner s c cl key c' :
  sched_ok s → sy_clients s !! c = Some cl → client_key cl = Some key → (key, c') ∈ sc_armed (sy_schedule s) → c' = c.
Proof.
  intros Hok Hc Hk Hin. destruct (so_armed _ Hok _ _ Hin) as (_ & cl' & _ & Hcl' & Hk' & _).
  by apply (proj2 (so_keys _ Hok c cl key Hc Hk) c' cl').
Qed.

Lemma step_disarm_ok c key s : sched_ok s → sy_clients s !! c = Some (Dropping key) → sched_ok (drop_disarm c key s).
Proof.
  intros Hok Hc. destruct (so_client _ Hok _ _ Hc) as (ch & Hch & Hclosed & Hsrv).
  assert (∀ k c', (k, c') ∈ bt_remove (K := Z * Z) (sc_armed (sy_schedule s)) key ↔ k ≠ key ∧ (k, c') ∈ sc_armed (sy_schedule s)) as Hrem.
  { intros k c'. by rewrite bt_elem_remove by apply Hok. }
  assert (∃ f, drop_disarm c key s = drop_client c (on_channel c f
    (set_schedule {| sc_armed := bt_remove (K := Z * Z) (sc_armed (sy_schedule s)) key; sc_next_id := sc_next_id (sy_schedule s);
                     sc_worker_running := sc_worker_running (sy_schedule s) |} s))) as (f & ->).
  { unfold drop_disarm, disarm. destruct (bt_lookup (K := Z * Z) (sc_armed (sy_schedule s)) key) as [c'|] eqn:Hlk.
    - apply bt_elem in Hlk; [|apply Hok]. apply (entry_owner s c (Dropping key)) in Hlk as ->; try done. by exists drop_sender.
    - exists id. unfold on_channel, set_channels, drop_client. cbn. f_equal. by rewrite (alter_id id). }
  apply (touch_ok s _ c); cbn; try apply Hok; try done; [others| | | | | |].
  - intros k c' Hne. rewrite Hrem. split; [|naive_solver]. intros Hin. split; [|done]. intros ->.
    by apply Hne, (entry_owner s c (Dropping key) key).
  - apply bt_remove_sorted, Hok.
  - intros k Hin%bt_keys_remove_subset. by apply (so_ids _ Hok).
  - intros cl k. by rewrite lookup_delete_eq.
  - exists (f ch). rewrite lookup_alter_eq, Hch, lookup_delete_eq. split_and!; [done|done|].
    intros k [Hne Hin]%Hrem. destruct (so_armed _ Hok _ _ Hin) as (_ & cl & _ & Hcl & Hk & _).
    rewrite Hc in Hcl. injection Hcl as <-. by injection Hk as ->.
  - apply (parked_touch s _ c); try apply Hok; try done; [by rewrite Hc|others|]; cbn. by intros k c' [_ ?]%Hrem.
Qed.

(** Every step preserves the invariant. *)
Lemma dl_step_ok max e s s' : sched_ok s → step max e s = Some s' → sched_ok s'.
Proof.
  intros Hok. destruct e as [now|c timeout|os c|c|c|c| | | | |os]; cbn [step]; intros Hst.
  - case_decide; simplify_eq. by apply step_clock_ok.
  - case_match; [done|]. case_decide; simplify_eq. by apply step_arm_ok.
  - destruct (sy_clients s !! c) as [[]|] eqn:Hc; simplify_eq. by apply step_insert_ok.
  - destruct (sy_clients s !! c) as [[]|] eqn:Hc; simplify_eq. by apply step_notify_ok.
  - destruct (sy_clients s !! c) as [[]|] eqn:Hc; simplify_eq. by apply step_drop_ok.
  - destruct (sy_clients s !! c) as [[]|] eqn:Hc; simplify_eq. by apply step_disarm_ok.
  - destruct (sy_worker s) eqn:Hw; simplify_eq. by eapply step_wake_ok.
  - destruct (sy_worker s) eqn:Hw; simplify_eq. by eapply step_serve_ok.
  - destruct (sy_worker s) eqn:Hw; simplify_eq. by apply step_deliver_ok.
  - destruct (sy_worker s) eqn:Hw; simplify_eq; apply step_fault_ok; eauto.
  - destruct (sy_worker s) eqn:Hw; simplify_eq. by apply step_exit_ok.
Qed.

Lemma run_cons max s e es : run max s (e :: es) = step max e s ≫= λ s1, run max s1 es.
Proof.
  unfold run. cbn. destruct (step max e s); [done|]. cbn. by induction es.
Qed.

Lemma schedule_run_ok max s es s' : sched_ok s → run max s es = Some s' → sched_ok s'.
Proof.
  revert s. induction es as [|e es IH]; intros s Hok Hr; [by injection Hr as <-|].
  rewrite run_cons in Hr. destruct (step max e s) as [s1|] eqn:Hs; [|done]. eapply IH; [by eapply dl_step_ok|done].
Qed.
