(* ===== verification/DeadlineFires.v ===== *)
(** Deadlines fire: never early, and always once a worker runs (Deadline.v). *)
From S2P Require Import Prelude Axes BTree Deadline.

(** * No deadline fires early *)

Lemma drop_all_frame due s :
  let s' := foldl (λ s c, on_channel c drop_sender s) s due in
  sy_clients s' = sy_clients s ∧ sy_now s' = sy_now s ∧ ∀ c, is_Some (sy_channels s !! c) → is_Some (sy_channels s' !! c).
Proof.
  revert s. induction due as [|x due IH]; intros s; [done|]. cbn. destruct (IH (on_channel x drop_sender s)) as (-> & -> & H).
  split_and!; try done. intros c Hc. apply H. cbn. by rewrite lookup_alter_is_Some.
Qed.

(** Channels are allocated once. *)
Lemma step_keeps_channel max e s s' c : step max e s = Some s' → is_Some (sy_channels s !! c) → is_Some (sy_channels s' !! c).
Proof.
  destruct e as [now|x timeout|os x|x|x|x| | | | |os]; cbn [step]; intros Hst Hch.
  - by case_decide; simplify_eq.
  - case_match; [done|]. case_decide; simplify_eq. unfold arm.
    repeat case_match; cbn; rewrite lookup_insert_is_Some'; auto.
  - destruct (sy_clients s !! x) as [[]|]; simplify_eq. unfold arm_insert, insert, spawn_worker.
    repeat case_match; simplify_eq/=; rewrite ?lookup_alter_is_Some; done.
  - destruct (sy_clients s !! x) as [[]|]; simplify_eq. unfold notify_one. by case_match.
  - destruct (sy_clients s !! x) as [[]|]; simplify_eq. unfold drop_watchdog.
    case_match; cbn; by rewrite lookup_alter_is_Some.
  - destruct (sy_clients s !! x) as [[]|]; simplify_eq. unfold drop_disarm, disarm.
    case_match; cbn; rewrite ?lookup_alter_is_Some; done.
  - by destruct (sy_worker s); simplify_eq.
  - destruct (sy_worker s); simplify_eq. unfold serve in Hst. by repeat case_match; simplify_eq.
  - destruct (sy_worker s) as [| |[|x due]|]; simplify_eq; cbn; rewrite ?lookup_alter_is_Some; done.
  - destruct (sy_worker s) as [| |due|] eqn:Hw; simplify_eq; unfold serve_fault; rewrite Hw; [done|].
    by apply (drop_all_frame due s).
  - by destruct (sy_worker s); simplify_eq.
Qed.

(** A step keeps a watchdog's deadline. *)
Definition keeps_deadline (cl cl' : Client) : Prop :=
  cl = cl' ∨ client_deadline cl = client_deadline cl' ∧ is_Some (client_deadline cl').

Ltac clients x c :=
  destruct (decide (x = c)) as [->|Hne];
  rewrite ?lookup_insert_eq, ?lookup_delete_eq, ?lookup_insert_ne, ?lookup_delete_ne by done;
  intros ?; simplify_eq; eexists; (split; [eassumption|]); (by left) || (right; cbn; eauto).

Lemma step_keeps_deadline max e s s' c cl' :
  step max e s = Some s' → is_Some (sy_channels s !! c) → sy_clients s' !! c = Some cl' →
  ∃ cl, sy_clients s !! c = Some cl ∧ keeps_deadline cl cl'.
Proof.
  assert (sy_clients s !! c = Some cl' → ∃ cl, sy_clients s !! c = Some cl ∧ keeps_deadline cl cl') as Hsame by (exists cl'; by split; [|left]).
  destruct e as [now|x timeout|os x|x|x|x| | | | |os]; cbn [step]; intros Hst Hch.
  - by case_decide; simplify_eq.
  - case_match eqn:Hx; [done|]. assert (x ≠ c) as Hne by (intros ->; rewrite Hx in Hch; by destruct Hch).
    case_decide; simplify_eq. unfold arm. repeat case_match; cbn; by rewrite lookup_insert_ne.
  - destruct (sy_clients s !! x) as [[]|] eqn:Hx; simplify_eq. unfold arm_insert, insert, spawn_worker.
    repeat case_match; simplify_eq/=; clients x c.
  - destruct (sy_clients s !! x) as [[]|] eqn:Hx; simplify_eq. unfold notify_one. case_match; cbn; clients x c.
  - destruct (sy_clients s !! x) as [[]|] eqn:Hx; simplify_eq. unfold drop_watchdog. case_match; cbn; clients x c.
  - destruct (sy_clients s !! x) as [[]|] eqn:Hx; simplify_eq. unfold drop_disarm, disarm. case_match; cbn; clients x c.
  - by destruct (sy_worker s); simplify_eq.
  - destruct (sy_worker s); simplify_eq. unfold serve in Hst. by repeat case_match; simplify_eq.
  - by destruct (sy_worker s) as [| |[|x due]|]; simplify_eq.
  - destruct (sy_worker s) as [| |due|] eqn:Hw; simplify_eq; unfold serve_fault; rewrite Hw; [done|].
    cbn. by rewrite (proj1 (drop_all_frame due s)).
  - by destruct (sy_worker s); simplify_eq.
Qed.

(** What arming at [t0] for [timeout] pins. *)
Definition armed_at (max t0 timeout : Z) (cl : Client) : Prop :=
  match cl with
  | Held Never => (max < t0 + timeout)%Z
  | Held Fired => (t0 + timeout <= t0)%Z ∧ (t0 + timeout <= max)%Z
  | _ => client_deadline cl = Some (t0 + timeout)%Z ∧ (t0 + timeout <= max)%Z
  end.

Lemma run_keeps_armed max es s s' c cl' t0 timeout :
  run max s es = Some s' → is_Some (sy_channels s !! c) → sy_clients s' !! c = Some cl' →
  (∀ cl, sy_clients s !! c = Some cl → armed_at max t0 timeout cl) → armed_at max t0 timeout cl'.
Proof.
  revert s. induction es as [|e es IH]; intros s Hr Hch Hcl Harm; [injection Hr as <-; auto|].
  rewrite run_cons in Hr. destruct (step max e s) as [s1|] eqn:Hs; [|done]. cbn in Hr.
  apply (IH s1); try done; [by eapply step_keeps_channel|].
  intros cl1 Hcl1. destruct (step_keeps_deadline _ _ _ _ _ _ Hs Hch Hcl1) as (cl & Hc & Hd).
  specialize (Harm _ Hc). destruct Hd as [->|[Heq [d Hd]]]; [done|]. rewrite Hd in Heq.
  destruct cl as [?|?|[?| |]|?], cl1 as [?|?|[?| |]|?]; cbn in *; naive_solver congruence.
Qed.

Lemma step_clock_monotone max e s s' : step max e s = Some s' → (sy_now s <= sy_now s')%Z.
Proof.
  destruct e; cbn [step]; intros Hst; [by case_decide; simplify_eq| | | | | | | | | |].
  - repeat first [case_match | case_decide]; simplify_eq. unfold arm. by repeat case_match.
  - destruct (sy_clients s !! c) as [[]|]; simplify_eq. unfold arm_insert, insert, spawn_worker. by repeat case_match; simplify_eq.
  - destruct (sy_clients s !! c) as [[]|]; simplify_eq. unfold notify_one. by case_match.
  - destruct (sy_clients s !! c) as [[]|]; simplify_eq. unfold drop_watchdog. by case_match.
  - destruct (sy_clients s !! c) as [[]|]; simplify_eq. unfold drop_disarm, disarm. by case_match.
  - by destruct (sy_worker s); simplify_eq.
  - destruct (sy_worker s); simplify_eq. unfold serve in Hst. by repeat case_match; simplify_eq.
  - by destruct (sy_worker s) as [| |[]|]; simplify_eq.
  - destruct (sy_worker s) as [| |due|] eqn:Hw; simplify_eq; unfold serve_fault; rewrite Hw; [done|].
    cbn. by rewrite (proj1 (proj2 (drop_all_frame due s))).
  - by destruct (sy_worker s); simplify_eq.
Qed.

Lemma run_clock_monotone max es s s' : run max s es = Some s' → (sy_now s <= sy_now s')%Z.
Proof.
  revert s. induction es as [|e es IH]; intros s Hr; [by injection Hr as <-|].
  rewrite run_cons in Hr. destruct (step max e s) as [s1|] eqn:Hs; [|done].
  apply step_clock_monotone in Hs. apply IH in Hr. lia.
Qed.

(** A deadline never elapses early: a watchdog armed at [t0] for [timeout], whatever
    happens since, resolves in its owner's hands only once the clock has reached
    [t0 + timeout], and one whose deadline the clock cannot represent never resolves. *)
Theorem deadline_never_early max start es0 s c timeout s1 es s2 slot ch :
  run max (Scheduler_new start) es0 = Some s →
  step max (EArm c timeout) s = Some s1 → run max s1 es = Some s2 →
  sy_clients s2 !! c = Some (Held slot) → sy_channels s2 !! c = Some ch → poll ch ≠ None →
  (sy_now s + timeout <= sy_now s2)%Z ∧ (sy_now s + timeout <= max)%Z.
Proof.
  intros Hr0 Hs1 Hr Hcl Hch Hpoll.
  assert (sched_ok s) as Hok by (eapply schedule_run_ok; [apply Scheduler_new_ok|done]).
  assert (sched_ok s1) as Hok1 by by eapply dl_step_ok.
  assert (sched_ok s2) as Hok2 by by eapply schedule_run_ok.
  assert (sy_now s <= sy_now s2)%Z as Hnow.
  { apply step_clock_monotone in Hs1. apply run_clock_monotone in Hr. lia. }
  assert (armed_at max (sy_now s) timeout (Held slot)) as Harm.
  { cbn [step] in Hs1. case_match; [done|]. case_decide; simplify_eq. eapply run_keeps_armed; try done.
    - unfold arm. repeat case_match; cbn; rewrite lookup_insert_eq; eauto.
    - intros cl. unfold arm, checked_add. repeat case_decide; cbn; rewrite lookup_insert_eq; intros [= <-]; cbn; (split; [done || lia|lia]) || lia. }
  destruct (so_client _ Hok2 _ _ Hcl) as (ch' & Hch' & Hcok). rewrite Hch in Hch'. injection Hch' as <-.
  destruct slot as [key| |]; cbn in Harm, Hcok.
  - destruct Harm as [[= Hk] Hmax], Hcok as [_ [[_ Hheld]|[Hle _]]]; [|lia]. unfold poll in Hpoll. by rewrite Hheld in Hpoll.
  - destruct Hcok as [-> _]. by destruct Hpoll.
  - lia.
Qed.

(** ** A sample run: one deadline is armed at 5 for 10, and fires at 15. *)
Definition sample_max : Instant := 1000%Z.
Definition sample_events : list Event :=
  [EInsert true 0; EServe; ENotify 0; EServe; EClock 15; EWake; EServe; EDeliver].
Definition sample_armed : Scheduler := arm sample_max 0 10 (Scheduler_new 5).
Definition sample_fired : Scheduler := default (Scheduler_new 5) (run sample_max sample_armed sample_events).

Lemma deadline_never_early_witness :
  poll (default held_open (sy_channels sample_fired !! 0)) = Some (Ok ()) ∧
  (5 + 10 <= sy_now sample_fired)%Z ∧ (5 + 10 <= sample_max)%Z.
Proof.
  split; [by vm_compute|].
  apply (deadline_never_early sample_max 5 [] (Scheduler_new 5) 0 10 sample_armed sample_events sample_fired
           (Armed (15%Z, 0%Z)) {| ch_sender := SenderSent; ch_closed := false |}); vm_compute; done || intros [=].
Defined.

(** * Every deadline fires *)

(** What the worker does next, when the clock stands still and nobody else moves. *)
Definition worker_event (s : Scheduler) : option Event :=
  match sy_worker s with
  | Ready => Some EServe
  | Delivering _ => Some EDeliver
  | Parked (Some until) => if decide (until <= sy_now s)%Z then Some EWake else None
  | Parked None | NoWorker => None
  end.

Fixpoint serve_alone (max : Instant) (n : nat) (s : Scheduler) : Scheduler :=
  match n with
  | O => s
  | S n => match worker_event s ≫= λ e, step max e s with Some s' => serve_alone max n s' | None => s end
  end.

Definition is_notifying (cl : Client) : bool := match cl with Notifying _ => true | _ => false end.

(** No notification is on its way. *)
Definition no_notification (s : Scheduler) : Prop := map_Forall (λ _ cl, is_notifying cl = false) (sy_clients s).

Lemma no_notification_lookup s c key : no_notification s → sy_clients s !! c ≠ Some (Notifying key).
Proof. intros H Hc. by specialize (H _ _ Hc). Qed.

(** The entries that are not yet due. *)
Definition later (s : Scheduler) : list (DeadlineKey * Addr) := filter (λ e, (sy_now s < e.1.1)%Z) (sc_armed (sy_schedule s)).

(** The worker sleeps, and exactly the due entries have left the map. *)
Definition settled (s s' : Scheduler) : Prop :=
  sched_ok s' ∧ (∃ until, sy_worker s' = Parked until) ∧ sc_armed (sy_schedule s') = later s ∧
  sy_clients s' = sy_clients s ∧ sy_now s' = sy_now s.

Lemma serve_alone_idle max n s : worker_event s = None → serve_alone max n s = s.
Proof. intros H. destruct n; [done|]. cbn. by rewrite H. Qed.

Lemma serve_alone_step max n s e s' :
  worker_event s = Some e → step max e s = Some s' → serve_alone max (S n) s = serve_alone max n s'.
Proof. intros H1 H2. cbn. by rewrite H1; cbn; rewrite H2. Qed.

Lemma settle_parked max n s :
  sched_ok s → sy_worker s = Ready → (∀ e, e ∈ sc_armed (sy_schedule s) → sy_now s < e.1.1)%Z → 1 ≤ n →
  settled s (serve_alone max n s).
Proof.
  intros Hok Hw Hlater Hn. destruct n as [|n]; [lia|].
  destruct (serve_spec s Hok) as (out & rest & Harm & Ho & Hr & Hserve).
  assert (out = []) as ->.
  { destruct out as [|e out]; [done|]. assert (e ∈ e :: out) as He by left.
    exfalso. apply (Zle_not_lt _ _ (Ho e He)), Hlater. rewrite Harm. set_solver. }
  cbn in Harm. rewrite (serve_alone_step max n s EServe _) by (unfold worker_event; cbn; rewrite Hw; done).
  rewrite serve_alone_idle.
  - split_and!; try done; [rewrite <- Harm; by apply serve_park_ok|by eexists|].
    cbn. unfold later. symmetry. by apply filter_all.
  - unfold worker_event. cbn. destruct rest as [|e rest]; [done|]. cbn. rewrite decide_False; [done|].
    by apply Zlt_not_le, Hr; left.
Qed.

Lemma settle_delivering max due n s :
  sched_ok s → sy_worker s = Delivering due → (∀ e, e ∈ sc_armed (sy_schedule s) → sy_now s < e.1.1)%Z →
  length due + 2 ≤ n → settled s (serve_alone max n s).
Proof.
  revert n s. induction due as [|c due IH]; intros [|n] s Hok Hw Hlater Hn; cbn in Hn; try lia.
  - rewrite (serve_alone_step max n s EDeliver (set_worker Ready s)) by (unfold worker_event; cbn; by rewrite Hw).
    apply (settle_parked max n (set_worker Ready s)); try done; [by apply delivered_ok|lia].
  - rewrite (serve_alone_step max n s EDeliver (set_worker (Delivering due) (on_channel c send s)))
      by (unfold worker_event; cbn; by rewrite Hw).
    apply (IH n (set_worker (Delivering due) (on_channel c send s))); try done; [|lia].
    by apply (step_deliver_ok (c :: due)).
Qed.

(** From any position of the worker, with no notification on its way. *)
Lemma settle_ready max n s :
  sched_ok s → sy_worker s = Ready → length (sc_armed (sy_schedule s)) + 3 ≤ n → settled s (serve_alone max n s).
Proof.
  intros Hok Hw Hn. destruct (serve_spec s Hok) as (out & rest & Harm & Ho & Hr & Hserve).
  destruct out as [|e out].
  - cbn in Harm. apply settle_parked; try done; [|lia]. by rewrite Harm.
  - destruct n as [|n]; [lia|]. rewrite (serve_alone_step max n s EServe _) by (unfold worker_event; cbn; rewrite Hw; done).
    rewrite Harm, length_app in Hn.
    destruct (settle_delivering max (e :: out).*2 n (set_worker (Delivering (e :: out).*2) (with_armed rest s)))
      as (H1 & H2 & H3 & H4 & H5); try done; [by apply serve_deliver_ok|rewrite length_fmap; lia|].
    split_and!; try done. rewrite H3. unfold later. cbn. rewrite Harm, filter_app.
    rewrite (filter_nothing _ (e :: out)); [done|]. intros x Hx. by apply Zle_not_lt, Ho.
Qed.

Lemma settle_due max due n s :
  sched_ok s → sy_worker s = Delivering due → length due + length (sc_armed (sy_schedule s)) + 4 ≤ n →
  settled s (serve_alone max n s).
Proof.
  revert n s. induction due as [|c due IH]; intros [|n] s Hok Hw Hn; cbn in Hn; try lia.
  - rewrite (serve_alone_step max n s EDeliver (set_worker Ready s)) by (unfold worker_event; cbn; by rewrite Hw).
    apply (settle_ready max n (set_worker Ready s)); try done; [by apply delivered_ok|cbn; lia].
  - rewrite (serve_alone_step max n s EDeliver (set_worker (Delivering due) (on_channel c send s)))
      by (unfold worker_event; cbn; by rewrite Hw).
    apply (IH n (set_worker (Delivering due) (on_channel c send s))); try done; [|cbn; lia].
    by apply (step_deliver_ok (c :: due)).
Qed.

Lemma serve_alone_settles max n s :
  sched_ok s → sy_worker s ≠ NoWorker → no_notification s →
  length (due_of (sy_worker s)) + length (sc_armed (sy_schedule s)) + 4 ≤ n → settled s (serve_alone max n s).
Proof.
  intros Hok Hw Hno Hn. destruct (sy_worker s) as [| |due|until] eqn:Hwk; [done| | |]; cbn in Hn.
  - apply settle_ready; [done|done|lia].
  - by apply (settle_due max due).
  - destruct (worker_event s) as [e|] eqn:He.
    + unfold worker_event in He. rewrite Hwk in He. destruct until as [u|]; [|done]. case_decide; [|done].
      injection He as <-. destruct n as [|n]; [lia|].
      rewrite (serve_alone_step max n s EWake (set_worker Ready s)).
      * apply (settle_ready max n (set_worker Ready s)); [by eapply step_wake_ok|done|cbn; lia].
      * unfold worker_event. rewrite Hwk. by rewrite decide_True.
      * cbn. by rewrite Hwk.
    + rewrite serve_alone_idle by done. split_and!; try done; [by eexists|]. unfold later. symmetry. apply filter_all.
      intros [key c] Hin. destruct (so_parked _ Hok _ Hwk) as [(c' & k & Hc)|Hall]; [by destruct (no_notification_lookup s c' k)|].
      destruct (Hall _ _ Hin) as (u & -> & Hu). unfold worker_event in He. rewrite Hwk in He. case_decide; [done|]. cbn. lia.
Qed.

(** [C24] The serving loop comes to rest: with the clock standing still and no notification
    on its way, the worker parks within one step per due and armed entry and four more, and
    the entries left in the map are exactly those that are not due, in their order. *)
Theorem serve_terminates max start es s n :
  run max (Scheduler_new start) es = Some s → sy_worker s ≠ NoWorker →
  no_notification s →
  length (due_of (sy_worker s)) + length (sc_armed (sy_schedule s)) + 4 ≤ n →
  let s' := serve_alone max n s in
  (∃ until, sy_worker s' = Parked until) ∧
  sc_armed (sy_schedule s') = filter (λ e, (sy_now s < e.1.1)%Z) (sc_armed (sy_schedule s)).
Proof.
  intros Hr Hw Hno Hn. assert (sched_ok s) as Hok by (eapply schedule_run_ok; [apply Scheduler_new_ok|done]).
  by destruct (serve_alone_settles max n s Hok Hw Hno Hn) as (_ & ? & ? & _).
Qed.

(** [C23] No deadline is lost: whatever arms, cancellations, lost wake-ups, panics and lost
    workers came before, an armed watchdog whose deadline has passed resolves once a worker
    exists and is left to run, and it resolves without its entry being left behind. *)
Theorem due_deadline_fires max start es s c key n :
  run max (Scheduler_new start) es = Some s → sy_worker s ≠ NoWorker →
  no_notification s →
  sy_clients s !! c = Some (Held (Armed key)) → (key.1 <= sy_now s)%Z →
  length (due_of (sy_worker s)) + length (sc_armed (sy_schedule s)) + 4 ≤ n →
  let s' := serve_alone max n s in
  key ∉ bt_keys (sc_armed (sy_schedule s')) ∧
  ∃ ch, sy_channels s' !! c = Some ch ∧ poll ch ≠ None.
Proof.
  intros Hr Hw Hno Hc Hle Hn s'. assert (sched_ok s) as Hok by (eapply schedule_run_ok; [apply Scheduler_new_ok|done]).
  destruct (serve_alone_settles max n s Hok Hw Hno Hn) as (Hok' & (until & Hw') & Harm & Hcl & Hnow).
  fold s' in Hok', Hw', Harm, Hcl, Hnow.
  assert (key ∉ bt_keys (sc_armed (sy_schedule s'))) as Hgone.
  { rewrite Harm. intros ([k c'] & -> & Hin)%list_elem_of_fmap. apply list_elem_of_filter in Hin as [Hlt _]. cbn in *. lia. }
  split; [done|]. rewrite <- Hcl in Hc. destruct (so_client _ Hok' _ _ Hc) as (ch & Hch & _ & Hsrv). exists ch. split; [done|].
  unfold poll. destruct Hsrv as [[Hin _]|[_ [Hdue|Hfate]]].
  - destruct Hgone. by apply (list_elem_of_fmap_2 fst _ (key, c)).
  - rewrite Hw' in Hdue. by apply not_elem_of_nil in Hdue.
  - by destruct (ch_sender ch).
Qed.

(** Two deadlines; the worker is lost, its replacement refused, and a third arm brings
    another one. *)
Definition sample_lost : list Event :=
  [EArm 0 10; EInsert true 0; ENotify 0; EArm 1 20; EInsert false 1; EServe; EClock 17; EWake; EExit false;
   EArm 2 30; EInsert true 2].
Definition sample_lost_state : Scheduler := default (Scheduler_new 5) (run sample_max (Scheduler_new 5) sample_lost).

Lemma serve_terminates_witness :
  (∃ until, sy_worker (serve_alone sample_max 7 sample_lost_state) = Parked until) ∧
  sc_armed (sy_schedule (serve_alone sample_max 7 sample_lost_state)) =
    filter (λ e, (sy_now sample_lost_state < e.1.1)%Z) (sc_armed (sy_schedule sample_lost_state)).
Proof.
  apply (serve_terminates sample_max 5 sample_lost sample_lost_state 7); [by vm_compute|by vm_compute| |vm_compute; lia].
  apply (bool_decide_unpack _). by vm_compute.
Defined.

Lemma due_deadline_fires_witness :
  (15%Z, 0%Z) ∉ bt_keys (sc_armed (sy_schedule (serve_alone sample_max 7 sample_lost_state))) ∧
  ∃ ch, sy_channels (serve_alone sample_max 7 sample_lost_state) !! 0 = Some ch ∧ poll ch ≠ None.
Proof.
  apply (due_deadline_fires sample_max 5 sample_lost sample_lost_state 0 (15%Z, 0%Z) 7);
    [by vm_compute|by vm_compute| |by vm_compute|by vm_compute|vm_compute; lia].
  apply (bool_decide_unpack _). by vm_compute.
Defined.
