(* ===== verification/SettleCtx.v ===== *)
(** Lifecycle-recursion refusal (crates/cordis-core/src/fiber/settle_ctx.rs): which Fibers
    a piece of running code must not wait for, because their pass is waiting for it.

    A strand is a future that is being polled: a task starts one, and a task that polls
    several futures at once (a [join!]) has several.  The task-local [SETTLE_CTX] is a
    stack of scopes; each scope is a cell, and strands of one task may share a cell.  A
    scope or bracket body that is polled, ended or dropped belongs to one strand.  The
    specification at the end passes attributions as immutable values instead. *)
From S2P Require Import Prelude Axes.

(** * Attribution *)

(* @src crates/cordis-core/src/fiber/mod.rs 1414-1429 LifecycleOperation *)
Inductive LifecycleOperation := OpReady | OpWaitState | OpRestart | OpUpdate | OpEraSwap | OpDispose | OpRemovePlugins.

(* @src crates/cordis-core/src/fiber/mod.rs 1440-1451 LifecycleRecursion *)
Record LifecycleRecursion := { lr_operation : LifecycleOperation; lr_fiber : Addr }.

(** [fr_active] is the allocation of the shared liveness flag. *)
(* @src crates/cordis-core/src/fiber/settle_ctx.rs 24-27 AttributionFrame *)
Record AttributionFrame := { fr_fiber : Addr; fr_active : Addr }.

#[export] Instance AttributionFrame_eq_dec : EqDecision AttributionFrame.
Proof. solve_decision. Defined.

(* @src crates/cordis-core/src/fiber/settle_ctx.rs 51-54 SettleCtx *)
Record SettleCtx := { sx_settling : list AttributionFrame; sx_run_owner : option AttributionFrame }.

(** [SettleCtx::default()] *)
Definition SettleCtx_default : SettleCtx := {| sx_settling := []; sx_run_owner := None |}.

(* @src crates/cordis-core/src/fiber/settle_ctx.rs 37-40 AttributionFrame::is_active_for *)
Definition is_active_for (flags : gmap Addr bool) (target : Addr) (frame : AttributionFrame) : bool :=
  bool_decide (flags !! fr_active frame = Some true) && bool_decide (fr_fiber frame = target).

(** [draining] is the drain mark of the target. *)
(* @src crates/cordis-core/src/fiber/settle_ctx.rs 56-67 run_task_wait_is_doomed *)
Definition run_task_wait_is_doomed (draining : bool) (op : LifecycleOperation) : bool :=
  match op with
  | OpReady | OpWaitState => draining
  | OpRestart | OpUpdate | OpEraSwap | OpDispose | OpRemovePlugins => true
  end.

(* @src crates/cordis-core/src/fiber/settle_ctx.rs 69-85 is_doomed *)
Definition is_doomed (flags : gmap Addr bool) (ctx : option SettleCtx) (target : Addr) (draining : bool) (op : LifecycleOperation) : bool :=
  match ctx with
  | None => false
  | Some cell =>
      let in_settle := existsb (is_active_for flags target) (sx_settling cell) in
      let owns_run_task := match sx_run_owner cell with Some f => is_active_for flags target f | None => false end in
      in_settle || (owns_run_task && run_task_wait_is_doomed draining op)
  end.

(** * Strands *)

(** A scope in progress: a bracket that found a scope and pushed its frame on it; a
    bracket or a [Context::run] body with a scope of its own; captured attribution. *)
Inductive OpenScope :=
| Nested (frame : AttributionFrame)
| Scoped (cell : Addr) (frame : AttributionFrame)
| RunScope (cell : Addr) (frame : AttributionFrame)
| With (cell : Addr).

(** [st_base] is the scope around the strand, [st_scopes] its own, innermost first. *)
Record Strand := { st_base : option Addr; st_scopes : list OpenScope }.

Fixpoint current_cell (base : option Addr) (scopes : list OpenScope) : option Addr :=
  match scopes with
  | [] => base
  | Nested _ :: scopes => current_cell base scopes
  | (Scoped c _ | RunScope c _ | With c) :: _ => Some c
  end.

Record Attributions := {
  at_flags : gmap Addr bool;
  at_cells : gmap Addr SettleCtx;
  at_strands : gmap Addr Strand;
}.

Definition Attributions_new : Attributions := {| at_flags := ∅; at_cells := ∅; at_strands := ∅ |}.

(** [SETTLE_CTX.try_with]: the contents of the innermost scope of a strand. *)
Definition try_with (w : Attributions) (t : Addr) : option SettleCtx :=
  st ← at_strands w !! t; c ← current_cell (st_base st) (st_scopes st); at_cells w !! c.

(* @src crates/cordis-core/src/fiber/settle_ctx.rs 87-96 refuse_recursion *)
Definition refuse_recursion (w : Attributions) (t target : Addr) (draining : bool) (op : LifecycleOperation) : result () LifecycleRecursion :=
  if is_doomed (at_flags w) (try_with w t) target draining op
  then Err {| lr_operation := op; lr_fiber := target |} else Ok ().

(* @src crates/cordis-core/src/fiber/settle_ctx.rs 101-105 capture_attribution *)
Definition capture_attribution (w : Attributions) (t : Addr) : SettleCtx := default SettleCtx_default (try_with w t).

Definition put_strand (t : Addr) (base : option Addr) (scopes : list OpenScope) (w : Attributions) : Attributions :=
  {| at_flags := at_flags w; at_cells := at_cells w; at_strands := <[ t := {| st_base := base; st_scopes := scopes |} ]> (at_strands w) |}.
Definition put_cell (c : Addr) (ctx : SettleCtx) (w : Attributions) : Attributions :=
  {| at_flags := at_flags w; at_cells := <[ c := ctx ]> (at_cells w); at_strands := at_strands w |}.
Definition put_flag (a : Addr) (b : bool) (w : Attributions) : Attributions :=
  {| at_flags := <[ a := b ]> (at_flags w); at_cells := at_cells w; at_strands := at_strands w |}.

(* @src crates/cordis-core/src/fiber/settle_ctx.rs 30-35 AttributionFrame::new *)
Definition AttributionFrame_new (fiber flag : Addr) (w : Attributions) : AttributionFrame * Attributions :=
  ({| fr_fiber := fiber; fr_active := flag |}, put_flag flag true w).

(** [Vec::push] *)
Definition push_settling (frame : AttributionFrame) (ctx : SettleCtx) : SettleCtx :=
  {| sx_settling := sx_settling ctx ++ [frame]; sx_run_owner := sx_run_owner ctx |}.

(** [Vec::pop] *)
Definition pop_settling (ctx : SettleCtx) : SettleCtx :=
  {| sx_settling := removelast (sx_settling ctx); sx_run_owner := sx_run_owner ctx |}.

(** Entering a bracket: [flag] and [cell] are the allocations it makes. *)
(* @src crates/cordis-core/src/fiber/settle_ctx.rs 136-168 bracket *)
Definition bracket (t : Addr) (st : Strand) (fiber flag cell : Addr) (w : Attributions) : Attributions :=
  let '(frame, w) := AttributionFrame_new fiber flag w in
  match current_cell (st_base st) (st_scopes st) with
  | Some c => put_strand t (st_base st) (Nested frame :: st_scopes st)
                {| at_flags := at_flags w; at_cells := alter (push_settling frame) c (at_cells w); at_strands := at_strands w |}
  | None => put_strand t (st_base st) (Scoped cell frame :: st_scopes st)
              (put_cell cell {| sx_settling := [frame]; sx_run_owner := None |} w)
  end.

(* @src crates/cordis-core/src/fiber/settle_ctx.rs 173-196 run_task *)
Definition run_task (t : Addr) (st : Strand) (fiber flag cell : Addr) (w : Attributions) : Attributions :=
  let '(frame, w) := AttributionFrame_new fiber flag w in
  put_strand t (st_base st) (RunScope cell frame :: st_scopes st)
    (put_cell cell {| sx_settling := []; sx_run_owner := Some frame |} w).

(* @src crates/cordis-core/src/fiber/settle_ctx.rs 109-114 with_attribution *)
Definition with_attribution (t : Addr) (st : Strand) (attribution : SettleCtx) (cell : Addr) (w : Attributions) : Attributions :=
  put_strand t (st_base st) (With cell :: st_scopes st) (put_cell cell attribution w).

(** The end of the innermost scope of a strand, by return, unwinding or cancellation. *)
(* @src crates/cordis-core/src/fiber/settle_ctx.rs 125-132 SettleFrameGuard::drop *)
Definition leave_scope (t : Addr) (base : option Addr) (scope : OpenScope) (scopes : list OpenScope) (w : Attributions) : Attributions :=
  match scope with
  | Nested frame =>
      let w := put_flag (fr_active frame) false w in
      let cells := match current_cell base scopes with Some c => alter pop_settling c (at_cells w) | None => at_cells w end in
      put_strand t base scopes {| at_flags := at_flags w; at_cells := cells; at_strands := at_strands w |}
  | Scoped _ frame | RunScope _ frame => put_strand t base scopes (put_flag (fr_active frame) false w)
  | With _ => put_strand t base scopes w
  end.

(** What may happen: an unattributed task starts; work moves to a new task with the
    attribution of the strand it leaves ([Context::spawn_attributed], the continuations of
    an era swap, a manually disposed cleanup); a task polls another future beside [t]; a
    strand enters or leaves a scope ([EIsolate] is the empty scope of a committed owner). *)
Inductive Event :=
| EStart (t : Addr)
| ETransfer (t t' cell : Addr)
| EFork (t t' : Addr)
| EBracket (t fiber flag cell : Addr)
| ERunTask (t fiber flag cell : Addr)
| EIsolate (t cell : Addr)
| ELeave (t : Addr).

Definition fresh_strand (t : Addr) (w : Attributions) : bool := bool_decide (at_strands w !! t = None).
Definition fresh_cell (c : Addr) (w : Attributions) : bool := bool_decide (at_cells w !! c = None).
Definition fresh_flag (a : Addr) (w : Attributions) : bool := bool_decide (at_flags w !! a = None).

(* @src crates/cordis-core/src/fiber/mod.rs 1241-1248 Context::spawn_attributed *)
Definition spawn_attributed (t t' cell : Addr) (w : Attributions) : Attributions :=
  with_attribution t' {| st_base := None; st_scopes := [] |} (capture_attribution w t) cell w.

Definition step (e : Event) (w : Attributions) : option Attributions :=
  match e with
  | EStart t => guard (fresh_strand t w);; Some (put_strand t None [] w)
  | ETransfer t t' cell => guard (fresh_strand t' w && fresh_cell cell w);; Some (spawn_attributed t t' cell w)
  | EFork t t' =>
      st ← at_strands w !! t; guard (fresh_strand t' w);;
      Some (put_strand t' (current_cell (st_base st) (st_scopes st)) [] w)
  | EBracket t fiber flag cell =>
      st ← at_strands w !! t; guard (fresh_flag flag w && fresh_cell cell w);; Some (bracket t st fiber flag cell w)
  | ERunTask t fiber flag cell =>
      st ← at_strands w !! t; guard (fresh_flag flag w && fresh_cell cell w);; Some (run_task t st fiber flag cell w)
  | EIsolate t cell =>
      st ← at_strands w !! t; guard (fresh_cell cell w);; Some (with_attribution t st SettleCtx_default cell w)
  | ELeave t =>
      st ← at_strands w !! t;
      match st_scopes st with [] => None | scope :: scopes => Some (leave_scope t (st_base st) scope scopes w) end
  end.

Fixpoint run (es : list Event) (w : Attributions) : option Attributions :=
  match es with [] => Some w | e :: es => step e w ≫= run es end.

(** * A refusal names a Fiber whose pass is open *)

(** The frame a scope carries, and whether it is that of a task body. *)
Definition scope_frame (s : OpenScope) : option (bool * AttributionFrame) :=
  match s with Nested f | Scoped _ f => Some (false, f) | RunScope _ f => Some (true, f) | With _ => None end.

(** Some strand is inside a scope with this frame. *)
Definition scope_open (w : Attributions) (task : bool) (f : AttributionFrame) : Prop :=
  ∃ t st scope, at_strands w !! t = Some st ∧ scope ∈ st_scopes st ∧ scope_frame scope = Some (task, f).

(** A frame of a cell has an allocated flag, and an open scope while the flag is set. *)
Definition frame_known (w : Attributions) (task : bool) (f : AttributionFrame) : Prop :=
  is_Some (at_flags w !! fr_active f) ∧ (at_flags w !! fr_active f = Some true → scope_open w task f).

Definition ctx_known (w : Attributions) (ctx : SettleCtx) : Prop :=
  (∀ f, f ∈ sx_settling ctx → frame_known w false f) ∧ (∀ f, sx_run_owner ctx = Some f → frame_known w true f).

Definition cells_known (w : Attributions) : Prop := ∀ c ctx, at_cells w !! c = Some ctx → ctx_known w ctx.

Lemma ctx_known_mono w w' ctx :
  (∀ task f, frame_known w task f → frame_known w' task f) → ctx_known w ctx → ctx_known w' ctx.
Proof. intros H [H1 H2]. split; auto. Qed.

Lemma try_with_known w t ctx : cells_known w → try_with w t = Some ctx → ctx_known w ctx.
Proof.
  intros Hk. unfold try_with. destruct (at_strands w !! t) as [st|]; [|done]. cbn.
  destruct (current_cell _ _) as [c|]; [|done]. cbn. apply Hk.
Qed.

Lemma SettleCtx_default_known w : ctx_known w SettleCtx_default.
Proof. by split; [intros f ?%not_elem_of_nil|]. Qed.

(** A strand may enter a scope: the scopes that were open still are. *)
Lemma put_strand_open w t base scopes task f :
  (∀ st, at_strands w !! t = Some st → ∀ s, s ∈ st_scopes st → s ∈ scopes) →
  scope_open w task f → scope_open (put_strand t base scopes w) task f.
Proof.
  intros Hsub (t' & st & s & Ht & Hin & Hf). destruct (decide (t = t')) as [<-|Hne].
  - exists t, {| st_base := base; st_scopes := scopes |}, s. cbn. rewrite lookup_insert_eq. eauto.
  - exists t', st, s. cbn. by rewrite lookup_insert_ne.
Qed.

Lemma enter_known w w' t st scope :
  at_strands w !! t = Some st → at_strands w' = <[ t := {| st_base := st_base st; st_scopes := scope :: st_scopes st |} ]> (at_strands w) →
  (∀ a b, at_flags w !! a = Some b → at_flags w' !! a = Some b) →
  ∀ task f, frame_known w task f → frame_known w' task f.
Proof.
  intros Ht Hs Hflag task f [[b Hb] Hopen]. split; [rewrite (Hflag _ _ Hb); eauto|].
  rewrite (Hflag _ _ Hb). intros [= ->].
  assert (scope_open (put_strand t (st_base st) (scope :: st_scopes st) w) task f) as (t' & st' & s & H).
  { apply put_strand_open; [|auto]. rewrite Ht. intros ? [= <-] s Hin. by right. }
  exists t', st', s. rewrite Hs. apply H.
Qed.

(** Entering a scope whose frame, if any, is fresh. *)
Lemma fresh_frame_known w w' t st scope task f :
  at_flags w' !! fr_active f = Some true →
  at_strands w' = <[ t := {| st_base := st_base st; st_scopes := scope :: st_scopes st |} ]> (at_strands w) →
  scope_frame scope = Some (task, f) → frame_known w' task f.
Proof.
  intros Hflag Hs Hf. split; [eauto|]. intros _. exists t, {| st_base := st_base st; st_scopes := scope :: st_scopes st |}, scope.
  rewrite Hs, lookup_insert_eq. split_and!; [done|by left|done].
Qed.

Lemma flag_fresh_mono (flags : gmap Addr bool) flag a b : flags !! flag = None → flags !! a = Some b → <[ flag := true ]> flags !! a = Some b.
Proof. intros Hf Ha. rewrite lookup_insert_ne; [done|]. intros ->. congruence. Qed.

Lemma bracket_known w t st fiber flag cell :
  cells_known w → at_strands w !! t = Some st → at_flags w !! flag = None → cells_known (bracket t st fiber flag cell w).
Proof.
  intros Hk Ht Hf. unfold bracket. cbn.
  pose (f := {| fr_fiber := fiber; fr_active := flag |}).
  destruct (current_cell (st_base st) (st_scopes st)) as [c|]; intros c' ctx; cbn.
  - set (w' := put_strand _ _ _ _).
    assert (∀ task g, frame_known w task g → frame_known w' task g) as Hmono.
    { apply (enter_known w w' t st (Nested f)); try done. intros a b. by apply flag_fresh_mono. }
    assert (frame_known w' false f) as Hnew.
    { apply (fresh_frame_known w w' t st (Nested f)); try done. cbn. apply lookup_insert_eq. }
    destruct (decide (c = c')) as [<-|Hne]; [rewrite lookup_alter_eq|rewrite lookup_alter_ne by done].
    + intros (ctx0 & Hc & ->)%fmap_Some. destruct (Hk _ _ Hc) as [H1 H2]. split; [|by auto].
      intros g [Hg|Hg%list_elem_of_singleton]%elem_of_app; [auto|by subst g].
    + intros Hc. eapply ctx_known_mono; [exact Hmono|by eapply Hk].
  - set (w' := put_strand _ _ _ _).
    assert (∀ task g, frame_known w task g → frame_known w' task g) as Hmono.
    { apply (enter_known w w' t st (Scoped cell f)); try done. intros a b. by apply flag_fresh_mono. }
    destruct (decide (cell = c')) as [<-|Hne]; [rewrite lookup_insert_eq|rewrite lookup_insert_ne by done].
    + intros [= <-]. split; [|done]. intros g ->%list_elem_of_singleton.
      apply (fresh_frame_known w w' t st (Scoped cell f)); try done. cbn. apply lookup_insert_eq.
    + intros Hc. eapply ctx_known_mono; [exact Hmono|by eapply Hk].
Qed.

Lemma run_task_known w t st fiber flag cell :
  cells_known w → at_strands w !! t = Some st → at_flags w !! flag = None → cells_known (run_task t st fiber flag cell w).
Proof.
  intros Hk Ht Hf c' ctx. pose (f := {| fr_fiber := fiber; fr_active := flag |}). unfold run_task. cbn.
  set (w' := put_strand _ _ _ _).
  assert (∀ task g, frame_known w task g → frame_known w' task g) as Hmono.
  { apply (enter_known w w' t st (RunScope cell f)); try done. intros a b. by apply flag_fresh_mono. }
  destruct (decide (cell = c')) as [<-|Hne]; [rewrite lookup_insert_eq|rewrite lookup_insert_ne by done].
  - intros [= <-]. split; [by intros g ?%not_elem_of_nil|]. intros g [= <-].
    apply (fresh_frame_known w w' t st (RunScope cell f)); try done. cbn. apply lookup_insert_eq.
  - intros Hc. eapply ctx_known_mono; [exact Hmono|by eapply Hk].
Qed.

Lemma with_attribution_known w t st attribution cell :
  cells_known w → ctx_known w attribution → (at_strands w !! t = Some st ∨ at_strands w !! t = None ∧ st_scopes st = []) →
  cells_known (with_attribution t st attribution cell w).
Proof.
  intros Hk Ha Ht c' ctx. unfold with_attribution. cbn.
  assert (∀ task g, frame_known w task g → frame_known (put_strand t (st_base st) (With cell :: st_scopes st) (put_cell cell attribution w)) task g) as Hmono.
  { intros task g [Hs Ho]. split; [done|]. intros Hg. apply put_strand_open; [|by apply Ho].
    cbn. intros st' Hst' s Hin. destruct Ht as [Ht|[Ht _]]; rewrite Ht in Hst'; [|done]. injection Hst' as <-. by right. }
  destruct (decide (cell = c')) as [<-|Hne]; [rewrite lookup_insert_eq|rewrite lookup_insert_ne by done]; intros Hc; simplify_eq.
  - by eapply ctx_known_mono.
  - eapply ctx_known_mono; [exact Hmono|by eapply Hk].
Qed.

Lemma put_strand_new_known w t base : cells_known w → at_strands w !! t = None → cells_known (put_strand t base [] w).
Proof.
  intros Hk Ht c ctx Hc. eapply ctx_known_mono; [|by eapply Hk]. intros task f [Hs Ho]. split; [done|]. intros Hf.
  apply put_strand_open; [by rewrite Ht|by apply Ho].
Qed.

Lemma leave_scope_known w t st scope scopes :
  cells_known w → at_strands w !! t = Some st → st_scopes st = scope :: scopes →
  cells_known (leave_scope t (st_base st) scope scopes w).
Proof.
  intros Hk Ht Hs.
  assert (∀ w', at_strands w' = <[ t := {| st_base := st_base st; st_scopes := scopes |} ]> (at_strands w) →
    at_flags w' = match scope_frame scope with Some (_, f) => <[ fr_active f := false ]> (at_flags w) | None => at_flags w end →
    ∀ task f, frame_known w task f → frame_known w' task f) as Hmono.
  { intros w' Hst Hfl task f [Hsome Ho].
    assert (at_flags w' !! fr_active f = Some true → at_flags w !! fr_active f = Some true ∧ ∀ g b, scope_frame scope = Some (b, g) → g ≠ f) as Hback.
    { rewrite Hfl. destruct (scope_frame scope) as [[b g]|]; [|by intros ?; split].
      destruct (decide (fr_active g = fr_active f)) as [Heq|Hne]; [rewrite Heq, lookup_insert_eq; done|].
      rewrite lookup_insert_ne by done. intros ?. split; [done|]. by intros ? ? [= <- <-] ->. }
    split.
    { rewrite Hfl. destruct (scope_frame scope) as [[b g]|]; [|done]. rewrite lookup_insert_is_Some'. by right. }
    intros [Hact Hne]%Hback. destruct (Ho Hact) as (t' & st' & s & Ht' & Hin & Hf).
    destruct (decide (t = t')) as [<-|Hne'].
    - rewrite Ht in Ht'. injection Ht' as <-. rewrite Hs in Hin. apply elem_of_cons in Hin as [->|Hin]; [by destruct (Hne _ _ Hf)|].
      exists t, {| st_base := st_base st; st_scopes := scopes |}, s. by rewrite Hst, lookup_insert_eq.
    - exists t', st', s. by rewrite Hst, lookup_insert_ne. }
  intros c ctx. destruct scope as [f|cell f|cell f|cell]; cbn.
  2, 3, 4: intros Hc; eapply ctx_known_mono; [by apply Hmono|by eapply Hk].
  set (w' := put_strand _ _ _ _).
  assert (∀ task g, frame_known w task g → frame_known w' task g) as Hm by by apply Hmono.
  destruct (current_cell (st_base st) scopes) as [c0|]; [|intros Hc; eapply ctx_known_mono; [exact Hm|by eapply Hk]].
  destruct (decide (c0 = c)) as [<-|Hne]; [rewrite lookup_alter_eq|rewrite lookup_alter_ne by done].
  - intros (ctx0 & Hc & ->)%fmap_Some. destruct (Hk _ _ Hc) as [H1 H2]. split; [|by auto]. cbn. intros g Hg. apply Hm, H1.
    revert Hg. clear. generalize (sx_settling ctx0). intros l. induction l as [|x l IH]; [done|]. cbn.
    destruct l as [|y l]; [by intros ?%not_elem_of_nil|]. intros [->|Hin]%elem_of_cons; [by left|right; by apply IH].
  - intros Hc. eapply ctx_known_mono; [exact Hm|by eapply Hk].
Qed.

Lemma step_known e w w' : cells_known w → step e w = Some w' → cells_known w'.
Proof.
  intros Hk. destruct e as [t|t t' cell|t t'|t fiber flag cell|t fiber flag cell|t cell|t]; cbn [step]; intros Hs;
    unfold fresh_strand, fresh_cell, fresh_flag in Hs.
  - case_guard as Hg; [|done]. simplify_eq/=. apply put_strand_new_known; [done|by case_bool_decide].
  - case_guard as Hg; [|done]. simplify_eq/=. apply andb_prop_elim in Hg as [Hg _].
    apply with_attribution_known; [done| |right; split; [by case_bool_decide|done]].
    unfold capture_attribution. destruct (try_with w t) as [ctx|] eqn:Hc; [by eapply try_with_known|apply SettleCtx_default_known].
  - destruct (at_strands w !! t) as [st|] eqn:Ht; [|done]. cbn in Hs. case_guard as Hg; [|done]. simplify_eq/=.
    apply put_strand_new_known; [done|by case_bool_decide].
  - destruct (at_strands w !! t) as [st|] eqn:Ht; [|done]. cbn in Hs. case_guard as Hg; [|done]. simplify_eq/=.
    apply andb_prop_elim in Hg as [Hg _]. apply bracket_known; [done|done|by case_bool_decide].
  - destruct (at_strands w !! t) as [st|] eqn:Ht; [|done]. cbn in Hs. case_guard as Hg; [|done]. simplify_eq/=.
    apply andb_prop_elim in Hg as [Hg _]. apply run_task_known; [done|done|by case_bool_decide].
  - destruct (at_strands w !! t) as [st|] eqn:Ht; [|done]. cbn in Hs. case_guard as Hg; [|done]. simplify_eq/=.
    apply with_attribution_known; [done|apply SettleCtx_default_known|by left].
  - destruct (at_strands w !! t) as [st|] eqn:Ht; [|done]. cbn in Hs. destruct (st_scopes st) as [|scope scopes] eqn:Hsc; [done|].
    simplify_eq. by apply leave_scope_known.
Qed.

Lemma run_known es w w' : cells_known w → run es w = Some w' → cells_known w'.
Proof.
  revert w. induction es as [|e es IH]; intros w Hk Hr; cbn in Hr; [by injection Hr as <-|].
  destruct (step e w) as [w1|] eqn:Hs; [|done]. eapply IH; [by eapply step_known|done].
Qed.

Lemma is_active_for_true flags target f : is_active_for flags target f = true ↔ flags !! fr_active f = Some true ∧ fr_fiber f = target.
Proof. unfold is_active_for. by rewrite andb_true_iff, !bool_decide_eq_true. Qed.

(** A refusal is never stale: whatever tasks were started, transferred, forked and
    cancelled, a lifecycle operation is refused only while a pass or a task body of exactly
    that Fiber is still open, and by a task body only for an operation that waits for it. *)
Theorem refusal_is_live es w t target draining op e :
  run es Attributions_new = Some w → refuse_recursion w t target draining op = Err e →
  e = {| lr_operation := op; lr_fiber := target |} ∧
  ∃ task f, scope_open w task f ∧ fr_fiber f = target ∧ (task = true → run_task_wait_is_doomed draining op = true).
Proof.
  intros Hr. assert (cells_known w) as Hk by (eapply run_known; [|exact Hr]; intros c ctx Hc; cbn in Hc; by rewrite lookup_empty in Hc).
  unfold refuse_recursion. destruct (is_doomed _ _ _ _ _) eqn:Hd; [|done]. intros [= <-]. split; [done|].
  unfold is_doomed in Hd. destruct (try_with w t) as [ctx|] eqn:Hctx; [|done].
  destruct (try_with_known _ _ _ Hk Hctx) as [Hset Hrun].
  apply orb_true_iff in Hd as [(f & Hin & [Hact Hf]%is_active_for_true)%existsb_exists|Hd].
  - exists false, f. split_and!; [|done|done]. apply list_elem_of_In in Hin. by apply Hset.
  - destruct (sx_run_owner ctx) as [f|] eqn:Ho; [|done]. apply andb_true_iff in Hd as [[Hact Hf]%is_active_for_true Hop].
    exists true, f. split_and!; [|done|done]. by apply Hrun.
Qed.

(** * The lexical specification

    Attributions are values: entering a bracket extends the environment of its body, and
    the environment of what encloses it is as it was. *)

Abbreviation LexScope := (option AttributionFrame * SettleCtx)%type (only parsing).

Record Lexical := { lx_open : gset Addr; lx_strands : gmap Addr (list LexScope) }.

Definition Lexical_new : Lexical := {| lx_open := ∅; lx_strands := ∅ |}.

Definition lex_env (scopes : list LexScope) : option SettleCtx := snd <$> head scopes.

Definition lex_refused (a : Lexical) (t target : Addr) (draining : bool) (op : LifecycleOperation) : bool :=
  let names f := bool_decide (fr_active f ∈ lx_open a ∧ fr_fiber f = target) in
  match lx_strands a !! t ≫= lex_env with
  | None => false
  | Some e => existsb names (sx_settling e) ||
              (match sx_run_owner e with Some f => names f | None => false end && run_task_wait_is_doomed draining op)
  end.

Definition lex_enter (t : Addr) (frame : option AttributionFrame) (e : SettleCtx) (a : Lexical) : Lexical :=
  {| lx_open := match frame with Some f => {[ fr_active f ]} ∪ lx_open a | None => lx_open a end;
     lx_strands := <[ t := (frame, e) :: default [] (lx_strands a !! t) ]> (lx_strands a) |}.

Definition lex_step (e : Event) (a : Lexical) : option Lexical :=
  let env t := lx_strands a !! t ≫= lex_env in
  match e with
  | EStart t => Some {| lx_open := lx_open a; lx_strands := <[ t := [] ]> (lx_strands a) |}
  | ETransfer t t' _ => Some (lex_enter t' None (default SettleCtx_default (env t)) a)
  | EFork t t' => Some {| lx_open := lx_open a; lx_strands := <[ t' := from_option (λ e, [(None, e)]) [] (env t) ]> (lx_strands a) |}
  | EBracket t fiber flag _ =>
      let f := {| fr_fiber := fiber; fr_active := flag |} in
      Some (lex_enter t (Some f) (push_settling f (default SettleCtx_default (env t))) a)
  | ERunTask t fiber flag _ =>
      let f := {| fr_fiber := fiber; fr_active := flag |} in
      Some (lex_enter t (Some f) {| sx_settling := []; sx_run_owner := Some f |} a)
  | EIsolate t _ => Some (lex_enter t None SettleCtx_default a)
  | ELeave t =>
      match lx_strands a !! t with
      | Some ((frame, _) :: scopes) =>
          Some {| lx_open := match frame with Some f => lx_open a ∖ {[ fr_active f ]} | None => lx_open a end;
                  lx_strands := <[ t := scopes ]> (lx_strands a) |}
      | _ => None
      end
  end.

Fixpoint lex_run (es : list Event) (a : Lexical) : option Lexical :=
  match es with [] => Some a | e :: es => lex_step e a ≫= lex_run es end.

(** ** The simulation, when no task polls two futures at once *)

Definition scope_cell (s : OpenScope) : option Addr :=
  match s with Nested _ => None | Scoped c _ | RunScope c _ | With c => Some c end.

Definition cells_of (scopes : list OpenScope) : list Addr := omap scope_cell scopes.

Definition holds_env (cells : gmap Addr SettleCtx) (scopes : list OpenScope) (env : option SettleCtx) : Prop :=
  match current_cell None scopes with None => env = None | Some c => cells !! c = env ∧ is_Some env end.

(** The scopes of a strand and its lexical environments, and the cells that hold the
    environments to come back to. *)
Inductive stack_rel (cells : gmap Addr SettleCtx) : list OpenScope → list LexScope → Prop :=
| SR_nil : stack_rel cells [] []
| SR_nested f scopes ls e :
    stack_rel cells scopes ls → lex_env ls = Some e →
    stack_rel cells (Nested f :: scopes) ((Some f, push_settling f e) :: ls)
| SR_own scope c scopes ls e :
    scope_cell scope = Some c → stack_rel cells scopes ls → holds_env cells scopes (lex_env ls) →
    stack_rel cells (scope :: scopes) ((snd <$> scope_frame scope, e) :: ls).

Record lex_sim (w : Attributions) (a : Lexical) : Prop := {
  ls_dom : ∀ t, is_Some (at_strands w !! t) ↔ is_Some (lx_strands a !! t);
  ls_stack : ∀ t st ls, at_strands w !! t = Some st → lx_strands a !! t = Some ls →
    st_base st = None ∧ stack_rel (at_cells w) (st_scopes st) ls ∧ holds_env (at_cells w) (st_scopes st) (lex_env ls);
  ls_cells : ∀ t st c, at_strands w !! t = Some st → c ∈ cells_of (st_scopes st) → is_Some (at_cells w !! c);
  ls_nodup : ∀ t st, at_strands w !! t = Some st → NoDup (cells_of (st_scopes st));
  ls_disjoint : ∀ t st t' st' c, at_strands w !! t = Some st → at_strands w !! t' = Some st' →
    c ∈ cells_of (st_scopes st) → c ∈ cells_of (st_scopes st') → t = t';
  ls_flags : ∀ x, at_flags w !! x = Some true ↔ x ∈ lx_open a;
}.

Lemma current_cell_of scopes c : current_cell None scopes = Some c → c ∈ cells_of scopes.
Proof. induction scopes as [|[]]; cbn; intros; simplify_eq; try apply elem_of_cons; auto. Qed.

(** The cells below the innermost one. *)
Lemma stack_rel_frame cells cells' scopes ls :
  stack_rel cells scopes ls → NoDup (cells_of scopes) →
  (∀ c, c ∈ cells_of scopes → current_cell None scopes ≠ Some c → cells' !! c = cells !! c) → stack_rel cells' scopes ls.
Proof.
  induction 1 as [|f scopes ls e Hst IH He|scope c scopes ls e Hc Hst IH Hh]; intros Hnd Hsame; [constructor| |].
  - constructor; [|done]. by apply IH.
  - assert (c ∉ cells_of scopes ∧ NoDup (cells_of scopes) ∧ current_cell None (scope :: scopes) = Some c) as (Hnin & Hnd' & Hcur).
    { destruct scope; cbn in *; simplify_eq; apply NoDup_cons in Hnd as [? ?]; done. }
    assert (∀ c', c' ∈ cells_of scopes → cells' !! c' = cells !! c') as Hall.
    { intros c' Hin. apply Hsame; [|rewrite Hcur; naive_solver]. destruct scope; cbn in *; simplify_eq; by right. }
    econstructor; [done|apply IH; auto|]. unfold holds_env in *. destruct (current_cell None scopes) as [c'|] eqn:Hc'; [|done].
    rewrite Hall; [done|by apply current_cell_of].
Qed.

Lemma stack_rel_same cells cells' scopes ls :
  stack_rel cells scopes ls → NoDup (cells_of scopes) → (∀ c, c ∈ cells_of scopes → cells' !! c = cells !! c) → stack_rel cells' scopes ls.
Proof. intros H Hnd Hs. eapply stack_rel_frame; eauto. Qed.

Lemma holds_env_same cells cells' scopes env :
  holds_env cells scopes env → (∀ c, c ∈ cells_of scopes → cells' !! c = cells !! c) → holds_env cells' scopes env.
Proof.
  unfold holds_env. intros H Hs. destruct (current_cell None scopes) as [c|] eqn:Hc; [|done]. rewrite Hs; [done|by apply current_cell_of].
Qed.

Lemma try_with_sim w a t : lex_sim w a → try_with w t = lx_strands a !! t ≫= lex_env.
Proof.
  intros Hs. unfold try_with. pose proof (ls_dom _ _ Hs t) as Hd.
  destruct (at_strands w !! t) as [st|] eqn:Ht, (lx_strands a !! t) as [ls|] eqn:Hl; cbn; try done.
  - destruct (ls_stack _ _ Hs t st ls Ht Hl) as (-> & _ & Hh). unfold holds_env in Hh.
    destruct (current_cell None (st_scopes st)); cbn; [by destruct Hh|done].
  - by destruct (proj1 Hd ltac:(eauto)).
  - by destruct (proj2 Hd ltac:(eauto)).
Qed.

Lemma refused_sim w a t target draining op :
  lex_sim w a → is_doomed (at_flags w) (try_with w t) target draining op = lex_refused a t target draining op.
Proof.
  intros Hs. unfold is_doomed, lex_refused. rewrite (try_with_sim w a t Hs).
  destruct (lx_strands a !! t ≫= lex_env) as [e|]; [|done].
  assert (∀ f, is_active_for (at_flags w) target f = bool_decide (fr_active f ∈ lx_open a ∧ fr_fiber f = target)) as Hf.
  { intros f. apply eq_true_iff_eq. by rewrite is_active_for_true, bool_decide_eq_true, (ls_flags _ _ Hs). }
  f_equal.
  - induction (sx_settling e) as [|f l IH]; [done|]. cbn. by rewrite Hf, IH.
  - by destruct (sx_run_owner e); rewrite ?Hf.
Qed.

(** A step of one strand that leaves the cells of the others alone. *)
Lemma sim_touch w a w' a' t scopes ls :
  lex_sim w a →
  at_strands w' = <[ t := {| st_base := None; st_scopes := scopes |} ]> (at_strands w) →
  lx_strands a' = <[ t := ls ]> (lx_strands a) →
  (∀ x, at_flags w' !! x = Some true ↔ x ∈ lx_open a') →
  stack_rel (at_cells w') scopes ls → holds_env (at_cells w') scopes (lex_env ls) → NoDup (cells_of scopes) →
  (∀ c, c ∈ cells_of scopes → is_Some (at_cells w' !! c)) →
  (∀ t' st' c, t' ≠ t → at_strands w !! t' = Some st' → c ∈ cells_of (st_scopes st') →
     at_cells w' !! c = at_cells w !! c ∧ c ∉ cells_of scopes) →
  lex_sim w' a'.
Proof.
  intros Hs Hst Hls Hfl Hrel Hh Hnd Hsome Hother.
  assert (∀ t' st', at_strands w' !! t' = Some st' → t' = t ∧ st' = {| st_base := None; st_scopes := scopes |} ∨ t' ≠ t ∧ at_strands w !! t' = Some st') as Hcase.
  { intros t' st'. rewrite Hst. destruct (decide (t' = t)) as [->|Hne]; [rewrite lookup_insert_eq; intros [= <-]; by left|].
    rewrite lookup_insert_ne by done. by right. }
  split; [| | | | |done].
  - intros t'. rewrite Hst, Hls. destruct (decide (t = t')) as [->|Hne]; [by rewrite !lookup_insert_eq|].
    rewrite !lookup_insert_ne by done. apply Hs.
  - intros t' st' ls' [[-> ->]|[Hne Ht']]%Hcase; rewrite Hls.
    + by rewrite lookup_insert_eq; intros [= <-].
    + rewrite lookup_insert_ne by done. intros Hl. destruct (ls_stack _ _ Hs _ _ _ Ht' Hl) as (Hb & Hr & He).
      assert (∀ c, c ∈ cells_of (st_scopes st') → at_cells w' !! c = at_cells w !! c) as Hsame by (intros c Hc; by eapply Hother).
      split_and!; [done| |by eapply holds_env_same]. eapply stack_rel_same; [done|by eapply ls_nodup|done].
  - intros t' st' c [[-> ->]|[Hne Ht']]%Hcase; [by apply Hsome|]. intros Hc.
    destruct (Hother _ _ _ Hne Ht' Hc) as [-> _]. by eapply ls_cells.
  - intros t' st' [[-> ->]|[Hne Ht']]%Hcase; [done|by eapply ls_nodup].
  - intros t1 s1 t2 s2 c [[-> ->]|[Hn1 H1]]%Hcase [[-> ->]|[Hn2 H2]]%Hcase Hc1 Hc2; [done| | |by eapply (ls_disjoint _ _ Hs)].
    + by destruct (Hother _ _ _ Hn2 H2 Hc2).
    + by destruct (Hother _ _ _ Hn1 H1 Hc1).
Qed.

(** Entering a scope with a fresh cell of its own. *)
Lemma sim_enter_own w a w' a' t st ls scope cell e frame :
  lex_sim w a → at_strands w !! t = Some st → lx_strands a !! t = Some ls → at_cells w !! cell = None →
  scope_cell scope = Some cell → snd <$> scope_frame scope = frame →
  at_strands w' = <[ t := {| st_base := None; st_scopes := scope :: st_scopes st |} ]> (at_strands w) →
  at_cells w' = <[ cell := e ]> (at_cells w) →
  lx_strands a' = <[ t := (frame, e) :: ls ]> (lx_strands a) →
  (∀ x, at_flags w' !! x = Some true ↔ x ∈ lx_open a') → lex_sim w' a'.
Proof.
  intros Hs Ht Hl Hfresh Hc <- Hst Hcells Hls Hfl. destruct (ls_stack _ _ Hs _ _ _ Ht Hl) as (_ & Hr & Hh).
  assert (∀ t' st' c, at_strands w !! t' = Some st' → c ∈ cells_of (st_scopes st') → cell ≠ c) as Hne.
  { intros t' st' c Ht' Hin ->. destruct (ls_cells _ _ Hs _ _ _ Ht' Hin) as [? ?]. congruence. }
  assert (cells_of (scope :: st_scopes st) = cell :: cells_of (st_scopes st)) as Hcs by (unfold cells_of; csimpl; by rewrite Hc).
  assert (current_cell None (scope :: st_scopes st) = Some cell) as Hcur by (destruct scope; cbn in *; congruence).
  eapply sim_touch; try done.
  - apply (SR_own _ _ cell); [done| |].
    + eapply stack_rel_same; [done|by eapply ls_nodup|]. intros c Hin. rewrite Hcells. apply lookup_insert_ne. by eapply Hne.
    + eapply holds_env_same; [done|]. intros c Hin. rewrite Hcells. apply lookup_insert_ne. by eapply Hne.
  - unfold holds_env. rewrite Hcur, Hcells, lookup_insert_eq. done.
  - rewrite Hcs. constructor; [|by eapply ls_nodup]. intros Hin. by destruct (Hne _ _ _ Ht Hin).
  - intros c. rewrite Hcs, Hcells. intros [->|Hin]%elem_of_cons; [by rewrite lookup_insert_eq|].
    rewrite lookup_insert_ne by (by eapply Hne). by eapply ls_cells.
  - intros t' st' c Hnt Ht' Hin. rewrite Hcells, lookup_insert_ne by (by eapply Hne). split; [done|]. rewrite Hcs.
    intros [->|Hin']%elem_of_cons; [by destruct (Hne _ _ _ Ht' Hin)|]. by destruct Hnt; eapply (ls_disjoint _ _ Hs).
Qed.

Lemma flags_enter w a flag :
  (∀ x, at_flags w !! x = Some true ↔ x ∈ lx_open a) →
  ∀ x, <[ flag := true ]> (at_flags w) !! x = Some true ↔ x ∈ {[ flag ]} ∪ lx_open a.
Proof.
  intros H x. destruct (decide (flag = x)) as [<-|Hne]; [rewrite lookup_insert_eq; set_solver|].
  rewrite lookup_insert_ne, H by done. set_solver.
Qed.

Lemma flags_leave w a flag :
  (∀ x, at_flags w !! x = Some true ↔ x ∈ lx_open a) →
  ∀ x, <[ flag := false ]> (at_flags w) !! x = Some true ↔ x ∈ lx_open a ∖ {[ flag ]}.
Proof.
  intros H x. destruct (decide (flag = x)) as [<-|Hne]; [rewrite lookup_insert_eq; set_solver|].
  rewrite lookup_insert_ne, H by done. set_solver.
Qed.

(** A bracket that finds a scope pushes its frame on the cell. *)
Lemma sim_nested w a t st ls c e f :
  lex_sim w a → at_strands w !! t = Some st → lx_strands a !! t = Some ls → current_cell None (st_scopes st) = Some c →
  lex_env ls = Some e → st_base st = None →
  lex_sim (put_strand t None (Nested f :: st_scopes st)
             {| at_flags := <[ fr_active f := true ]> (at_flags w); at_cells := alter (push_settling f) c (at_cells w); at_strands := at_strands w |})
          (lex_enter t (Some f) (push_settling f e) a).
Proof.
  intros Hs Ht Hl Hc He Hb. destruct (ls_stack _ _ Hs _ _ _ Ht Hl) as (_ & Hr & Hh).
  unfold holds_env in Hh. rewrite Hc, He in Hh. destruct Hh as [Hcell _].
  eapply (sim_touch w a _ _ t (Nested f :: st_scopes st) ((Some f, push_settling f e) :: ls)); cbn; try done.
  - by rewrite Hl.
  - apply flags_enter, Hs.
  - constructor; [|done]. eapply stack_rel_frame; [done|by eapply ls_nodup|]. intros c' Hin Hne. apply lookup_alter_ne. congruence.
  - unfold holds_env. cbn. by rewrite Hc, lookup_alter_eq, Hcell.
  - by eapply (ls_nodup _ _ Hs).
  - intros c' Hin. rewrite lookup_alter_is_Some. by eapply (ls_cells _ _ Hs).
  - intros t' st' c' Hne Ht' Hin.
    assert (c' ∉ cells_of (st_scopes st)) as Hnin by (intros Hin'; by destruct Hne; eapply (ls_disjoint _ _ Hs)).
    split; [|done]. apply lookup_alter_ne. intros <-. by apply Hnin, current_cell_of.
Qed.

Lemma removelast_snoc {A} (l : list A) x : removelast (l ++ [x]) = l.
Proof. rewrite removelast_app by done. cbn. apply app_nil_r. Qed.

(** Leaving a scope gives back what was around it. *)
Lemma sim_leave w a t st ls scope scopes frame e :
  lex_sim w a → at_strands w !! t = Some st → st_scopes st = scope :: scopes → lx_strands a !! t = Some ((frame, e) :: ls) →
  lex_sim (leave_scope t None scope scopes w)
    {| lx_open := match frame with Some f => lx_open a ∖ {[ fr_active f ]} | None => lx_open a end;
       lx_strands := <[ t := ls ]> (lx_strands a) |}.
Proof.
  intros Hs Ht Hsc Hl. destruct (ls_stack _ _ Hs _ _ _ Ht Hl) as (_ & Hr & Hh). rewrite Hsc in Hr, Hh.
  pose proof (ls_nodup _ _ Hs _ _ Ht) as Hnd. rewrite Hsc in Hnd.
  assert (∀ c, c ∈ cells_of scopes → c ∈ cells_of (st_scopes st)) as Hsub.
  { intros c Hin. rewrite Hsc. unfold cells_of. csimpl. destruct (scope_cell scope); [by right|done]. }
  assert (NoDup (cells_of scopes)) as Hnd'.
  { unfold cells_of in *. csimpl in Hnd. destruct (scope_cell scope); [by apply NoDup_cons in Hnd as [_ ?]|done]. }
  assert (∀ t' st' c, t' ≠ t → at_strands w !! t' = Some st' → c ∈ cells_of (st_scopes st') → c ∉ cells_of scopes) as Hdis.
  { intros t' st' c Hne Ht' Hin Hin'%Hsub. by destruct Hne; eapply (ls_disjoint _ _ Hs). }
  inversion Hr as [|f' scopes' ls' e' Hst He|scope' c scopes' ls' e' Hc Hst Hhold]; subst; clear Hr.
  - (* a nested bracket *)
    unfold holds_env in Hh. cbn in Hh. destruct (current_cell None scopes) as [c|] eqn:Hcur; [|done]. destruct Hh as [Hcell _].
    eapply (sim_touch w a _ _ t scopes ls); cbn; rewrite ?Hcur; try done.
    + apply flags_leave, Hs.
    + eapply stack_rel_frame; [done|done|]. intros c' Hin Hne. apply lookup_alter_ne. congruence.
    + unfold holds_env. rewrite Hcur, lookup_alter_eq, Hcell, He. cbn. unfold pop_settling. cbn. rewrite removelast_snoc. by destruct e'.
    + intros c' Hin. rewrite lookup_alter_is_Some. by eapply (ls_cells _ _ Hs), Hsub.
    + intros t' st' c' Hne Ht' Hin. split; [|by eapply Hdis]. apply lookup_alter_ne. intros ->.
      by eapply Hdis; [..|by apply current_cell_of].
  - assert (∀ w', at_cells w' = at_cells w → at_strands w' = <[ t := {| st_base := None; st_scopes := scopes |} ]> (at_strands w) →
      (∀ x, at_flags w' !! x = Some true ↔
         x ∈ match snd <$> scope_frame scope with Some f => lx_open a ∖ {[ fr_active f ]} | None => lx_open a end) →
      lex_sim w' {| lx_open := match snd <$> scope_frame scope with Some f => lx_open a ∖ {[ fr_active f ]} | None => lx_open a end;
                    lx_strands := <[ t := ls ]> (lx_strands a) |}) as Hgo.
    { intros w' Hcells Hstr Hfl. eapply (sim_touch w a _ _ t scopes ls); cbn; rewrite ?Hcells; try done.
      - intros c' Hin. by eapply (ls_cells _ _ Hs), Hsub.
      - intros t' st' c' Hne Ht' Hin. split; [done|by eapply Hdis]. }
    destruct scope as [|c0 f|c0 f|c0]; cbn in Hc; try done; apply Hgo; cbn; try done; try apply Hs; apply flags_leave, Hs.
Qed.

Definition is_fork (e : Event) : bool := match e with EFork _ _ => true | _ => false end.

Lemma sim_strand w a t st : lex_sim w a → at_strands w !! t = Some st → ∃ ls, lx_strands a !! t = Some ls ∧ st_base st = None.
Proof.
  intros Hs Ht. destruct (proj1 (ls_dom _ _ Hs t) ltac:(eauto)) as [ls Hl]. exists ls. split; [done|].
  by destruct (ls_stack _ _ Hs _ _ _ Ht Hl).
Qed.

Lemma sim_fresh w a t c e :
  lex_sim w a → at_strands w !! t = None → at_cells w !! c = None →
  lex_sim (put_strand t None [With c] (put_cell c e w)) (lex_enter t None e a).
Proof.
  intros Hs Ht Hc.
  assert (lx_strands a !! t = None) as Hl.
  { apply eq_None_not_Some. intros H%(ls_dom _ _ Hs). rewrite Ht in H. by destruct H. }
  assert (∀ t' st' c', at_strands w !! t' = Some st' → c' ∈ cells_of (st_scopes st') → c ≠ c') as Hne.
  { intros t' st' c' Ht' Hin ->. destruct (ls_cells _ _ Hs _ _ _ Ht' Hin) as [? ?]. congruence. }
  eapply (sim_touch w a _ _ t [With c] [(None, e)]); cbn; try done.
  - by rewrite Hl.
  - apply Hs.
  - apply (SR_own _ (With c) c [] [] e); [done|constructor|done].
  - unfold holds_env. cbn. by rewrite lookup_insert_eq.
  - apply NoDup_singleton.
  - intros c' ->%list_elem_of_singleton. by rewrite lookup_insert_eq.
  - intros t' st' c' Hnt Ht' Hin. rewrite lookup_insert_ne by (by eapply Hne). split; [done|].
    intros ->%list_elem_of_singleton. by destruct (Hne _ _ _ Ht' Hin).
Qed.

Lemma sim_bracket w a t st fiber flag cell :
  lex_sim w a → at_strands w !! t = Some st → at_cells w !! cell = None →
  ∃ a', lex_step (EBracket t fiber flag cell) a = Some a' ∧ lex_sim (bracket t st fiber flag cell w) a'.
Proof.
  intros Hs Ht Hc. eexists. split; [done|]. destruct (sim_strand _ _ _ _ Hs Ht) as (ls & Hl & Hb).
  destruct (ls_stack _ _ Hs _ _ _ Ht Hl) as (_ & _ & Hh). unfold holds_env in Hh. unfold bracket. cbn. rewrite Hb, Hl. cbn.
  destruct (current_cell None (st_scopes st)) as [c|] eqn:Hcur.
  - destruct Hh as [Hcell [e He]]. rewrite He. cbn. by eapply sim_nested.
  - rewrite Hh. cbn. unfold push_settling. cbn.
    eapply (sim_enter_own w a _ _ t st ls (Scoped cell {| fr_fiber := fiber; fr_active := flag |}) cell); cbn; try done.
    + by rewrite Hl.
    + apply flags_enter, Hs.
Qed.

Lemma lex_step_sim e w w' a :
  lex_sim w a → is_fork e = false → step e w = Some w' → ∃ a', lex_step e a = Some a' ∧ lex_sim w' a'.
Proof.
  intros Hs Hnf. destruct e as [t|t t' cell|t t'|t fiber flag cell|t fiber flag cell|t cell|t]; cbn [step]; intros Hst;
    unfold fresh_strand, fresh_cell, fresh_flag in Hst; [| |done| | | |].
  - case_guard as Hg; [|done]. simplify_eq/=. case_bool_decide as Ht; [|done]. eexists. split; [done|].
    eapply (sim_touch w a _ _ t [] []); cbn; try done; [apply Hs|constructor|constructor| |].
    + by intros c ?%not_elem_of_nil.
    + intros t' st' c _ _ _. split; [done|apply not_elem_of_nil].
  - case_guard as Hg; [|done]. simplify_eq/=. apply andb_prop_elim in Hg as [Ht Hc]. case_bool_decide; [|done]. case_bool_decide; [|done].
    eexists. split; [done|]. unfold spawn_attributed, with_attribution, capture_attribution. cbn.
    rewrite (try_with_sim _ _ _ Hs). by apply sim_fresh.
  - destruct (at_strands w !! t) as [st|] eqn:Ht; [|done]. cbn in Hst. case_guard as Hg; [|done]. simplify_eq/=.
    apply andb_prop_elim in Hg as [_ Hc]. case_bool_decide; [|done]. by apply sim_bracket.
  - destruct (at_strands w !! t) as [st|] eqn:Ht; [|done]. cbn in Hst. case_guard as Hg; [|done]. simplify_eq/=.
    apply andb_prop_elim in Hg as [_ Hc]. case_bool_decide; [|done]. destruct (sim_strand _ _ _ _ Hs Ht) as (ls & Hl & Hb).
    eexists. split; [done|]. unfold run_task. cbn. rewrite Hb.
    eapply (sim_enter_own w a _ _ t st ls (RunScope cell {| fr_fiber := fiber; fr_active := flag |}) cell); cbn; try done.
    + by rewrite Hl.
    + apply flags_enter, Hs.
  - destruct (at_strands w !! t) as [st|] eqn:Ht; [|done]. cbn in Hst. case_guard as Hg; [|done]. simplify_eq/=.
    case_bool_decide; [|done]. destruct (sim_strand _ _ _ _ Hs Ht) as (ls & Hl & Hb).
    eexists. split; [done|]. unfold with_attribution. rewrite Hb.
    eapply (sim_enter_own w a _ _ t st ls (With cell) cell); cbn; try done; [by rewrite Hl|apply Hs].
  - destruct (at_strands w !! t) as [st|] eqn:Ht; [|done]. cbn in Hst. destruct (st_scopes st) as [|scope scopes] eqn:Hsc; [done|].
    simplify_eq. destruct (sim_strand _ _ _ _ Hs Ht) as (ls & Hl & Hb). rewrite Hb.
    destruct (ls_stack _ _ Hs _ _ _ Ht Hl) as (_ & Hr & _). rewrite Hsc in Hr.
    assert (∃ frame e ls', ls = (frame, e) :: ls') as (frame & e & ls' & ->) by (inversion Hr; eauto).
    cbn. rewrite Hl. eexists. split; [done|]. by eapply sim_leave.
Qed.

Lemma lex_sim_new : lex_sim Attributions_new Lexical_new.
Proof.
  by split; cbn; intros *; rewrite ?lookup_empty.
Qed.

Lemma lex_run_sim es w w' a :
  lex_sim w a → forallb (negb ∘ is_fork) es = true → run es w = Some w' → ∃ a', lex_run es a = Some a' ∧ lex_sim w' a'.
Proof.
  revert w a. induction es as [|e es IH]; intros w a Hs Hf Hr; cbn in *; [injection Hr as <-; eauto|].
  apply andb_true_iff in Hf as [He Hf]. destruct (step e w) as [w1|] eqn:Hst; [|done]. cbn in Hr.
  destruct (lex_step_sim e w w1 a Hs) as (a1 & -> & Hs1); [by apply negb_true_iff|done|]. by apply (IH w1).
Qed.

(** [C22] While each task polls one future at a time, the mutable task-local stack answers
    as immutable environments would: after any sequence of tasks, transfers, brackets,
    task bodies and endings, a lifecycle operation is refused exactly when the lexical
    environment of the code that asks holds an open pass of that Fiber, or belongs to an
    open task of it that the operation waits for. *)
Theorem attribution_is_lexical es w :
  run es Attributions_new = Some w → forallb (negb ∘ is_fork) es = true →
  ∃ a, lex_run es Lexical_new = Some a ∧
    ∀ t target draining op, is_ok (refuse_recursion w t target draining op) = negb (lex_refused a t target draining op).
Proof.
  intros Hr Hf. destruct (lex_run_sim es _ w _ lex_sim_new Hf Hr) as (a & Ha & Hs). exists a. split; [done|].
  intros t target draining op. unfold refuse_recursion. rewrite (refused_sim w a) by done. by destruct (lex_refused _ _ _ _ _).
Qed.

(** A pass of Fiber 1 that brackets Fiber 2 inside, hands work to another task, and ends
    the inner bracket. *)
Definition sample_nested : list Event :=
  [EStart 0; EBracket 0 1 10 20; EBracket 0 2 11 21; ETransfer 0 3 22; EBracket 3 4 12 23; ELeave 0; ELeave 3].
Definition sample_nested_state : Attributions := default Attributions_new (run sample_nested Attributions_new).

Lemma attribution_is_lexical_witness :
  ∃ a, lex_run sample_nested Lexical_new = Some a ∧
    ∀ t target draining op,
      is_ok (refuse_recursion sample_nested_state t target draining op) = negb (lex_refused a t target draining op).
Proof. apply (attribution_is_lexical sample_nested sample_nested_state); by vm_compute. Defined.

Lemma refusal_is_live_witness :
  ∃ task f, scope_open sample_nested_state task f ∧ fr_fiber f = 1 ∧ (task = true → run_task_wait_is_doomed false OpDispose = true).
Proof.
  apply (refusal_is_live sample_nested sample_nested_state 3 1 false OpDispose {| lr_operation := OpDispose; lr_fiber := 1 |});
    by vm_compute.
Defined.

(** Two spawns polled side by side inside the apply body of Fiber 0. *)
Definition sample_join : list Event :=
  [EStart 0; EBracket 0 0 10 20; EFork 0 1; EFork 0 2; EBracket 1 1 11 21; EBracket 2 2 12 22; ELeave 1].
Definition sample_join_state : Attributions := default Attributions_new (run sample_join Attributions_new).

(** The guard of a bracket pops the last frame of the scope, which need not be its own:
    when a task polls two passes side by side, the one that ends first takes the frame of
    the other, and from inside the pass of Fiber 2, still open, no operation on Fiber 2 is
    refused. *)
Theorem interleaved_bracket_loses_refusal :
  run sample_join Attributions_new = Some sample_join_state ∧
  at_strands sample_join_state !! 2 = Some {| st_base := Some 20; st_scopes := [Nested {| fr_fiber := 2; fr_active := 12 |}] |} ∧
  at_flags sample_join_state !! 12 = Some true ∧
  ∀ draining op, refuse_recursion sample_join_state 2 2 draining op = Ok ().
Proof. by split_and!; [vm_compute..|intros [] []; vm_compute]. Qed.
