(* ===== verification/Contained.v ===== *)
(** Panic containment (crates/cordis-core/src/contained.rs): what a caught panic payload
    becomes, and the outcomes of contained calls.

    A payload is a string or an opaque value, whose destructor may panic in its turn. *)
From S2P Require Import Prelude.

(** [destructor] is what destroying an opaque payload panics with, if it does. *)
Inductive Payload := PayloadText (text : string) | PayloadOpaque (destructor : option Payload).

Definition payload_destructor (p : Payload) : option Payload :=
  match p with PayloadText _ => None | PayloadOpaque d => d end.

(* @src crates/cordis-core/src/contained.rs 73-79 payload_text_or *)
Definition payload_text_or (p : Payload) (fallback : string) : string :=
  match p with PayloadText t => t | PayloadOpaque _ => fallback end.

(* @src crates/cordis-core/src/contained.rs 69-71 payload_text *)
Definition payload_text (p : Payload) : string := payload_text_or p "non-string panic payload".

(** The payloads destroyed, and those deliberately forgotten. *)
Record Consumed := { cs_diagnostic : string; cs_destroyed : list Payload; cs_forgotten : list Payload }.

(* @src crates/cordis-core/src/contained.rs 90-110 consume_panic_payload *)
Definition consume_panic_payload (p : Payload) (fallback : string) : Consumed :=
  let diagnostic := payload_text_or p fallback in
  match payload_destructor p with
  | None => {| cs_diagnostic := diagnostic; cs_destroyed := [p]; cs_forgotten := [] |}
  | Some secondary =>
      let diagnostic := String.append (String.append diagnostic "; panic payload destructor panicked: ") (payload_text secondary) in
      match secondary with
      | PayloadText _ => {| cs_diagnostic := diagnostic; cs_destroyed := [p; secondary]; cs_forgotten := [] |}
      | PayloadOpaque _ => {| cs_diagnostic := diagnostic; cs_destroyed := [p]; cs_forgotten := [secondary] |}
      end
  end.

(** How a call ends: with a value, or by unwinding. *)
Inductive Ending (A : Type) := Returned (a : A) | Unwound (p : Payload).
Arguments Returned {A} a.
Arguments Unwound {A} p.

(* @src crates/cordis-core/src/contained.rs 53-65 catch_contained *)
Definition catch_contained {A} (e : Ending A) : result A string :=
  match e with
  | Returned a => Ok a
  | Unwound p => Err (cs_diagnostic (consume_panic_payload p "non-string panic payload"))
  end.

Definition panicked_text (what diagnostic : string) : string :=
  String.append (String.append (String.append "cordis: " what) " panicked: ") diagnostic.

(** The report of a contained callback, if it panicked. *)
(* @src crates/cordis-core/src/contained.rs 119-131 contain *)
Definition contain (what : string) (e : Ending unit) : option string :=
  match e with
  | Returned _ => None
  | Unwound p => Some (panicked_text what (cs_diagnostic (consume_panic_payload p "non-string panic payload")))
  end.

(** How a joined task ended: the join itself may unwind; a task may be cancelled. *)
Inductive JoinEnding := JoinUnwound (p : Payload) | JoinDone | JoinPanicked (p : Payload) | JoinCancelled.

(* @src crates/cordis-core/src/contained.rs 142-161 contain_join *)
Definition contain_join (what : string) (e : JoinEnding) : option string :=
  match e with
  | JoinUnwound p | JoinPanicked p =>
      Some (panicked_text what (cs_diagnostic (consume_panic_payload p "non-string panic payload")))
  | JoinDone | JoinCancelled => None
  end.

(** Only a value whose destruction cannot unwind any more is destroyed after the first,
    however long the chain of panicking destructors is. *)
Theorem containment_is_bounded (p : Payload) (fallback : string) :
  let c := consume_panic_payload p fallback in
  length (cs_destroyed c) ≤ 2 ∧
  (∀ q, q ∈ cs_destroyed c → q = p ∨ payload_destructor q = None) ∧
  (∀ q, q ∈ cs_forgotten c → payload_destructor p = Some q).
Proof.
  unfold consume_panic_payload. destruct (payload_destructor p) as [[t|d]|] eqn:Hp; cbn; split_and!;
    try lia; intros q; rewrite ?elem_of_cons, ?elem_of_nil; naive_solver.
Qed.
