(* ===== verification/Logger.v ===== *)
(** Runtime logging (crates/cordis-core/src/logger.rs): records, exporter occurrences, the
    synchronous fan-out with its reentrancy guard, the bounded buffer, and channel names.

    An exporter is user code: a call of it may log, add and remove exporters, change its
    own state [W], and end normally or by unwinding.  A log call made from inside an
    exporter comes back to the same fan-out; the fuel bounds that depth, and
    [log_depth_two] shows that two levels always suffice. *)
From Stdlib Require Import Ascii String.
From S2P Require Import Prelude Axes Contained.

(* @src crates/cordis-core/src/logger.rs 23-31 Level *)
Inductive Level := Debug | Info | Warn | Error.

(** The derived order. *)
Definition level_rank (l : Level) : nat := match l with Debug => 0 | Info => 1 | Warn => 2 | Error => 3 end.

(* @src crates/cordis-core/src/logger.rs 48-55 Level::as_str *)
Definition as_str (l : Level) : string :=
  match l with Debug => "debug" | Info => "info" | Warn => "warn" | Error => "error" end.

(* @src crates/cordis-core/src/logger.rs 71-77 LogRecord *)
Record LogRecord := { lr_sequence : Z; lr_timestamp : Z; lr_channel : string; lr_level : Level; lr_text : string }.

(** * The bounded buffer *)

(* @src crates/cordis-core/src/logger.rs 201-205 BufferExporter *)
Record BufferExporter := { bx_capacity : nat; bx_buffer : list LogRecord; bx_min_level : Level }.

(** [Err] is [BufferSizeZero]. *)
(* @src crates/cordis-core/src/logger.rs 209-218 BufferExporter::new *)
Definition BufferExporter_new (capacity : nat) (min_level : Level) : result BufferExporter unit :=
  if decide (capacity = 0) then Err tt
  else Ok {| bx_capacity := capacity; bx_buffer := []; bx_min_level := min_level |}.

(* @src crates/cordis-core/src/logger.rs 230-236 BufferExporter::export *)
Definition buffer_export (record : LogRecord) (b : BufferExporter) : BufferExporter :=
  let buffer := if decide (length (bx_buffer b) = bx_capacity b) then tail (bx_buffer b) else bx_buffer b in
  {| bx_capacity := bx_capacity b; bx_buffer := buffer ++ [record]; bx_min_level := bx_min_level b |}.

(* @src crates/cordis-core/src/logger.rs 220-222 BufferExporter::snapshot *)
Definition buffer_snapshot (b : BufferExporter) : list LogRecord := bx_buffer b.

(* @src crates/cordis-core/src/logger.rs 224-226 BufferExporter::clear *)
Definition buffer_clear (b : BufferExporter) : BufferExporter :=
  {| bx_capacity := bx_capacity b; bx_buffer := []; bx_min_level := bx_min_level b |}.

Inductive BufferOp := BufExport (record : LogRecord) | BufClear.

Definition buffer_step (b : BufferExporter) (op : BufferOp) : BufferExporter :=
  match op with BufExport r => buffer_export r b | BufClear => buffer_clear b end.

(** The records received since the last clearing. *)
Definition received (log : list LogRecord) (op : BufferOp) : list LogRecord :=
  match op with BufExport r => log ++ [r] | BufClear => [] end.

Lemma buffer_export_spec log record b :
  bx_capacity b ≠ 0 → bx_buffer b = drop (length log - bx_capacity b) log →
  bx_buffer (buffer_export record b) = drop (length (log ++ [record]) - bx_capacity b) (log ++ [record]).
Proof.
  intros Hcap Hb. unfold buffer_export. cbn. rewrite length_app. cbn.
  assert (length (bx_buffer b) = length log - (length log - bx_capacity b)) as Hlen by (by rewrite Hb, length_drop).
  case_decide as Hd.
  - rewrite Hb. replace (length log + 1 - bx_capacity b) with (S (length log - bx_capacity b)) by lia.
    rewrite drop_app_le by lia. f_equal. rewrite <- (Nat.add_1_r (_ - _)), <- drop_drop. by destruct (drop _ log).
  - rewrite Hb. replace (length log + 1 - bx_capacity b) with 0 by lia. by replace (length log - bx_capacity b) with 0 by lia.
Qed.

(** The buffer holds the latest records: after any sequence of exports and clearings
    it holds exactly the last [capacity] records received since the last clearing, oldest
    first, and a zero capacity is refused at construction. *)
Theorem buffer_keeps_latest capacity min_level (ops : list BufferOp) :
  match BufferExporter_new capacity min_level with
  | Err _ => capacity = 0
  | Ok b =>
      let log := fold_left received ops [] in
      buffer_snapshot (fold_left buffer_step ops b) = drop (length log - capacity) log ∧
      length (buffer_snapshot (fold_left buffer_step ops b)) ≤ capacity
  end.
Proof.
  unfold BufferExporter_new. case_decide as Hc; [done|]. cbn.
  assert (∀ ops log b, bx_capacity b = capacity → bx_buffer b = drop (length log - capacity) log →
    bx_buffer (fold_left buffer_step ops b) = drop (length (fold_left received ops log) - capacity) (fold_left received ops log)) as H.
  { induction ops0 as [|op ops0 IH]; intros log b Hcap Hb; [done|]. cbn. apply IH; [by destruct op|].
    destruct op as [r|]; [|done]. rewrite <- Hcap in *. by apply buffer_export_spec. }
  unfold buffer_snapshot. rewrite (H ops [] {| bx_capacity := capacity; bx_buffer := []; bx_min_level := min_level |}) by done. split; [done|]. rewrite length_drop. lia.
Qed.

(** * Channel names *)

Inductive NameState := NDelim | NUpper | NLower.

Definition is_ascii_uppercase (c : ascii) : bool := let n := N_of_ascii c in ((65 <=? n) && (n <=? 90))%N.
Definition is_ascii_lowercase (c : ascii) : bool := let n := N_of_ascii c in ((97 <=? n) && (n <=? 122))%N.
Definition to_ascii_lowercase (c : ascii) : ascii := if is_ascii_uppercase c then ascii_of_N (N_of_ascii c + 32) else c.
Definition is_delimiter (c : ascii) : bool := bool_decide (c = "-"%char) || bool_decide (c = "_"%char).

(** One character, with the rest of the name to look ahead in: what is pushed, and the
    next state.  A character beyond ASCII is the sequence of its bytes, which all take the
    last branch. *)
(* @src crates/cordis-core/src/logger.rs 452-480 hyphenate *)
Definition hyphenate_char (state : NameState) (ch : ascii) (rest : list ascii) : list ascii * NameState :=
  if is_ascii_uppercase ch then
    let dash := match state with
                | NUpper => match rest with c :: _ => is_ascii_lowercase c | [] => false end
                | NDelim => false
                | NLower => true
                end in
    ((if dash then ["-"%char] else []) ++ [to_ascii_lowercase ch], NUpper)
  else if is_ascii_lowercase ch then ([ch], NLower)
  else if is_delimiter ch then (match state with NDelim => [] | _ => ["-"%char] end, NDelim)
  else ([ch], state).

Fixpoint hyphenate_from (state : NameState) (chars : list ascii) : list ascii :=
  match chars with
  | [] => []
  | ch :: rest => let '(out, state) := hyphenate_char state ch rest in out ++ hyphenate_from state rest
  end.

(* @src crates/cordis-core/src/logger.rs 440-481 hyphenate *)
Definition hyphenate (name : string) : string :=
  string_of_list_ascii (hyphenate_from NDelim (list_ascii_of_string name)).

Example hyphenate_http : hyphenate "HTTPServer" = "http-server".
Proof. reflexivity. Qed.
Example hyphenate_digits : hyphenate "foo2B" = "foo2-b".
Proof. reflexivity. Qed.

(** A delimiter that follows digits right after another delimiter, or at the start, is
    dropped instead of being collapsed into one. *)
Lemma hyphenate_drops_delimiter : hyphenate "v-2-beta" = "v-2beta" ∧ hyphenate "2-beta" = "2beta".
Proof. done. Qed.

(** The names that are in normal form when the tokenizer is in [state]: no capital, no
    underscore, and no delimiter before a letter. *)
Fixpoint hyphenated (state : NameState) (chars : list ascii) : Prop :=
  match chars with
  | [] => True
  | ch :: rest =>
      if is_ascii_uppercase ch then False
      else if is_ascii_lowercase ch then hyphenated NLower rest
      else if is_delimiter ch then ch = "-"%char ∧ state ≠ NDelim ∧ hyphenated NDelim rest
      else hyphenated state rest
  end.

Lemma hyphenate_fixed state chars : hyphenated state chars → hyphenate_from state chars = chars.
Proof.
  revert state. induction chars as [|ch rest IH]; intros state H; [done|]. cbn in *. unfold hyphenate_char.
  destruct (is_ascii_uppercase ch); [done|]. destruct (is_ascii_lowercase ch); [cbn; by rewrite IH|].
  destruct (is_delimiter ch); [|cbn; by rewrite IH]. destruct H as (-> & Hne & H). destruct state; cbn; by rewrite ?IH.
Qed.

Lemma lowercase_upper ch :
  is_ascii_uppercase ch = true →
  is_ascii_uppercase (to_ascii_lowercase ch) = false ∧ is_ascii_lowercase (to_ascii_lowercase ch) = true.
Proof. destruct ch as [[] [] [] [] [] [] [] []]; vm_compute; done. Qed.

(** An upper run behaves as a lower one in what it lets follow. *)
Lemma hyphenated_state s1 s2 chars : (s1 = NDelim ↔ s2 = NDelim) → hyphenated s1 chars → hyphenated s2 chars.
Proof.
  revert s1 s2. induction chars as [|ch rest IH]; intros s1 s2 Heq H; [done|]. cbn in *.
  repeat case_match; try done; [naive_solver|]. by eapply IH.
Qed.

Lemma hyphenate_from_hyphenated state chars : hyphenated state (hyphenate_from state chars).
Proof.
  revert state. induction chars as [|ch rest IH]; intros state; [done|]. cbn. unfold hyphenate_char.
  destruct (is_ascii_uppercase ch) eqn:Hu; [|destruct (is_ascii_lowercase ch) eqn:Hl; [|destruct (is_delimiter ch) eqn:Hd]].
  - destruct (lowercase_upper ch Hu) as [H1 H2].
    assert (hyphenated NLower (hyphenate_from NUpper rest)) as Hrest by (by eapply hyphenated_state, IH).
    destruct (match state with NUpper => _ | NDelim => _ | NLower => _ end) eqn:Hdash; cbn; rewrite H1, H2; [|done].
    split_and!; try done. by intros ->.
  - cbn. rewrite Hu, Hl. apply IH.
  - destruct state; cbn; try apply IH; split_and!; try done; apply IH.
  - cbn. rewrite Hu, Hl, Hd. apply IH.
Qed.

(** Deriving a channel name is stable: the name of a name is itself, and it has no
    capital letter, no underscore, no leading delimiter and no two in a row. *)
Theorem hyphenate_idempotent name :
  hyphenate (hyphenate name) = hyphenate name ∧ hyphenated NDelim (list_ascii_of_string (hyphenate name)).
Proof.
  unfold hyphenate. rewrite list_ascii_of_string_of_list_ascii.
  split; [|apply hyphenate_from_hyphenated]. by rewrite hyphenate_fixed by apply hyphenate_from_hyphenated.
Qed.

(** * The fan-out *)

(** What an exporter may do to the Runtime's logging while it runs. *)
Inductive LogOp :=
| OpLog (channel : string) (level : Level) (text : string)
| OpAdd (exporter : Addr)
| OpRemove (key : Z).

Section fan_out.
Context {W : Type}.

(** One call of user code: what it does, the state it leaves, how it ends. *)
Record Call (A : Type) := { ca_ops : list LogOp; ca_world : W; ca_end : Ending A }.
Arguments ca_ops {A} _.
Arguments ca_world {A} _.
Arguments ca_end {A} _.

(** The [Exporter] trait; [ex_drop] is the destruction of a snapshot reference, which runs
    user code only if it was the last one. *)
(* @src crates/cordis-core/src/logger.rs 109-120 Exporter *)
Record Exporter := {
  ex_export : LogRecord → W → Call unit;
  ex_min_level : string → W → Call (option Level);
  ex_default_level : W → Call Level;
  ex_drop : W → Call unit;
}.

Variable exporter : Addr → Exporter.
(** [SystemTime::now()] *)
Variable clock : W → Z.
(** The allocation of the [LoggerService]. *)
Variable identity : Addr.

(** The service, the callback stack of the thread, the lines written to stderr, the
    records handed to exporters (newest first), and the state of user code. *)
(* @src crates/cordis-core/src/logger.rs 274-288 LoggerService *)
Record LogState := {
  lo_sequence : Z;
  lo_exporter_sequence : Z;
  lo_exporters : list (Z * Addr);
  lo_stack : list Addr;
  lo_stderr : list string;
  lo_delivered : list (Addr * LogRecord);
  lo_world : W;
}.

Definition set_sequence v s := {| lo_sequence := v; lo_exporter_sequence := lo_exporter_sequence s; lo_exporters := lo_exporters s; lo_stack := lo_stack s; lo_stderr := lo_stderr s; lo_delivered := lo_delivered s; lo_world := lo_world s |}.
Definition set_exporters n l s := {| lo_sequence := lo_sequence s; lo_exporter_sequence := n; lo_exporters := l; lo_stack := lo_stack s; lo_stderr := lo_stderr s; lo_delivered := lo_delivered s; lo_world := lo_world s |}.
Definition set_stack v s := {| lo_sequence := lo_sequence s; lo_exporter_sequence := lo_exporter_sequence s; lo_exporters := lo_exporters s; lo_stack := v; lo_stderr := lo_stderr s; lo_delivered := lo_delivered s; lo_world := lo_world s |}.
Definition eprintln line s := {| lo_sequence := lo_sequence s; lo_exporter_sequence := lo_exporter_sequence s; lo_exporters := lo_exporters s; lo_stack := lo_stack s; lo_stderr := line :: lo_stderr s; lo_delivered := lo_delivered s; lo_world := lo_world s |}.
Definition hand_over a r s := {| lo_sequence := lo_sequence s; lo_exporter_sequence := lo_exporter_sequence s; lo_exporters := lo_exporters s; lo_stack := lo_stack s; lo_stderr := lo_stderr s; lo_delivered := (a, r) :: lo_delivered s; lo_world := lo_world s |}.
Definition set_world v s := {| lo_sequence := lo_sequence s; lo_exporter_sequence := lo_exporter_sequence s; lo_exporters := lo_exporters s; lo_stack := lo_stack s; lo_stderr := lo_stderr s; lo_delivered := lo_delivered s; lo_world := v |}.

(** [Unwound] is the [expect] panic; the counter is then unchanged. *)
(* @src crates/cordis-core/src/logger.rs 302-309 LoggerService::next_sequence *)
Definition next_sequence (s : LogState) : Ending Z * LogState :=
  match checked_succ (lo_sequence s) with
  | Some n => (Returned n, set_sequence n s)
  | None => (Unwound (PayloadText "log record sequence space exhausted"), s)
  end.

(* @src crates/cordis-core/src/logger.rs 311-319 LoggerService::reserve_exporter *)
Definition reserve_exporter (s : LogState) : Ending Z * LogState :=
  match checked_succ (lo_exporter_sequence s) with
  | Some n => (Returned n, set_exporters n (lo_exporters s) s)
  | None => (Unwound (PayloadText "exporter occurrence identity space exhausted"), s)
  end.

(* @src crates/cordis-core/src/logger.rs 321-325 LoggerService::insert_reserved *)
Definition insert_reserved (key : Z) (x : Addr) (s : LogState) : LogState :=
  set_exporters (lo_exporter_sequence s) (lo_exporters s ++ [(key, x)]) s.

(* @src crates/cordis-core/src/logger.rs 327-335 LoggerService::remove_exporter *)
Definition remove_exporter (key : Z) (s : LogState) : bool * LogState :=
  match remove_first (λ e, bool_decide (e.1 = key)) (lo_exporters s) with
  | Some (_, l) => (true, set_exporters (lo_exporter_sequence s) l s)
  | None => (false, s)
  end.

(** A call of the logging API from inside user code; [again] is the log call. *)
Definition run_op (again : string → Level → string → LogState → option (Ending unit * LogState)) (op : LogOp) (s : LogState)
    : option (Ending unit * LogState) :=
  match op with
  | OpLog channel level text => again channel level text s
  | OpAdd x =>
      match reserve_exporter s with
      | (Returned key, s) => Some (Returned tt, insert_reserved key x s)
      | (Unwound p, s) => Some (Unwound p, s)
      end
  | OpRemove key => Some (Returned tt, (remove_exporter key s).2)
  end.

Fixpoint run_ops again (ops : list LogOp) (s : LogState) : option (Ending unit * LogState) :=
  match ops with
  | [] => Some (Returned tt, s)
  | op :: ops =>
      match run_op again op s with
      | Some (Returned _, s) => run_ops again ops s
      | r => r
      end
  end.

Definition call {A} again (c : W → Call A) (s : LogState) : option (Ending A * LogState) :=
  let k := c (lo_world s) in
  match run_ops again (ca_ops k) (set_world (ca_world k) s) with
  | None => None
  | Some (Returned _, s) => Some (ca_end k, s)
  | Some (Unwound p, s) => Some (Unwound p, s)
  end.

(** [e?] of a call that may unwind. *)
Definition then_ {A B} (r : option (Ending A * LogState)) (k : A → LogState → option (Ending B * LogState)) : option (Ending B * LogState) :=
  match r with
  | None => None
  | Some (Returned a, s) => k a s
  | Some (Unwound p, s) => Some (Unwound p, s)
  end.

(** [record.level() >= threshold] *)
Definition passes (level threshold : Level) : bool := bool_decide (level_rank threshold ≤ level_rank level).

(** The contained closure of one exporter, between the push and the pop of the stack. *)
(* @src crates/cordis-core/src/logger.rs 355-374 LoggerService::dispatch *)
Definition attempt again (record : LogRecord) (x : Addr) (s : LogState) : option (Ending unit * LogState) :=
  then_ (call again (ex_min_level (exporter x) (lr_channel record)) s) (λ min s,
    then_ (match min with Some l => Some (Returned l, s) | None => call again (ex_default_level (exporter x)) s end) (λ threshold s,
      if passes (lr_level record) threshold
      then call again (ex_export (exporter x) record) (hand_over x record s)
      else Some (Returned tt, s))).

Definition report (line : option string) (s : LogState) : LogState := match line with Some l => eprintln l s | None => s end.

Definition deliver_one again (record : LogRecord) (x : Addr) (s : LogState) : option LogState :=
  match attempt again record x (set_stack (identity :: lo_stack s) s) with
  | None => None
  | Some (e, s) =>
      let s := report (contain "log exporter" e) (set_stack (tail (lo_stack s)) s) in
      match call again (ex_drop (exporter x)) s with
      | None => None
      | Some (e, s) => Some (report (contain "log exporter drop" e) s)
      end
  end.

Fixpoint deliver again (record : LogRecord) (xs : list Addr) (s : LogState) : option LogState :=
  match xs with [] => Some s | x :: xs => deliver_one again record x s ≫= deliver again record xs end.

Definition suppressed_text (record : LogRecord) : string :=
  String.append (String.append (String.append (String.append (String.append "cordis: reentrant log suppressed ["
    (as_str (lr_level record))) "] ") (lr_channel record)) ": ") (lr_text record).

(* @src crates/cordis-core/src/logger.rs 337-380 LoggerService::dispatch *)
Definition dispatch again (record : LogRecord) (s : LogState) : option LogState :=
  if bool_decide (identity ∈ lo_stack s) then Some (eprintln (suppressed_text record) s)
  else deliver again record (snd <$> lo_exporters s) s.

(* @src crates/cordis-core/src/logger.rs 141-151 Logger::log *)
Fixpoint log (fuel : nat) (channel : string) (level : Level) (text : string) (s : LogState) : option (Ending unit * LogState) :=
  match fuel with
  | O => None
  | S fuel =>
      match next_sequence s with
      | (Unwound p, s) => Some (Unwound p, s)
      | (Returned n, s) =>
          let record := {| lr_sequence := n; lr_timestamp := clock (lo_world s); lr_channel := channel; lr_level := level; lr_text := text |} in
          match dispatch (log fuel) record s with None => None | Some s => Some (Returned tt, s) end
      end
  end.

(** ** Inside an exporter *)

(** A log call from inside an exporter: a sequence number and a line on stderr. *)
Definition log_inside (channel : string) (level : Level) (text : string) (s : LogState) : option (Ending unit * LogState) :=
  match next_sequence s with
  | (Unwound p, s) => Some (Unwound p, s)
  | (Returned n, s) =>
      Some (Returned tt, eprintln (suppressed_text {| lr_sequence := n; lr_timestamp := clock (lo_world s);
                                                       lr_channel := channel; lr_level := level; lr_text := text |}) s)
  end.

(** What user code does to the stack and to the records handed over: nothing. *)
Definition kept (s s' : LogState) : Prop := lo_stack s' = lo_stack s ∧ lo_delivered s' = lo_delivered s.

Lemma next_sequence_kept s : kept s (next_sequence s).2.
Proof. unfold next_sequence. by destruct (checked_succ (lo_sequence s)). Qed.

Lemma log_inside_eq fuel channel level text s :
  identity ∈ lo_stack s → log (S fuel) channel level text s = log_inside channel level text s.
Proof.
  intros Hin. cbn. unfold log_inside. pose proof (next_sequence_kept s) as [Hst _]. destruct (next_sequence s) as [[n|p] s']; [|done].
  cbn in Hst. unfold dispatch. by rewrite bool_decide_eq_true_2 by (by rewrite Hst).
Qed.

Lemma log_inside_kept channel level text s : ∃ e s', log_inside channel level text s = Some (e, s') ∧ kept s s'.
Proof.
  unfold log_inside. pose proof (next_sequence_kept s) as Hk. destruct (next_sequence s) as [[n|p] s']; eexists _, _; (split; [done|]); apply Hk.
Qed.

Lemma kept_refl s : kept s s.
Proof. done. Qed.

Lemma kept_trans s1 s2 s3 : kept s1 s2 → kept s2 s3 → kept s1 s3.
Proof. intros [H1 H2] [H3 H4]. split; congruence. Qed.

Lemma run_op_inside op s : ∃ e s', run_op log_inside op s = Some (e, s') ∧ kept s s'.
Proof.
  destruct op as [ch l t|x|key]; cbn; [apply log_inside_kept| |].
  - unfold reserve_exporter. destruct (checked_succ _); eexists _, _; done.
  - eexists _, _. split; [done|]. unfold remove_exporter. by destruct (remove_first _ _) as [[]|].
Qed.

Lemma run_ops_inside ops s : ∃ e s', run_ops log_inside ops s = Some (e, s') ∧ kept s s'.
Proof.
  revert s. induction ops as [|op ops IH]; intros s; [eexists _, _; by split|]. cbn.
  destruct (run_op_inside op s) as ([[]|p] & s1 & -> & Hk); [|eexists _, _; by split].
  destruct (IH s1) as (e & s2 & -> & Hk2). eexists _, _. split; [done|]. by eapply kept_trans.
Qed.

Lemma call_inside {A} (c : W → Call A) s : ∃ e s', call log_inside c s = Some (e, s') ∧ kept s s'.
Proof.
  unfold call. destruct (run_ops_inside (ca_ops (c (lo_world s))) (set_world (ca_world (c (lo_world s))) s)) as ([[]|p] & s1 & -> & Hk);
    eexists _, _; by split.
Qed.

Lemma run_ops_log fuel ops s : identity ∈ lo_stack s → run_ops (log (S fuel)) ops s = run_ops log_inside ops s.
Proof.
  revert s. induction ops as [|op ops IH]; intros s Hin; [done|]. cbn [run_ops].
  assert (run_op (log (S fuel)) op s = run_op log_inside op s) as ->.
  { destruct op; [|done..]. by apply log_inside_eq. }
  destruct (run_op_inside op s) as ([[]|p] & s1 & -> & [Hst _]); [|done]. apply IH. by rewrite Hst.
Qed.

Lemma call_log {A} fuel (c : W → Call A) s : identity ∈ lo_stack s → call (log (S fuel)) c s = call log_inside c s.
Proof. intros Hin. unfold call. by rewrite run_ops_log. Qed.

Lemma attempt_log fuel record x s : identity ∈ lo_stack s → attempt (log (S fuel)) record x s = attempt log_inside record x s.
Proof.
  intros Hin. unfold attempt. rewrite call_log by done.
  destruct (call_inside (ex_min_level (exporter x) (lr_channel record)) s) as ([min|p] & s1 & -> & [Hs1 _]); [|done]. cbn [then_].
  assert (identity ∈ lo_stack s1) as Hin1 by by rewrite Hs1.
  assert (∀ t s2, identity ∈ lo_stack s2 →
    (if passes (lr_level record) t then call (log (S fuel)) (ex_export (exporter x) record) (hand_over x record s2) else Some (Returned tt, s2)) =
    (if passes (lr_level record) t then call log_inside (ex_export (exporter x) record) (hand_over x record s2) else Some (Returned tt, s2))) as Hexp.
  { intros t s2 Hin2. destruct (passes _ _); [|done]. by apply call_log. }
  destruct min as [l|]; cbn [then_]; [by apply Hexp|]. rewrite call_log by done.
  destruct (call_inside (ex_default_level (exporter x)) s1) as ([l|p] & s2 & -> & [Hs2 _]); [|done]. cbn [then_].
  apply Hexp. by rewrite Hs2.
Qed.

(** What an attempt hands over. *)
Lemma attempt_inside record x s : ∃ e s', attempt log_inside record x s = Some (e, s') ∧ lo_stack s' = lo_stack s ∧
  (lo_delivered s' = lo_delivered s ∨ lo_delivered s' = (x, record) :: lo_delivered s).
Proof.
  unfold attempt. destruct (call_inside (ex_min_level (exporter x) (lr_channel record)) s) as ([min|p] & s1 & -> & Hk1); cbn [then_].
  2: { eexists _, _. split; [done|]. destruct Hk1. auto. }
  assert (∃ e2 s2, match min with Some l => Some (Returned l, s1) | None => call log_inside (ex_default_level (exporter x)) s1 end = Some (e2, s2) ∧ kept s s2)
    as (e2 & s2 & -> & Hk2).
  { destruct min as [l|]; [by eexists _, _|]. destruct (call_inside (ex_default_level (exporter x)) s1) as (e2 & s2 & -> & Hk2).
    eexists _, _. split; [done|]. by eapply kept_trans. }
  destruct e2 as [t|p]; cbn [then_]; [|eexists _, _; split; [done|]; destruct Hk2; auto]. destruct (passes _ _).
  - destruct (call_inside (ex_export (exporter x) record) (hand_over x record s2)) as (e3 & s3 & -> & [H3 H3']).
    eexists _, _. split; [done|]. destruct Hk2 as [Hk2 Hk2']. cbn in H3, H3'. rewrite Hk2 in H3. rewrite Hk2' in H3'. auto.
  - eexists _, _. split; [done|]. destruct Hk2. auto.
Qed.

(** ** The whole fan-out *)

(** Destroying an exporter does not call the logging API. *)
Hypothesis drops_quiet : ∀ x w, ca_ops (ex_drop (exporter x) w) = [].

Lemma call_drop again x s : ∃ e s', call again (ex_drop (exporter x)) s = Some (e, s') ∧ kept s s'.
Proof. unfold call. rewrite drops_quiet. cbn. eexists _, _. by split. Qed.

Lemma report_kept line s : kept s (report line s).
Proof. by destruct line. Qed.

Lemma deliver_one_total fuel record x s : ∃ s', deliver_one (log (S fuel)) record x s = Some s' ∧ lo_stack s' = lo_stack s ∧
  deliver_one (log 1) record x s = Some s' ∧
  (∀ e s1, attempt log_inside record x (set_stack (identity :: lo_stack s) s) = Some (e, s1) → lo_delivered s' = lo_delivered s1).
Proof.
  unfold deliver_one. rewrite !attempt_log by by left.
  destruct (attempt_inside record x (set_stack (identity :: lo_stack s) s)) as (e & s1 & -> & Hst & _).
  set (s2 := report _ _).
  assert (lo_stack s2 = lo_stack s ∧ lo_delivered s2 = lo_delivered s1) as [H2 H2'].
  { destruct (report_kept (contain "log exporter" e) (set_stack (tail (lo_stack s1)) s1)) as [Ha Hb].
    split; [etrans; [exact Ha|cbn; by rewrite Hst]|exact Hb]. }
  destruct (call_drop (log (S fuel)) x s2) as (e2 & s3 & Hc & [H3 H3']). rewrite Hc.
  assert (call (log 1) (ex_drop (exporter x)) s2 = Some (e2, s3)) as ->.
  { revert Hc. unfold call. by rewrite drops_quiet. }
  destruct (report_kept (contain "log exporter drop" e2) s3) as [H4 H4'].
  eexists. split_and!; [done|congruence|done|]. intros ? ? [= <- <-]. congruence.
Qed.

Lemma deliver_total fuel record xs s : ∃ s', deliver (log (S fuel)) record xs s = Some s' ∧ deliver (log 1) record xs s = Some s' ∧ lo_stack s' = lo_stack s.
Proof.
  revert s. induction xs as [|x xs IH]; intros s; [by eexists|]. cbn [deliver].
  destruct (deliver_one_total fuel record x s) as (s1 & -> & Hst & -> & _). cbn [mbind option_bind].
  destruct (IH s1) as (s2 & -> & -> & H2). eexists. split_and!; [done|done|congruence].
Qed.

Lemma log_S f channel level text s :
  log (S f) channel level text s =
  match next_sequence s with
  | (Unwound p, s) => Some (Unwound p, s)
  | (Returned n, s) =>
      match dispatch (log f) {| lr_sequence := n; lr_timestamp := clock (lo_world s); lr_channel := channel; lr_level := level; lr_text := text |} s
      with None => None | Some s => Some (Returned tt, s) end
  end.
Proof. done. Qed.

(** The recursion of logging is bounded: whatever exporters do when they are called,
    a log call made from inside one of them does not fan out again, so two levels of calls
    suffice for every log call to end, with the same outcome for any larger bound. *)
Theorem log_depth_two fuel channel level text s :
  ∃ r, log (S (S fuel)) channel level text s = Some r ∧ log 2 channel level text s = Some r.
Proof.
  destruct (decide (identity ∈ lo_stack s)) as [Hin|Hin].
  { rewrite !log_inside_eq by done. destruct (log_inside_kept channel level text s) as (e & s' & -> & _). by eexists. }
  rewrite (log_S (S fuel)), (log_S 1). destruct (next_sequence s) as [[n|p] s1]; [|by eexists]. unfold dispatch.
  case_bool_decide; [by eexists|]. match goal with |- context [deliver _ ?r ?xs s1] => destruct (deliver_total fuel r xs s1) as (s2 & -> & -> & _) end.
  by eexists.
Qed.

(** Exporters with a fixed threshold. *)
Variable threshold : Addr → Level.
Hypothesis thresholds_plain : ∀ x channel w,
  ca_ops (ex_min_level (exporter x) channel w) = [] ∧ ca_ops (ex_default_level (exporter x) w) = [] ∧
  (ca_end (ex_min_level (exporter x) channel w) = Returned (Some (threshold x)) ∨
   ca_end (ex_min_level (exporter x) channel w) = Returned None ∧ ∀ w', ca_end (ex_default_level (exporter x) w') = Returned (threshold x)).

Lemma attempt_delivers record x s e s' :
  attempt log_inside record x s = Some (e, s') →
  lo_delivered s' = (if passes (lr_level record) (threshold x) then [(x, record)] else []) ++ lo_delivered s.
Proof.
  unfold attempt. destruct (thresholds_plain x (lr_channel record) (lo_world s)) as (Hm & _ & He).
  assert (∃ s1, kept s s1 ∧ (then_ (call log_inside (ex_min_level (exporter x) (lr_channel record)) s) (λ min s,
    match min with Some l => Some (Returned l, s) | None => call log_inside (ex_default_level (exporter x)) s end) =
    Some (Returned (threshold x), s1))) as (s1 & [_ Hk] & Hthr).
  { unfold call at 1. rewrite Hm. cbn. destruct He as [He|[He Hd]]; rewrite He; cbn; [eexists; by split; [|done]|].
    unfold call. cbn. destruct (thresholds_plain x (lr_channel record) (ca_world (ex_min_level (exporter x) (lr_channel record) (lo_world s)))) as (_ & Hd0 & _).
    rewrite Hd0. cbn. rewrite Hd. eexists. by split; [|done]. }
  destruct (call log_inside (ex_min_level (exporter x) (lr_channel record)) s) as [[[min|p] s0]|]; cbn in Hthr; try done.
  cbn [then_]. rewrite Hthr. cbn [then_]. destruct (passes _ _).
  - destruct (call_inside (ex_export (exporter x) record) (hand_over x record s1)) as (e3 & s3 & -> & [_ H3]).
    intros [= <- <-]. rewrite H3. cbn. by rewrite Hk.
  - intros [= <- <-]. by rewrite Hk.
Qed.

Lemma deliver_delivers fuel record xs s s' :
  deliver (log (S fuel)) record xs s = Some s' →
  lo_delivered s' = rev ((λ x, (x, record)) <$> filter (λ x, passes (lr_level record) (threshold x)) xs) ++ lo_delivered s.
Proof.
  revert s. induction xs as [|x xs IH]; intros s; cbn [deliver]; [by intros [= <-]|].
  destruct (deliver_one_total fuel record x s) as (s1 & -> & _ & _ & Hd). cbn [mbind option_bind]. intros H%IH. rewrite H.
  destruct (attempt_inside record x (set_stack (identity :: lo_stack s) s)) as (e & s2 & Ha & _).
  rewrite (Hd _ _ Ha), (attempt_delivers _ _ _ _ _ Ha), filter_cons. cbn [lo_delivered set_stack].
  case_decide as Hp; [apply Is_true_true_1 in Hp|apply Is_true_false_1 in Hp]; rewrite Hp; [|done].
  csimpl. by rewrite <- app_assoc.
Qed.

(** One log call reaches exactly the exporters registered when it was made whose
    threshold its level passes, once each and in registration order, although any of them
    may log, register, remove exporters or panic while it runs; its record carries the next
    sequence number, and a call from inside an exporter reaches none. *)
Theorem log_reaches_snapshot fuel channel level text s :
  (lo_sequence s < u64_max)%Z →
  ∃ s', log (S (S fuel)) channel level text s = Some (Returned tt, s') ∧ lo_stack s' = lo_stack s ∧
    let record := {| lr_sequence := (lo_sequence s + 1)%Z; lr_timestamp := clock (lo_world s); lr_channel := channel;
                     lr_level := level; lr_text := text |} in
    lo_delivered s' = (if decide (identity ∈ lo_stack s) then []
                       else rev ((λ x, (x, record)) <$> filter (λ x, passes level (threshold x)) (snd <$> lo_exporters s))) ++ lo_delivered s.
Proof.
  intros Hseq. rewrite log_S.
  assert (next_sequence s = (Returned (lo_sequence s + 1)%Z, set_sequence (lo_sequence s + 1) s)) as ->.
  { unfold next_sequence. by rewrite (proj2 (checked_succ_Some _ _) (conj Hseq eq_refl)). }
  unfold dispatch. cbn [lo_stack lo_exporters lo_world set_sequence]. case_decide as Hin.
  - rewrite bool_decide_eq_true_2 by done. by eexists.
  - rewrite bool_decide_eq_false_2 by done.
    match goal with |- context [deliver _ ?r ?xs ?s1] => destruct (deliver_total fuel r xs s1) as (s2 & Hd & _ & Hst) end.
    rewrite Hd. eexists. split; [done|]. split; [done|]. by apply deliver_delivers in Hd.
Qed.
End fan_out.

(** ** Two exporters that misbehave

    The first logs and adds an exporter while it exports, and then panics; the second takes
    the first out and has no minimum level of its own. *)
Definition rude_exporter (x : Addr) : @Exporter unit :=
  {| ex_export := λ _ w, if decide (x = 0) then {| ca_ops := [OpLog "inner" Error "again"; OpAdd 2]; ca_world := w; ca_end := Unwound (PayloadText "boom") |}
                         else {| ca_ops := [OpRemove 1]; ca_world := w; ca_end := Returned tt |};
     ex_min_level := λ _ w, {| ca_ops := []; ca_world := w; ca_end := Returned (if decide (x = 0) then Some Debug else None) |};
     ex_default_level := λ w, {| ca_ops := []; ca_world := w; ca_end := Returned Info |};
     ex_drop := λ w, {| ca_ops := []; ca_world := w; ca_end := Returned tt |} |}.

Definition rude_start : LogState :=
  {| lo_sequence := 0; lo_exporter_sequence := 2; lo_exporters := [(1%Z, 0); (2%Z, 1)]; lo_stack := []; lo_stderr := []; lo_delivered := []; lo_world := tt |}.

Lemma log_depth_two_witness :
  ∃ r, log rude_exporter (λ _, 0%Z) 7 5 "c" Info "hi" rude_start = Some r ∧ log rude_exporter (λ _, 0%Z) 7 2 "c" Info "hi" rude_start = Some r.
Proof. apply (log_depth_two rude_exporter (λ _, 0%Z) 7 (λ _ _, eq_refl) 3). Defined.

Lemma log_reaches_snapshot_witness :
  ∃ s', log rude_exporter (λ _, 0%Z) 7 2 "c" Info "hi" rude_start = Some (Returned tt, s') ∧ length (lo_delivered s') = 2.
Proof.
  edestruct (log_reaches_snapshot rude_exporter (λ _, 0%Z) 7 (λ _ _, eq_refl) (λ x, if decide (x = 0) then Debug else Info)) with (fuel := 0) (s := rude_start) as (s' & Hl & _ & Hd).
  - intros x channel w. cbn. destruct (decide (x = 0)); split_and!; try done; [by left|by right].
  - done.
  - exists s'. split; [exact Hl|]. rewrite Hd. by vm_compute.
Defined.
