(* ===== verification/EventStore.v ===== *)
(** Runtime-local Event contracts and listener storage
    (crates/cordis-core/src/events/store.rs and events/types.rs).

    The store keeps, per Event name, an [order] vector of registration ids that may
    hold stale ids of removed listeners, and a map of the live ones; [order] is
    compacted lazily.  Its contract is the plain list of live registrations in
    delivery order: [hooks_of] is that abstraction, and the theorems at the end
    show that every operation implements the obvious list operation on it. *)
From S2P Require Import Prelude Axes.

Abbreviation ListenerRegistrationId := nat (only parsing).

(* @src crates/cordis-core/src/events/types.rs 69-81 ListenerRole *)
Inductive ListenerRole := Observer | Responder | Mapper | Around.

(* @src crates/cordis-core/src/events/types.rs 83-95 EventOperation *)
Inductive EventOperation := Emit | EmitParallel | Query | Waterfall.

#[export] Instance ListenerRole_eq_dec : EqDecision ListenerRole.
Proof. solve_decision. Defined.
#[export] Instance EventOperation_eq_dec : EqDecision EventOperation.
Proof. solve_decision. Defined.

(** An [Event] contract: its Runtime-local name and its [Args]/[Output] types. *)
(* @src crates/cordis-core/src/events/types.rs 7-18 Event *)
Record Event := { ev_name : string; ev_args : TypeId; ev_output : TypeId }.

(* @src crates/cordis-core/src/events/types.rs 20-28 Routing *)
Inductive Routing := Unscoped | Scoped (scope : Scope).

(* @src crates/cordis-core/src/events/types.rs 113-123 InvocationFailureKind *)
Inductive InvocationFailureKind := ReturnedError | Panic.

(* @src crates/cordis-core/src/events/types.rs 125-131 InvocationFailure *)
Record InvocationFailure := {
  if_registration : option ListenerRegistrationId;
  if_kind : InvocationFailureKind;
  if_diagnostic : string;
}.

(* @src crates/cordis-core/src/events/types.rs 148-154 InvocationFailure::returned *)
Definition failure_returned (diagnostic : string) : InvocationFailure :=
  {| if_registration := None; if_kind := ReturnedError; if_diagnostic := diagnostic |}.

(* @src crates/cordis-core/src/events/types.rs 155-161 InvocationFailure::panic *)
Definition failure_panic (diagnostic : string) : InvocationFailure :=
  {| if_registration := None; if_kind := Panic; if_diagnostic := diagnostic |}.

(* @src crates/cordis-core/src/events/types.rs 162-167 InvocationFailure::correlate *)
Definition correlate (f : InvocationFailure) (registration : ListenerRegistrationId)
    : InvocationFailure :=
  match if_registration f with
  | None => {| if_registration := Some registration; if_kind := if_kind f;
               if_diagnostic := if_diagnostic f |}
  | Some _ => f
  end.

(** [Parallel] carries a [ParallelFailures], non-empty by construction. *)
(* @src crates/cordis-core/src/events/types.rs 198-225 DispatchError *)
Inductive DispatchError :=
| EventContractMismatch (event : string)
| ForeignScope
| IncompatibleRole (operation : EventOperation) (role : ListenerRole)
| Invocation (failure : InvocationFailure)
| Parallel (failures : list InvocationFailure).

(* @src crates/cordis-core/src/events/types.rs 227-240 ListenerRegistrationError *)
Inductive ListenerRegistrationError :=
| ListenerInactiveContext
| ListenerContractMismatch (event : string).

(** Immutable registration options; the default is append, scoped, repeatable. *)
(* @src crates/cordis-core/src/events/listener.rs 77-116 ListenerOptions *)
Record ListenerOptions := { lo_prepend : bool; lo_global : bool; lo_once : bool }.

(* @src crates/cordis-core/src/events/store.rs 18-31 EventContract::of *)
Definition EventContract_of (E : Event) : TypeId * TypeId := (ev_args E, ev_output E).

(** Callbacks are [Arc<dyn Fn>] values: the handle of a closure, whose behaviour is
    a parameter of the dispatch operations. *)
(* @src crates/cordis-core/src/events/store.rs 33-41 HookKind *)
Inductive HookKind :=
| Plain (role : ListenerRole) (callback : nat)
| AroundHook (callback : nat).

(* @src crates/cordis-core/src/events/store.rs 43-50 HookKind::role *)
Definition kind_role (k : HookKind) : ListenerRole :=
  match k with Plain role _ => role | AroundHook _ => Around end.

(* @src crates/cordis-core/src/events/store.rs 52-60 Hook *)
Record Hook := {
  hk_id : ListenerRegistrationId;
  hk_prepend : bool;
  hk_global : bool;
  hk_scope : option ScopeNode;
  hk_once : bool;
  hk_options : ListenerOptions;
  hk_kind : HookKind;
}.

(* @src crates/cordis-core/src/events/store.rs 62-78 Hook::new *)
Definition hook_new (ctx : Context) (kind : HookKind) (options : ListenerOptions)
    (id : ListenerRegistrationId) : Hook :=
  {| hk_id := id; hk_prepend := lo_prepend options; hk_global := lo_global options;
     hk_scope := ctx_scope ctx; hk_once := lo_once options; hk_options := options;
     hk_kind := kind |}.

(* @src crates/cordis-core/src/events/store.rs 90-95 HookSnap *)
Record HookSnap := {
  hs_id : ListenerRegistrationId;
  hs_scope : option ScopeNode;
  hs_options : ListenerOptions;
  hs_kind : HookKind;
}.

(* @src crates/cordis-core/src/events/store.rs 80-87 Hook::snap *)
Definition hook_snap (h : Hook) : HookSnap :=
  {| hs_id := hk_id h; hs_scope := hk_scope h; hs_options := hk_options h; hs_kind := hk_kind h |}.

(* @src crates/cordis-core/src/events/store.rs 97-101 EventHooks *)
Record EventHooks := {
  eh_order : list ListenerRegistrationId;
  eh_entries : gmap ListenerRegistrationId Hook;
}.

Definition EventHooks_default : EventHooks := {| eh_order := []; eh_entries := ∅ |}.

(** The subtraction cannot underflow: see [hooks_wf_stale]. *)
(* @src crates/cordis-core/src/events/store.rs 129-137 EventHooks::compact_if_sparse *)
Definition compact_if_sparse (l : EventHooks) : EventHooks :=
  let stale := length (eh_order l) - size (eh_entries l) in
  if decide (stale < 32 ∨ stale < size (eh_entries l)) then l
  else {| eh_order := filter (λ id, is_Some (eh_entries l !! id)) (eh_order l);
          eh_entries := eh_entries l |}.

(* @src crates/cordis-core/src/events/store.rs 104-115 EventHooks::add *)
Definition hooks_add (l : EventHooks) (hook : Hook) : EventHooks :=
  let l := compact_if_sparse l in
  let id := hk_id hook in
  {| eh_order := if hk_prepend hook then id :: eh_order l else eh_order l ++ [id];
     eh_entries := <[ id := hook ]> (eh_entries l) |}.

(* @src crates/cordis-core/src/events/store.rs 117-119 EventHooks::remove *)
Definition hooks_remove (l : EventHooks) (id : ListenerRegistrationId)
    : option Hook * EventHooks :=
  (eh_entries l !! id, {| eh_order := eh_order l; eh_entries := delete id (eh_entries l) |}).

(* @src crates/cordis-core/src/events/store.rs 125-127 EventHooks::iter *)
Definition hooks_iter (l : EventHooks) : list Hook :=
  omap (λ id, eh_entries l !! id) (eh_order l).

(* @src crates/cordis-core/src/events/store.rs 139-141 EventHooks::is_empty *)
Definition hooks_is_empty (l : EventHooks) : bool := bool_decide (eh_entries l = ∅).

(* @src crates/cordis-core/src/events/store.rs 144-153 EventState *)
Record EventState := {
  es_contracts : gmap string (TypeId * TypeId);
  es_hooks : gmap string EventHooks;
}.

(* @src crates/cordis-core/src/events/store.rs 155-158 EventStore::new *)
Definition EventStore_new : EventState := {| es_contracts := ∅; es_hooks := ∅ |}.

(* @src crates/cordis-core/src/events/store.rs 160-170 EventStore::bind_locked *)
Definition bind_locked (E : Event) (st : EventState) : result EventState unit :=
  match es_contracts st !! ev_name E with
  | Some bound => if decide (bound = EventContract_of E) then Ok st else Err tt
  | None => Ok {| es_contracts := <[ ev_name E := EventContract_of E ]> (es_contracts st);
                  es_hooks := es_hooks st |}
  end.

(* @src crates/cordis-core/src/events/store.rs 172-178 EventStore::add_reserved *)
Definition add_reserved (E : Event) (hook : Hook) (st : EventState)
    : result EventState unit :=
  match bind_locked E st with
  | Err tt => Err tt
  | Ok st =>
      let l := default EventHooks_default (es_hooks st !! ev_name E) in
      Ok {| es_contracts := es_contracts st;
            es_hooks := <[ ev_name E := hooks_add l hook ]> (es_hooks st) |}
  end.

(** Put back a hook list, dropping the name when it became empty. *)
Definition store_hooks (st : EventState) (name : string) (l : EventHooks) : EventState :=
  {| es_contracts := es_contracts st;
     es_hooks := if hooks_is_empty l then delete name (es_hooks st)
                 else <[ name := l ]> (es_hooks st) |}.

(* @src crates/cordis-core/src/events/store.rs 180-196 EventStore::remove *)
Definition event_remove (st : EventState) (name : string) (id : ListenerRegistrationId)
    : bool * EventState :=
  match es_hooks st !! name with
  | None => (false, st)
  | Some l =>
      match hooks_remove l id with
      | (None, _) => (false, st)
      | (Some _, l') => (true, store_hooks st name l')
      end
  end.

(** The first component tells whether the claim was won, the second whether it
    unregistered the listener. *)
(* @src crates/cordis-core/src/events/store.rs 198-220 EventStore::claim *)
Definition event_claim (st : EventState) (name : string) (id : ListenerRegistrationId)
    : bool * bool * EventState :=
  match es_hooks st !! name with
  | None => (false, false, st)
  | Some l =>
      match eh_entries l !! id with
      | None => (false, false, st)
      | Some hook =>
          if hk_once hook
          then (true, true, store_hooks st name (hooks_remove l id).2)
          else (true, false, st)
      end
  end.

(** The [eligible] closure of [preflight]. *)
(* @src crates/cordis-core/src/events/store.rs 235-245 EventStore::preflight *)
Definition eligible (routing : Routing) (hook : Hook) : bool :=
  match routing with
  | Unscoped => true
  | Scoped scope => hk_global hook || scope_admits (hk_scope hook) (scope_layer scope)
  end.

(** The [compatible] closure of [preflight]. *)
(* @src crates/cordis-core/src/events/store.rs 246-253 EventStore::preflight *)
Definition compatible (operation : EventOperation) (role : ListenerRole) : bool :=
  match operation with
  | Emit | EmitParallel | Query =>
      match role with Observer | Responder => true | _ => false end
  | Waterfall => match role with Mapper | Around => true | _ => false end
  end.

(** The first incompatible role among the eligible hooks. *)
Definition first_incompatible (operation : EventOperation) (hooks : list Hook)
    : option ListenerRole :=
  snd <$> list_find (λ role, compatible operation role = false) (map (λ h, kind_role (hk_kind h)) hooks).

(* @src crates/cordis-core/src/events/store.rs 222-269 EventStore::preflight *)
Definition store_preflight (E : Event) (routing : Routing) (operation : EventOperation)
    (st : EventState) : result (list HookSnap) DispatchError * EventState :=
  match bind_locked E st with
  | Err tt => (Err (EventContractMismatch (ev_name E)), st)
  | Ok st =>
      match es_hooks st !! ev_name E with
      | None => (Ok [], st)
      | Some l =>
          let l := compact_if_sparse l in
          let st := {| es_contracts := es_contracts st;
                       es_hooks := <[ ev_name E := l ]> (es_hooks st) |} in
          let selected := filter (λ h, eligible routing h = true) (hooks_iter l) in
          match first_incompatible operation selected with
          | Some role => (Err (IncompatibleRole operation role), st)
          | None => (Ok (map hook_snap selected), st)
          end
      end
  end.

(** * Invariant *)

(** Every live id occurs exactly once in [order], and is the id of its hook. *)
(* The ids of [order] keep their allocation alive, so a fresh registration id is
   never one of them, stale or not. *)
Record hooks_wf (l : EventHooks) : Prop := {
  wf_nodup : NoDup (eh_order l);
  wf_order : ∀ id, is_Some (eh_entries l !! id) → id ∈ eh_order l;
  wf_ids : ∀ id h, eh_entries l !! id = Some h → hk_id h = id;
}.

Record store_wf (st : EventState) : Prop := {
  wf_hooks : ∀ name l, es_hooks st !! name = Some l → hooks_wf l ∧ eh_entries l ≠ ∅;
}.

(** [id] occurs nowhere in the store: what allocating a new [Arc] gives. *)
Definition fresh_id (st : EventState) (id : ListenerRegistrationId) : Prop :=
  ∀ name l, es_hooks st !! name = Some l → id ∉ eh_order l.

(** * Abstraction: the live registrations of a name, in delivery order *)

Definition hooks_of (st : EventState) (name : string) : list Hook :=
  match es_hooks st !! name with Some l => hooks_iter l | None => [] end.

(** * Lemmas on one hook list *)

Lemma hooks_wf_default : hooks_wf EventHooks_default.
Proof.
  split; simpl; [constructor| |]; intros id; rewrite lookup_empty; [by intros []|done].
Qed.

Lemma hooks_wf_stale l : hooks_wf l → size (eh_entries l) ≤ length (eh_order l).
Proof. intros [Hnd Hord _]. by apply dom_length_NoDup. Qed.

Lemma hooks_wf_compact l : hooks_wf l → hooks_wf (compact_if_sparse l).
Proof.
  intros [Hnd Hord Hids]. unfold compact_if_sparse. case_decide; [by split|].
  split; simpl; [by apply NoDup_filter| |done].
  intros id Hid. apply list_elem_of_filter. auto.
Qed.

Lemma compact_entries l : eh_entries (compact_if_sparse l) = eh_entries l.
Proof. unfold compact_if_sparse. by case_decide. Qed.

Lemma compact_order_subset l id : id ∈ eh_order (compact_if_sparse l) → id ∈ eh_order l.
Proof.
  unfold compact_if_sparse. case_decide; [done|]. simpl.
  rewrite list_elem_of_filter. naive_solver.
Qed.

Lemma compact_iter l : hooks_iter (compact_if_sparse l) = hooks_iter l.
Proof.
  unfold compact_if_sparse, hooks_iter. case_decide; [done|]. simpl.
  apply omap_filter. intros id _ Hn. by apply eq_None_not_Some.
Qed.

Lemma compact_bound l :
  hooks_wf l →
  length (eh_order (compact_if_sparse l)) ≤
    size (eh_entries l) + max 31 (size (eh_entries l)).
Proof.
  intros Hwf. pose proof (hooks_wf_compact l Hwf) as [Hnd' _ _].
  revert Hnd'. unfold compact_if_sparse. case_decide as H; simpl; [lia|]. intros Hnd'.
  assert (length (filter (λ id, is_Some (eh_entries l !! id)) (eh_order l)) ≤ size (eh_entries l));
    [|lia].
  apply NoDup_length_dom; [done|]. intros x. rewrite list_elem_of_filter. naive_solver.
Qed.

Lemma hooks_iter_ids l h : hooks_wf l → h ∈ hooks_iter l → eh_entries l !! hk_id h = Some h.
Proof.
  intros [_ _ Hids] Hin. apply list_elem_of_omap in Hin as (id & _ & Hid).
  by rewrite (Hids _ _ Hid).
Qed.

Lemma hooks_iter_elem l id h : hooks_wf l → eh_entries l !! id = Some h → h ∈ hooks_iter l.
Proof.
  intros [_ Hord _] Hid. apply list_elem_of_omap. exists id. eauto.
Qed.

Lemma hooks_add_wf l hook :
  hooks_wf l → hk_id hook ∉ eh_order l → hooks_wf (hooks_add l hook).
Proof.
  intros Hwf Hfresh. pose proof (hooks_wf_compact l Hwf) as [Hnd Hord Hids].
  assert (hk_id hook ∉ eh_order (compact_if_sparse l)) as Hf by eauto using compact_order_subset.
  unfold hooks_add. split; simpl.
  - case_match; [by constructor|]. apply NoDup_app. split_and!; [done|set_solver|].
    apply NoDup_singleton.
  - intros id. rewrite lookup_insert. intros Hid.
    case_decide; simplify_eq; case_match; set_solver.
  - intros id h. rewrite lookup_insert. case_decide; intros; simplify_eq; eauto.
Qed.

Lemma hooks_add_iter l hook :
  hooks_wf l → hk_id hook ∉ eh_order l →
  hooks_iter (hooks_add l hook) =
  if hk_prepend hook then hook :: hooks_iter l else hooks_iter l ++ [hook].
Proof.
  intros Hwf Hfresh. rewrite <- (compact_iter l).
  assert (hk_id hook ∉ eh_order (compact_if_sparse l)) as Hf by eauto using compact_order_subset.
  assert (omap (λ id, <[hk_id hook := hook]> (eh_entries (compact_if_sparse l)) !! id)
            (eh_order (compact_if_sparse l)) = hooks_iter (compact_if_sparse l)) as Hsame.
  { apply omap_ext_in. intros id Hid. apply lookup_insert_ne. set_solver. }
  unfold hooks_iter, hooks_add in *. simpl. case_match; csimpl.
  - by rewrite lookup_insert_eq, Hsame.
  - rewrite omap_app, Hsame. csimpl. by rewrite lookup_insert_eq.
Qed.

Lemma hooks_remove_wf l id : hooks_wf l → hooks_wf (hooks_remove l id).2.
Proof.
  intros [Hnd Hord Hids]. split; simpl; [done| |].
  - intros id' [h Hh]. rewrite lookup_delete_Some in Hh. naive_solver.
  - intros id' h Hh. rewrite lookup_delete_Some in Hh. naive_solver.
Qed.

Lemma hooks_remove_iter l id :
  hooks_wf l →
  hooks_iter (hooks_remove l id).2 = filter (λ h, hk_id h ≠ id) (hooks_iter l).
Proof.
  intros [_ _ Hids]. unfold hooks_iter. simpl. induction (eh_order l) as [|x o IH]; [done|].
  csimpl. rewrite lookup_delete. case_decide as Hx.
  - subst x. destruct (eh_entries l !! id) as [h|] eqn:Eh; [|done].
    rewrite filter_cons_False; [done|]. intros Hn. by rewrite (Hids _ _ Eh) in Hn.
  - destruct (eh_entries l !! x) as [h|] eqn:Eh; [|done].
    rewrite filter_cons_True; [by rewrite IH|]. rewrite (Hids _ _ Eh). done.
Qed.

Lemma hooks_iter_empty l : hooks_wf l → hooks_is_empty l = true ↔ hooks_iter l = [].
Proof.
  intros Hwf. unfold hooks_is_empty. rewrite bool_decide_eq_true. split.
  - intros He. unfold hooks_iter. apply omap_None_in. intros id _. by rewrite He, lookup_empty.
  - intros Hi. apply map_empty. intros id. apply eq_None_not_Some. intros [h Hh].
    eapply hooks_iter_elem in Hh; [|done]. rewrite Hi in Hh. by apply not_elem_of_nil in Hh.
Qed.

Lemma hooks_iter_nodup l : hooks_wf l → NoDup (map hk_id (hooks_iter l)).
Proof.
  intros [Hnd _ Hids]. unfold hooks_iter. induction (eh_order l) as [|id o IH]; [constructor|].
  apply NoDup_cons in Hnd as [Hid Hnd]. csimpl.
  destruct (eh_entries l !! id) as [h|] eqn:E; [|auto]. simpl. constructor; [|auto].
  rewrite (Hids _ _ E). intros Hin. apply list_elem_of_fmap in Hin as (h' & Heq & Hh').
  apply list_elem_of_omap in Hh' as (id' & Hid' & Eh'). rewrite (Hids _ _ Eh') in Heq. congruence.
Qed.

(** * The contract of the store

    The specification keeps only the bound contracts and, per name, the list of
    live registrations in delivery order.  A name without registrations has no
    entry. *)

Record Registrations := {
  rg_contracts : gmap string (TypeId * TypeId);
  rg_live : gmap string (list Hook);
}.

Definition abstraction (st : EventState) : Registrations :=
  {| rg_contracts := es_contracts st; rg_live := hooks_iter <$> es_hooks st |}.

Definition rg_list (r : Registrations) (name : string) : list Hook := default [] (rg_live r !! name).

Definition rg_store (r : Registrations) (name : string) (l : list Hook) : Registrations :=
  {| rg_contracts := rg_contracts r;
     rg_live := if decide (l = []) then delete name (rg_live r) else <[ name := l ]> (rg_live r) |}.

Definition rg_bind (E : Event) (r : Registrations) : option Registrations :=
  match rg_contracts r !! ev_name E with
  | Some bound => if decide (bound = EventContract_of E) then Some r else None
  | None => Some {| rg_contracts := <[ ev_name E := EventContract_of E ]> (rg_contracts r);
                    rg_live := rg_live r |}
  end.

Definition rg_find (r : Registrations) (name : string) (id : ListenerRegistrationId) : option Hook :=
  snd <$> list_find (λ h, hk_id h = id) (rg_list r name).

(** The operations of the store, as requests and answers. *)
Inductive StoreOp :=
| OpAdd (E : Event) (hook : Hook)
| OpRemove (name : string) (id : ListenerRegistrationId)
| OpClaim (name : string) (id : ListenerRegistrationId)
| OpPreflight (E : Event) (routing : Routing) (operation : EventOperation).

Inductive StoreOut :=
| OutAdd (ok : bool)
| OutRemove (removed : bool)
| OutClaim (claimed unregistered : bool)
| OutPreflight (r : result (list HookSnap) DispatchError).

Definition store_step (st : EventState) (op : StoreOp) : StoreOut * EventState :=
  match op with
  | OpAdd E hook => match add_reserved E hook st with
                    | Ok st' => (OutAdd true, st')
                    | Err _ => (OutAdd false, st)
                    end
  | OpRemove name id => let '(b, st') := event_remove st name id in (OutRemove b, st')
  | OpClaim name id => let '(c, u, st') := event_claim st name id in (OutClaim c u, st')
  | OpPreflight E routing operation =>
      let '(r, st') := store_preflight E routing operation st in (OutPreflight r, st')
  end.

(** What each operation means on the list of live registrations. *)
Definition spec_step (r : Registrations) (op : StoreOp) : StoreOut * Registrations :=
  match op with
  | OpAdd E hook =>
      match rg_bind E r with
      | None => (OutAdd false, r)
      | Some r => let l := rg_list r (ev_name E) in
                  (OutAdd true, rg_store r (ev_name E)
                                  (if hk_prepend hook then hook :: l else l ++ [hook]))
      end
  | OpRemove name id =>
      match rg_find r name id with
      | None => (OutRemove false, r)
      | Some _ => (OutRemove true, rg_store r name (filter (λ h, hk_id h ≠ id) (rg_list r name)))
      end
  | OpClaim name id =>
      match rg_find r name id with
      | None => (OutClaim false false, r)
      | Some h =>
          if hk_once h
          then (OutClaim true true, rg_store r name (filter (λ h, hk_id h ≠ id) (rg_list r name)))
          else (OutClaim true false, r)
      end
  | OpPreflight E routing operation =>
      match rg_bind E r with
      | None => (OutPreflight (Err (EventContractMismatch (ev_name E))), r)
      | Some r =>
          let selected := filter (λ h, eligible routing h = true) (rg_list r (ev_name E)) in
          (OutPreflight (match first_incompatible operation selected with
                         | Some role => Err (IncompatibleRole operation role)
                         | None => Ok (map hook_snap selected)
                         end), r)
      end
  end.

Fixpoint run_ops {S} (step : S → StoreOp → StoreOut * S) (s : S) (ops : list StoreOp)
    : list StoreOut * S :=
  match ops with
  | [] => ([], s)
  | op :: ops => let '(o, s1) := step s op in
                 let '(os, s2) := run_ops step s1 ops in (o :: os, s2)
  end.

(** The registration ids a request sequence introduces, one per addition. *)
Definition added_ids (ops : list StoreOp) : list ListenerRegistrationId :=
  omap (λ op, match op with OpAdd _ hook => Some (hk_id hook) | _ => None end) ops.

(** * Lemmas for the refinement *)

Lemma hooks_of_abstraction st name : rg_list (abstraction st) name = hooks_of st name.
Proof. unfold rg_list, hooks_of. simpl. rewrite lookup_fmap. by destruct (es_hooks st !! name). Qed.

Lemma store_hooks_abstraction st name l :
  hooks_wf l →
  abstraction (store_hooks st name l) = rg_store (abstraction st) name (hooks_iter l).
Proof.
  intros Hwf. unfold store_hooks, rg_store, abstraction. simpl. f_equal.
  pose proof (hooks_iter_empty l Hwf) as He.
  case_decide as Hd; destruct (hooks_is_empty l).
  - by rewrite fmap_delete.
  - destruct He as [_ He]. discriminate (He Hd).
  - destruct He as [He _]. by destruct Hd; apply He.
  - by rewrite fmap_insert.
Qed.

Lemma store_hooks_wf st name l :
  store_wf st → hooks_wf l → store_wf (store_hooks st name l).
Proof.
  intros [Hwf] Hl. split. intros n l'. unfold store_hooks; simpl.
  unfold hooks_is_empty. case_bool_decide.
  - rewrite lookup_delete_Some. naive_solver.
  - rewrite lookup_insert_Some. naive_solver.
Qed.

Lemma bind_abstraction E st :
  match bind_locked E st with
  | Ok st' => rg_bind E (abstraction st) = Some (abstraction st') ∧ es_hooks st' = es_hooks st
  | Err _ => rg_bind E (abstraction st) = None
  end.
Proof.
  unfold bind_locked, rg_bind, abstraction. simpl.
  destruct (es_contracts st !! ev_name E); simpl; [case_decide|]; done.
Qed.

Lemma rg_find_spec st name id :
  store_wf st →
  rg_find (abstraction st) name id =
  match es_hooks st !! name with Some l => eh_entries l !! id | None => None end.
Proof.
  intros [Hwf]. unfold rg_find. rewrite hooks_of_abstraction. unfold hooks_of.
  destruct (es_hooks st !! name) as [l|] eqn:El; [|done].
  destruct (Hwf _ _ El) as [Hl _]. destruct (list_find _ (hooks_iter l)) as [[i h]|] eqn:E; simpl.
  - apply list_find_Some in E as (Hi & <- & _). symmetry. apply hooks_iter_ids; [done|].
    by eapply list_elem_of_lookup_2.
  - symmetry. apply eq_None_not_Some. intros [h Hh]. apply list_find_None in E.
    rewrite Forall_forall in E. apply (E h); [by eapply hooks_iter_elem|]. by apply Hl.
Qed.

(** The ids in every [order] vector were introduced by additions. *)
Definition ids_in (st : EventState) (seen : list ListenerRegistrationId) : Prop :=
  ∀ name l id, es_hooks st !! name = Some l → id ∈ eh_order l → id ∈ seen.

Lemma store_hooks_ids st name l seen :
  ids_in st seen → (∀ id, id ∈ eh_order l → id ∈ seen) → ids_in (store_hooks st name l) seen.
Proof.
  intros Hin Hl n l' id. unfold store_hooks. simpl. case_match.
  - rewrite lookup_delete_Some. intros [_ ?]. eauto.
  - rewrite lookup_insert_Some. intros [[_ <-]|[_ ?]]; eauto.
Qed.

Lemma add_reserved_refines E hook st seen :
  store_wf st → ids_in st seen → hk_id hook ∉ seen →
  match add_reserved E hook st with
  | Ok st' => spec_step (abstraction st) (OpAdd E hook) = (OutAdd true, abstraction st') ∧
              store_wf st' ∧ ids_in st' (hk_id hook :: seen)
  | Err _ => spec_step (abstraction st) (OpAdd E hook) = (OutAdd false, abstraction st)
  end.
Proof.
  intros [Hwf] Hids Hfresh. unfold add_reserved. simpl. pose proof (bind_abstraction E st) as Hb.
  destruct (bind_locked E st) as [st1|[]]; [destruct Hb as [Hb Hh]|by rewrite Hb]. rewrite Hb.
  set (l := default EventHooks_default (es_hooks st1 !! ev_name E)).
  assert (hooks_wf l ∧ (hk_id hook ∉ eh_order l) ∧ (∀ id, id ∈ eh_order l → id ∈ seen)) as (Hl & Hf & Hs).
  { subst l. rewrite Hh. destruct (es_hooks st !! ev_name E) as [l|] eqn:El; simpl.
    - split_and!; [by eapply Hwf|eauto|eauto].
    - split_and!; [apply hooks_wf_default|set_solver|set_solver]. }
  assert (rg_list (abstraction st1) (ev_name E) = hooks_iter l) as Hlist.
  { rewrite hooks_of_abstraction. unfold hooks_of, l. by destruct (es_hooks st1 !! ev_name E). }
  split_and!.
  - rewrite Hlist, <- hooks_add_iter by done. do 2 f_equal.
    unfold rg_store, abstraction. simpl. f_equal. rewrite fmap_insert.
    rewrite decide_False; [done|]. rewrite hooks_add_iter by done. case_match; [done|].
    by destruct (hooks_iter l).
  - split. intros n l'. simpl. rewrite lookup_insert_Some, Hh. intros [[_ <-]|[_ Hl']]; [|by eapply Hwf].
    split; [by apply hooks_add_wf|]. simpl. apply insert_non_empty.
  - intros n l' id. simpl. rewrite lookup_insert_Some, Hh. intros [[_ <-]|[_ Hl']] Hid.
    + unfold hooks_add in Hid. simpl in Hid.
      case_match; rewrite ?elem_of_cons, ?elem_of_app, ?list_elem_of_singleton in Hid;
        apply elem_of_cons; destruct Hid as [Hid|Hid]; eauto using compact_order_subset.
    + right. eauto.
Qed.

Lemma preflight_refines E routing operation st seen :
  store_wf st → ids_in st seen →
  let '(r, st') := store_preflight E routing operation st in
  spec_step (abstraction st) (OpPreflight E routing operation) = (OutPreflight r, abstraction st') ∧
  store_wf st' ∧ ids_in st' seen.
Proof.
  intros Hst Hids. unfold store_preflight. simpl. pose proof (bind_abstraction E st) as Hb.
  destruct (bind_locked E st) as [st1|[]]; [destruct Hb as [Hb Hh]|by rewrite Hb]. rewrite Hb.
  rewrite hooks_of_abstraction. unfold hooks_of.
  assert (store_wf st1 ∧ ids_in st1 seen) as [Hst1 Hids1].
  { split; [split|intros n l id]; rewrite Hh; [by destruct Hst|eauto]. }
  destruct (es_hooks st1 !! ev_name E) as [l|] eqn:El; [|done].
  destruct Hst1 as [Hwf]. destruct (Hwf _ _ El) as [Hl Hne].
  set (st2 := {| es_contracts := _; es_hooks := _ |}).
  assert (abstraction st2 = abstraction st1 ∧ store_wf st2 ∧ ids_in st2 seen) as (Ha & Hw & Hi).
  { subst st2. split_and!.
    - unfold abstraction. simpl. f_equal. rewrite fmap_insert, compact_iter.
      apply insert_id. by rewrite lookup_fmap, El.
    - split. intros n l'. simpl. rewrite lookup_insert_Some. intros [[_ <-]|[_ ?]]; [|eauto].
      split; [by apply hooks_wf_compact|]. by rewrite compact_entries.
    - intros n l' id. simpl. rewrite lookup_insert_Some.
      intros [[_ <-]|[_ ?]]; eauto using compact_order_subset. }
  rewrite compact_iter, <- Ha. by destruct (first_incompatible _ _).
Qed.

Lemma remove_state st name l id :
  store_wf st → es_hooks st !! name = Some l →
  abstraction (store_hooks st name (hooks_remove l id).2) =
  rg_store (abstraction st) name (filter (λ h, hk_id h ≠ id) (rg_list (abstraction st) name)).
Proof.
  intros [Hwf] El. destruct (Hwf _ _ El) as [Hl _].
  rewrite store_hooks_abstraction by by apply hooks_remove_wf.
  rewrite hooks_remove_iter by done. rewrite hooks_of_abstraction. unfold hooks_of. by rewrite El.
Qed.

Lemma store_step_refines st seen op :
  store_wf st → ids_in st seen → (∀ id, id ∈ added_ids [op] → id ∉ seen) →
  let '(o, st') := store_step st op in
  spec_step (abstraction st) op = (o, abstraction st') ∧
  store_wf st' ∧ ids_in st' (added_ids [op] ++ seen).
Proof.
  intros Hst Hids Hfresh. destruct op as [E hook|name id|name id|E routing operation].
  - pose proof (add_reserved_refines E hook st seen Hst Hids ltac:(apply Hfresh; set_solver)) as H.
    simpl. destruct (add_reserved E hook st); [done|]. split_and!; [done|done|].
    intros n l i ??. apply elem_of_cons. eauto.
  - unfold store_step, event_remove, spec_step. rewrite rg_find_spec by done.
    destruct (es_hooks st !! name) as [l|] eqn:El; [|done]. simpl.
    destruct (eh_entries l !! id); [|done]. destruct Hst as [Hwf]. destruct (Hwf _ _ El) as [Hl _].
    split_and!.
    + rewrite <- (remove_state st name l id) by (by split || done). done.
    + apply store_hooks_wf; [by split|by apply (hooks_remove_wf l id)].
    + apply store_hooks_ids; [done|]. simpl. eauto.
  - unfold store_step, event_claim, spec_step. rewrite rg_find_spec by done.
    destruct (es_hooks st !! name) as [l|] eqn:El; [|done].
    destruct (eh_entries l !! id) as [h|]; [|done]. destruct (hk_once h); [|done].
    destruct Hst as [Hwf]. destruct (Hwf _ _ El) as [Hl _]. split_and!.
    + rewrite <- (remove_state st name l id) by (by split || done). done.
    + apply store_hooks_wf; [by split|by apply hooks_remove_wf].
    + apply store_hooks_ids; [done|]. simpl. eauto.
  - pose proof (preflight_refines E routing operation st seen Hst Hids) as H.
    unfold store_step. destruct (store_preflight E routing operation st). done.
Qed.

Lemma EventStore_new_wf : store_wf EventStore_new.
Proof. split. intros name l. simpl. by rewrite lookup_empty. Qed.

Lemma EventStore_new_ids : ids_in EventStore_new [].
Proof. intros name l id. simpl. by rewrite lookup_empty. Qed.

Lemma run_ops_refines ops st seen :
  store_wf st → ids_in st seen → NoDup (added_ids ops) → (∀ id, id ∈ added_ids ops → id ∉ seen) →
  let '(os, st') := run_ops store_step st ops in
  run_ops spec_step (abstraction st) ops = (os, abstraction st') ∧ store_wf st'.
Proof.
  revert st seen. induction ops as [|op ops IH]; intros st seen Hst Hids Hnd Hfresh; [done|].
  assert (added_ids (op :: ops) = added_ids [op] ++ added_ids ops) as Ha by (by destruct op).
  rewrite Ha in Hnd, Hfresh. apply NoDup_app in Hnd as (_ & Hdisj & Hnd). simpl.
  pose proof (store_step_refines st seen op Hst Hids ltac:(set_solver)) as Hs.
  destruct (store_step st op) as [o st1]. destruct Hs as (-> & Hst1 & Hids1).
  specialize (IH st1 _ Hst1 Hids1 Hnd ltac:(set_solver)).
  destruct (run_ops store_step st1 ops) as [os st2]. destruct IH as [-> ?]. done.
Qed.

(** * Properties *)

(** [C30] The event store implements its contract: on every sequence of
    registrations, removals, claims and dispatch preflights in which each
    registration is a fresh occurrence, the answers are those of the plain list of
    live registrations per Event name.  In particular the lazy compaction of stale
    ids is never observable, a prepended listener is first, and a claimed once
    listener or a removed one is never selected again. *)
Theorem event_store_refines (ops : list StoreOp) (Hfresh : NoDup (added_ids ops)) :
  let '(answers, st) := run_ops store_step EventStore_new ops in
  run_ops spec_step (abstraction EventStore_new) ops = (answers, abstraction st) ∧ store_wf st.
Proof.
  apply (run_ops_refines ops EventStore_new []);
    [apply EventStore_new_wf|apply EventStore_new_ids|done|set_solver].
Qed.

Definition sample_event : Event := {| ev_name := "ping"; ev_args := 1; ev_output := 2 |}.

Definition sample_hook (id : nat) (prepend once : bool) : Hook :=
  {| hk_id := id; hk_prepend := prepend; hk_global := false; hk_scope := None; hk_once := once;
     hk_options := {| lo_prepend := prepend; lo_global := false; lo_once := once |};
     hk_kind := Plain Observer id |}.

Example event_store_refines_witness :
  let ops := [OpAdd sample_event (sample_hook 1 false false);
              OpAdd sample_event (sample_hook 2 true true); OpClaim "ping" 2;
              OpClaim "ping" 2; OpPreflight sample_event Unscoped Emit; OpRemove "ping" 1] in
  (run_ops spec_step (abstraction EventStore_new) ops).1 =
  [OutAdd true; OutAdd true; OutClaim true true; OutClaim false false;
   OutPreflight (Ok [hook_snap (sample_hook 1 false false)]); OutRemove true].
Proof.
  intros ops. pose proof (event_store_refines ops) as H.
  assert (NoDup (added_ids ops)) as Hnd by (apply (bool_decide_unpack _); vm_compute; exact I).
  specialize (H Hnd). destruct (run_ops store_step EventStore_new ops) as [answers st] eqn:E.
  destruct H as [-> _]. vm_compute in E. injection E as <- _. vm_compute. reflexivity.
Defined.

(** * Unregistration happens once *)

(** The registration a request unregistered, if it did: a removal, or the claim of
    a once registration. *)
Definition unregistered (op : StoreOp) (out : StoreOut) : option (string * ListenerRegistrationId) :=
  match op, out with
  | OpRemove name id, OutRemove true => Some (name, id)
  | OpClaim name id, OutClaim true true => Some (name, id)
  | _, _ => None
  end.

(** How many requests of a run unregistered [id]. *)
Definition unregistrations (id : ListenerRegistrationId) (ops : list StoreOp) (outs : list StoreOut) : nat :=
  length (filter (λ p, snd <$> unregistered p.1 p.2 = Some id) (zip ops outs)).

Lemma rg_list_store r name l n :
  rg_list (rg_store r name l) n = if decide (n = name) then l else rg_list r n.
Proof.
  unfold rg_list, rg_store. simpl.
  repeat case_decide; subst; by rewrite ?lookup_delete_eq, ?lookup_insert_eq, ?lookup_delete_ne,
    ?lookup_insert_ne by done.
Qed.

Lemma rg_find_Some r name id h :
  rg_find r name id = Some h → h ∈ rg_list r name ∧ hk_id h = id.
Proof.
  unfold rg_find. destruct (list_find _ _) as [[i h']|] eqn:E; [|done].
  apply list_find_Some in E as (Hi & <- & _). simpl. intros [= ->].
  split; [by eapply list_elem_of_lookup_2|done].
Qed.

Lemma rg_bind_list E r r' n : rg_bind E r = Some r' → rg_list r' n = rg_list r n.
Proof. unfold rg_bind. intros. repeat case_match; by simplify_eq/=. Qed.

(** A request leaves a registration where it was, removes it, or adds the new one. *)
Lemma spec_step_lists r op :
  let '(o, r') := spec_step r op in
  (∀ n h, h ∈ rg_list r' n → h ∈ rg_list r n ∨ ∃ E, op = OpAdd E h ∧ n = ev_name E) ∧
  match unregistered op o with
  | Some (name, id) =>
      (∃ h, h ∈ rg_list r name ∧ hk_id h = id) ∧ (∀ h, h ∈ rg_list r' name → hk_id h ≠ id)
  | None => True
  end.
Proof.
  destruct op as [E hook|name id|name id|E routing operation]; simpl.
  - destruct (rg_bind E r) as [r1|] eqn:Eb; simpl; [|split; auto]. split; [|done].
    intros n h. rewrite rg_list_store. case_decide; [|rewrite (rg_bind_list _ _ _ _ Eb); auto].
    subst. rewrite <- (rg_bind_list _ _ _ (ev_name E) Eb).
    case_match; rewrite ?elem_of_app, ?elem_of_cons; set_solver.
  - destruct (rg_find r name id) as [h|] eqn:Ef; simpl; [|split; auto].
    apply rg_find_Some in Ef. split; [|split; [by eauto|]].
    + intros n h'. rewrite rg_list_store. case_decide; [|auto]. subst.
      rewrite list_elem_of_filter. tauto.
    + intros h'. rewrite rg_list_store, decide_True by done. rewrite list_elem_of_filter. tauto.
  - destruct (rg_find r name id) as [h|] eqn:Ef; simpl; [|split; auto].
    apply rg_find_Some in Ef. destruct (hk_once h); simpl; [|split; auto].
    split; [|split; [by eauto|]].
    + intros n h'. rewrite rg_list_store. case_decide; [|auto]. subst.
      rewrite list_elem_of_filter. tauto.
    + intros h'. rewrite rg_list_store, decide_True by done. rewrite list_elem_of_filter. tauto.
  - destruct (rg_bind E r) as [r1|] eqn:Eb; simpl; (split; [|done]); [|auto].
    intros n h. rewrite (rg_bind_list _ _ _ _ Eb). auto.
Qed.

(** [id] is live under the name [home] at most. *)
Definition lives_in (home : option string) (r : Registrations) (id : ListenerRegistrationId) : Prop :=
  ∀ n h, h ∈ rg_list r n → hk_id h = id → home = Some n.

Lemma unregistrations_bound ops r id home :
  lives_in home r id → NoDup (added_ids ops) →
  (home ≠ None → id ∉ added_ids ops) →
  unregistrations id ops (run_ops spec_step r ops).1 ≤
    match home with None => length (filter (λ i, i = id) (added_ids ops)) | Some _ => 1 end.
Proof.
  revert r home. induction ops as [|op ops IH]; intros r home Hl Hnd Hfr.
  { unfold unregistrations. simpl. lia. }
  cbn [run_ops].
  pose proof (spec_step_lists r op) as Hs. destruct (spec_step r op) as [o r1].
  destruct Hs as [Hsub Hun]. destruct (run_ops spec_step r1 ops) as [os r2] eqn:Er. cbn [fst].
  assert (added_ids (op :: ops) = added_ids [op] ++ added_ids ops) as Ha by (by destruct op).
  rewrite Ha in Hnd, Hfr |- *. apply NoDup_app in Hnd as (_ & Hdisj & Hnd).
  assert (∀ home', lives_in home' r1 id → (home' ≠ None → id ∉ added_ids ops) →
    unregistrations id ops os ≤ match home' with
      None => length (filter (λ i, i = id) (added_ids ops)) | Some _ => 1 end) as IH'.
  { intros home' H1 H2. specialize (IH r1 home' H1 Hnd H2). by rewrite Er in IH. }
  unfold unregistrations. cbn [zip_with]. rewrite filter_cons. cbn [fst snd]. case_decide as Hd.
  - destruct (unregistered op o) as [[name i]|] eqn:Eu; [|done]. simpl in Hd. injection Hd as ->.
    destruct Hun as [(h & Hh & Hid) Hnone]. pose proof (Hl name h Hh Hid) as ->.
    assert (lives_in None r1 id) as Hno.
    { intros n h' Hh' Hid'. exfalso. destruct (Hsub n h' Hh') as [Hin|(E & -> & ->)]; [|done].
      pose proof (Hl n h' Hin Hid') as [= <-]. by apply (Hnone h'). }
    specialize (IH' None Hno ltac:(done)).
    rewrite (filter_nothing (λ i, i = id) (added_ids ops)) in IH' by set_solver.
    unfold unregistrations in IH'. simpl in *. lia.
  - destruct (decide (id ∈ added_ids [op])) as [Hin|Hnin].
    + destruct op as [E hook| | |]; simpl in Hin; try set_solver.
      apply list_elem_of_singleton in Hin as ->. destruct home as [|]; [set_solver|].
      specialize (IH' (Some (ev_name E))). unfold unregistrations in IH'. etrans; [apply IH'|].
      * intros n h Hh Hid. destruct (Hsub n h Hh) as [Hh'|(E' & [= <- <-] & ->)]; [|done].
        discriminate (Hl n h Hh' Hid).
      * intros _. apply Hdisj. simpl. set_solver.
      * simpl. rewrite filter_cons_True by done. simpl. lia.
    + specialize (IH' home). unfold unregistrations in IH'. etrans; [apply IH'|].
      * intros n h Hh Hid. destruct (Hsub n h Hh) as [Hh'|(E' & -> & ->)]; [by eapply Hl|].
        simpl in Hnin. set_solver.
      * set_solver.
      * destruct home; [done|]. rewrite filter_app, length_app. lia.
Qed.

(** Unregistration is exclusive: whatever the order in which explicit removals
    and once claims reach the store, each registration is unregistered at most once,
    so the Unregistered observation of a listener is published at most once and a
    once listener runs for at most one dispatch. *)
Theorem unregistered_at_most_once (ops : list StoreOp) (id : ListenerRegistrationId)
    (Hfresh : NoDup (added_ids ops)) :
  unregistrations id ops (run_ops store_step EventStore_new ops).1 ≤ 1.
Proof.
  pose proof (run_ops_refines ops EventStore_new [] EventStore_new_wf EventStore_new_ids Hfresh
    ltac:(set_solver)) as Hr.
  pose proof (unregistrations_bound ops (abstraction EventStore_new) id None) as Hb.
  destruct (run_ops store_step EventStore_new ops) as [os st]. destruct Hr as [Hr _].
  rewrite Hr in Hb. simpl. etrans; [apply Hb; [|done|done]|].
  - intros n h Hh. rewrite hooks_of_abstraction in Hh. unfold hooks_of in Hh. simpl in Hh.
    rewrite lookup_empty in Hh. set_solver.
  - assert (NoDup (filter (λ i, i = id) (added_ids ops))) as Hn by (by apply NoDup_filter).
    destruct (filter _ _) as [|a [|b l]] eqn:Ef; simpl; [lia|lia|]. exfalso.
    assert (a = id ∧ b = id) as [-> ->].
    { split; [assert (a ∈ filter (λ i, i = id) (added_ids ops)) as Hx by (rewrite Ef; set_solver)
             |assert (b ∈ filter (λ i, i = id) (added_ids ops)) as Hx by (rewrite Ef; set_solver)];
        by apply list_elem_of_filter in Hx as [? _]. }
    apply NoDup_cons in Hn as [Hn _]. set_solver.
Qed.

Example unregistered_at_most_once_witness :
  let ops := [OpAdd sample_event (sample_hook 2 true true); OpClaim "ping" 2; OpRemove "ping" 2;
              OpClaim "ping" 2] in
  (run_ops store_step EventStore_new ops).1 =
    [OutAdd true; OutClaim true true; OutRemove false; OutClaim false false] ∧
  unregistrations 2 ops (run_ops store_step EventStore_new ops).1 ≤ 1.
Proof.
  intros ops. split; [vm_compute; reflexivity|].
  apply (unregistered_at_most_once ops 2). apply (bool_decide_unpack _). vm_compute. exact I.
Defined.


