(* ===== verification/Owner.v ===== *)
(** Framework-owned work (crates/cordis-core/src/effect.rs, framework_task.rs): committed
    lifecycle work that its caller starts and that completes whatever the caller does.

    The work is a future that answers [Pending] a number of times and then ends; it is
    moved between the caller, a task of the caller's executor and a task of the completion
    runtime, which is never shut down.  The events are the polls and the drop of the
    caller's future, the polls of the task, and the shutdown of the caller's executor. *)
From S2P Require Import Prelude Contained.

(** * The work *)

Record Work := { wk_left : nat; wk_end : Ending unit }.

Inductive Polled := PollPending (w : Work) | PollEnded (e : Ending unit).

Definition poll_work (w : Work) : Polled :=
  match wk_left w with
  | 0 => PollEnded (wk_end w)
  | S n => PollPending {| wk_left := n; wk_end := wk_end w |}
  end.

(** What [Handle::try_current] answers. *)
Inductive Flavor := MultiThread | CurrentThread | OffRuntime.

(** A report of a panic nobody is left to receive: the operation and its context. *)
(* @src crates/cordis-core/src/framework_task.rs 14-20 PanicReport *)
Record PanicReport := { pr_operation : string; pr_context : string }.

(* @src crates/cordis-core/src/framework_task.rs 22-32 PanicReport::report *)
Definition panic_report (r : PanicReport) (p : Payload) : string :=
  String.append (String.append (String.append (String.append (String.append
    "cordis: framework task " (pr_operation r)) " panicked (") (pr_context r)) "): ") (payload_text p).

(** The text logged, and how the future goes on ending. *)
(* @src crates/cordis-core/src/framework_task.rs 34-57 report_panic *)
Definition report_panic {A} (r : PanicReport) (e : Ending A) : list string * Ending A :=
  match e with
  | Returned a => ([], Returned a)
  | Unwound p => ([panic_report r p], Unwound p)
  end.

(** * The caller's future and the task *)

(* @src crates/cordis-core/src/effect.rs 585-599 CallerDrivenStage *)
Inductive Stage :=
| Inline (w : Work) (report : option PanicReport) (transfer_on_drop : bool)
| HandedOff
| Finished.

(** What a task runs: work whose ending it relays, or the work alone. *)
Inductive TaskBody := Relay (w : Work) (report : option PanicReport) | Bare (w : Work).

(** On the caller's executor a task is wrapped, with the mark of the wrapper. *)
(* @src crates/cordis-core/src/effect.rs 500-510 DetachedWork *)
Inductive Place := OnOrigin (transfer_on_drop : bool) | OnCompletion.

Record OwnerTask := { ot_body : TaskBody; ot_place : Place }.

(** The oneshot channel: nothing yet, an outcome, or the sender gone without one. *)
Inductive Channel := ChOpen | ChSent (outcome : Ending unit) | ChClosed.

(** [ow_ended] is how the work ended, [ow_polls] how often it was polled, [ow_logged] what
    was logged, [ow_alive] whether the caller still has its future. *)
Record Owned := {
  ow_stage : Stage;
  ow_alive : bool;
  ow_task : option OwnerTask;
  ow_channel : Channel;
  ow_ended : option (Ending unit);
  ow_polls : nat;
  ow_logged : list string;
}.

Definition put_stage (g : Stage) (s : Owned) : Owned :=
  {| ow_stage := g; ow_alive := ow_alive s; ow_task := ow_task s; ow_channel := ow_channel s; ow_ended := ow_ended s;
     ow_polls := ow_polls s; ow_logged := ow_logged s |}.
Definition put_task (t : option OwnerTask) (s : Owned) : Owned :=
  {| ow_stage := ow_stage s; ow_alive := ow_alive s; ow_task := t; ow_channel := ow_channel s; ow_ended := ow_ended s;
     ow_polls := ow_polls s; ow_logged := ow_logged s |}.
Definition put_channel (c : Channel) (s : Owned) : Owned :=
  {| ow_stage := ow_stage s; ow_alive := ow_alive s; ow_task := ow_task s; ow_channel := c; ow_ended := ow_ended s;
     ow_polls := ow_polls s; ow_logged := ow_logged s |}.
Definition put_ended (e : Ending unit) (s : Owned) : Owned :=
  {| ow_stage := ow_stage s; ow_alive := ow_alive s; ow_task := ow_task s; ow_channel := ow_channel s; ow_ended := Some e;
     ow_polls := ow_polls s; ow_logged := ow_logged s |}.
Definition dropped (s : Owned) : Owned :=
  {| ow_stage := ow_stage s; ow_alive := false; ow_task := ow_task s; ow_channel := ow_channel s; ow_ended := ow_ended s;
     ow_polls := ow_polls s; ow_logged := ow_logged s |}.
Definition polled (s : Owned) : Owned :=
  {| ow_stage := ow_stage s; ow_alive := ow_alive s; ow_task := ow_task s; ow_channel := ow_channel s; ow_ended := ow_ended s;
     ow_polls := S (ow_polls s); ow_logged := ow_logged s |}.
Definition log_text (text : string) (s : Owned) : Owned :=
  {| ow_stage := ow_stage s; ow_alive := ow_alive s; ow_task := ow_task s; ow_channel := ow_channel s; ow_ended := ow_ended s;
     ow_polls := ow_polls s; ow_logged := ow_logged s ++ [text] |}.

(* @src crates/cordis-core/src/effect.rs 601-617 CallerDriven::new *)
Definition CallerDriven_new (report : option PanicReport) (work : Work) : Owned :=
  {| ow_stage := Inline work report true; ow_alive := true; ow_task := None; ow_channel := ChOpen; ow_ended := None;
     ow_polls := 0; ow_logged := [] |}.

(* @src crates/cordis-core/src/effect.rs 699-711 detach *)
Definition detach (flavor : Flavor) (body : TaskBody) (s : Owned) : Owned :=
  put_task (Some {| ot_body := body;
                    ot_place := match flavor with MultiThread => OnOrigin true | CurrentThread | OffRuntime => OnCompletion end |}) s.

(** The relay's task, over a fresh channel. *)
(* @src crates/cordis-core/src/effect.rs 619-638 hand_off *)
Definition hand_off (flavor : Flavor) (work : Work) (report : option PanicReport) (s : Owned) : Owned :=
  detach flavor (Relay work report) (put_channel ChOpen s).

(** The answer of a poll; [CpLost] is the panic on a relay that ended without an outcome. *)
Inductive CallerPoll := CpPending | CpReady | CpUnwound (p : Payload) | CpLost.

Definition answer_of (e : Ending unit) : CallerPoll := match e with Returned _ => CpReady | Unwound p => CpUnwound p end.

(** One poll; the receiver of a relay just handed off is polled by the next one. *)
(* @src crates/cordis-core/src/effect.rs 640-674 CallerDriven::poll *)
Definition poll_caller (flavor : Flavor) (s : Owned) : CallerPoll * Owned :=
  match ow_stage s with
  | Inline w report _ =>
      match poll_work w with
      | PollEnded (Returned _) => (CpReady, put_stage Finished (put_ended (Returned tt) (polled s)))
      | PollEnded (Unwound p) => (CpUnwound p, put_stage (Inline w report false) (put_ended (Unwound p) (polled s)))
      | PollPending w => (CpPending, put_stage HandedOff (hand_off flavor w report (polled s)))
      end
  | HandedOff =>
      match ow_channel s with
      | ChOpen => (CpPending, s)
      | ChSent e => (answer_of e, put_stage Finished s)
      | ChClosed => (CpLost, put_stage Finished s)
      end
  | Finished => (CpReady, s)
  end.

(* @src crates/cordis-core/src/effect.rs 676-689 CallerDriven::drop *)
Definition drop_driven (flavor : Flavor) (s : Owned) : Owned :=
  let s := dropped s in
  match ow_stage s with
  | Inline w _ true => detach flavor (Bare w) (put_stage Finished s)
  | Inline _ _ false | HandedOff | Finished => s
  end.

(** The receiver of the relay is still there. *)
Definition receiving (s : Owned) : bool := ow_alive s && match ow_stage s with HandedOff => true | _ => false end.

(** One poll of the body of a task: the body left, or [None] when the task is over. *)
Definition poll_body (body : TaskBody) (s : Owned) : option TaskBody * Owned :=
  match body with
  | Bare w =>
      match poll_work w with
      | PollPending w => (Some (Bare w), polled s)
      | PollEnded e => (None, put_ended e (polled s))
      end
  | Relay w report =>
      match poll_work w with
      | PollPending w => (Some (Relay w report), polled s)
      | PollEnded e =>
          let s := put_ended e (polled s) in
          if receiving s then (None, put_channel (ChSent e) s)
          else (None, match e, report with Unwound p, Some r => log_text (panic_report r p) s | _, _ => s end)
      end
  end.

(** The wrapper clears its mark for the time of the poll and sets it on [Pending]. *)
(* @src crates/cordis-core/src/effect.rs 512-536 DetachedWork::poll *)
Definition poll_task (s : Owned) : option Owned :=
  t ← ow_task s;
  let '(body, s) := poll_body (ot_body t) s in
  Some (put_task (body ← body; Some {| ot_body := body; ot_place := match ot_place t with OnOrigin _ => OnOrigin true | OnCompletion => OnCompletion end |}) s).

(** The caller's executor goes away and drops its tasks. *)
(* @src crates/cordis-core/src/effect.rs 538-549 DetachedWork::drop *)
Definition shutdown (s : Owned) : Owned :=
  match ow_task s with
  | Some {| ot_body := body; ot_place := OnOrigin true |} => put_task (Some {| ot_body := body; ot_place := OnCompletion |}) s
  | Some {| ot_body := Relay _ _; ot_place := OnOrigin false |} => put_channel ChClosed (put_task None s)
  | Some {| ot_body := Bare _; ot_place := OnOrigin false |} => put_task None s
  | Some {| ot_place := OnCompletion |} | None => s
  end.

Inductive OwnEvent := EvPollCaller (flavor : Flavor) | EvDropCaller (flavor : Flavor) | EvPollTask | EvShutdown.

(** [CallerPoll] is the answer of the poll, for the event that is one; an answer other
    than [Pending] ends the wait, and the future is dropped. *)
Definition own_step (ev : OwnEvent) (s : Owned) : option (option CallerPoll * Owned) :=
  match ev with
  | EvPollCaller flavor =>
      if ow_alive s
      then let '(r, s) := poll_caller flavor s in Some (Some r, match r with CpPending => s | _ => drop_driven flavor s end)
      else None
  | EvDropCaller flavor => if ow_alive s then Some (None, drop_driven flavor s) else None
  | EvPollTask => s ← poll_task s; Some (None, s)
  | EvShutdown => Some (None, shutdown s)
  end.

Fixpoint own_run (evs : list OwnEvent) (s : Owned) : option (list CallerPoll * Owned) :=
  match evs with
  | [] => Some ([], s)
  | ev :: evs =>
      '(r, s) ← own_step ev s; '(rs, s) ← own_run evs s; Some (match r with Some r => r :: rs | None => rs end, s)
  end.

(** * The invariant *)

Definition waiting_only (seen : list CallerPoll) : Prop := Forall (eq CpPending) seen.

(** The text a panic without a receiver is logged with. *)
Definition logged_for (report : option PanicReport) (e : Ending unit) : list string :=
  match e, report with Unwound p, Some r => [panic_report r p] | _, _ => [] end.

(** A task of the caller's executor survives its shutdown. *)
Definition transferable (t : OwnerTask) : Prop := ot_place t ≠ OnOrigin false.

Section invariant.
Context (w0 : Work) (report : option PanicReport).

(** The work is in one place: with the caller, or in the task. *)
Definition held (seen : list CallerPoll) (s : Owned) (w : Work) : Prop :=
  (seen = [] ∧ ow_stage s = Inline w report true ∧ ow_alive s = true ∧ ow_task s = None ∧ ow_polls s = 0) ∨
  (∃ t, ow_task s = Some t ∧ transferable t ∧
    (ot_body t = Relay w report ∧ ow_stage s = HandedOff ∧ ow_channel s = ChOpen ∨
     ot_body t = Bare w ∧ ow_stage s = Finished ∧ ow_alive s = false)).

(** Who learnt how the work ended. *)
Definition told (seen : list CallerPoll) (s : Owned) (e : Ending unit) : Prop :=
  (∃ waits, seen = waits ++ [answer_of e] ∧ waiting_only waits ∧ ow_alive s = false ∧ ow_logged s = []) ∨
  (waiting_only seen ∧ ow_stage s = HandedOff ∧ ow_channel s = ChSent e ∧ ow_logged s = []) ∨
  (waiting_only seen ∧ ow_alive s = false ∧ ow_stage s = HandedOff ∧ ow_channel s = ChOpen ∧ ow_logged s = logged_for report e) ∨
  (waiting_only seen ∧ ow_alive s = false ∧ ow_stage s = Finished ∧ ow_logged s = []).

Definition own_ok (seen : list CallerPoll) (s : Owned) : Prop :=
  match ow_ended s with
  | None => waiting_only seen ∧ ow_logged s = [] ∧
      ∃ w, wk_left w + ow_polls s = wk_left w0 ∧ wk_end w = wk_end w0 ∧ held seen s w
  | Some e => e = wk_end w0 ∧ ow_polls s = S (wk_left w0) ∧ ow_task s = None ∧ told seen s e
  end.

Lemma new_ok : own_ok [] (CallerDriven_new report w0).
Proof. unfold own_ok. cbn. split_and!; [constructor|done|]. exists w0. split_and!; [lia|done|]. by left. Qed.

Lemma waiting_snoc seen : waiting_only seen → waiting_only (seen ++ [CpPending]).
Proof. intros H. apply Forall_app. by split; [|constructor]. Qed.

Lemma poll_caller_ok flavor seen s :
  own_ok seen s → ow_alive s = true →
  let '(r, s') := poll_caller flavor s in own_ok (seen ++ [r]) (match r with CpPending => s' | _ => drop_driven flavor s' end).
Proof.
  unfold own_ok. destruct (ow_ended s) as [e|] eqn:He.
  - intros (-> & Hp & Ht & [(? & _ & _ & Hd & _)|[(Hw & Hg & Hc & Hl)|[(_ & Hd & _)|(_ & Hd & _)]]]) Ha; [congruence| |congruence..].
    unfold poll_caller. rewrite Hg, Hc. destruct (wk_end w0) as [[]|p] eqn:Hend; cbn; rewrite He; (split_and!; try done);
      left; exists seen; by split_and!.
  - intros (Hw & Hl & w & Hn & Hend & [(Hnil & Hg & _ & Ht & Hp)|(t & Ht & Htr & [(Hb & Hg & Hc)|(_ & _ & Hd)])]) Ha; [| |congruence].
    + unfold poll_caller. rewrite Hg. unfold poll_work. destruct (wk_left w) as [|n] eqn:Hleft.
      * destruct (wk_end w) as [[]|p] eqn:Hwe; cbn; (split_and!; [congruence|lia|done|]);
          left; exists seen; by split_and!.
      * cbn. rewrite He. split_and!; [by apply waiting_snoc|done|]. exists {| wk_left := n; wk_end := wk_end w |}.
        cbn. split_and!; [lia|done|]. right. eexists. split_and!; [done| |by left]. by destruct flavor.
    + unfold poll_caller. rewrite Hg, Hc, He. split_and!; [by apply waiting_snoc|done|].
      exists w. split_and!; [done|done|]. right. exists t. split_and!; [done|done|by left].
Qed.

Lemma drop_driven_ok flavor seen s : own_ok seen s → ow_alive s = true → own_ok seen (drop_driven flavor s).
Proof.
  unfold own_ok. intros H Ha. destruct (ow_ended s) as [e|] eqn:He.
  - destruct H as (-> & Hp & Ht & [(? & _ & _ & Hd & _)|[(Hw & Hg & Hc & Hl)|[(_ & Hd & _)|(_ & Hd & _)]]]); [congruence| |congruence..].
    unfold drop_driven. cbn. rewrite Hg. cbn. rewrite He. split_and!; try done. right. by left.
  - destruct H as (Hw & Hl & w & Hn & Hend & [(Hnil & Hg & _ & Ht & Hp)|(t & Ht & Htr & [(Hb & Hg & Hc)|(_ & _ & Hd)])]); [| |congruence].
    + unfold drop_driven. cbn. rewrite Hg. cbn. rewrite He. split_and!; [done|done|]. exists w. split_and!; [done|done|].
      right. eexists. split_and!; [done| |by right]. by destruct flavor.
    + unfold drop_driven. cbn. rewrite Hg. cbn. rewrite He. split_and!; [done|done|]. exists w. split_and!; [done|done|].
      right. exists t. split_and!; [done|done|by left].
Qed.

Lemma poll_task_ok seen s s' :
  own_ok seen s → poll_task s = Some s' →
  own_ok seen s' ∧ ow_polls s' = S (ow_polls s) ∧ (ow_ended s' = None → is_Some (ow_task s')).
Proof.
  unfold own_ok. intros H Hs. destruct (ow_ended s) as [e|] eqn:He.
  { destruct H as (_ & _ & Ht & _). unfold poll_task in Hs. by rewrite Ht in Hs. }
  destruct H as (Hw & Hl & w & Hn & Hend & [(_ & _ & _ & Ht & _)|(t & Ht & Htr & Hwhere)]); unfold poll_task in Hs; rewrite Ht in Hs; [done|].
  cbn [mbind option_bind] in Hs. unfold poll_body in Hs.
  destruct Hwhere as [(Hb & Hg & Hc)|(Hb & Hg & Ha)]; rewrite Hb in Hs; unfold poll_work in Hs;
    destruct (wk_left w) as [|n] eqn:Hleft; cbn [mbind option_bind] in Hs.
  - unfold receiving in Hs. cbn in Hs. rewrite Hg, andb_true_r in Hs. destruct (ow_alive s) eqn:Ha; injection Hs as <-.
    + split; [|done]. cbn. split_and!; [done|lia|done|]. right. left. by split_and!.
    + split; [|by destruct (wk_end w), report].
      destruct (wk_end w) as [[]|p] eqn:Hwe; [|unfold told, logged_for; destruct report as [r|]]; cbn;
        (split_and!; [congruence|lia|done|]); right; right; left; (split_and!; try done); cbn; by rewrite ?Hl.
  - injection Hs as <-. split_and!; [|done|done]. cbn. rewrite He. split_and!; [done|done|].
    exists {| wk_left := n; wk_end := wk_end w |}. cbn. split_and!; [lia|done|]. right. eexists. split_and!; [done| |by left].
    unfold transferable in *. cbn. by destruct (ot_place t).
  - injection Hs as <-. split; [|done]. cbn. split_and!; [done|lia|done|]. right. right. right. by split_and!.
  - injection Hs as <-. split_and!; [|done|done]. cbn. rewrite He. split_and!; [done|done|].
    exists {| wk_left := n; wk_end := wk_end w |}. cbn. split_and!; [lia|done|]. right. eexists. split_and!; [done| |by right].
    unfold transferable in *. cbn. by destruct (ot_place t).
Qed.

Lemma shutdown_ok seen s : own_ok seen s → own_ok seen (shutdown s).
Proof.
  unfold own_ok. intros H. destruct (ow_ended s) as [e|] eqn:He.
  { destruct H as (? & ? & Ht & ?). unfold shutdown. rewrite Ht. cbn iota. rewrite He. by split_and!. }
  destruct H as (Hw & Hl & w & Hn & Hend & [(Hnil & Hg & Ha & Ht & Hp)|([body place] & Ht & Htr & Hwhere)]); unfold shutdown; rewrite Ht.
  - cbn. rewrite He. split_and!; [done|done|]. exists w. split_and!; [done|done|]. by left.
  - destruct place as [[]|], body; try (by destruct Htr); cbn; rewrite He; (split_and!; [done|done|]); exists w; (split_and!; [done|done|]);
      right; eexists; by split_and!.
Qed.

Lemma own_step_ok ev seen s r s' :
  own_ok seen s → own_step ev s = Some (r, s') → own_ok (seen ++ match r with Some r => [r] | None => [] end) s'.
Proof.
  intros Hok. destruct ev as [flavor|flavor| |]; cbn [own_step].
  - destruct (ow_alive s) eqn:Ha; [|done]. pose proof (poll_caller_ok flavor seen s Hok Ha) as Hp.
    destruct (poll_caller flavor s) as [a s1]. by intros [= <- <-].
  - destruct (ow_alive s) eqn:Ha; [|done]. intros [= <- <-]. rewrite app_nil_r. by apply drop_driven_ok.
  - destruct (poll_task s) as [s1|] eqn:Hp; [|done]. cbn. intros [= <- <-]. rewrite app_nil_r. by eapply poll_task_ok.
  - intros [= <- <-]. rewrite app_nil_r. by apply shutdown_ok.
Qed.

Lemma own_run_ok evs seen s rs s' : own_ok seen s → own_run evs s = Some (rs, s') → own_ok (seen ++ rs) s'.
Proof.
  revert seen s rs. induction evs as [|ev evs IH]; intros seen s rs Hok; cbn [own_run]; [intros [= <- <-]; by rewrite app_nil_r|].
  destruct (own_step ev s) as [[r s1]|] eqn:Hs; [|done]. cbn [mbind option_bind].
  destruct (own_run evs s1) as [[rs1 s2]|] eqn:Hr; [|done]. cbn [mbind option_bind]. intros [= <- <-].
  pose proof (IH _ _ _ (own_step_ok _ _ _ _ _ Hok Hs) Hr) as H. rewrite <- app_assoc in H. by destruct r.
Qed.

(** The task runs the work to its end. *)
Lemma task_finishes seen s :
  own_ok seen s → is_Some (ow_task s) →
  ∃ s', own_run (replicate (S (wk_left w0) - ow_polls s) EvPollTask) s = Some ([], s') ∧ ow_ended s' = Some (wk_end w0).
Proof.
  intros Hok Ht. remember (wk_left w0 - ow_polls s) as n eqn:Hn. revert s Hok Ht Hn. induction n as [|n IH]; intros s Hok Ht Hn.
  - assert (ow_polls s = wk_left w0 ∧ ∃ s', poll_task s = Some s') as [Hp [s' Hs]].
    { unfold own_ok in Hok. destruct (ow_ended s); [destruct Hok as (_ & _ & Ht' & _); rewrite Ht' in Ht; by destruct Ht|].
      destruct Hok as (_ & _ & w & Hl & _). split; [lia|]. unfold poll_task. destruct Ht as [t ->]. cbn.
      destruct (poll_body _ _). by eexists. }
    destruct (poll_task_ok _ _ _ Hok Hs) as (Hok' & Hp' & _). replace (S (wk_left w0) - ow_polls s) with 1 by lia.
    exists s'. cbn. rewrite Hs. cbn. split; [done|]. unfold own_ok in Hok'.
    destruct (ow_ended s') as [e|]; [by destruct Hok' as (-> & _)|]. destruct Hok' as (_ & _ & w & Hl & _). lia.
  - assert (∃ s1, poll_task s = Some s1) as [s1 Hs] by (unfold poll_task; destruct Ht as [t ->]; cbn; destruct (poll_body _ _); by eexists).
    destruct (poll_task_ok _ _ _ Hok Hs) as (Hok1 & Hp1 & Ht1).
    assert (ow_ended s1 = None) as He.
    { unfold own_ok in Hok1. destruct (ow_ended s1); [|done]. destruct Hok1 as (_ & Hp' & _). lia. }
    destruct (IH s1 Hok1 (Ht1 He) ltac:(lia)) as (s' & Hr & Hend). exists s'. split; [|done].
    replace (S (wk_left w0) - ow_polls s) with (S (S (wk_left w0) - ow_polls s1)) by lia. cbn [replicate own_run own_step].
    rewrite Hs. cbn. by rewrite Hr.
Qed.
End invariant.

(** * Properties *)

Section properties.
Context (w0 : Work) (report : option PanicReport) (evs : list OwnEvent) (answers : list CallerPoll) (s : Owned)
  (Hrun : own_run evs (CallerDriven_new report w0) = Some (answers, s)).

Lemma own_reached_ok : own_ok w0 report answers s.
Proof using All. by apply (own_run_ok w0 report evs [] _ _ _ (new_ok w0 report)). Qed.

(** [C12] Committed work has one owner and is never lost: as long as it has not ended it is
    with its caller or in one task, in whatever order the caller polls or drops its
    future and its executor shuts down; once the caller has polled it or dropped it, the
    polls it still needs, made by the task alone, bring it to its end. *)
Theorem owned_work_completes :
  match ow_ended s with
  | Some e => e = wk_end w0 ∧ ow_polls s = S (wk_left w0) ∧ ow_task s = None
  | None => ow_polls s ≤ wk_left w0 ∧
      match ow_task s with
      | None => ow_alive s = true ∧ ow_polls s = 0 ∧ answers = []
      | Some _ => ∃ s', own_run (replicate (S (wk_left w0) - ow_polls s) EvPollTask) s = Some ([], s') ∧ ow_ended s' = Some (wk_end w0)
      end
  end.
Proof using All.
  pose proof own_reached_ok as Hok. pose proof Hok as H. unfold own_ok in H. destruct (ow_ended s) as [e|]; [naive_solver|].
  destruct H as (Hw & _ & w & Hn & _ & [(Hnil & Hg & Ha & Ht & Hp)|(t & Ht & _)]); (split; [lia|]); rewrite Ht.
  - by split_and!.
  - apply (task_finishes w0 report answers s Hok). by eexists.
Qed.

End properties.

(** * Runs *)

Definition failing_work : Work := {| wk_left := 1; wk_end := Unwound (PayloadText "boom") |}.
Definition drain_report : option PanicReport := Some {| pr_operation := "dispose"; pr_context := "fiber 7" |}.

(** Handed off from an executor that then shuts down, the work ends on the completion
    runtime; its caller had gone, so the panic is logged. *)
Definition abandoned_run : list OwnEvent := [EvPollCaller MultiThread; EvShutdown; EvDropCaller MultiThread; EvPollTask].

(** The caller keeps its future until the panic comes back. *)
Definition awaited_run : list OwnEvent := [EvPollCaller CurrentThread; EvPollTask; EvPollCaller CurrentThread].

(** The outcome is sent, and the caller drops its future without polling it again. *)
Definition unread_run : list OwnEvent := [EvPollCaller MultiThread; EvPollTask; EvDropCaller MultiThread].

Lemma owned_work_completes_witness :
  ∃ answers s, own_run [EvPollCaller MultiThread; EvShutdown] (CallerDriven_new drain_report failing_work) = Some (answers, s) ∧
  ow_task s = Some {| ot_body := Relay {| wk_left := 0; wk_end := wk_end failing_work |} drain_report; ot_place := OnCompletion |} ∧
  ∃ s', own_run [EvPollTask] s = Some ([], s') ∧ ow_ended s' = Some (wk_end failing_work).
Proof.
  eexists _, _. split; [vm_compute; reflexivity|]. split; [reflexivity|].
  exact (proj2 (owned_work_completes failing_work drain_report [EvPollCaller MultiThread; EvShutdown] _ _ eq_refl)).
Defined.


Example awaited_panic_resumes :
  fst <$> own_run awaited_run (CallerDriven_new drain_report failing_work) = Some [CpPending; CpUnwound (PayloadText "boom")].
Proof. reflexivity. Qed.

(** An outcome dropped unread reaches nobody: the panic is neither resumed nor logged. *)
Example unread_outcome_is_lost :
  (λ r, (fst r, ow_logged (snd r))) <$> own_run unread_run (CallerDriven_new drain_report failing_work) = Some ([CpPending], []).
Proof. reflexivity. Qed.
