(* ===== verification/Journal.v ===== *)
(** The cleanup journal (crates/cordis-core/src/effect.rs): a generation's cleanup
    obligations, keyed by commit order, with exact one-time claims.

    The closures the framework itself stores as cleanups are represented by the
    constructors of [CleanupAction]; a user cleanup is a handle whose behaviour is
    a parameter of the operations that run it. *)
From S2P Require Import Prelude Axes BTree.

Inductive CleanupAction :=
| CleanListener (event : string) (id : nat)
| CleanUpdate (contract : TypeId) (id : nat)
| CleanService (key : RealmKey) (name : string) (occurrence : nat)
| CleanObserver (id : Z)
| CleanUser (callback : nat).

(* @src crates/cordis-core/src/effect.rs 43-57 Cleanup *)
Record Cleanup := { cl_run : CleanupAction; async_cleanup : bool }.

(* @src crates/cordis-core/src/effect.rs 59-74 sync_cleanup *)
Definition sync_cleanup (f : CleanupAction) : Cleanup := {| cl_run := f; async_cleanup := false |}.

(* @src crates/cordis-core/src/effect.rs 209-219 EffectFailureKind *)
Inductive EffectFailureKind := EffectReturnedError | EffectPanic.

(* @src crates/cordis-core/src/effect.rs 221-243 EffectFailure *)
Record EffectFailure := { ef_kind : EffectFailureKind; ef_diagnostic : string }.

(** The text of a failure. *)
(* @src crates/cordis-core/src/effect.rs 266-275 EffectFailure::fmt *)
Definition effect_failure_display (f : EffectFailure) : string :=
  match ef_kind f with
  | EffectReturnedError => String.append "returned an error: " (ef_diagnostic f)
  | EffectPanic => String.append "panicked: " (ef_diagnostic f)
  end.

(** How one cleanup body ends: normally, with an [Err], or by unwinding. *)
Inductive CleanupEnding := CleanDone | CleanErr (diagnostic : string) | CleanPanic (payload : string).

(* @src crates/cordis-core/src/effect.rs 94-109 execute_cleanup *)
Definition execute_cleanup (ending : CleanupEnding) : option EffectFailure :=
  match ending with
  | CleanDone => None
  | CleanErr d => Some {| ef_kind := EffectReturnedError; ef_diagnostic := d |}
  | CleanPanic p => Some {| ef_kind := EffectPanic; ef_diagnostic := p |}
  end.

(** A token is the key of one journal entry. *)
(* @src crates/cordis-core/src/effect.rs 130-141 DisposableList *)
Record DisposableList := { dl_sn : Z; dl_map : list (Z * Cleanup) }.

(* @src crates/cordis-core/src/effect.rs 143-147 DisposableList::new *)
Definition DisposableList_new : DisposableList := {| dl_sn := 0; dl_map := [] |}.

(* @src crates/cordis-core/src/effect.rs 149-155 DisposableList::push *)
Definition dl_push (l : DisposableList) (cleanup : Cleanup) : Z * DisposableList :=
  let sn := wrapping_succ (dl_sn l) in
  (sn, {| dl_sn := sn; dl_map := bt_insert (dl_map l) sn cleanup |}).

(* @src crates/cordis-core/src/effect.rs 157-164 DisposableList::remove *)
Definition dl_remove (l : DisposableList) (token : Z) : option Cleanup * DisposableList :=
  (bt_lookup (dl_map l) token,
   {| dl_sn := dl_sn l; dl_map := bt_remove (dl_map l) token |}).

(* @src crates/cordis-core/src/effect.rs 166-170 DisposableList::tokens *)
Definition dl_tokens (l : DisposableList) : list Z := bt_keys (dl_map l).

(** Tokens are issued in increasing order and the journal is sorted by them. *)
Record journal_wf (l : DisposableList) : Prop := {
  jw_sn : (0 <= dl_sn l)%Z;
  jw_sorted : bt_sorted (dl_map l);
  jw_below : ∀ t, t ∈ dl_tokens l → (0 < t <= dl_sn l)%Z;
}.

Lemma DisposableList_new_wf : journal_wf DisposableList_new.
Proof. split; simpl; [done|constructor|set_solver]. Qed.

Lemma dl_push_spec l c :
  journal_wf l → (dl_sn l < u64_max)%Z →
  dl_push l c = ((dl_sn l + 1)%Z,
                 {| dl_sn := dl_sn l + 1; dl_map := dl_map l ++ [((dl_sn l + 1)%Z, c)] |}) ∧
  journal_wf (dl_push l c).2.
Proof.
  intros [Hsn Hs Hb] Hlt. unfold dl_push. rewrite wrapping_succ_small by lia.
  assert (∀ k', k' ∈ bt_keys (dl_map l) → klt k' (dl_sn l + 1)%Z = true) as Hlast.
  { intros k Hk. apply Hb in Hk. simpl. apply Z.ltb_lt. lia. }
  split; [by rewrite bt_insert_last|]. split; simpl; [lia|by apply bt_insert_sorted|].
  intros t Ht. unfold dl_tokens in *. simpl in Ht. apply bt_keys_insert in Ht as [->|Ht]; [lia|].
  apply Hb in Ht. lia.
Qed.

Lemma dl_remove_wf l t : journal_wf l → journal_wf (dl_remove l t).2.
Proof.
  intros [Hsn Hs Hb]. split; simpl; [done|by apply bt_remove_sorted|].
  intros k Hk. apply Hb. by eapply bt_keys_remove_subset.
Qed.

Lemma dl_remove_once l t : journal_wf l → (dl_remove (dl_remove l t).2 t).1 = None.
Proof. intros [_ Hs _]. simpl. rewrite bt_lookup_remove by done. by rewrite decide_True. Qed.

Lemma dl_remove_other l t t' :
  journal_wf l → t ≠ t' → bt_lookup (dl_map (dl_remove l t).2) t' = bt_lookup (dl_map l) t'.
Proof. intros [_ Hs _] Ht. simpl. rewrite bt_lookup_remove by done. by rewrite decide_False. Qed.

#[export] Hint Resolve DisposableList_new_wf dl_remove_wf : cordis.

(** A sequence of commits: the tokens issued and the journal. *)
Fixpoint push_all (l : DisposableList) (cs : list Cleanup) : list Z * DisposableList :=
  match cs with
  | [] => ([], l)
  | c :: cs => let '(t, l) := dl_push l c in
               let '(ts, l) := push_all l cs in (t :: ts, l)
  end.

(** The claims a drain makes: every token of [ts] in turn. *)
Fixpoint claim_all (l : DisposableList) (ts : list Z) : list Cleanup * DisposableList :=
  match ts with
  | [] => ([], l)
  | t :: ts =>
      match dl_remove l t with
      | (None, l) => claim_all l ts
      | (Some c, l) => let '(cs, l) := claim_all l ts in (c :: cs, l)
      end
  end.

Lemma push_all_spec l cs :
  journal_wf l → (dl_sn l + Z.of_nat (length cs) <= u64_max)%Z →
  ∃ ts, push_all l cs =
      (ts, {| dl_sn := dl_sn l + Z.of_nat (length cs); dl_map := dl_map l ++ zip ts cs |}) ∧
    length ts = length cs ∧ journal_wf (push_all l cs).2.
Proof.
  revert l. induction cs as [|c cs IH]; intros l Hwf Hb; cbn [push_all length] in *.
  { exists []. rewrite app_nil_r, Z.add_0_r. by destruct l. }
  destruct (dl_push_spec l c Hwf ltac:(lia)) as [Hp Hwf1].
  rewrite Hp in *. cbn [snd] in Hwf1.
  destruct (IH _ Hwf1) as (ts & Hts & Hlen & Hwf2); [simpl; lia|].
  rewrite Hts in *. cbn [snd] in *. exists ((dl_sn l + 1)%Z :: ts).
  assert ({| dl_sn := dl_sn l + 1 + Z.of_nat (length cs);
             dl_map := (dl_map l ++ [((dl_sn l + 1)%Z, c)]) ++ zip ts cs |} =
          {| dl_sn := dl_sn l + Z.of_nat (S (length cs));
             dl_map := dl_map l ++ zip ((dl_sn l + 1)%Z :: ts) (c :: cs) |}) as <-.
  { f_equal; [lia|]. by rewrite <- app_assoc. }
  split_and!; [done|simpl; lia|done].
Qed.

Lemma claim_all_wf l ts : journal_wf l → journal_wf (claim_all l ts).2.
Proof.
  revert l. induction ts as [|t ts IH]; intros l Hwf; [done|].
  cbn [claim_all]. pose proof (dl_remove_wf l t Hwf) as Hwf1.
  destruct (dl_remove l t) as [[c|] l1]; simpl in Hwf1; [|auto].
  specialize (IH _ Hwf1). by destruct (claim_all l1 ts).
Qed.

Lemma claim_all_claims l ts :
  journal_wf l → NoDup ts → (claim_all l ts).1 = omap (bt_lookup (dl_map l)) ts.
Proof.
  revert l. induction ts as [|t ts IH]; intros l Hwf Hnd; [done|].
  apply NoDup_cons in Hnd as [Ht Hnd]. pose proof (dl_remove_wf l t Hwf) as Hwf1.
  specialize (IH _ Hwf1 Hnd).
  assert (omap (bt_lookup (dl_map (dl_remove l t).2)) ts = omap (bt_lookup (dl_map l)) ts) as Hext.
  { apply omap_ext_in. intros k Hk. apply dl_remove_other; [done|]. set_solver. }
  rewrite Hext in IH. clear Hext. csimpl. unfold dl_remove in *. simpl in *.
  destruct (bt_lookup (dl_map l) t) as [c|]; simpl; [|done].
  destruct (claim_all _ ts) as [cs l2] eqn:E; simpl in *. by rewrite IH.
Qed.

Lemma claim_all_sn l ts : dl_sn (claim_all l ts).2 = dl_sn l.
Proof.
  revert l. induction ts as [|t ts IH]; intros l; [done|]. cbn [claim_all]. unfold dl_remove.
  specialize (IH {| dl_sn := dl_sn l; dl_map := bt_remove (dl_map l) t |}). simpl in IH.
  destruct (bt_lookup (dl_map l) t); [|done]. destruct (claim_all _ ts); done.
Qed.

Lemma claim_all_keys l ts k :
  journal_wf l → k ∈ dl_tokens (claim_all l ts).2 → k ∈ dl_tokens l ∧ k ∉ ts.
Proof.
  revert l. induction ts as [|t ts IH]; intros l Hwf; [set_solver|].
  intros Hk. pose proof (dl_remove_wf l t Hwf) as Hwf1.
  assert (k ∈ dl_tokens (claim_all (dl_remove l t).2 ts).2) as Hk1.
  { revert Hk. cbn [claim_all]. unfold dl_remove. simpl.
    destruct (bt_lookup (dl_map l) t); [|done]. by destruct (claim_all _ ts). }
  apply IH in Hk1 as [Hk1 Hn]; [|done].
  assert (k ≠ t) as Hkt.
  { intros ->. pose proof (dl_remove_once l t Hwf) as H1. by apply bt_lookup_None in H1. }
  split; [by apply (bt_keys_remove_subset (dl_map l) t)|set_solver].
Qed.

Lemma claim_all_empties l : journal_wf l →
  (claim_all l (rev (dl_tokens l))).2 = {| dl_sn := dl_sn l; dl_map := [] |}.
Proof.
  intros Hwf. pose proof (claim_all_sn l (rev (dl_tokens l))) as Hsn.
  pose proof (λ k, claim_all_keys l (rev (dl_tokens l)) k Hwf) as Hk.
  destruct ((claim_all l (rev (dl_tokens l))).2) as [sn m]. simpl in *.
  subst sn. f_equal. destruct m as [|[k c] m]; [done|].
  destruct (Hk k) as [Hin Hn]; [unfold dl_tokens; set_solver|]. exfalso. apply Hn.
  apply list_elem_of_In. rewrite <- in_rev. by apply list_elem_of_In.
Qed.

Lemma lookup_zip_all (ts : list Z) (cs : list Cleanup) :
  NoDup ts → length ts = length cs → omap (bt_lookup (zip ts cs)) ts = cs.
Proof.
  revert cs. induction ts as [|t ts IH]; intros [|c cs] Hnd Hlen; simplify_eq/=; [done|].
  apply NoDup_cons in Hnd as [Ht Hnd]. csimpl. rewrite decide_True by done. f_equal.
  etrans; [|apply (IH cs); (done || lia)]. apply omap_ext_in. intros k Hk.
  simpl. rewrite decide_False; [done|]. set_solver.
Qed.

Lemma lookup_zip_but_one (ts : list Z) (cs : list Cleanup) t i :
  NoDup ts → length ts = length cs → ts !! i = Some t →
  omap (λ k, if decide (t = k) then None else bt_lookup (zip ts cs) k) ts = delete i cs.
Proof.
  revert cs i. induction ts as [|t' ts IH]; intros [|c cs] [|i] Hnd Hlen Hi; simplify_eq/=.
  - apply NoDup_cons in Hnd as [Ht Hnd]. csimpl. rewrite decide_True by done.
    etrans; [|apply (lookup_zip_all ts cs); (done || lia)]. apply omap_ext_in. intros k Hk.
    rewrite !decide_False by set_solver. done.
  - apply NoDup_cons in Hnd as [Ht Hnd]. csimpl. apply list_elem_of_lookup_2 in Hi as Hin.
    rewrite decide_False by set_solver. rewrite decide_True by done. f_equal.
    etrans; [|apply (IH cs i); (done || lia)]. apply omap_ext_in. intros k Hk.
    case_decide; [done|]. rewrite decide_False by set_solver. done.
Qed.

(** * Properties *)

(** Generation drains are LIFO and complete: claiming the snapshot of tokens
    in reverse yields every committed cleanup exactly once, in exactly the reverse
    of the commit order, and leaves the journal empty; a token claimed early by
    manual control yields its own cleanup, is skipped by the drain, and changes
    nothing for the others. *)
Theorem drain_is_reverse_commit_order (cs : list Cleanup)
    (Hroom : (Z.of_nat (length cs) <= u64_max)%Z) :
  let '(ts, l) := push_all DisposableList_new cs in
  dl_tokens l = ts ∧
  claim_all l (rev (dl_tokens l)) = (rev cs, {| dl_sn := dl_sn l; dl_map := [] |}) ∧
  ∀ t i, ts !! i = Some t →
    (dl_remove l t).1 = cs !! i ∧
    (claim_all (dl_remove l t).2 (rev ts)).1 = rev (delete i cs).
Proof.
  destruct (push_all_spec DisposableList_new cs DisposableList_new_wf Hroom) as (ts & Hts & Hlen & Hwf).
  rewrite Hts in *. simpl in Hwf.
  set (l := {| dl_sn := dl_sn DisposableList_new + Z.of_nat (length cs);
               dl_map := dl_map DisposableList_new ++ zip ts cs |}) in *.
  assert (dl_tokens l = ts) as Hk by (apply fst_zip; lia).
  assert (NoDup ts) as Hnd by (rewrite <- Hk; apply bt_sorted_nodup, Hwf).
  assert (NoDup (rev ts)) as Hnd' by (apply NoDup_ListNoDup, List.NoDup_rev; by apply NoDup_ListNoDup).
  split; [done|]. split.
  - apply injective_projections; [|by apply claim_all_empties]. rewrite Hk.
    rewrite claim_all_claims, omap_rev by done. simpl. by rewrite lookup_zip_all.
  - intros t i Hi. pose proof (lookup_zip_but_one ts cs t i Hnd Hlen Hi) as Hone. split.
    + simpl. clear -Hnd Hlen Hi. revert cs i Hlen Hi.
      induction ts as [|t' ts IH]; intros [|c cs] [|i] Hlen Hi; simplify_eq/=.
      * by rewrite decide_True.
      * apply NoDup_cons in Hnd as [Ht Hnd]. apply list_elem_of_lookup_2 in Hi as Hin.
        rewrite decide_False by set_solver. eauto.
    + rewrite claim_all_claims by auto with cordis.
      rewrite omap_rev. f_equal. rewrite <- Hone.
      apply omap_ext_in. intros k _. simpl. by apply bt_lookup_remove, Hwf.
Qed.

Example drain_is_reverse_commit_order_witness :
  let cs := [sync_cleanup (CleanUser 1); sync_cleanup (CleanUser 2); sync_cleanup (CleanUser 3)] in
  (claim_all (push_all DisposableList_new cs).2 [3; 2; 1]%Z).1 = rev cs.
Proof.
  intros cs. pose proof (drain_is_reverse_commit_order cs ltac:(vm_compute; discriminate)) as H.
  destruct (push_all DisposableList_new cs) as [ts l] eqn:E. destruct H as (_ & H & _).
  vm_compute in E. injection E as <- <-. exact (f_equal fst H).
Defined.
