(* ===== verification/Barriers.v ===== *)
(** The barriers of crates/cordis-core/src/fiber/mod.rs: the latches a task waits on after
    it enabled its notification and before it looks ([DrainCleanup], [dispose_done]), the
    execution of one claimed cleanup with the drain that awaits it, and the task of
    [Context::run] with the cleanup that joins it.

    The two sides of a barrier are interleaved step by step: every lock, atomic access,
    notification and await is a step of its own. *)
From S2P Require Import Prelude Contained Journal.

(** * Waiting after enabling *)

(** Where a waiter is in its loop; [woken] says that its notification has fired. *)
Inductive Waiting := Arming | Armed (woken : bool) | Parked (woken : bool) | Passed.

Definition notify_one (w : Waiting) : Waiting :=
  match w with Armed _ => Armed true | Parked _ => Parked true | Arming | Passed => w end.

(** One step of the loop, [ready] being what the look at the shared state answers. *)
Definition wait_step (ready : bool) (w : Waiting) : option Waiting :=
  match w with
  | Arming => Some (Armed false)
  | Armed woken => Some (if ready then Passed else Parked woken)
  | Parked true => Some Arming
  | Parked false | Passed => None
  end.

Fixpoint wait_steps (fuel : nat) (ready : bool) (w : Waiting) : Waiting :=
  match fuel with
  | 0 => w
  | S fuel => match wait_step ready w with Some w => wait_steps fuel ready w | None => w end
  end.

(** Once the state is ready and the notification sent, three steps are enough. *)
Lemma wait_steps_pass w : w ≠ Parked false → wait_steps 3 true w = Passed.
Proof. by destruct w as [|[]|[]|]. Qed.

(** * Latches *)

(** [lt_notified] is how far the owner has come: it has stored, then notified. *)
(* @src crates/cordis-core/src/fiber/mod.rs 420-433 DrainCleanup *)
Record Latch := { lt_completed : bool; lt_notified : bool; lt_waiters : list Waiting }.

Definition latch_new (waiters : nat) : Latch := {| lt_completed := false; lt_notified := false; lt_waiters := replicate waiters Arming |}.

(* @src crates/cordis-core/src/fiber/mod.rs 435-445 DrainCleanup::wait *)
Definition DrainCleanup_wait (i : nat) (l : Latch) : option Latch :=
  w ← lt_waiters l !! i; w ← wait_step (lt_completed l) w;
  Some {| lt_completed := lt_completed l; lt_notified := lt_notified l; lt_waiters := <[i := w]> (lt_waiters l) |}.

(** The owner is dropped in two steps. *)
(* @src crates/cordis-core/src/fiber/mod.rs 448-455 DrainCleanupOwner::drop *)
Definition DrainCleanupOwner_drop (l : Latch) : option Latch :=
  if negb (lt_completed l)
  then Some {| lt_completed := true; lt_notified := lt_notified l; lt_waiters := lt_waiters l |}
  else if negb (lt_notified l)
  then Some {| lt_completed := true; lt_notified := true; lt_waiters := notify_one <$> lt_waiters l |}
  else None.

(* @src crates/cordis-core/src/fiber/mod.rs 1064-1074 Fiber::wait_dispose_complete *)
Definition wait_dispose_complete (i : nat) (l : Latch) : option Latch := DrainCleanup_wait i l.

(** The two steps of a publication; a second one only notifies again. *)
(* @src crates/cordis-core/src/fiber/mod.rs 1076-1079 Fiber::publish_dispose_complete *)
Definition publish_dispose_complete (l : Latch) : Latch :=
  {| lt_completed := true; lt_notified := true; lt_waiters := notify_one <$> lt_waiters l |}.

(** No waiter passed before the store, and none is parked, unwoken, after the notification. *)
Definition latch_ok (l : Latch) : Prop :=
  (lt_notified l = true → lt_completed l = true) ∧
  (∀ i w, lt_waiters l !! i = Some w → (w = Passed → lt_completed l = true) ∧ (w = Parked false → lt_notified l = false)).

(** A waiter armed before the store may look after it; it must not park after the notification. *)
Lemma wait_ok i l l' : latch_ok l → DrainCleanup_wait i l = Some l' → latch_ok l'.
Proof.
  intros [Hn Hw] Hs. unfold DrainCleanup_wait in Hs. destruct (lt_waiters l !! i) as [w|] eqn:Hi; [|done]. cbn in Hs.
  destruct (wait_step (lt_completed l) w) as [w'|] eqn:Hst; [|done]. cbn in Hs. injection Hs as <-. split; [done|].
  intros j v Hj. cbn in *. destruct (decide (i = j)) as [->|Hne]; [|rewrite list_lookup_insert_ne in Hj by done; eauto].
  rewrite list_lookup_insert_eq in Hj by (by eapply lookup_lt_Some). injection Hj as <-.
  destruct (lt_completed l), (lt_notified l), w as [|[]|[]|]; cbn in Hst; simplify_eq; split; try done; naive_solver.
Qed.

Lemma notified_ok ws l : latch_ok {| lt_completed := true; lt_notified := l; lt_waiters := notify_one <$> ws |}.
Proof.
  split; [done|]. intros i w Hi. cbn in *. apply list_lookup_fmap_Some in Hi as (v & -> & Hv). by destruct v.
Qed.

Lemma owner_drop_ok l l' : latch_ok l → DrainCleanupOwner_drop l = Some l' → latch_ok l'.
Proof.
  intros [Hn Hw]. unfold DrainCleanupOwner_drop. destruct (lt_completed l) eqn:Hc, (lt_notified l) eqn:Hl; cbn; intros [= <-];
    try apply notified_ok; split; cbn; try done; intros i w Hi; destruct (Hw _ _ Hi); rewrite ?Hl in *; split; naive_solver.
Qed.

Lemma publish_is_two_steps l :
  lt_completed l = false → lt_notified l = false →
  DrainCleanupOwner_drop l ≫= DrainCleanupOwner_drop = Some (publish_dispose_complete l).
Proof. destruct l. cbn. by intros -> ->. Qed.

Lemma latch_new_ok n : latch_ok (latch_new n).
Proof. split; [done|]. cbn. intros i w Hi. apply lookup_replicate in Hi as [-> _]. done. Qed.

(** After the notification every waiter passes, by its own three steps. *)
Lemma latch_releases l i w :
  latch_ok l → lt_notified l = true → lt_waiters l !! i = Some w → wait_steps 3 (lt_completed l) w = Passed.
Proof.
  intros [Hn Hw] Hl Hi. rewrite (Hn Hl). apply wait_steps_pass. intros ->. destruct (Hw _ _ Hi) as [_ H]. rewrite H in Hl by done. done.
Qed.

(** * One claimed cleanup *)

(* @src crates/cordis-core/src/effect.rs 111-122 report_cleanup_failure *)
Definition report_cleanup_failure (failure : EffectFailure) : string :=
  String.append "cordis: effect cleanup " (effect_failure_display failure).

Definition report_outcome (outcome : option EffectFailure) : list string :=
  match outcome with Some failure => [report_cleanup_failure failure] | None => [] end.

(** The detached work: executing, about to send, or ended, with what it had to send unless
    the framework task unwound. *)
Inductive WorkPhase := Executing | Executed (outcome : option EffectFailure) | WorkEnded (outcome : option (option EffectFailure)).

(** The one-shot channel of the outcome. *)
Inductive OutcomeRelay := RelayOpen | RelayHolds (outcome : option EffectFailure) | RelayClosed.

(** [cr_manual] tells the claim of [EffectRegistration::dispose] from that of a drain;
    [cr_waiting] is whether the claimant still has its receiver; only a drain has the
    latch. *)
Record CleanupRun := {
  cr_manual : bool;
  cr_work : WorkPhase;
  cr_relay : OutcomeRelay;
  cr_waiting : bool;
  cr_answer : option (result bool EffectFailure);
  cr_latch : Latch;
  cr_logged : list string;
}.

(** The claim has been won: the channel and, for a drain, the latch are new. *)
(* @src crates/cordis-core/src/fiber/mod.rs 765-778 Fiber::run_cleanup_contained *)
Definition run_new (manual : bool) (waiters : nat) : CleanupRun :=
  {| cr_manual := manual; cr_work := Executing; cr_relay := RelayOpen; cr_waiting := true; cr_answer := None;
     cr_latch := latch_new waiters; cr_logged := [] |}.

(** The work: one step of the detached future. *)
(* @src crates/cordis-core/src/fiber/mod.rs 779-793 Fiber::run_cleanup_contained *)
Definition work_step (ending : Ending CleanupEnding) (r : CleanupRun) : option CleanupRun :=
  match cr_work r with
  | Executing =>
      match ending with
      | Returned ending =>
          Some {| cr_manual := cr_manual r; cr_work := Executed (execute_cleanup ending); cr_relay := cr_relay r;
                  cr_waiting := cr_waiting r; cr_answer := cr_answer r; cr_latch := cr_latch r; cr_logged := cr_logged r |}
      | Unwound _ =>
          Some {| cr_manual := cr_manual r; cr_work := WorkEnded None; cr_relay := RelayClosed;
                  cr_waiting := cr_waiting r; cr_answer := cr_answer r; cr_latch := cr_latch r; cr_logged := cr_logged r |}
      end
  | Executed outcome =>
      if cr_waiting r
      then Some {| cr_manual := cr_manual r; cr_work := WorkEnded (Some outcome); cr_relay := RelayHolds outcome;
                   cr_waiting := true; cr_answer := cr_answer r; cr_latch := cr_latch r; cr_logged := cr_logged r |}
      else Some {| cr_manual := cr_manual r; cr_work := WorkEnded (Some outcome); cr_relay := cr_relay r;
                   cr_waiting := false; cr_answer := cr_answer r; cr_latch := cr_latch r;
                   cr_logged := cr_logged r ++ report_outcome outcome |}
  | WorkEnded _ =>
      if cr_manual r then None
      else l ← DrainCleanupOwner_drop (cr_latch r);
           Some {| cr_manual := false; cr_work := cr_work r; cr_relay := cr_relay r; cr_waiting := cr_waiting r;
                   cr_answer := cr_answer r; cr_latch := l; cr_logged := cr_logged r |}
  end.

(** The claimant has received: it no longer waits. *)
Definition received (answer : option (result bool EffectFailure)) (logged : list string) (r : CleanupRun) : CleanupRun :=
  {| cr_manual := cr_manual r; cr_work := cr_work r; cr_relay := RelayClosed; cr_waiting := false; cr_answer := answer;
     cr_latch := cr_latch r; cr_logged := cr_logged r ++ logged |}.

(* @src crates/cordis-core/src/effect.rs 394-401 EffectRegistration::dispose *)
Definition dispose_answer (outcome : option (option EffectFailure)) : result bool EffectFailure :=
  match outcome with Some (Some failure) => Err failure | Some None | None => Ok true end.

(** The end of the wait of a drain, or of a manual disposal. *)
(* @src crates/cordis-core/src/fiber/mod.rs 803-808 Fiber::run_cleanup_contained *)
Definition receive (r : CleanupRun) : option CleanupRun :=
  if cr_waiting r
  then match cr_relay r with
       | RelayOpen => None
       | RelayHolds outcome =>
           Some (if cr_manual r then received (Some (dispose_answer (Some outcome))) [] r
                 else received None (report_outcome outcome) r)
       | RelayClosed => Some (if cr_manual r then received (Some (dispose_answer None)) [] r else received None [] r)
       end
  else None.

Definition abandon (r : CleanupRun) : option CleanupRun :=
  if cr_waiting r
  then Some {| cr_manual := cr_manual r; cr_work := cr_work r; cr_relay := cr_relay r; cr_waiting := false;
               cr_answer := cr_answer r; cr_latch := cr_latch r; cr_logged := cr_logged r |}
  else None.

Definition with_latch (l : Latch) (r : CleanupRun) : CleanupRun :=
  {| cr_manual := cr_manual r; cr_work := cr_work r; cr_relay := cr_relay r; cr_waiting := cr_waiting r;
     cr_answer := cr_answer r; cr_latch := l; cr_logged := cr_logged r |}.

(** A later drain waits for the latch before it claims anything. *)
(* @src crates/cordis-core/src/fiber/mod.rs 744-749 Fiber::wait_claimed_drain_cleanup *)
Definition wait_claimed_drain_cleanup (i : nat) (r : CleanupRun) : option CleanupRun :=
  l ← DrainCleanup_wait i (cr_latch r); Some (with_latch l r).

Inductive RunEvent := RunWork (ending : Ending CleanupEnding) | RunReceive | RunAbandon | RunWaiter (i : nat).

Definition run_step (ev : RunEvent) : CleanupRun → option CleanupRun :=
  match ev with
  | RunWork ending => work_step ending
  | RunReceive => receive
  | RunAbandon => abandon
  | RunWaiter i => wait_claimed_drain_cleanup i
  end.

Fixpoint run_events (evs : list RunEvent) (r : CleanupRun) : option CleanupRun :=
  match evs with [] => Some r | ev :: evs => r ← run_step ev r; run_events evs r end.

(** The outcome reached one side: the caller of a manual disposal, or the log. *)
Definition delivered (outcome : option EffectFailure) (r : CleanupRun) : Prop :=
  cr_waiting r = false ∧
  (cr_answer r = None ∧ cr_logged r = report_outcome outcome ∨
   cr_manual r = true ∧ cr_answer r = Some (dispose_answer (Some outcome)) ∧ cr_logged r = []).

(** Nobody has been told of a failure. *)
Definition silent (r : CleanupRun) : Prop :=
  cr_logged r = [] ∧ (cr_answer r = None ∨ cr_answer r = Some (Ok true)).

Definition relay_ok (r : CleanupRun) : Prop :=
  match cr_work r with
  | Executing | Executed _ => cr_relay r = RelayOpen ∧ cr_answer r = None ∧ cr_logged r = []
  | WorkEnded None => cr_relay r = RelayClosed ∧ silent r
  | WorkEnded (Some outcome) =>
      cr_relay r = RelayHolds outcome ∧ cr_answer r = None ∧ cr_logged r = [] ∨ delivered outcome r
  end.

Definition run_ok (r : CleanupRun) : Prop :=
  latch_ok (cr_latch r) ∧ (lt_completed (cr_latch r) = true → ∃ outcome, cr_work r = WorkEnded outcome) ∧ relay_ok r.

Lemma run_new_ok manual n : run_ok (run_new manual n).
Proof. split_and!; [apply latch_new_ok|done|done]. Qed.

Lemma work_step_ok ending r r' : run_ok r → work_step ending r = Some r' → run_ok r'.
Proof.
  destruct r as [manual work relay waiting answer l logged]. intros (Hl & Hc & Hr). unfold work_step, relay_ok, silent in *. cbn in *.
  destruct work as [|o|oo].
  - destruct Hr as (-> & -> & ->). destruct ending; intros [= <-]; unfold run_ok, relay_ok, silent; cbn; naive_solver.
  - destruct Hr as (-> & -> & ->). destruct waiting; intros [= <-]; unfold run_ok, relay_ok, delivered; cbn; naive_solver.
  - destruct manual; [done|]. destruct (DrainCleanupOwner_drop l) as [l'|] eqn:Hd; cbn; intros [= <-].
    split_and!; [by eapply owner_drop_ok|by eexists|done].
Qed.

Lemma receive_ok r r' : run_ok r → receive r = Some r' → run_ok r' ∧ ∀ o, cr_relay r = RelayHolds o → delivered o r'.
Proof.
  destruct r as [manual work relay waiting answer l logged]. intros (Hl & Hc & Hr). unfold receive, relay_ok, silent in *. cbn in *.
  destruct waiting; [|done]. destruct relay as [|o|]; [done| |].
  - destruct work as [|?|[o'|]]; [naive_solver..| |naive_solver]. destruct Hr as [([= <-] & -> & ->)|[? _]]; [|done].
    assert (delivered o (if manual then received (Some (dispose_answer (Some o))) [] (Build_CleanupRun manual (WorkEnded (Some o)) (RelayHolds o) true None l [])
                         else received None (report_outcome o) (Build_CleanupRun manual (WorkEnded (Some o)) (RelayHolds o) true None l []))) as Hd.
    { destruct manual; (split; [done|]); [by right|by left]. }
    intros [= <-]. split; [|by intros ? [= <-]]. split_and!; [by destruct manual|destruct manual; by eexists|]. unfold relay_ok. destruct manual; by right.
  - destruct work as [|?|[o'|]]; [naive_solver..| |].
    + destruct Hr as [[? _]|[? _]]; done.
    + destruct Hr as (_ & -> & _). intros [= <-]. split; [|done]. split_and!; [by destruct manual|destruct manual; by eexists|].
      unfold relay_ok, silent. destruct manual; cbn; naive_solver.
Qed.

Lemma abandon_run_ok r r' : run_ok r → abandon r = Some r' → run_ok r'.
Proof.
  destruct r as [manual work relay waiting answer l logged]. intros (Hl & Hc & Hr). unfold abandon. cbn. destruct waiting; [|done].
  intros [= <-]. split_and!; [done|done|]. unfold relay_ok in *. cbn in *. destruct work as [|?|[o|]]; try done.
  destruct Hr as [Hr|[? _]]; [by left|done].
Qed.

Lemma run_step_ok ev r r' : run_ok r → run_step ev r = Some r' → run_ok r'.
Proof.
  intros Hok. destruct ev as [e| | |i]; cbn [run_step].
  - by apply work_step_ok.
  - intros H. by eapply receive_ok in H as [? _].
  - by apply abandon_run_ok.
  - unfold wait_claimed_drain_cleanup. destruct (DrainCleanup_wait i (cr_latch r)) as [l|] eqn:Hw; cbn; intros [= <-].
    destruct Hok as (Hl & Hc & Hr). split_and!; [by eapply wait_ok| |done]. cbn. intros H. apply Hc.
    unfold DrainCleanup_wait in Hw. destruct (lt_waiters (cr_latch r) !! i) as [w|]; [|done]. cbn in Hw.
    destruct (wait_step _ w); [|done]. cbn in Hw. by injection Hw as <-.
Qed.

Lemma run_events_ok evs r r' : run_ok r → run_events evs r = Some r' → run_ok r'.
Proof.
  revert r. induction evs as [|ev evs IH]; intros r Hok; cbn [run_events]; [by intros [= <-]|].
  destruct (run_step ev r) as [r1|] eqn:Hs; [|done]. cbn. apply IH. by eapply run_step_ok.
Qed.

Lemma run_events_app evs1 evs2 r r1 : run_events evs1 r = Some r1 → run_events (evs1 ++ evs2) r = run_events evs2 r1.
Proof.
  revert r. induction evs1 as [|ev evs1 IH]; intros r; cbn; [by intros [= ->]|]. destruct (run_step ev r); [apply IH|done].
Qed.

(** * The claimed cleanup: properties *)

(** One step of a waiter, in the run. *)
Lemma waiter_step i w w' r :
  lt_waiters (cr_latch r) !! i = Some w → wait_step (lt_completed (cr_latch r)) w = Some w' →
  ∃ r', run_step (RunWaiter i) r = Some r' ∧ lt_waiters (cr_latch r') !! i = Some w' ∧ lt_completed (cr_latch r') = lt_completed (cr_latch r).
Proof.
  intros Hi Hs. cbn [run_step]. unfold wait_claimed_drain_cleanup, DrainCleanup_wait. rewrite Hi. cbn. rewrite Hs. cbn.
  eexists. split_and!; [done| |done]. cbn. apply list_lookup_insert_eq. by eapply lookup_lt_Some.
Qed.

(** Once the owner has stored and notified, the waiter passes within three of its steps. *)
Lemma waiter_passes i w n r :
  lt_waiters (cr_latch r) !! i = Some w → wait_steps n (lt_completed (cr_latch r)) w = Passed →
  ∃ k r', k ≤ n ∧ run_events (replicate k (RunWaiter i)) r = Some r' ∧ lt_waiters (cr_latch r') !! i = Some Passed.
Proof.
  revert w r. induction n as [|n IH]; intros w r Hi Hw; cbn [wait_steps] in Hw; [subst w; exists 0, r; by split_and!|].
  destruct (wait_step (lt_completed (cr_latch r)) w) as [w'|] eqn:Hs; [|subst w; exists 0, r; split_and!; [lia|done..]].
  destruct (waiter_step i w w' r Hi Hs) as (r1 & Hr1 & Hi1 & Hc). rewrite <- Hc in Hw.
  destruct (IH w' r1 Hi1 Hw) as (k & r' & Hk & Hr' & Hp). exists (S k), r'. split_and!; [lia| |done]. cbn [replicate run_events]. by rewrite Hr1.
Qed.

(** The end of a drain's work: the latch is stored and notified in at most two steps. *)
Lemma owner_finishes e outcome r :
  cr_work r = WorkEnded outcome → cr_manual r = false → lt_completed (cr_latch r) = true ∨ lt_notified (cr_latch r) = false →
  ∃ k r', k ≤ 2 ∧ run_events (replicate k (RunWork e)) r = Some r' ∧ lt_notified (cr_latch r') = true ∧
    length (lt_waiters (cr_latch r')) = length (lt_waiters (cr_latch r)).
Proof.
  destruct r as [manual work relay waiting answer [c n ws] logged]. cbn. intros -> -> H.
  destruct c, n; [exists 0|exists 1|naive_solver|exists 2]; eexists; (split_and!; [lia|reflexivity|done|]); cbn; by rewrite ?length_fmap.
Qed.

(** The claimant and the number of later drains never change. *)
Lemma run_step_shape ev r r' :
  run_step ev r = Some r' → cr_manual r' = cr_manual r ∧ length (lt_waiters (cr_latch r')) = length (lt_waiters (cr_latch r)).
Proof.
  destruct r as [manual work relay waiting answer [c n ws] logged], ev as [e| | |i]; cbn [run_step].
  - unfold work_step. cbn. destruct work as [|o|o], e, waiting, manual, c, n; intros [= <-]; cbn; by rewrite ?length_fmap.
  - unfold receive. cbn. destruct waiting, relay, manual; by intros [= <-].
  - unfold abandon. cbn. destruct waiting; by intros [= <-].
  - unfold wait_claimed_drain_cleanup, DrainCleanup_wait. cbn. destruct (ws !! i); [|done]. cbn. destruct (wait_step _ _); [|done].
    cbn. intros [= <-]. cbn. by rewrite length_insert.
Qed.

Lemma run_events_shape evs r r' :
  run_events evs r = Some r' → cr_manual r' = cr_manual r ∧ length (lt_waiters (cr_latch r')) = length (lt_waiters (cr_latch r)).
Proof.
  revert r. induction evs as [|ev evs IH]; intros r; cbn [run_events]; [by intros [= <-]|].
  destruct (run_step ev r) as [r1|] eqn:Hs; [|done]. cbn. intros [-> ->]%IH. by eapply run_step_shape.
Qed.

Section runs.
Context (manual : bool) (waiters : nat) (evs : list RunEvent) (r : CleanupRun)
  (Hrun : run_events evs (run_new manual waiters) = Some r).

Lemma reached_run_ok : run_ok r.
Proof using All. by eapply run_events_ok, Hrun; apply run_new_ok. Qed.

(** [C14] A drain that was cancelled after it had claimed a cleanup is no excuse for the
    next one: a later drain gets past the latch only when the cleanup has run to its end,
    whatever the order of the stores, looks and notifications; and no wake-up is lost: once
    the cleanup has ended, at most two steps of its task and three of the later drain let
    that drain through. *)
Theorem claimed_cleanup_is_a_barrier :
  (∀ i, lt_waiters (cr_latch r) !! i = Some Passed → ∃ outcome, cr_work r = WorkEnded outcome) ∧
  (∀ i e outcome, manual = false → i < waiters → cr_work r = WorkEnded outcome →
   ∃ k k' r', k ≤ 2 ∧ k' ≤ 3 ∧ run_events (replicate k (RunWork e) ++ replicate k' (RunWaiter i)) r = Some r' ∧
     lt_waiters (cr_latch r') !! i = Some Passed).
Proof using All.
  pose proof reached_run_ok as (Hl & Hc & _). split; [intros i Hi; apply Hc; by eapply Hl|].
  intros i e outcome Hm Hi Hw.
  assert (cr_manual r = manual ∧ length (lt_waiters (cr_latch r)) = waiters) as [Hm' Hlen].
  { destruct (run_events_shape _ _ _ Hrun) as [-> ->]. cbn. by rewrite length_replicate. }
  destruct (owner_finishes e outcome r) as (k & r1 & Hk & Hr1 & Hn & Hlen1); [done|by rewrite Hm'| |].
  { destruct Hl as [Hl _]. destruct (lt_notified (cr_latch r)); [left; auto|by right]. }
  destruct (lookup_lt_is_Some_2 (lt_waiters (cr_latch r1)) i) as [w Hiw]; [lia|].
  assert (latch_ok (cr_latch r1)) as Hok by (by eapply run_events_ok, Hr1; apply reached_run_ok).
  destruct (waiter_passes i w 3 r1 Hiw (latch_releases _ _ _ Hok Hn Hiw)) as (k' & r' & Hk' & Hr' & Hp).
  exists k, k', r'. split_and!; [done..| |done]. by rewrite (run_events_app _ _ _ _ Hr1).
Qed.

(** The failure of a claimed cleanup is delivered at most once, to the caller of the
    manual disposal or to the log and never to both; when the work has ended it has been
    delivered, or it is in the channel, and then the claimant that still waits is told by
    its next poll. *)
Theorem cleanup_failure_delivered :
  match cr_work r with
  | WorkEnded (Some outcome) =>
      delivered outcome r ∨
      cr_relay r = RelayHolds outcome ∧ silent r ∧ (cr_waiting r = true → ∃ r', receive r = Some r' ∧ delivered outcome r')
  | Executing | Executed _ | WorkEnded None => silent r
  end.
Proof using All.
  pose proof reached_run_ok as Hok. pose proof Hok as (_ & _ & Hr). unfold relay_ok, silent in *. destruct (cr_work r) as [|o|[o|]]; [naive_solver..| |naive_solver].
  destruct Hr as [(Hh & Ha & Hl)|Hd]; [right|by left]. split_and!; [done|done|naive_solver|]. intros Hw.
  destruct (receive r) as [r'|] eqn:Hrec; [|unfold receive in Hrec; by rewrite Hw, Hh in Hrec].
  exists r'. split; [done|]. by eapply receive_ok.
Qed.
End runs.

(** An outcome in the channel of a claimant that has gone stays there. *)
Lemma unread_stays evs r r' outcome :
  cr_work r = WorkEnded (Some outcome) → cr_relay r = RelayHolds outcome → cr_waiting r = false → cr_answer r = None → cr_logged r = [] →
  run_events evs r = Some r' → silent r'.
Proof.
  revert r. induction evs as [|ev evs IH]; intros r Hw Hh Hg Ha Hl; cbn [run_events]; [intros [= <-]; split; [done|by left]|].
  destruct (run_step ev r) as [r1|] eqn:Hs; [|done]. cbn. destruct r as [manual work relay waiting answer l logged]. cbn in *. subst.
  destruct ev as [e| | |i]; cbn [run_step] in Hs; [|done|done|].
  - unfold work_step in Hs. cbn in Hs. destruct manual; [done|]. destruct (DrainCleanupOwner_drop l); [|done]. cbn in Hs. injection Hs as <-. by apply IH.
  - unfold wait_claimed_drain_cleanup in Hs. destruct (DrainCleanup_wait i _); [|done]. cbn in Hs. injection Hs as <-. by apply IH.
Qed.

(** The delivery is not exactly once: when the claimant goes away between the send
    and its next poll, the send has succeeded and the outcome is destroyed unread; a
    failure of the cleanup is then neither returned nor logged, whatever happens later. *)
Theorem unread_failure_is_lost (manual : bool) (waiters : nat) (ending : CleanupEnding) :
  ∃ r, run_events [RunWork (Returned ending); RunWork (Returned ending); RunAbandon] (run_new manual waiters) = Some r ∧
    cr_work r = WorkEnded (Some (execute_cleanup ending)) ∧ ∀ evs r', run_events evs r = Some r' → silent r'.
Proof.
  eexists. split; [reflexivity|]. split; [done|]. intros evs r'. by eapply unread_stays.
Qed.

(** * Context::run *)

(* @src crates/cordis-core/src/fiber/mod.rs 1377-1386 RunSlot *)
Inductive RunSlot := SlotPending | SlotRunning | SlotDone.

(* @src crates/cordis-core/src/effect.rs 295-305 TaskRegistrationError *)
Inductive TaskRegistrationError := InactiveContext | ExecutorUnavailable.

(** Where [run] is: it has checked, committed the cleanup, spawned the task and parked its
    handle, or it has answered. *)
Inductive RunnerAt := RunChecked | RunCommitted | RunSpawned | RunStored | RunAnswered (answer : result unit TaskRegistrationError).

Inductive TaskAt := NotSpawned | TaskRunning | TaskEnded (ending : JoinEnding).

(** The cleanup of the task: not claimed, in its loop, joining the task, or over. *)
Inductive JoinerAt := Unclaimed | Looking (w : Waiting) | Joining | Joined.

Record TaskRun := {
  tr_runner : RunnerAt;
  tr_committed : bool;
  tr_slot : RunSlot;
  tr_task : TaskAt;
  tr_joiner : JoinerAt;
  tr_reports : list string;
}.

(** The part of [run] before the registration: the admission and the executor. *)
(* @src crates/cordis-core/src/fiber/mod.rs 1299-1308 Context::run *)
Definition run_task (admitted executor : bool) : TaskRun :=
  {| tr_runner := if negb admitted then RunAnswered (Err InactiveContext)
                  else if negb executor then RunAnswered (Err ExecutorUnavailable) else RunChecked;
     tr_committed := false; tr_slot := SlotPending; tr_task := NotSpawned; tr_joiner := Unclaimed; tr_reports := [] |}.

(** The rest of it; [open] is the answer of the gated seam. *)
(* @src crates/cordis-core/src/fiber/mod.rs 1354-1375 Context::run *)
Definition runner_step (open : bool) (t : TaskRun) : option TaskRun :=
  let at_ r c s k j := Some {| tr_runner := r; tr_committed := c; tr_slot := s; tr_task := k; tr_joiner := j; tr_reports := tr_reports t |} in
  match tr_runner t with
  | RunChecked =>
      if open then at_ RunCommitted true (tr_slot t) (tr_task t) (tr_joiner t)
      else at_ (RunAnswered (Err InactiveContext)) false (tr_slot t) (tr_task t) (tr_joiner t)
  | RunCommitted => at_ RunSpawned (tr_committed t) (tr_slot t) TaskRunning (tr_joiner t)
  | RunSpawned => at_ RunStored (tr_committed t) SlotRunning (tr_task t) (tr_joiner t)
  | RunStored =>
      at_ (RunAnswered (Ok tt)) (tr_committed t) (tr_slot t) (tr_task t)
        (match tr_joiner t with Looking w => Looking (notify_one w) | j => j end)
  | RunAnswered _ => None
  end.

(** The look of the cleanup at the cell: whether it holds the handle, and what is left. *)
(* @src crates/cordis-core/src/fiber/mod.rs 1328-1340 Context::run *)
Definition take_slot (s : RunSlot) : bool * RunSlot :=
  match s with SlotRunning => (true, SlotDone) | SlotPending => (false, SlotPending) | SlotDone => (false, SlotDone) end.

(** One step of the claimed cleanup. *)
(* @src crates/cordis-core/src/fiber/mod.rs 1320-1350 Context::run *)
Definition joiner_step (t : TaskRun) : option TaskRun :=
  let at_ s j reports := Some {| tr_runner := tr_runner t; tr_committed := tr_committed t; tr_slot := s; tr_task := tr_task t;
                                 tr_joiner := j; tr_reports := reports |} in
  match tr_joiner t with
  | Looking (Armed woken) =>
      let '(taken, s) := take_slot (tr_slot t) in
      at_ s (if taken then Joining else Looking (Parked woken)) (tr_reports t)
  | Looking w => w ← wait_step false w; at_ (tr_slot t) (Looking w) (tr_reports t)
  | Joining =>
      match tr_task t with
      | TaskEnded e => at_ (tr_slot t) Joined (tr_reports t ++ option_list (contain_join "ctx.run task" e))
      | NotSpawned | TaskRunning => None
      end
  | Unclaimed | Joined => None
  end.

(** A drain claims the committed cleanup, once. *)
Definition claim_joiner (t : TaskRun) : option TaskRun :=
  match tr_joiner t with
  | Unclaimed =>
      if tr_committed t
      then Some {| tr_runner := tr_runner t; tr_committed := true; tr_slot := tr_slot t; tr_task := tr_task t;
                   tr_joiner := Looking Arming; tr_reports := tr_reports t |}
      else None
  | _ => None
  end.

Definition task_ends (e : JoinEnding) (t : TaskRun) : option TaskRun :=
  match tr_task t with
  | TaskRunning => Some {| tr_runner := tr_runner t; tr_committed := tr_committed t; tr_slot := tr_slot t; tr_task := TaskEnded e;
                           tr_joiner := tr_joiner t; tr_reports := tr_reports t |}
  | NotSpawned | TaskEnded _ => None
  end.

Inductive TaskEvent := TeRunner (open : bool) | TeClaim | TeJoiner | TeTask (ending : JoinEnding).

Definition task_step (ev : TaskEvent) : TaskRun → option TaskRun :=
  match ev with TeRunner open => runner_step open | TeClaim => claim_joiner | TeJoiner => joiner_step | TeTask e => task_ends e end.

Fixpoint task_events (evs : list TaskEvent) (t : TaskRun) : option TaskRun :=
  match evs with [] => Some t | ev :: evs => t ← task_step ev t; task_events evs t end.

(** The cleanup is in its loop at [w]. *)
Definition looking_ok (answered : bool) (w : Waiting) : Prop := w ≠ Passed ∧ (answered = true → w ≠ Parked false).

(** Before the handle is in the cell, the cleanup at most waits for it. *)
Definition before_park (j : JoinerAt) : Prop := j = Unclaimed ∨ ∃ w, j = Looking w ∧ looking_ok false w.

(** After it, the cleanup finds the handle, joins the task, and reports how it ended. *)
Definition after_park (answered : bool) (t : TaskRun) : Prop :=
  match tr_joiner t with
  | Unclaimed => tr_slot t = SlotRunning ∧ tr_reports t = []
  | Looking w => tr_slot t = SlotRunning ∧ looking_ok answered w ∧ tr_reports t = []
  | Joining => tr_reports t = []
  | Joined => ∃ e, tr_task t = TaskEnded e ∧ tr_reports t = option_list (contain_join "ctx.run task" e)
  end.

Definition task_ok (t : TaskRun) : Prop :=
  match tr_runner t with
  | RunChecked | RunAnswered (Err _) =>
      tr_committed t = false ∧ tr_task t = NotSpawned ∧ tr_joiner t = Unclaimed ∧ tr_slot t = SlotPending ∧ tr_reports t = []
  | RunCommitted => tr_committed t = true ∧ tr_task t = NotSpawned ∧ before_park (tr_joiner t) ∧ tr_slot t = SlotPending ∧ tr_reports t = []
  | RunSpawned => tr_committed t = true ∧ tr_task t ≠ NotSpawned ∧ before_park (tr_joiner t) ∧ tr_slot t = SlotPending ∧ tr_reports t = []
  | RunStored => tr_committed t = true ∧ tr_task t ≠ NotSpawned ∧ after_park false t
  | RunAnswered (Ok _) => tr_committed t = true ∧ tr_task t ≠ NotSpawned ∧ after_park true t
  end.

Lemma run_task_ok admitted executor : task_ok (run_task admitted executor).
Proof. by destruct admitted, executor. Qed.

Lemma notify_one_ok w b : looking_ok b w → looking_ok true (notify_one w).
Proof. unfold looking_ok. destruct w as [|[]|[]|]; cbn; naive_solver. Qed.

Lemma runner_step_ok open t t' : task_ok t → runner_step open t = Some t' → task_ok t'.
Proof.
  destruct t as [runner committed slot task joiner reports]. unfold runner_step, task_ok, before_park, after_park. cbn.
  destruct runner as [| | | |answer]; intros Hok Hs.
  - destruct open; injection Hs as <-; cbn; naive_solver.
  - injection Hs as <-. cbn. naive_solver.
  - destruct Hok as (-> & Ht & Hj & -> & ->). injection Hs as <-. cbn. split_and!; [done|done|]. by destruct Hj as [->|(w & -> & Hw)].
  - destruct Hok as (-> & Ht & Hj). injection Hs as <-. cbn. split_and!; [done|done|].
    destruct joiner; try done. destruct Hj as (? & Hw & ?). split_and!; [done|by eapply notify_one_ok|done].
  - done.
Qed.

Lemma claim_joiner_ok t t' : task_ok t → claim_joiner t = Some t' → task_ok t'.
Proof.
  destruct t as [runner committed slot task joiner reports]. unfold claim_joiner, task_ok, before_park, after_park. cbn.
  destruct joiner; [|done..]. destruct committed; [|done]. intros Hok [= <-]. cbn.
  destruct runner as [| | | |[]]; try naive_solver; destruct Hok as (? & ? & Hok); (split_and!; try done); try naive_solver.
  - right. by exists Arming.
  - right. by exists Arming.
Qed.

Lemma joiner_step_ok t t' : task_ok t → joiner_step t = Some t' → task_ok t'.
Proof.
  destruct t as [runner committed slot task joiner reports]. unfold joiner_step, task_ok, before_park, after_park. cbn.
  intros Hok Hs. destruct joiner as [|w| |]; [done| | |done].
  - destruct runner as [| | | |[]]; try (by destruct Hok as (_ & _ & ? & _)).
    all: destruct Hok as (-> & Ht & Hok).
    1,2: destruct Hok as ([?|(v & [= ->] & Hv)] & -> & ->); [done|]; destruct v as [|b|[]|]; cbn in Hs; simplify_eq; cbn;
      (split_and!; try done); right; eexists; (split; [done|]); by split.
    all: destruct Hok as (-> & [Hp Hn] & ->); destruct w as [|b|[]|]; cbn in Hs; simplify_eq; cbn; (split_and!; try done); by split.
  - destruct runner as [| | | |[]]; try (by destruct Hok as (_ & _ & ? & _)); try naive_solver;
      destruct Hok as (-> & Ht & ->); destruct task as [| |e]; try done; injection Hs as <-; cbn; (split_and!; try done); by exists e.
Qed.

Lemma task_ends_ok e t t' : task_ok t → task_ends e t = Some t' → task_ok t'.
Proof.
  destruct t as [runner committed slot task joiner reports]. unfold task_ends, task_ok, before_park, after_park. cbn.
  destruct task; [done| |done]. intros Hok [= <-]. cbn. destruct runner as [| | | |[]], joiner; naive_solver.
Qed.

Lemma task_events_ok evs t t' : task_ok t → task_events evs t = Some t' → task_ok t'.
Proof.
  revert t. induction evs as [|ev evs IH]; intros t Hok; cbn [task_events]; [by intros [= <-]|].
  destruct (task_step ev t) as [t1|] eqn:Hs; [|done]. cbn. apply IH. destruct ev; cbn [task_step] in Hs;
    eauto using runner_step_ok, claim_joiner_ok, joiner_step_ok, task_ends_ok.
Qed.

(** The cleanup alone gets from its loop to the end of the join. *)
Lemma joiner_finishes t e :
  task_ok t → tr_runner t = RunAnswered (Ok tt) → tr_task t = TaskEnded e → tr_joiner t ≠ Unclaimed →
  ∃ k t', k ≤ 4 ∧ task_events (replicate k TeJoiner) t = Some t' ∧ tr_joiner t' = Joined.
Proof.
  destruct t as [runner committed slot task joiner reports]. cbn. intros Hok -> -> Hj. unfold task_ok, after_park in Hok. cbn in Hok.
  destruct Hok as (_ & _ & Hok). destruct joiner as [|w| |]; [done| | |].
  - destruct Hok as (-> & [Hp Hn] & _). destruct w as [|b|[]|]; [exists 3|exists 2|exists 4|naive_solver|naive_solver];
      eexists; (split_and!; [lia|reflexivity|reflexivity]).
  - exists 1. eexists. split_and!; [lia|reflexivity|reflexivity].
  - exists 0. eexists. split_and!; [lia|reflexivity|reflexivity].
Qed.

Section tasks.
Context (admitted executor : bool) (evs : list TaskEvent) (t : TaskRun)
  (Hrun : task_events evs (run_task admitted executor) = Some t).

Lemma reached_task_ok : task_ok t.
Proof using All. by eapply task_events_ok, Hrun; apply run_task_ok. Qed.

(** [C15] A task started by [Context::run] belongs to the generation that started it.  A
    refused call starts nothing and commits nothing; a task runs only after the cleanup
    that joins it was committed; that cleanup is over only when the task has ended, and
    has then reported its panic, once; and it cannot hang on a missed wake-up: when the
    call has answered and the task has ended, at most four of its own steps finish the
    claimed cleanup, wherever it had been interleaved with the spawn. *)
Theorem run_task_is_joined :
  (∀ err, tr_runner t = RunAnswered (Err err) → tr_task t = NotSpawned ∧ tr_committed t = false ∧ tr_joiner t = Unclaimed) ∧
  (tr_task t ≠ NotSpawned → tr_committed t = true) ∧
  (tr_joiner t = Joined → ∃ e, tr_task t = TaskEnded e ∧ tr_reports t = option_list (contain_join "ctx.run task" e)) ∧
  (∀ e, tr_runner t = RunAnswered (Ok tt) → tr_task t = TaskEnded e → tr_joiner t ≠ Unclaimed →
   ∃ k t', k ≤ 4 ∧ task_events (replicate k TeJoiner) t = Some t' ∧ tr_joiner t' = Joined).
Proof using All.
  pose proof reached_task_ok as Hok. split_and!; [| | |intros e; by apply joiner_finishes].
  - intros err Hr. unfold task_ok in Hok. rewrite Hr in Hok. naive_solver.
  - unfold task_ok in Hok. destruct (tr_runner t) as [| | | |[]]; naive_solver.
  - intros Hj. unfold task_ok, before_park, after_park in Hok. rewrite Hj in Hok. destruct (tr_runner t) as [| | | |[]]; naive_solver.
Qed.
End tasks.

(** * Runs *)

(** The first drain is cancelled while the cleanup executes; the later drain looks too
    early, parks, and is woken by the end of the cleanup. *)
Definition cancelled_drain : list RunEvent :=
  [RunWaiter 0; RunWaiter 0; RunAbandon; RunWork (Returned (CleanErr "disk")); RunWork (Returned CleanDone)].

Lemma claimed_cleanup_is_a_barrier_witness :
  ∃ r, run_events cancelled_drain (run_new false 1) = Some r ∧ lt_waiters (cr_latch r) = [Parked false] ∧
  ∃ k k' r', k ≤ 2 ∧ k' ≤ 3 ∧ run_events (replicate k (RunWork (Returned CleanDone)) ++ replicate k' (RunWaiter 0)) r = Some r' ∧
    lt_waiters (cr_latch r') !! 0 = Some Passed.
Proof.
  eexists. split; [vm_compute; reflexivity|]. split; [reflexivity|].
  exact (proj2 (claimed_cleanup_is_a_barrier false 1 cancelled_drain _ eq_refl) 0 _ _ eq_refl (le_n 1) eq_refl).
Defined.

Lemma cleanup_failure_delivered_witness :
  ∃ r, run_events cancelled_drain (run_new false 1) = Some r ∧
  cr_logged r = ["cordis: effect cleanup returned an error: disk"%string] ∧
  (delivered (execute_cleanup (CleanErr "disk")) r ∨
   cr_relay r = RelayHolds (execute_cleanup (CleanErr "disk")) ∧ silent r ∧
   (cr_waiting r = true → ∃ r', receive r = Some r' ∧ delivered (execute_cleanup (CleanErr "disk")) r')).
Proof.
  eexists. split; [vm_compute; reflexivity|]. split; [reflexivity|].
  exact (cleanup_failure_delivered false 1 cancelled_drain _ eq_refl).
Defined.

(** The drain claims the cleanup between the commit and the spawn, and parks. *)
Definition drained_while_spawning : list TaskEvent :=
  [TeRunner true; TeClaim; TeJoiner; TeJoiner; TeRunner true; TeRunner true; TeRunner true; TeTask (JoinPanicked (PayloadText "late"))].

Lemma run_task_is_joined_witness :
  ∃ t, task_events drained_while_spawning (run_task true true) = Some t ∧ tr_joiner t = Looking (Parked true) ∧
  ∃ k t', k ≤ 4 ∧ task_events (replicate k TeJoiner) t = Some t' ∧ tr_joiner t' = Joined.
Proof.
  eexists. split; [vm_compute; reflexivity|]. split; [reflexivity|].
  refine (proj2 (proj2 (proj2 (run_task_is_joined true true drained_while_spawning _ eq_refl))) _ eq_refl eq_refl _). discriminate.
Defined.

Example joined_after_panic :
  (λ t, tr_reports t) <$> task_events (drained_while_spawning ++ replicate 4 TeJoiner) (run_task true true)
  = Some ["cordis: ctx.run task panicked: late"%string].
Proof. reflexivity. Qed.
