(* ===== verification/Lifecycle.v ===== *)
(** Lifecycle states and their reliable publication
    (crates/cordis-core/src/fiber/mod.rs): [FiberState], [StatePublication] with its
    per-state revisions, and the passive wait behind [FiberHandle::wait_state]. *)
From S2P Require Import Prelude.

(* @src crates/cordis-core/src/fiber/mod.rs 93-107 FiberState *)
Inductive FiberState := Loading | Active | Pending | Unloading | Failed | Disposed.

#[export] Instance FiberState_eq_dec : EqDecision FiberState.
Proof. solve_decision. Defined.

(* @src crates/cordis-core/src/fiber/mod.rs 80-86 FiberRole *)
Inductive FiberRole := Root | Ordinary.

(* @src crates/cordis-core/src/fiber/mod.rs 109-122 FiberState::publication_index *)
Definition publication_index (s : FiberState) : nat :=
  match s with
  | Loading => 0 | Active => 1 | Pending => 2 | Unloading => 3 | Failed => 4 | Disposed => 5
  end.

(** [revisions] is a [[u64; 6]]. *)
(* @src crates/cordis-core/src/fiber/mod.rs 124-140 StatePublicationInner *)
Record StatePublication := { sp_current : FiberState; sp_revisions : list Z; sp_sequence : Z }.

(* @src crates/cordis-core/src/fiber/mod.rs 143-154 StatePublication::new *)
Definition StatePublication_new (initial : FiberState) : StatePublication :=
  {| sp_current := initial;
     sp_revisions := <[ publication_index initial := 1%Z ]> (replicate 6 0%Z);
     sp_sequence := 0 |}.

Definition sp_revision (p : StatePublication) (s : FiberState) : Z :=
  default 0%Z (sp_revisions p !! publication_index s).

(** [Err tt] is the [expect] panic on a revision or sequence overflow, reached
    after [current] (and for the sequence, the revision) has been written;
    [Ok None] is a publication of the current state, which does nothing. *)
(* @src crates/cordis-core/src/fiber/mod.rs 160-179 StatePublication::publish *)
Definition sp_publish (p : StatePublication) (next : FiberState)
    : result (option FiberState) unit * StatePublication :=
  let old := sp_current p in
  if decide (old = next) then (Ok None, p)
  else
    let p := {| sp_current := next; sp_revisions := sp_revisions p; sp_sequence := sp_sequence p |} in
    match checked_succ (sp_revision p next) with
    | None => (Err tt, p)
    | Some r =>
        let p := {| sp_current := next;
                    sp_revisions := <[ publication_index next := r ]> (sp_revisions p);
                    sp_sequence := sp_sequence p |} in
        match checked_succ (sp_sequence p) with
        | None => (Err tt, p)
        | Some q => (Ok (Some old), {| sp_current := next; sp_revisions := sp_revisions p; sp_sequence := q |})
        end
    end.

(* @src crates/cordis-core/src/fiber/mod.rs 186-189 StatePublication::observe *)
Definition sp_observe (p : StatePublication) : FiberState * Z := (sp_current p, sp_sequence p).

(* @src crates/cordis-core/src/fiber/mod.rs 195-198 StatePublication::snapshot *)
Definition sp_snapshot (p : StatePublication) (target : FiberState) : FiberState * Z :=
  (sp_current p, sp_revision p target).

(* @src crates/cordis-core/src/fiber/mod.rs 1491-1507 WaitStateError *)
Inductive WaitStateError := Elapsed | WaitRecursion (fiber : nat) | DeadlineUnavailable.

(** The check a waiter makes: the target is current or was published since the
    baseline. *)
Definition wait_satisfied (p : StatePublication) (target : FiberState) (baseline : Z) : bool :=
  let '(current, revision) := sp_snapshot p target in
  bool_decide (current = target) || negb (bool_decide (revision = baseline)).

(** What can happen while a waiter is parked: another task publishes a state, the
    waiter is polled after a notification, or after its deadline fired. *)
Inductive WaitEvent := EvPublish (next : FiberState) | EvNotified | EvDeadline.

(** The parked loop, driven by a schedule; [None] when it is still parked at the
    end of the schedule. *)
(* @src crates/cordis-core/src/fiber/mod.rs 226-252 StatePublication::wait_for_after *)
Fixpoint wait_loop (p : StatePublication) (target : FiberState) (baseline : Z)
    (evs : list WaitEvent) : option (result unit WaitStateError) :=
  match evs with
  | [] => None
  | EvPublish next :: evs => wait_loop (sp_publish p next).2 target baseline evs
  | EvNotified :: evs =>
      if wait_satisfied p target baseline then Some (Ok tt) else wait_loop p target baseline evs
  | EvDeadline :: _ =>
      if wait_satisfied p target baseline then Some (Ok tt) else Some (Err Elapsed)
  end.

(** [armed] tells whether the deadline could be armed; [evs] happens after the wait
    has taken its baseline. *)
(* @src crates/cordis-core/src/fiber/mod.rs 200-253 StatePublication::wait_for *)
Definition wait_for (p : StatePublication) (target : FiberState) (armed : bool)
    (evs : list WaitEvent) : option (result unit WaitStateError) :=
  let baseline := (sp_snapshot p target).2 in
  if wait_satisfied p target baseline then Some (Ok tt)
  else if negb armed then Some (Err DeadlineUnavailable)
  else
    (* the loop registers for notification, then checks once more *)
    if wait_satisfied p target baseline then Some (Ok tt)
    else wait_loop p target baseline evs.

(** * Invariant *)

Record publication_wf (p : StatePublication) : Prop := {
  pw_length : length (sp_revisions p) = 6;
  pw_range : ∀ s, (0 <= sp_revision p s <= u64_max)%Z;
  pw_seq : (0 <= sp_sequence p <= u64_max)%Z;
}.

Lemma publication_index_lt s : publication_index s < 6.
Proof. destruct s; simpl; lia. Qed.

Lemma publication_index_inj s t : publication_index s = publication_index t → s = t.
Proof. by destruct s, t. Qed.

Lemma sp_revision_insert revs c q s r t :
  length revs = 6 →
  sp_revision {| sp_current := c; sp_revisions := <[ publication_index s := r ]> revs;
                 sp_sequence := q |} t =
  if decide (s = t) then r
  else sp_revision {| sp_current := c; sp_revisions := revs; sp_sequence := q |} t.
Proof.
  intros Hlen. unfold sp_revision. simpl. case_decide as Hst.
  - subst. rewrite list_lookup_insert_eq; [done|]. rewrite Hlen. apply publication_index_lt.
  - rewrite list_lookup_insert_ne; [done|]. intros Heq. by apply Hst, publication_index_inj.
Qed.

Lemma StatePublication_new_wf s : publication_wf (StatePublication_new s).
Proof. split; [by destruct s|by intros t; destruct s, t|done]. Qed.

(** The effect of one publication on the snapshot of any state. *)
Lemma sp_publish_spec p next :
  publication_wf p →
  let '(r, p') := sp_publish p next in
  publication_wf p' ∧ sp_current p' = next ∧
  (∀ s, (sp_revision p s <= sp_revision p' s)%Z) ∧
  match r with
  | Ok None => p' = p ∧ sp_current p = next
  | Ok (Some old) => old = sp_current p ∧ old ≠ next ∧
      sp_revision p' next = (sp_revision p next + 1)%Z ∧
      (∀ s, s ≠ next → sp_revision p' s = sp_revision p s) ∧
      sp_sequence p' = (sp_sequence p + 1)%Z
  | Err _ => sp_current p ≠ next ∧ (sp_revision p next = u64_max ∨ sp_sequence p = u64_max)
  end.
Proof.
  intros [Hlen Hr Hq]. unfold sp_publish. case_decide as Hc; [split_and!; done|].
  set (p1 := {| sp_current := next; sp_revisions := sp_revisions p; sp_sequence := sp_sequence p |}).
  assert (∀ s, sp_revision p1 s = sp_revision p s) as Hp1 by done.
  unfold checked_succ at 1. rewrite Hp1. case_decide as Hlt.
  - set (p2 := {| sp_current := next; sp_revisions := <[_:=_]> _; sp_sequence := _ |}).
    assert (∀ s, sp_revision p2 s =
                 if decide (next = s) then (sp_revision p next + 1)%Z else sp_revision p s) as Hp2.
    { intros s. unfold p2. rewrite sp_revision_insert by done. by case_decide. }
    assert (∀ q, (0 <= q <= u64_max)%Z → publication_wf {| sp_current := next; sp_revisions := sp_revisions p2; sp_sequence := q |}) as Hwf.
    { intros q Hq'. split; [by unfold p2; simpl; rewrite length_insert| |done].
      intros s. change (0 <= sp_revision p2 s <= u64_max)%Z. rewrite Hp2.
      pose proof (Hr s). pose proof (Hr next). case_decide; lia. }
    unfold checked_succ. simpl. case_decide as Hlq.
    + split_and!; try done; [apply Hwf; lia| | |].
      * intros s. change (sp_revision p s <= sp_revision p2 s)%Z. rewrite Hp2. case_decide; subst; lia.
      * change (sp_revision p2 next = sp_revision p next + 1)%Z. rewrite Hp2. by rewrite decide_True.
      * intros s Hs. change (sp_revision p2 s = sp_revision p s). rewrite Hp2. by rewrite decide_False.
    + split_and!; try done; [by apply Hwf| |right; lia].
      intros s. rewrite Hp2. case_decide; subst; lia.
  - split_and!; try done. left. pose proof (Hr next). lia.
Qed.

(** * Properties *)

(** The target is published by [evs], before any deadline poll, when the state then
    current is [cur] and no counter is exhausted. *)
Fixpoint published_before_deadline (p : StatePublication) (target : FiberState)
    (evs : list WaitEvent) : bool :=
  match evs with
  | [] => false
  | EvPublish next :: evs =>
      match sp_publish p next with
      | (Ok (Some _), p') => bool_decide (next = target) || published_before_deadline p' target evs
      | (_, p') => published_before_deadline p' target evs
      end
  | EvNotified :: evs => published_before_deadline p target evs
  | EvDeadline :: _ => false
  end.

Lemma wait_loop_satisfied p target baseline evs r :
  publication_wf p → (baseline < sp_revision p target)%Z →
  wait_loop p target baseline evs = Some r → r = Ok tt.
Proof.
  revert p. induction evs as [|[next| |] evs IH]; intros p Hwf Hlt; simpl; [done| | |].
  - pose proof (sp_publish_spec p next Hwf) as Hp. destruct (sp_publish p next) as [o p'].
    destruct Hp as (Hwf' & _ & Hmono & _). apply IH; [done|]. specialize (Hmono target). simpl. lia.
  - unfold wait_satisfied. simpl. rewrite (bool_decide_eq_false_2 (_ = baseline)) by lia.
    rewrite orb_true_r. congruence.
  - unfold wait_satisfied. simpl. rewrite (bool_decide_eq_false_2 (_ = baseline)) by lia.
    rewrite orb_true_r. congruence.
Qed.

Lemma wait_loop_sound p target baseline evs :
  publication_wf p → (baseline <= sp_revision p target)%Z →
  published_before_deadline p target evs = true →
  ∀ r, wait_loop p target baseline evs = Some r → r = Ok tt.
Proof.
  revert p. induction evs as [|[next| |] evs IH]; intros p Hwf Hle; simpl; [done| | |done].
  - pose proof (sp_publish_spec p next Hwf) as Hp.
    destruct (sp_publish p next) as [[[old|]|e] p'] eqn:E; destruct Hp as (Hwf' & _ & Hmono & Hp);
      specialize (Hmono target); [|apply IH; [done|simpl; lia]..].
    destruct Hp as (_ & _ & Hnext & _). intros [Ht|Ht]%orb_true_iff r; [|apply IH; [done|simpl; lia|done]].
    apply bool_decide_eq_true in Ht as ->. apply wait_loop_satisfied; [done|]. simpl. lia.
  - intros Hpub r. case_match; [congruence|]. by apply IH.
Qed.

(** A passive wait never misses a publication: if the requested state is
    current when the wait starts, or is published at any moment before the wait is
    polled past its deadline, the wait can only answer [Ok], however quickly the
    state was superseded and whatever other states were published around it. *)
Theorem wait_state_never_misses (p : StatePublication) (target : FiberState)
    (evs : list WaitEvent) (r : result unit WaitStateError)
    (Hwf : publication_wf p)
    (Hpub : sp_current p = target ∨ published_before_deadline p target evs = true)
    (Hr : wait_for p target true evs = Some r) :
  r = Ok tt.
Proof.
  revert Hr. unfold wait_for. simpl.
  destruct (wait_satisfied p target (sp_revision p target)) eqn:Hs; [congruence|].
  destruct Hpub as [Hc|Hpub].
  - unfold wait_satisfied in Hs. simpl in Hs. rewrite bool_decide_true in Hs by done. done.
  - by apply wait_loop_sound.
Qed.

Example wait_state_never_misses_witness :
  wait_for (StatePublication_new Pending) Loading true
    [EvPublish Loading; EvPublish Active; EvDeadline] = Some (Ok tt).
Proof.
  destruct (wait_for (StatePublication_new Pending) Loading true
    [EvPublish Loading; EvPublish Active; EvDeadline]) as [r|] eqn:E; [|vm_compute in E; discriminate].
  f_equal. apply (wait_state_never_misses (StatePublication_new Pending) Loading
    [EvPublish Loading; EvPublish Active; EvDeadline] r); [apply StatePublication_new_wf|right; reflexivity|exact E].
Defined.

