(* ===== verification/Observation.v ===== *)
(** Runtime observation records and their delivery hub
    (crates/cordis-core/src/observation.rs).  Delivery is detached: [publish] hands
    one task per current observer to the executor and never waits for it, so the
    hub's operations return the tasks they spawn. *)
From S2P Require Import Prelude Axes EventStore Lifecycle.

(* @src crates/cordis-core/src/observation.rs 40-78 ScopeId *)
Record ScopeId := { si_membership : Addr; si_layer : option ScopeNode }.

(* @src crates/cordis-core/src/observation.rs 69-78 ScopeId::eq *)
Definition ScopeId_eqb (a b : ScopeId) : bool :=
  bool_decide (si_membership a = si_membership b) &&
  match si_layer a, si_layer b with
  | None, None => true
  | Some x, Some y => bool_decide (scope_addr x = scope_addr y)
  | _, _ => false
  end.

(* @src crates/cordis-core/src/observation.rs 53-58 ScopeId::from_context *)
Definition ScopeId_from_context (membership : Addr) (ctx : Context) : ScopeId :=
  {| si_membership := membership; si_layer := ctx_scope ctx |}.

(* @src crates/cordis-core/src/observation.rs 96-111 ObservationRouting *)
Inductive ObservationRouting := ObservedUnscoped | ObservedScoped (scope : ScopeId).

(* @src crates/cordis-core/src/observation.rs 104-111 ObservationRouting::from_routing *)
Definition ObservationRouting_from (routing : Routing) : ObservationRouting :=
  match routing with
  | Unscoped => ObservedUnscoped
  | Scoped scope => ObservedScoped {| si_membership := scope_membership scope; si_layer := scope_layer scope |}
  end.

(* @src crates/cordis-core/src/observation.rs 114-120 ResidencyChange *)
Inductive ResidencyChange := Admitted_ | Removed.

(* @src crates/cordis-core/src/observation.rs 123-129 ListenerChange *)
Inductive ListenerChange := Registered | Unregistered.

(* @src crates/cordis-core/src/events/types.rs 97-111 DispatchOutcomeKind *)
Inductive DispatchOutcomeKind := Completed | Answered | Missed | DispatchFailed.

(* @src crates/cordis-core/src/observation.rs 363-370 FiberSnapshot *)
Record FiberSnapshot := {
  fs_id : Addr;
  fs_role : FiberRole;
  fs_name : string;
  fs_state : FiberState;
  fs_missing_services : list string;
}.

(* @src crates/cordis-core/src/observation.rs 132-193 RuntimeObservation *)
Inductive RuntimeObservation :=
| FiberResidency (change : ResidencyChange) (fiber : FiberSnapshot)
| ObservedFiberState (fiber : Addr) (previous current : FiberState)
| ServiceVisibility (service : string) (realm : ServiceRealm) (previous current : option Addr)
| ListenerRegistrationChanged (change : ListenerChange) (listener : ListenerRegistrationId)
    (event : string) (role : ListenerRole) (scope : ScopeId) (options : ListenerOptions)
| DispatchCompleted (operation : EventOperation) (event : string) (routing : ObservationRouting)
    (outcome : DispatchOutcomeKind).

(** Observers are callback handles, keyed by their never reused identity. *)
(* @src crates/cordis-core/src/observation.rs 225-242 ObservationHub *)
Record ObservationHub := { oh_next_id : Z; oh_observers : gmap Z nat }.

Definition ObservationHub_default : ObservationHub := {| oh_next_id := 0; oh_observers := ∅ |}.

(** The identity part of [register]; the publication crosses the gated seam. *)
(* @src crates/cordis-core/src/observation.rs 273-279 ObservationHub::register *)
Definition hub_fresh_id (hub : ObservationHub) : option (Z * ObservationHub) :=
  match checked_succ (oh_next_id hub) with
  | Some next => Some (next, {| oh_next_id := next; oh_observers := oh_observers hub |})
  | None => None
  end.

(** [None] is the [unreachable!] on an occupied identity. *)
(* @src crates/cordis-core/src/observation.rs 244-262 ObserverPublish::publish *)
Definition hub_publish_observer (hub : ObservationHub) (id : Z) (callback : nat)
    : option ObservationHub :=
  match oh_observers hub !! id with
  | None => Some {| oh_next_id := oh_next_id hub; oh_observers := <[ id := callback ]> (oh_observers hub) |}
  | Some _ => None
  end.

(* @src crates/cordis-core/src/observation.rs 298-303 ObservationHub::remove *)
Definition hub_remove (hub : ObservationHub) (id : Z) : ObservationHub :=
  {| oh_next_id := oh_next_id hub; oh_observers := delete id (oh_observers hub) |}.

(** The tasks spawned for one record: one per observer, none off-runtime. *)
(* @src crates/cordis-core/src/observation.rs 305-336 ObservationHub::publish *)
Definition hub_publish (hub : ObservationHub) (on_runtime : bool) (record : RuntimeObservation)
    : list (nat * RuntimeObservation) :=
  if on_runtime then map (λ '(_, callback), (callback, record)) (map_to_list (oh_observers hub)) else [].

(** Every observer identity was issued by the hub's counter. *)
Definition hub_wf (hub : ObservationHub) : Prop :=
  (0 <= oh_next_id hub)%Z ∧ ∀ id, is_Some (oh_observers hub !! id) → (0 < id <= oh_next_id hub)%Z.

Lemma hub_fresh_id_unused hub id hub' :
  hub_wf hub → hub_fresh_id hub = Some (id, hub') → oh_observers hub' !! id = None ∧ hub_wf hub'.
Proof.
  intros [Hn Hwf]. unfold hub_fresh_id. destruct (checked_succ _) as [n|] eqn:E; intros; simplify_eq/=.
  apply checked_succ_Some in E as [? ->]. split.
  - apply eq_None_not_Some. intros Hid%Hwf. lia.
  - split; simpl; [lia|]. intros id' Hid'%Hwf. lia.
Qed.
