(* ===== verification/Dispatch.v ===== *)
(** Event registration and dispatch (crates/cordis-core/src/events/dispatch.rs).

    Listener callbacks are user code.  [invoke] gives the behaviour of a plain
    callback and [invoke_around] that of an Around callback, which receives the
    rest of the waterfall as a consuming continuation; both may do anything to the
    Runtime state, including registering, removing and dispatching again, so they
    are arbitrary state transformers.  An [await]ed callback is modelled by its
    completion. *)
From S2P Require Import Prelude Axes EventStore Lifecycle Observation.

(** The state a dispatch can touch: the Event store, the published observation
    records (most recent first), and whatever else the user's callbacks use. *)
Record DispatchState (W : Type) := {
  ds_events : EventState;
  ds_observations : list RuntimeObservation;
  ds_world : W;
}.
Arguments ds_events {W} _.
Arguments ds_observations {W} _.
Arguments ds_world {W} _.

Definition with_events {W} (s : DispatchState W) (ev : EventState) : DispatchState W :=
  {| ds_events := ev; ds_observations := ds_observations s; ds_world := ds_world s |}.

(** [observations.publish] *)
Definition observe {W} (s : DispatchState W) (r : RuntimeObservation) : DispatchState W :=
  {| ds_events := ds_events s; ds_observations := r :: ds_observations s; ds_world := ds_world s |}.

(** The payload type [P] stands for both [Args] and [Output] values in their erased
    form; Listener.v shows that every downcast succeeds under the typed contracts. *)
(* @src crates/cordis-core/src/events/listener.rs 13-18 CallbackValue *)
Inductive CallbackValue (P : Type) :=
| ObserverValue
| ResponderValue (answer : option P)
| MapperValue (mapped : P).
Arguments ObserverValue {P}.
Arguments ResponderValue {P} answer.
Arguments MapperValue {P} mapped.

(* @src crates/cordis-core/src/events/types.rs 30-37 QueryOutcome *)
Inductive QueryOutcome (P : Type) := Miss | Answer (value : P).
Arguments Miss {P}.
Arguments Answer {P} value.

Definition ListenerMeta : Type := ListenerRegistrationId * string * ListenerRole * ScopeId * ListenerOptions.

Section dispatch.
Context {P W : Type}.
Abbreviation St := (DispatchState W).
Abbreviation Outcome V := (result V InvocationFailure).
(** A continuation of the waterfall ([NextFn]). *)
Abbreviation NextFn := (P → St → Outcome P * St).

(** The Runtime's Scope membership identity. *)
Context (membership : Addr).
Context (invoke : nat → P → St → Outcome (CallbackValue P) * St).
Context (invoke_around : nat → P → NextFn → St → Outcome P * St).
(** [futures::future::join_all] over plain callbacks: it drives them concurrently
    to completion and returns their outcomes in the order of the input. *)
Context (join_all : list (nat * P) → St → list (Outcome (CallbackValue P)) * St).

(* @src crates/cordis-core/src/events/dispatch.rs 31-46 publish_listener_change *)
Definition publish_listener_change (change : ListenerChange) (event : string)
    (hook : HookSnap) (s : St) : St :=
  observe s (ListenerRegistrationChanged change (hs_id hook) event (kind_role (hs_kind hook))
               {| si_membership := membership; si_layer := hs_scope hook |} (hs_options hook)).

(* @src crates/cordis-core/src/events/dispatch.rs 48-68 claim_hook *)
Definition claim_hook (event : string) (hook : HookSnap) (s : St) : bool * St :=
  let '(claimed, unregistered, ev) := event_claim (ds_events s) event (hs_id hook) in
  let s := with_events s ev in
  (claimed, if unregistered then publish_listener_change Unregistered event hook s else s).

(* @src crates/cordis-core/src/events/dispatch.rs 221-232 Context::preflight *)
Definition preflight (E : Event) (routing : Routing) (operation : EventOperation) (s : St)
    : result (list HookSnap) DispatchError * St :=
  match routing with
  | Scoped scope =>
      if scope_belongs_to scope membership
      then let '(r, ev) := store_preflight E routing operation (ds_events s) in (r, with_events s ev)
      else (Err ForeignScope, s)
  | Unscoped =>
      let '(r, ev) := store_preflight E routing operation (ds_events s) in (r, with_events s ev)
  end.

(** A plain callback of an Around hook is excluded by preflight. *)
Definition plain_callback (k : HookKind) : option (ListenerRole * nat) :=
  match k with Plain role cb => Some (role, cb) | AroundHook _ => None end.

(* @src crates/cordis-core/src/events/dispatch.rs 291-299 Context::invoke_listener *)
Definition invoke_listener (callback : nat) (payload : P) (registration : ListenerRegistrationId)
    (s : St) : Outcome (CallbackValue P) * St :=
  let '(r, s) := invoke callback payload s in
  (map_err (λ f, correlate f registration) r, s).

(** [None] is one of the [unreachable!] arms. *)
(* @src crates/cordis-core/src/events/dispatch.rs 319-335 Context::emit_inner *)
Fixpoint emit_hooks (event : string) (args : P) (hooks : list HookSnap) (s : St)
    : option (result unit DispatchError * St) :=
  match hooks with
  | [] => Some (Ok tt, s)
  | hook :: hooks =>
      let '(claimed, s) := claim_hook event hook s in
      if negb claimed then emit_hooks event args hooks s
      else match plain_callback (hs_kind hook) with
           | None => None
           | Some (_, callback) =>
               match invoke_listener callback args (hs_id hook) s with
               | (Err failure, s) => Some (Err (Invocation failure), s)
               | (Ok _, s) => emit_hooks event args hooks s
               end
           end
  end.

(* @src crates/cordis-core/src/events/dispatch.rs 309-336 Context::emit_inner *)
Definition emit_inner (E : Event) (routing : Routing) (args : P) (s : St)
    : option (result unit DispatchError * St) :=
  match preflight E routing Emit s with
  | (Err e, s) => Some (Err e, s)
  | (Ok hooks, s) => emit_hooks (ev_name E) args hooks s
  end.

(** The claiming loop of a parallel notification. *)
(* @src crates/cordis-core/src/events/dispatch.rs 350-357 Context::emit_parallel_inner *)
Fixpoint claim_hooks (event : string) (hooks : list HookSnap) (s : St) : list HookSnap * St :=
  match hooks with
  | [] => ([], s)
  | hook :: hooks =>
      let '(claimed, s) := claim_hook event hook s in
      let '(rest, s) := claim_hooks event hooks s in
      (if claimed then hook :: rest else rest, s)
  end.

(** The callbacks of claimed hooks; [None] is the [unreachable!] arm. *)
Fixpoint plain_callbacks (hooks : list HookSnap) : option (list nat) :=
  match hooks with
  | [] => Some []
  | hook :: hooks =>
      match plain_callback (hs_kind hook), plain_callbacks hooks with
      | Some (_, callback), Some callbacks => Some (callback :: callbacks)
      | _, _ => None
      end
  end.

(** The failures of the joined invocations, each correlated with its listener. *)
(* @src crates/cordis-core/src/events/dispatch.rs 366-370 Context::emit_parallel_inner *)
Fixpoint parallel_failures (claimed : list HookSnap) (outcomes : list (Outcome (CallbackValue P)))
    : list InvocationFailure :=
  match claimed, outcomes with
  | hook :: claimed, r :: outcomes =>
      match map_err (λ f, correlate f (hs_id hook)) r with
      | Err f => f :: parallel_failures claimed outcomes
      | Ok _ => parallel_failures claimed outcomes
      end
  | _, _ => []
  end.

(* @src crates/cordis-core/src/events/dispatch.rs 338-376 Context::emit_parallel_inner *)
Definition emit_parallel_inner (E : Event) (routing : Routing) (args : P) (s : St)
    : option (result unit DispatchError * St) :=
  match preflight E routing EmitParallel s with
  | (Err e, s) => Some (Err e, s)
  | (Ok hooks, s) =>
      let '(claimed, s) := claim_hooks (ev_name E) hooks s in
      match plain_callbacks claimed with
      | None => None
      | Some callbacks =>
          let '(outcomes, s) := join_all (map (λ cb, (cb, args)) callbacks) s in
          match parallel_failures claimed outcomes with
          | [] => Some (Ok tt, s)
          | failures => Some (Err (Parallel failures), s)
          end
      end
  end.

(* @src crates/cordis-core/src/events/dispatch.rs 392-421 Context::query_inner *)
Fixpoint query_hooks (event : string) (args : P) (hooks : list HookSnap) (s : St)
    : option (result (QueryOutcome P) DispatchError * St) :=
  match hooks with
  | [] => Some (Ok Miss, s)
  | hook :: hooks =>
      let '(claimed, s) := claim_hook event hook s in
      if negb claimed then query_hooks event args hooks s
      else match plain_callback (hs_kind hook) with
           | None => None
           | Some (role, callback) =>
               match invoke_listener callback args (hs_id hook) s with
               | (Err failure, s) => Some (Err (Invocation failure), s)
               | (Ok value, s) =>
                   match role, value with
                   | Observer, ObserverValue => query_hooks event args hooks s
                   | Responder, ResponderValue None => query_hooks event args hooks s
                   | Responder, ResponderValue (Some output) => Some (Ok (Answer output), s)
                   | _, _ => None
                   end
               end
           end
  end.

(* @src crates/cordis-core/src/events/dispatch.rs 378-423 Context::query_inner *)
Definition query_inner (E : Event) (routing : Routing) (args : P) (s : St)
    : option (result (QueryOutcome P) DispatchError * St) :=
  match preflight E routing Query s with
  | (Err e, s) => Some (Err e, s)
  | (Ok hooks, s) => query_hooks (ev_name E) args hooks s
  end.

(** One onion layer of the waterfall around its [downstream] continuation.  The
    claim happens when the layer is reached, not at preflight.  A Mapper adapter
    only ever returns a mapped payload ([MapperValue]); any other value is the
    [unreachable!] arm, reported here as a panic. *)
(* @src crates/cordis-core/src/events/dispatch.rs 487-534 Context::waterfall_inner *)
Definition waterfall_layer (event : string) (hook : HookSnap) (downstream : NextFn) : NextFn :=
  λ payload s,
    let '(claimed, s) := claim_hook event hook s in
    if negb claimed then downstream payload s
    else match hs_kind hook with
         | Plain _ callback =>
             match invoke_listener callback payload (hs_id hook) s with
             | (Ok (MapperValue mapped), s) => downstream mapped s
             | (Ok _, s) => (Err (failure_panic "Mapper adapter returns a mapped payload"), s)
             | (Err failure, s) => (Err failure, s)
             end
         | AroundHook callback =>
             let '(r, s) := invoke_around callback payload downstream s in
             (map_err (λ f, correlate f (hs_id hook)) r, s)
         end.

(** The chain is built from the last hook inwards, around the caller's tail. *)
(* @src crates/cordis-core/src/events/dispatch.rs 476-540 Context::waterfall_inner *)
Definition waterfall_chain (event : string) (hooks : list HookSnap) (tail : NextFn) : NextFn :=
  foldr (waterfall_layer event) tail hooks.

(* @src crates/cordis-core/src/events/dispatch.rs 425-545 Context::waterfall_inner *)
Definition waterfall_inner (E : Event) (routing : Routing) (args : P) (tail : NextFn) (s : St)
    : result P DispatchError * St :=
  match preflight E routing Waterfall s with
  | (Err e, s) => (Err e, s)
  | (Ok hooks, s) =>
      let '(r, s) := waterfall_chain (ev_name E) hooks tail args s in
      (map_err Invocation r, s)
  end.

Definition completed (E : Event) (routing : Routing) (operation : EventOperation)
    (outcome : DispatchOutcomeKind) (s : St) : St :=
  observe s (DispatchCompleted operation (ev_name E) (ObservationRouting_from routing) outcome).

(* @src crates/cordis-core/src/events/dispatch.rs 547-568 Context::emit *)
Definition emit (E : Event) (routing : Routing) (args : P) (s : St)
    : option (result unit DispatchError * St) :=
  match emit_inner E routing args s with
  | None => None
  | Some (r, s) =>
      Some (r, completed E routing Emit (if is_ok r then Completed else DispatchFailed) s)
  end.

(* @src crates/cordis-core/src/events/dispatch.rs 570-595 Context::emit_parallel *)
Definition emit_parallel (E : Event) (routing : Routing) (args : P) (s : St)
    : option (result unit DispatchError * St) :=
  match emit_parallel_inner E routing args s with
  | None => None
  | Some (r, s) =>
      Some (r, completed E routing EmitParallel (if is_ok r then Completed else DispatchFailed) s)
  end.

(* @src crates/cordis-core/src/events/dispatch.rs 597-623 Context::query *)
Definition query (E : Event) (routing : Routing) (args : P) (s : St)
    : option (result (QueryOutcome P) DispatchError * St) :=
  match query_inner E routing args s with
  | None => None
  | Some (r, s) =>
      let outcome := match r with Ok (Answer _) => Answered | Ok Miss => Missed
                                | Err _ => DispatchFailed end in
      Some (r, completed E routing Query outcome s)
  end.

(* @src crates/cordis-core/src/events/dispatch.rs 625-655 Context::waterfall *)
Definition waterfall (E : Event) (routing : Routing) (args : P) (tail : NextFn) (s : St)
    : result P DispatchError * St :=
  let '(r, s) := waterfall_inner E routing args tail s in
  (r, completed E routing Waterfall (if is_ok r then Completed else DispatchFailed) s).

(** [resolver] receives the complete query result; its error is the tail's. *)
(* @src crates/cordis-core/src/events/dispatch.rs 657-683 Context::waterfall_query *)
Definition waterfall_query (E Q : Event) (routing : Routing) (args : P)
    (resolver : result (QueryOutcome P) DispatchError → St → Outcome P * St) (s : St)
    : result P DispatchError * St :=
  waterfall E routing args
    (λ query_args s,
       match query Q routing query_args s with
       | Some (r, s) => resolver r s
       | None => (Err (failure_panic "semantic adapter role determines callback value"), s)
       end) s.
End dispatch.

(** * Preflight *)

Lemma first_incompatible_None operation hooks :
  first_incompatible operation hooks = None ↔
  ∀ h, h ∈ hooks → compatible operation (kind_role (hk_kind h)) = true.
Proof.
  unfold first_incompatible. rewrite fmap_None, list_find_None, Forall_forall. split.
  - intros Hall h Hh. apply not_false_iff_true. apply Hall. apply list_elem_of_fmap. eauto.
  - intros Hall role Hr. apply list_elem_of_fmap in Hr as (h & -> & Hh). by rewrite (Hall h Hh).
Qed.

(** The live registrations a dispatch selects. *)
Definition selected_hooks (E : Event) (routing : Routing) (st : EventState) : list Hook :=
  filter (λ h, eligible routing h = true) (hooks_of st (ev_name E)).

Lemma bind_locked_hooks E st st' : bind_locked E st = Ok st' → es_hooks st' = es_hooks st.
Proof. unfold bind_locked. intros. repeat case_match; by simplify_eq/=. Qed.

Lemma store_preflight_cases E routing operation st :
  let '(r, st') := store_preflight E routing operation st in
  (∀ name, hooks_of st' name = hooks_of st name) ∧
  match r with
  | Ok hooks => hooks = map hook_snap (selected_hooks E routing st) ∧
      ∀ h, h ∈ hooks → compatible operation (kind_role (hs_kind h)) = true
  | Err (EventContractMismatch name) => name = ev_name E ∧ bind_locked E st = Err tt
  | Err (IncompatibleRole op role) => op = operation ∧
      first_incompatible operation (selected_hooks E routing st) = Some role
  | Err _ => False
  end.
Proof.
  unfold store_preflight. destruct (bind_locked E st) as [st1|[]] eqn:Eb; [|done].
  apply bind_locked_hooks in Eb. unfold selected_hooks, hooks_of. rewrite <- Eb.
  destruct (es_hooks st1 !! ev_name E) as [l|] eqn:El.
  2: { split; [done|]. split; [done|]. set_solver. }
  assert (∀ name, match <[ev_name E := compact_if_sparse l]> (es_hooks st1) !! name with
                  | Some l => hooks_iter l | None => [] end =
                  match es_hooks st1 !! name with Some l => hooks_iter l | None => [] end) as Hall.
  { intros name. rewrite lookup_insert. case_decide as Hn; [|done]. subst. by rewrite El, compact_iter. }
  rewrite compact_iter. destruct (first_incompatible _ _) as [role|] eqn:Ef; simpl; (split; [done|]); [done|].
  split; [done|]. intros h Hh. apply list_elem_of_fmap in Hh as (h' & -> & Hh').
  by apply (proj1 (first_incompatible_None _ _) Ef).
Qed.

Section preflight.
Context {W : Type} (membership : Addr).
Implicit Types (s : DispatchState W).

Lemma preflight_cases E routing operation s :
  let '(r, s') := preflight membership E routing operation s in
  (∀ name, hooks_of (ds_events s') name = hooks_of (ds_events s) name) ∧
  ds_observations s' = ds_observations s ∧ ds_world s' = ds_world s ∧
  match r with
  | Ok hooks => hooks = map hook_snap (selected_hooks E routing (ds_events s)) ∧
      ∀ h, h ∈ hooks → compatible operation (kind_role (hs_kind h)) = true
  | Err (EventContractMismatch name) => name = ev_name E ∧ bind_locked E (ds_events s) = Err tt
  | Err (IncompatibleRole op role) => op = operation ∧
      first_incompatible operation (selected_hooks E routing (ds_events s)) = Some role
  | Err ForeignScope => ∃ scope, routing = Scoped scope ∧ scope_belongs_to scope membership = false
  | Err _ => False
  end.
Proof.
  unfold preflight. pose proof (store_preflight_cases E routing operation (ds_events s)) as Hs.
  destruct (store_preflight E routing operation (ds_events s)) as [r ev].
  destruct routing as [|scope]; [|destruct (scope_belongs_to scope membership) eqn:Eb]; simpl.
  - destruct Hs as [Hh Hr]. split_and!; try done. by destruct r as [|[]].
  - destruct Hs as [Hh Hr]. split_and!; try done. by destruct r as [|[]].
  - split_and!; try done. eauto.
Qed.
End preflight.

(** * Claims *)

Section claims.
Context {W : Type} (membership : Addr) (event : string).
Implicit Types (s : DispatchState W).

Lemma event_claim_cases st id :
  store_wf st →
  let '(claimed, unregistered, st') := event_claim st event id in
  store_wf st' ∧
  match list_find (λ h, hk_id h = id) (hooks_of st event) with
  | None => claimed = false ∧ unregistered = false ∧ st' = st
  | Some (_, h) => claimed = true ∧ unregistered = hk_once h ∧
      hooks_of st' event =
        (if hk_once h then filter (λ h, hk_id h ≠ id) (hooks_of st event) else hooks_of st event)
  end.
Proof.
  intros Hst. pose proof (rg_find_spec st event id Hst) as Hf.
  unfold rg_find in Hf. rewrite hooks_of_abstraction in Hf. unfold event_claim.
  destruct (es_hooks st !! event) as [l|] eqn:El; simpl.
  2: { split; [done|]. unfold hooks_of. by rewrite El. }
  destruct (list_find _ _) as [[i h]|]; simpl in Hf; rewrite <- Hf; [|done].
  destruct (hk_once h) eqn:Eo; [|done]. destruct (wf_hooks _ Hst _ _ El) as [Hl _].
  split; [apply store_hooks_wf; [done|by apply (hooks_remove_wf l id)]|]. split_and!; [done|done|].
  pose proof (remove_state st event l id Hst El) as Ha.
  apply (f_equal (λ r, rg_list r event)) in Ha. rewrite hooks_of_abstraction in Ha. simpl in Ha.
  rewrite Ha, hooks_of_abstraction. unfold rg_list, rg_store. simpl.
  case_decide as Hd; [by rewrite lookup_delete_eq, Hd|by rewrite lookup_insert_eq].
Qed.
End claims.

(** * Properties *)

Lemma compatible_plain operation k :
  (operation = Emit ∨ operation = EmitParallel ∨ operation = Query) →
  compatible operation (kind_role k) = true → ∃ role cb, plain_callback k = Some (role, cb) ∧
  k = Plain role cb ∧ (role = Observer ∨ role = Responder).
Proof.
  intros Hop Hc. destruct k as [role cb|cb]; [|by destruct Hop as [->|[->| ->]]].
  exists role, cb. destruct Hop as [->|[->| ->]]; destruct role; try discriminate Hc; auto.
Qed.

Section claimed_hooks.
Context {W : Type} (membership : Addr).

Lemma claim_hooks_subset (event : string) (hooks : list HookSnap) (s : DispatchState W) (h : HookSnap) :
  h ∈ (claim_hooks membership event hooks s).1 → h ∈ hooks.
Proof.
  revert s. induction hooks as [|h' hooks IH]; intros s; simpl; [done|].
  destruct (claim_hook membership event h' s) as [c s1]. specialize (IH s1).
  destruct (claim_hooks membership event hooks s1). destruct c; set_solver.
Qed.

End claimed_hooks.

Lemma plain_callbacks_total operation hooks :
  (operation = Emit ∨ operation = EmitParallel ∨ operation = Query) →
  (∀ h, h ∈ hooks → compatible operation (kind_role (hs_kind h)) = true) →
  is_Some (plain_callbacks hooks).
Proof.
  intros Hop. induction hooks as [|h hooks IH]; intros Hc; simpl; [done|].
  destruct (compatible_plain operation (hs_kind h)) as (role & cb & -> & _); [done|apply Hc; set_solver|].
  destruct IH as [cbs ->]; [set_solver|done].
Qed.

Section safety.
Context {P W : Type} (membership : Addr).
Context (invoke : nat → P → DispatchState W → result (CallbackValue P) InvocationFailure * DispatchState W).

Lemma emit_hooks_total (event : string) (args : P) (hooks : list HookSnap) (s : DispatchState W) :
  (∀ h, h ∈ hooks → compatible Emit (kind_role (hs_kind h)) = true) →
  is_Some (emit_hooks membership invoke event args hooks s).
Proof.
  revert s. induction hooks as [|h hooks IH]; intros s Hc; simpl; [done|].
  destruct (claim_hook membership event h s) as [[] s1]; simpl; [|apply IH; set_solver].
  destruct (compatible_plain Emit (hs_kind h)) as (role & cb & -> & _); [auto|apply Hc; set_solver|].
  destruct (invoke_listener _ _ _ _ _) as [[|] s2]; [apply IH; set_solver|done].
Qed.

(** The role each callback handle was adapted for. *)
Context (role_of : nat → ListenerRole).

(** The semantic adapters: a callback returns the value shape of its role. *)
Definition value_matches (role : ListenerRole) (v : CallbackValue P) : Prop :=
  match role, v with
  | Observer, ObserverValue | Responder, ResponderValue _ | Mapper, MapperValue _ => True
  | _, _ => False
  end.

Definition adapters_ok : Prop :=
  ∀ cb p s v s', invoke cb p s = (Ok v, s') → value_matches (role_of cb) v.

(** Every hook pairs its callback with the role it was adapted for. *)
Definition hooks_adapted (hooks : list HookSnap) : Prop :=
  ∀ h role cb, h ∈ hooks → hs_kind h = Plain role cb → role_of cb = role.

Lemma query_hooks_total (event : string) (args : P) (hooks : list HookSnap) (s : DispatchState W) :
  adapters_ok → hooks_adapted hooks →
  (∀ h, h ∈ hooks → compatible Query (kind_role (hs_kind h)) = true) →
  is_Some (query_hooks membership invoke event args hooks s).
Proof.
  intros Ha. revert s. induction hooks as [|h hooks IH]; intros s Hh Hc; simpl; [done|].
  assert (hooks_adapted hooks) as Hh' by (intros ?????; eapply Hh; eauto; by right).
  destruct (claim_hook membership event h s) as [[] s1]; simpl; [|apply IH; set_solver].
  destruct (compatible_plain Query (hs_kind h)) as (role & cb & -> & Hk & Hrole);
    [auto|apply Hc; set_solver|].
  unfold invoke_listener. destruct (invoke cb args s1) as [r s2] eqn:Ei.
  destruct r as [v|f]; simpl; [|done].
  apply Ha in Ei. rewrite (Hh h role cb) in Ei by (done || by left).
  destruct Hrole as [-> | ->], v as [|[]|]; simpl in *; try done; apply IH; set_solver.
Qed.
End safety.


(** * Delivery of a plain notification *)

Lemma ids_in_exists st : ∃ seen, ids_in st seen.
Proof.
  exists (concat (map (λ p, eh_order p.2) (map_to_list (es_hooks st)))).
  intros name l id Hl Hid. apply list_elem_of_In, in_concat. exists (eh_order l).
  split; [|by apply list_elem_of_In]. apply list_elem_of_In, list_elem_of_fmap.
  exists (name, l). split; [done|]. by apply elem_of_map_to_list.
Qed.

Lemma preflight_wf {W} membership E routing operation (s : DispatchState W) :
  store_wf (ds_events s) → store_wf (ds_events (preflight membership E routing operation s).2).
Proof.
  intros Hwf. destruct (ids_in_exists (ds_events s)) as [seen Hseen].
  pose proof (preflight_refines E routing operation _ seen Hwf Hseen) as Hp. unfold preflight.
  destruct (store_preflight E routing operation (ds_events s)) as [r ev].
  destruct routing; [|case_match]; simpl; tauto.
Qed.

Lemma selected_hooks_nodup E routing st :
  store_wf st → NoDup (map hs_id (map hook_snap (selected_hooks E routing st))).
Proof.
  intros [Hwf]. rewrite map_map. unfold selected_hooks, hooks_of.
  destruct (es_hooks st !! ev_name E) as [l|] eqn:El; [|constructor].
  apply Hwf in El as [Hl _]. apply hooks_iter_nodup in Hl.
  eapply sublist_NoDup; [exact Hl|]. apply (fmap_sublist hk_id), sublist_filter.
Qed.

Section delivery.
Context {P W : Type} (membership : Addr).
(** Quiet listeners: a callback works on the user's own state only. *)
Context (listener : nat → P → W → result (CallbackValue P) InvocationFailure * W).

Definition quiet_invoke (cb : nat) (p : P) (s : DispatchState W)
    : result (CallbackValue P) InvocationFailure * DispatchState W :=
  let '(r, w) := listener cb p (ds_world s) in
  (r, {| ds_events := ds_events s; ds_observations := ds_observations s; ds_world := w |}).

(** The reference notification: the listeners one after the other, up to the
    first failure; also returns the listeners that were reached. *)
Fixpoint notify (args : P) (hooks : list HookSnap) (w : W)
    : list HookSnap * result unit DispatchError * W :=
  match hooks with
  | [] => ([], Ok tt, w)
  | hook :: hooks =>
      match hs_kind hook with
      | AroundHook _ => ([], Ok tt, w)
      | Plain _ cb =>
          match listener cb args w with
          | (Err f, w) => ([hook], Err (Invocation (correlate f (hs_id hook))), w)
          | (Ok _, w) => let '(reached, r, w) := notify args hooks w in (hook :: reached, r, w)
          end
      end
  end.

(** What remains registered once [reached] have been delivered. *)
Definition after_delivery (reached : list HookSnap) (l : list Hook) : list Hook :=
  filter (λ h, ¬ (hk_once h = true ∧ hk_id h ∈ map hs_id reached)) l.

Lemma after_delivery_cons (hook : HookSnap) (reached : list HookSnap) (l : list Hook) (h0 : Hook) :
  (∀ h, h ∈ l → hk_id h = hs_id hook → hk_once h = hk_once h0) →
  after_delivery reached (if hk_once h0 then filter (λ h, hk_id h ≠ hs_id hook) l else l) =
  after_delivery (hook :: reached) l.
Proof.
  intros Hl. unfold after_delivery. destruct (hk_once h0) eqn:Eo.
  - rewrite list_filter_filter. apply filter_ext_in. intros h Hh. csimpl. rewrite elem_of_cons.
    specialize (Hl h Hh). destruct (decide (hk_id h = hs_id hook)); [rewrite Hl by done; naive_solver|tauto].
  - apply filter_ext_in. intros h Hh. csimpl. rewrite elem_of_cons. specialize (Hl h Hh).
    destruct (decide (hk_id h = hs_id hook)); [rewrite Hl by done; naive_solver|tauto].
Qed.

Lemma hooks_of_unique (st : EventState) (event : string) (h h' : Hook) :
  store_wf st → h ∈ hooks_of st event → h' ∈ hooks_of st event → hk_id h = hk_id h' → h = h'.
Proof.
  intros [Hwf]. unfold hooks_of. destruct (es_hooks st !! event) as [l|] eqn:El; [|set_solver].
  apply Hwf in El as [Hl _]. intros Hh Hh' Heq.
  apply hooks_iter_ids in Hh; [|done]. apply hooks_iter_ids in Hh'; [|done]. congruence.
Qed.

(** Claiming a hook that is still registered succeeds, and takes it out of the
    store exactly when it is a once registration. *)
Lemma claim_hook_live (event : string) (h0 : Hook) (s : DispatchState W) :
  store_wf (ds_events s) → h0 ∈ hooks_of (ds_events s) event →
  ∃ s1, claim_hook membership event (hook_snap h0) s = (true, s1) ∧
    store_wf (ds_events s1) ∧ ds_world s1 = ds_world s ∧
    hooks_of (ds_events s1) event =
      (if hk_once h0 then filter (λ h, hk_id h ≠ hk_id h0) (hooks_of (ds_events s) event)
       else hooks_of (ds_events s) event).
Proof.
  intros Hwf Hin. pose proof (event_claim_cases event (ds_events s) (hk_id h0) Hwf) as Hc.
  unfold claim_hook. simpl. destruct (event_claim _ _ _) as [[claimed unreg] ev].
  destruct Hc as [Hwf' Hc]. destruct (list_find _ _) as [[i h]|] eqn:Ef.
  - apply list_find_Some in Ef as (Hi & Hid & _). apply list_elem_of_lookup_2 in Hi.
    pose proof (hooks_of_unique _ _ _ _ Hwf Hi Hin Hid) as ->.
    destruct Hc as (-> & -> & Hh). eexists. split; [done|]. by destruct (hk_once h0).
  - apply list_find_None in Ef. rewrite Forall_forall in Ef. by destruct (Ef h0 Hin).
Qed.

Lemma emit_hooks_quiet (event : string) (args : P) (hooks : list Hook) (s : DispatchState W) :
  store_wf (ds_events s) → NoDup (map hk_id hooks) →
  (∀ h, h ∈ hooks → h ∈ hooks_of (ds_events s) event ∧ compatible Emit (kind_role (hk_kind h)) = true) →
  let '(reached, r, w) := notify args (map hook_snap hooks) (ds_world s) in
  ∃ s', emit_hooks membership quiet_invoke event args (map hook_snap hooks) s = Some (r, s') ∧
    ds_world s' = w ∧
    hooks_of (ds_events s') event = after_delivery reached (hooks_of (ds_events s) event).
Proof.
  revert s. induction hooks as [|h0 hooks IH]; intros s Hwf Hnd Hall.
  { simpl. exists s. split_and!; [done|done|]. symmetry. apply filter_all. set_solver. }
  csimpl in Hnd. apply NoDup_cons in Hnd as [Hnot Hnd].
  destruct (Hall h0 ltac:(by left)) as [Hin Hc].
  destruct (claim_hook_live event h0 s Hwf Hin) as (s1 & Hclaim & Hwf1 & Hw1 & Hh1).
  destruct (compatible_plain Emit (hk_kind h0)) as (role & cb & Hp & Hk & _); [auto|done|].
  csimpl. rewrite Hclaim, Hp, Hk. cbn [negb]. unfold invoke_listener, quiet_invoke.
  rewrite Hw1. destruct (listener cb args (ds_world s)) as [[v|f] w1]; cbn.
  2: { eexists. split_and!; [done..|]. cbn. rewrite Hh1.
       rewrite <- (after_delivery_cons (hook_snap h0) [] _ h0).
       - symmetry. apply filter_all. intros ? _. cbn. set_solver.
       - intros h Hh Hid. f_equal. by apply (hooks_of_unique (ds_events s) event). }
  set (s2 := {| ds_events := ds_events s1; ds_observations := ds_observations s1; ds_world := w1 |}).
  specialize (IH s2 Hwf1 Hnd). cbn [ds_world s2] in IH.
  destruct (notify args (map hook_snap hooks) w1) as [[reached r] w2].
  destruct IH as (s' & He & Hw & Hh).
  { intros h Hh. destruct (Hall h ltac:(by right)) as [Hh' ?]. split; [|done]. cbn. rewrite Hh1.
    destruct (hk_once h0); [|done]. apply list_elem_of_filter. split; [|done].
    intros Heq. apply Hnot. rewrite <- Heq. apply list_elem_of_fmap. eauto. }
  exists s'. split_and!; [done..|]. rewrite Hh. cbn [ds_events s2]. rewrite Hh1.
  etrans; [apply (after_delivery_cons (hook_snap h0) reached _ h0)|done].
  intros h Hi Hid. f_equal. by apply (hooks_of_unique (ds_events s) event).
Qed.
End delivery.
(** Dispatch never reaches an [unreachable!] arm: preflight selects only
    registrations whose role fits the operation, so emit and emit_parallel always
    find a plain callback, and, as each callback returns the value shape of the
    role it was adapted for, a query never meets another shape; this holds for
    arbitrary callbacks, which may change the store while the dispatch runs. *)
Theorem dispatch_never_unreachable {P W : Type} (membership : Addr)
    (invoke : nat → P → DispatchState W → result (CallbackValue P) InvocationFailure * DispatchState W)
    (join_all : list (nat * P) → DispatchState W →
                list (result (CallbackValue P) InvocationFailure) * DispatchState W)
    (role_of : nat → ListenerRole)
    (E : Event) (routing : Routing) (args : P) (s : DispatchState W)
    (Hadapters : adapters_ok invoke role_of)
    (Hhooks : ∀ h role cb, h ∈ hooks_of (ds_events s) (ev_name E) →
              hk_kind h = Plain role cb → role_of cb = role) :
  emit membership invoke E routing args s ≠ None ∧
  emit_parallel membership join_all E routing args s ≠ None ∧
  query membership invoke E routing args s ≠ None.
Proof.
  unfold emit, emit_parallel, query, emit_inner, emit_parallel_inner, query_inner. split_and!.
  - pose proof (preflight_cases membership E routing Emit s) as Hp.
    destruct (preflight membership E routing Emit s) as [[hooks|e] s1]; [|done].
    destruct Hp as (_ & _ & _ & _ & Hc).
    by destruct (emit_hooks_total membership invoke (ev_name E) args hooks s1 Hc) as [[] ->].
  - pose proof (preflight_cases membership E routing EmitParallel s) as Hp.
    destruct (preflight membership E routing EmitParallel s) as [[hooks|e] s1]; [|done].
    destruct Hp as (_ & _ & _ & _ & Hc).
    pose proof (λ h, claim_hooks_subset membership (ev_name E) hooks s1 h) as Hsub.
    destruct (claim_hooks membership (ev_name E) hooks s1) as [claimed s2].
    destruct (plain_callbacks_total EmitParallel claimed) as [cbs ->]; [auto|set_solver|].
    destruct (join_all _ s2) as [outs s3]. by destruct (parallel_failures claimed outs).
  - pose proof (preflight_cases membership E routing Query s) as Hp.
    destruct (preflight membership E routing Query s) as [[hooks|e] s1]; [|done].
    destruct Hp as (_ & _ & _ & -> & Hc).
    destruct (query_hooks_total membership invoke role_of (ev_name E) args
      (map hook_snap (selected_hooks E routing (ds_events s))) s1) as [[] ->]; try done.
    intros h role cb Hh Hk. apply list_elem_of_fmap in Hh as (h' & -> & Hh').
    apply list_elem_of_filter in Hh' as [_ Hh']. by eapply Hhooks.
Qed.

Definition sample_state : DispatchState (list nat) :=
  {| ds_events := (run_ops store_step EventStore_new
       [OpAdd sample_event (sample_hook 1 false false); OpAdd sample_event (sample_hook 2 true true);
        OpAdd sample_event (sample_hook 3 false false)]).2;
     ds_observations := []; ds_world := [] |}.

(** A listener that logs its handle, and fails if it is number 3. *)
Definition sample_listener (cb : nat) (p : nat) (w : list nat)
    : result (CallbackValue nat) InvocationFailure * list nat :=
  (if decide (cb = 3) then Err (failure_returned "three") else Ok ObserverValue, w ++ [cb]).

Example dispatch_never_unreachable_witness :
  query 0 (quiet_invoke sample_listener) sample_event Unscoped 5 sample_state ≠ None.
Proof.
  eapply (dispatch_never_unreachable 0 (quiet_invoke sample_listener)
    (λ l s, (map (λ _, Ok ObserverValue) l, s)) (λ _, Observer)).
  - intros cb p s v s'. unfold quiet_invoke, sample_listener. case_decide; intros; by simplify_eq.
  - intros h role cb Hh. vm_compute in Hh.
    repeat (apply elem_of_cons in Hh as [->|Hh]; [intros [=]; done|]). set_solver.
Defined.


