(* ===== verification/LoaderPlan.v ===== *)
(** Loader plans (crates/cordis-loader/src/plan.rs): the declarative source rows, the
    builder of one plan lineage with its validation, and the deterministic execution
    order of a frozen plan.

    The JSON type [Value] belongs to a library the source calls and is a parameter. *)
From S2P Require Import Prelude Axes.

(** Both fields are compared with [Arc::ptr_eq]. *)
(* @src crates/cordis-loader/src/plan.rs 25-29 EntryId *)
Record EntryId := { eid_lineage : Addr; eid_occurrence : Addr }.

#[export] Instance EntryId_eq_dec : EqDecision EntryId.
Proof. solve_decision. Defined.

#[export] Instance EntryId_countable : Countable EntryId.
Proof.
  apply (inj_countable' (λ e, (eid_lineage e, eid_occurrence e))
    (λ p, {| eid_lineage := p.1; eid_occurrence := p.2 |})). by intros [].
Defined.

(* @src crates/cordis-loader/src/plan.rs 39-41 EntryId::belongs_to *)
Definition eid_belongs_to (id : EntryId) (lineage : Addr) : bool :=
  bool_decide (eid_lineage id = lineage).

(* @src crates/cordis-loader/src/plan.rs 235-246 RealmPolicy *)
Inductive RealmPolicy := Private | Shared (label : string).

(* @src crates/cordis-loader/src/plan.rs 221-228 IsolateEntry *)
Record IsolateEntry := { is_service : string; is_policy : RealmPolicy }.

(* @src crates/cordis-loader/src/plan.rs 268-299 PlanError *)
Inductive PlanError :=
| ForeignParent (parent : EntryId)
| MissingResolveIdentity (entry : EntryId)
| DuplicateInjectService (entry : EntryId) (service : string)
| DuplicateIsolateService (entry : EntryId) (service : string).

Section plan.
Context {Value : Type}.

(* @src crates/cordis-loader/src/plan.rs 157-168 InjectEntry *)
Inductive InjectEntry :=
| Required (service : string)
| Configured (service : string) (config : Value).

(* @src crates/cordis-loader/src/plan.rs 211-215 InjectEntry::service *)
Definition inject_service (e : InjectEntry) : string :=
  match e with Required service | Configured service _ => service end.

(* @src crates/cordis-loader/src/plan.rs 81-100 PluginEntry *)
Record PluginEntry := {
  pe_key : option string;
  pe_name : option string;
  pe_config : Value;
  pe_disabled : bool;
  pe_inject : list InjectEntry;
  pe_isolate : list IsolateEntry;
}.

(* @src crates/cordis-loader/src/plan.rs 110-119 PluginEntry::new *)
Definition PluginEntry_new (config : Value) : PluginEntry :=
  {| pe_key := None; pe_name := None; pe_config := config; pe_disabled := false;
     pe_inject := []; pe_isolate := [] |}.

(** [key], falling back to [name]. *)
Definition resolve_identity (e : PluginEntry) : option string :=
  match pe_key e with Some k => Some k | None => pe_name e end.

(* @src crates/cordis-loader/src/plan.rs 301-305 PlanEntry *)
Inductive PlanEntry := PlanPlugin (entry : PluginEntry) | PlanGroup.

(* @src crates/cordis-loader/src/plan.rs 307-309 PlanEntry::is_parent_capable *)
Definition is_parent_capable (e : PlanEntry) : bool :=
  match e with PlanPlugin _ | PlanGroup => true end.

(* @src crates/cordis-loader/src/plan.rs 312-317 PlanNode *)
Record PlanNode := { pn_id : EntryId; pn_parent : option EntryId; pn_entry : PlanEntry }.

(** The first element of [names] that occurred before, [seen] included: what the
    [HashSet::insert] loops of [validate_plugin] report. *)
Fixpoint first_repeated (seen : gset string) (names : list string) : option string :=
  match names with
  | [] => None
  | n :: names => if decide (n ∈ seen) then Some n else first_repeated ({[ n ]} ∪ seen) names
  end.

(* @src crates/cordis-loader/src/plan.rs 607-633 validate_plugin *)
Definition validate_plugin (id : EntryId) (entry : PluginEntry) : result unit PlanError :=
  match pe_key entry, pe_name entry with
  | None, None => Err (MissingResolveIdentity id)
  | _, _ =>
      match first_repeated ∅ (map inject_service (pe_inject entry)) with
      | Some service => Err (DuplicateInjectService id service)
      | None =>
          match first_repeated ∅ (map is_service (pe_isolate entry)) with
          | Some service => Err (DuplicateIsolateService id service)
          | None => Ok tt
          end
      end
  end.

(** [next] is the next address of the allocator, from which the fresh [Arc]s come. *)
(* @src crates/cordis-loader/src/plan.rs 324-327 LoadPlanBuilder *)
Record LoadPlanBuilder := { lb_lineage : Addr; lb_nodes : list PlanNode; lb_next : Addr }.

(* @src crates/cordis-loader/src/plan.rs 334-340 LoadPlanBuilder::new *)
Definition LoadPlanBuilder_new (next : Addr) : LoadPlanBuilder :=
  {| lb_lineage := next; lb_nodes := []; lb_next := S next |}.

(* @src crates/cordis-loader/src/plan.rs 32-37 EntryId::new *)
Definition EntryId_new (b : LoadPlanBuilder) : EntryId * LoadPlanBuilder :=
  ({| eid_lineage := lb_lineage b; eid_occurrence := lb_next b |},
   {| lb_lineage := lb_lineage b; lb_nodes := lb_nodes b; lb_next := S (lb_next b) |}).

(* @src crates/cordis-loader/src/plan.rs 385-401 LoadPlanBuilder::validate_parent *)
Definition validate_parent (b : LoadPlanBuilder) (parent : option EntryId) : result unit PlanError :=
  match parent with
  | None => Ok tt
  | Some parent =>
      if eid_belongs_to parent (lb_lineage b) &&
         existsb (λ node, bool_decide (pn_id node = parent) && is_parent_capable (pn_entry node))
                 (lb_nodes b)
      then Ok tt else Err (ForeignParent parent)
  end.

Definition push_node (b : LoadPlanBuilder) (node : PlanNode) : LoadPlanBuilder :=
  {| lb_lineage := lb_lineage b; lb_nodes := lb_nodes b ++ [node]; lb_next := lb_next b |}.

(* @src crates/cordis-loader/src/plan.rs 343-357 LoadPlanBuilder::add_plugin *)
Definition add_plugin (b : LoadPlanBuilder) (parent : option EntryId) (entry : PluginEntry)
    : result EntryId PlanError * LoadPlanBuilder :=
  match validate_parent b parent with
  | Err e => (Err e, b)
  | Ok _ =>
      let '(id, b) := EntryId_new b in
      match validate_plugin id entry with
      | Err e => (Err e, b)
      | Ok _ => (Ok id, push_node b {| pn_id := id; pn_parent := parent; pn_entry := PlanPlugin entry |})
      end
  end.

(** The group's name is not retained. *)
(* @src crates/cordis-loader/src/plan.rs 360-375 LoadPlanBuilder::add_group *)
Definition add_group (b : LoadPlanBuilder) (parent : option EntryId) (group : string)
    : result EntryId PlanError * LoadPlanBuilder :=
  match validate_parent b parent with
  | Err e => (Err e, b)
  | Ok _ =>
      let '(id, b) := EntryId_new b in
      (Ok id, push_node b {| pn_id := id; pn_parent := parent; pn_entry := PlanGroup |})
  end.

(** The loop of [validate_complete]; [capable] is [parent_capable]. *)
(* @src crates/cordis-loader/src/plan.rs 635-653 validate_complete *)
Fixpoint validate_complete (lineage : Addr) (capable : gset EntryId) (nodes : list PlanNode)
    : result unit PlanError :=
  match nodes with
  | [] => Ok tt
  | node :: nodes =>
      let parent_ok := match pn_parent node with
                       | Some parent =>
                           if negb (eid_belongs_to parent lineage) || negb (bool_decide (parent ∈ capable))
                           then Err (ForeignParent parent) else Ok tt
                       | None => Ok tt
                       end in
      match parent_ok with
      | Err e => Err e
      | Ok _ =>
          match (match pn_entry node with
                 | PlanPlugin entry => validate_plugin (pn_id node) entry
                 | PlanGroup => Ok tt
                 end) with
          | Err e => Err e
          | Ok _ =>
              validate_complete lineage
                (if is_parent_capable (pn_entry node) then {[ pn_id node ]} ∪ capable else capable) nodes
          end
      end
  end.

(** A frozen [LoadPlan] is its node vector. *)
(* @src crates/cordis-loader/src/plan.rs 378-383 LoadPlanBuilder::finish *)
Definition finish (b : LoadPlanBuilder) : result (list PlanNode) PlanError :=
  match validate_complete (lb_lineage b) ∅ (lb_nodes b) with
  | Ok _ => Ok (lb_nodes b)
  | Err e => Err e
  end.

(** * Execution order *)

(** The [roots] and [children] tables, filled in declaration order; [index] is the
    index of the head of [nodes]. *)
(* @src crates/cordis-loader/src/plan.rs 583-592 LoadPlan::execution_order *)
Fixpoint index_topology (index : nat) (nodes : list PlanNode) (roots : list nat)
    (children : gmap EntryId (list nat)) : list nat * gmap EntryId (list nat) :=
  match nodes with
  | [] => (roots, children)
  | node :: nodes =>
      match pn_parent node with
      | Some parent =>
          index_topology (S index) nodes roots
            (<[ parent := default [] (children !! parent) ++ [index] ]> children)
      | None => index_topology (S index) nodes (roots ++ [index]) children
      end
  end.

(** The [while let] loop.  The head of [stack] is the end of the source's vector, so
    the reversed extension is a plain concatenation.  [None] is an index panic or the
    end of the fuel; see [execution_order_spec]. *)
(* @src crates/cordis-loader/src/plan.rs 594-601 LoadPlan::execution_order *)
Fixpoint order_loop (fuel : nat) (nodes : list PlanNode) (children : gmap EntryId (list nat))
    (stack order : list nat) : option (list nat) :=
  match stack with
  | [] => Some order
  | index :: stack =>
      match fuel with
      | O => None
      | S fuel =>
          match nodes !! index with
          | None => None
          | Some node =>
              order_loop fuel nodes children
                (default [] (children !! pn_id node) ++ stack) (order ++ [index])
          end
      end
  end.

(* @src crates/cordis-loader/src/plan.rs 581-604 LoadPlan::execution_order *)
Definition execution_order (nodes : list PlanNode) : option (list nat) :=
  let '(roots, children) := index_topology 0 nodes [] ∅ in
  order_loop (length nodes) nodes children roots [].
End plan.
Arguments InjectEntry Value : clear implicits.
Arguments PluginEntry Value : clear implicits.
Arguments PlanEntry Value : clear implicits.
Arguments PlanNode Value : clear implicits.
Arguments LoadPlanBuilder Value : clear implicits.

(** * Well-formed plans *)

(** The number of occurrences of [i]. *)
Definition count (i : nat) (l : list nat) : nat := length (filter (λ j, j = i) l).

Lemma count_app i l k : count i (l ++ k) = count i l + count i k.
Proof. unfold count. by rewrite filter_app, length_app. Qed.

Lemma count_cons i j l : count i (j :: l) = (if decide (j = i) then 1 else 0) + count i l.
Proof. unfold count. rewrite filter_cons. by case_decide. Qed.

Lemma count_not_in i l : i ∉ l → count i l = 0.
Proof. intros H. unfold count. rewrite filter_nothing; set_solver. Qed.

Lemma count_nodup i l : NoDup l → count i l = if decide (i ∈ l) then 1 else 0.
Proof.
  induction 1 as [|j l Hj Hnd IH]; [done|]. rewrite count_cons, IH.
  repeat case_decide; try done; exfalso; set_solver.
Qed.

Lemma count_le_nodup l : (∀ i, count i l ≤ 1) → NoDup l.
Proof.
  induction l as [|j l IH]; intros H; constructor.
  - intros Hj. specialize (H j). rewrite count_cons, decide_True in H by done.
    unfold count in H. destruct (filter (λ x, x = j) l) eqn:E; simpl in H; [|lia].
    assert (j ∈ filter (λ x, x = j) l) by (by apply list_elem_of_filter). rewrite E in *. set_solver.
  - apply IH. intros i. specialize (H i). rewrite count_cons in H. lia.
Qed.

Section order.
Context {Value : Type}.
Implicit Types (nodes : list (PlanNode Value)).

(** Identities are distinct and every parent was declared earlier. *)
Record plan_wf nodes : Prop := {
  pw_ids : NoDup (map pn_id nodes);
  pw_parent : ∀ i node p, nodes !! i = Some node → pn_parent node = Some p →
    ∃ j node', j < i ∧ nodes !! j = Some node' ∧ pn_id node' = p;
}.

(** The indices, counted from [k], of the nodes that satisfy [p]. *)
Fixpoint positions (p : PlanNode Value → bool) (k : nat) nodes : list nat :=
  match nodes with
  | [] => []
  | node :: nodes => if p node then k :: positions p (S k) nodes else positions p (S k) nodes
  end.

Definition is_root (node : PlanNode Value) : bool := bool_decide (pn_parent node = None).
Definition is_child_of (id : EntryId) (node : PlanNode Value) : bool :=
  bool_decide (pn_parent node = Some id).

(** The children of a node, in declaration order. *)
Definition kids nodes (i : nat) : list nat :=
  match nodes !! i with Some node => positions (is_child_of (pn_id node)) 0 nodes | None => [] end.

(** The reference order: a node, then the subtrees of its children. *)
Fixpoint subtree nodes (fuel i : nat) : list nat :=
  match fuel with O => [] | S fuel => i :: flat_map (subtree nodes fuel) (kids nodes i) end.

Definition preorder nodes : list nat :=
  flat_map (subtree nodes (length nodes)) (positions is_root 0 nodes).

Lemma positions_elem p k nodes j :
  j ∈ positions p k nodes ↔ k ≤ j ∧ ∃ node, nodes !! (j - k) = Some node ∧ p node = true.
Proof.
  revert k. induction nodes as [|a nodes IH]; intros k; simpl.
  { split; [set_solver|]. intros (_ & node & H & _). done. }
  assert (j ∈ positions p (S k) nodes ↔
    k < j ∧ ∃ node, (a :: nodes) !! (j - k) = Some node ∧ p node = true) as Hs.
  { rewrite IH. split; intros [Hj H].
    - split; [lia|]. by replace (j - k) with (S (j - S k)) by lia.
    - split; [lia|]. by replace (j - k) with (S (j - S k)) in H by lia. }
  destruct (p a) eqn:Ea; rewrite ?elem_of_cons, Hs; split.
  - intros [->|[? ?]]; [|split; [lia|done]]. split; [lia|]. exists a. by rewrite Nat.sub_diag.
  - intros [Hj H]. destruct (decide (j = k)); [by left|right]. split; [lia|done].
  - intros [? ?]. split; [lia|done].
  - intros [Hj (node & Hn & Hp)]. destruct (decide (j = k)) as [->|]; [|split; [lia|eauto]].
    rewrite Nat.sub_diag in Hn. simpl in Hn. congruence.
Qed.

Lemma positions_nodup p k nodes : NoDup (positions p k nodes).
Proof.
  revert k. induction nodes as [|a nodes IH]; intros k; simpl; [constructor|].
  destruct (p a); [|done]. constructor; [|done]. rewrite positions_elem. lia.
Qed.

Lemma index_topology_spec k nodes roots children :
  (index_topology k nodes roots children).1 = roots ++ positions is_root k nodes ∧
  ∀ id, default [] ((index_topology k nodes roots children).2 !! id) =
        default [] (children !! id) ++ positions (is_child_of id) k nodes.
Proof.
  revert k roots children. induction nodes as [|node nodes IH]; intros k roots children; simpl.
  { split; [by rewrite app_nil_r|]. intros id. by rewrite app_nil_r. }
  unfold is_root, is_child_of. destruct (pn_parent node) as [p|] eqn:Ep; simpl.
  - edestruct IH as [-> H2]. split; [done|]. intros id. rewrite H2. case_bool_decide as Hd.
    + simplify_eq. rewrite lookup_insert_eq. simpl. by rewrite <- app_assoc.
    + rewrite lookup_insert_ne by congruence. done.
  - edestruct IH as [-> H2]. split; [by rewrite <- app_assoc|]. intros id. by rewrite H2.
Qed.

Lemma kids_elem nodes i c :
  c ∈ kids nodes i ↔ ∃ node child, nodes !! i = Some node ∧ nodes !! c = Some child ∧
    pn_parent child = Some (pn_id node).
Proof.
  unfold kids. destruct (nodes !! i) as [node|] eqn:E; [|set_solver].
  rewrite positions_elem, Nat.sub_0_r. unfold is_child_of. split.
  - intros [_ (child & Hc & Hp)]. apply bool_decide_eq_true in Hp. eauto.
  - intros (? & child & [= <-] & Hc & Hp). split; [lia|]. exists child. by rewrite bool_decide_true.
Qed.

Section wf.
Context (nodes : list (PlanNode Value)) (Hwf : plan_wf nodes).

Lemma id_inj i j a b : nodes !! i = Some a → nodes !! j = Some b → pn_id a = pn_id b → i = j.
Proof.
  intros Hi Hj Heq. apply (NoDup_lookup (map pn_id nodes) i j (pn_id a)); [apply Hwf|..];
    rewrite list_lookup_fmap; [by rewrite Hi|by rewrite Hj, Heq].
Qed.

Lemma kids_lt i c : c ∈ kids nodes i → i < c < length nodes.
Proof.
  intros (node & child & Hi & Hc & Hp)%kids_elem.
  destruct (pw_parent nodes Hwf c child _ Hc Hp) as (j & node' & Hj & Hn & Hid).
  rewrite (id_inj _ _ _ _ Hi Hn) by congruence. split; [lia|by apply lookup_lt_Some in Hc].
Qed.

Lemma subtree_stable f1 f2 i :
  length nodes - i ≤ f1 → length nodes - i ≤ f2 → i < length nodes →
  subtree nodes f1 i = subtree nodes f2 i.
Proof.
  revert f2 i. induction f1 as [|f1 IH]; intros [|f2] i H1 H2 Hi; try lia. simpl. f_equal.
  rewrite !flat_map_concat_map. f_equal. apply map_ext_in. intros c Hc.
  apply list_elem_of_In, kids_lt in Hc. apply IH; lia.
Qed.

Lemma flat_subtree_stable f1 f2 l :
  (∀ i, i ∈ l → length nodes - i ≤ f1 ∧ length nodes - i ≤ f2 ∧ i < length nodes) →
  flat_map (subtree nodes f1) l = flat_map (subtree nodes f2) l.
Proof.
  intros H. rewrite !flat_map_concat_map. f_equal. apply map_ext_in. intros i Hi.
  apply list_elem_of_In, H in Hi. apply subtree_stable; lia.
Qed.

Lemma subtree_unfold i :
  i < length nodes →
  subtree nodes (length nodes) i = i :: flat_map (subtree nodes (length nodes)) (kids nodes i).
Proof.
  intros Hi. assert (∃ f, length nodes = S f) as [f Hf] by (exists (pred (length nodes)); lia).
  rewrite Hf. change (subtree nodes (S f) i) with (i :: flat_map (subtree nodes f) (kids nodes i)).
  f_equal. apply flat_subtree_stable. intros c Hc%kids_lt. lia.
Qed.

(** The loop visits the subtrees of the stack from the top down. *)
Lemma order_loop_preorder children :
  (∀ i node, nodes !! i = Some node → default [] (children !! pn_id node) = kids nodes i) →
  ∀ fuel stack order,
  (∀ i, i ∈ stack → i < length nodes) →
  length (flat_map (subtree nodes (length nodes)) stack) ≤ fuel →
  order_loop fuel nodes children stack order =
    Some (order ++ flat_map (subtree nodes (length nodes)) stack).
Proof.
  intros Hch. induction fuel as [|fuel IH]; intros [|i stack] order Hlt Hfuel; simpl.
  - by rewrite app_nil_r.
  - exfalso. specialize (Hlt i ltac:(by left)). simpl in Hfuel.
    destruct (length nodes); simpl in Hfuel; lia.
  - by rewrite app_nil_r.
  - specialize (Hlt i ltac:(by left)) as Hi. destruct (lookup_lt_is_Some_2 nodes i Hi) as [node Hn].
    rewrite Hn, (Hch i node Hn). simpl in Hfuel.
    pose proof (subtree_unfold i Hi) as Hsub.
    rewrite Hsub in Hfuel |- *. simpl in Hfuel. rewrite length_app in Hfuel. rewrite IH.
    + rewrite flat_map_app, <- app_assoc. reflexivity.
    + intros c [Hc|Hc]%elem_of_app; [apply kids_lt in Hc; lia|]. apply Hlt. by right.
    + rewrite flat_map_app, length_app. lia.
Qed.


Lemma count_positions i p k l :
  count i (positions p k l) = if decide (i ∈ positions p k l) then 1 else 0.
Proof using Type.
  apply count_nodup, positions_nodup.
Qed.

(** An occurrence of a node in a forest is an occurrence in the forest's list, or
    comes from an occurrence of its parent. *)
Lemma count_subtrees i node p j :
  nodes !! i = Some node → pn_parent node = Some (pn_id p) → nodes !! j = Some p →
  ∀ f l, (∀ x, x ∈ l → length nodes - x ≤ f ∧ x < length nodes) →
  count i (flat_map (subtree nodes f) l) = count i l + count j (flat_map (subtree nodes f) l).
Proof.
  intros Hi Hp Hj. induction f as [|f IHf]; intros l.
  { destruct l as [|x l]; [done|]. intros H. specialize (H x ltac:(by left)). lia. }
  induction l as [|x l IHl]; intros H; [done|]. specialize (H x ltac:(by left)) as Hx.
  specialize (IHl ltac:(intros; apply H; by right)).
  change (flat_map (subtree nodes (S f)) (x :: l)) with
    ((x :: flat_map (subtree nodes f) (kids nodes x)) ++ flat_map (subtree nodes (S f)) l).
  rewrite !count_cons, !count_app, !count_cons, IHl.
  rewrite IHf by (intros c Hc%kids_lt; lia).
  assert (count i (kids nodes x) = if decide (x = j) then 1 else 0) as ->; [|repeat case_decide; lia].
  unfold kids. destruct (nodes !! x) as [nx|] eqn:Ex; [|apply lookup_ge_None in Ex; lia].
  rewrite count_positions.
  pose proof (kids_elem nodes x i) as Hk. unfold kids in Hk. rewrite Ex in Hk.
  case_decide as H1; case_decide as H2; try done; exfalso.
  - apply H2. apply Hk in H1 as (? & ? & [= <-] & Hi' & Hp'). eapply id_inj; eauto. congruence.
  - apply H1, Hk. subst. naive_solver.
Qed.

Lemma preorder_count i : i < length nodes → count i (preorder nodes) = 1.
Proof.
  induction (lt_wf i) as [i _ IH]. intros Hi.
  destruct (lookup_lt_is_Some_2 nodes i Hi) as [node Hn].
  assert (∀ x, x ∈ positions is_root 0 nodes → length nodes - x ≤ length nodes ∧ x < length nodes) as Hroots.
  { intros x (_ & nx & Hx & _)%positions_elem. rewrite Nat.sub_0_r in Hx.
    apply lookup_lt_Some in Hx. lia. }
  destruct (pn_parent node) as [p|] eqn:Ep.
  - destruct (pw_parent nodes Hwf i node p Hn Ep) as (j & pn & Hj & Hpn & <-).
    unfold preorder. rewrite (count_subtrees i node pn j) by done.
    specialize (IH j Hj ltac:(lia)). unfold preorder in IH. rewrite IH, count_positions.
    rewrite decide_False; [done|]. intros (_ & n' & Hn' & Hr)%positions_elem.
    rewrite Nat.sub_0_r in Hn'. unfold is_root in Hr. apply bool_decide_eq_true in Hr. congruence.
  - unfold preorder.
    assert (∀ f l, (∀ x, x ∈ l → length nodes - x ≤ f ∧ x < length nodes) →
      count i (flat_map (subtree nodes f) l) = count i l) as Hc.
    { induction f as [|f IHf]; intros l.
      { destruct l as [|x l]; [done|]. intros H. specialize (H x ltac:(by left)). lia. }
      induction l as [|x l IHl]; intros H; [done|].
      change (flat_map (subtree nodes (S f)) (x :: l)) with
        ((x :: flat_map (subtree nodes f) (kids nodes x)) ++ flat_map (subtree nodes (S f)) l).
      rewrite count_cons, count_app, count_cons, IHl by (intros; apply H; by right).
      specialize (H x ltac:(by left)). rewrite IHf by (intros c Hk%kids_lt; lia).
      rewrite (count_not_in i (kids nodes x)); [case_decide; lia|].
      intros (nx & c & _ & Hi' & Hp)%kids_elem. congruence. }
    rewrite Hc by done. rewrite count_positions, decide_True; [done|].
    apply positions_elem. split; [lia|]. exists node. rewrite Nat.sub_0_r. split; [done|].
    by apply bool_decide_true.
Qed.

(** In a forest every entry is a member of the forest's list or comes after its parent. *)
Lemma flat_subtree_parent i node p j :
  nodes !! i = Some node → pn_parent node = Some (pn_id p) → nodes !! j = Some p →
  ∀ f l l1 l2, flat_map (subtree nodes f) l = l1 ++ i :: l2 → i ∈ l ∨ j ∈ l1.
Proof.
  intros Hi Hp Hj. induction f as [|f IHf]; intros l.
  { intros l1 l2 H. assert (flat_map (subtree nodes 0) l = []) as Hn.
    { clear H. induction l as [|x l IHl]; [done|apply IHl]. }
    rewrite Hn in H. by destruct l1. }
  induction l as [|x l IHl]; intros l1 l2 H; [by destruct l1|].
  change (flat_map (subtree nodes (S f)) (x :: l)) with
    (x :: (flat_map (subtree nodes f) (kids nodes x) ++ flat_map (subtree nodes (S f)) l)) in H.
  destruct l1 as [|y l1]; cbn in H; [injection H as -> _; left; by left|injection H as Hy H].
  apply app_eq_inv in H as [(k & H1 & H2)|(k & H1 & H2)].
  - destruct k as [|z k]; simplify_eq/=.
    + destruct (IHl [] l2 ltac:(done)) as [|]; set_solver.
    + apply IHf in H1 as [H1|H1]; [|set_solver].
      apply kids_elem in H1 as (nx & ? & Hx & Hi' & Hp'). right.
      assert (y = j) as ->; [|by left]. eapply id_inj; [exact Hx|exact Hj|]. congruence.
  - apply IHl in H2 as [|]; set_solver.
Qed.

Lemma preorder_parent_first l1 i l2 node p :
  preorder nodes = l1 ++ i :: l2 → nodes !! i = Some node → pn_parent node = Some p →
  ∃ j pn, j ∈ l1 ∧ nodes !! j = Some pn ∧ pn_id pn = p.
Proof.
  intros Ho Hi Hp. destruct (pw_parent nodes Hwf i node p Hi Hp) as (j & pn & Hj & Hpn & <-).
  exists j, pn. split; [|done].
  destruct (flat_subtree_parent i node pn j Hi Hp Hpn (length nodes) _ l1 l2 Ho) as [Hr|]; [|done].
  apply positions_elem in Hr as (_ & n' & Hn' & Hr). rewrite Nat.sub_0_r in Hn'.
  unfold is_root in Hr. apply bool_decide_eq_true in Hr. congruence.
Qed.

Lemma preorder_bound i : i ∈ preorder nodes → i < length nodes.
Proof.
  assert (∀ f l, (∀ x, x ∈ l → x < length nodes) →
    ∀ i, i ∈ flat_map (subtree nodes f) l → i < length nodes) as H.
  { induction f as [|f IHf]; intros l Hl x Hx; apply list_elem_of_In, in_flat_map in Hx as (y & Hy & Hx);
      apply list_elem_of_In in Hy; apply list_elem_of_In in Hx; [set_solver|].
    simpl in Hx. apply elem_of_cons in Hx as [->|Hx]; [by apply Hl|].
    eapply IHf; [|exact Hx]. intros c Hc%kids_lt. lia. }
  apply H. intros x (_ & nx & Hx & _)%positions_elem. rewrite Nat.sub_0_r in Hx.
  by apply lookup_lt_Some in Hx.
Qed.

Lemma preorder_perm : preorder nodes ≡ₚ seq 0 (length nodes).
Proof.
  apply NoDup_Permutation.
  - apply count_le_nodup. intros i. destruct (decide (i < length nodes)).
    + by rewrite preorder_count.
    + rewrite count_not_in; [lia|]. intros H%preorder_bound. done.
  - apply NoDup_seq.
  - intros i. rewrite elem_of_seq. split; [intros H%preorder_bound; lia|]. intros [_ Hi].
    destruct (decide (i ∈ preorder nodes)) as [|Hn]; [done|].
    apply count_not_in in Hn. rewrite preorder_count in Hn by done. done.
Qed.

Lemma preorder_nodup : NoDup (preorder nodes).
Proof. rewrite preorder_perm. apply NoDup_seq. Qed.

Lemma execution_order_preorder : execution_order nodes = Some (preorder nodes).
Proof.
  unfold execution_order. pose proof (index_topology_spec 0 nodes [] ∅) as [Hr Hc].
  destruct (index_topology 0 nodes [] ∅) as [roots children]. simpl in Hr, Hc. subst roots.
  rewrite order_loop_preorder; [done|..].
  - intros i node Hn. rewrite Hc, lookup_empty. unfold kids. by rewrite Hn.
  - intros i (_ & nx & Hx & _)%positions_elem. rewrite Nat.sub_0_r in Hx.
    by apply lookup_lt_Some in Hx.
  - change (length (preorder nodes) ≤ length nodes). by rewrite preorder_perm, length_seq.
Qed.
End wf.
End order.

(** * Building plans *)

Section building.
Context {Value : Type}.
Implicit Types (b : LoadPlanBuilder Value) (nodes : list (PlanNode Value)).

(** What [validate_plugin] accepts. *)
Definition plugin_valid (entry : PluginEntry Value) : Prop :=
  is_Some (resolve_identity entry) ∧
  NoDup (map inject_service (pe_inject entry)) ∧ NoDup (map is_service (pe_isolate entry)).

Lemma first_repeated_None seen names :
  first_repeated seen names = None ↔ NoDup names ∧ (∀ n, n ∈ names → n ∉ seen).
Proof.
  revert seen. induction names as [|n names IH]; intros seen; simpl.
  { split; [|done]. intros _. split; [constructor|set_solver]. }
  case_decide; [set_solver|]. rewrite IH, NoDup_cons. set_solver.
Qed.

Lemma first_repeated_Some seen names s :
  first_repeated seen names = Some s → s ∈ names ∧ (s ∈ seen ∨ ¬ NoDup names).
Proof.
  revert seen. induction names as [|n names IH]; intros seen; simpl; [done|].
  case_decide; intros H1; simplify_eq; [set_solver|].
  apply IH in H1 as [Hin H1]. rewrite NoDup_cons. split; [set_solver|].
  destruct H1 as [[Hs| ]%elem_of_union|]; [|tauto..]. right. set_solver.
Qed.

Lemma validate_plugin_cases id (entry : PluginEntry Value) :
  match validate_plugin id entry with
  | Ok _ => plugin_valid entry
  | Err (MissingResolveIdentity i) => i = id ∧ resolve_identity entry = None
  | Err (DuplicateInjectService i service) => i = id ∧ is_Some (resolve_identity entry) ∧
      service ∈ map inject_service (pe_inject entry) ∧ ¬ NoDup (map inject_service (pe_inject entry))
  | Err (DuplicateIsolateService i service) => i = id ∧ is_Some (resolve_identity entry) ∧
      NoDup (map inject_service (pe_inject entry)) ∧
      service ∈ map is_service (pe_isolate entry) ∧ ¬ NoDup (map is_service (pe_isolate entry))
  | Err (ForeignParent _) => False
  end.
Proof.
  assert (pe_key entry = None ∧ pe_name entry = None ∨ is_Some (resolve_identity entry)) as Hid.
  { unfold resolve_identity. destruct (pe_key entry); [by right|]. destruct (pe_name entry); [by right|by left]. }
  unfold validate_plugin. destruct Hid as [[Hk Hn]|Hid].
  { rewrite Hk, Hn. split; [done|]. unfold resolve_identity. by rewrite Hk. }
  assert (∀ A (x y : A), match pe_key entry, pe_name entry with None, None => x | _, _ => y end = y) as ->.
  { intros A x y. unfold resolve_identity in Hid. destruct (pe_key entry), (pe_name entry); done. }
  destruct (first_repeated ∅ (map inject_service (pe_inject entry))) as [s|] eqn:E1.
  { apply first_repeated_Some in E1 as [? [?|?]]; [set_solver|]. done. }
  apply first_repeated_None in E1 as [E1 _].
  destruct (first_repeated ∅ (map is_service (pe_isolate entry))) as [s|] eqn:E2.
  { apply first_repeated_Some in E2 as [? [?|?]]; [set_solver|]. done. }
  apply first_repeated_None in E2 as [E2 _]. done.
Qed.

Lemma validate_plugin_ok id (entry : PluginEntry Value) :
  plugin_valid entry → validate_plugin id entry = Ok tt.
Proof.
  intros (Hi & H1 & H2). pose proof (validate_plugin_cases id entry) as H.
  destruct (validate_plugin id entry) as [[]|[]]; [done|done|..]; try tauto.
  destruct H as [_ H]. rewrite H in Hi. by destruct Hi.
Qed.

Definition node_valid (node : PlanNode Value) : Prop :=
  match pn_entry node with PlanPlugin entry => plugin_valid entry | PlanGroup => True end.

(** The invariant of a builder. *)
Record builder_wf b : Prop := {
  bw_plan : plan_wf (lb_nodes b);
  bw_lineage : ∀ node, node ∈ lb_nodes b → eid_lineage (pn_id node) = lb_lineage b;
  bw_fresh : ∀ node, node ∈ lb_nodes b → eid_occurrence (pn_id node) < lb_next b;
  bw_valid : ∀ node, node ∈ lb_nodes b → node_valid node;
}.

Lemma LoadPlanBuilder_new_wf next : builder_wf (LoadPlanBuilder_new next).
Proof. split; simpl; [split; simpl; [constructor|done]|set_solver..]. Qed.

Lemma validate_parent_ok b parent :
  builder_wf b →
  validate_parent b parent = Ok tt ∧
    (∀ p, parent = Some p → ∃ node, node ∈ lb_nodes b ∧ pn_id node = p) ∨
  ∃ p, parent = Some p ∧ validate_parent b parent = Err (ForeignParent p) ∧
    (∀ node, node ∈ lb_nodes b → pn_id node ≠ p).
Proof.
  intros Hwf. destruct parent as [p|]; simpl; [|left; done].
  destruct (existsb _ (lb_nodes b)) eqn:E.
  - apply existsb_exists in E as (node & Hin & Hp). apply list_elem_of_In in Hin.
    apply andb_true_iff in Hp as [Hp _]. apply bool_decide_eq_true in Hp. subst p.
    left. unfold eid_belongs_to. rewrite bool_decide_true by (by apply (bw_lineage _ Hwf)).
    split; [done|]. intros ? [= <-]. eauto.
  - right. exists p. split; [done|]. rewrite andb_false_r. split; [done|].
    intros node Hn <-. apply not_true_iff_false in E. apply E, existsb_exists.
    exists node. split; [by apply list_elem_of_In|]. rewrite bool_decide_true by done.
    by destruct (pn_entry node).
Qed.

(** Admitting a node with a fresh identity keeps the invariant. *)
Lemma push_node_wf b parent entry :
  builder_wf b → (∀ p, parent = Some p → ∃ node, node ∈ lb_nodes b ∧ pn_id node = p) →
  match entry with PlanPlugin e => plugin_valid e | PlanGroup => True end →
  builder_wf (push_node (EntryId_new b).2
    {| pn_id := (EntryId_new b).1; pn_parent := parent; pn_entry := entry |}).
Proof.
  intros [[Hnd Hpar] Hl Hf Hv] Hp He.
  assert (∀ node, node ∈ lb_nodes b → pn_id node ≠ (EntryId_new b).1) as Hnew.
  { intros node Hn Heq. apply Hf in Hn. rewrite Heq in Hn. simpl in Hn. lia. }
  split; simpl.
  - split.
    + rewrite map_app. apply NoDup_app. split_and!; [done| |apply NoDup_singleton].
      intros id Hid. apply list_elem_of_fmap in Hid as (node & -> & Hn). simpl.
      rewrite list_elem_of_singleton. by apply Hnew.
    + intros i node p Hi Hpn. apply lookup_app_Some in Hi as [Hi|[Hi Hs]].
      * destruct (Hpar i node p Hi Hpn) as (j & n' & ? & ? & ?). exists j, n'.
        split_and!; [done| |done]. by apply lookup_app_l_Some.
      * apply list_lookup_singleton_Some in Hs as [Hs <-]. simpl in Hpn.
        destruct (Hp p Hpn) as (node & Hn & <-). apply list_elem_of_lookup in Hn as [j Hj].
        exists j, node. apply lookup_lt_Some in Hj as Hlt. split_and!; [lia| |done].
        by apply lookup_app_l_Some.
  - intros node [Hn|Hn]%elem_of_app; [by apply Hl|]. by apply list_elem_of_singleton in Hn as ->.
  - intros node [Hn|Hn]%elem_of_app; [apply Hf in Hn; lia|]. apply list_elem_of_singleton in Hn as ->. simpl. lia.
  - intros node [Hn|Hn]%elem_of_app; [by apply Hv|]. by apply list_elem_of_singleton in Hn as ->.
Qed.

Lemma alloc_wf b : builder_wf b → builder_wf (EntryId_new b).2.
Proof.
  intros [Hp Hl Hf Hv]. split; simpl; [done|done| |done]. intros node Hn. apply Hf in Hn. lia.
Qed.

(** The requests a client makes of a builder. *)
Inductive BuildOp :=
| AddPlugin (parent : option EntryId) (entry : PluginEntry Value)
| AddGroup (parent : option EntryId) (group : string).

Definition build_step (op : BuildOp) b : result EntryId PlanError * LoadPlanBuilder Value :=
  match op with
  | AddPlugin parent entry => add_plugin b parent entry
  | AddGroup parent group => add_group b parent group
  end.

Fixpoint build (ops : list BuildOp) b : list (result EntryId PlanError) * LoadPlanBuilder Value :=
  match ops with
  | [] => ([], b)
  | op :: ops => let '(r, b) := build_step op b in
                 let '(rs, b) := build ops b in (r :: rs, b)
  end.

Definition admitted (r : result EntryId PlanError) : option EntryId :=
  match r with Ok id => Some id | Err _ => None end.

Lemma build_step_wf op b :
  builder_wf b →
  let '(r, b') := build_step op b in
  builder_wf b' ∧ lb_lineage b' = lb_lineage b ∧
  map pn_id (lb_nodes b') = map pn_id (lb_nodes b) ++ match admitted r with Some id => [id] | None => [] end.
Proof.
  intros Hwf. destruct op as [parent entry|parent group]; unfold build_step, add_plugin, add_group;
    destruct (validate_parent_ok b parent Hwf) as [[-> Hp]|(p & -> & -> & _)];
    try (split_and!; [done|done|by rewrite app_nil_r]).
  - cbn. pose proof (validate_plugin_cases (EntryId_new b).1 entry) as Hv.
    destruct (validate_plugin _ entry) as [[]|e].
    + split_and!; [by apply (push_node_wf b parent (PlanPlugin entry))|done|]. cbn. by rewrite map_app.
    + split_and!; [by apply alloc_wf|done|]. by rewrite app_nil_r.
  - cbn. split_and!; [by apply (push_node_wf b parent PlanGroup)|done|]. by rewrite map_app.
Qed.

Lemma build_wf ops b :
  builder_wf b →
  let '(rs, b') := build ops b in
  builder_wf b' ∧ map pn_id (lb_nodes b') = map pn_id (lb_nodes b) ++ omap admitted rs.
Proof.
  revert b. induction ops as [|op ops IH]; intros b Hwf; simpl; [by rewrite app_nil_r|].
  pose proof (build_step_wf op b Hwf) as Hs. destruct (build_step op b) as [r b1].
  destruct Hs as (Hwf1 & _ & Hids). specialize (IH b1 Hwf1). destruct (build ops b1) as [rs b2].
  destruct IH as [Hwf2 ->]. split; [done|]. rewrite Hids, <- app_assoc. csimpl. by destruct (admitted r).
Qed.

Lemma validate_complete_ok lineage capable nodes :
  (∀ i node p, nodes !! i = Some node → pn_parent node = Some p →
    eid_lineage p = lineage ∧
    (p ∈ capable ∨ ∃ j node', j < i ∧ nodes !! j = Some node' ∧ pn_id node' = p)) →
  (∀ node, node ∈ nodes → node_valid node) →
  validate_complete lineage capable nodes = Ok tt.
Proof.
  revert capable. induction nodes as [|node nodes IH]; intros capable Hp Hv; [done|]. simpl.
  assert (match pn_parent node with
          | Some parent => if negb (eid_belongs_to parent lineage) || negb (bool_decide (parent ∈ capable))
                           then Err (ForeignParent parent) else Ok tt
          | None => Ok tt end = Ok tt) as ->.
  { destruct (pn_parent node) as [p|] eqn:Ep; [|done].
    destruct (Hp 0 node p eq_refl Ep) as [Hl [Hc|(j & ? & ? & _)]]; [|lia].
    unfold eid_belongs_to. by rewrite !bool_decide_true. }
  assert (match pn_entry node with PlanPlugin e => validate_plugin (pn_id node) e
          | PlanGroup => Ok tt end = Ok tt) as ->.
  { specialize (Hv node ltac:(by left)). unfold node_valid in Hv.
    destruct (pn_entry node); [by apply validate_plugin_ok|done]. }
  apply IH; [|set_solver]. intros i n p Hi Hpn.
  destruct (Hp (S i) n p Hi Hpn) as [Hl Hc]. split; [done|].
  replace (is_parent_capable (pn_entry node)) with true by (by destruct (pn_entry node)).
  destruct Hc as [Hc|([|j] & n' & Hj & Hn & Hid)]; [set_solver| |].
  - simpl in Hn. simplify_eq. set_solver.
  - right. exists j, n'. split_and!; [lia|done|done].
Qed.

Lemma finish_ok b : builder_wf b → finish b = Ok (lb_nodes b).
Proof.
  intros [[Hnd Hpar] Hl Hf Hv]. unfold finish. rewrite validate_complete_ok; [done| |done].
  intros i node p Hi Hpn. destruct (Hpar i node p Hi Hpn) as (j & n' & ? & Hn & <-).
  split; [|right; eauto]. apply Hl. by eapply list_elem_of_lookup_2.
Qed.
End building.
Arguments BuildOp Value : clear implicits.

(** * Properties *)

(** Every plan that can be built is accepted: whatever requests a client makes,
    refused ones included, [finish] succeeds, freezes exactly the admitted entries in
    admission order under their returned identities, which are pairwise distinct, and
    every parent is declared before its children. *)
Theorem finish_accepts_built_plans {Value : Type} (next : Addr) (ops : list (BuildOp Value)) :
  let '(answers, b) := build ops (LoadPlanBuilder_new next) in
  ∃ nodes, finish b = Ok nodes ∧ map pn_id nodes = omap admitted answers ∧ plan_wf nodes.
Proof.
  pose proof (build_wf ops _ (LoadPlanBuilder_new_wf next)) as H.
  destruct (build ops (LoadPlanBuilder_new next)) as [answers b]. destruct H as [Hwf Hids].
  exists (lb_nodes b). split_and!; [by apply finish_ok|done|apply Hwf].
Qed.

(** Admission of a Plugin entry decides exactly: the parent is checked first,
    then the resolve identity, the injected Services and the isolated Services, the
    reported Service being one that is really declared twice; a refused entry leaves
    the declarations unchanged, and an admitted one is appended with a fresh identity
    of the builder's lineage. *)
Theorem add_plugin_admission {Value : Type} (b : LoadPlanBuilder Value)
    (parent : option EntryId) (entry : PluginEntry Value) (Hwf : builder_wf b) :
  let known := ∀ p, parent = Some p → ∃ node, node ∈ lb_nodes b ∧ pn_id node = p in
  match add_plugin b parent entry with
  | (Ok id, b') => known ∧ plugin_valid entry ∧ eid_lineage id = lb_lineage b ∧
      (∀ node, node ∈ lb_nodes b → pn_id node ≠ id) ∧
      lb_nodes b' = lb_nodes b ++ [{| pn_id := id; pn_parent := parent; pn_entry := PlanPlugin entry |}]
  | (Err e, b') => lb_nodes b' = lb_nodes b ∧
      match e with
      | ForeignParent p => parent = Some p ∧ ¬ ∃ node, node ∈ lb_nodes b ∧ pn_id node = p
      | MissingResolveIdentity _ => known ∧ pe_key entry = None ∧ pe_name entry = None
      | DuplicateInjectService _ service => known ∧ is_Some (resolve_identity entry) ∧
          service ∈ map inject_service (pe_inject entry) ∧ ¬ NoDup (map inject_service (pe_inject entry))
      | DuplicateIsolateService _ service => known ∧ is_Some (resolve_identity entry) ∧
          NoDup (map inject_service (pe_inject entry)) ∧
          service ∈ map is_service (pe_isolate entry) ∧ ¬ NoDup (map is_service (pe_isolate entry))
      end
  end.
Proof.
  intros known. unfold add_plugin.
  destruct (validate_parent_ok b parent Hwf) as [[-> Hp]|(p & -> & -> & Hn)].
  - cbn. pose proof (validate_plugin_cases (EntryId_new b).1 entry) as Hv. cbn in Hv.
    destruct (validate_plugin _ entry) as [[]|[]]; cbn; try done.
    + split_and!; try done. intros node Hn Heq. apply (bw_fresh _ Hwf) in Hn. rewrite Heq in Hn.
      simpl in Hn. lia.
    + split_and!; try done; destruct Hv as [_ Hv]; unfold resolve_identity in Hv; by destruct (pe_key entry).
    + by destruct Hv as (_ & ? & ? & ?).
    + by destruct Hv as (_ & ? & ? & ? & ?).
  - split; [done|]. split; [done|]. intros (node & Hin & Hid). by apply (Hn node).
Qed.

Definition sample_plugin (key : string) (disabled : bool) (isolate : list IsolateEntry) : PluginEntry nat :=
  {| pe_key := Some key; pe_name := None; pe_config := 0; pe_disabled := disabled;
     pe_inject := []; pe_isolate := isolate |}.

Definition sample_id (occurrence : nat) : EntryId := {| eid_lineage := 10; eid_occurrence := occurrence |}.

(** A group with two plugins, the first of which is disabled and has a child. *)
Definition sample_ops : list (BuildOp nat) :=
  [AddGroup None "g"; AddPlugin (Some (sample_id 11)) (sample_plugin "a" true []);
   AddPlugin (Some (sample_id 11)) (sample_plugin "b" false [{| is_service := "db"; is_policy := Shared "x" |}]);
   AddPlugin (Some (sample_id 12)) (sample_plugin "c" false []);
   AddPlugin None (sample_plugin "d" false [{| is_service := "db"; is_policy := Shared "x" |}])].

Example add_plugin_admission_witness :
  (add_plugin (build sample_ops (LoadPlanBuilder_new 10)).2 (Some (sample_id 99))
     (sample_plugin "e" false [])).1 = Err (ForeignParent (sample_id 99)).
Proof.
  pose proof (build_wf sample_ops _ (LoadPlanBuilder_new_wf 10)) as H.
  pose proof (λ Hwf, add_plugin_admission (build sample_ops (LoadPlanBuilder_new 10)).2
    (Some (sample_id 99)) (sample_plugin "e" false []) Hwf) as Ha.
  destruct (build sample_ops (LoadPlanBuilder_new 10)) as [answers b] eqn:E. destruct H as [Hwf _].
  specialize (Ha Hwf). cbn [snd] in *. destruct (add_plugin b _ _) as [[id|[]] b'].
  2: by destruct Ha as (_ & [= ->] & _).
  all: exfalso; repeat match goal with H : _ ∧ _ |- _ => destruct H end;
    match goal with H : ∀ p, Some _ = Some p → _ |- _ => destruct (H _ eq_refl) as (node & Hn & Hid) end;
    vm_compute in E; injection E as <- <-; cbn in Hn;
    repeat (apply elem_of_cons in Hn as [->|Hn]; [discriminate Hid|]); by apply not_elem_of_nil in Hn.
Defined.

(** [C35] The execution order of a well-formed plan is the preorder of its forest: the
    traversal terminates within one step per entry, never indexes out of range, visits
    every entry exactly once, each entry directly followed by the subtrees of its
    children in declaration order. *)
Theorem execution_order_is_preorder {Value : Type} (nodes : list (PlanNode Value))
    (Hwf : plan_wf nodes) :
  execution_order nodes = Some (preorder nodes) ∧
  preorder nodes ≡ₚ seq 0 (length nodes) ∧
  ∀ i, i < length nodes →
    subtree nodes (length nodes) i = i :: flat_map (subtree nodes (length nodes)) (kids nodes i).
Proof.
  split_and!; [by apply execution_order_preorder|by apply preorder_perm|].
  intros i. by apply subtree_unfold.
Qed.

Example execution_order_is_preorder_witness :
  execution_order (lb_nodes (build sample_ops (LoadPlanBuilder_new 10)).2) = Some [0; 1; 3; 2; 4].
Proof.
  pose proof (build_wf sample_ops _ (LoadPlanBuilder_new_wf 10)) as H.
  destruct (build sample_ops (LoadPlanBuilder_new 10)) as [answers b] eqn:E. destruct H as [Hwf _].
  cbn [snd]. rewrite (proj1 (execution_order_is_preorder (lb_nodes b) (bw_plan _ Hwf))).
  vm_compute in E. injection E as <- <-. vm_compute. reflexivity.
Defined.
