(* ===== verification/LoaderRun.v ===== *)
(** Executing a Loader plan (crates/cordis-loader/src/plan.rs, resolver.rs, outcome.rs,
    handoff.rs): realm placement, the resolver firewall, the per-entry loop, the
    outcome and the ownership bridge that rolls back an abandoned execution.

    The resolver is user code and [spawn] is the core's; both are arbitrary functions
    of the Runtime world.  A panic of the Loader itself is a value of [LoadPanic]. *)
From S2P Require Import Prelude Axes LoaderPlan.

(** Loader code unwinds in two ways: the core's realm space is used up, or one of the
    [expect]s fails; [load_outcome_complete] excludes the second. *)
Inductive LoadPanic := RealmSpaceExhausted | ExpectFailed (message : string).

(** * The resolver firewall *)

(** What a panic carries, as the downcasts of [resolve_entry] distinguish it. *)
Inductive PanicPayload := PayloadStr (s : string) | PayloadString (s : string) | PayloadOther.

(* @src crates/cordis-loader/src/resolver.rs 95-102 ResolverFailureKind *)
Inductive ResolverFailureKind := ReturnedError | ResolverPanic.

(* @src crates/cordis-loader/src/resolver.rs 108-112 ResolverFailure *)
Record ResolverFailure := { rf_kind : ResolverFailureKind; rf_diagnostic : string }.

(* @src crates/cordis-loader/src/resolver.rs 115-120 ResolverFailure::returned *)
Definition ResolverFailure_returned (diagnostic : string) : ResolverFailure :=
  {| rf_kind := ReturnedError; rf_diagnostic := diagnostic |}.

(* @src crates/cordis-loader/src/resolver.rs 122-127 ResolverFailure::panicked *)
Definition ResolverFailure_panicked (diagnostic : string) : ResolverFailure :=
  {| rf_kind := ResolverPanic; rf_diagnostic := diagnostic |}.

(* @src crates/cordis-loader/src/resolver.rs 141-148 ResolverFailure::fmt *)
Definition resolver_failure_display (f : ResolverFailure) : string :=
  match rf_kind f with
  | ReturnedError => String.append "resolver returned an error: " (rf_diagnostic f)
  | ResolverPanic => String.append "resolver panicked: " (rf_diagnostic f)
  end.

Section load.
Context {Value Prepared FiberHandle SpawnError W : Type}.

(* @src crates/cordis-loader/src/resolver.rs 27-31 PluginRequest *)
Record PluginRequest := {
  pr_resolve_key : string;
  pr_config : Value;
  pr_inject : list (InjectEntry Value);
}.

(* @src crates/cordis-loader/src/resolver.rs 34-45 PluginRequest::from_entry *)
Definition PluginRequest_from_entry (entry : PluginEntry Value) : result PluginRequest LoadPanic :=
  match resolve_identity entry with
  | Some key => Ok {| pr_resolve_key := key; pr_config := pe_config entry; pr_inject := pe_inject entry |}
  | None => Err (ExpectFailed "validated Plugin entries always carry a resolve identity")
  end.

(** The Runtime world: its realm counter and everything user code may touch. *)
Record World := { w_sn : SnCounters; w_user : W }.

(** How one resolver invocation ends; a returned error is given by its text. *)
Inductive ResolverEnding :=
| ResolverReturned (r : result (option Prepared) string)
| ResolverUnwound (payload : PanicPayload).

Context (resolver : PluginRequest → World → ResolverEnding * World).
Context (spawn : Context → Prepared → World → result FiberHandle SpawnError * World).

(* @src crates/cordis-loader/src/resolver.rs 263-284 resolve_entry *)
Definition resolve_entry (entry : PluginEntry Value) (w : World)
    : result (result (option Prepared) ResolverFailure * World) LoadPanic :=
  try request := PluginRequest_from_entry entry in
  Ok match resolver request w with
     | (ResolverReturned (Ok prepared), w) => (Ok prepared, w)
     | (ResolverReturned (Err diagnostic), w) => (Err (ResolverFailure_returned diagnostic), w)
     | (ResolverUnwound payload, w) =>
         let diagnostic := match payload with
                           | PayloadStr message | PayloadString message => message
                           | PayloadOther => "non-string panic payload"
                           end in
         (Err (ResolverFailure_panicked diagnostic), w)
     end.

(** * Outcomes *)

(* @src crates/cordis-loader/src/outcome.rs 90-105 LoaderFailure *)
Inductive LoaderFailure :=
| UnresolvedKey (key : string)
| Resolver (f : ResolverFailure)
| Spawn (e : SpawnError).

(* @src crates/cordis-loader/src/outcome.rs 27-70 EntryOutcome *)
Inductive EntryOutcome :=
| OutcomeGroup (id : EntryId)
| OutcomeDisabled (id : EntryId)
| OutcomePruned (id disabled_ancestor : EntryId)
| OutcomeSpawned (id : EntryId) (resolve_key : string) (fiber_handle : FiberHandle)
| OutcomeFailed (id : EntryId) (resolve_key : string) (failure : LoaderFailure).

(* @src crates/cordis-loader/src/outcome.rs 74-82 EntryOutcome::id *)
Definition outcome_id (o : EntryOutcome) : EntryId :=
  match o with
  | OutcomeGroup id | OutcomeDisabled id | OutcomePruned id _ | OutcomeSpawned id _ _
  | OutcomeFailed id _ _ => id
  end.

(** A [LoadOutcome] is its entry vector. *)
(* @src crates/cordis-loader/src/outcome.rs 134-136 LoadOutcome::entry *)
Definition lo_entry (entries : list EntryOutcome) (id : EntryId) : option EntryOutcome :=
  snd <$> list_find (λ o, outcome_id o = id) entries.

Definition spawned_handle (o : EntryOutcome) : option FiberHandle :=
  match o with OutcomeSpawned _ _ h => Some h | _ => None end.

(* @src crates/cordis-loader/src/outcome.rs 139-144 LoadOutcome::fiber_handles *)
Definition lo_fiber_handles (entries : list EntryOutcome) : list FiberHandle :=
  omap spawned_handle entries.

(* @src crates/cordis-loader/src/outcome.rs 147-152 LoadOutcome::is_ok *)
Definition lo_is_ok (entries : list EntryOutcome) : bool :=
  negb (existsb (λ o, match o with OutcomeFailed _ _ _ => true | _ => false end) entries).

(** * The ownership bridge *)

(* @src crates/cordis-loader/src/handoff.rs 10-13 ResultHandoff *)
Record ResultHandoff := { rh_entries : option (list EntryOutcome) }.

(* @src crates/cordis-loader/src/handoff.rs 16-21 ResultHandoff::with_capacity *)
Definition ResultHandoff_new : ResultHandoff := {| rh_entries := Some [] |}.

(* @src crates/cordis-loader/src/handoff.rs 23-28 ResultHandoff::push *)
Definition handoff_push (h : ResultHandoff) (o : EntryOutcome) : result ResultHandoff LoadPanic :=
  match rh_entries h with
  | Some entries => Ok {| rh_entries := Some (entries ++ [o]) |}
  | None => Err (ExpectFailed "unfinished result handoff owns its entries")
  end.

(** The outcome, and the handoff that is dropped afterwards. *)
(* @src crates/cordis-loader/src/handoff.rs 37-43 ResultHandoff::finish *)
Definition handoff_finish (h : ResultHandoff) : result (list EntryOutcome * ResultHandoff) LoadPanic :=
  match rh_entries h with
  | Some entries => Ok (entries, {| rh_entries := None |})
  | None => Err (ExpectFailed "result handoff finishes exactly once")
  end.

(** The Fibers that [rollback] disposes, in order. *)
(* @src crates/cordis-loader/src/handoff.rs 57-66 rollback *)
Definition rollback (entries : list EntryOutcome) : list FiberHandle :=
  omap spawned_handle (rev entries).

(* @src crates/cordis-loader/src/handoff.rs 49-54 ResultHandoff::drop *)
Definition handoff_drop (h : ResultHandoff) : list FiberHandle :=
  match rh_entries h with Some entries => rollback entries | None => [] end.

(** * Realm placement *)

(** The realm of one row; the table is [RealmEnvironment::shared]. *)
Definition place_row (membership : Addr) (policy : RealmPolicy) (shared : gmap string ServiceRealm)
    (w : World) : result (ServiceRealm * gmap string ServiceRealm * World) LoadPanic :=
  let fresh :=
    match new_service_realm membership (w_sn w) with
    | Some (realm, sn) => Ok (realm, {| w_sn := sn; w_user := w_user w |})
    | None => Err RealmSpaceExhausted
    end in
  match policy with
  | Private => try r := fresh in let '(realm, w) := r in Ok (realm, shared, w)
  | Shared label =>
      match shared !! label with
      | Some realm => Ok (realm, shared, w)
      | None => try r := fresh in let '(realm, w) := r in Ok (realm, <[ label := realm ]> shared, w)
      end
  end.

(** The [mappings] iterator, in declaration order. *)
(* @src crates/cordis-loader/src/plan.rs 449-459 RealmEnvironment::place *)
Fixpoint place_rows (membership : Addr) (declarations : list IsolateEntry)
    (shared : gmap string ServiceRealm) (w : World)
    : result (list (string * ServiceRealm) * gmap string ServiceRealm * World) LoadPanic :=
  match declarations with
  | [] => Ok ([], shared, w)
  | d :: declarations =>
      try r := place_row membership (is_policy d) shared w in
      let '(realm, shared, w) := r in
      try r := place_rows membership declarations shared w in
      let '(mappings, shared, w) := r in
      Ok ((is_service d, realm) :: mappings, shared, w)
  end.

(* @src crates/cordis-loader/src/plan.rs 440-467 RealmEnvironment::place *)
Definition place (ctx : Context) (membership : Addr) (declarations : list IsolateEntry)
    (shared : gmap string ServiceRealm) (w : World)
    : result (Context * gmap string ServiceRealm * World) LoadPanic :=
  match declarations with
  | [] => Ok (ctx, shared, w)
  | _ =>
      try r := place_rows membership declarations shared w in
      let '(mappings, shared, w) := r in
      match with_service_realms ctx membership mappings with
      | Ok ctx => Ok (ctx, shared, w)
      | Err _ => Err (ExpectFailed "validated Loader isolate declarations use unique services and execution-local realms")
      end
  end.

(** * The execution loop *)

(** The locals of [load]. *)
Record LoadState := {
  ls_handoff : ResultHandoff;
  ls_disabled : gmap EntryId EntryId;
  ls_realms : gmap string ServiceRealm;
  ls_world : World;
}.

Definition record_outcome (st : LoadState) (o : EntryOutcome) (disabled : gmap EntryId EntryId)
    (realms : gmap string ServiceRealm) (w : World) : result LoadState LoadPanic :=
  try h := handoff_push (ls_handoff st) o in
  Ok {| ls_handoff := h; ls_disabled := disabled; ls_realms := realms; ls_world := w |}.

(** A reachable enabled Plugin entry. *)
(* @src crates/cordis-loader/src/plan.rs 533-568 LoadPlan::load *)
Definition load_plugin (ctx : Context) (membership : Addr) (id : EntryId) (entry : PluginEntry Value)
    (st : LoadState) : result LoadState LoadPanic :=
  match resolve_identity entry with
  | None => Err (ExpectFailed "validated Plugin entries always carry a resolve identity")
  | Some resolve_key =>
      try r := resolve_entry entry (ls_world st) in
      let '(resolved, w) := r in
      match resolved with
      | Err failure =>
          record_outcome st (OutcomeFailed id resolve_key (Resolver failure)) (ls_disabled st) (ls_realms st) w
      | Ok None =>
          record_outcome st (OutcomeFailed id resolve_key (UnresolvedKey resolve_key))
            (ls_disabled st) (ls_realms st) w
      | Ok (Some prepared) =>
          try r := place ctx membership (pe_isolate entry) (ls_realms st) w in
          let '(placed, realms, w) := r in
          match spawn placed prepared w with
          | (Ok fiber_handle, w) =>
              record_outcome st (OutcomeSpawned id resolve_key fiber_handle) (ls_disabled st) realms w
          | (Err failure, w) =>
              record_outcome st (OutcomeFailed id resolve_key (Spawn failure)) (ls_disabled st) realms w
          end
      end
  end.

(** The body of the loop of [load]. *)
(* @src crates/cordis-loader/src/plan.rs 508-571 LoadPlan::load *)
Definition load_entry (ctx : Context) (membership : Addr) (node : PlanNode Value) (st : LoadState)
    : result LoadState LoadPanic :=
  match (p ← pn_parent node; ls_disabled st !! p) with
  | Some disabled_ancestor =>
      record_outcome st (OutcomePruned (pn_id node) disabled_ancestor)
        (<[ pn_id node := disabled_ancestor ]> (ls_disabled st)) (ls_realms st) (ls_world st)
  | None =>
      match pn_entry node with
      | PlanGroup =>
          record_outcome st (OutcomeGroup (pn_id node)) (ls_disabled st) (ls_realms st) (ls_world st)
      | PlanPlugin entry =>
          if pe_disabled entry
          then record_outcome st (OutcomeDisabled (pn_id node))
                 (<[ pn_id node := pn_id node ]> (ls_disabled st)) (ls_realms st) (ls_world st)
          else load_plugin ctx membership (pn_id node) entry st
      end
  end.

Fixpoint load_loop (ctx : Context) (membership : Addr) (nodes : list (PlanNode Value))
    (order : list nat) (st : LoadState) : result LoadState LoadPanic :=
  match order with
  | [] => Ok st
  | index :: order =>
      match nodes !! index with
      | None => Err (ExpectFailed "index out of bounds")
      | Some node =>
          try st := load_entry ctx membership node st in
          load_loop ctx membership nodes order st
      end
  end.

Definition load_start (w : World) : LoadState :=
  {| ls_handoff := ResultHandoff_new; ls_disabled := ∅; ls_realms := ∅; ls_world := w |}.

(* @src crates/cordis-loader/src/plan.rs 493-575 LoadPlan::load *)
Definition load (ctx : Context) (membership : Addr) (nodes : list (PlanNode Value)) (w : World)
    : result (list EntryOutcome * World) LoadPanic :=
  match execution_order nodes with
  | None => Err (ExpectFailed "index out of bounds")
  | Some order =>
      try st := load_loop ctx membership nodes order (load_start w) in
      try r := handoff_finish (ls_handoff st) in
      Ok (r.1, ls_world st)
  end.
End load.
Arguments PluginRequest Value : clear implicits.
Arguments World W : clear implicits.
Arguments ResolverEnding Prepared : clear implicits.
Arguments EntryOutcome FiberHandle SpawnError : clear implicits.
Arguments LoaderFailure SpawnError : clear implicits.
Arguments LoadState FiberHandle SpawnError W : clear implicits.
Arguments ResultHandoff FiberHandle SpawnError : clear implicits.

(** * Disabled ancestry *)

Section ancestry.
Context {Value : Type}.
Context (nodes : list (PlanNode Value)).

Definition parent_index (i : nat) : option nat :=
  node ← nodes !! i; p ← pn_parent node; fst <$> list_find (λ n, pn_id n = p) nodes.

(** The ancestors of an entry, nearest first; an entry has at most as many as its
    index. *)
Fixpoint ancestors (fuel i : nat) : list nat :=
  match fuel with
  | O => []
  | S fuel => match parent_index i with Some j => j :: ancestors fuel j | None => [] end
  end.

Definition disabled_plugin (i : nat) : Prop :=
  match nodes !! i with
  | Some node => match pn_entry node with PlanPlugin e => pe_disabled e = true | PlanGroup => False end
  | None => False
  end.

#[export] Instance disabled_plugin_dec i : Decision (disabled_plugin i).
Proof. unfold disabled_plugin. repeat case_match; apply _. Defined.

(** The outermost disabled Plugin above an entry: the reachable one. *)
Definition shadow (i : nat) : option nat := last (filter disabled_plugin (ancestors i i)).

(** The disabled Plugin that covers the entry's own subtree. *)
Definition cover (i : nat) : option nat :=
  match shadow i with
  | Some d => Some d
  | None => if decide (disabled_plugin i) then Some i else None
  end.

Definition id_at (i : nat) : option EntryId := pn_id <$> nodes !! i.

Lemma shadow_root i node : nodes !! i = Some node → pn_parent node = None → shadow i = None.
Proof.
  intros Hi Hp. unfold shadow. destruct i as [|i]; [done|]. cbn [ancestors].
  assert (parent_index (S i) = None) as ->; [|done].
  unfold parent_index. rewrite Hi. simpl. by rewrite Hp.
Qed.

Lemma shadow_disabled_entry i d : shadow i = Some d → disabled_plugin d.
Proof.
  unfold shadow. intros H. apply last_Some in H as (l & H).
  assert (d ∈ filter disabled_plugin (ancestors i i)) as Hd by (rewrite H; set_solver).
  by apply list_elem_of_filter in Hd as [? _].
Qed.
Context (Hwf : plan_wf nodes).

Lemma parent_index_Some i node j pn :
  nodes !! i = Some node → nodes !! j = Some pn → pn_parent node = Some (pn_id pn) →
  parent_index i = Some j.
Proof.
  intros Hi Hj Hp. unfold parent_index. rewrite Hi. simpl. rewrite Hp. simpl.
  destruct (list_find (λ n, pn_id n = pn_id pn) nodes) as [[k pk]|] eqn:E; simpl.
  - apply list_find_Some in E as (Hk & Hid & _). f_equal. by eapply id_inj.
  - apply list_find_None in E. rewrite Forall_forall in E. exfalso.
    apply (E pn); [by eapply list_elem_of_lookup_2|done].
Qed.

Lemma parent_index_lt i j : parent_index i = Some j → j < i.
Proof.
  unfold parent_index. destruct (nodes !! i) as [node|] eqn:Hi; simpl; [|done].
  destruct (pn_parent node) as [p|] eqn:Hp; simpl; [|done].
  destruct (list_find _ nodes) as [[k pk]|] eqn:E; simpl; intros [= <-].
  apply list_find_Some in E as (Hk & Hid & _).
  destruct (pw_parent nodes Hwf i node p Hi Hp) as (j & pn & Hj & Hpn & Hid').
  rewrite (id_inj nodes Hwf k j pk pn Hk Hpn); [done|congruence].
Qed.

Lemma ancestors_stable f i : i ≤ f → ancestors f i = ancestors i i.
Proof.
  assert (∀ f1 f2 i, i ≤ f1 → i ≤ f2 → ancestors f1 i = ancestors f2 i) as H; [|intros; by apply H].
  clear f i. induction f1 as [|f1 IH]; intros [|f2] i H1 H2; simpl; try done.
  - destruct (parent_index i) eqn:E; [|done]. apply parent_index_lt in E. lia.
  - destruct (parent_index i) eqn:E; [|done]. apply parent_index_lt in E. lia.
  - destruct (parent_index i) as [j|] eqn:E; [|done]. apply parent_index_lt in E.
    f_equal. apply IH; lia.
Qed.

Lemma shadow_child i j : parent_index i = Some j → shadow i = cover j.
Proof.
  intros Hj. pose proof (parent_index_lt i j Hj) as Hlt. unfold cover, shadow.
  destruct i as [|i]; [lia|]. cbn [ancestors]. rewrite Hj, (ancestors_stable i j) by lia.
  rewrite filter_cons. destruct (decide (disabled_plugin j)).
  - rewrite last_cons. by destruct (last _).
  - by destruct (last _).
Qed.

End ancestry.

(** * The loop *)

Section run.
Context {Value Prepared FiberHandle SpawnError W : Type}.
Context (resolver : PluginRequest Value → World W → ResolverEnding Prepared * World W).
Context (spawn : Context → Prepared → World W → result FiberHandle SpawnError * World W).
Context (ctx : Context) (membership : Addr).
Abbreviation Outcome := (EntryOutcome FiberHandle SpawnError).
Abbreviation State := (LoadState FiberHandle SpawnError W).

Definition realms_ok (shared : gmap string ServiceRealm) : Prop :=
  ∀ label realm, shared !! label = Some realm → realm_membership realm = membership.

(** The outcome an entry must have, given the disabled Plugin [d] above it. *)
Definition row_ok (nodes : list (PlanNode Value)) (i : nat) (o : Outcome) : Prop :=
  ∃ node, nodes !! i = Some node ∧
  match shadow nodes i with
  | Some d => ∃ id, id_at nodes d = Some id ∧ o = OutcomePruned (pn_id node) id
  | None =>
      match pn_entry node with
      | PlanGroup => o = OutcomeGroup (pn_id node)
      | PlanPlugin e =>
          if pe_disabled e then o = OutcomeDisabled (pn_id node)
          else ∃ key, resolve_identity e = Some key ∧
            ((∃ h, o = OutcomeSpawned (pn_id node) key h) ∨ ∃ f, o = OutcomeFailed (pn_id node) key f)
      end
  end.

Lemma row_ok_id nodes i o : row_ok nodes i o → ∃ node, nodes !! i = Some node ∧ outcome_id o = pn_id node.
Proof.
  intros (node & Hn & H). exists node. split; [done|]. destruct (shadow nodes i).
  - by destruct H as (id & _ & ->).
  - destruct (pn_entry node) as [e|]; [|by subst]. destruct (pe_disabled e); [by subst|].
    by destruct H as (key & _ & [[h ->]|[f ->]]).
Qed.

Lemma place_row_ok policy shared (w : World W) :
  realms_ok shared →
  match place_row membership policy shared w with
  | Ok (realm, shared', w') => realm_membership realm = membership ∧ realms_ok shared' ∧
      w_user w' = w_user w ∧ (sn_realm (w_sn w) ≤ sn_realm (w_sn w') ≤ sn_realm (w_sn w) + 1)%Z
  | Err p => p = RealmSpaceExhausted ∧ (u64_max ≤ sn_realm (w_sn w))%Z
  end.
Proof.
  intros Hs. unfold place_row, new_service_realm, next_realm_key, checked_succ.
  destruct policy as [|label]; [|destruct (shared !! label) as [realm|] eqn:El]; simpl.
  2: { split_and!; [by eapply Hs|done|done|lia..]. }
  all: case_decide; simpl; [|split; [done|lia]]; split_and!; try done; try lia.
  intros l r. rewrite lookup_insert_Some. intros [[_ <-]|[_ Hlr]]; [done|by eapply Hs].
Qed.

Lemma place_rows_ok declarations shared (w : World W) :
  realms_ok shared →
  match place_rows membership declarations shared w with
  | Ok (mappings, shared', w') => map fst mappings = map is_service declarations ∧
      Forall (λ p, realm_belongs_to p.2 membership = true) mappings ∧ realms_ok shared' ∧
      (sn_realm (w_sn w') ≤ sn_realm (w_sn w) + Z.of_nat (length declarations))%Z
  | Err p => p = RealmSpaceExhausted ∧ (u64_max < sn_realm (w_sn w) + Z.of_nat (length declarations))%Z
  end.
Proof.
  revert shared w. induction declarations as [|d ds IH]; intros shared w Hs; simpl.
  { split_and!; [done|constructor|done|lia]. }
  pose proof (place_row_ok (is_policy d) shared w Hs) as Hr. unfold result_bind.
  destruct (place_row membership (is_policy d) shared w) as [[[realm s1] w1]|p]; [|split; [apply Hr|destruct Hr; lia]].
  destruct Hr as (Hm & Hs1 & _ & Hsn). specialize (IH s1 w1 Hs1).
  destruct (place_rows membership ds s1 w1) as [[[ms s2] w2]|p]; [|split; [apply IH|destruct IH; lia]].
  destruct IH as (Hn & Hf & Hs2 & Hw). split_and!; [simpl; by rewrite Hn| |done|lia].
  constructor; [|done]. simpl. unfold realm_belongs_to. by rewrite bool_decide_true.
Qed.

Lemma place_ok declarations shared (w : World W) :
  realms_ok shared → NoDup (map is_service declarations) →
  match place ctx membership declarations shared w with
  | Ok (_, shared', w') => realms_ok shared' ∧
      (sn_realm (w_sn w') ≤ sn_realm (w_sn w) + Z.of_nat (length declarations))%Z
  | Err p => p = RealmSpaceExhausted ∧ (u64_max < sn_realm (w_sn w) + Z.of_nat (length declarations))%Z
  end.
Proof.
  intros Hs Hnd. unfold place. destruct declarations as [|d ds]; [split; [done|simpl; lia]|].
  pose proof (place_rows_ok (d :: ds) shared w Hs) as Hp. unfold result_bind.
  destruct (place_rows membership (d :: ds) shared w) as [[[ms s2] w2]|p]; [|done].
  destruct Hp as (Hn & Hf & Hs2 & Hw).
  pose proof (with_service_realms_ok ctx membership ms) as Hok. destruct Hok as [c ->].
  - change (NoDup (map fst ms)). by rewrite Hn.
  - done.
  - done.
Qed.

(** What one iteration records; [room] is the number of realms it may allocate. *)
Definition plugin_room (node : PlanNode Value) : nat :=
  match pn_entry node with PlanPlugin e => length (pe_isolate e) | PlanGroup => 0 end.

Definition quiet : Prop :=
  (∀ r w, w_sn (resolver r w).2 = w_sn w) ∧ (∀ c p w, w_sn (spawn c p w).2 = w_sn w).

(** The cases of one plugin attempt. *)
Lemma load_plugin_ok id (entry : PluginEntry Value) (st : State) es :
  plugin_valid entry → realms_ok (ls_realms st) → rh_entries (ls_handoff st) = Some es →
  match load_plugin resolver spawn ctx membership id entry st with
  | Ok st' => realms_ok (ls_realms st') ∧ ls_disabled st' = ls_disabled st ∧
      (∃ key o, resolve_identity entry = Some key ∧ rh_entries (ls_handoff st') = Some (es ++ [o]) ∧
        ((∃ h, o = OutcomeSpawned id key h) ∨ ∃ f, o = OutcomeFailed id key f)) ∧
      (quiet → (sn_realm (w_sn (ls_world st')) ≤
                sn_realm (w_sn (ls_world st)) + Z.of_nat (length (pe_isolate entry)))%Z)
  | Err p => p = RealmSpaceExhausted ∧
      (quiet → (u64_max < sn_realm (w_sn (ls_world st)) + Z.of_nat (length (pe_isolate entry)))%Z)
  end.
Proof.
  intros ((key & Hkey) & _ & Hnd) Hs Hes. unfold load_plugin, resolve_entry, PluginRequest_from_entry.
  rewrite Hkey. cbn [result_bind].
  set (rq := {| pr_resolve_key := key; pr_config := pe_config entry; pr_inject := pe_inject entry |}).
  unfold record_outcome, handoff_push.
  destruct (resolver rq (ls_world st)) as [[[[prepared|]|diag]|payload] w1] eqn:Er;
    assert (quiet → w_sn w1 = w_sn (ls_world st)) as Hw1
      by (intros [Hq _]; specialize (Hq rq (ls_world st)); by rewrite Er in Hq).
  - pose proof (place_ok (pe_isolate entry) (ls_realms st) w1 Hs Hnd) as Hp. unfold result_bind.
    destruct (place ctx membership (pe_isolate entry) (ls_realms st) w1) as [[[placed realms] w2]|p].
    2: { split; [apply Hp|]. intros Hq. rewrite <- (Hw1 Hq). apply Hp. }
    destruct Hp as [Hr Hw2]. destruct (spawn placed prepared w2) as [r w3] eqn:Es.
    assert (quiet → w_sn w3 = w_sn w2) as Hw3
      by (intros [_ Hq]; specialize (Hq placed prepared w2); by rewrite Es in Hq).
    destruct r as [h|e]; cbn; rewrite Hes; cbn; (split; [done|]; split; [done|]; split;
      [eauto 10|intros Hq; rewrite (Hw3 Hq), <- (Hw1 Hq); done]).
  - cbn. rewrite Hes. cbn. split_and!; [done|done|eauto 10|]. intros Hq. rewrite (Hw1 Hq). lia.
  - cbn. rewrite Hes. cbn. split_and!; [done|done|eauto 10|]. intros Hq. rewrite (Hw1 Hq). lia.
  - cbn. rewrite Hes. cbn. split_and!; [done|done|eauto 10|]. intros Hq. rewrite (Hw1 Hq). lia.
Qed.

Section nodes.
Context (nodes : list (PlanNode Value)) (Hwf : plan_wf nodes)
  (Hvalid : ∀ node, node ∈ nodes → node_valid node).

(** The state after the entries [past] have been executed. *)
Record loop_inv (past : list nat) (st : State) (es : list Outcome) : Prop := {
  li_entries : rh_entries (ls_handoff st) = Some es;
  li_rows : Forall2 (row_ok nodes) past es;
  li_realms : realms_ok (ls_realms st);
  li_disabled : ∀ j pn, j ∈ past → nodes !! j = Some pn →
    ls_disabled st !! pn_id pn = (cover nodes j ≫= id_at nodes);
  li_unseen : ∀ j pn, j ∉ past → nodes !! j = Some pn → ls_disabled st !! pn_id pn = None;
}.

(** One iteration whose parent has been executed. *)
Lemma load_entry_ok past i node (st : State) es :
  loop_inv past st es → i ∉ past → nodes !! i = Some node →
  (∀ p, pn_parent node = Some p → ∃ j pn, j ∈ past ∧ nodes !! j = Some pn ∧ pn_id pn = p) →
  match load_entry resolver spawn ctx membership node st with
  | Ok st' => (∃ o, loop_inv (past ++ [i]) st' (es ++ [o])) ∧
      (quiet → (sn_realm (w_sn (ls_world st')) ≤
                sn_realm (w_sn (ls_world st)) + Z.of_nat (plugin_room node))%Z)
  | Err p => p = RealmSpaceExhausted ∧
      (quiet → (u64_max < sn_realm (w_sn (ls_world st)) + Z.of_nat (plugin_room node))%Z)
  end.
Proof.
  intros [Hes Hrows Hrealms Hdis Huns] Hi Hn Hpar. unfold load_entry.
  assert ((p ← pn_parent node; ls_disabled st !! p) = (shadow nodes i ≫= id_at nodes)) as ->.
  { destruct (pn_parent node) as [p|] eqn:Ep; simpl.
    - destruct (Hpar p eq_refl) as (j & pn & Hj & Hpn & <-). rewrite (Hdis j pn Hj Hpn).
      by rewrite (shadow_child nodes Hwf i j) by (by eapply parent_index_Some).
    - by rewrite (shadow_root nodes i node Hn Ep). }
  assert (∀ st' o, rh_entries (ls_handoff st') = Some (es ++ [o]) → row_ok nodes i o →
    realms_ok (ls_realms st') →
    (ls_disabled st' = match cover nodes i ≫= id_at nodes with
       Some d => <[ pn_id node := d ]> (ls_disabled st) | None => ls_disabled st end) →
    loop_inv (past ++ [i]) st' (es ++ [o])) as Hnext.
  { intros st' o H1 H2 H3 H4. split; [done| |done|..].
    - apply Forall2_app; [done|by repeat constructor].
    - intros j pn Hj Hpn. rewrite H4. destruct (decide (j = i)) as [->|Hne].
      + rewrite Hn in Hpn. injection Hpn as <-. destruct (cover nodes i ≫= id_at nodes) as [d|].
        * by rewrite lookup_insert_eq.
        * by apply Huns with i.
      + assert (pn_id pn ≠ pn_id node) as Hid by (intros He; apply Hne; by eapply (id_inj nodes Hwf)).
        assert (j ∈ past) as Hjp by set_solver.
        destruct (cover nodes i ≫= id_at nodes); rewrite ?lookup_insert_ne by done; by apply Hdis.
    - intros j pn Hj Hpn. assert (j ≠ i ∧ j ∉ past) as [Hne Hjp] by set_solver. rewrite H4.
      assert (pn_id pn ≠ pn_id node) as Hid by (intros He; apply Hne; by eapply (id_inj nodes Hwf)).
      destruct (cover nodes i ≫= id_at nodes); rewrite ?lookup_insert_ne by done; by eapply Huns. }
  assert (∀ d, shadow nodes i = Some d → ∃ id, id_at nodes d = Some id) as Hsh.
  { intros d Hd. apply shadow_disabled_entry in Hd. unfold disabled_plugin in Hd. unfold id_at.
    destruct (nodes !! d); [simpl; eauto|done]. }
  unfold record_outcome, handoff_push, result_bind.
  destruct (shadow nodes i) as [d|] eqn:Es; simpl.
  { destruct (Hsh d eq_refl) as [id Hid]. rewrite Hid, Hes. split; [|simpl; lia]. eexists. apply Hnext; cbn.
    - done.
    - exists node. split; [done|]. rewrite Es. eauto.
    - done.
    - unfold cover. rewrite Es. simpl. by rewrite Hid. }
  assert (cover nodes i = if decide (disabled_plugin nodes i) then Some i else None) as Hcov
    by (unfold cover; by rewrite Es).
  assert (disabled_plugin nodes i ↔ match pn_entry node with
    PlanPlugin e => pe_disabled e = true | PlanGroup => False end) as Hdp
    by (unfold disabled_plugin; by rewrite Hn).
  assert (id_at nodes i = Some (pn_id node)) as Hidi by (unfold id_at; by rewrite Hn).
  unfold plugin_room. destruct (pn_entry node) as [entry|] eqn:Ee.
  - destruct (pe_disabled entry) eqn:Ed.
    + rewrite Hes. split; [|simpl; lia]. eexists. apply Hnext; cbn.
      * done.
      * exists node. split; [done|]. by rewrite Es, Ee, Ed.
      * done.
      * rewrite Hcov, decide_True by (by apply Hdp). simpl. by rewrite Hidi.
    + assert (plugin_valid entry) as Hv.
      { specialize (Hvalid node ltac:(by eapply list_elem_of_lookup_2)). unfold node_valid in Hvalid.
        by rewrite Ee in Hvalid. }
      pose proof (load_plugin_ok (pn_id node) entry st es Hv Hrealms Hes) as Hp.
      destruct (load_plugin _ _ _ _ _ entry st) as [st'|p]; [|done].
      destruct Hp as (Hr & Hd & (key & o & Hk & He & Ho) & Hq). split; [|done].
      exists o. apply Hnext; [done| |done|].
      * exists node. split; [done|]. rewrite Es, Ee, Ed. eauto.
      * rewrite Hcov, decide_False by (rewrite Hdp; congruence). done.
  - rewrite Hes. split; [|simpl; lia]. eexists. apply Hnext; cbn.
    + done.
    + exists node. split; [done|]. by rewrite Es, Ee.
    + done.
    + rewrite Hcov, decide_False by (by intros ?%Hdp). done.
Qed.

(** The realms the entries of [order] may allocate. *)
Definition order_room (order : list nat) : nat :=
  sum_list_with (λ i, match nodes !! i with Some node => plugin_room node | None => 0 end) order.

Lemma load_loop_ok order past rest (st : State) es :
  preorder nodes = past ++ order ++ rest → loop_inv past st es →
  match load_loop resolver spawn ctx membership nodes order st with
  | Ok st' => ∃ rows, loop_inv (past ++ order) st' (es ++ rows)
  | Err p => p = RealmSpaceExhausted ∧
      (quiet → (u64_max < sn_realm (w_sn (ls_world st)) + Z.of_nat (order_room order))%Z)
  end.
Proof.
  revert past st es. induction order as [|i order IH]; intros past st es Hpre Hinv; simpl.
  { exists []. by rewrite !app_nil_r. }
  assert (i < length nodes) as Hi by (apply (preorder_bound nodes Hwf); rewrite Hpre; set_solver).
  destruct (lookup_lt_is_Some_2 nodes i Hi) as [node Hn]. rewrite Hn.
  assert (i ∉ past) as Hnew.
  { intros Hp. pose proof (NoDup_seq 0 (length nodes)) as Hnd.
    rewrite <- (preorder_perm nodes Hwf), Hpre in Hnd. apply NoDup_app in Hnd as (_ & Hnd & _).
    apply (Hnd i Hp). by left. }
  pose proof (load_entry_ok past i node st es Hinv Hnew Hn) as Hstep. unfold result_bind.
  destruct (load_entry resolver spawn ctx membership node st) as [st1|p].
  - destruct Hstep as [[o Hinv1] Hq].
    { intros p Hp. by eapply (preorder_parent_first nodes Hwf past i (order ++ rest)). }
    specialize (IH (past ++ [i]) st1 (es ++ [o])). rewrite <- !app_assoc in IH.
    specialize (IH Hpre Hinv1).
    destruct (load_loop resolver spawn ctx membership nodes order st1) as [st2|p].
    + destruct IH as [rows IH]. exists (o :: rows). by rewrite <- app_assoc in IH.
    + destruct IH as [-> IH]. split; [done|]. intros Hqu. specialize (IH Hqu). specialize (Hq Hqu). lia.
  - destruct Hstep as [-> Hq].
    { intros q Hp. by eapply (preorder_parent_first nodes Hwf past i (order ++ rest)). }
    split; [done|]. intros Hqu. specialize (Hq Hqu). lia.
Qed.

Lemma load_start_inv w : loop_inv [] (load_start w) [].
Proof. split; simpl; [done|constructor|by intros ??|set_solver|done]. Qed.
End nodes.
End run.

(** * Properties *)

(** [C33] A load produces one semantic outcome per entry of the plan, in execution
    order: a descendant of a disabled Plugin is pruned and names the outermost disabled
    Plugin above it, a reachable group or disabled Plugin is reported as such, and a
    reachable enabled Plugin is spawned or failed under its key, falling back to its
    name; exact correlation by identity finds each row.  No [expect] of the Loader can
    fail for a validated plan, whatever the resolver and the spawns do; and when realm
    identities suffice the load completes. *)
Theorem load_outcome_complete {Value Prepared FiberHandle SpawnError W : Type}
    (resolver : PluginRequest Value → World W → ResolverEnding Prepared * World W)
    (spawn : Context → Prepared → World W → result FiberHandle SpawnError * World W)
    (ctx : Context) (membership : Addr) (nodes : list (PlanNode Value)) (w : World W)
    (Hwf : plan_wf nodes) (Hvalid : ∀ node, node ∈ nodes → node_valid node) :
  match load resolver spawn ctx membership nodes w with
  | Ok (entries, _) =>
      Forall2 (row_ok nodes) (preorder nodes) entries ∧
      ∀ i node, nodes !! i = Some node →
        ∃ o, lo_entry entries (pn_id node) = Some o ∧ row_ok nodes i o
  | Err p => p = RealmSpaceExhausted
  end ∧
  (quiet resolver spawn →
   (sn_realm (w_sn w) + Z.of_nat (order_room nodes (preorder nodes)) ≤ u64_max)%Z →
   is_ok (load resolver spawn ctx membership nodes w) = true).
Proof.
  pose proof (load_loop_ok resolver spawn ctx membership nodes Hwf Hvalid (preorder nodes) [] []
    (load_start w) [] ltac:(by rewrite app_nil_r) (load_start_inv membership nodes Hwf Hvalid w)) as Hl.
  unfold load. rewrite execution_order_preorder by done. unfold result_bind.
  destruct (load_loop resolver spawn ctx membership nodes (preorder nodes) (load_start w)) as [st|p].
  2: { destruct Hl as [-> Hq]. split; [done|]. intros H1 H2. specialize (Hq H1). simpl in Hq. lia. }
  destruct Hl as [rows [He Hrows _ _ _]]. unfold handoff_finish. rewrite He. simpl. simpl in Hrows.
  split; [|done]. split; [done|]. intros i node Hn.
  assert (i ∈ preorder nodes) as Hi.
  { rewrite (preorder_perm nodes Hwf). apply elem_of_seq. apply lookup_lt_Some in Hn. lia. }
  apply list_elem_of_lookup in Hi as [k Hk]. destruct (Forall2_lookup_l _ _ _ _ _ Hrows Hk) as (o & Ho & Hr).
  exists o. split; [|done]. unfold lo_entry.
  destruct (list_find (λ o, outcome_id o = pn_id node) rows) as [[k' o']|] eqn:Ef; simpl.
  - apply list_find_Some in Ef as (Hk' & Hid & _). f_equal.
    destruct (Forall2_lookup_r _ _ _ _ _ Hrows Hk') as (i' & Hi' & Hr').
    destruct (row_ok_id nodes i' o' Hr') as (n' & Hn' & Hid').
    assert (i' = i) as -> by (apply (id_inj nodes Hwf i' i n' node); congruence).
    assert (k' = k) as -> by (apply (proj1 (NoDup_alt _) (preorder_nodup nodes Hwf) k' k i); done).
    congruence.
  - apply list_find_None in Ef. rewrite Forall_forall in Ef. exfalso. apply (Ef o).
    + by eapply list_elem_of_lookup_2.
    + destruct (row_ok_id nodes i o Hr) as (n' & Hn' & Hid'). congruence.
Qed.

(** A resolver that knows every key but "b", and a spawn that numbers its Fibers. *)
Definition sample_resolver (rq : PluginRequest nat) (w : World nat) : ResolverEnding nat * World nat :=
  (ResolverReturned (Ok (if decide (pr_resolve_key rq = "b") then None else Some 1)), w).

Definition sample_spawn (c : Context) (p : nat) (w : World nat) : result nat unit * World nat :=
  (Ok (w_user w), {| w_sn := w_sn w; w_user := S (w_user w) |}).

Definition sample_ctx : Context :=
  {| ctx_root := 0; ctx_fiber := 1; ctx_isolate := None; ctx_scope := None; ctx_intercept := None |}.

Definition sample_world : World nat := {| w_sn := SnCounters_default; w_user := 7 |}.

Definition sample_plan : list (PlanNode nat) := lb_nodes (build sample_ops (LoadPlanBuilder_new 10)).2.

Lemma sample_plan_ok : plan_wf sample_plan ∧ ∀ node, node ∈ sample_plan → node_valid node.
Proof.
  pose proof (build_wf sample_ops _ (LoadPlanBuilder_new_wf 10)) as H. unfold sample_plan.
  destruct (build sample_ops (LoadPlanBuilder_new 10)) as [answers b]. destruct H as [[H1 _ _ H2] _].
  split; [done|]. intros node Hn. by apply H2.
Qed.

Example load_outcome_complete_witness :
  load sample_resolver sample_spawn sample_ctx 0 sample_plan sample_world =
    Ok ([OutcomeGroup (sample_id 11); OutcomeDisabled (sample_id 12);
         OutcomePruned (sample_id 14) (sample_id 12);
         OutcomeFailed (sample_id 13) "b" (UnresolvedKey "b"); OutcomeSpawned (sample_id 15) "d" 7],
        {| w_sn := {| sn_realm := 1 |}; w_user := 8 |}) ∧
  is_ok (load sample_resolver sample_spawn sample_ctx 0 sample_plan sample_world) = true.
Proof.
  split; [vm_compute; reflexivity|].
  apply (load_outcome_complete sample_resolver sample_spawn sample_ctx 0 sample_plan sample_world
    (proj1 sample_plan_ok) (proj2 sample_plan_ok)).
  - split; reflexivity.
  - vm_compute. discriminate.
Defined.


Definition sample_load (order : list nat) : result (LoadState nat unit nat) LoadPanic :=
  load_loop sample_resolver sample_spawn sample_ctx 0 sample_plan order (load_start sample_world).

