(* ===== verification/LoaderJson.v ===== *)
(** Typed JSON preparation (crates/cordis-loader/src/resolver.rs): the helpers that turn
    the JSON of an entry into a prepared Plugin or a Service layer, and a resolver built
    from them behind the firewall of LoaderRun.v.

    [serde_json::from_value] is a parameter, which gives the typed value or the text of
    its error; [prepare] and the sealing of a declaration are user code, which may change
    the world, return an error or unwind. *)
From S2P Require Import Prelude Axes LoaderPlan LoaderRun.

(** User code that returned, or unwound. *)
Inductive Ran (A : Type) := Finished (a : A) | Panicked (payload : PanicPayload).
Arguments Finished {A} a.
Arguments Panicked {A} payload.

(* @src crates/cordis-loader/src/resolver.rs 152-156 JsonPrepareErrorInner *)
Inductive JsonPrepareError (E : Type) := Deserialize (text : string) | Prepare (error : E).
Arguments Deserialize {E} text.
Arguments Prepare {E} error.

(* @src crates/cordis-loader/src/resolver.rs 192-197 JsonPrepareError::prepare_error *)
Definition prepare_error {E} (e : JsonPrepareError E) : option E :=
  match e with Deserialize _ => None | Prepare error => Some error end.

(* @src crates/cordis-loader/src/resolver.rs 200-211 JsonPrepareError::fmt *)
Definition json_error_display {E} (display : E → string) (e : JsonPrepareError E) : string :=
  match e with
  | Deserialize text => String.append "JSON source deserialization failed: " text
  | Prepare error => String.append "typed source preparation failed: " (display error)
  end.

(** The standard [source] shows the error of serde only. *)
(* @src crates/cordis-loader/src/resolver.rs 213-220 JsonPrepareError::source *)
Definition json_error_source {E} (e : JsonPrepareError E) : option string :=
  match e with Deserialize text => Some text | Prepare _ => None end.

Section json.
Context {Value Config Input Prepared E W : Type}.
Context (from_value : Value → result Config string).

(** The layer of a configurable Service. *)
(* @src crates/cordis-loader/src/resolver.rs 247-257 prepare_service_json *)
Definition prepare_service_json (prepare_config : Config → W → Ran (result Input E) * W) (config : Value) (w : W)
    : Ran (result Input (JsonPrepareError E)) * W :=
  match from_value config with
  | Err text => (Finished (Err (Deserialize text)), w)
  | Ok typed =>
      match prepare_config typed w with
      | (Panicked payload, w) => (Panicked payload, w)
      | (Finished r, w) => (Finished (map_err Prepare r), w)
      end
  end.

(** A Plugin: what was prepared is sealed with the declarations of the Plugin. *)
(* @src crates/cordis-loader/src/resolver.rs 228-240 prepare_plugin_json *)
Definition prepare_plugin_json (prepare : Config → W → Ran (result Input E) * W) (from_input : Input → W → Ran Prepared * W)
    (config : Value) (w : W) : Ran (result Prepared (JsonPrepareError E)) * W :=
  match prepare_service_json prepare config w with
  | (Panicked payload, w) => (Panicked payload, w)
  | (Finished (Err e), w) => (Finished (Err e), w)
  | (Finished (Ok input), w) =>
      match from_input input w with
      | (Panicked payload, w) => (Panicked payload, w)
      | (Finished prepared, w) => (Finished (Ok prepared), w)
      end
  end.

(** A resolver as a host writes it: the Plugins it knows by their keys. *)
Record Target := {
  tg_prepare : Config → W → Ran (result Input E) * W;
  tg_from_input : Input → W → Ran Prepared * W;
}.

Context (targets : string → option Target) (display : E → string).

(* @src crates/cordis-loader/src/resolver.rs 79-89 PluginResolver for F *)
Definition json_resolver (request : PluginRequest Value) (w : World W) : ResolverEnding Prepared * World W :=
  match targets (pr_resolve_key request) with
  | None => (ResolverReturned (Ok None), w)
  | Some t =>
      let '(r, u) := prepare_plugin_json (tg_prepare t) (tg_from_input t) (pr_config request) (w_user w) in
      (match r with
       | Panicked payload => ResolverUnwound payload
       | Finished (Err e) => ResolverReturned (Err (json_error_display display e))
       | Finished (Ok prepared) => ResolverReturned (Ok (Some prepared))
       end, {| w_sn := w_sn w; w_user := u |})
  end.

Definition panic_text (payload : PanicPayload) : string :=
  match payload with PayloadStr message | PayloadString message => message | PayloadOther => "non-string panic payload" end.

(** What a Loader entry resolves to, case by case: an unknown key is no failure; source
    that does not deserialize is a returned error and no user code has run; an error of
    the preparation is returned with its text; a panic of the preparation or of the
    sealing is contained; and otherwise the prepared Plugin is there.  The resolver cannot
    touch the realms of the Runtime. *)
Theorem json_entry_resolves (entry : PluginEntry Value) (key : string) (w : World W) (Hkey : resolve_identity entry = Some key) :
  ∃ r u, resolve_entry json_resolver entry w = Ok (r, {| w_sn := w_sn w; w_user := u |}) ∧
  match targets key with
  | None => r = Ok None ∧ u = w_user w
  | Some t =>
      match from_value (pe_config entry) with
      | Err text => r = Err {| rf_kind := ReturnedError; rf_diagnostic := String.append "JSON source deserialization failed: " text |} ∧ u = w_user w
      | Ok typed =>
          let '(prepared, u1) := tg_prepare t typed (w_user w) in
          match prepared with
          | Panicked payload => r = Err {| rf_kind := ResolverPanic; rf_diagnostic := panic_text payload |} ∧ u = u1
          | Finished (Err e) => r = Err {| rf_kind := ReturnedError; rf_diagnostic := String.append "typed source preparation failed: " (display e) |} ∧ u = u1
          | Finished (Ok input) =>
              match tg_from_input t input u1 with
              | (Panicked payload, u2) => r = Err {| rf_kind := ResolverPanic; rf_diagnostic := panic_text payload |} ∧ u = u2
              | (Finished p, u2) => r = Ok (Some p) ∧ u = u2
              end
          end
      end
  end.
Proof.
  unfold resolve_entry, PluginRequest_from_entry. rewrite Hkey. cbn [result_bind]. unfold json_resolver. cbn [pr_resolve_key pr_config].
  destruct (targets key) as [t|].
  2: { destruct w as [sn u]. by exists (Ok None), u. }
  unfold prepare_plugin_json, prepare_service_json. destruct (from_value (pe_config entry)) as [typed|text]; [|by eexists _, _].
  destruct (tg_prepare t typed (w_user w)) as [[[input|e]|payload] u1]; cbn [map_err].
  - destruct (tg_from_input t input u1) as [[p|payload] u2]; by eexists _, _.
  - by eexists _, _.
  - by eexists _, _.
Qed.
End json.

Example json_entry_resolves_example :
  let t := {| tg_prepare := λ n u, if bool_decide (n = 0) then (Finished (Err "zero"), u) else (Finished (Ok n), S u);
              tg_from_input := λ n u, if bool_decide (n = 1) then (Panicked (PayloadStr "one"), u) else (Finished (n, "sealed"), u) |} in
  let targets := λ key, if bool_decide (key = "known") then Some t else None in
  let from_value := λ v : nat, if bool_decide (v < 10) then Ok v else Err "too big" in
  let run v := (prepare_plugin_json from_value (tg_prepare t) (tg_from_input t) v 5).1 in
  run 12 = Finished (Err (Deserialize "too big")) ∧ run 0 = Finished (Err (Prepare "zero")) ∧
  run 1 = Panicked (PayloadStr "one") ∧ run 2 = Finished (Ok (2, "sealed")) ∧ is_Some (targets "known").
Proof. vm_compute. split_and!; try reflexivity. by eexists. Qed.
