(* ===== verification/UpdateStore.v ===== *)
(** Typed same-Fiber update control (crates/cordis-core/src/update.rs): the store of
    update policies and the precommit chain of a [FiberHandle::update].

    A policy callback is user code and may do anything to the store and to the world
    when it runs.  An Around callback owns a consuming continuation: within its own
    future it either ends without calling it, or calls it once and then goes on. *)
From S2P Require Import Prelude Axes EventStore.

(* @src crates/cordis-core/src/update.rs 37-41 UpdateKind *)
Inductive UpdateKind := UpdateMapper (callback : nat) | UpdateAround (callback : nat).

(* @src crates/cordis-core/src/update.rs 42-49 UpdateHook *)
Record UpdateHook := {
  uh_id : ListenerRegistrationId;
  uh_prepend : bool;
  uh_global : bool;
  uh_scope : option ScopeNode;
  uh_once : bool;
  uh_kind : UpdateKind;
}.

(* @src crates/cordis-core/src/update.rs 50-54 UpdateSnap *)
Record UpdateSnap := { us_id : ListenerRegistrationId; us_kind : UpdateKind }.

(** [UpdateState]: the policies of each Plugin contract. *)
Abbreviation UpdateHooks := (gmap TypeId (list UpdateHook)) (only parsing).

(* @src crates/cordis-core/src/update.rs 64-66 UpdateStore::new *)
Definition UpdateStore_new : UpdateHooks := ∅.

(* @src crates/cordis-core/src/update.rs 68-76 UpdateStore::add *)
Definition update_add (contract : TypeId) (hook : UpdateHook) (hooks : UpdateHooks) : UpdateHooks :=
  let l := default [] (hooks !! contract) in
  <[ contract := if uh_prepend hook then hook :: l else l ++ [hook] ]> hooks.

Definition is_update (id : ListenerRegistrationId) (hook : UpdateHook) : bool :=
  bool_decide (uh_id hook = id).

(** An emptied list loses its entry. *)
Definition put_updates (contract : TypeId) (l : list UpdateHook) (hooks : UpdateHooks) : UpdateHooks :=
  match l with [] => delete contract hooks | _ => <[ contract := l ]> hooks end.

(* @src crates/cordis-core/src/update.rs 78-95 UpdateStore::remove *)
Definition update_remove (contract : TypeId) (id : ListenerRegistrationId) (hooks : UpdateHooks)
    : bool * UpdateHooks :=
  match hooks !! contract with
  | None => (false, hooks)
  | Some l => match remove_first (is_update id) l with
              | None => (false, hooks)
              | Some (_, l) => (true, put_updates contract l hooks)
              end
  end.

(* @src crates/cordis-core/src/update.rs 97-117 UpdateStore::claim *)
Definition update_claim (contract : TypeId) (id : ListenerRegistrationId) (hooks : UpdateHooks)
    : bool * UpdateHooks :=
  match hooks !! contract with
  | None => (false, hooks)
  | Some l => match remove_first (is_update id) l with
              | None => (false, hooks)
              | Some (hook, rest) => if negb (uh_once hook) then (true, hooks)
                                     else (true, put_updates contract rest hooks)
              end
  end.

Definition update_eligible (target : option ScopeNode) (hook : UpdateHook) : bool :=
  uh_global hook || scope_admits (uh_scope hook) target.

Definition update_snap (hook : UpdateHook) : UpdateSnap := {| us_id := uh_id hook; us_kind := uh_kind hook |}.

(* @src crates/cordis-core/src/update.rs 119-139 UpdateStore::snapshot *)
Definition update_snapshot (contract : TypeId) (target : option ScopeNode) (hooks : UpdateHooks)
    : list UpdateSnap :=
  map update_snap (filter (λ h, update_eligible target h = true) (default [] (hooks !! contract))).

(** The state a control chain can touch. *)
Record ControlState (W : Type) := { uc_hooks : UpdateHooks; uc_world : W }.
Arguments uc_hooks {W} _.
Arguments uc_world {W} _.

Section control.
Context {P W : Type}.
Abbreviation St := (ControlState W).
Abbreviation Outcome := (result P InvocationFailure).

(** What an Around callback does with its continuation: it ends by itself, or it calls
    it with a change and continues with what that returned. *)
Inductive AroundRun :=
| AroundEnds (r : Outcome) (s : St)
| AroundCalls (change : P) (s : St) (k : Outcome → St → Outcome * St).

(** The adapted callbacks.  A panic has been normalized by [catch_unwind], a returned
    error by [normalize_returned]. *)
Context (mapper : nat → P → St → Outcome * St).
Context (around : nat → P → St → AroundRun).

(** The boolean is the [reached] flag at the end of the chain. *)
(* @src crates/cordis-core/src/update.rs 154-197 UpdateStore::run_chain *)
Fixpoint run_chain (contract : TypeId) (hooks : list UpdateSnap) (change : P) (s : St)
    : Outcome * bool * St :=
  match hooks with
  | [] => (Ok change, true, s)
  | hook :: hooks =>
      let '(claimed, h) := update_claim contract (us_id hook) (uc_hooks s) in
      let s := {| uc_hooks := h; uc_world := uc_world s |} in
      if negb claimed then run_chain contract hooks change s
      else
        let '(r, reached, s) :=
          match us_kind hook with
          | UpdateMapper callback =>
              match mapper callback change s with
              | (Ok change, s) => run_chain contract hooks change s
              | (Err failure, s) => (Err failure, false, s)
              end
          | UpdateAround callback =>
              match around callback change s with
              | AroundEnds r s => (r, false, s)
              | AroundCalls change s k =>
                  let '(r, reached, s) := run_chain contract hooks change s in
                  let '(r, s) := k r s in (r, reached, s)
              end
          end in
        (map_err (λ f, correlate f (us_id hook)) r, reached, s)
  end.

(* @src crates/cordis-core/src/update.rs 141-152 UpdateStore::control *)
Definition update_control (contract : TypeId) (target : option ScopeNode) (change : P) (s : St)
    : result (option P) InvocationFailure * St :=
  let hooks := update_snapshot contract target (uc_hooks s) in
  let '(output, reached, s) := run_chain contract hooks change s in
  (try output := output in Ok (if reached then Some output else None), s).
End control.

(** [on_update]: the hook a registration publishes. *)
(* @src crates/cordis-core/src/update.rs 360-399 Context::on_update *)
Definition on_update_hook (ctx : Context) (kind : UpdateKind) (options : ListenerOptions)
    (id : ListenerRegistrationId) : UpdateHook :=
  {| uh_id := id; uh_prepend := lo_prepend options; uh_global := lo_global options;
     uh_scope := ctx_scope ctx; uh_once := lo_once options; uh_kind := kind |}.

(** * The store *)

(** Per contract the identities are distinct. *)
Definition updates_wf (hooks : UpdateHooks) : Prop :=
  ∀ contract l, hooks !! contract = Some l → NoDup (map uh_id l).

Definition policies (hooks : UpdateHooks) (contract : TypeId) : list UpdateHook :=
  default [] (hooks !! contract).

Lemma policies_put contract l (hooks : UpdateHooks) c :
  policies (put_updates contract l hooks) c = if decide (c = contract) then l else policies hooks c.
Proof.
  unfold policies, put_updates. destruct l; case_decide; subst;
    by rewrite ?lookup_delete_eq, ?lookup_insert_eq, ?lookup_delete_ne, ?lookup_insert_ne by done.
Qed.

Lemma put_updates_wf contract l hooks :
  updates_wf hooks → NoDup (map uh_id l) → updates_wf (put_updates contract l hooks).
Proof.
  intros Hwf Hl c l'. unfold put_updates. destruct l.
  - rewrite lookup_delete_Some. intros [_ ?]. by eapply Hwf.
  - rewrite lookup_insert_Some. intros [[_ <-]|[_ ?]]; [done|by eapply Hwf].
Qed.

Lemma remove_first_filter id l hook rest :
  NoDup (map uh_id l) → remove_first (is_update id) l = Some (hook, rest) →
  hook ∈ l ∧ uh_id hook = id ∧ rest = filter (λ h, uh_id h ≠ id) l.
Proof.
  intros Hnd H. apply remove_first_Some in H as (l1 & l2 & -> & -> & Hp & Hl).
  unfold is_update in *. apply bool_decide_eq_true in Hp. split_and!; [set_solver|done|].
  rewrite filter_app, filter_cons_False by (intros H; by apply H). f_equal; symmetry; apply filter_all.
  - intros h Hh. apply Hl in Hh. by apply bool_decide_eq_false in Hh.
  - intros h Hh Heq. rewrite map_app in Hnd. apply NoDup_app in Hnd as (_ & _ & Hnd). csimpl in Hnd.
    apply NoDup_cons in Hnd as [Hn _]. apply Hn. rewrite Hp, <- Heq. apply list_elem_of_fmap. eauto.
Qed.

(** Claiming a live policy succeeds, and consumes it exactly when it is a once policy. *)
Lemma update_claim_live contract hook hooks :
  updates_wf hooks → hook ∈ policies hooks contract →
  ∃ hooks', update_claim contract (uh_id hook) hooks = (true, hooks') ∧ updates_wf hooks' ∧
    policies hooks' contract =
      (if uh_once hook then filter (λ h, uh_id h ≠ uh_id hook) (policies hooks contract)
       else policies hooks contract).
Proof.
  intros Hwf Hin. unfold update_claim. unfold policies in Hin.
  destruct (hooks !! contract) as [l|] eqn:El; simpl in Hin; [|set_solver].
  pose proof (Hwf _ _ El) as Hnd.
  destruct (remove_first (is_update (uh_id hook)) l) as [[h rest]|] eqn:Er.
  - apply remove_first_filter in Er as (Hh & Hid & ->); [|done].
    assert (h = hook) as ->.
    { apply list_elem_of_lookup in Hh as [i Hi]. apply list_elem_of_lookup in Hin as [j Hj].
      assert (i = j) as ->; [|congruence].
      apply (proj1 (NoDup_alt _) Hnd i j (uh_id hook)); rewrite list_lookup_fmap;
        [by rewrite Hi, <- Hid|by rewrite Hj]. }
    destruct (uh_once hook); simpl; eexists; (split; [done|]).
    + split.
      * apply put_updates_wf; [done|]. eapply sublist_NoDup; [exact Hnd|].
        apply (fmap_sublist uh_id), sublist_filter.
      * rewrite policies_put, decide_True by done. unfold policies. by rewrite El.
    + done.
  - exfalso. pose proof (proj1 (remove_first_None _ _) Er hook Hin) as H.
    unfold is_update in H. by apply bool_decide_eq_false in H.
Qed.

(** * The chain with quiet policies *)

Section quiet_policies.
Context {P W : Type}.
Abbreviation Outcome := (result P InvocationFailure).

(** A quiet policy works on the user's own state only. *)
Inductive QuietRun :=
| QuietEnds (r : Outcome) (w : W)
| QuietCalls (change : P) (w : W) (k : Outcome → W → Outcome * W).

Context (mapper : nat → P → W → Outcome * W) (around : nat → P → W → QuietRun).

Definition lift_world (r : Outcome * W) (s : ControlState W) : Outcome * ControlState W :=
  (r.1, {| uc_hooks := uc_hooks s; uc_world := r.2 |}).

Definition quiet_mapper (cb : nat) (p : P) (s : ControlState W) : Outcome * ControlState W :=
  lift_world (mapper cb p (uc_world s)) s.

Definition quiet_around (cb : nat) (p : P) (s : ControlState W) : AroundRun :=
  match around cb p (uc_world s) with
  | QuietEnds r w => AroundEnds r {| uc_hooks := uc_hooks s; uc_world := w |}
  | QuietCalls change w k =>
      AroundCalls change {| uc_hooks := uc_hooks s; uc_world := w |}
        (λ r s, lift_world (k r (uc_world s)) s)
  end.

Lemma quiet_mapper_eq cb p s :
  quiet_mapper cb p s =
  ((mapper cb p (uc_world s)).1, {| uc_hooks := uc_hooks s; uc_world := (mapper cb p (uc_world s)).2 |}).
Proof using Type. done. Qed.

(** The reference: the policies as nested layers around a tail that accepts.  It also
    returns the policies that were reached, and whether the tail was. *)
Fixpoint govern (hooks : list UpdateHook) (change : P) (w : W)
    : list ListenerRegistrationId * (Outcome * bool * W) :=
  match hooks with
  | [] => ([], (Ok change, true, w))
  | hook :: hooks =>
      let '(reached, (r, tail, w)) :=
        match uh_kind hook with
        | UpdateMapper cb =>
            match mapper cb change w with
            | (Ok change, w) => govern hooks change w
            | (Err f, w) => ([], (Err f, false, w))
            end
        | UpdateAround cb =>
            match around cb change w with
            | QuietEnds r w => ([], (r, false, w))
            | QuietCalls change w k =>
                let '(reached, (r, tail, w)) := govern hooks change w in
                let '(r, w) := k r w in (reached, (r, tail, w))
            end
        end in
      (uh_id hook :: reached, (map_err (λ f, correlate f (uh_id hook)) r, tail, w))
  end.

(** What remains registered once [reached] have run. *)
Definition after_control (reached : list ListenerRegistrationId) (l : list UpdateHook) : list UpdateHook :=
  filter (λ h, ¬ (uh_once h = true ∧ uh_id h ∈ reached)) l.

Lemma after_control_nil l : after_control [] l = l.
Proof using Type. apply filter_all. set_solver. Qed.

Lemma policies_unique hooks contract h h' :
  updates_wf hooks → h ∈ policies hooks contract → h' ∈ policies hooks contract →
  uh_id h = uh_id h' → h = h'.
Proof using Type.
  intros Hwf Hh Hh' Heq. unfold policies in *. destruct (hooks !! contract) as [l|] eqn:El; [|set_solver].
  pose proof (Hwf _ _ El) as Hnd. apply list_elem_of_lookup in Hh as [i Hi].
  apply list_elem_of_lookup in Hh' as [j Hj]. simpl in Hi, Hj. assert (i = j) as ->; [|congruence].
  apply (proj1 (NoDup_alt _) Hnd i j (uh_id h)); rewrite list_lookup_fmap; [by rewrite Hi|by rewrite Hj, Heq].
Qed.

Lemma after_control_cons hook reached l :
  (∀ h, h ∈ l → uh_id h = uh_id hook → h = hook) →
  after_control reached (if uh_once hook then filter (λ h, uh_id h ≠ uh_id hook) l else l) =
  after_control (uh_id hook :: reached) l.
Proof using Type.
  intros Hl. unfold after_control. destruct (uh_once hook) eqn:Eo; [rewrite list_filter_filter|];
    apply filter_ext_in; intros h Hh; rewrite elem_of_cons; specialize (Hl h Hh);
    (destruct (decide (uh_id h = uh_id hook)) as [He|]; [rewrite (Hl He), Eo; intuition congruence|tauto]).
Qed.

Lemma run_chain_governs contract hooks change (s : ControlState W) :
  updates_wf (uc_hooks s) → NoDup (map uh_id hooks) →
  (∀ h, h ∈ hooks → h ∈ policies (uc_hooks s) contract) →
  let '(reached, (r, tail, w)) := govern hooks change (uc_world s) in
  ∃ s', run_chain quiet_mapper quiet_around contract (map update_snap hooks) change s = (r, tail, s') ∧
    uc_world s' = w ∧
    policies (uc_hooks s') contract = after_control reached (policies (uc_hooks s) contract).
Proof.
  revert change s. induction hooks as [|hook hooks IH]; intros change s Hwf Hnd Hall.
  { simpl. exists s. split_and!; [done..|]. by rewrite after_control_nil. }
  csimpl in Hnd. apply NoDup_cons in Hnd as [Hnot Hnd].
  assert (hook ∈ policies (uc_hooks s) contract) as Hin by (apply Hall; by left).
  destruct (update_claim_live contract hook (uc_hooks s) Hwf Hin) as (h1 & Hc & Hwf1 & Hp1).
  assert (∀ h, h ∈ policies (uc_hooks s) contract → uh_id h = uh_id hook → h = hook) as Huniq
    by (intros h Hh Hid; exact (policies_unique _ _ h hook Hwf Hh Hin Hid)).
  assert (∀ c w, let '(reached, (r, tail, w')) := govern hooks c w in
    ∃ s', run_chain quiet_mapper quiet_around contract (map update_snap hooks) c
            {| uc_hooks := h1; uc_world := w |} = (r, tail, s') ∧ uc_world s' = w' ∧
      policies (uc_hooks s') contract =
        after_control (uh_id hook :: reached) (policies (uc_hooks s) contract)) as Hrest.
  { intros c w. specialize (IH c {| uc_hooks := h1; uc_world := w |} Hwf1 Hnd). cbn [uc_world uc_hooks] in IH.
    destruct (govern hooks c w) as [reached [[r tail] w']]. destruct IH as (s' & He & Hw & Hp).
    - intros h Hh. rewrite Hp1. destruct (uh_once hook); [|apply Hall; by right].
      apply list_elem_of_filter. split; [|apply Hall; by right].
      intros Heq. apply Hnot. rewrite <- Heq. apply list_elem_of_fmap. eauto.
    - exists s'. split_and!; [done..|]. rewrite Hp, Hp1. by apply after_control_cons. }
  assert (policies h1 contract = after_control [uh_id hook] (policies (uc_hooks s) contract)) as Hstop.
  { rewrite Hp1, <- after_control_cons by done. by rewrite after_control_nil. }
  cbn [map run_chain govern us_id us_kind update_snap]. rewrite Hc.
  cbn [negb uc_world uc_hooks]. clear IH Hall.
  destruct (uh_kind hook) as [cb|cb].
  - rewrite quiet_mapper_eq. cbn [uc_world uc_hooks]. destruct (mapper cb change (uc_world s)) as [[c|f] w]; cbn [fst snd].
    + specialize (Hrest c w). destruct (govern hooks c w) as [reached [[r tail] w']].
      destruct Hrest as (s' & -> & Hw & Hp). eauto.
    + eexists. split_and!; [done|done|]. apply Hstop.
  - unfold quiet_around at 1. cbn [uc_world uc_hooks]. destruct (around cb change (uc_world s)) as [r w|c w k].
    + eexists. split_and!; [done|done|]. apply Hstop.
    + specialize (Hrest c w). destruct (govern hooks c w) as [reached [[r tail] w']].
      destruct Hrest as (s' & -> & Hw & Hp). unfold lift_world. rewrite Hw. destruct (k r w') as [r' w''].
      eexists. split_and!; [done|done|exact Hp].
Qed.
End quiet_policies.

(** * Properties *)


(** A mapper that doubles, an Around that vetoes even changes, logging their handles. *)
Definition sample_mapper (cb c : nat) (w : list nat) : result nat InvocationFailure * list nat :=
  (Ok (2 * c), w ++ [cb]).

Definition sample_around (cb c : nat) (w : list nat) : QuietRun :=
  if Nat.even c then QuietEnds (Ok 0) (w ++ [cb]) else QuietCalls c (w ++ [cb]) (λ r w, (r, w ++ [cb])).

Definition sample_policy (id : nat) (once : bool) (kind : UpdateKind) : UpdateHook :=
  {| uh_id := id; uh_prepend := false; uh_global := false; uh_scope := None; uh_once := once; uh_kind := kind |}.

Definition sample_control : ControlState (list nat) :=
  {| uc_hooks := update_add 9 (sample_policy 2 true (UpdateMapper 5))
       (update_add 9 (sample_policy 1 false (UpdateAround 4)) UpdateStore_new); uc_world := [] |}.

