(* ===== verification/Inertia.v ===== *)
(** The convergence slot of one Fiber (crates/cordis-core/src/fiber/inertia.rs) as a
    concurrent protocol: every atomic access of [InertiaSlot] is one step of one thread.

    A Service mutation, under the ServiceStore lock, first commits a recheck revision of
    the dependent Fiber and then changes what [compute_target] reads ([st_live]); after
    releasing the lock it kicks the slot.  Lifecycle passes claim the slot, settle the
    Fiber towards a target, and leave through [exit_recheck].  [compute_target] takes the
    ServiceStore lock, so it waits while a mutation is in progress.  A pass of
    [settle_once] is a step that may take arbitrarily long; the wake-ups of [done] only
    decide when a blocked claim is retried.

    Three holders of a live Fiber leave by [abandon], without the recheck: an era swap that
    is refused, the handoff of a spawn, and the tail of the creation pass, which runs after
    the exit has released the slot.  The history fields [st_refused] and [st_stolen] record
    when that loses a recheck or takes the slot from another holder; the properties of the
    protocol are those of the runs where it does not, and the last theorems show that it
    can.

    The revision counters are [u64] words: a commit at the top of the range is not a
    step of the model, so the results hold for the first [2^64 - 1] commits. *)
From S2P Require Import Prelude.

(* @src crates/cordis-core/src/fiber/inertia.rs 38-43 INERTIA_IDLE *)
Inductive Word := IDLE | ACTIVE | RELEASING.

#[export] Instance Word_eq_dec : EqDecision Word.
Proof. solve_decision. Defined.

(** The pass that holds the slot: a kicked convergence, a committed restart or update,
    the initial creation pass. *)
Inductive Mode := Converging | Committed | Creating.

(** Who claims the slot explicitly. *)
Inductive Purpose := Operation | Creation | EraSwap | Handoff | Dispose.

#[export] Instance Purpose_eq_dec : EqDecision Purpose.
Proof. solve_decision. Defined.

Section slot.
Context {T : Type} `{EqDecision T}.

(** The program counter of a thread; [i] is the revision a mutation committed ([None]
    for a kick from [ready]). *)
Inductive PC :=
(* a Service mutation, holding the ServiceStore lock *)
| MutLocked
| MutCommitted (i : Z)
(* [InertiaSlot::kick] *)
| KickStart (i : option Z)
| KickCommitted (i : option Z)
| KickSettled (i : option Z) (c : Z)
| KickLoad (i : option Z)
| KickReclaim (i : option Z)
| KickClaim (i : option Z)
| KickWon
| KickRevised (r : Z)
(* explicit claims *)
| Claiming (p : Purpose)
| Claimed (p : Purpose)
| Disposing
| Finishing
(* the passes *)
| Again (m : Mode)
| Revised (m : Mode) (r : Z)
| Top
| TopRevised (r : Z)
| Settling (m : Mode) (t : T) (r : Z)
| Checking (t : T) (r : Z)
(* [InertiaSlot::exit_recheck] *)
| ExitStore (m : Mode) (t : T) (r : Z)
| ExitProbe (m : Mode) (t : T) (r : Z)
| ExitObserve (m : Mode) (t : T) (r : Z) (l : T)
| ExitDrift (m : Mode) (l : T)
| ExitSettle (m : Mode) (t : T) (r : Z)
| ExitCas (m : Mode) (t : T) (r : Z)
| ExitReread (m : Mode) (t : T)
(* the tail of the creation pass, after its exit has released the slot *)
| Trailing
| TrailingAbandon.

(** [InertiaSlot], the ServiceStore lock (its holder, and whether the holder has
    committed its revision but not yet changed the slot table), what [compute_target]
    reads, the death and terminal marks of the Fiber, and the threads.  The last five
    fields record history: the target of the last clean exit, the revisions whose kick
    gave up without an executor, whether a holder that did not settle gave the slot of a
    live Fiber back over an outstanding recheck, whether an [expect] or an invalid-state
    panic was reached, and whether the tail of a creation pass released a slot that
    another thread had claimed. *)
(* @src crates/cordis-core/src/fiber/inertia.rs 97-117 InertiaSlot *)
Record State := {
  st_word : Word;
  st_cell : option T;
  st_committed : Z;
  st_settled : Z;
  st_live : T;
  st_lock : option (nat * bool);
  st_alive : bool;
  st_terminal : bool;
  st_threads : gmap nat PC;
  st_applied : option T;
  st_skipped : gset Z;
  st_refused : bool;
  st_panicked : bool;
  st_stolen : bool;
}.

(* @src crates/cordis-core/src/fiber/inertia.rs 139-148 InertiaSlot::new *)
Definition slot_new (live : T) : State :=
  {| st_word := IDLE; st_cell := None; st_committed := 0; st_settled := 0; st_live := live;
     st_lock := None; st_alive := true; st_terminal := false; st_threads := ∅;
     st_applied := None; st_skipped := ∅; st_refused := false; st_panicked := false;
     st_stolen := false |}.

Definition set_word (w : Word) (s : State) : State :=
  {| st_word := w; st_cell := st_cell s; st_committed := st_committed s; st_settled := st_settled s;
     st_live := st_live s; st_lock := st_lock s; st_alive := st_alive s; st_terminal := st_terminal s;
     st_threads := st_threads s; st_applied := st_applied s; st_skipped := st_skipped s;
     st_refused := st_refused s; st_panicked := st_panicked s; st_stolen := st_stolen s |}.

Definition set_cell (c : option T) (s : State) : State :=
  {| st_word := st_word s; st_cell := c; st_committed := st_committed s; st_settled := st_settled s;
     st_live := st_live s; st_lock := st_lock s; st_alive := st_alive s; st_terminal := st_terminal s;
     st_threads := st_threads s; st_applied := st_applied s; st_skipped := st_skipped s;
     st_refused := st_refused s; st_panicked := st_panicked s; st_stolen := st_stolen s |}.

Definition set_revisions (c z : Z) (s : State) : State :=
  {| st_word := st_word s; st_cell := st_cell s; st_committed := c; st_settled := z;
     st_live := st_live s; st_lock := st_lock s; st_alive := st_alive s; st_terminal := st_terminal s;
     st_threads := st_threads s; st_applied := st_applied s; st_skipped := st_skipped s;
     st_refused := st_refused s; st_panicked := st_panicked s; st_stolen := st_stolen s |}.

Definition set_live (l : T) (k : option (nat * bool)) (s : State) : State :=
  {| st_word := st_word s; st_cell := st_cell s; st_committed := st_committed s; st_settled := st_settled s;
     st_live := l; st_lock := k; st_alive := st_alive s; st_terminal := st_terminal s;
     st_threads := st_threads s; st_applied := st_applied s; st_skipped := st_skipped s;
     st_refused := st_refused s; st_panicked := st_panicked s; st_stolen := st_stolen s |}.

Definition set_marks (alive terminal : bool) (s : State) : State :=
  {| st_word := st_word s; st_cell := st_cell s; st_committed := st_committed s; st_settled := st_settled s;
     st_live := st_live s; st_lock := st_lock s; st_alive := alive; st_terminal := terminal;
     st_threads := st_threads s; st_applied := st_applied s; st_skipped := st_skipped s;
     st_refused := st_refused s; st_panicked := st_panicked s; st_stolen := st_stolen s |}.

Definition set_thread (tid : nat) (pc : option PC) (s : State) : State :=
  {| st_word := st_word s; st_cell := st_cell s; st_committed := st_committed s; st_settled := st_settled s;
     st_live := st_live s; st_lock := st_lock s; st_alive := st_alive s; st_terminal := st_terminal s;
     st_threads := match pc with Some pc => <[ tid := pc ]> (st_threads s) | None => delete tid (st_threads s) end;
     st_applied := st_applied s; st_skipped := st_skipped s;
     st_refused := st_refused s; st_panicked := st_panicked s; st_stolen := st_stolen s |}.

Definition set_history (a : option T) (k : gset Z) (f p : bool) (s : State) : State :=
  {| st_word := st_word s; st_cell := st_cell s; st_committed := st_committed s; st_settled := st_settled s;
     st_live := st_live s; st_lock := st_lock s; st_alive := st_alive s; st_terminal := st_terminal s;
     st_threads := st_threads s; st_applied := a; st_skipped := k; st_refused := f; st_panicked := p;
     st_stolen := st_stolen s |}.

Definition set_stolen (b : bool) (s : State) : State :=
  {| st_word := st_word s; st_cell := st_cell s; st_committed := st_committed s; st_settled := st_settled s;
     st_live := st_live s; st_lock := st_lock s; st_alive := st_alive s; st_terminal := st_terminal s;
     st_threads := st_threads s; st_applied := st_applied s; st_skipped := st_skipped s;
     st_refused := st_refused s; st_panicked := st_panicked s; st_stolen := b |}.

Definition skip_kick (i : option Z) (s : State) : State :=
  match i with
  | Some i => set_history (st_applied s) ({[ i ]} ∪ st_skipped s) (st_refused s) (st_panicked s) s
  | None => s
  end.

Definition panic (s : State) : State :=
  set_history (st_applied s) (st_skipped s) (st_refused s) true s.

(** [commit_recheck]; [None] at the top of the counter's range. *)
(* @src crates/cordis-core/src/fiber/inertia.rs 229-231 InertiaSlot::commit_recheck *)
Definition commit_recheck (s : State) : option State :=
  match checked_succ (st_committed s) with
  | Some c => Some (set_revisions c (st_settled s) s)
  | None => None
  end.

(* @src crates/cordis-core/src/fiber/inertia.rs 233-235 InertiaSlot::has_committed_recheck *)
Definition has_committed_recheck (s : State) : bool := negb (bool_decide (st_committed s = st_settled s)).

(* @src crates/cordis-core/src/fiber/inertia.rs 273-275 InertiaSlot::is_idle *)
Definition is_idle (s : State) : bool := bool_decide (st_word s = IDLE).

(* @src crates/cordis-core/src/fiber/inertia.rs 177-179 InertiaSlot::record_target *)
Definition record_target (t : T) (s : State) : State := set_cell (Some t) s.

(* @src crates/cordis-core/src/fiber/inertia.rs 184-186 InertiaSlot::pin_inactive *)
Definition pin_inactive (s : State) : State := set_cell None s.

(* @src crates/cordis-core/src/fiber/inertia.rs 194-199 InertiaSlot::mark_pending_if_untouched *)
Definition mark_pending_if_untouched (pending : T) (s : State) : State :=
  set_cell (match st_cell s with None => Some pending | Some _ => st_cell s end) s.

(** The IDLE to ACTIVE exchange, by which every claim goes. *)
(* @src crates/cordis-core/src/fiber/inertia.rs 280-289 InertiaSlot::try_claim *)
Definition try_claim (s : State) : bool * State :=
  if decide (st_word s = IDLE) then (true, set_word ACTIVE s) else (false, s).

(* @src crates/cordis-core/src/fiber/inertia.rs 265-268 InertiaSlot::abandon *)
Definition abandon (s : State) : State := set_word IDLE s.

(** [abandon] by a holder of a live Fiber that settled nothing: a recheck outstanding at
    that moment is recorded in the history. *)
Definition bare_release (s : State) : State :=
  set_history (st_applied s) (st_skipped s) (st_refused s || has_committed_recheck s) (st_panicked s) (abandon s).

(** What is decided outside the slot: the value a mutation or a committed input change
    leaves behind, whether an executor is current, and how a body ended. *)
Record Choice := { ch_live : T; ch_exec : bool; ch_fail : bool; ch_change : bool }.

Context (has_missing : T → bool).

(** One step of [kick]; a [None] thread has returned. *)
(* @src crates/cordis-core/src/fiber/inertia.rs 353-415 InertiaSlot::kick *)
Definition kick_step (pc : PC) (ch : Choice) (s : State) : option (option PC * State) :=
  match pc with
  | KickStart i => if st_alive s then Some (Some (KickCommitted i), s) else Some (None, s)
  | KickCommitted i => Some (Some (KickSettled i (st_committed s)), s)
  | KickSettled i c => if decide (c = st_settled s) then Some (None, s) else Some (Some (KickLoad i), s)
  | KickLoad i =>
      match st_word s with
      | ACTIVE => Some (None, s)
      | RELEASING => Some (Some (KickReclaim i), s)
      | IDLE => if ch_exec ch then Some (Some (KickClaim i), s) else Some (None, skip_kick i s)
      end
  | KickReclaim i =>
      if decide (st_word s = RELEASING) then Some (None, set_word ACTIVE s) else Some (Some (KickLoad i), s)
  | KickClaim i =>
      match try_claim s with
      | (true, s) => Some (Some KickWon, s)
      | (false, s) => Some (Some (KickLoad i), s)
      end
  | KickWon => Some (Some (KickRevised (st_committed s)), s)
  | KickRevised r =>
      match st_cell s with
      | Some t => Some (Some (ExitStore Converging t r), s)
      | None => match st_lock s with
                | Some _ => None
                | None => Some (Some Top, record_target (st_live s) s)
                end
      end
  | _ => None
  end.

(** One step of [exit_recheck], which returns by leaving the slot ([None]) or with the
    pass going on towards the recorded drift. *)
(* @src crates/cordis-core/src/fiber/inertia.rs 296-342 InertiaSlot::exit_recheck *)
Definition exit_step (pc : PC) (s : State) : option (option PC * State) :=
  match pc with
  | ExitStore m t r => Some (Some (ExitProbe m t r), set_word RELEASING s)
  | ExitProbe m t r =>
      match st_lock s with Some _ => None | None => Some (Some (ExitObserve m t r (st_live s)), s) end
  | ExitObserve m t r l =>
      let observed := st_committed s in
      if decide (l = t)
      then if decide (observed = r) then Some (Some (ExitSettle m t r), s)
           else Some (Some (ExitStore m t observed), s)
      else Some (Some (ExitDrift m l), s)
  | ExitDrift m l =>
      let s := set_word ACTIVE (record_target l s) in
      Some (Some (match m with Converging => Top | _ => Again m end), s)
  | ExitSettle m t r => Some (Some (ExitCas m t r), set_revisions (st_committed s) r s)
  | ExitCas m t r =>
      match st_word s with
      | RELEASING => Some (match m with Creating => Some Trailing | _ => None end, set_word IDLE
                           (set_history (Some t) (st_skipped s) (st_refused s) (st_panicked s) s))
      | ACTIVE => Some (Some (ExitReread m t), s)
      | IDLE => Some (None, panic s)
      end
  | ExitReread m t => Some (Some (ExitStore m t (st_committed s)), s)
  | _ => None
  end.

(** [claim] retries the exchange whenever it is woken: it blocks while the slot is held. *)
(* @src crates/cordis-core/src/fiber/inertia.rs 206-225 InertiaSlot::claim *)
Definition claim_step (pc : PC) (s : State) : option (option PC * State) :=
  match pc with
  | Claiming p => match try_claim s with (true, s) => Some (Some (Claimed p), s) | (false, _) => None end
  | _ => None
  end.

(** The prologue of a restart or of an update, which commits a new input, so changes what
    [compute_target] reads. *)
(* @src crates/cordis-core/src/fiber/inertia.rs 674-723 InertiaSlot::update_pass *)
Definition operation_step (pc : PC) (ch : Choice) (s : State) : option (option PC * State) :=
  match pc with
  | Claimed Operation =>
      if negb (st_alive s) then Some (None, abandon s)
      else if ch_change ch then Some (Some (Claimed Operation), set_live (ch_live ch) (st_lock s) s)
      else Some (Some (Again Committed), s)
  | _ => None
  end.

(** An era swap that finds a dependent it would wait on gives the slot back. *)
(* @src crates/cordis-core/src/fiber/era.rs 160-201 FiberHandle::era_swap *)
Definition era_step (pc : PC) (ch : Choice) (s : State) : option (option PC * State) :=
  match pc with
  | Claimed EraSwap =>
      if negb (st_alive s) then Some (None, abandon s)
      else if ch_fail ch
      then Some (None, bare_release s)
      else if st_terminal s then Some (None, abandon s)
      else Some (Some Disposing, set_marks (st_alive s) true s)
  | _ => None
  end.

(** The handoff of a spawn claims the slot to wait for a racing disposal, and gives it
    back; the death mark it reads decides what the spawn returns. *)
(* @src crates/cordis-core/src/fiber/spawn.rs 350-352 spawn_prepared_inner *)
Definition handoff_step (pc : PC) (s : State) : option (option PC * State) :=
  match pc with
  | Claimed Handoff => Some (None, if st_alive s then bare_release s else abandon s)
  | _ => None
  end.

(** Disposal: the terminal claim, the teardown with its death mark, the release. *)
(* @src crates/cordis-core/src/fiber/mod.rs 1009-1047 Fiber::dispose *)
Definition dispose_step (pc : PC) (s : State) : option (option PC * State) :=
  match pc with
  | Claimed Dispose =>
      if st_terminal s then Some (None, abandon s) else Some (Some Disposing, set_marks (st_alive s) true s)
  | Disposing => Some (Some Finishing, set_marks false (st_terminal s) (pin_inactive s))
  | Finishing => Some (None, abandon s)
  | _ => None
  end.

(** A committed restart or update: settle towards the target, leave unless it drifted. *)
(* @src crates/cordis-core/src/fiber/inertia.rs 649-671 InertiaSlot::restart_committed *)
Definition committed_step (pc : PC) (s : State) : option (option PC * State) :=
  match pc with
  | Again Committed => Some (Some (Revised Committed (st_committed s)), s)
  | Revised Committed r =>
      match st_lock s with
      | Some _ => None
      | None => Some (Some (Settling Committed (st_live s) r), record_target (st_live s) s)
      end
  | Settling Committed t r => Some (Some (ExitStore Committed t r), s)
  | _ => None
  end.

(** The creation pass; a failed initial apply tears the Fiber down under the slot.  The
    tail runs after a clean exit too: it reads the word again and releases what it finds
    held, whoever holds it. *)
(* @src crates/cordis-core/src/fiber/inertia.rs 490-557 InertiaSlot::initial_spawn_pass *)
Definition creation_step (pc : PC) (ch : Choice) (s : State) : option (option PC * State) :=
  match pc with
  | Claimed Creation =>
      if negb (st_alive s) then Some (None, abandon s) else Some (Some (Again Creating), s)
  | Again Creating => Some (Some (Revised Creating (st_committed s)), s)
  | Revised Creating r =>
      match st_lock s with Some _ => None | None => Some (Some (Settling Creating (st_live s) r), s) end
  | Settling Creating t r =>
      if has_missing t
      then Some (Some (ExitStore Creating t r), mark_pending_if_untouched t s)
      else let s := record_target t s in
           if ch_fail ch then Some (Some Disposing, set_marks (st_alive s) true s)
           else Some (Some (ExitStore Creating t r), s)
  | Trailing => if is_idle s then Some (None, s) else Some (Some TrailingAbandon, s)
  | TrailingAbandon => Some (None, set_stolen (st_stolen s || negb (is_idle s)) (abandon s))
  | _ => None
  end.

(** The convergence loop; [current_target] expects a recorded target. *)
(* @src crates/cordis-core/src/fiber/inertia.rs 571-589 InertiaSlot::convergence_pass *)
Definition convergence_step (pc : PC) (s : State) : option (option PC * State) :=
  match pc with
  | Top => Some (Some (TopRevised (st_committed s)), s)
  | TopRevised r =>
      match st_cell s with
      | Some t => Some (Some (Settling Converging t r), s)
      | None => Some (None, panic s)
      end
  | Settling Converging t r => Some (Some (Checking t r), s)
  | Checking t r =>
      match st_lock s with
      | Some _ => None
      | None => if decide (st_live s = t) then Some (Some (ExitStore Converging t r), s)
                else Some (Some Top, record_target (st_live s) s)
      end
  | _ => None
  end.

(** One step of a mutation inside the ServiceStore lock. *)
Definition mutation_step (tid : nat) (pc : PC) (ch : Choice) (s : State) : option (option PC * State) :=
  match pc with
  | MutLocked =>
      match commit_recheck s with
      | Some s => Some (Some (MutCommitted (st_committed s)), set_live (st_live s) (Some (tid, true)) s)
      | None => None
      end
  | MutCommitted i => Some (Some (KickStart (Some i)), set_live (ch_live ch) None s)
  | _ => None
  end.

Definition thread_step (tid : nat) (pc : PC) (ch : Choice) (s : State) : option (option PC * State) :=
  match pc with
  | MutLocked | MutCommitted _ => mutation_step tid pc ch s
  | KickStart _ | KickCommitted _ | KickSettled _ _ | KickLoad _ | KickReclaim _ | KickClaim _
  | KickWon | KickRevised _ => kick_step pc ch s
  | Claiming _ => claim_step pc s
  | Claimed Operation => operation_step pc ch s
  | Claimed EraSwap => era_step pc ch s
  | Claimed Handoff => handoff_step pc s
  | Claimed Dispose | Disposing | Finishing => dispose_step pc s
  | Claimed Creation | Again Creating | Revised Creating _ | Settling Creating _ _
  | Trailing | TrailingAbandon => creation_step pc ch s
  | Again Committed | Revised Committed _ | Settling Committed _ _ => committed_step pc s
  | Again Converging | Revised Converging _ => None
  | Top | TopRevised _ | Settling Converging _ _ | Checking _ _ => convergence_step pc s
  | _ => exit_step pc s
  end.

(** A schedule is a list of actions: a new thread starts, the Fiber is marked terminal
    by a creation guard, or a thread takes its next step. *)
Inductive Action :=
| NewMutation (tid : nat)
| NewClaim (tid : nat) (p : Purpose)
| NewKick (tid : nat)
| MarkTerminal
| Run (tid : nat) (ch : Choice).

Definition act (a : Action) (s : State) : option State :=
  match a with
  | NewMutation tid =>
      match st_threads s !! tid, st_lock s with
      | None, None => Some (set_thread tid (Some MutLocked) (set_live (st_live s) (Some (tid, false)) s))
      | _, _ => None
      end
  | NewClaim tid p =>
      match st_threads s !! tid with None => Some (set_thread tid (Some (Claiming p)) s) | Some _ => None end
  | NewKick tid =>
      match st_threads s !! tid with None => Some (set_thread tid (Some (KickStart None)) s) | Some _ => None end
  | MarkTerminal => Some (set_marks (st_alive s) true s)
  | Run tid ch =>
      match st_threads s !! tid with
      | Some pc => match thread_step tid pc ch s with
                   | Some (pc', s') => Some (set_thread tid pc' s')
                   | None => None
                   end
      | None => None
      end
  end.

Definition slot_step (s s' : State) : Prop := ∃ a, act a s = Some s'.

Definition slot_init (s : State) : Prop := ∃ live, s = slot_new live.

(** Some schedule leads to the state. *)
Definition slot_reachable : State → Prop := reachable slot_init slot_step.

(** A schedule run from a state; [None] when one of its actions is not enabled. *)
Fixpoint run_schedule (as_ : list Action) (s : State) : option State :=
  match as_ with
  | [] => Some s
  | a :: as_ => match act a s with Some s => run_schedule as_ s | None => None end
  end.

(** * The invariant *)

(** The threads that hold the slot. *)
Definition owns (pc : PC) : bool :=
  match pc with
  | MutLocked | MutCommitted _ | KickStart _ | KickCommitted _ | KickSettled _ _ | KickLoad _
  | KickReclaim _ | KickClaim _ | Claiming _ | Trailing | TrailingAbandon => false
  | _ => true
  end.

(** The revision whose kick a thread still owes. *)
Definition pending (pc : PC) : option Z :=
  match pc with
  | MutCommitted i => Some i
  | KickStart i | KickCommitted i | KickSettled i _ | KickLoad i | KickReclaim i | KickClaim i => i
  | _ => None
  end.

(** A mutation has committed its revision and not yet changed the slot table. *)
Definition mid_mutation (s : State) : bool :=
  match st_lock s with Some (_, true) => true | _ => false end.

(** [v] was read after every mutation counted in [r]. *)
Definition fresh_view (s : State) (r : Z) (v : T) : Prop :=
  st_committed s = r → st_live s = v ∧ mid_mutation s = false.

Definition quiet_view (s : State) : Prop :=
  st_terminal s = false → ∀ t, st_applied s = Some t → fresh_view s (st_settled s) t.

Definition in_range (s : State) (r : Z) : Prop := (st_settled s ≤ r ≤ st_committed s)%Z.

Definition counted (i : option Z) (c : Z) : Prop := match i with Some i => (i ≤ c)%Z | None => True end.

Definition pc_ok (s : State) (pc : PC) : Prop :=
  match pc with
  | MutCommitted i => (i ≤ st_committed s)%Z
  | KickStart i | KickCommitted i | KickLoad i | KickReclaim i | KickClaim i => counted i (st_committed s)
  | KickSettled i c => counted i c ∧ (c ≤ st_committed s)%Z
  | Claimed EraSwap | Claimed Handoff => quiet_view s
  | Disposing | Finishing => st_terminal s = true
  | Again m => m ≠ Converging
  | Revised m r => m ≠ Converging ∧ in_range s r
  | KickRevised r | Settling _ _ r | Checking _ r | ExitStore _ _ r | ExitProbe _ _ r =>
      in_range s r
  | Top => st_cell s ≠ None
  | TopRevised r => st_cell s ≠ None ∧ in_range s r
  | ExitObserve _ _ r l => in_range s r ∧ fresh_view s r l
  | ExitSettle _ t r => in_range s r ∧ fresh_view s r t
  | ExitCas _ t r => in_range s r ∧ fresh_view s r t ∧ st_settled s = r
  | _ => True
  end.

Definition lock_ok (s : State) (tid : nat) (pc : PC) : Prop :=
  match pc with
  | MutLocked => st_lock s = Some (tid, false)
  | MutCommitted _ => st_lock s = Some (tid, true)
  | _ => ∀ k, st_lock s ≠ Some (tid, k)
  end.

(** The holder will not release the slot without having probed after revision [i]. *)
Definition sees (s : State) (pc : PC) (i : Z) : Prop :=
  match pc with
  | ExitSettle _ _ r | ExitCas _ _ r => st_word s = ACTIVE ∨ (i ≤ r)%Z
  | _ => True
  end.

Definition covered (s : State) (i : Z) : Prop :=
  i ∈ st_skipped s ∨
  ∃ tid pc, st_threads s !! tid = Some pc ∧ (pending pc = Some i ∨ owns pc = true ∧ sees s pc i).

Record slot_inv (s : State) : Prop := {
  si_unique : ∀ a b pa pb, st_threads s !! a = Some pa → st_threads s !! b = Some pb →
    owns pa = true → owns pb = true → a = b;
  si_idle : st_word s = IDLE ↔ ∀ a pa, st_threads s !! a = Some pa → owns pa = false;
  si_pcs : ∀ a pa, st_threads s !! a = Some pa → pc_ok s pa ∧ lock_ok s a pa;
  si_holder : ∀ a k, st_lock s = Some (a, k) → is_Some (st_threads s !! a);
  si_range : (0 ≤ st_settled s ≤ st_committed s)%Z;
  si_quiet : st_word s = IDLE → quiet_view s;
  si_covered : st_terminal s = false → st_refused s = false →
    ∀ i, (st_settled s < i ≤ st_committed s)%Z → covered s i;
  si_alive : st_alive s = false → st_terminal s = true;
  si_panicked : st_panicked s = false;
}.

Definition owns_opt (pc : option PC) : bool := match pc with Some pc => owns pc | None => false end.

(** What a step of [pc] may do to the fields the other threads rely on. *)
Record framed (pc : PC) (s s1 : State) : Prop := {
  fr_threads : st_threads s1 = st_threads s;
  fr_committed : (st_committed s ≤ st_committed s1)%Z;
  fr_settled : (st_settled s ≤ st_settled s1)%Z;
  fr_skipped : st_skipped s ⊆ st_skipped s1;
  fr_refused : st_refused s1 = false → st_refused s = false;
  fr_terminal : st_terminal s1 = false → st_terminal s = false;
  fr_other : owns pc = false →
    st_settled s1 = st_settled s ∧ st_cell s1 = st_cell s ∧ st_applied s1 = st_applied s ∧
    (st_word s = ACTIVE → st_word s1 = ACTIVE) ∧
    ∀ r v, (r ≤ st_committed s)%Z → fresh_view s r v → fresh_view s1 r v;
}.

Lemma framed_pc_ok pc s s1 p :
  framed pc s s1 → owns pc = false ∨ owns p = false → (st_settled s ≤ st_committed s)%Z →
  pc_ok s p → pc_ok s1 p.
Proof.
  intros [_ Hc _ _ _ Ht Ho] Hor Hr Hp.
  assert (∀ i c, counted i c → (c ≤ st_committed s1)%Z → counted i (st_committed s1)) as Hcount.
  { intros [i|] c ?? ; simpl in *; [lia|done]. }
  assert (st_terminal s = true → st_terminal s1 = true) as Hterm.
  { intros Hts. destruct (st_terminal s1) eqn:E; [done|]. by rewrite Ht in Hts. }
  destruct Hor as [Hpc|Hn].
  - destruct (Ho Hpc) as (Hs & Hcell & Ha & _ & Hv).
    assert (∀ r, in_range s r → in_range s1 r) as Hrange by (unfold in_range; intros; rewrite Hs; lia).
    assert (quiet_view s → quiet_view s1) as Hq.
    { intros Hq Ht1 t Hap. rewrite Hs. apply Hv; [lia|]. apply Hq; [by apply Ht|by rewrite <- Ha]. }
    assert (∀ r v, in_range s r → fresh_view s r v → fresh_view s1 r v) as Hvr
      by (intros r v [_ ?]; by apply Hv).
    destruct p; try match goal with q : Purpose |- _ => destruct q end; simpl in *; try done;
      rewrite ?Hcell, ?Hs; intuition (eauto with lia).
  - destruct p; simpl in *; try done; naive_solver lia.
Qed.

Definition pending_opt (pc : option PC) : option Z := match pc with Some pc => pending pc | None => None end.

Definition sees_opt (s : State) (pc : option PC) (i : Z) : Prop :=
  match pc with Some pc => owns pc = true ∧ sees s pc i | None => False end.

Lemma set_thread_fields tid pc s :
  st_word (set_thread tid pc s) = st_word s ∧ st_cell (set_thread tid pc s) = st_cell s ∧
  st_committed (set_thread tid pc s) = st_committed s ∧ st_settled (set_thread tid pc s) = st_settled s ∧
  st_lock (set_thread tid pc s) = st_lock s ∧ st_skipped (set_thread tid pc s) = st_skipped s.
Proof. done. Qed.

Lemma set_thread_pc_ok tid pc s p : pc_ok (set_thread tid pc s) p ↔ pc_ok s p.
Proof. done. Qed.

Lemma set_thread_lookup tid pc s b pb :
  st_threads (set_thread tid pc s) !! b = Some pb ↔
  (b = tid ∧ pc = Some pb) ∨ (b ≠ tid ∧ st_threads s !! b = Some pb).
Proof.
  simpl. destruct pc as [pc|]; [rewrite lookup_insert_Some|rewrite lookup_delete_Some]; naive_solver.
Qed.

(** A step keeps the invariant if it keeps what it owes: ownership of the slot and of
    the lock, the facts of its own counter, and the cover of every committed revision. *)
Lemma inv_thread tid pc pc' s s1 :
  slot_inv s → st_threads s !! tid = Some pc → framed pc s s1 →
  (owns_opt pc' = true → owns pc = true ∨ st_word s = IDLE) →
  (st_word s1 = IDLE ↔ owns_opt pc' = false ∧ (owns pc = true ∨ st_word s = IDLE)) →
  (∀ b k, b ≠ tid → st_lock s1 = Some (b, k) ↔ st_lock s = Some (b, k)) →
  match pc' with
  | Some p => pc_ok s1 p ∧ lock_ok s1 tid p
  | None => ∀ k, st_lock s1 ≠ Some (tid, k)
  end →
  (0 ≤ st_settled s1 ≤ st_committed s1)%Z →
  (st_word s1 = IDLE → quiet_view s1) →
  (st_terminal s1 = false → st_refused s1 = false →
   ∀ i, (st_settled s1 < i ≤ st_committed s1)%Z →
   (st_committed s < i)%Z ∨ pending pc = Some i ∨ (owns pc = true ∧ sees s pc i) →
   pending_opt pc' = Some i ∨ i ∈ st_skipped s1 ∨ sees_opt s1 pc' i ∨
   ∃ b pb, b ≠ tid ∧ st_threads s !! b = Some pb ∧ owns pb = true ∧ sees s1 pb i) →
  (st_alive s1 = false → st_terminal s1 = true) → st_panicked s1 = false →
  slot_inv (set_thread tid pc' s1).
Proof.
  intros [Huniq Hidle Hpcs Hhold Hrange Hquiet Hcov Halive Hpan] Htid Hfr Hown Hword Hlock Hpc' Hr1 Hq1 Hc1 Ha1 Hp1.
  assert (Ht : st_threads s1 = st_threads s) by apply Hfr.
  assert (∀ b pb, b ≠ tid → st_threads s !! b = Some pb → owns pb = true →
    owns pc = false ∧ st_word s ≠ IDLE) as Hsole.
  { intros b pb Hb Hpb Ho. split.
    - destruct (owns pc) eqn:E; [|done]. destruct Hb. by eapply Huniq.
    - intros Hw. rewrite Hidle in Hw. rewrite (Hw b pb Hpb) in Ho. done. }
  split.
  - intros a b pa pb Ha Hb Hoa Hob. rewrite set_thread_lookup, Ht in Ha, Hb.
    destruct Ha as [[-> ->]|[Hna Ha]], Hb as [[-> [= ->]]|[Hnb Hb]]; try done.
    + destruct (Hsole b pb Hnb Hb Hob) as [? ?]. destruct (Hown Hoa); congruence.
    + destruct (Hsole a pa Hna Ha Hoa) as [? ?]. destruct (Hown Hob); congruence.
    + by eapply Huniq.
  - change (st_word (set_thread tid pc' s1)) with (st_word s1). rewrite Hword. split.
    + intros [Hno Hor] a pa Ha. rewrite set_thread_lookup, Ht in Ha.
      destruct Ha as [[-> ->]|[Hna Ha]]; [done|].
      destruct (owns pa) eqn:E; [|done]. destruct (Hsole a pa Hna Ha E). destruct Hor; congruence.
    + intros Hall. split.
      * destruct pc' as [p|]; [|done]. apply (Hall tid). rewrite set_thread_lookup. by left.
      * destruct (owns pc) eqn:E; [by left|right]. apply Hidle. intros a pa Ha.
        destruct (decide (a = tid)) as [->|]; [congruence|]. apply (Hall a).
        rewrite set_thread_lookup, Ht. by right.
  - intros a pa Ha. rewrite set_thread_lookup, Ht in Ha. rewrite set_thread_pc_ok.
    destruct Ha as [[-> ->]|[Hna Ha]]; [done|]. destruct (Hpcs a pa Ha) as [Hok Hlk]. split.
    + apply (framed_pc_ok pc s); [done| |lia|done].
      destruct (owns pa) eqn:E; [left; by destruct (Hsole a pa Hna Ha E)|by right].
    + destruct pa; simpl in *; try (by apply Hlock); intros k Hk; by apply (Hlk k), Hlock.
  - intros a k Hk. change (st_lock (set_thread tid pc' s1)) with (st_lock s1) in Hk.
    destruct (decide (a = tid)) as [->|Hna].
    + destruct pc' as [p|]; [simpl; rewrite lookup_insert_eq; eauto|]. by apply Hpc' in Hk.
    + apply Hlock in Hk; [|done]. apply Hhold in Hk as [pa Hpa]. exists pa.
      apply set_thread_lookup. rewrite Ht. by right.
  - done.
  - done.
  - intros Hterm Href i Hi. change (st_settled s1 < i ≤ st_committed s1)%Z in Hi.
    specialize (Hc1 Hterm Href i Hi).
    assert (pending_opt pc' = Some i ∨ i ∈ st_skipped s1 ∨ sees_opt s1 pc' i ∨
      ∃ b pb, b ≠ tid ∧ st_threads s !! b = Some pb ∧ (pending pb = Some i ∨ owns pb = true ∧ sees s1 pb i))
      as Hgoal.
    { assert (∀ Q : Prop, (Q → (st_committed s < i)%Z ∨ pending pc = Some i ∨ owns pc = true ∧ sees s pc i) → Q →
        pending_opt pc' = Some i ∨ i ∈ st_skipped s1 ∨ sees_opt s1 pc' i ∨
        ∃ b pb, b ≠ tid ∧ st_threads s !! b = Some pb ∧ (pending pb = Some i ∨ owns pb = true ∧ sees s1 pb i))
        as Hself.
      { intros Q HQ q. destruct (Hc1 (HQ q)) as [?|[?|[?|(b & pb & ? & ? & ? & ?)]]]; auto.
        right; right; right. exists b, pb. auto. }
      destruct (decide (st_committed s < i)%Z) as [Hnew|Hold]; [by apply (Hself _ (λ q, or_introl q))|].
      pose proof (fr_settled _ _ _ Hfr).
      destruct (Hcov (fr_terminal _ _ _ Hfr Hterm) (fr_refused _ _ _ Hfr Href) i ltac:(lia))
        as [Hsk|(b & pb & Hpb & Hb)].
      - right; left. by apply (fr_skipped _ _ _ Hfr).
      - destruct (decide (b = tid)) as [->|Hne].
        + rewrite Htid in Hpb. injection Hpb as <-. exact (Hself _ (λ q, or_intror q) Hb).
        + right; right; right. exists b, pb.
          destruct Hb as [Hb|[Ho Hs]]; [exact (conj Hne (conj Hpb (or_introl Hb)))|].
          split_and!; [done..|]. right. split; [done|]. destruct (Hsole b pb Hne Hpb Ho) as [Hpcf _].
          destruct (fr_other _ _ _ Hfr Hpcf) as (_ & _ & _ & Hw & _).
          destruct pb; simpl in *; try done; destruct Hs as [?|?]; auto. }
    destruct Hgoal as [Hg|[Hg|[Hg|(b & pb & Hne & Hpb & Hg)]]].
    + right. destruct pc' as [p|]; [|done]. exists tid, p. split; [rewrite set_thread_lookup; by left|by left].
    + by left.
    + right. destruct pc' as [p|]; [|done]. exists tid, p. split; [rewrite set_thread_lookup; by left|by right].
    + right. exists b, pb. split; [rewrite set_thread_lookup, Ht; by right|done].
  - done.
  - done.
Qed.

Lemma owner_not_idle s tid pc :
  slot_inv s → st_threads s !! tid = Some pc → owns pc = true → st_word s ≠ IDLE.
Proof. intros Hi Ht Ho Hw. rewrite (si_idle _ Hi) in Hw. rewrite (Hw tid pc Ht) in Ho. done. Qed.

Definition mutating (pc : PC) : bool := match pc with MutLocked | MutCommitted _ => true | _ => false end.

Lemma lock_ok_free s tid pc :
  mutating pc = false → (∀ k, st_lock s ≠ Some (tid, k)) ↔ lock_ok s tid pc.
Proof. by destruct pc. Qed.

Lemma pending_not_owner pc i : pending pc = Some i → owns pc = false.
Proof. by destruct pc. Qed.

(** Steps outside the slot and the lock. *)
Lemma framed_refl pc s : framed pc s s.
Proof. by split. Qed.

Lemma inv_move s tid pc p :
  slot_inv s → st_threads s !! tid = Some pc → owns pc = false → owns p = false →
  mutating pc = false → mutating p = false → pending p = pending pc → pc_ok s p →
  slot_inv (set_thread tid (Some p) s).
Proof.
  intros Hi Ht Ho Hp Hm Hmp Hpend Hok. destruct (si_pcs _ Hi _ _ Ht) as [_ Hlk].
  apply (inv_thread tid pc (Some p) s s Hi Ht (framed_refl pc s)); simpl.
  - congruence.
  - rewrite Ho, Hp. split; [intros ?; split; [done|by right]|intros [_ [?|?]]; done].
  - done.
  - split; [done|]. by apply lock_ok_free, (lock_ok_free s tid pc).
  - apply Hi.
  - apply Hi.
  - intros _ _ i Hr [?|[?|[? _]]]; [lia|left; congruence|congruence].
  - apply Hi.
  - apply Hi.
Qed.

(** A kick returns; [s1] may record that it gave up. *)
Lemma inv_kick_ends s tid pc s1 :
  slot_inv s → st_threads s !! tid = Some pc → owns pc = false → mutating pc = false →
  framed pc s s1 → st_lock s1 = st_lock s → st_committed s1 = st_committed s →
  (st_word s1 = IDLE ↔ st_word s = IDLE) → (st_word s1 = IDLE → quiet_view s1) →
  st_alive s1 = st_alive s → st_panicked s1 = st_panicked s → st_terminal s1 = st_terminal s →
  (st_terminal s = false → st_refused s = false →
   ∀ i, pending pc = Some i → (st_settled s < i)%Z →
    i ∈ st_skipped s1 ∨
    ∃ b pb, b ≠ tid ∧ st_threads s !! b = Some pb ∧ owns pb = true ∧ sees s1 pb i) →
  slot_inv (set_thread tid None s1).
Proof.
  intros Hi Ht Ho Hm Hfr Hlock Hcm Hword Hq Ha Hpn Hte Hcov.
  destruct (si_pcs _ Hi _ _ Ht) as [_ Hlk].
  apply (inv_thread tid pc None s s1 Hi Ht Hfr); simpl.
  - done.
  - rewrite Hword, Ho. split; [by split; [|right]|by intros [_ [?|?]]].
  - intros. by rewrite Hlock.
  - rewrite Hlock. by apply (lock_ok_free s tid pc).
  - destruct (fr_other _ _ _ Hfr Ho) as (-> & _). rewrite Hcm. apply Hi.
  - done.
  - intros H1 H2 i Hr Hor. rewrite Hcm in Hr. destruct Hor as [?|[Hp|[? _]]]; [lia| |congruence].
    destruct (fr_other _ _ _ Hfr Ho) as (Hse & _). rewrite Hse in Hr.
    destruct (Hcov (fr_terminal _ _ _ Hfr H1) (fr_refused _ _ _ Hfr H2) i Hp) as [?|(b & pb & ?)];
      [lia|by auto|]. right; right; right. eauto.
  - rewrite Ha, Hte. apply Hi.
  - rewrite Hpn. apply Hi.
Qed.

(** What an owner keeps while it holds the slot. *)
Record holding (s s1 : State) : Prop := {
  ho_threads : st_threads s1 = st_threads s;
  ho_committed : st_committed s1 = st_committed s;
  ho_settled : (st_settled s ≤ st_settled s1 ≤ st_committed s)%Z;
  ho_lock : st_lock s1 = st_lock s;
  ho_skipped : st_skipped s1 = st_skipped s;
  ho_refused : st_refused s1 = false → st_refused s = false;
  ho_terminal : st_terminal s1 = false → st_terminal s = false;
  ho_alive : st_alive s1 = false → st_terminal s1 = true;
  ho_panicked : st_panicked s1 = st_panicked s;
}.

Lemma holding_framed pc s s1 : owns pc = true → holding s s1 → framed pc s s1.
Proof.
  intros Ho [H1 H2 H3 H4 H5 H6 H7 _ _].
  split; [done|by rewrite H2|lia|by rewrite H5|done|done|congruence].
Qed.

Lemma inv_holder s tid pc p s1 :
  slot_inv s → st_threads s !! tid = Some pc → owns pc = true → owns p = true →
  holding s s1 → st_word s1 ≠ IDLE → pc_ok s1 p →
  (∀ i, (st_settled s1 < i ≤ st_committed s)%Z → sees s pc i → sees s1 p i) →
  slot_inv (set_thread tid (Some p) s1).
Proof.
  intros Hi Ht Ho Hp Hh Hw Hok Hsees. destruct (si_pcs _ Hi _ _ Ht) as [_ Hlk].
  pose proof (holding_framed pc s s1 Ho Hh) as Hfr. destruct Hh as [H1 H2 H3 H4 H5 H6 H7 H8 H9].
  apply (inv_thread tid pc (Some p) s s1 Hi Ht Hfr); simpl.
  - by left.
  - split; [done|]. rewrite Hp. by intros [? _].
  - intros. by rewrite H4.
  - split; [done|]. apply lock_ok_free; [by destruct p|]. intros k. rewrite H4.
    apply (lock_ok_free s tid pc); [by destruct pc|done].
  - rewrite H2. pose proof (si_range _ Hi). lia.
  - done.
  - intros _ _ i Hr Hor. rewrite H2 in Hr. destruct Hor as [?|[Hpd|[_ Hs]]]; [lia| |].
    + apply pending_not_owner in Hpd. congruence.
    + right; right; left. split; [done|]. by apply Hsees.
  - done.
  - rewrite H9. apply Hi.
Qed.

(** An owner gives the slot back. *)
Lemma inv_release s tid pc pc' s1 :
  pc' = None ∨ pc' = Some Trailing → slot_inv s → st_threads s !! tid = Some pc → owns pc = true →
  holding s s1 → st_word s1 = IDLE → quiet_view s1 →
  (st_terminal s1 = false → st_refused s1 = false →
   ∀ i, (st_settled s1 < i ≤ st_committed s)%Z → sees s pc i → False) →
  slot_inv (set_thread tid pc' s1).
Proof.
  intros Hend Hi Ht Ho Hh Hw Hq Hcov. destruct (si_pcs _ Hi _ _ Ht) as [_ Hlk].
  pose proof (holding_framed pc s s1 Ho Hh) as Hfr. destruct Hh as [H1 H2 H3 H4 H5 H6 H7 H8 H9].
  assert (∀ k, st_lock s1 ≠ Some (tid, k)) as Hfree.
  { intros k. rewrite H4. apply (lock_ok_free s tid pc); [by destruct pc|done]. }
  apply (inv_thread tid pc pc' s s1 Hi Ht Hfr).
  - by left.
  - split; [|done]. intros _. split; [by destruct Hend as [-> | ->]|by left].
  - intros. by rewrite H4.
  - by destruct Hend as [-> | ->].
  - rewrite H2. pose proof (si_range _ Hi). lia.
  - done.
  - intros Hte Hre i Hr Hor. rewrite H2 in Hr. destruct Hor as [?|[Hpd|[_ Hs]]]; [lia| |].
    + apply pending_not_owner in Hpd. congruence.
    + destruct (Hcov Hte Hre i Hr Hs).
  - done.
  - rewrite H9. apply Hi.
Qed.

Lemma owner_exists s :
  slot_inv s → st_word s ≠ IDLE → ∃ a pa, st_threads s !! a = Some pa ∧ owns pa = true.
Proof.
  intros Hi Hw. destruct (decide (map_Forall (λ _ pa, owns pa = false) (st_threads s))) as [Hall|Hn].
  - destruct Hw. rewrite (si_idle _ Hi). intros a pa. apply Hall.
  - apply map_not_Forall in Hn as (a & pa & Ha & Ho); [|apply _].
    exists a, pa. split; [done|]. by destruct (owns pa).
Qed.

Lemma sees_active s pc i : st_word s = ACTIVE → sees s pc i.
Proof. intros Hw. destruct pc; simpl; auto. Qed.

Lemma holding_refl tid pc s :
  slot_inv s → st_threads s !! tid = Some pc → holding s s.
Proof. intros Hi _. pose proof (si_range _ Hi). split; try done; [lia|apply Hi]. Qed.

Lemma inv_claim s tid pc p :
  slot_inv s → st_threads s !! tid = Some pc → owns pc = false → mutating pc = false →
  owns p = true → st_word s = IDLE → pc_ok (set_word ACTIVE s) p →
  slot_inv (set_thread tid (Some p) (set_word ACTIVE s)).
Proof.
  intros Hi Ht Ho Hm Hp Hw Hok. destruct (si_pcs _ Hi _ _ Ht) as [_ Hlk].
  apply (inv_thread tid pc (Some p) s (set_word ACTIVE s) Hi Ht); simpl.
  - by split.
  - by right.
  - rewrite Hp. split; [done|by intros [? _]].
  - done.
  - split; [done|]. apply lock_ok_free; [by destruct p|]. by apply (lock_ok_free s tid pc).
  - apply Hi.
  - done.
  - intros _ _ i _ _. right; right; left. split; [done|by apply sees_active].
  - apply Hi.
  - apply Hi.
Qed.

Ltac prep Hi Ht :=
  pose proof (si_pcs _ Hi _ _ Ht) as [Hpc Hlk];
  pose proof (si_range _ Hi) as Hrange;
  pose proof (holding_refl _ _ _ Hi Ht) as Hhold.

(** A step of the holder that changes no field. *)
Ltac holder_move Hi Ht Hown :=
  eapply (inv_holder _ _ _ _ _ Hi Ht); [done|done|eassumption|exact Hown| |done].

Lemma kick_step_inv tid pc ch s pc' s1 :
  slot_inv s → st_threads s !! tid = Some pc → kick_step pc ch s = Some (pc', s1) →
  slot_inv (set_thread tid pc' s1).
Proof.
  intros Hi Ht Hs. prep Hi Ht. destruct pc; simpl in Hs; try done.
  - destruct (st_alive s) eqn:Ea; simplify_eq; [by eapply inv_move|].
    apply (inv_kick_ends _ _ _ _ Hi Ht); try done; [exact (si_quiet _ Hi)|].
    intros Hterm. rewrite (si_alive _ Hi Ea) in Hterm. done.
  - simplify_eq. by eapply inv_move.
  - destruct Hpc as [Hic Hc]. destruct (decide (c = st_settled s)) as [->|]; simplify_eq.
    + apply (inv_kick_ends _ _ _ _ Hi Ht); try done; [exact (si_quiet _ Hi)|].
      intros _ _ j Hj. simpl in Hj. subst i. simpl in Hic. lia.
    + eapply inv_move; try done. destruct i; simpl in *; [lia|done].
  - destruct (st_word s) eqn:Ew; simplify_eq.
    + destruct (ch_exec ch); simplify_eq; [by eapply inv_move|].
      destruct i as [i|].
      * apply (inv_kick_ends _ _ _ _ Hi Ht); try done; simpl.
        -- split; try done. simpl. set_solver.
        -- exact (si_quiet _ Hi).
        -- intros _ _ j [= ->] _. left. set_solver.
      * apply (inv_kick_ends _ _ _ _ Hi Ht); try done; exact (si_quiet _ Hi).
    + apply (inv_kick_ends _ _ _ _ Hi Ht); try done; [congruence|].
      intros _ _ j _ _. right. destruct (owner_exists _ Hi) as (b & pb & Hb & Ho); [congruence|].
      exists b, pb. split; [by intros ->; simplify_eq|]. split_and!; [done..|by apply sees_active].
    + by eapply inv_move.
  - destruct (decide (st_word s = RELEASING)) as [Ew|]; simplify_eq; [|by eapply inv_move].
    apply (inv_kick_ends _ _ _ _ Hi Ht); try done; simpl; [by rewrite Ew|].
    intros _ _ j _ _. right. destruct (owner_exists _ Hi) as (b & pb & Hb & Ho); [congruence|].
    exists b, pb. split; [by intros ->; simplify_eq|]. split_and!; [done..|by apply sees_active].
  - unfold try_claim in Hs. destruct (decide (st_word s = IDLE)) as [Ew|]; simplify_eq; [|by eapply inv_move].
    by apply (inv_claim _ tid (KickClaim i)).
  - pose proof (owner_not_idle _ _ _ Hi Ht eq_refl) as Hw. simplify_eq. holder_move Hi Ht Hw.
    simpl. unfold in_range. lia.
  - pose proof (owner_not_idle _ _ _ Hi Ht eq_refl) as Hw.
    destruct (st_cell s) as [t|] eqn:Ec; [|destruct (st_lock s) eqn:El]; simplify_eq.
    + by holder_move Hi Ht Hw.
    + eapply (inv_holder _ _ _ _ _ Hi Ht); try done. by destruct Hhold; split.
Qed.

Lemma exit_step_inv tid pc s pc' s1 :
  slot_inv s → st_threads s !! tid = Some pc → exit_step pc s = Some (pc', s1) →
  slot_inv (set_thread tid pc' s1).
Proof.
  intros Hi Ht Hs. prep Hi Ht. destruct pc; simpl in Hs; try done;
    pose proof (owner_not_idle _ _ _ Hi Ht eq_refl) as Hw.
  - simplify_eq. eapply (inv_holder _ _ _ _ _ Hi Ht); try done. by destruct Hhold; split.
  - destruct (st_lock s) eqn:El; simplify_eq. holder_move Hi Ht Hw. simpl. split; [done|].
    intros _. split; [done|]. unfold mid_mutation. by rewrite El.
  - destruct Hpc as [Hr Hv].
    destruct (decide (l = t)) as [->|]; [destruct (decide (st_committed s = r)) as [<-|]|]; simplify_eq.
    + eapply (inv_holder _ _ _ _ _ Hi Ht); try done. intros i Hir _. simpl. right. lia.
    + holder_move Hi Ht Hw. simpl. unfold in_range. lia.
    + by holder_move Hi Ht Hw.
  - simplify_eq. destruct m; (eapply (inv_holder _ _ _ _ _ Hi Ht); try done; by destruct Hhold; split).
  - simplify_eq. destruct Hpc as [[Hr1 Hr2] Hv]. eapply (inv_holder _ _ _ _ _ Hi Ht); try done.
    by destruct Hhold; split.
  - destruct Hpc as (Hr & Hv & Hse). destruct (st_word s) eqn:Ew; simplify_eq.
    + eapply (inv_holder _ _ _ _ _ Hi Ht); try done. by rewrite Ew.
    + apply (inv_release s tid (ExitCas m t (st_settled s))); try done.
      * destruct m; auto.
      * by destruct Hhold; split.
      * intros Hterm t' [= <-]. simpl. exact Hv.
      * intros _ _ i Hir [Hwi|Hle]; simpl in *; [congruence|lia].
  - simplify_eq. holder_move Hi Ht Hw. simpl. unfold in_range. lia.
Qed.

Lemma inv_abandon s tid pc s1 :
  slot_inv s → st_threads s !! tid = Some pc → owns pc = true → holding s s1 → st_word s1 = IDLE →
  st_terminal s1 = true → slot_inv (set_thread tid None s1).
Proof.
  intros Hi Ht Ho Hh Hw Hterm. apply (inv_release s tid pc); try done; [by left|..]; intros Hf; congruence.
Qed.

Lemma holding_abandon s : holding s s → holding s (abandon s).
Proof. by intros []; split. Qed.

Lemma holding_terminal s : holding s s → holding s (set_marks (st_alive s) true s).
Proof. by intros []; split. Qed.


Ltac give_back Hi Ht :=
  eapply (inv_abandon _ _ _ _ Hi Ht); try done;
  first [by apply holding_abandon | by apply (si_alive _ Hi)].

(** A holder that settled nothing gives the slot back. *)
Lemma inv_bare_release tid p s :
  slot_inv s → st_threads s !! tid = Some (Claimed p) → quiet_view s →
  slot_inv (set_thread tid None (bare_release s)).
Proof.
  intros Hi Ht Hq. apply (inv_release s tid (Claimed p)); try done; [by left| |].
  - destruct (holding_refl _ _ _ Hi Ht). split; try done. simpl. intros [? _]%orb_false_iff. done.
  - simpl. intros _ [_ Hc]%orb_false_iff i Hr _.
    unfold has_committed_recheck in Hc. apply negb_false_iff, bool_decide_eq_true in Hc. lia.
Qed.

(** The tail of a creation pass that does not steal the slot. *)
Lemma tail_step_inv tid pc ch s pc' s1 :
  slot_inv s → st_threads s !! tid = Some pc → owns pc = false →
  creation_step pc ch s = Some (pc', s1) → st_stolen s1 = false →
  slot_inv (set_thread tid pc' s1).
Proof.
  intros Hi Ht Ho Hs Hst. destruct pc as [| | | | | | | | | |p|[]| | | | | | | | | | | | | | | | |]; simpl in *; try done.
  - destruct (is_idle s); simplify_eq; [|by eapply inv_move].
    apply (inv_kick_ends s1 tid Trailing); try done. exact (si_quiet _ Hi).
  - simplify_eq. simpl in Hst. apply orb_false_iff in Hst as [Hst Hw].
    apply negb_false_iff, bool_decide_eq_true in Hw.
    apply (inv_kick_ends s tid TrailingAbandon); try done.
    + split; try done. intros _. split_and!; try done. simpl. congruence.
    + intros _. exact (si_quiet _ Hi Hw).
Qed.

Lemma passes_step_inv tid pc ch s pc' s1 :
  slot_inv s → st_threads s !! tid = Some pc → owns pc = true →
  committed_step pc s = Some (pc', s1) ∨ creation_step pc ch s = Some (pc', s1) ∨
  convergence_step pc s = Some (pc', s1) →
  slot_inv (set_thread tid pc' s1).
Proof.
  intros Hi Ht Ho Hs. prep Hi Ht.
  assert (in_range s (st_committed s)) as Hin by (unfold in_range; lia).
  destruct Hs as [Hs|[Hs|Hs]]; destruct pc as [| | | | | | | | | | |[]| | |[]|[]| | |[]| | | | | | | | | |];
    simpl in Hs; try done; pose proof (owner_not_idle _ _ _ Hi Ht eq_refl) as Hw.
  - simplify_eq. by holder_move Hi Ht Hw.
  - destruct Hpc as [_ Hpc]. destruct (st_lock s) eqn:El; simplify_eq. eapply (inv_holder _ _ _ _ _ Hi Ht); try done.
    by destruct Hhold; split.
  - simplify_eq. by holder_move Hi Ht Hw.
  - destruct (st_alive s) eqn:Ea; simpl in Hs; simplify_eq; [by holder_move Hi Ht Hw|].
    by give_back Hi Ht.
  - simplify_eq. by holder_move Hi Ht Hw.
  - destruct Hpc as [_ Hpc]. destruct (st_lock s) eqn:El; simplify_eq. by holder_move Hi Ht Hw.
  - destruct (has_missing t); [|destruct (ch_fail ch)]; simplify_eq;
      (eapply (inv_holder _ _ _ _ _ Hi Ht); try done; by destruct Hhold; split).
  - simplify_eq. by holder_move Hi Ht Hw.
  - destruct Hpc as [Hc Hr]. destruct (st_cell s) eqn:Ec; simplify_eq. by holder_move Hi Ht Hw.
  - simplify_eq. by holder_move Hi Ht Hw.
  - destruct (st_lock s) eqn:El; [done|]. destruct (decide (st_live s = t)); simplify_eq.
    + by holder_move Hi Ht Hw.
    + eapply (inv_holder _ _ _ _ _ Hi Ht); try done. by destruct Hhold; split.
Qed.

Lemma claims_step_inv tid pc ch s pc' s1 :
  slot_inv s → st_threads s !! tid = Some pc →
  claim_step pc s = Some (pc', s1) ∨ operation_step pc ch s = Some (pc', s1) ∨
  era_step pc ch s = Some (pc', s1) ∨ handoff_step pc s = Some (pc', s1) ∨ dispose_step pc s = Some (pc', s1) →
  slot_inv (set_thread tid pc' s1).
Proof.
  intros Hi Ht Hs. prep Hi Ht.
  destruct Hs as [Hs|[Hs|[Hs|[Hs|Hs]]]]; destruct pc as [| | | | | | | | | |p|[]| | | | | | | | | | | | | | | | |];
    simpl in Hs; try done.
  - unfold try_claim in Hs. destruct (decide (st_word s = IDLE)) as [Ew|]; simplify_eq.
    apply (inv_claim _ tid (Claiming p)); try done. destruct p; simpl; try done;
    pose proof (si_quiet _ Hi Ew) as Hq; intros Hterm t Hap; apply (Hq Hterm t Hap).
  - pose proof (owner_not_idle _ _ _ Hi Ht eq_refl) as Hw.
    destruct (st_alive s) eqn:Ea; [destruct (ch_change ch)|]; simpl in Hs; simplify_eq.
    + eapply (inv_holder _ _ _ _ _ Hi Ht); try done. by destruct Hhold; split.
    + by holder_move Hi Ht Hw.
    + by give_back Hi Ht.
  - pose proof (owner_not_idle _ _ _ Hi Ht eq_refl) as Hw. destruct (st_alive s) eqn:Ea; simpl in Hs.
    2: { simplify_eq. by give_back Hi Ht. }
    destruct (ch_fail ch); [|destruct (st_terminal s) eqn:Et]; simplify_eq.
    + by eapply inv_bare_release.
    + by give_back Hi Ht.
    + eapply (inv_holder _ _ _ _ _ Hi Ht); try done. by destruct Hhold; split.
  - destruct (st_alive s) eqn:Ea; simplify_eq; [by eapply inv_bare_release|].
    by give_back Hi Ht.
  - pose proof (owner_not_idle _ _ _ Hi Ht eq_refl) as Hw. destruct (st_terminal s) eqn:Et; simplify_eq.
    + by give_back Hi Ht.
    + eapply (inv_holder _ _ _ _ _ Hi Ht); try done. by apply holding_terminal.
  - pose proof (owner_not_idle _ _ _ Hi Ht eq_refl) as Hw. simplify_eq.
    eapply (inv_holder _ _ _ _ _ Hi Ht); try done. by destruct Hhold; split.
  - pose proof (owner_not_idle _ _ _ Hi Ht eq_refl) as Hw. simplify_eq.
    by give_back Hi Ht.
Qed.

Lemma mutation_step_inv tid pc ch s pc' s1 :
  slot_inv s → st_threads s !! tid = Some pc → mutation_step tid pc ch s = Some (pc', s1) →
  slot_inv (set_thread tid pc' s1).
Proof.
  intros Hi Ht Hs. prep Hi Ht. destruct pc; simpl in Hs; try done.
  - unfold commit_recheck in Hs. destruct (checked_succ (st_committed s)) as [c|] eqn:Ec; simplify_eq.
    apply checked_succ_Some in Ec as [_ ->]. simpl in Hlk.
    apply (inv_thread tid MutLocked _ s _ Hi Ht); simpl; try done.
    + split; simpl; try done; try lia. intros _. split_and!; try done. intros r v Hr _ Heq. simpl in Heq. lia.
    + split; [intros ?; split; [done|by right]|]. intros [_ [?|?]]; done.
    + intros b k Hb. rewrite Hlk. split; intros [=]; congruence.
    + lia.
    + intros Hw Hterm t Ha. pose proof (si_quiet _ Hi Hw Hterm t Ha). unfold fresh_view. simpl. lia.
    + intros _ _ i Hr [Hn|[?|[? _]]]; [left; f_equal; lia|done..].
    + apply Hi.
    + apply Hi.
  - simpl in Hlk. simplify_eq. apply (inv_thread tid (MutCommitted i) _ s _ Hi Ht); simpl; try done.
    + split; simpl; try done. intros _. split_and!; try done. intros r v Hr Hv Heq.
      destruct (Hv Heq) as [_ Hm]. unfold mid_mutation in Hm. by rewrite Hlk in Hm.
    + split; [intros ?; split; [done|by right]|]. intros [_ [?|?]]; done.
    + intros b k Hb. rewrite Hlk. split; [done|]. intros [=]; congruence.
    + intros Hw Hterm t Ha Heq. destruct (si_quiet _ Hi Hw Hterm t Ha Heq) as [_ Hm].
      unfold mid_mutation in Hm. by rewrite Hlk in Hm.
    + intros _ _ j Hr [Hn|[?|[? _]]]; [lia|by left|done].
    + apply Hi.
    + apply Hi.
Qed.

(** A new thread starts outside the slot; a mutation starts by taking the lock. *)
Lemma inv_new tid p k s :
  slot_inv s → st_threads s !! tid = None → owns p = false → (∀ s, pc_ok s p) →
  (k = st_lock s ∧ mutating p = false ∨ st_lock s = None ∧ k = Some (tid, false) ∧ p = MutLocked) →
  slot_inv (set_thread tid (Some p) (set_live (st_live s) k s)).
Proof.
  intros Hi Hn Ho Hok Hk. set (s1 := set_live (st_live s) k s).
  assert (framed p s s1) as Hfr.
  { split; try done. intros _. split_and!; try done. intros r v _ Hv Heq. destruct (Hv Heq) as [? Hm].
    split; [done|]. unfold mid_mutation in *. simpl. destruct Hk as [[-> _]|(_ & -> & _)]; done. }
  assert (∀ a pa, st_threads (set_thread tid (Some p) s1) !! a = Some pa →
    (a = tid ∧ pa = p) ∨ (a ≠ tid ∧ st_threads s !! a = Some pa)) as Hlook.
  { intros a pa Ha. apply set_thread_lookup in Ha. naive_solver. }
  assert (∀ a, is_Some (st_threads s !! a) → a ≠ tid) as Hne by (intros a Ha ->; rewrite Hn in Ha; by destruct Ha).
  split.
  - intros a b pa pb Ha Hb Hoa Hob. apply Hlook in Ha, Hb.
    destruct Ha as [[-> ->]|[_ Ha]], Hb as [[-> ->]|[_ Hb]]; try congruence. by eapply (si_unique _ Hi).
  - simpl. rewrite (si_idle _ Hi). split.
    + intros H a pa Ha. apply Hlook in Ha as [[-> ->]|[_ Ha]]; [done|by eapply H].
    + intros H a pa Ha. apply (H a). rewrite lookup_insert_ne; [done|]. intros ->. by apply (Hne a); [eauto|].
  - intros a pa Ha. apply Hlook in Ha as [[-> ->]|[Ha' Ha]].
    + split; [apply Hok|]. destruct Hk as [[-> Hm]|(Hl & -> & ->)]; [|done].
      apply lock_ok_free; [done|]. intros k' Hk'. simpl in Hk'.
      destruct (si_holder _ Hi _ _ Hk') as [? Hx]. congruence.
    + destruct (si_pcs _ Hi _ _ Ha) as [Hpa Hlk]. split.
      * apply set_thread_pc_ok. apply (framed_pc_ok p s); [done|by left|apply Hi|done].
      * destruct Hk as [[-> _]|(Hl & -> & _)]; [by destruct pa|].
        destruct pa; simpl in *; rewrite ?Hl in Hlk; try done; intros k' [= ? ?]; congruence.
  - intros a k' Hk'. simpl in *. destruct (decide (a = tid)) as [->|Ha]; [rewrite lookup_insert_eq; eauto|].
    rewrite lookup_insert_ne by done. destruct Hk as [[-> _]|(_ & -> & _)]; [by eapply (si_holder _ Hi)|congruence].
  - apply Hi.
  - intros Hw Hterm t Ha. apply Hfr; [done|apply Hi|]. by apply (si_quiet _ Hi Hw).
  - intros Hterm Href i Hr. destruct (si_covered _ Hi Hterm Href i Hr) as [?|(b & pb & Hb & Hor)]; [by left|].
    right. exists b, pb. split; [|by destruct pb].
    apply set_thread_lookup. right. split; [apply Hne; eauto|done].
  - apply Hi.
  - apply Hi.
Qed.

Lemma set_live_id s : set_live (st_live s) (st_lock s) s = s.
Proof. by destruct s. Qed.

Lemma inv_terminal s : slot_inv s → slot_inv (set_marks (st_alive s) true s).
Proof.
  intros Hi. split; try apply Hi; try done. intros a pa Ha. destruct (si_pcs _ Hi a pa Ha) as [Hp Hl].
  split; [|by destruct pa]. apply (framed_pc_ok MutLocked s); [|by left|apply Hi|done].
  by split.
Qed.

Lemma act_inv a s s' : slot_inv s → act a s = Some s' → st_stolen s' = false → slot_inv s'.
Proof.
  intros Hi Ha Hst. destruct a as [tid|tid p|tid| |tid ch]; simpl in Ha.
  - destruct (st_threads s !! tid) eqn:Ht, (st_lock s) eqn:Hl; simplify_eq. by apply inv_new; auto.
  - destruct (st_threads s !! tid) eqn:Ht; simplify_eq. rewrite <- (set_live_id s) at 1.
    by apply inv_new; auto.
  - destruct (st_threads s !! tid) eqn:Ht; simplify_eq. rewrite <- (set_live_id s) at 1.
    by apply inv_new; auto.
  - simplify_eq. by apply inv_terminal.
  - destruct (st_threads s !! tid) as [pc|] eqn:Ht; [|done].
    destruct (thread_step tid pc ch s) as [[pc' s1]|] eqn:Hs; [|done]. simplify_eq.
    destruct pc as [| | | | | | | | | |p|[]| | |[]|[]| | |[]| | | | | | | | | |]; simpl in Hs; try done;
      first [by apply (mutation_step_inv _ _ ch _ _ _ Hi Ht) | by apply (kick_step_inv _ _ ch _ _ _ Hi Ht)
            | by apply (claims_step_inv _ _ ch _ _ _ Hi Ht); auto | by apply (passes_step_inv _ _ ch _ _ _ Hi Ht eq_refl); auto
            | by eapply exit_step_inv | by apply (tail_step_inv _ _ ch _ _ _ Hi Ht eq_refl Hs)].
Qed.

Lemma slot_new_inv live : slot_inv (slot_new live).
Proof. split; simpl; try done. intros _ _ i. lia. Qed.

Lemma act_stolen a s s' : act a s = Some s' → st_stolen s' = false → st_stolen s = false.
Proof.
  intros Ha Hst. destruct (st_stolen s) eqn:E; [exfalso|done].
  assert (st_stolen s' = true); [|congruence]. clear Hst.
  destruct a as [tid|tid p|tid| |tid ch]; simpl in Ha; repeat case_match; simplify_eq; simpl; try done.
  all: match goal with H : thread_step _ ?pc _ _ = _ |- _ =>
         destruct pc as [| | | | | | | | | |p|[]| | |[]|[]| | |[]| | | | | | | | | |]; simpl in H;
         unfold commit_recheck, try_claim, skip_kick in H; repeat case_match; simplify_eq; simpl; by rewrite ?E
       end.
Qed.

Lemma reachable_inv s : slot_reachable s → st_stolen s = false → slot_inv s.
Proof.
  apply (reachable_invariant _ _ (λ s, st_stolen s = false → slot_inv s)).
  - intros s0 [live ->] _. apply slot_new_inv.
  - intros s0 s1 _ Hi [a Ha] Hst. eapply act_inv; [by eapply Hi, act_stolen|done..].
Qed.

Lemma run_schedule_reachable as_ s s' :
  slot_reachable s → run_schedule as_ s = Some s' → slot_reachable s'.
Proof.
  revert s. induction as_ as [|a as_ IH]; intros s Hr Hs; simpl in Hs; [by simplify_eq|].
  destruct (act a s) as [s1|] eqn:Ea; [|done]. eapply IH; [|exact Hs]. eapply reach_step; [done|by exists a].
Qed.

Lemma slot_new_reachable live : slot_reachable (slot_new live).
Proof. apply reach_init. by exists live. Qed.

(** ** What an idle slot owes *)

Lemma clean_equal s : has_committed_recheck s = false ↔ st_committed s = st_settled s.
Proof. unfold has_committed_recheck. by rewrite negb_false_iff, bool_decide_eq_true. Qed.

(** An idle slot with no recheck outstanding is settled on the current target. *)
Lemma idle_clean_live s t :
  slot_inv s → st_word s = IDLE → has_committed_recheck s = false → st_terminal s = false → st_applied s = Some t →
  st_live s = t ∧ mid_mutation s = false.
Proof. intros Hi Hw Hc%clean_equal Hte Ha. exact (si_quiet _ Hi Hw Hte t Ha Hc). Qed.

(** An idle slot has settled every revision whose kick is over. *)
Lemma idle_kicked_clean s :
  slot_inv s → st_word s = IDLE → st_terminal s = false → st_refused s = false →
  (∀ a pa, st_threads s !! a = Some pa → pending pa = None) → st_skipped s = ∅ → has_committed_recheck s = false.
Proof.
  intros Hi Hw Hte Href Hk Hsk. apply clean_equal. destruct (decide (st_committed s = st_settled s)) as [|Hne]; [done|]. exfalso.
  pose proof (si_range _ Hi). destruct (si_covered _ Hi Hte Href (st_committed s)) as [Hs|(a & pa & Ha & [Hp|[Ho _]])].
  - lia.
  - rewrite Hsk in Hs. set_solver.
  - by rewrite (Hk a pa Ha) in Hp.
  - by apply (owner_not_idle _ _ _ Hi Ha Ho).
Qed.
End slot.

(** * Properties *)

Section properties.
Context {T : Type} `{EqDecision T} (has_missing : T → bool).
Implicit Types (s : State (T := T)).

(** [C19] The convergence slot has one driver at a time: in every state that is reachable
    without the tail of a creation pass releasing a slot another thread had claimed, at
    most one thread is between a claim and a release, the word is IDLE exactly when none
    is, and neither the invalid-state panics of the exits nor the [expect] on a recorded
    target can be reached. *)
Theorem slot_single_holder s (Hr : slot_reachable has_missing s) (Hown : st_stolen s = false) :
  (∀ a b pa pb, st_threads s !! a = Some pa → st_threads s !! b = Some pb →
     owns pa = true → owns pb = true → a = b) ∧
  (is_idle s = true ↔ ∀ a pa, st_threads s !! a = Some pa → owns pa = false) ∧
  st_panicked s = false.
Proof.
  apply reachable_inv in Hr as Hi; [|done]. split_and!.
  - apply (si_unique _ Hi).
  - unfold is_idle. rewrite bool_decide_eq_true. apply (si_idle _ Hi).
  - apply (si_panicked _ Hi).
Qed.

(** Quiescence is sound: when the slot is idle and no committed recheck is
    outstanding, the target the last pass settled towards is still what the Service
    store prescribes, and no mutation of it is half done.  This is what
    [FiberHandle::ready] relies on. *)
Theorem quiescence_is_sound s t (Hr : slot_reachable has_missing s)
    (Hown : st_stolen s = false) (Hidle : is_idle s = true) (Hclean : has_committed_recheck s = false)
    (Hopen : st_terminal s = false) (Happlied : st_applied s = Some t) :
  st_live s = t ∧ mid_mutation s = false.
Proof.
  apply reachable_inv in Hr as Hi; [|done]. apply bool_decide_eq_true in Hidle. by apply idle_clean_live.
Qed.

End properties.

Definition sample_choice (live : nat) : Choice :=
  {| ch_live := live; ch_exec := true; ch_fail := false; ch_change := false |}.

(** [n] steps of one thread. *)
Definition steps (tid n live : nat) : list Action := replicate n (Run tid (sample_choice live)).

Definition sample_missing (t : nat) : bool := bool_decide (t = 0).

(** The creation pass of a Fiber whose dependency is missing, and a publication of it
    that is kicked and converged. *)
Definition sample_schedule : list (Action (T := nat)) :=
  [NewClaim 0 Creation] ++ steps 0 11 0 ++ [NewMutation 1] ++ steps 1 22 7.

Definition sample_final : option (State (T := nat)) :=
  run_schedule sample_missing sample_schedule (slot_new 0).

Lemma sample_reachable : ∀ s, sample_final = Some s → slot_reachable sample_missing s.
Proof. intros s. apply run_schedule_reachable, slot_new_reachable. Qed.

Example slot_single_holder_witness :
  match sample_final with
  | Some s => st_cell s = Some 7 ∧ st_panicked s = false
  | None => False
  end.
Proof.
  pose proof sample_reachable as Hr. destruct sample_final as [s|] eqn:E; [|vm_compute in E; discriminate E].
  pose proof (slot_single_holder sample_missing s (Hr s eq_refl)) as Hp.
  vm_compute in E. injection E as <-. split; [reflexivity|]. by apply Hp.
Defined.

Example quiescence_is_sound_witness :
  match sample_final with
  | Some s => st_live s = 7 ∧ mid_mutation s = false
  | None => False
  end.
Proof.
  pose proof sample_reachable as Hr. destruct sample_final as [s|] eqn:E; [|vm_compute in E; discriminate E].
  apply (quiescence_is_sound sample_missing s 7 (Hr s eq_refl));
    vm_compute in E; injection E as <-; reflexivity.
Defined.


(** A holder that settles nothing claims the idle slot, a publication of a dependency of
    the same Fiber commits and kicks, and the holder gives the slot back: an era swap
    refused because of a dependent it would wait on, or the handoff of the spawn. *)
Definition bare_schedule (p : Purpose) : list (Action (T := nat)) :=
  [NewClaim 0 Creation] ++ steps 0 11 0 ++ [NewClaim 1 p] ++ steps 1 1 0 ++
  [NewMutation 2] ++ steps 2 6 7.

Definition refusal : Choice := {| ch_live := 0; ch_exec := true; ch_fail := true; ch_change := false |}.

(** A schedule that can be run leads to a reachable state. *)
Lemma schedule_reaches as_ (P : State (T := nat) → bool) :
  match run_schedule sample_missing as_ (slot_new 0) with Some s => P s | None => false end = true →
  ∃ s, slot_reachable sample_missing s ∧ P s = true.
Proof.
  destruct (run_schedule sample_missing as_ (slot_new 0)) as [s|] eqn:E; [|done].
  intros HP. exists s. split; [|done]. eapply run_schedule_reachable; [apply slot_new_reachable|exact E].
Qed.

(** The Fiber is live, its slot idle with no thread left, and a recheck is outstanding
    that changed what [compute_target] reads. *)
Definition recheck_left (s : State (T := nat)) : bool :=
  is_idle s && st_alive s && negb (st_terminal s) && bool_decide (st_threads s = ∅) &&
  bool_decide (st_skipped s = ∅) && has_committed_recheck s && negb (bool_decide (st_applied s = Some (st_live s))).

(** The thread that claimed the slot as [p] is its holder, and its next step leaves a
    recheck behind. *)
Definition releases_over_recheck (p : Purpose) (s : State (T := nat)) : bool :=
  match st_threads s !! 1 with Some (Claimed q) => bool_decide (q = p) | _ => false end &&
  match act sample_missing (Run 1 refusal) s with Some s1 => recheck_left s1 | None => false end.

(** A refused era swap can lose a recheck: it gives the slot back with [abandon],
    without the exit recheck, so a revision that was committed and kicked while it held
    the slot of its live Fiber stays outstanding with no thread left to drive it. *)
Theorem refused_era_swap_loses_recheck :
  ∃ s : State (T := nat), slot_reachable sample_missing s ∧ releases_over_recheck EraSwap s = true.
Proof. apply (schedule_reaches (bare_schedule EraSwap)). by vm_compute. Qed.

(** The handoff of a spawn can lose a recheck the same way: it claims the slot to wait
    for a racing disposal and abandons it, and the [FiberHandle] it then returns is of a
    Fiber with an outstanding recheck. *)
Theorem handoff_loses_recheck :
  ∃ s : State (T := nat), slot_reachable sample_missing s ∧ releases_over_recheck Handoff s = true.
Proof. apply (schedule_reaches (bare_schedule Handoff)). by vm_compute. Qed.

(** The exit of a creation pass releases the slot; the kick of a publication claims it
    before the tail of the pass reads the word; the tail abandons it, and a restart
    claims it while the kicked convergence is still settling. *)
Definition tail_schedule : list (Action (T := nat)) :=
  [NewClaim 0 Creation] ++ steps 0 10 0 ++ [NewMutation 1] ++ steps 1 15 7 ++
  steps 0 2 0 ++ [NewClaim 2 Operation] ++ steps 2 4 7.

Definition settling (s : State (T := nat)) (tid : nat) : bool :=
  match st_threads s !! tid with Some (Settling _ _ _) => true | _ => false end.

(** [C29] The tail of the creation pass can release a slot it does not hold: it reads
    [is_idle] after the exit recheck has already published IDLE, so a slot a kick has
    claimed in between is abandoned, and two passes settle the same live Fiber at once. *)
Theorem creation_tail_steals_slot :
  ∃ s : State (T := nat), slot_reachable sample_missing s ∧
    st_alive s && settling s 1 && settling s 2 = true.
Proof. apply (schedule_reaches tail_schedule). by vm_compute. Qed.
