(* ===== verification/InertiaLive.v ===== *)
(** The slot of Inertia.v comes to rest: once nobody mutates the Service store, the holder
    leaves within a bounded number of its own steps, settled on the current target. *)
From S2P Require Import Prelude Inertia.

Section alone.
Context {T : Type} `{EqDecision T} (has_missing : T → bool) (tid : nat) (live0 : T).
Implicit Types (s : State (T := T)) (t l : T).

(** The holder alone: no input is committed, no body fails. *)
Definition calm_choice : Choice := {| ch_live := live0; ch_exec := true; ch_fail := false; ch_change := false |}.

(** [n] steps of the thread, or fewer, end it with the slot idle. *)
Definition leaves (n : nat) s : Prop :=
  ∃ k s', k ≤ n ∧ run_schedule has_missing (replicate k (Run tid calm_choice)) s = Some s' ∧
          st_threads s' !! tid = None ∧ st_word s' = IDLE ∧ st_lock s' = st_lock s ∧ st_stolen s' = st_stolen s ∧
          st_skipped s' = st_skipped s ∧ st_live s' = st_live s ∧
          (∀ a, a ≠ tid → st_threads s' !! a = st_threads s !! a).

(** The thread stands at [pc], in a state where nobody holds the ServiceStore lock. *)
Definition at_pc (pc : PC) s : Prop := st_threads s !! tid = Some pc ∧ st_lock s = None.

Lemma leaves_step n pc p s s1 :
  at_pc pc s → thread_step has_missing tid pc calm_choice s = Some (Some p, s1) →
  st_threads s1 = st_threads s → st_lock s1 = None → st_stolen s1 = st_stolen s → st_skipped s1 = st_skipped s → st_live s1 = st_live s →
  leaves n (set_thread tid (Some p) s1) → leaves (S n) s.
Proof.
  intros [Ht Hl] Hs Hth Hl1 Hst Hsk Hlv (k & s' & Hk & Hrun & H1 & H2 & H3 & H4 & H6 & H7 & H5). exists (S k), s'. split; [lia|].
  cbn [replicate run_schedule act]. rewrite Ht, Hs. split_and!; [exact Hrun|done|done|by rewrite H3, Hl|by rewrite H4|by rewrite H6|by rewrite H7|].
  intros a Ha. rewrite (H5 a Ha). cbn. by rewrite lookup_insert_ne, Hth.
Qed.

Lemma leaves_end n pc s s1 :
  at_pc pc s → thread_step has_missing tid pc calm_choice s = Some (None, s1) →
  st_threads s1 = st_threads s → st_lock s1 = None → st_stolen s1 = st_stolen s → st_skipped s1 = st_skipped s → st_live s1 = st_live s → st_word s1 = IDLE → leaves (S n) s.
Proof.
  intros [Ht Hl] Hs Hth Hl1 Hst Hsk Hlv Hw. exists 1, (set_thread tid None s1). split; [lia|].
  cbn [replicate run_schedule act]. rewrite Ht, Hs. split_and!; [done|by cbn; rewrite lookup_delete_eq|done|by cbn; rewrite Hl1, Hl|done..|].
  intros a Ha. cbn. by rewrite lookup_delete_ne, Hth.
Qed.

Lemma at_set p s : st_lock s = None → at_pc p (set_thread tid (Some p) s).
Proof. intros Hl. split; [by cbn; rewrite lookup_insert_eq|done]. Qed.

(** One step of the thread, which goes on at the position the code says. *)
Ltac goes_on H :=
  eapply (leaves_step _ _ _ _ _ H); [cbn; rewrite ?(proj2 H); reflexivity|done|apply H|done..|].

Lemma leaves_mono n m s : n ≤ m → leaves n s → leaves m s.
Proof. intros Hnm (k & s' & Hk & ?). exists k, s'. split; [lia|done]. Qed.

(** ** The exit *)

Lemma leave_trailing s : at_pc Trailing s → st_word s = IDLE → leaves 1 s.
Proof.
  intros H Hw. eapply (leaves_end 0 _ _ s H); [|done|apply H|done..]. cbn. unfold is_idle. by rewrite Hw.
Qed.

Lemma leave_cas m t r s : at_pc (ExitCas m t r) s → st_word s = RELEASING → leaves 2 s.
Proof.
  intros H Hw. destruct m.
  1,2: eapply (leaves_end 1 _ _ _ H); [cbn; rewrite Hw; reflexivity|done|apply H|done..].
  eapply (leaves_step _ _ _ _ _ H); [cbn; rewrite Hw; reflexivity|done|apply H|done..|]. apply leave_trailing; [apply at_set, H|done].
Qed.

(** From here on the slot is being released ([leave_cas]) unless the exit finds a drift. *)
Lemma leave_settle m t r s : at_pc (ExitSettle m t r) s → st_word s = RELEASING → leaves 3 s.
Proof. intros H Hw. goes_on H. apply (leave_cas m t r); [apply at_set, H|done]. Qed.

Lemma leave_clean_probe m t s : at_pc (ExitProbe m t (st_committed s)) s → st_word s = RELEASING → st_live s = t → leaves 5 s.
Proof.
  intros H Hw <-. goes_on H. eapply (leaves_step _ _ _ _ _ (at_set _ _ (proj2 H))); [cbn; rewrite !decide_True by done; reflexivity|done|apply H|done..|].
  apply (leave_settle m (st_live s) (st_committed s)); [apply at_set, H|done].
Qed.

Lemma leave_clean_store m t s : at_pc (ExitStore m t (st_committed s)) s → st_live s = t → leaves 6 s.
Proof. intros H Ht. goes_on H. apply (leave_clean_probe m t); [apply (at_set _ (set_word RELEASING s)), H|done..]. Qed.

(** ** The passes, towards the current target *)

Lemma leave_settling_live m t s :
  at_pc (Settling m t (st_committed s)) s → st_live s = t → leaves 8 s.
Proof.
  intros H Ht. destruct m.
  - goes_on H. eapply (leaves_step _ _ _ _ _ (at_set _ _ (proj2 H))); [cbn; rewrite (proj2 H), decide_True by done; reflexivity|done|apply H|done..|].
    apply (leave_clean_store Converging t); [apply at_set, H|done].
  - goes_on H. apply (leaves_mono 6); [lia|]. apply (leave_clean_store Committed t); [apply at_set, H|done].
  - destruct (has_missing t) eqn:Hm.
    + eapply (leaves_step 7 _ _ _ _ H); [cbn; rewrite Hm; reflexivity|done|apply H|done..|].
      apply (leaves_mono 6); [lia|]. apply (leave_clean_store Creating t); [by apply at_set, H|done].
    + eapply (leaves_step 7 _ _ _ _ H); [cbn; rewrite Hm; reflexivity|done|apply H|done..|].
      apply (leaves_mono 6); [lia|]. apply (leave_clean_store Creating t); [by apply at_set, H|done].
Qed.

Lemma leave_top_live s : at_pc Top s → st_cell s = Some (st_live s) → leaves 10 s.
Proof.
  intros H Hc. goes_on H. eapply (leaves_step _ _ _ _ _ (at_set _ _ (proj2 H))); [cbn; rewrite Hc; reflexivity|done|apply H|done..|].
  apply (leave_settling_live Converging (st_live s)); [apply at_set, H|done].
Qed.

Lemma leave_again m s : m ≠ Converging → at_pc (Again m) s → leaves 10 s.
Proof.
  intros Hm H. destruct m; [done|..].
  - goes_on H. eapply (leaves_step _ _ _ _ _ (at_set _ _ (proj2 H))); [cbn; rewrite (proj2 H); reflexivity|done|apply H|done..|].
    apply (leave_settling_live Committed (st_live s)); [by apply at_set, H|done].
  - goes_on H. eapply (leaves_step _ _ _ _ _ (at_set _ _ (proj2 H))); [cbn; rewrite (proj2 H); reflexivity|done|apply H|done..|].
    apply (leave_settling_live Creating (st_live s)); [by apply at_set, H|done].
Qed.

(** ** The exit may find a drift *)

Lemma leave_drift m l s : at_pc (ExitDrift m l) s → st_live s = l → leaves 11 s.
Proof.
  intros H Hl. goes_on H. destruct m.
  - apply leave_top_live; [by apply at_set, H|]. cbn. by rewrite Hl.
  - apply (leave_again Committed); [done|by apply at_set, H].
  - apply (leave_again Creating); [done|by apply at_set, H].
Qed.

Lemma leave_observe m t r s : at_pc (ExitObserve m t r (st_live s)) s → st_word s = RELEASING → leaves 12 s.
Proof.
  intros H Hw. destruct (decide (st_live s = t)) as [Ht|Ht].
  - destruct (decide (st_committed s = r)) as [Hr|Hr].
    + eapply (leaves_step 11 _ _ _ _ H); [cbn; rewrite !decide_True by done; reflexivity|done|apply H|done..|].
      apply (leaves_mono 3); [lia|]. apply (leave_settle m t r); [apply at_set, H|done].
    + eapply (leaves_step 11 _ _ _ _ H); [cbn; rewrite decide_True, decide_False by done; reflexivity|done|apply H|done..|].
      apply (leaves_mono 6); [lia|]. apply (leave_clean_store m t); [apply at_set, H|done].
  - eapply (leaves_step 11 _ _ _ _ H); [cbn; rewrite decide_False by done; reflexivity|done|apply H|done..|].
    apply (leave_drift m (st_live s)); [apply at_set, H|done].
Qed.

Lemma leave_probe m t r s : at_pc (ExitProbe m t r) s → st_word s = RELEASING → leaves 13 s.
Proof. intros H Hw. goes_on H. apply (leave_observe m t r); [apply (at_set _ s), H|done]. Qed.

Lemma leave_store m t r s : at_pc (ExitStore m t r) s → leaves 14 s.
Proof. intros H. goes_on H. apply (leave_probe m t r); [by apply at_set, H|done]. Qed.

(** ** From any position *)

Lemma leave_cas_held m t r s : at_pc (ExitCas m t r) s → st_word s ≠ IDLE → leaves 16 s.
Proof.
  intros H Hw. destruct (st_word s) eqn:Ew; [done| |by eapply leaves_mono, leave_cas; [lia|done..]].
  eapply (leaves_step _ _ _ _ _ H); [cbn; rewrite Ew; reflexivity|done|apply H|done..|].
  eapply (leaves_step _ _ _ _ _ (at_set _ _ (proj2 H))); [reflexivity|done|apply H|done..|].
  eapply (leave_store m t); apply at_set, H.
Qed.

Lemma leave_checking t r s : at_pc (Checking t r) s → leaves 15 s.
Proof.
  intros H. destruct (decide (st_live s = t)) as [Ht|Ht].
  - eapply (leaves_step 14 _ _ _ _ H); [cbn; rewrite (proj2 H), decide_True by done; reflexivity|done|apply H|done..|].
    eapply (leave_store Converging t); apply at_set, H.
  - eapply (leaves_step 14 _ _ _ _ H); [cbn; rewrite (proj2 H), decide_False by done; reflexivity|done|apply H|done..|].
    apply (leaves_mono 10); [lia|]. apply leave_top_live; [by apply at_set, H|done].
Qed.

Lemma leave_settling m t r s : at_pc (Settling m t r) s → leaves 16 s.
Proof.
  intros H. destruct m.
  - goes_on H. apply (leave_checking t r), at_set, H.
  - goes_on H. apply (leaves_mono 14); [lia|]. apply (leave_store Committed t r), at_set, H.
  - destruct (has_missing t) eqn:Hm; (eapply (leaves_step 15 _ _ _ _ H); [cbn; rewrite Hm; reflexivity|done|apply H|done..|]);
      (apply (leaves_mono 14); [lia|]); apply (leave_store Creating t r); by apply at_set, H.
Qed.

Lemma leave_top t s : at_pc Top s → st_cell s = Some t → leaves 18 s.
Proof.
  intros H Hc. goes_on H. eapply (leaves_step _ _ _ _ _ (at_set _ _ (proj2 H))); [cbn; rewrite Hc; reflexivity|done|apply H|done..|].
  apply (leave_settling Converging t (st_committed s)), at_set, H.
Qed.

Lemma leave_revised m r s : m ≠ Converging → at_pc (Revised m r) s → leaves 17 s.
Proof.
  intros Hm H. destruct m; [done|..]; goes_on H.
  - apply (leave_settling Committed (st_live s) r). by apply at_set, H.
  - apply (leave_settling Creating (st_live s) r). by apply at_set, H.
Qed.

Lemma leave_kick r s : at_pc (KickRevised r) s → leaves 15 s.
Proof.
  intros H. destruct (st_cell s) as [t|] eqn:Hc.
  - eapply (leaves_step _ _ _ _ _ H); [cbn; rewrite Hc; reflexivity|done|apply H|done..|]. apply (leave_store Converging t r), at_set, H.
  - eapply (leaves_step _ _ _ _ _ H); [cbn; rewrite Hc, (proj2 H); reflexivity|done|apply H|done..|].
    apply (leaves_mono 10); [lia|]. apply leave_top_live; [by apply at_set, H|done].
Qed.

Lemma leave_drift_old m l s : at_pc (ExitDrift m l) s → leaves 19 s.
Proof.
  intros H. goes_on H. destruct m.
  - apply (leave_top l); [by apply at_set, H|done].
  - apply (leaves_mono 10); [lia|]. apply (leave_again Committed); [done|by apply at_set, H].
  - apply (leaves_mono 10); [lia|]. apply (leave_again Creating); [done|by apply at_set, H].
Qed.

Lemma leave_settle_held m t r s : at_pc (ExitSettle m t r) s → st_word s ≠ IDLE → leaves 17 s.
Proof. intros H Hw. goes_on H. apply (leave_cas_held m t r); [apply at_set, H|done]. Qed.

Lemma leave_observe_held m t r l s : at_pc (ExitObserve m t r l) s → st_word s ≠ IDLE → leaves 20 s.
Proof.
  intros H Hw. destruct (decide (l = t)) as [Ht|Ht]; [destruct (decide (st_committed s = r)) as [Hr|Hr]|].
  - eapply (leaves_step 19 _ _ _ _ H); [cbn; rewrite !decide_True by done; reflexivity|done|apply H|done..|].
    apply (leaves_mono 17); [lia|]. apply (leave_settle_held m t r); [apply at_set, H|done].
  - eapply (leaves_step 19 _ _ _ _ H); [cbn; rewrite decide_True, decide_False by done; reflexivity|done|apply H|done..|].
    apply (leaves_mono 14); [lia|]. apply (leave_store m t (st_committed s)), at_set, H.
  - eapply (leaves_step 19 _ _ _ _ H); [cbn; rewrite decide_False by done; reflexivity|done|apply H|done..|].
    apply (leave_drift_old m l), at_set, H.
Qed.

(** ** Claims *)

Lemma leave_finishing s : at_pc Finishing s → leaves 1 s.
Proof. intros H. by eapply (leaves_end 0 _ _ _ H); [reflexivity|done|apply H|..]. Qed.

Lemma leave_disposing s : at_pc Disposing s → leaves 2 s.
Proof. intros H. goes_on H. apply leave_finishing. by apply at_set, H. Qed.

Lemma leave_claimed p s : at_pc (Claimed p) s → leaves 11 s.
Proof.
  intros H. destruct p; destruct (Inertia.st_alive s) eqn:Ha; destruct (st_terminal s) eqn:Ht.
  all: try (by eapply (leaves_end 10 _ _ _ H); [cbn; rewrite ?Ha, ?Ht; reflexivity|done|apply H|..]).
  all: eapply (leaves_step 10 _ _ _ _ H); [cbn; rewrite ?Ha, ?Ht; reflexivity|done|apply H|done..|].
  all: first [ apply (leave_again Committed); [done|by apply at_set, H] | apply (leave_again Creating); [done|by apply at_set, H]
             | apply (leaves_mono 2); [lia|]; apply leave_disposing; by apply at_set, H ].
Qed.

(** Whatever the holder is about to do, it leaves. *)
Lemma holder_leaves_from pc s : slot_inv s → at_pc pc s → owns pc = true → leaves 21 s.
Proof.
  intros Hi H Ho. pose proof (owner_not_idle _ _ _ Hi (proj1 H) Ho) as Hw. destruct (si_pcs _ Hi _ _ (proj1 H)) as [Hpc _].
  destruct pc as [| | | | | | | | |r|p|p| | |m|m r| |r|m t r|t r|m t r|m t r|m t r l|m l|m t r|m t r|m t| |]; try done.
  - eapply (leaves_step 20 _ _ _ _ H); [reflexivity|done|apply H|done..|]. apply (leaves_mono 15); [lia|]. apply (leave_kick (st_committed s)), at_set, H.
  - apply (leaves_mono 15); [lia|]. by apply (leave_kick r).
  - apply (leaves_mono 11); [lia|]. by apply (leave_claimed p).
  - apply (leaves_mono 2); [lia|]. by apply leave_disposing.
  - apply (leaves_mono 1); [lia|]. by apply leave_finishing.
  - apply (leaves_mono 10); [lia|]. by apply (leave_again m).
  - apply (leaves_mono 17); [lia|]. apply (leave_revised m r); [apply Hpc|done].
  - cbn in Hpc. destruct (st_cell s) as [t|] eqn:Hc; [|done]. apply (leaves_mono 18); [lia|]. by apply (leave_top t).
  - destruct Hpc as [Hc _]. destruct (st_cell s) as [t|] eqn:E; [|done].
    eapply (leaves_step 20 _ _ _ _ H); [cbn; rewrite E; reflexivity|done|apply H|done..|].
    apply (leaves_mono 16); [lia|]. apply (leave_settling Converging t r), at_set, H.
  - apply (leaves_mono 16); [lia|]. by apply (leave_settling m t r).
  - apply (leaves_mono 15); [lia|]. by apply (leave_checking t r).
  - apply (leaves_mono 14); [lia|]. by apply (leave_store m t r).
  - eapply (leaves_step 20 _ _ _ _ H); [cbn; rewrite (proj2 H); reflexivity|done|apply H|done..|].
    apply (leave_observe_held m t r (st_live s)); [apply at_set, H|done].
  - apply (leaves_mono 20); [lia|]. by apply (leave_observe_held m t r l).
  - apply (leaves_mono 19); [lia|]. by apply (leave_drift_old m l).
  - apply (leaves_mono 17); [lia|]. by apply (leave_settle_held m t r).
  - apply (leaves_mono 16); [lia|]. by apply (leave_cas_held m t r).
  - eapply (leaves_step 20 _ _ _ _ H); [reflexivity|done|apply H|done..|].
    apply (leaves_mono 14); [lia|]. apply (leave_store m t (st_committed s)), at_set, H.
Qed.
End alone.


(** A publication has committed and its kick has just won the slot of a Pending Fiber. *)
Definition kicked : option (State (T := nat)) :=
  run_schedule sample_missing ([NewClaim 0 Creation] ++ steps 0 11 0 ++ [NewMutation 1] ++ steps 1 8 7) (slot_new 0).

