(* ===== verification/Plugin.v ===== *)
(** Plugin declarations and seals (crates/cordis-core/src/plugin.rs), and the spawn
    record of a Fiber (crates/cordis-core/src/fiber/spawn_state.rs).

    Plugin behaviours, Plugin inputs and configuration values are user values: a
    behaviour and an input payload are opaque handles.  A seal ([Arc<dyn SealedPlugin>])
    is an address in a heap of cells, because an update and an era replacement mutate the
    cell a running Fiber shares. *)
From S2P Require Import Prelude Axes BTree.
From Stdlib Require Import Structures.OrderedTypeEx.

(** [Box<dyn Any>] and [Arc<dyn Any>]: the erased type and an opaque payload. *)
Record AnyValue := { av_type : TypeId; av_payload : nat }.

#[export] Instance AnyValue_eq_dec : EqDecision AnyValue.
Proof. solve_decision. Defined.

(** * Dependency declarations *)

(** Strings are ordered by their bytes. *)
Definition string_ltb (a b : string) : bool := match String.compare a b with Lt => true | _ => false end.

Lemma string_ltb_lt a b : string_ltb a b = true ↔ String_as_OT.lt a b.
Proof. rewrite <- String_as_OT.cmp_lt. unfold string_ltb, String_as_OT.cmp. by destruct (String.compare a b). Qed.

#[export, program] Instance string_key_order : KeyOrder string := {| klt := string_ltb |}.
Next Obligation.
  intros a. destruct (string_ltb a a) eqn:H; [|done]. apply string_ltb_lt, String_as_OT.lt_not_eq in H. by destruct H.
Qed.
Next Obligation. intros a b c. rewrite !string_ltb_lt. apply String_as_OT.lt_trans. Qed.
Next Obligation.
  intros a b Hne. unfold string_ltb. pose proof (String_as_OT.cmp_antisym a b) as Ha.
  pose proof (proj1 (String_as_OT.cmp_eq a b)) as He. unfold String_as_OT.cmp in *.
  destruct (String.compare a b); [tauto|done|]. by destruct (String.compare b a).
Qed.

(* @src crates/cordis-core/src/plugin.rs 42-46 InjectEntry *)
Record InjectEntry := { ie_name : string; ie_configured : option ConfiguredLayer }.

(* @src crates/cordis-core/src/plugin.rs 53-57 InjectSpec *)
Definition InjectSpec := list (string * InjectEntry).

(* @src crates/cordis-core/src/plugin.rs 73-75 InjectSpec::none *)
Definition inject_none : InjectSpec := [].

(* @src crates/cordis-core/src/plugin.rs 78-88 InjectSpec::require *)
Definition require (spec : InjectSpec) (name : string) : InjectSpec :=
  bt_insert spec name {| ie_name := name; ie_configured := None |}.

(** [service] is the configurable Service [S], [layer] its prepared layer. *)
(* @src crates/cordis-core/src/plugin.rs 91-101 InjectSpec::require_configured *)
Definition require_configured (spec : InjectSpec) (name : string) (service : TypeId) (layer : nat) : InjectSpec :=
  bt_insert spec name
    {| ie_name := name; ie_configured := Some {| cl_service_type := service; cl_value := layer |} |}.

(** [BTreeMap::extend]. *)
(* @src crates/cordis-core/src/plugin.rs 103-106 InjectSpec::overlay *)
Definition overlay (spec over : InjectSpec) : InjectSpec :=
  fold_left (λ spec row, bt_insert spec row.1 row.2) over spec.

(* @src crates/cordis-core/src/plugin.rs 108-110 InjectSpec::entries *)
Definition entries (spec : InjectSpec) : list InjectEntry := spec.*2.

(** * Failures of an apply *)

(* @src crates/cordis-core/src/fiber/spawn.rs 73-84 PluginFailureKind *)
Inductive PluginFailureKind := ApplyReturnedError | ApplyPanic.

(* @src crates/cordis-core/src/fiber/spawn.rs 86-98 PluginFailure *)
Record PluginFailure := { pf_kind : PluginFailureKind; pf_diagnostic : string }.

(* @src crates/cordis-core/src/fiber/spawn.rs 100-109 PluginFailure::returned *)
Definition pf_returned (diagnostic : string) : PluginFailure :=
  {| pf_kind := ApplyReturnedError; pf_diagnostic := diagnostic |}.

(* @src crates/cordis-core/src/fiber/spawn.rs 111-118 PluginFailure::panicked *)
Definition pf_panicked (payload : string) : PluginFailure :=
  {| pf_kind := ApplyPanic; pf_diagnostic := payload |}.

(* @src crates/cordis-core/src/fiber/spawn.rs 132-141 PluginFailure::fmt *)
Definition pf_display (f : PluginFailure) : string :=
  match pf_kind f with
  | ApplyReturnedError => String.append "returned an error: " (pf_diagnostic f)
  | ApplyPanic => String.append "panicked: " (pf_diagnostic f)
  end.

(** * Seals *)

(** [tp_state] is the behaviour with its current input; it is absent while an apply
    leases it, and for ever once the behaviour moved to a successor. *)
(* @src crates/cordis-core/src/plugin.rs 220-222 TypedPlugin *)
Record TypedPlugin := { tp_contract : TypeId; tp_input_type : TypeId; tp_state : option (nat * nat) }.

(* @src crates/cordis-core/src/plugin.rs 366-370 PreparedChange *)
Record PreparedChange := { pc_contract : TypeId; pc_input : AnyValue }.

(** [input_type] is the associated type [Plugin::Input] of a contract. *)
(* @src crates/cordis-core/src/plugin.rs 374-379 PreparedChange::from_input *)
Definition change_from_input (input_type : TypeId → TypeId) (contract : TypeId) (input : nat) : PreparedChange :=
  {| pc_contract := contract; pc_input := {| av_type := input_type contract; av_payload := input |} |}.

Definition set_state_cell (st : option (nat * nat)) (p : TypedPlugin) : TypedPlugin :=
  {| tp_contract := tp_contract p; tp_input_type := tp_input_type p; tp_state := st |}.

(** The start of an apply takes the state; [None] is the [expect] on a leased or moved
    one.  The end of the lease, by return, panic or cancellation, puts it back. *)
Definition take_lease (p : TypedPlugin) : option ((nat * nat) * TypedPlugin) :=
  match tp_state p with Some st => Some (st, set_state_cell None p) | None => None end.

(* @src crates/cordis-core/src/plugin.rs 229-239 StateLease::drop *)
Definition drop_lease (st : nat * nat) (p : TypedPlugin) : TypedPlugin := set_state_cell (Some st) p.

(** How the user's [apply] ends; a panic unwinds through the lease. *)
Inductive ApplyEnding := ApplyDone | ApplyErr (diagnostic : string) | ApplyUnwound (payload : string).

(** The outcome [catch_contained] makes of the attempt: the inner [Err] is the
    normalized failure, the outer one the rendered panic. *)
(* @src crates/cordis-core/src/plugin.rs 242-268 TypedPlugin::apply_boxed *)
Definition apply_boxed (p : TypedPlugin) (ending : ApplyEnding)
    : option (result (result unit PluginFailure) string * TypedPlugin) :=
  match take_lease p with
  | None => None
  | Some (st, p) =>
      Some (match ending with
            | ApplyDone => Ok (Ok tt)
            | ApplyErr d => Ok (Err (pf_returned d))
            | ApplyUnwound payload => Err payload
            end, drop_lease st p)
  end.

(** The superseded input, or the change handed back. *)
(* @src crates/cordis-core/src/plugin.rs 270-299 TypedPlugin::swap_input *)
Definition swap_input (p : TypedPlugin) (change : PreparedChange) : result AnyValue PreparedChange * TypedPlugin :=
  if negb (bool_decide (pc_contract change = tp_contract p)) then (Err change, p)
  else if negb (bool_decide (av_type (pc_input change) = tp_input_type p)) then (Err change, p)
  else
    match tp_state p with
    | Some (behaviour, current) =>
        (Ok {| av_type := tp_input_type p; av_payload := current |},
         set_state_cell (Some (behaviour, av_payload (pc_input change))) p)
    | None => (Err change, p)
    end.

(** The successor seal, and the source. *)
(* @src crates/cordis-core/src/plugin.rs 301-323 TypedPlugin::into_successor *)
Definition into_successor (p : TypedPlugin) (change : PreparedChange) : result TypedPlugin PreparedChange * TypedPlugin :=
  if negb (bool_decide (pc_contract change = tp_contract p)) then (Err change, p)
  else if negb (bool_decide (av_type (pc_input change) = tp_input_type p)) then (Err change, p)
  else
    match tp_state p with
    | Some (behaviour, _) =>
        (Ok {| tp_contract := tp_contract p; tp_input_type := tp_input_type p;
               tp_state := Some (behaviour, av_payload (pc_input change)) |}, set_state_cell None p)
    | None => (Err change, set_state_cell None p)
    end.

(** [pp_plugin] is the seal, not yet shared. *)
(* @src crates/cordis-core/src/plugin.rs 331-337 PreparedPlugin *)
Record PreparedPlugin :=
  { pp_plugin : TypedPlugin; pp_name : string; pp_inject : InjectSpec; pp_contract : TypeId }.

(** A user implementation of [Plugin]: what its declaration methods return. *)
(* @src crates/cordis-core/src/plugin.rs 113-135 Plugin *)
Record Plugin := { pl_contract : TypeId; pl_behaviour : nat; pl_name : string; pl_inject : InjectSpec }.

(* @src crates/cordis-core/src/plugin.rs 341-352 PreparedPlugin::from_input *)
Definition plugin_from_input (input_type : TypeId → TypeId) (p : Plugin) (input : nat) : PreparedPlugin :=
  {| pp_plugin := {| tp_contract := pl_contract p; tp_input_type := input_type (pl_contract p);
                     tp_state := Some (pl_behaviour p, input) |};
     pp_name := pl_name p; pp_inject := pl_inject p; pp_contract := pl_contract p |}.

(* @src crates/cordis-core/src/plugin.rs 355-358 PreparedPlugin::with_inject_overlay *)
Definition with_inject_overlay (p : PreparedPlugin) (over : InjectSpec) : PreparedPlugin :=
  {| pp_plugin := pp_plugin p; pp_name := pp_name p; pp_inject := overlay (pp_inject p) over;
     pp_contract := pp_contract p |}.

(** * The spawn record *)

(* @src crates/cordis-core/src/registry.rs 16-19 PluginKey *)
Inductive PluginKey := Typed (contract : TypeId) | Anonymous (n : Z).

#[export] Instance PluginKey_eq_dec : EqDecision PluginKey.
Proof. solve_decision. Defined.
#[export] Instance PluginKey_countable : Countable PluginKey.
Proof.
  refine (inj_countable' (λ k, match k with Typed t => inl t | Anonymous n => inr n end)
            (λ s, match s with inl t => Typed t | inr n => Anonymous n end) _).
  by intros [].
Defined.

(** [st_plugin] is the address of the seal, [st_effective_input] the identity of the
    committed input occurrence ([Arc<()>]). *)
(* @src crates/cordis-core/src/fiber/spawn_state.rs 49-57 Stored *)
Record Stored := {
  st_plugin : Addr;
  st_name : string;
  st_inject : InjectSpec;
  st_scope : Context;
  st_plugin_key : PluginKey;
  st_spawning_ctx : Context;
  st_effective_input : Addr;
}.

(** [Option<Stored>] behind its mutex. *)
(* @src crates/cordis-core/src/fiber/spawn_state.rs 80-82 SpawnState *)
Definition SpawnState := option Stored.

(** A second installation is refused and leaves the record alone. *)
(* @src crates/cordis-core/src/fiber/spawn_state.rs 94-128 SpawnState::install *)
Definition spawn_install (s : SpawnState) (incoming : Stored) : result unit unit * SpawnState :=
  match s with Some _ => (Err tt, s) | None => (Ok tt, Some incoming) end.

(* @src crates/cordis-core/src/fiber/spawn_state.rs 132-138 SpawnState::contract *)
Definition spawn_contract (s : SpawnState) : option TypeId :=
  match s with
  | Some st => match st_plugin_key st with Typed contract => Some contract | Anonymous _ => None end
  | None => None
  end.

(** [seals] is the heap of seals, [fresh] the identity of the new input occurrence. *)
(* @src crates/cordis-core/src/fiber/spawn_state.rs 141-159 SpawnState::commit_change *)
Definition commit_change (seals : gmap Addr TypedPlugin) (s : SpawnState) (change : PreparedChange) (fresh : Addr)
    : result AnyValue unit * gmap Addr TypedPlugin * SpawnState :=
  match s with
  | None => (Err tt, seals, s)
  | Some st =>
      match seals !! st_plugin st with
      | None => (Err tt, seals, s)
      | Some p =>
          match swap_input p change with
          | (Err _, p) => (Err tt, <[ st_plugin st := p ]> seals, s)
          | (Ok superseded, p) =>
              (Ok superseded, <[ st_plugin st := p ]> seals,
               Some {| st_plugin := st_plugin st; st_name := st_name st; st_inject := st_inject st;
                       st_scope := st_scope st; st_plugin_key := st_plugin_key st;
                       st_spawning_ctx := st_spawning_ctx st; st_effective_input := fresh |})
          end
      end
  end.

(* @src crates/cordis-core/src/fiber/spawn_state.rs 169-178 SpawnState::required_context_for *)
Definition required_context_for (s : SpawnState) (fiber : Addr) : result Context unit :=
  match s with Some st => Ok (with_fiber (st_scope st) fiber) | None => Err tt end.

(* @src crates/cordis-core/src/fiber/spawn_state.rs 162-165 SpawnState::context_for *)
Definition context_for (s : SpawnState) (fiber : Addr) : option Context :=
  match required_context_for s fiber with Ok ctx => Some ctx | Err _ => None end.

(* @src crates/cordis-core/src/fiber/spawn_state.rs 187-193 SpawnState::required_root *)
Definition required_root (s : SpawnState) : result Addr unit :=
  match s with Some st => Ok (ctx_root (st_scope st)) | None => Err tt end.

(* @src crates/cordis-core/src/fiber/spawn_state.rs 182-184 SpawnState::root *)
Definition spawn_root (s : SpawnState) : option Addr :=
  match required_root s with Ok r => Some r | Err _ => None end.

(* @src crates/cordis-core/src/fiber/spawn_state.rs 197-205 SpawnState::effective_input *)
Definition effective_input (s : SpawnState) : result Addr unit :=
  match s with Some st => Ok (st_effective_input st) | None => Err tt end.

(** The seal and the scope of one apply. *)
(* @src crates/cordis-core/src/fiber/spawn_state.rs 209-218 SpawnState::apply_snapshot *)
Definition apply_snapshot (s : SpawnState) : result (Addr * Context) unit :=
  match s with Some st => Ok (st_plugin st, st_scope st) | None => Err tt end.

(* @src crates/cordis-core/src/fiber/spawn_state.rs 66-73 EraRecipe *)
Record EraRecipe := {
  era_plugin : Addr; era_name : string; era_inject : InjectSpec; era_plugin_key : PluginKey;
  era_spawning_ctx : Context; era_root : Addr;
}.

(* @src crates/cordis-core/src/fiber/spawn_state.rs 221-234 SpawnState::era_recipe *)
Definition era_recipe (s : SpawnState) : result EraRecipe unit :=
  match s with
  | Some st => Ok {| era_plugin := st_plugin st; era_name := st_name st; era_inject := st_inject st;
                     era_plugin_key := st_plugin_key st; era_spawning_ctx := st_spawning_ctx st;
                     era_root := ctx_root (st_scope st) |}
  | None => Err tt
  end.

(** * Declarations *)

(** Every row is filed under the name of its entry. *)
Definition inject_wf (spec : InjectSpec) : Prop :=
  bt_sorted spec ∧ ∀ k e, (k, e) ∈ spec → ie_name e = k.

(** A client builds a specification from the empty one with the two upserts. *)
Inductive InjectOp :=
| IReq (name : string)
| IReqConfigured (name : string) (service : TypeId) (layer : nat).

Definition inject_op (spec : InjectSpec) (op : InjectOp) : InjectSpec :=
  match op with
  | IReq name => require spec name
  | IReqConfigured name service layer => require_configured spec name service layer
  end.

Definition built_spec (ops : list InjectOp) : InjectSpec := fold_left inject_op ops inject_none.

(** What the last operation on [name] declared. *)
Definition op_declares (name : string) (op : InjectOp) : option (option ConfiguredLayer) :=
  match op with
  | IReq n => if decide (n = name) then Some None else None
  | IReqConfigured n service layer =>
      if decide (n = name) then Some (Some {| cl_service_type := service; cl_value := layer |}) else None
  end.

Definition last_declared (name : string) (ops : list InjectOp) : option (option ConfiguredLayer) :=
  fold_left (λ d op, match op_declares name op with Some d' => Some d' | None => d end) ops None.

Lemma inject_wf_insert spec k e : inject_wf spec → ie_name e = k → inject_wf (bt_insert spec k e).
Proof.
  intros [Hs Hn] Hk. split; [by apply bt_insert_sorted|]. intros k' e' Hin.
  assert (NoDup (bt_keys (bt_insert spec k e))) as Hnd by by apply bt_sorted_nodup, bt_insert_sorted.
  assert ((k', e') = (k, e) ∨ (k', e') ∈ spec) as [[= -> ->]|Hin'].
  { clear -Hin. unfold InjectSpec in *. induction spec as [|[k1 e1] spec IH]; simpl in Hin.
    { left. by apply list_elem_of_singleton in Hin. }
    case_decide; [apply elem_of_cons in Hin as [?|?]; [by left|right; by right]|].
    destruct (string_ltb k k1); [apply elem_of_cons in Hin as [?|?]; [by left|by right]|].
    apply elem_of_cons in Hin as [->|Hin]; [right; by left|]. destruct (IH Hin); [by left|right; by right]. }
  - done.
  - by apply Hn.
Qed.

Lemma inject_op_wf spec op : inject_wf spec → inject_wf (inject_op spec op).
Proof. intros. destruct op; simpl; by apply inject_wf_insert. Qed.

Lemma fold_inject_wf ops spec : inject_wf spec → inject_wf (fold_left inject_op ops spec).
Proof. revert spec. induction ops; simpl; eauto using inject_op_wf. Qed.

Lemma inject_none_wf : inject_wf inject_none.
Proof. split; [constructor|]. intros k e He. by apply not_elem_of_nil in He. Qed.

Lemma overlay_spec spec over :
  inject_wf spec → inject_wf over →
  inject_wf (overlay spec over) ∧
  ∀ k, bt_lookup (overlay spec over) k =
       match bt_lookup over k with Some e => Some e | None => bt_lookup spec k end.
Proof.
  intros Hs [Hsort Hn]. unfold overlay. revert spec Hs. clear -Hsort Hn.
  induction Hsort as [|k e m Hlt Hm IH]; intros spec Hs; simpl; [done|].
  destruct (IH ltac:(intros; apply Hn; by right) (bt_insert spec k e)) as [Hwf Hl].
  { apply inject_wf_insert; [done|]. apply Hn. by left. }
  split; [done|]. intros k'. rewrite Hl, bt_lookup_insert. case_decide as Hk; [|done].
  subst k'. destruct (bt_lookup m k) as [e'|] eqn:E; [|done].
  apply bt_lookup_Some_in in E. assert (k ∈ bt_keys m) as Hin by (apply list_elem_of_fmap; by exists (k, e')).
  apply Hlt in Hin. by rewrite klt_irrefl in Hin.
Qed.

Lemma inject_lookup_entry spec k e : inject_wf spec → bt_lookup spec k = Some e ↔ e ∈ entries spec ∧ ie_name e = k.
Proof.
  intros [Hs Hn]. split.
  - intros Hl%bt_lookup_Some_in. split; [apply list_elem_of_fmap; by exists (k, e)|by apply Hn].
  - intros [([k' e'] & -> & Hin)%list_elem_of_fmap Hk]. simpl in Hk. rewrite (Hn _ _ Hin) in Hk. subst k'.
    clear Hn. induction Hs as [|k1 e1 m Hlt Hm IH]; [by apply not_elem_of_nil in Hin|].
    apply elem_of_cons in Hin as [[= <- <-]|Hin]; simpl; [by rewrite decide_True|].
    rewrite decide_False; [by apply IH|]. intros ->.
    assert (k ∈ bt_keys m) as Hk by (apply list_elem_of_fmap; by exists (k, e')).
    apply Hlt in Hk. by rewrite klt_irrefl in Hk.
Qed.

Lemma names_of_entries spec : inject_wf spec → ie_name <$> entries spec = bt_keys spec.
Proof.
  intros [_ Hn]. unfold entries, bt_keys. rewrite <- list_fmap_compose.
  apply list_fmap_ext. intros i [k e] Hi. simpl. apply Hn. by eapply list_elem_of_lookup_2.
Qed.

Lemma built_lookup_from ops spec name d :
  bt_lookup spec name = (λ c, {| ie_name := name; ie_configured := c |}) <$> d →
  bt_lookup (fold_left inject_op ops spec) name =
  (λ c, {| ie_name := name; ie_configured := c |}) <$>
    fold_left (λ d op, match op_declares name op with Some d' => Some d' | None => d end) ops d.
Proof.
  revert spec d. induction ops as [|op ops IH]; intros spec d Hd; simpl; [done|]. apply IH.
  destruct op as [n|n service layer]; simpl; unfold require, require_configured;
    rewrite bt_lookup_insert; case_decide; by subst.
Qed.

(** Declarations are upserts.  Whatever sequence of [require] and
    [require_configured] builds a plugin's declarations and whatever sequence builds the
    overlay the Loader puts on them, the sealed specification has exactly one row per
    Service name, in increasing name order, filed under its own name; the row of a name
    is the last one the overlay declared for it, or the last one the plugin declared
    when the overlay has none, a plain [require] clearing an earlier configured layer. *)
Theorem inject_overlay_upserts (input_type : TypeId → TypeId) (p : Plugin) (input : nat)
    (own over : list InjectOp) (Hown : pl_inject p = built_spec own) :
  let sealed := pp_inject (with_inject_overlay (plugin_from_input input_type p input) (built_spec over)) in
  NoDup (ie_name <$> entries sealed) ∧ bt_sorted sealed ∧
  ∀ name c, {| ie_name := name; ie_configured := c |} ∈ entries sealed ↔
    match last_declared name over with
    | Some c' => c = c'
    | None => last_declared name own = Some c
    end.
Proof.
  cbn. rewrite Hown.
  assert (∀ ops, inject_wf (built_spec ops)) as Hwf by (intros; apply fold_inject_wf, inject_none_wf).
  destruct (overlay_spec _ _ (Hwf own) (Hwf over)) as [Hs Hl].
  split_and!; [|apply Hs|].
  { rewrite names_of_entries by done. apply bt_sorted_nodup, Hs. }
  intros name c. trans (bt_lookup (overlay (built_spec own) (built_spec over)) name =
                          Some {| ie_name := name; ie_configured := c |}).
  { rewrite inject_lookup_entry by done. naive_solver. }
  rewrite Hl. unfold built_spec. rewrite !(built_lookup_from _ _ _ None) by done. fold (last_declared name own).
  fold (last_declared name over). destruct (last_declared name over), (last_declared name own); naive_solver.
Qed.

Example inject_overlay_upserts_witness :
  let p := {| pl_contract := 1; pl_behaviour := 1; pl_name := "p";
              pl_inject := built_spec [IReqConfigured "http" 4 9; IReq "log"] |} in
  {| ie_name := "http"; ie_configured := None |} ∈
    entries (pp_inject (with_inject_overlay (plugin_from_input (λ t, t) p 5) (built_spec [IReq "http"]))).
Proof.
  intros p. apply (inject_overlay_upserts (λ t, t) p 5 [IReqConfigured "http" 4 9; IReq "log"] [IReq "http"]
    eq_refl). reflexivity.
Defined.

(** * Ownership of behaviours

    The seals of a Runtime, by address, each with its outstanding apply lease. *)

Definition Seal : Type := TypedPlugin * option (nat * nat).

Inductive SealOp :=
| SealNew (contract input_type input : nat)
| SealSwap (a : Addr) (change : PreparedChange)
| SealSuccessor (a : Addr) (change : PreparedChange)
| SealApply (a : Addr)
| SealApplyEnd (a : Addr).

(** The [n]-th seal made from user code gets the behaviour [n]. *)
Definition seal_step (op : SealOp) (w : nat * list Seal) : nat * list Seal :=
  let '(n, seals) := w in
  match op with
  | SealNew contract t input =>
      (S n, seals ++ [({| tp_contract := contract; tp_input_type := t; tp_state := Some (n, input) |}, None)])
  | SealSwap a change =>
      match seals !! a with
      | Some (p, lease) => (n, <[ a := ((swap_input p change).2, lease) ]> seals)
      | None => w
      end
  | SealSuccessor a change =>
      match seals !! a with
      | None => w
      | Some (p, lease) =>
          match into_successor p change with
          | (Ok successor, p) => (n, <[ a := (p, lease) ]> seals ++ [(successor, None)])
          | (Err _, p) => (n, <[ a := (p, lease) ]> seals)
          end
      end
  | SealApply a =>
      match seals !! a with
      | Some (p, lease) =>
          match take_lease p with
          | Some (st, p) => (n, <[ a := (p, Some st) ]> seals)
          | None => w
          end
      | None => w
      end
  | SealApplyEnd a =>
      match seals !! a with
      | Some (p, Some st) => (n, <[ a := (drop_lease st p, None) ]> seals)
      | _ => w
      end
  end.

(** The behaviours a seal holds, at home or leased. *)
Definition held_by (s : Seal) : list nat :=
  match tp_state s.1 with Some (b, _) => [b] | None => [] end ++
  match s.2 with Some (b, _) => [b] | None => [] end.

Definition held (seals : list Seal) : list nat := seals ≫= held_by.

Definition lease_excludes_state (s : Seal) : Prop := is_Some s.2 → tp_state s.1 = None.

Lemma held_update seals a s s' rest :
  seals !! a = Some s → held_by s' ++ rest ≡ₚ held_by s → held (<[ a := s' ]> seals) ++ rest ≡ₚ held seals.
Proof.
  intros Ha Hs. rewrite <- (take_drop_middle seals a s Ha) at 2. rewrite insert_take_drop by (by eapply lookup_lt_Some).
  unfold held. rewrite !bind_app, !bind_cons, <- Hs. solve_Permutation.
Qed.

Lemma held_update_same seals a s s' :
  seals !! a = Some s → held_by s' ≡ₚ held_by s → held (<[ a := s' ]> seals) ≡ₚ held seals.
Proof.
  intros Ha Hs. rewrite <- (app_nil_r (held (<[a:=s']> seals))). eapply held_update; [done|]. by rewrite app_nil_r.
Qed.

Lemma swap_input_held p change lease : held_by ((swap_input p change).2, lease) = held_by (p, lease).
Proof.
  unfold swap_input, held_by. repeat (case_match || destruct (negb _)); simplify_eq/=; done.
Qed.

Lemma swap_input_state p change : tp_state p = None → tp_state (swap_input p change).2 = None.
Proof. unfold swap_input. intros Hp. rewrite Hp. by repeat destruct (negb _). Qed.

Lemma seal_step_held op n seals :
  Forall lease_excludes_state seals → held seals ≡ₚ seq 0 n →
  let '(n', seals') := seal_step op (n, seals) in
  Forall lease_excludes_state seals' ∧ held seals' ≡ₚ seq 0 n'.
Proof.
  intros Hl Hh.
  assert (∀ a s, seals !! a = Some s → lease_excludes_state s) as Hat by (intros a s; by eapply Forall_lookup_1).
  destruct op as [contract t input|a change|a change|a|a]; cbn [seal_step].
  - split; [apply Forall_app; split; [done|]; apply Forall_singleton; intros []; done|].
    unfold held. rewrite bind_app. cbn [mbind list_bind]. rewrite app_nil_r. unfold held in Hh. rewrite Hh.
    by rewrite seq_S.
  - destruct (seals !! a) as [[p lease]|] eqn:Ha; [|done]. split.
    + apply Forall_insert; [done|]. intros Hs. apply swap_input_state, (Hat a _ Ha Hs).
    + rewrite <- Hh. eapply held_update_same; [done|]. by rewrite swap_input_held.
  - destruct (seals !! a) as [[p lease]|] eqn:Ha; [|done]. specialize (Hat a _ Ha). unfold into_successor.
    assert (<[ a := (p, lease) ]> seals = seals) as Hid by by apply list_insert_id.
    destruct (negb _); [by rewrite Hid|]. destruct (negb _); [by rewrite Hid|].
    destruct (tp_state p) as [[b i]|] eqn:Hp.
    + split.
      * apply Forall_app. split; [by apply Forall_insert|]. apply Forall_singleton. intros []; done.
      * unfold held. rewrite bind_app, <- Hh. cbn [mbind list_bind]. rewrite app_nil_r.
        eapply held_update; [done|]. unfold held_by. simpl. rewrite Hp. simpl. solve_Permutation.
    + split; [by apply Forall_insert|]. rewrite <- Hh. eapply held_update_same; [done|].
      unfold held_by. simpl. by rewrite Hp.
  - destruct (seals !! a) as [[p lease]|] eqn:Ha; [|done]. specialize (Hat a _ Ha). unfold take_lease.
    destruct (tp_state p) as [[b i]|] eqn:Hp; [|done].
    assert (lease = None) as ->.
    { destruct lease as [st|]; [|done]. specialize (Hat (ex_intro _ st eq_refl)). simpl in Hat. congruence. }
    split; [by apply Forall_insert|]. rewrite <- Hh. eapply held_update_same; [done|].
    unfold held_by. simpl. by rewrite Hp.
  - destruct (seals !! a) as [[p [[b i]|]]|] eqn:Ha; [|done..]. specialize (Hat a _ Ha (ex_intro _ _ eq_refl)).
    split.
    + apply Forall_insert; [done|]. intros []; done.
    + rewrite <- Hh. eapply held_update_same; [done|]. unfold held_by. simpl. simpl in Hat. by rewrite Hat.
Qed.

(** A Plugin behaviour has exactly one owner.  Over any sequence of sealings,
    accepted or refused input swaps, era successions, applies and apply endings, every
    behaviour ever sealed is held exactly once, by one seal or by that seal's single
    apply lease: a succession moves it out of the source, a refused change leaves it
    where it was, and no two seals can apply the same behaviour. *)
Theorem behaviour_has_one_owner (ops : list SealOp) :
  let '(n, seals) := fold_left (λ w op, seal_step op w) ops (0, []) in
  held seals ≡ₚ seq 0 n ∧ Forall lease_excludes_state seals.
Proof.
  assert (Forall lease_excludes_state [] ∧ held [] ≡ₚ seq 0 0) as Hinit by (split; [constructor|done]).
  revert Hinit. generalize 0 at 2 3 as n. generalize (@nil Seal) as seals.
  induction ops as [|op ops IH]; intros seals n [Hl Hh]; cbn [fold_left]; [done|].
  pose proof (seal_step_held op n seals Hl Hh) as Hstep.
  destruct (seal_step op (n, seals)) as [n' seals']. by apply IH.
Qed.
