(* ===== verification/Fiber.v ===== *)
(** The Fiber record and its admission gates (crates/cordis-core/src/fiber/mod.rs), and
    the gated publication seam every registration crosses (gated.rs).

    A [Weak<Fiber>] is the address of a Fiber; upgrading it is a lookup in the heap of
    the Fibers that are still allocated.  The mutexes of a Fiber are not fields: a
    critical section is one function, and the development says where two of them may
    be interleaved (Generation.v). *)
From S2P Require Import Prelude Axes BTree Lifecycle Journal Plugin.

(** * The Fiber *)

(* @src crates/cordis-core/src/fiber/mod.rs 408-418 DependencyEdge *)
Record DependencyEdge := { de_service : string; de_realm : RealmKey }.

(** The exact slot an edge names, as the Service store and the index key it. *)
Definition edge_key (e : DependencyEdge) : string * RealmKey := (de_service e, de_realm e).

(** The claim names the allocation and the Fiber; the Registry it belongs to is the one
    of the Runtime, which outlives its Fibers. *)
(* @src crates/cordis-core/src/registry.rs 203-207 ResidencyClaim *)
Record ResidencyClaim := { rc_allocation : Addr; rc_fiber : Addr }.

(** [f_committed] is the committed recheck revision of the convergence slot, whose
    protocol is the subject of Inertia.v; [f_spawn] is the spawn state. *)
(* @src crates/cordis-core/src/fiber/mod.rs 461-518 Fiber *)
Record Fiber := {
  f_id : Addr;
  f_name : string;
  f_edges : list DependencyEdge;
  f_alive : bool;
  f_disposing : bool;
  f_replacing : bool;
  f_dispose_complete : bool;
  f_state : StatePublication;
  f_journal : DisposableList;
  f_committed : Z;
  f_error : option PluginFailure;
  f_spawn : SpawnState;
  f_residency : option ResidencyClaim;
  f_draining : bool;
  f_applied : bool;
  f_creation_pending : bool;
}.

Definition set_f_alive (v : bool) (f : Fiber) : Fiber :=
  {| f_id := f_id f; f_name := f_name f; f_edges := f_edges f; f_alive := v;
     f_disposing := f_disposing f; f_replacing := f_replacing f;
     f_dispose_complete := f_dispose_complete f; f_state := f_state f;
     f_journal := f_journal f; f_committed := f_committed f; f_error := f_error f;
     f_spawn := f_spawn f; f_residency := f_residency f; f_draining := f_draining f;
     f_applied := f_applied f; f_creation_pending := f_creation_pending f |}.
Definition set_f_disposing (v : bool) (f : Fiber) : Fiber :=
  {| f_id := f_id f; f_name := f_name f; f_edges := f_edges f; f_alive := f_alive f;
     f_disposing := v; f_replacing := f_replacing f;
     f_dispose_complete := f_dispose_complete f; f_state := f_state f;
     f_journal := f_journal f; f_committed := f_committed f; f_error := f_error f;
     f_spawn := f_spawn f; f_residency := f_residency f; f_draining := f_draining f;
     f_applied := f_applied f; f_creation_pending := f_creation_pending f |}.
Definition set_f_replacing (v : bool) (f : Fiber) : Fiber :=
  {| f_id := f_id f; f_name := f_name f; f_edges := f_edges f; f_alive := f_alive f;
     f_disposing := f_disposing f; f_replacing := v;
     f_dispose_complete := f_dispose_complete f; f_state := f_state f;
     f_journal := f_journal f; f_committed := f_committed f; f_error := f_error f;
     f_spawn := f_spawn f; f_residency := f_residency f; f_draining := f_draining f;
     f_applied := f_applied f; f_creation_pending := f_creation_pending f |}.
Definition set_f_dispose_complete (v : bool) (f : Fiber) : Fiber :=
  {| f_id := f_id f; f_name := f_name f; f_edges := f_edges f; f_alive := f_alive f;
     f_disposing := f_disposing f; f_replacing := f_replacing f; f_dispose_complete := v;
     f_state := f_state f; f_journal := f_journal f; f_committed := f_committed f;
     f_error := f_error f; f_spawn := f_spawn f; f_residency := f_residency f;
     f_draining := f_draining f; f_applied := f_applied f;
     f_creation_pending := f_creation_pending f |}.
Definition set_f_state (v : StatePublication) (f : Fiber) : Fiber :=
  {| f_id := f_id f; f_name := f_name f; f_edges := f_edges f; f_alive := f_alive f;
     f_disposing := f_disposing f; f_replacing := f_replacing f;
     f_dispose_complete := f_dispose_complete f; f_state := v; f_journal := f_journal f;
     f_committed := f_committed f; f_error := f_error f; f_spawn := f_spawn f;
     f_residency := f_residency f; f_draining := f_draining f; f_applied := f_applied f;
     f_creation_pending := f_creation_pending f |}.
Definition set_f_journal (v : DisposableList) (f : Fiber) : Fiber :=
  {| f_id := f_id f; f_name := f_name f; f_edges := f_edges f; f_alive := f_alive f;
     f_disposing := f_disposing f; f_replacing := f_replacing f;
     f_dispose_complete := f_dispose_complete f; f_state := f_state f; f_journal := v;
     f_committed := f_committed f; f_error := f_error f; f_spawn := f_spawn f;
     f_residency := f_residency f; f_draining := f_draining f; f_applied := f_applied f;
     f_creation_pending := f_creation_pending f |}.
Definition set_f_committed (v : Z) (f : Fiber) : Fiber :=
  {| f_id := f_id f; f_name := f_name f; f_edges := f_edges f; f_alive := f_alive f;
     f_disposing := f_disposing f; f_replacing := f_replacing f;
     f_dispose_complete := f_dispose_complete f; f_state := f_state f;
     f_journal := f_journal f; f_committed := v; f_error := f_error f;
     f_spawn := f_spawn f; f_residency := f_residency f; f_draining := f_draining f;
     f_applied := f_applied f; f_creation_pending := f_creation_pending f |}.
Definition set_f_error (v : option PluginFailure) (f : Fiber) : Fiber :=
  {| f_id := f_id f; f_name := f_name f; f_edges := f_edges f; f_alive := f_alive f;
     f_disposing := f_disposing f; f_replacing := f_replacing f;
     f_dispose_complete := f_dispose_complete f; f_state := f_state f;
     f_journal := f_journal f; f_committed := f_committed f; f_error := v;
     f_spawn := f_spawn f; f_residency := f_residency f; f_draining := f_draining f;
     f_applied := f_applied f; f_creation_pending := f_creation_pending f |}.
Definition set_f_spawn (v : SpawnState) (f : Fiber) : Fiber :=
  {| f_id := f_id f; f_name := f_name f; f_edges := f_edges f; f_alive := f_alive f;
     f_disposing := f_disposing f; f_replacing := f_replacing f;
     f_dispose_complete := f_dispose_complete f; f_state := f_state f;
     f_journal := f_journal f; f_committed := f_committed f; f_error := f_error f;
     f_spawn := v; f_residency := f_residency f; f_draining := f_draining f;
     f_applied := f_applied f; f_creation_pending := f_creation_pending f |}.
Definition set_f_residency (v : option ResidencyClaim) (f : Fiber) : Fiber :=
  {| f_id := f_id f; f_name := f_name f; f_edges := f_edges f; f_alive := f_alive f;
     f_disposing := f_disposing f; f_replacing := f_replacing f;
     f_dispose_complete := f_dispose_complete f; f_state := f_state f;
     f_journal := f_journal f; f_committed := f_committed f; f_error := f_error f;
     f_spawn := f_spawn f; f_residency := v; f_draining := f_draining f;
     f_applied := f_applied f; f_creation_pending := f_creation_pending f |}.
Definition set_f_draining (v : bool) (f : Fiber) : Fiber :=
  {| f_id := f_id f; f_name := f_name f; f_edges := f_edges f; f_alive := f_alive f;
     f_disposing := f_disposing f; f_replacing := f_replacing f;
     f_dispose_complete := f_dispose_complete f; f_state := f_state f;
     f_journal := f_journal f; f_committed := f_committed f; f_error := f_error f;
     f_spawn := f_spawn f; f_residency := f_residency f; f_draining := v;
     f_applied := f_applied f; f_creation_pending := f_creation_pending f |}.
Definition set_f_applied (v : bool) (f : Fiber) : Fiber :=
  {| f_id := f_id f; f_name := f_name f; f_edges := f_edges f; f_alive := f_alive f;
     f_disposing := f_disposing f; f_replacing := f_replacing f;
     f_dispose_complete := f_dispose_complete f; f_state := f_state f;
     f_journal := f_journal f; f_committed := f_committed f; f_error := f_error f;
     f_spawn := f_spawn f; f_residency := f_residency f; f_draining := f_draining f;
     f_applied := v; f_creation_pending := f_creation_pending f |}.
Definition set_f_creation_pending (v : bool) (f : Fiber) : Fiber :=
  {| f_id := f_id f; f_name := f_name f; f_edges := f_edges f; f_alive := f_alive f;
     f_disposing := f_disposing f; f_replacing := f_replacing f;
     f_dispose_complete := f_dispose_complete f; f_state := f_state f;
     f_journal := f_journal f; f_committed := f_committed f; f_error := f_error f;
     f_spawn := f_spawn f; f_residency := f_residency f; f_draining := f_draining f;
     f_applied := f_applied f; f_creation_pending := v |}.

(** Whether [spawn_state.root()] answers. *)
Definition f_installed (f : Fiber) : bool := bool_decide (is_Some (spawn_root (f_spawn f))).

(* @src crates/cordis-core/src/fiber/mod.rs 536-563 Fiber::new_with_edges *)
Definition Fiber_new_with_edges (id : Addr) (name : string) (edges : list DependencyEdge) : Fiber :=
  {| f_id := id; f_name := name; f_edges := edges; f_alive := true; f_disposing := false;
     f_replacing := false; f_dispose_complete := false; f_state := StatePublication_new Pending;
     f_journal := DisposableList_new; f_committed := 0; f_error := None; f_spawn := None;
     f_residency := None; f_draining := false; f_applied := false; f_creation_pending := false |}.

(* @src crates/cordis-core/src/fiber/mod.rs 532-534 Fiber::new *)
Definition Fiber_new (id : Addr) (name : string) : Fiber := Fiber_new_with_edges id name [].

(* @src crates/cordis-core/src/fiber/mod.rs 581-583 Fiber::state *)
Definition fiber_state (f : Fiber) : FiberState := sp_current (f_state f).

(** [None] is the panic of [StatePublication::publish] on an exhausted counter. *)
(* @src crates/cordis-core/src/fiber/mod.rs 588-590 Fiber::set_state *)
Definition set_state (next : FiberState) (f : Fiber) : option Fiber :=
  match sp_publish (f_state f) next with
  | (Ok _, p) => Some (set_f_state p f)
  | (Err _, _) => None
  end.

(* @src crates/cordis-core/src/fiber/mod.rs 566-570 Fiber::root *)
Definition Fiber_root (id : Addr) : option Fiber := set_state Active (Fiber_new id "root").

(** The terminal marks, taken under the service mutation gate. *)
(* @src crates/cordis-core/src/fiber/mod.rs 658-661 Fiber::claim_terminal *)
Definition claim_terminal (f : Fiber) : bool * Fiber := (f_disposing f, set_f_disposing true f).

(* @src crates/cordis-core/src/fiber/mod.rs 663-666 Fiber::mark_terminal *)
Definition mark_terminal (f : Fiber) : Fiber := set_f_disposing true f.

(* @src crates/cordis-core/src/fiber/mod.rs 668-671 Fiber::mark_replacing *)
Definition mark_replacing (f : Fiber) : Fiber := set_f_replacing true f.

(* @src crates/cordis-core/src/fiber/mod.rs 683-689 Fiber::assert_alive *)
Definition assert_alive (f : Fiber) : result unit unit := if f_alive f then Ok tt else Err tt.

(* @src crates/cordis-core/src/fiber/mod.rs 701-714 Fiber::assert_can_register *)
Definition assert_can_register (f : Fiber) : result unit unit :=
  match assert_alive f with
  | Err e => Err e
  | Ok _ =>
      if f_disposing f || f_replacing f then Err tt
      else match fiber_state f with
           | Loading | Active => Ok tt
           | Pending | Unloading | Failed | Disposed => Err tt
           end
  end.

(* @src crates/cordis-core/src/fiber/mod.rs 719-721 Fiber::store_error *)
Definition store_error (next : option PluginFailure) (f : Fiber) : Fiber := set_f_error next f.

(* @src crates/cordis-core/src/fiber/mod.rs 725-727 Fiber::take_error *)
Definition take_error (f : Fiber) : option PluginFailure * Fiber := (f_error f, set_f_error None f).

(* @src crates/cordis-core/src/fiber/mod.rs 1205-1211 Fiber::remove_disposable *)
Definition remove_disposable (f : Fiber) (token : Z) : option Cleanup * Fiber :=
  let '(claimed, l) := dl_remove (f_journal f) token in (claimed, set_f_journal l f).

(** [fetch_add] on the committed revision. *)
(* @src crates/cordis-core/src/fiber/inertia.rs 227-231 InertiaSlot::commit_recheck *)
Definition fiber_commit_recheck (f : Fiber) : Fiber := set_f_committed (wrapping_succ (f_committed f)) f.

(** * The gated publication seam *)

(* @src crates/cordis-core/src/gated.rs 39-43 GatedPublishError *)
Inductive GatedPublishError := GatedInactiveContext | GatedPublishRefused.

(** Code that works on the Fibers of a larger state: the heap, and the update of one
    Fiber in place. *)
Class FiberStore (W : Type) := {
  fibers : W → gmap Addr Fiber;
  update_fiber : Addr → (Fiber → Fiber) → W → W;
  fibers_update : ∀ x g w, fibers (update_fiber x g w) = alter g x (fibers w);
}.

#[export, program] Instance heap_fiber_store : FiberStore (gmap Addr Fiber) :=
  {| fibers := λ heap, heap; update_fiber := λ x g heap, alter g x heap |}.
Next Obligation. done. Qed.

(** [publish] is the publish step: it changes the shared state, or refuses.  The section
    under the journal lock is the recheck, the publication and the push. *)
(* @src crates/cordis-core/src/gated.rs 71-98 push_gated *)
Definition push_gated {W R : Type} `{FiberStore W} (owner : Addr) (cleanup : Cleanup)
    (publish : W → result unit R * W) (w : W) : result Z (GatedPublishError * option R) * W :=
  match fibers w !! owner with
  | None => (Err (GatedInactiveContext, None), w)
  | Some f =>
      match assert_can_register f with
      | Err _ => (Err (GatedInactiveContext, None), w)
      | Ok _ =>
          (* the list lock is taken, and the gate read once more *)
          match assert_can_register f with
          | Err _ => (Err (GatedInactiveContext, None), w)
          | Ok _ =>
              match publish w with
              | (Err refusal, w) => (Err (GatedPublishRefused, Some refusal), w)
              | (Ok _, w) =>
                  let token := (dl_push (f_journal f) cleanup).1 in
                  (Ok token, update_fiber owner (λ f, set_f_journal (dl_push (f_journal f) cleanup).2 f) w)
              end
          end
      end
  end.

(** Publishing nothing: the step of a plain effect. *)
(* @src crates/cordis-core/src/gated.rs 53-60 NoPublish *)
Definition NoPublish {W} (w : W) : result unit Empty_set * W := (Ok tt, w).

(** * Effect registrations *)

(* @src crates/cordis-core/src/effect.rs 280-288 EffectRegistrationError *)
Inductive EffectRegistrationError := EffectInactiveContext.

(** [owner] is a [Weak<Fiber>]. *)
(* @src crates/cordis-core/src/effect.rs 323-326 EffectRegistration *)
Record EffectRegistration := { er_token : Z; er_owner : Addr }.

Section effects.
Context {W : Type} `{FiberStore W}.

(* @src crates/cordis-core/src/effect.rs 470-483 Context::register_cleanup *)
Definition register_cleanup (owner : Addr) (cleanup : Cleanup) (w : W)
    : result EffectRegistration EffectRegistrationError * W :=
  match push_gated owner cleanup NoPublish w with
  | (Ok token, w) => (Ok {| er_token := token; er_owner := owner |}, w)
  | (Err _, w) => (Err EffectInactiveContext, w)
  end.

(* @src crates/cordis-core/src/effect.rs 421-436 Context::effect *)
Definition effect (owner : Addr) (callback : nat) : W → result EffectRegistration EffectRegistrationError * W :=
  register_cleanup owner {| cl_run := CleanUser callback; async_cleanup := true |}.

(* @src crates/cordis-core/src/effect.rs 450-464 Context::effect_sync *)
Definition effect_sync (owner : Addr) (callback : nat) : W → result EffectRegistration EffectRegistrationError * W :=
  register_cleanup owner (sync_cleanup (CleanUser callback)).

(** The claim of a cleanup by its token. *)
Definition claim_cleanup (x : Addr) (token : Z) (w : W) : option Cleanup * W :=
  match fibers w !! x with
  | None => (None, w)
  | Some f => ((remove_disposable f token).1, update_fiber x (λ f, (remove_disposable f token).2) w)
  end.

(* @src crates/cordis-core/src/effect.rs 332-341 EffectRegistration::disarm *)
Definition er_disarm (r : EffectRegistration) (w : W) : bool * W :=
  let '(claimed, w) := claim_cleanup (er_owner r) (er_token r) w in (bool_decide (is_Some claimed), w).

(** [ending] is how the claimed cleanup ends when it is run; the claimed cleanup is
    returned beside the answer. *)
(* @src crates/cordis-core/src/effect.rs 359-402 EffectRegistration::dispose *)
Definition er_dispose (r : EffectRegistration) (ending : CleanupEnding) (w : W)
    : result bool EffectFailure * option Cleanup * W :=
  match claim_cleanup (er_owner r) (er_token r) w with
  | (None, w) => (Ok false, None, w)
  | (Some cleanup, w) =>
      (match execute_cleanup ending with None => Ok true | Some failure => Err failure end, Some cleanup, w)
  end.
End effects.

(** * The gate *)

(** Registrations are admitted exactly while the generation is open. *)
Definition gate_open (f : Fiber) : Prop :=
  f_alive f = true ∧ f_disposing f = false ∧ f_replacing f = false ∧
  (fiber_state f = Loading ∨ fiber_state f = Active).

#[export] Instance gate_open_dec f : Decision (gate_open f).
Proof. unfold gate_open. apply _. Defined.

Lemma assert_can_register_spec f :
  assert_can_register f = if decide (gate_open f) then Ok tt else Err tt.
Proof.
  unfold assert_can_register, assert_alive. case_decide as Hd; unfold gate_open in Hd.
  - by destruct Hd as (-> & -> & -> & [-> | ->]).
  - destruct (f_alive f); [|done]. destruct (f_disposing f); [done|]. destruct (f_replacing f); [done|].
    simpl. destruct (fiber_state f); try done; exfalso; apply Hd; auto.
Qed.

Lemma assert_can_register_Ok f u : assert_can_register f = Ok u ↔ gate_open f.
Proof. rewrite assert_can_register_spec. destruct u. case_decide; naive_solver. Qed.

Lemma push_gated_spec {W R} `{FiberStore W} owner cleanup (publish : W → result unit R * W) w f :
  fibers w !! owner = Some f →
  push_gated owner cleanup publish w =
  if decide (gate_open f) then
    match publish w with
    | (Err r, w) => (Err (GatedPublishRefused, Some r), w)
    | (Ok _, w) => (Ok (dl_push (f_journal f) cleanup).1,
                    update_fiber owner (λ f, set_f_journal (dl_push (f_journal f) cleanup).2 f) w)
    end
  else (Err (GatedInactiveContext, None), w).
Proof. intros Hf. unfold push_gated. rewrite Hf, !assert_can_register_spec. by case_decide. Qed.

Lemma set_state_spec next f f' :
  set_state next f = Some f' → ∃ p, f' = set_f_state p f ∧ sp_current p = next.
Proof.
  unfold set_state, sp_publish. intros H. revert H.
  repeat (case_match || case_decide); intros; simplify_eq/=; eauto.
Qed.

Lemma fiber_commit_recheck_changes f :
  f_committed (fiber_commit_recheck f) ≠ f_committed f.
Proof.
  unfold fiber_commit_recheck, wrapping_succ. simpl. intros Heq.
  pose proof (Z.mod_pos_bound (f_committed f + 1) (u64_max + 1) ltac:(done)) as Hb.
  rewrite Heq in Hb. destruct (Z.eq_dec (f_committed f + 1) (u64_max + 1)) as [Hm|Hm].
  - rewrite Hm, Z.mod_same in Heq by done. unfold u64_max in *. lia.
  - rewrite Z.mod_small in Heq by lia. lia.
Qed.
