(* ===== verification/Listener.v ===== *)
(** The typed listener surface (crates/cordis-core/src/events/listener.rs, dispatch.rs):
    the adapters that erase a typed callback, the contained invocation of an erased one,
    registration, and the typed entry points of a dispatch.

    A value of a type is a number; erased, it carries the identity of its type, and a
    downcast compares it.  User code is a step on the state that returns or unwinds; the
    future an asynchronous callback constructs is such a step again, run to completion
    where it is awaited. *)
From S2P Require Import Prelude Axes Contained EventStore Lifecycle Journal Observation Dispatch Plugin Fiber.
From Stdlib Require Import FunctionalExtensionality.

(** * Steps of user code *)

Definition Step (S A : Type) : Type := S → Ending A * S.

#[export] Instance Step_ret {S} : MRet (Step S) := λ A a s, (Returned a, s).
#[export] Instance Step_bind {S} : MBind (Step S) := λ A B k m s,
  match m s with (Returned a, s) => k a s | (Unwound p, s) => (Unwound p, s) end.

Definition unwind {S A} (p : Payload) : Step S A := λ s, (Unwound p, s).
Definition ended {S A} (e : Ending A) : Step S A := λ s, (e, s).

(** An error value of a user's type: how its [Display] ends, and the failure it is, when
    its type is [InvocationFailure]. *)
Record UserError := { ue_display : Ending string; ue_failure : option InvocationFailure }.

(* @src crates/cordis-core/src/events/listener.rs 173-185 normalize_returned *)
Definition normalize_returned {S} (error : UserError) : Step S InvocationFailure :=
  diagnostic ← ended (ue_display error);
  mret (default (failure_returned diagnostic) (ue_failure error)).

(** The end of every adapter: the value in its erased shape, or the normalized error. *)
Definition finish {S V U} (shape : V → U) (r : result V UserError) : Step S (result U InvocationFailure) :=
  match r with
  | Ok v => mret (Ok (shape v))
  | Err error => failure ← normalize_returned error; mret (Err failure)
  end.

Definition panic_message (p : Payload) : string := cs_diagnostic (consume_panic_payload p "listener panicked").

(** What a call comes to, once constructed and awaited. *)
Definition settled {S V} (construct : Step S (Step S V)) : Step S V := fut ← construct; fut.

(** * Erased values *)

Definition box (T : TypeId) (v : nat) : AnyValue := {| av_type := T; av_payload := v |}.

(** [expect] on a downcast. *)
Definition downcast {S} (T : TypeId) (message : string) (p : AnyValue) : Step S nat :=
  if decide (av_type p = T) then mret (av_payload p) else unwind (PayloadText message).

(* @src crates/cordis-core/src/events/listener.rs 187-191 downcast_args *)
Definition downcast_args {S} (E : Event) : AnyValue → Step S nat :=
  downcast (ev_args E) "Event contract preflight guarantees listener Args type".

Section listener.
Context {W : Type}.
Abbreviation St := (DispatchState W).
Abbreviation Outcome V := (result V InvocationFailure).
Abbreviation Future V := (Step St V).
(** The [Result] of a callback. *)
Abbreviation UserResult V := (result V UserError).

(** An erased plain callback constructs a future; so does an Around one, given the rest
    of the waterfall. *)
(* @src crates/cordis-core/src/events/listener.rs 20-24 ErasedListener *)
Definition ErasedListener : Type := AnyValue → Step St (Future (Outcome (CallbackValue AnyValue))).
(* @src crates/cordis-core/src/events/listener.rs 36-53 NextFn *)
Definition NextFn : Type := AnyValue → St → Outcome AnyValue * St.
(* @src crates/cordis-core/src/events/listener.rs 25-35 ErasedAroundListener *)
Definition ErasedAroundListener : Type := AnyValue → NextFn → Step St (Future (Outcome AnyValue)).

(** The consuming continuation an Around callback gets, by its [call]. *)
Definition Next : Type := nat → Future (Outcome nat).

(* @src crates/cordis-core/src/events/listener.rs 54-75 Next::call *)
Definition Next_new (E : Event) (inner : NextFn) : Next := λ args,
  output ← (λ s, let '(r, s) := inner (box (ev_args E) args) s in (Returned r, s));
  match output with
  | Err failure => mret (Err failure)
  | Ok output => v ← downcast (ev_output E) "Event contract preflight guarantees Around output type" output; mret (Ok v)
  end.

(** * User callbacks *)

Definition AsyncCallback (V : Type) : Type := Context → nat → Step St (Future (UserResult V)).
Definition SyncCallback (V : Type) : Type := Context → nat → Step St (UserResult V).
Definition AroundUser : Type := Context → nat → Next → Step St (Future (UserResult nat)).

(** A callback composed with a factory of invocation-local state. *)
(* @src crates/cordis-core/src/events/listener.rs 153-169 StatefulCallback *)
Record StatefulCallback (C : Type) := { factory : Step St nat; callback : nat → C }.
Arguments factory {C} _.
Arguments callback {C} _ _.

(* @src crates/cordis-core/src/events/listener.rs 314-316 ResponderAsync::erase *)
Definition responder_value (E : Event) (answer : option nat) : CallbackValue AnyValue :=
  ResponderValue (box (ev_output E) <$> answer).
(* @src crates/cordis-core/src/events/listener.rs 400-400 MapperAsync::erase *)
Definition mapper_value (E : Event) (mapped : nat) : CallbackValue AnyValue := MapperValue (box (ev_args E) mapped).

(* @src crates/cordis-core/src/events/listener.rs 220-237 ObserverAsync::erase *)
Definition observer_async (f : AsyncCallback unit) (E : Event) (registration : Context) : ErasedListener := λ payload,
  args ← downcast_args E payload; fut ← f registration args;
  mret (r ← fut; finish (λ _, ObserverValue) r).

(* @src crates/cordis-core/src/events/listener.rs 239-262 ObserverAsync::erase *)
Definition observer_async_state (f : StatefulCallback (AsyncCallback unit)) (E : Event) (registration : Context) : ErasedListener := λ payload,
  state ← factory f; args ← downcast_args E payload; fut ← callback f state registration args;
  mret (r ← fut; finish (λ _, ObserverValue) r).

(* @src crates/cordis-core/src/events/listener.rs 264-278 ObserverSync::erase *)
Definition observer_sync (f : SyncCallback unit) (E : Event) (registration : Context) : ErasedListener := λ payload,
  args ← downcast_args E payload; r ← f registration args;
  result ← finish (λ _, ObserverValue) r; mret (mret result).

(* @src crates/cordis-core/src/events/listener.rs 280-300 ObserverSync::erase *)
Definition observer_sync_state (f : StatefulCallback (SyncCallback unit)) (E : Event) (registration : Context) : ErasedListener := λ payload,
  state ← factory f; args ← downcast_args E payload; r ← callback f state registration args;
  result ← finish (λ _, ObserverValue) r; mret (mret result).

(* @src crates/cordis-core/src/events/listener.rs 302-321 ResponderAsync::erase *)
Definition responder_async (f : AsyncCallback (option nat)) (E : Event) (registration : Context) : ErasedListener := λ payload,
  args ← downcast_args E payload; fut ← f registration args;
  mret (r ← fut; finish (responder_value E) r).

(* @src crates/cordis-core/src/events/listener.rs 323-348 ResponderAsync::erase *)
Definition responder_async_state (f : StatefulCallback (AsyncCallback (option nat))) (E : Event) (registration : Context) : ErasedListener := λ payload,
  state ← factory f; args ← downcast_args E payload; fut ← callback f state registration args;
  mret (r ← fut; finish (responder_value E) r).

(* @src crates/cordis-core/src/events/listener.rs 350-364 ResponderSync::erase *)
Definition responder_sync (f : SyncCallback (option nat)) (E : Event) (registration : Context) : ErasedListener := λ payload,
  args ← downcast_args E payload; r ← f registration args;
  result ← finish (responder_value E) r; mret (mret result).

(* @src crates/cordis-core/src/events/listener.rs 366-386 ResponderSync::erase *)
Definition responder_sync_state (f : StatefulCallback (SyncCallback (option nat))) (E : Event) (registration : Context) : ErasedListener := λ payload,
  state ← factory f; args ← downcast_args E payload; r ← callback f state registration args;
  result ← finish (responder_value E) r; mret (mret result).

(* @src crates/cordis-core/src/events/listener.rs 388-405 MapperAsync::erase *)
Definition mapper_async (f : AsyncCallback nat) (E : Event) (registration : Context) : ErasedListener := λ payload,
  args ← downcast_args E payload; fut ← f registration args;
  mret (r ← fut; finish (mapper_value E) r).

(* @src crates/cordis-core/src/events/listener.rs 407-430 MapperAsync::erase *)
Definition mapper_async_state (f : StatefulCallback (AsyncCallback nat)) (E : Event) (registration : Context) : ErasedListener := λ payload,
  state ← factory f; args ← downcast_args E payload; fut ← callback f state registration args;
  mret (r ← fut; finish (mapper_value E) r).

(* @src crates/cordis-core/src/events/listener.rs 432-446 MapperSync::erase *)
Definition mapper_sync (f : SyncCallback nat) (E : Event) (registration : Context) : ErasedListener := λ payload,
  args ← downcast_args E payload; r ← f registration args;
  result ← finish (mapper_value E) r; mret (mret result).

(* @src crates/cordis-core/src/events/listener.rs 448-468 MapperSync::erase *)
Definition mapper_sync_state (f : StatefulCallback (SyncCallback nat)) (E : Event) (registration : Context) : ErasedListener := λ payload,
  state ← factory f; args ← downcast_args E payload; r ← callback f state registration args;
  result ← finish (mapper_value E) r; mret (mret result).

(* @src crates/cordis-core/src/events/listener.rs 470-491 AroundCallback::erase *)
Definition around_callback (f : AroundUser) (E : Event) (registration : Context) : ErasedAroundListener := λ payload next,
  args ← downcast_args E payload; fut ← f registration args (Next_new E next);
  mret (r ← fut; finish (box (ev_output E)) r).

(* @src crates/cordis-core/src/events/listener.rs 493-521 AroundCallback::erase *)
Definition around_callback_state (f : StatefulCallback AroundUser) (E : Event) (registration : Context) : ErasedAroundListener := λ payload next,
  state ← factory f; args ← downcast_args E payload; fut ← callback f state registration args (Next_new E next);
  mret (r ← fut; finish (box (ev_output E)) r).

(** A listener a client built. *)
(* @src crates/cordis-core/src/events/listener.rs 635-673 observer, responder, mapper, around *)
Inductive Listener :=
| LObserverAsync (f : AsyncCallback unit)
| LObserverAsyncState (f : StatefulCallback (AsyncCallback unit))
| LObserverSync (f : SyncCallback unit)
| LObserverSyncState (f : StatefulCallback (SyncCallback unit))
| LResponderAsync (f : AsyncCallback (option nat))
| LResponderAsyncState (f : StatefulCallback (AsyncCallback (option nat)))
| LResponderSync (f : SyncCallback (option nat))
| LResponderSyncState (f : StatefulCallback (SyncCallback (option nat)))
| LMapperAsync (f : AsyncCallback nat)
| LMapperAsyncState (f : StatefulCallback (AsyncCallback nat))
| LMapperSync (f : SyncCallback nat)
| LMapperSyncState (f : StatefulCallback (SyncCallback nat))
| LAround (f : AroundUser)
| LAroundState (f : StatefulCallback AroundUser).

(** The erased closure of a hook, with the role it is filed under. *)
Inductive Closure := PlainClosure (role : ListenerRole) (f : ErasedListener) | AroundClosure (f : ErasedAroundListener).

(* @src crates/cordis-core/src/events/listener.rs 523-603 ListenerImpl::into_hook *)
Definition into_hook (l : Listener) (E : Event) (registration : Context) : Closure :=
  match l with
  | LObserverAsync f => PlainClosure Observer (observer_async f E registration)
  | LObserverAsyncState f => PlainClosure Observer (observer_async_state f E registration)
  | LObserverSync f => PlainClosure Observer (observer_sync f E registration)
  | LObserverSyncState f => PlainClosure Observer (observer_sync_state f E registration)
  | LResponderAsync f => PlainClosure Responder (responder_async f E registration)
  | LResponderAsyncState f => PlainClosure Responder (responder_async_state f E registration)
  | LResponderSync f => PlainClosure Responder (responder_sync f E registration)
  | LResponderSyncState f => PlainClosure Responder (responder_sync_state f E registration)
  | LMapperAsync f => PlainClosure Mapper (mapper_async f E registration)
  | LMapperAsyncState f => PlainClosure Mapper (mapper_async_state f E registration)
  | LMapperSync f => PlainClosure Mapper (mapper_sync f E registration)
  | LMapperSyncState f => PlainClosure Mapper (mapper_sync_state f E registration)
  | LAround f => AroundClosure (around_callback f E registration)
  | LAroundState f => AroundClosure (around_callback_state f E registration)
  end.

(** * Contained invocation *)

(* @src crates/cordis-core/src/events/dispatch.rs 258-289 Context::drop_callback_contained *)
Definition drop_callback_contained {V} (drop : Step St unit) (drop_value : V → Step St unit) (outcome : Outcome V) (s : St)
    : Outcome V * St :=
  match drop s with
  | (Returned _, s) => (outcome, s)
  | (Unwound p, s) =>
      let diagnostic := panic_message p in
      match outcome with
      | Ok v =>
          match drop_value v s with
          | (Returned _, s) => (Err (failure_panic diagnostic), s)
          | (Unwound q, s) =>
              (Err (failure_panic (String.append (String.append diagnostic "; listener output destruction panicked: ") (panic_message q))), s)
          end
      | Err failure =>
          (Err {| if_registration := if_registration failure; if_kind := if_kind failure;
                  if_diagnostic := String.append (String.append (if_diagnostic failure) "; listener destruction panicked: ") diagnostic |}, s)
      end
  end.

(* @src crates/cordis-core/src/events/dispatch.rs 241-256 Context::invoke_and_drop_callback *)
Definition invoke_and_drop_callback {V} (construct : Step St (Future (Outcome V))) (drop : Step St unit)
    (drop_value : V → Step St unit) (s : St) : Outcome V * St :=
  let '(outcome, s) :=
    match construct s with
    | (Returned future, s) =>
        match future s with
        | (Returned r, s) => (r, s)
        | (Unwound p, s) => (Err (failure_panic (panic_message p)), s)
        end
    | (Unwound p, s) => (Err (failure_panic (panic_message p)), s)
    end in
  drop_callback_contained drop drop_value outcome s.

(** The closure behind a handle: the listener, the Event it was erased for and the
    Context it was registered on. *)
Record HeldListener := { rl_listener : Listener; rl_event : Event; rl_context : Context }.

Context (membership : Addr) (closures : nat → HeldListener).
(** What the destructors of a closure and of an undeliverable value do. *)
Context (drop_callback : nat → Step St unit) (drop_value : AnyValue → Step St unit).
(** [futures::future::join_all]: the outcomes of the futures, in order. *)
Context (join : ∀ V : Type, list (St → Outcome V * St) → St → list (Outcome V) * St).

Definition closure (cb : nat) : Closure :=
  into_hook (rl_listener (closures cb)) (rl_event (closures cb)) (rl_context (closures cb)).

(** The hook a handle is filed as. *)
Definition hook_kind (cb : nat) : HookKind :=
  match closure cb with PlainClosure role _ => Plain role cb | AroundClosure _ => AroundHook cb end.

Definition drop_callback_value (v : CallbackValue AnyValue) : Step St unit :=
  match v with ObserverValue | ResponderValue None => mret tt | ResponderValue (Some p) | MapperValue p => drop_value p end.

(** A [Plain] hook holds no Around closure, and conversely. *)
(* @src crates/cordis-core/src/events/dispatch.rs 234-239 Context::invoke_plain *)
Definition invoke_plain (cb : nat) (payload : AnyValue) : St → Outcome (CallbackValue AnyValue) * St :=
  match closure cb with
  | PlainClosure _ f => invoke_and_drop_callback (f payload) (drop_callback cb) drop_callback_value
  | AroundClosure _ => λ s, (Err (failure_panic "not a plain closure"), s)
  end.

(* @src crates/cordis-core/src/events/dispatch.rs 301-307 Context::invoke_around *)
Definition invoke_around (cb : nat) (payload : AnyValue) (next : NextFn) : St → Outcome AnyValue * St :=
  match closure cb with
  | AroundClosure f => invoke_and_drop_callback (f payload next) (drop_callback cb) drop_value
  | PlainClosure _ _ => λ s, (Err (failure_panic "not an Around closure"), s)
  end.

(** * The typed entry points *)

(** The caller's tail. *)
Definition Tail : Type := nat → Step St (Future (UserResult nat)).

(** Its contained run; its error is never taken for a normalized failure. *)
Definition run_tail (tail : Tail) (args : nat) (s : St) : Outcome nat * St :=
  match tail args s with
  | (Unwound p, s) => (Err (failure_panic (panic_message p)), s)
  | (Returned future, s) =>
      match future s with
      | (Unwound p, s) => (Err (failure_panic (panic_message p)), s)
      | (Returned (Ok output), s) => (Ok output, s)
      | (Returned (Err error), s) =>
          (Err (match ue_display error with
                | Returned diagnostic => failure_returned diagnostic
                | Unwound p => failure_panic (panic_message p)
                end), s)
      end
  end.

(** The [expect] unwinds through the continuation; it is reported as a panic. *)
(* @src crates/cordis-core/src/events/dispatch.rs 451-474 Context::waterfall_inner *)
Definition waterfall_tail (E : Event) (tail : Tail) : NextFn := λ payload s,
  match downcast (ev_args E) "Event contract guarantees waterfall tail Args type" payload s with
  | (Unwound p, s) => (Err (failure_panic (panic_message p)), s)
  | (Returned args, s) => let '(r, s) := run_tail tail args s in
      (match r with Ok output => Ok (box (ev_output E) output) | Err failure => Err failure end, s)
  end.

(** [expect] on the value that leaves a dispatch. *)
Definition unbox (T : TypeId) (p : AnyValue) : option nat := if decide (av_type p = T) then Some (av_payload p) else None.

(* @src crates/cordis-core/src/events/dispatch.rs 547-568 Context::emit *)
Definition Context_emit (E : Event) (routing : Routing) (args : nat) (s : St) : option (result unit DispatchError * St) :=
  emit membership invoke_plain E routing (box (ev_args E) args) s.

(* @src crates/cordis-core/src/events/dispatch.rs 359-369 Context::emit_parallel *)
Definition Context_emit_parallel (E : Event) (routing : Routing) (args : nat) (s : St) : option (result unit DispatchError * St) :=
  emit_parallel membership (λ l, join _ (map (λ '(cb, payload), invoke_plain cb payload) l)) E routing (box (ev_args E) args) s.

(* @src crates/cordis-core/src/events/dispatch.rs 409-417 Context::query *)
Definition Context_query (E : Event) (routing : Routing) (args : nat) (s : St) : option (result (QueryOutcome nat) DispatchError * St) :=
  '(r, s) ← query membership invoke_plain E routing (box (ev_args E) args) s;
  match r with
  | Ok (Answer p) => output ← unbox (ev_output E) p; Some (Ok (Answer output), s)
  | Ok Miss => Some (Ok Miss, s)
  | Err error => Some (Err error, s)
  end.

(* @src crates/cordis-core/src/events/dispatch.rs 538-545 Context::waterfall *)
Definition Context_waterfall (E : Event) (routing : Routing) (args : nat) (tail : Tail) (s : St) : option (result nat DispatchError * St) :=
  let '(r, s) := waterfall membership invoke_plain invoke_around E routing (box (ev_args E) args) (waterfall_tail E tail) s in
  match r with
  | Ok p => output ← unbox (ev_output E) p; Some (Ok output, s)
  | Err error => Some (Err error, s)
  end.
End listener.
Arguments factory {W C} _.
Arguments callback {W C} _ _.

(** * What the store's operations keep *)

Lemma hooks_add_subset l hook h : h ∈ hooks_iter (hooks_add l hook) → h = hook ∨ h ∈ hooks_iter l.
Proof.
  rewrite <- (compact_iter l). unfold hooks_add, hooks_iter. set (c := compact_if_sparse l). cbn.
  rewrite !list_elem_of_omap. intros (id & Hid & Hl). destruct (decide (id = hk_id hook)) as [->|Hne].
  - rewrite lookup_insert_eq in Hl. left. congruence.
  - rewrite lookup_insert_ne in Hl by done. right. exists id. split; [|done].
    destruct (hk_prepend hook); set_solver.
Qed.

Lemma hooks_remove_subset l id h : h ∈ hooks_iter (hooks_remove l id).2 → h ∈ hooks_iter l.
Proof.
  unfold hooks_remove, hooks_iter. cbn. rewrite !list_elem_of_omap. intros (id' & Hid & Hl). exists id'. split; [done|].
  by apply lookup_delete_Some in Hl as [_ ?].
Qed.

Lemma store_hooks_subset st name l l' n h :
  es_hooks st !! name = Some l → (∀ h, h ∈ hooks_iter l' → h ∈ hooks_iter l) →
  h ∈ hooks_of (store_hooks st name l') n → h ∈ hooks_of st n.
Proof.
  intros Hl Hsub. unfold hooks_of, store_hooks. cbn. destruct (hooks_is_empty l').
  - destruct (decide (n = name)) as [->|Hne]; [rewrite lookup_delete_eq; set_solver|by rewrite lookup_delete_ne].
  - destruct (decide (n = name)) as [->|Hne]; [rewrite lookup_insert_eq, Hl; apply Hsub|by rewrite lookup_insert_ne].
Qed.

Lemma bind_locked_spec E st st' :
  bind_locked E st = Ok st' →
  es_hooks st' = es_hooks st ∧ es_contracts st' !! ev_name E = Some (EventContract_of E) ∧
  ∀ n c, es_contracts st !! n = Some c → es_contracts st' !! n = Some c.
Proof.
  unfold bind_locked. destruct (es_contracts st !! ev_name E) as [bound|] eqn:Hb.
  - destruct (decide _) as [->|]; [|done]. by intros [= <-].
  - intros [= <-]. cbn. rewrite lookup_insert_eq. split_and!; [done|done|].
    intros n c Hc. rewrite lookup_insert_ne by congruence. done.
Qed.

(** * The reference: listeners that are never erased *)

Section typed.
Context {W : Type}.
Abbreviation St := (DispatchState W).
Abbreviation Outcome V := (result V InvocationFailure).

Definition asynchronous {V} (f : SyncCallback (W := W) V) : AsyncCallback V := λ ctx args, r ← f ctx args; mret (mret r).

Definition stateless {V} (f : StatefulCallback (W := W) (Context → nat → Step St V)) : Context → nat → Step St V := λ ctx args,
  state ← factory f; callback f state ctx args.

Definition stateless_around (f : StatefulCallback (W := W) AroundUser) : AroundUser := λ ctx args next,
  state ← factory f; callback f state ctx args next.

(** What a listener does, whatever the form it was written in. *)
Inductive Behaviour :=
| Observes (f : AsyncCallback (W := W) unit)
| Responds (f : AsyncCallback (W := W) (option nat))
| Maps (f : AsyncCallback (W := W) nat)
| Surrounds (f : AroundUser (W := W)).

Definition behaviour (l : Listener (W := W)) : Behaviour :=
  match l with
  | LObserverAsync f => Observes f
  | LObserverAsyncState f => Observes (stateless f)
  | LObserverSync f => Observes (asynchronous f)
  | LObserverSyncState f => Observes (asynchronous (stateless f))
  | LResponderAsync f => Responds f
  | LResponderAsyncState f => Responds (stateless f)
  | LResponderSync f => Responds (asynchronous f)
  | LResponderSyncState f => Responds (asynchronous (stateless f))
  | LMapperAsync f => Maps f
  | LMapperAsyncState f => Maps (stateless f)
  | LMapperSync f => Maps (asynchronous f)
  | LMapperSyncState f => Maps (asynchronous (stateless f))
  | LAround f => Surrounds f
  | LAroundState f => Surrounds (stateless_around f)
  end.

Context (membership : Addr) (closures : nat → HeldListener (W := W)).
Context (drop_callback : nat → Step St unit) (drop_value : AnyValue → Step St unit).
Context (join : ∀ V : Type, list (St → Outcome V * St) → St → list (Outcome V) * St).

(** A typed value in its erased form. *)
Definition erase_value (E : Event) (v : CallbackValue nat) : CallbackValue AnyValue :=
  match v with
  | ObserverValue => ObserverValue
  | ResponderValue answer => ResponderValue (box (ev_output E) <$> answer)
  | MapperValue mapped => MapperValue (box (ev_args E) mapped)
  end.

(** A contained call of a user's callback. *)
Definition contained_call {V U} (f : Step St (Step St (result V UserError))) (shape : V → U) (drop : Step St unit)
    (dv : U → Step St unit) : St → Outcome U * St :=
  invoke_and_drop_callback (fut ← f; mret (r ← fut; finish shape r)) drop dv.

Definition typed_plain (cb : nat) (args : nat) : St → Outcome (CallbackValue nat) * St :=
  let r := closures cb in
  let drop_cv v := drop_callback_value drop_value (erase_value (rl_event r) v) in
  match behaviour (rl_listener r) with
  | Observes f => contained_call (f (rl_context r) args) (λ _, ObserverValue) (drop_callback cb) drop_cv
  | Responds f => contained_call (f (rl_context r) args) ResponderValue (drop_callback cb) drop_cv
  | Maps f => contained_call (f (rl_context r) args) MapperValue (drop_callback cb) drop_cv
  | Surrounds _ => λ s, (Err (failure_panic "not a plain closure"), s)
  end.

Definition typed_around (cb : nat) (args : nat) (next : nat → St → Outcome nat * St) : St → Outcome nat * St :=
  let r := closures cb in
  match behaviour (rl_listener r) with
  | Surrounds f => contained_call (f (rl_context r) args (λ a s, let '(r, s) := next a s in (Returned r, s))) id (drop_callback cb)
                     (λ v, drop_value (box (ev_output (rl_event r)) v))
  | _ => λ s, (Err (failure_panic "not an Around closure"), s)
  end.

Definition typed_join (l : list (nat * nat)) : St → list (Outcome (CallbackValue nat)) * St :=
  join _ (map (λ '(cb, args), typed_plain cb args) l).

(** * Erasure of one call *)

Definition map_ok {A B E} (f : A → B) (r : result A E) : result B E :=
  match r with Ok a => Ok (f a) | Err e => Err e end.

Definition erased {A B} (f : A → B) (c : St → Outcome A * St) (s : St) : Outcome B * St :=
  let '(r, s) := c s in (map_ok f r, s).


Lemma invoke_settled {V} (c : Step St (Step St (Outcome V))) drop dv s :
  invoke_and_drop_callback c drop dv s =
  match settled c s with
  | (Returned r, s) => drop_callback_contained drop dv r s
  | (Unwound p, s) => drop_callback_contained drop dv (Err (failure_panic (panic_message p))) s
  end.
Proof.
  unfold invoke_and_drop_callback, settled, mbind, Step_bind. destruct (c s) as [[fut|p] s1]; [|done].
  by destruct (fut s1) as [[r|p] s2].
Qed.

(** Calls that settle alike up to the shape of the value end alike. *)
Lemma invoke_erased {A B} (shape : A → B) c c' drop (drop_a : A → Step St unit) (drop_b : B → Step St unit) s :
  (∀ a, drop_a a = drop_b (shape a)) →
  settled c' s = (let '(e, s) := settled c s in (match e with Returned r => Returned (map_ok shape r) | Unwound p => Unwound p end, s)) →
  invoke_and_drop_callback c' drop drop_b s = erased shape (invoke_and_drop_callback c drop drop_a) s.
Proof.
  intros Hd Hs. unfold erased. rewrite !invoke_settled, Hs. destruct (settled c s) as [[r|p] s1]; unfold drop_callback_contained.
  - destruct (drop s1) as [[]]; [done|]. destruct r; cbn; [rewrite Hd|done]. by destruct (drop_b _ _) as [[]].
  - by destruct (drop s1) as [[]].
Qed.

Lemma downcast_box {S} T message v : downcast (S := S) T message (box T v) = mret v.
Proof. unfold downcast. by rewrite decide_True. Qed.

Lemma finish_erased {S A B C} (f : A → B) (shape : B → C) r (s : S) :
  finish (shape ∘ f) r s =
  let '(e, s) := finish f r s in (match e with Returned r => Returned (map_ok shape r) | Unwound p => Unwound p end, s).
Proof.
  destruct r as [v|error]; [done|]. unfold finish, normalize_returned, ended, mbind, Step_bind.
  by destruct (ue_display error).
Qed.

(** A call in normal form, whose value is given [shape] after [f]. *)
Lemma settled_erased {A B C} (call : Step St (Step St (result A UserError))) (f : A → B) (shape : B → C) s :
  settled (fut ← call; mret (r ← fut; finish (shape ∘ f) r)) s =
  let '(e, s) := settled (fut ← call; mret (r ← fut; finish f r)) s in
  (match e with Returned r => Returned (map_ok shape r) | Unwound p => Unwound p end, s).
Proof.
  unfold settled, mbind, Step_bind, mret, Step_ret. destruct (call s) as [[fut|p] s1]; [|done].
  destruct (fut s1) as [[r|p] s2]; [|done]. apply finish_erased.
Qed.

(** The adapters of asynchronous and of synchronous callbacks settle as their normal
    form does. *)
Lemma async_settled {V U} (f : AsyncCallback (W := W) V) E ctx (shape : V → U) v s :
  settled (args ← downcast_args E (box (ev_args E) v); fut ← f ctx args; mret (r ← fut; finish shape r)) s =
  settled (fut ← f ctx v; mret (r ← fut; finish shape r)) s.
Proof. unfold downcast_args. by rewrite downcast_box. Qed.

Lemma sync_settled {V U} (f : SyncCallback (W := W) V) E ctx (shape : V → U) v s :
  settled (args ← downcast_args E (box (ev_args E) v); r ← f ctx args; result ← finish shape r; mret (mret result)) s =
  settled (fut ← asynchronous f ctx v; mret (r ← fut; finish shape r)) s.
Proof.
  unfold downcast_args. rewrite downcast_box. unfold settled, asynchronous, mbind, Step_bind, mret, Step_ret. cbv beta.
  destruct (f ctx v s) as [[r|p] s1]; [|done]. by destruct (finish shape r s1) as [[] s2].
Qed.

Lemma async_state_settled {V U} (f : StatefulCallback (AsyncCallback (W := W) V)) E ctx (shape : V → U) v s :
  settled (state ← factory f; args ← downcast_args E (box (ev_args E) v); fut ← callback f state ctx args; mret (r ← fut; finish shape r)) s =
  settled (fut ← stateless f ctx v; mret (r ← fut; finish shape r)) s.
Proof.
  unfold AsyncCallback, downcast_args in *. rewrite downcast_box. unfold settled, stateless, mbind, Step_bind, mret, Step_ret. cbv beta.
  destruct (factory f s) as [[state|p] s1]; [|done]. by destruct (callback f state ctx v s1) as [[]].
Qed.

Lemma sync_state_settled {V U} (f : StatefulCallback (SyncCallback (W := W) V)) E ctx (shape : V → U) v s :
  settled (state ← factory f; args ← downcast_args E (box (ev_args E) v); r ← callback f state ctx args; result ← finish shape r; mret (mret result)) s =
  settled (fut ← asynchronous (stateless f) ctx v; mret (r ← fut; finish shape r)) s.
Proof.
  unfold SyncCallback, downcast_args in *. rewrite downcast_box. unfold settled, asynchronous, stateless, mbind, Step_bind, mret, Step_ret. cbv beta.
  destruct (factory f s) as [[state|p] s1]; [|done]. destruct (callback f state ctx v s1) as [[r|p] s2]; [|done].
  by destruct (finish shape r s2) as [[] s3].
Qed.

(** ** Calls of registered listeners *)

(** The handle was erased for an Event with the types of [E]. *)
Definition erased_for (E : Event) (cb : nat) : Prop := EventContract_of (rl_event (closures cb)) = EventContract_of E.

Lemma plain_erased E cb args s :
  erased_for E cb →
  invoke_plain closures drop_callback drop_value cb (box (ev_args E) args) s = erased (erase_value E) (typed_plain cb args) s.
Proof.
  unfold erased_for, invoke_plain, typed_plain, closure. destruct (closures cb) as [l E' ctx]. cbn. intros [= Ha Ho].
  assert (erase_value E = erase_value E') as -> by (unfold erase_value; by rewrite Ha, Ho). rewrite <- Ha.
  destruct l as [f|f|f|f|f|f|f|f|f|f|f|f|f|f]; cbn; try done; (apply invoke_erased; [done|]).
  all: first [rewrite <- (settled_erased _ (λ _, ObserverValue) (erase_value E')) | rewrite <- (settled_erased _ ResponderValue (erase_value E'))
             | rewrite <- (settled_erased _ MapperValue (erase_value E'))].
  all: first [apply async_settled | apply async_state_settled | apply sync_settled | apply sync_state_settled].
Qed.

Lemma next_erased E E' (inner : NextFn (W := W)) (next : nat → St → Outcome nat * St) :
  EventContract_of E' = EventContract_of E →
  (∀ args s, inner (box (ev_args E) args) s = erased (box (ev_output E)) (next args) s) →
  Next_new E' inner = λ args s, let '(r, s) := next args s in (Returned r, s).
Proof.
  intros [= Ha Ho] Hn. apply functional_extensionality. intros args. apply functional_extensionality. intros s.
  unfold Next_new, mbind, Step_bind. rewrite Ha, Hn. unfold erased. destruct (next args s) as [[v|failure] s1]; [|done].
  cbn. by rewrite Ho, downcast_box.
Qed.

Lemma around_erased E cb args (inner : NextFn (W := W)) (next : nat → St → Outcome nat * St) s :
  erased_for E cb → (∀ args s, inner (box (ev_args E) args) s = erased (box (ev_output E)) (next args) s) →
  invoke_around closures drop_callback drop_value cb (box (ev_args E) args) inner s =
  erased (box (ev_output E)) (typed_around cb args next) s.
Proof.
  unfold erased_for, invoke_around, typed_around, closure. destruct (closures cb) as [l E' ctx]. cbn. intros Hc Hn.
  pose proof (next_erased E E' inner next Hc Hn) as Hnext. injection Hc as Ha Ho. rewrite <- Ha, <- Ho.
  destruct l as [f|f|f|f|f|f|f|f|f|f|f|f|f|f]; cbn; try done; (apply invoke_erased; [done|]).
  all: rewrite <- (settled_erased _ id (box (ev_output E'))).
  - unfold around_callback, downcast_args. by rewrite downcast_box, Hnext.
  - unfold around_callback_state, downcast_args. rewrite downcast_box, Hnext.
    unfold settled, stateless_around, mbind, Step_bind, mret, Step_ret. unfold AroundUser in *. cbv beta.
    destruct (factory f s) as [[state|p] s1]; [|done]. by destruct (callback f state ctx args _ s1) as [[]].
Qed.

(** ** Dispatches over typed hooks *)

(** The hooks of a snapshot are those of handles erased for the types of [E]. *)
Definition typed_hooks (E : Event) (hooks : list HookSnap) : Prop :=
  ∀ h, h ∈ hooks → ∃ cb, hs_kind h = hook_kind closures cb ∧ erased_for E cb.

Lemma hook_kind_plain cb role cb' : hook_kind closures cb = Plain role cb' → cb' = cb.
Proof. unfold hook_kind. destruct (closure closures cb); by intros [=]. Qed.

Lemma hook_kind_around cb cb' : hook_kind closures cb = AroundHook cb' → cb' = cb.
Proof. unfold hook_kind. destruct (closure closures cb); by intros [=]. Qed.

Lemma typed_hooks_plain E hooks h role cb :
  typed_hooks E hooks → h ∈ hooks → hs_kind h = Plain role cb → hook_kind closures cb = Plain role cb ∧ erased_for E cb.
Proof.
  intros Ht Hh Hk. destruct (Ht h Hh) as (cb' & Hk' & He). rewrite Hk in Hk'.
  pose proof (hook_kind_plain _ _ _ (eq_sym Hk')) as ->. by split.
Qed.

Lemma typed_hooks_around E hooks h cb : typed_hooks E hooks → h ∈ hooks → hs_kind h = AroundHook cb → erased_for E cb.
Proof.
  intros Ht Hh Hk. destruct (Ht h Hh) as (cb' & Hk' & He). rewrite Hk in Hk'.
  by pose proof (hook_kind_around _ _ (eq_sym Hk')) as ->.
Qed.

Lemma typed_hooks_cons E h hooks : typed_hooks E (h :: hooks) → typed_hooks E hooks.
Proof. intros Ht h' Hh. apply Ht. by right. Qed.

Lemma plain_callback_Some k role cb : plain_callback k = Some (role, cb) → k = Plain role cb.
Proof. destruct k; [by intros [= -> ->]|done]. Qed.

Lemma emit_hooks_erased E event args hooks s :
  typed_hooks E hooks →
  emit_hooks membership (invoke_plain closures drop_callback drop_value) event (box (ev_args E) args) hooks s =
  emit_hooks membership typed_plain event args hooks s.
Proof.
  revert s. induction hooks as [|h hooks IH]; intros s Ht; [done|]. cbn [emit_hooks].
  destruct (claim_hook membership event h s) as [[] s1]; cbn [negb]; [|apply IH; by eapply typed_hooks_cons].
  destruct (plain_callback (hs_kind h)) as [[role cb]|] eqn:Hp; [|done]. apply plain_callback_Some in Hp.
  destruct (typed_hooks_plain E _ h role cb Ht ltac:(by left) Hp) as [_ He].
  unfold invoke_listener. rewrite (plain_erased E cb args s1 He). unfold erased.
  destruct (typed_plain cb args s1) as [[v|failure] s2]; cbn; [|done]. apply IH. by eapply typed_hooks_cons.
Qed.

(** [join_all] is natural in the type of its outcomes. *)
Definition join_natural : Prop :=
  ∀ A B (f : A → B) (futures : list (St → Outcome A * St)) s,
    join B (map (erased f) futures) s = let '(outcomes, s) := join A futures s in (map (map_ok f) outcomes, s).

Lemma parallel_failures_erased {A B} (f : CallbackValue A → CallbackValue B) claimed outcomes :
  parallel_failures claimed (map (map_ok f) outcomes) = parallel_failures claimed outcomes.
Proof.
  revert outcomes. induction claimed as [|h claimed IH]; intros [|[v|failure] outcomes]; try done; cbn; rewrite IH; done.
Qed.

Lemma plain_callbacks_typed E hooks callbacks :
  typed_hooks E hooks → plain_callbacks hooks = Some callbacks → Forall (erased_for E) callbacks.
Proof.
  revert callbacks. induction hooks as [|h hooks IH]; intros callbacks Ht; cbn; [by intros [= <-]|].
  destruct (plain_callback (hs_kind h)) as [[role cb]|] eqn:Hp; [|done]. apply plain_callback_Some in Hp.
  destruct (plain_callbacks hooks) as [cbs|]; [|done]. intros [= <-].
  constructor; [by eapply typed_hooks_plain; [|left|]|]. apply IH; [by eapply typed_hooks_cons|done].
Qed.

Lemma join_erased E args callbacks s :
  join_natural → Forall (erased_for E) callbacks →
  join _ (map (λ '(cb, payload), invoke_plain closures drop_callback drop_value cb payload) (map (λ cb, (cb, box (ev_args E) args)) callbacks)) s =
  let '(outcomes, s) := typed_join (map (λ cb, (cb, args)) callbacks) s in (map (map_ok (erase_value E)) outcomes, s).
Proof.
  intros Hj He. unfold typed_join. rewrite <- Hj, !map_map. f_equal. apply map_ext_in. intros cb Hcb.
  apply functional_extensionality. intros s1. apply plain_erased. rewrite Forall_forall in He. by apply He, list_elem_of_In.
Qed.

Definition map_answer {A B} (f : A → B) (o : QueryOutcome A) : QueryOutcome B :=
  match o with Miss => Miss | Answer v => Answer (f v) end.

Lemma query_hooks_erased E event args hooks s :
  typed_hooks E hooks →
  query_hooks membership (invoke_plain closures drop_callback drop_value) event (box (ev_args E) args) hooks s =
  ('(r, s) ← query_hooks membership typed_plain event args hooks s; Some (map_ok (map_answer (box (ev_output E))) r, s)).
Proof.
  revert s. induction hooks as [|h hooks IH]; intros s Ht; [done|]. cbn [query_hooks].
  destruct (claim_hook membership event h s) as [[] s1]; cbn [negb]; [|apply IH; by eapply typed_hooks_cons].
  destruct (plain_callback (hs_kind h)) as [[role cb]|] eqn:Hp; [|done]. apply plain_callback_Some in Hp.
  destruct (typed_hooks_plain E _ h role cb Ht ltac:(by left) Hp) as [_ He].
  unfold invoke_listener. rewrite (plain_erased E cb args s1 He). unfold erased.
  destruct (typed_plain cb args s1) as [[v|failure] s2]; cbn; [|done].
  destruct role, v as [|[answer|]|mapped]; cbn; try done; apply IH; by eapply typed_hooks_cons.
Qed.

Lemma waterfall_layer_erased E event hooks h (inner : NextFn (W := W)) (next : nat → St → Outcome nat * St) args s :
  typed_hooks E hooks → h ∈ hooks → (∀ args s, inner (box (ev_args E) args) s = erased (box (ev_output E)) (next args) s) →
  waterfall_layer membership (invoke_plain closures drop_callback drop_value) (invoke_around closures drop_callback drop_value) event h
    inner (box (ev_args E) args) s =
  erased (box (ev_output E)) (waterfall_layer membership typed_plain typed_around event h next args) s.
Proof.
  intros Ht Hh Hn. unfold waterfall_layer, erased at 1.
  destruct (claim_hook membership event h s) as [[] s1]; cbn [negb]; [|apply Hn].
  destruct (hs_kind h) as [role cb|cb] eqn:Hk.
  - destruct (typed_hooks_plain E _ h role cb Ht Hh Hk) as [_ He].
    unfold invoke_listener. rewrite (plain_erased E cb args s1 He). unfold erased at 1.
    destruct (typed_plain cb args s1) as [[v|failure] s2]; cbn; [|done]. destruct v as [|answer|mapped]; cbn; [done..|]. apply Hn.
  - pose proof (typed_hooks_around E _ h cb Ht Hh Hk) as He.
    rewrite (around_erased E cb args _ next s1 He Hn). unfold erased.
    by destruct (typed_around _ _ _ s1) as [[v|failure] s2].
Qed.

Lemma waterfall_chain_erased E event hooks (inner : NextFn (W := W)) (tail : nat → St → Outcome nat * St) args s :
  typed_hooks E hooks → (∀ args s, inner (box (ev_args E) args) s = erased (box (ev_output E)) (tail args) s) →
  waterfall_chain membership (invoke_plain closures drop_callback drop_value) (invoke_around closures drop_callback drop_value) event hooks
    inner (box (ev_args E) args) s =
  erased (box (ev_output E)) (waterfall_chain membership typed_plain typed_around event hooks tail args) s.
Proof.
  intros Ht Htail. revert args s. induction hooks as [|h hooks IH]; intros args s; [apply Htail|].
  specialize (IH (typed_hooks_cons _ _ _ Ht)). by eapply (waterfall_layer_erased E event (h :: hooks)); [|left|].
Qed.

Lemma tail_erased E tail args s : waterfall_tail E tail (box (ev_args E) args) s = erased (box (ev_output E)) (run_tail tail args) s.
Proof. unfold waterfall_tail. rewrite downcast_box. cbn. unfold erased. by destruct (run_tail tail args s) as [[]]. Qed.

Lemma unbox_box T v : unbox T (box T v) = Some v.
Proof. unfold unbox. by rewrite decide_True. Qed.

(** ** Stores filled through the typed surface *)

(** A registration files the hook of a listener erased for the Event it is filed under. *)
Definition typed_op (op : StoreOp) : Prop :=
  match op with
  | OpAdd E hook => ∃ cb, hk_kind hook = hook_kind closures cb ∧ rl_event (closures cb) = E
  | _ => True
  end.

Definition typed_store (st : EventState) : Prop :=
  ∀ name h, h ∈ hooks_of st name → ∃ cb, hk_kind h = hook_kind closures cb ∧
    es_contracts st !! name = Some (EventContract_of (rl_event (closures cb))).

Lemma typed_store_mono st st' :
  typed_store st → (∀ n h, h ∈ hooks_of st' n → h ∈ hooks_of st n) →
  (∀ n c, es_contracts st !! n = Some c → es_contracts st' !! n = Some c) → typed_store st'.
Proof. intros Ht Hs Hc n h Hh. destruct (Ht n h (Hs n h Hh)) as (cb & Hk & Hn). exists cb. split; [done|by apply Hc]. Qed.

Lemma typed_store_step st op : typed_op op → typed_store st → typed_store (store_step st op).2.
Proof.
  intros Hop Ht. destruct op as [E hook|name id|name id|E routing operation]; cbn [store_step].
  - unfold add_reserved. destruct (bind_locked E st) as [st1|[]] eqn:Hb; [|done].
    destruct (bind_locked_spec _ _ _ Hb) as (Hh & He & Hc). destruct Hop as (cb & Hk & <-). intros n h. unfold hooks_of. cbn. rewrite Hh.
    destruct (decide (n = ev_name (rl_event (closures cb)))) as [->|Hne].
    + rewrite lookup_insert_eq. intros [->|Hin]%hooks_add_subset; [by exists cb|].
      destruct (Ht (ev_name (rl_event (closures cb))) h) as (cb' & Hk' & Hn').
      { unfold hooks_of. by destruct (es_hooks st !! _). }
      exists cb'. split; [done|]. by apply Hc.
    + rewrite lookup_insert_ne by done. intros Hin. destruct (Ht n h Hin) as (cb' & Hk' & Hn').
      exists cb'. split; [done|]. by apply Hc.
  - unfold event_remove. destruct (es_hooks st !! name) as [l|] eqn:Hl; [|done].
    pose proof (hooks_remove_subset l id) as Hsub. destruct (hooks_remove l id) as [[hook|] l']; [|done].
    eapply typed_store_mono; [done| |done]. intros n h. by apply store_hooks_subset with l.
  - unfold event_claim. destruct (es_hooks st !! name) as [l|] eqn:Hl; [|done].
    destruct (eh_entries l !! id) as [hook|]; [|done]. destruct (hk_once hook); [|done].
    eapply typed_store_mono; [done| |done]. intros n h. eapply store_hooks_subset; [done|apply hooks_remove_subset].
  - pose proof (store_preflight_cases E routing operation st) as Hp. unfold store_preflight in *.
    destruct (bind_locked E st) as [st1|[]] eqn:Hb; [|done]. destruct (bind_locked_spec _ _ _ Hb) as (Hh & He & Hc).
    destruct (es_hooks st1 !! ev_name E) as [l|]; [destruct (first_incompatible _ _)|]; destruct Hp as [Hn _];
      (eapply typed_store_mono; [done| |done]); intros n h; by rewrite Hn.
Qed.

Lemma typed_store_run ops st : Forall typed_op ops → typed_store st → typed_store (run_ops store_step st ops).2.
Proof.
  revert st. induction ops as [|op ops IH]; intros st Hops Ht; [done|]. apply Forall_cons in Hops as [Hop Hops]. cbn [run_ops].
  pose proof (typed_store_step st op Hop Ht) as H1. destruct (store_step st op) as [o st1].
  specialize (IH st1 Hops H1). by destruct (run_ops store_step st1 ops).
Qed.

Lemma typed_store_new : typed_store EventStore_new.
Proof. intros name h. unfold hooks_of. cbn. rewrite lookup_empty. set_solver. Qed.

Lemma preflight_typed E routing operation (s : St) hooks s1 :
  typed_store (ds_events s) → preflight membership E routing operation s = (Ok hooks, s1) → typed_hooks E hooks.
Proof.
  intros Ht Hp. pose proof (preflight_cases membership E routing operation s) as Hc. rewrite Hp in Hc.
  destruct Hc as (_ & _ & _ & -> & _). intros h Hh. apply list_elem_of_fmap in Hh as (hook & -> & Hh).
  apply list_elem_of_filter in Hh as [_ Hh]. destruct (Ht _ _ Hh) as (cb & Hk & Hn). exists cb. split; [done|].
  assert (∃ st', bind_locked E (ds_events s) = Ok st') as [st' Hb].
  { unfold preflight, store_preflight in Hp. destruct (bind_locked E (ds_events s)) as [st'|[]]; [by eexists|].
    destruct routing; [done|]. by destruct (scope_belongs_to _ _). }
  destruct (bind_locked_spec _ _ _ Hb) as (_ & He & Hc). apply Hc in Hn. unfold erased_for. congruence.
Qed.

(** ** Typed callbacks answer in the shape of their role *)

Definition role_of (cb : nat) : ListenerRole := match closure closures cb with PlainClosure role _ => role | AroundClosure _ => Around end.

Lemma contained_call_shape {V U} (f : Step St (Step St (result V UserError))) (shape : V → U) drop dv s v s' :
  contained_call f shape drop dv s = (Ok v, s') → ∃ a, v = shape a.
Proof.
  unfold contained_call. rewrite invoke_settled.
  assert (∀ r s1, (∀ v, r = Ok v → ∃ a, v = shape a) → drop_callback_contained drop dv r s1 = (Ok v, s') → ∃ a, v = shape a) as Hdrop.
  { intros r s1 Hr. unfold drop_callback_contained. destruct (drop s1) as [[[]|p] s2]; [intros [= -> ->]; by apply Hr|].
    destruct r as [u|failure]; [|done]. by destruct (dv u s2) as [[]]. }
  unfold settled, mbind, Step_bind, mret, Step_ret. destruct (f s) as [[fut|p] s1]; [|by apply Hdrop].
  destruct (fut s1) as [[r|p] s2]; [|by apply Hdrop]. unfold finish, normalize_returned, ended, mbind, Step_bind.
  destruct r as [a|error]; [apply Hdrop; intros ? [= <-]; by exists a|]. by destruct (ue_display error); apply Hdrop.
Qed.

Lemma typed_adapters : adapters_ok typed_plain role_of.
Proof.
  intros cb args s v s'. unfold typed_plain, role_of, closure. destruct (closures cb) as [l E ctx]. cbn.
  destruct l; cbn; try (by intros [=]); intros (a & ->)%contained_call_shape; done.
Qed.

Lemma typed_store_roles E st h role cb : typed_store st → h ∈ hooks_of st (ev_name E) → hk_kind h = Plain role cb → role_of cb = role.
Proof.
  intros Ht Hh Hk. destruct (Ht _ _ Hh) as (cb' & Hk' & _). rewrite Hk in Hk'.
  pose proof (hook_kind_plain _ _ _ (eq_sym Hk')) as ->. revert Hk'. unfold hook_kind, role_of.
  by destruct (closure closures cb'); intros [=].
Qed.
End typed.


(** * A sample bus *)

Abbreviation SampleState := (DispatchState (gmap Addr Fiber)).

Definition sample_root_fiber : Fiber := default (Fiber_new 0 "root") (Fiber_root 0).

Definition sample_context : Context :=
  {| ctx_root := 0; ctx_fiber := 0; ctx_isolate := None; ctx_scope := None; ctx_intercept := None |}.

(** Handle 1 observes, with invocation-local state; 2 answers the successor; 3 maps. *)
Definition sample_closures (cb : nat) : HeldListener (W := gmap Addr Fiber) :=
  {| rl_listener :=
       match cb with
       | 1 => LObserverSyncState {| factory := mret 0; callback := λ state ctx args, mret (Ok tt) |}
       | 2 => LResponderAsync (λ ctx args, mret (mret (Ok (Some (S args)))))
       | _ => LMapperSync (λ ctx args, mret (Ok (S args)))
       end;
     rl_event := sample_event; rl_context := sample_context |}.

Definition sample_listening : list StoreOp :=
  [OpAdd sample_event (hook_new sample_context (hook_kind sample_closures 1) {| lo_prepend := false; lo_global := false; lo_once := true |} 11);
   OpAdd sample_event (hook_new sample_context (hook_kind sample_closures 2) {| lo_prepend := false; lo_global := true; lo_once := false |} 12)].

Definition sample_bus : SampleState :=
  {| ds_events := (run_ops store_step EventStore_new sample_listening).2; ds_observations := []; ds_world := {[ 0 := sample_root_fiber ]} |}.

(** Futures driven one after the other. *)
Fixpoint join_in_order (V : Type) (futures : list (SampleState → result V InvocationFailure * SampleState)) (s : SampleState)
    : list (result V InvocationFailure) * SampleState :=
  match futures with
  | [] => ([], s)
  | future :: futures => let '(r, s) := future s in let '(rs, s) := join_in_order V futures s in (r :: rs, s)
  end.

Lemma join_in_order_natural : join_natural join_in_order.
Proof.
  intros A B f futures. induction futures as [|future futures IH]; intros s; [done|]. cbn. unfold erased at 1.
  destruct (future s) as [r s1]. rewrite IH. by destruct (join_in_order A futures s1).
Qed.

Definition no_drop {A} (_ : A) : Step SampleState unit := mret tt.

