(* ===== verification/Listening.v ===== *)
(** Listener registrations (crates/cordis-core/src/events/dispatch.rs, listener.rs,
    store.rs): the registration of a listener across the gated seam, its removal by its
    control and by the cleanup its Fiber files for it. *)
From S2P Require Import Prelude Axes BTree Contained EventStore Lifecycle Journal Observation Dispatch Plugin Fiber Listener.

(** The Fibers are part of what callbacks may touch. *)
#[export, program] Instance dispatch_fiber_store {W} `{FiberStore W} : FiberStore (DispatchState W) :=
  {| fibers := λ s, fibers (ds_world s);
     update_fiber := λ x g s, {| ds_events := ds_events s; ds_observations := ds_observations s;
                                 ds_world := update_fiber x g (ds_world s) |} |}.
Next Obligation. intros W H x g s. apply fibers_update. Qed.

(** The control of one registration: the hook as it was filed, with its Event name. *)
(* @src crates/cordis-core/src/events/listener.rs 118-124 ListenerRegistration *)
Record ListenerRegistration := {
  lr_event : string;
  lr_hook : HookSnap;
  lr_cleanup : Z;
  lr_owner : Addr;
}.

Section registration.
Context {W : Type} `{FiberStore W} (membership : Addr) (closures : nat → HeldListener (W := W)).
Abbreviation St := (DispatchState W).

(** The publish step of a registration. *)
(* @src crates/cordis-core/src/events/store.rs 272-290 HookPublish::publish *)
Definition HookPublish (E : Event) (hook : Hook) (s : St) : result unit ListenerRegistrationError * St :=
  match add_reserved E hook (ds_events s) with
  | Ok ev => (Ok tt, with_events s ev)
  | Err _ => (Err (ListenerContractMismatch (ev_name E)), s)
  end.

(** [id] is the fresh identity of the occurrence. *)
(* @src crates/cordis-core/src/events/dispatch.rs 134-197 Context::register_listener *)
Definition register_listener (cb : nat) (options : ListenerOptions) (id : ListenerRegistrationId) (s : St)
    : result ListenerRegistration ListenerRegistrationError * St :=
  let E := rl_event (closures cb) in
  let ctx := rl_context (closures cb) in
  let hook := hook_new ctx (hook_kind closures cb) options id in
  match push_gated (ctx_fiber ctx) (sync_cleanup (CleanListener (ev_name E) id)) (HookPublish E hook) s with
  | (Err (_, refusal), s) => (Err (default ListenerInactiveContext refusal), s)
  | (Ok token, s) =>
      (Ok {| lr_event := ev_name E; lr_hook := hook_snap hook; lr_cleanup := token; lr_owner := ctx_fiber ctx |},
       publish_listener_change membership Registered (ev_name E) (hook_snap hook) s)
  end.

(* @src crates/cordis-core/src/events/dispatch.rs 199-206 Context::on *)
Definition on (cb : nat) : ListenerRegistrationId → St → result ListenerRegistration ListenerRegistrationError * St :=
  register_listener cb {| lo_prepend := false; lo_global := false; lo_once := false |}.

(* @src crates/cordis-core/src/events/dispatch.rs 208-219 Context::on_with *)
Definition on_with (cb : nat) (options : ListenerOptions)
    : ListenerRegistrationId → St → result ListenerRegistration ListenerRegistrationError * St :=
  register_listener cb options.

(** What the control and the cleanup have in common. *)
(* @src crates/cordis-core/src/events/dispatch.rs 686-700 listener_cleanup *)
Definition listener_cleanup (event : string) (hook : HookSnap) (s : St) : bool * St :=
  let '(removed, ev) := event_remove (ds_events s) event (hs_id hook) in
  let s := with_events s ev in
  (removed, if removed then publish_listener_change membership Unregistered event hook s else s).

(* @src crates/cordis-core/src/events/listener.rs 126-142 ListenerRegistration::remove *)
Definition listener_remove (r : ListenerRegistration) (s : St) : bool * St :=
  let '(removed, s) := listener_cleanup (lr_event r) (lr_hook r) s in
  (removed, (claim_cleanup (lr_owner r) (lr_cleanup r) s).2).

(** * The store under a registration *)

Lemma add_reserved_lists E hook st st' seen :
  store_wf st → ids_in st seen → hk_id hook ∉ seen → add_reserved E hook st = Ok st' →
  store_wf st' ∧
  ∀ name, hooks_of st' name =
    if decide (name = ev_name E) then
      (if hk_prepend hook then hook :: hooks_of st name else hooks_of st name ++ [hook])
    else hooks_of st name.
Proof.
  intros Hwf Hids Hid Ha. pose proof (add_reserved_refines E hook st seen Hwf Hids Hid) as Hr. rewrite Ha in Hr.
  destruct Hr as (Hr & Hwf' & _). split; [done|]. intros name. rewrite <- !hooks_of_abstraction.
  cbn in Hr. destruct (rg_bind E (abstraction st)) as [r|] eqn:Hb; [|done]. apply (f_equal snd) in Hr. cbn [snd] in Hr.
  rewrite <- Hr, rg_list_store, !(rg_bind_list _ _ _ _ Hb). case_decide as Hn; [by rewrite Hn|done].
Qed.

Lemma event_remove_lists st name id h :
  store_wf st → h ∈ hooks_of st name → hk_id h = id →
  (event_remove st name id).1 = true ∧ store_wf (event_remove st name id).2 ∧
  ∀ n, hooks_of (event_remove st name id).2 n =
    if decide (n = name) then filter (λ h, hk_id h ≠ id) (hooks_of st name) else hooks_of st n.
Proof.
  intros Hwf Hh Hid. destruct (ids_in_exists st) as [seen Hseen].
  pose proof (store_step_refines st seen (OpRemove name id) Hwf Hseen ltac:(set_solver)) as Hr. cbn in Hr.
  destruct (event_remove st name id) as [b st']. destruct Hr as (Hr & Hwf' & _). cbn.
  destruct (rg_find (abstraction st) name id) as [h'|] eqn:Hf.
  - pose proof (f_equal snd Hr) as Ha. apply (f_equal fst) in Hr. cbn [fst snd] in Hr, Ha. injection Hr as <-.
    split_and!; [done|done|]. intros n. by rewrite <- !hooks_of_abstraction, <- Ha, rg_list_store.
  - exfalso. unfold rg_find in Hf. rewrite hooks_of_abstraction in Hf. apply fmap_None, list_find_None in Hf.
    rewrite Forall_forall in Hf. by apply (Hf h).
Qed.

Lemma event_remove_absent st name id :
  store_wf st → (∀ h, h ∈ hooks_of st name → hk_id h ≠ id) → event_remove st name id = (false, st).
Proof.
  intros Hwf Hn. unfold event_remove. pose proof (rg_find_spec st name id Hwf) as Hf.
  unfold rg_find in Hf. rewrite hooks_of_abstraction in Hf.
  destruct (es_hooks st !! name) as [l|]; [|done]. unfold hooks_remove.
  destruct (list_find _ _) as [[i h]|] eqn:Hl; cbn in Hf; rewrite <- Hf; [|done].
  apply list_find_Some in Hl as (Hi & Hid & _). apply list_elem_of_lookup_2 in Hi. by destruct (Hn h Hi).
Qed.

(** ** The outcome of a registration *)

Lemma register_listener_cases cb options id s seen f :
  let E := rl_event (closures cb) in
  let ctx := rl_context (closures cb) in
  let hook := hook_new ctx (hook_kind closures cb) options id in
  store_wf (ds_events s) → ids_in (ds_events s) seen → id ∉ seen → fibers s !! ctx_fiber ctx = Some f →
  match register_listener cb options id s with
  | (Ok r, s') => gate_open f ∧
      r = {| lr_event := ev_name E; lr_hook := hook_snap hook; lr_cleanup := (dl_push (f_journal f) (sync_cleanup (CleanListener (ev_name E) id))).1;
             lr_owner := ctx_fiber ctx |} ∧
      store_wf (ds_events s') ∧
      (∀ name, hooks_of (ds_events s') name =
         if decide (name = ev_name E) then
           (if lo_prepend options then hook :: hooks_of (ds_events s) name else hooks_of (ds_events s) name ++ [hook])
         else hooks_of (ds_events s) name) ∧
      ds_world s' = update_fiber (ctx_fiber ctx) (λ f, set_f_journal (dl_push (f_journal f) (sync_cleanup (CleanListener (ev_name E) id))).2 f) (ds_world s) ∧
      ds_observations s' = ds_observations (publish_listener_change membership Registered (ev_name E) (hook_snap hook) s)
  | (Err ListenerInactiveContext, s') => ¬ gate_open f ∧ s' = s
  | (Err (ListenerContractMismatch name), s') => gate_open f ∧ name = ev_name E ∧ bind_locked E (ds_events s) = Err tt ∧ s' = s
  end.
Proof.
  cbn zeta. intros Hwf Hids Hid Hf. unfold register_listener. rewrite (push_gated_spec _ _ _ s f Hf).
  destruct (decide (gate_open f)) as [Hg|Hg]; [|done]. unfold HookPublish.
  set (E := rl_event (closures cb)). set (hook := hook_new _ _ _ _).
  destruct (add_reserved E hook (ds_events s)) as [ev|[]] eqn:Ha; cbn.
  - destruct (add_reserved_lists E hook _ _ seen Hwf Hids Hid Ha) as [Hwf' Hl]. split_and!; try done.
  - split_and!; try done. unfold add_reserved in Ha. by destruct (bind_locked E (ds_events s)) as [|[]].
Qed.
End registration.

(** A fresh identity is that of no registration. *)
Lemma ids_in_fresh st seen id name h : store_wf st → ids_in st seen → id ∉ seen → h ∈ hooks_of st name → hk_id h ≠ id.
Proof.
  intros [Hwf] Hids Hid Hh Heq. unfold hooks_of in Hh. destruct (es_hooks st !! name) as [l|] eqn:Hn; [|set_solver].
  apply list_elem_of_omap in Hh as (i & Hi & Hlk). destruct (Hwf _ _ Hn) as [[_ _ Hw] _].
  apply Hid. rewrite <- Heq, (Hw _ _ Hlk). by eapply Hids.
Qed.

(** Taking out the one that was added. *)
Lemma filter_added (front : bool) (hook : Hook) l :
  (∀ h, h ∈ l → hk_id h ≠ hk_id hook) → filter (λ h, hk_id h ≠ hk_id hook) (if front then hook :: l else l ++ [hook]) = l.
Proof.
  intros Hl. pose proof (filter_all (λ h, hk_id h ≠ hk_id hook) l Hl) as Hall.
  destruct front; [by rewrite filter_cons_False by naive_solver|].
  rewrite filter_app, filter_cons_False, filter_nil, app_nil_r by naive_solver. done.
Qed.

(** Removing the entry that was pushed last. *)
Lemma dl_push_remove l c :
  journal_wf l → (dl_sn l < u64_max)%Z → dl_map (dl_remove (dl_push l c).2 (dl_push l c).1).2 = dl_map l.
Proof.
  intros Hl Hsn. destruct (dl_push_spec l c Hl Hsn) as [-> _]. cbn. destruct Hl as [_ _ Hb].
  assert (∀ k, k ∈ bt_keys (dl_map l) → k ≠ (dl_sn l + 1)%Z) as Hne by (intros k Hk; apply Hb in Hk; lia).
  clear Hb. induction (dl_map l) as [|[k v] m IH]; cbn; [by rewrite decide_True|].
  rewrite decide_False by (apply Hne; by left). f_equal. apply IH. intros k' Hk'. apply Hne. by right.
Qed.

Section roundtrip.
Context {W : Type} `{FiberStore W} (membership : Addr) (closures : nat → HeldListener (W := W)).
Abbreviation St := (DispatchState W).

(** Removing a registration that is there. *)
Lemma listener_cleanup_live event (h : Hook) (s : St) :
  store_wf (ds_events s) → h ∈ hooks_of (ds_events s) event →
  let '(removed, s') := listener_cleanup membership event (hook_snap h) s in
  removed = true ∧ store_wf (ds_events s') ∧ ds_world s' = ds_world s ∧
  ds_observations s' = ds_observations (publish_listener_change membership Unregistered event (hook_snap h) s) ∧
  ∀ n, hooks_of (ds_events s') n = if decide (n = event) then filter (λ h', hk_id h' ≠ hk_id h) (hooks_of (ds_events s) event) else hooks_of (ds_events s) n.
Proof.
  intros Hwf Hh. unfold listener_cleanup. destruct (event_remove_lists _ _ _ _ Hwf Hh eq_refl) as (Hr & Hwf' & Hl). cbn [hs_id hook_snap].
  destruct (event_remove _ _ _) as [removed ev]. cbn in Hr. subst removed. by split_and!.
Qed.

Lemma listener_cleanup_gone event (hook : HookSnap) (s : St) :
  store_wf (ds_events s) → (∀ h, h ∈ hooks_of (ds_events s) event → hk_id h ≠ hs_id hook) →
  listener_cleanup membership event hook s = (false, s).
Proof. intros Hwf Hn. unfold listener_cleanup. rewrite event_remove_absent by done. by destruct s. Qed.
End roundtrip.

(** [C26] Registering a listener either changes nothing, because the generation of its Fiber
    is closed or its Event name is bound to another contract, or adds exactly this
    occurrence; then removing it by its control answers [true] and restores every listener
    list and the journal, with one observation of each change, and from then on the
    control and the cleanup find nothing to remove. *)
Theorem listener_registration_roundtrip {W : Type} `{FiberStore W} (membership : Addr) (closures : nat → HeldListener (W := W))
    (cb : nat) (options : ListenerOptions) (id : ListenerRegistrationId) (seen : list nat) (s : DispatchState W) (f : Fiber)
    (Hwf : store_wf (ds_events s)) (Hids : ids_in (ds_events s) seen) (Hid : id ∉ seen)
    (Hf : fibers s !! ctx_fiber (rl_context (closures cb)) = Some f) (Hj : journal_wf (f_journal f)) (Hsn : (dl_sn (f_journal f) < u64_max)%Z) :
  let owner := ctx_fiber (rl_context (closures cb)) in
  let E := rl_event (closures cb) in
  match register_listener membership closures cb options id s with
  | (Err e, s1) => s1 = s ∧ (e = ListenerInactiveContext ↔ ¬ gate_open f) ∧
      (∀ name, e = ListenerContractMismatch name → name = ev_name E ∧ bind_locked E (ds_events s) = Err tt)
  | (Ok r, s1) =>
      let '(removed, s2) := listener_remove membership r s1 in
      (∀ name h, h ∈ hooks_of (ds_events s1) name ↔ h ∈ hooks_of (ds_events s) name ∨
         name = ev_name E ∧ h = hook_new (rl_context (closures cb)) (hook_kind closures cb) options id) ∧
      removed = true ∧
      (∀ name, hooks_of (ds_events s2) name = hooks_of (ds_events s) name) ∧
      (∃ f2, fibers s2 !! owner = Some f2 ∧ dl_map (f_journal f2) = dl_map (f_journal f)) ∧
      (∃ o1 o2, ds_observations s2 = o2 :: o1 :: ds_observations s) ∧
      (listener_remove membership r s2).1 = false ∧ (listener_cleanup membership (lr_event r) (lr_hook r) s2).1 = false
  end.
Proof.
  cbn zeta. pose proof (register_listener_cases membership closures cb options id s seen f Hwf Hids Hid Hf) as Hc. cbn zeta in Hc.
  destruct (register_listener membership closures cb options id s) as [[r|[|name]] s1].
  2: { destruct Hc as [Hg ->]. split_and!; done. }
  2: { destruct Hc as (Hg & -> & Hb & ->). split_and!; [done|by split; [|naive_solver]|naive_solver]. }
  destruct Hc as (Hg & -> & Hwf1 & Hl1 & Hw1 & Ho1). set (E := rl_event (closures cb)) in *.
  set (hook := hook_new _ _ _ _) in *. set (owner := ctx_fiber (rl_context (closures cb))) in *.
  assert (hook ∈ hooks_of (ds_events s1) (ev_name E)) as Hin.
  { rewrite Hl1, decide_True by done. destruct (lo_prepend options); set_solver. }
  pose proof (λ name h, ids_in_fresh _ _ id name h Hwf Hids Hid) as Hfresh.
  unfold listener_remove. cbn [lr_event lr_hook lr_cleanup lr_owner].
  pose proof (listener_cleanup_live membership (ev_name E) hook s1 Hwf1 Hin) as Hr.
  destruct (listener_cleanup membership (ev_name E) (hook_snap hook) s1) as [removed s2].
  destruct Hr as (-> & Hwf2 & Hw2 & Ho2 & Hl2).
  set (c := sync_cleanup (CleanListener (ev_name E) id)) in *. set (token := (dl_push (f_journal f) c).1).
  assert (fibers s2 !! owner = Some (set_f_journal (dl_push (f_journal f) c).2 f)) as Hf2.
  { change (fibers s2) with (fibers (ds_world s2)). rewrite Hw2, Hw1, fibers_update, lookup_alter_eq.
    change (fibers s) with (fibers (ds_world s)) in Hf. by rewrite Hf. }
  assert (∀ name, hooks_of (ds_events s2) name = hooks_of (ds_events s) name) as Hback.
  { intros name. rewrite Hl2. case_decide as Hn; [|by rewrite Hl1, decide_False]. rewrite Hl1, decide_True by done. subst name.
    apply filter_added. intros h. apply Hfresh. }
  assert (∀ s' : DispatchState W, ds_events s' = ds_events s2 → listener_cleanup membership (ev_name E) (hook_snap hook) s' = (false, s')) as Hgone.
  { intros s' He. apply listener_cleanup_gone; rewrite He; [done|]. intros h. rewrite Hback. apply Hfresh. }
  unfold claim_cleanup. rewrite Hf2. cbn [snd].
  split_and!.
  - intros name h. rewrite Hl1. case_decide as Hn; [|naive_solver]. subst name. destruct (lo_prepend options); set_solver.
  - done.
  - exact Hback.
  - change (fibers _) with (fibers (update_fiber owner (λ f, (remove_disposable f token).2) (ds_world s2))).
    rewrite fibers_update, lookup_alter_eq. change (fibers s2) with (fibers (ds_world s2)) in Hf2. rewrite Hf2.
    eexists. split; [done|]. by apply dl_push_remove.
  - eexists _, _. etrans; [exact Ho2|]. unfold publish_listener_change, observe. cbn [ds_observations]. by rewrite Ho1.
  - by rewrite Hgone.
  - by rewrite Hgone.
Qed.

Example listener_registration_roundtrip_witness :
  match register_listener 0 sample_closures 3 {| lo_prepend := true; lo_global := false; lo_once := false |} 13 sample_bus with
  | (Ok r, s1) => length (hooks_of (ds_events s1) "ping") = 3 ∧ (listener_remove 0 r s1).1 = true ∧
      ∀ name, hooks_of (ds_events (listener_remove 0 r s1).2) name = hooks_of (ds_events sample_bus) name
  | (Err _, _) => False
  end.
Proof.
  assert (store_wf (ds_events sample_bus) ∧ ids_in (ds_events sample_bus) [12; 11]) as [Hwf Hids].
  { pose proof (add_reserved_refines sample_event (hook_new sample_context (hook_kind sample_closures 1) {| lo_prepend := false; lo_global := false; lo_once := true |} 11)
      EventStore_new [] EventStore_new_wf EventStore_new_ids ltac:(set_solver)) as H1.
    destruct (add_reserved _ _ EventStore_new) as [st1|] eqn:E1; [|done]. destruct H1 as (_ & Hwf1 & Hids1).
    pose proof (add_reserved_refines sample_event (hook_new sample_context (hook_kind sample_closures 2) {| lo_prepend := false; lo_global := true; lo_once := false |} 12)
      st1 _ Hwf1 Hids1 ltac:(apply (bool_decide_unpack _); vm_compute; exact I)) as H2.
    injection E1 as <-. cbn in H2. exact (proj2 H2). }
  pose proof (listener_registration_roundtrip 0 sample_closures 3 {| lo_prepend := true; lo_global := false; lo_once := false |} 13 [12; 11]
    sample_bus sample_root_fiber Hwf Hids ltac:(apply (bool_decide_unpack _); vm_compute; exact I) eq_refl DisposableList_new_wf eq_refl) as Hr.
  cbn zeta in Hr. destruct (register_listener 0 sample_closures 3 _ 13 sample_bus) as [[r|e] s1] eqn:Hreg; [|by vm_compute in Hreg].
  split; [by injection Hreg as _ <-|]. destruct (listener_remove 0 r s1) as [removed s2]. tauto.
Defined.
