(* ===== verification/Timer.v ===== *)
(** Timer operations (crates/cordis-timer/src/shapes.rs, lib.rs): Timeout, Sleep and
    Interval, bound to a generation by a cleanup that cancels them.

    The construction is sequential.  Polling is a protocol: each load of the cancellation
    flag, registration of the waker, poll of the clock or of the caller's work, and claim
    of the cleanup is one step, and between any two of them the generation may claim and
    run the cleanup, time may pass, and the owner may be freed. *)
From S2P Require Import Prelude Axes BTree Lifecycle Journal Plugin Fiber.

(* @src crates/cordis-timer/src/lib.rs 18-32 TimerRegistrationError *)
Inductive TimerRegistrationError := InactiveContext | TimerUnavailable | ZeroPeriod | DeadlineOutOfRange.

(** * Construction *)

(** What the constructor finds: a Tokio handle, the clock, the last instant the clock
    represents, and whether arming the deadline unwinds. *)
Record TimeEnv := { te_handle : bool; te_now : Z; te_max : Z; te_arms : bool }.

(* @src crates/cordis-timer/src/shapes.rs 50-62 prepare_deadline *)
Definition prepare_deadline (env : TimeEnv) (delay : Z) : result Z TimerRegistrationError :=
  if negb (te_handle env) then Err TimerUnavailable
  else if decide (te_max env < te_now env + delay)%Z then Err DeadlineOutOfRange
  else if te_arms env then Ok (te_now env + delay)%Z else Err TimerUnavailable.

(** The first tick. *)
(* @src crates/cordis-timer/src/shapes.rs 64-78 prepare_interval *)
Definition prepare_interval (env : TimeEnv) (period : Z) : result Z TimerRegistrationError :=
  if negb (te_handle env) then Err TimerUnavailable
  else if decide (te_max env < te_now env + period)%Z then Err DeadlineOutOfRange
  else if te_arms env then Ok (te_now env + period)%Z else Err TimerUnavailable.

(** A constructed operation: its pinned deadline and the exact cleanup it raced. *)
Record TimerParts := { tp_deadline : Z; tp_cleanup : EffectRegistration }.

Section construct.
Context {W : Type} `{FiberStore W}.

(** [generation_cleanup_admitted]; a [Context] keeps its Fiber alive. *)
(* @src crates/cordis-core/src/lib.rs 65-67 generation_cleanup_admitted *)
Definition generation_cleanup_admitted (owner : Addr) (w : W) : bool :=
  match fibers w !! owner with Some f => is_ok (assert_can_register f) | None => false end.

(** [signal] is the closure that cancels the operation. *)
(* @src crates/cordis-timer/src/shapes.rs 80-89 commit_cancellation *)
Definition commit_cancellation (owner : Addr) (signal : nat) (w : W) : result EffectRegistration TimerRegistrationError * W :=
  let '(r, w) := effect_sync owner signal w in (map_err (λ _, InactiveContext) r, w).

(* @src crates/cordis-timer/src/shapes.rs 91-101 prepare_one_shot *)
Definition prepare_one_shot (env : TimeEnv) (owner : Addr) (delay : Z) (signal : nat) (w : W)
    : result TimerParts TimerRegistrationError * W :=
  if negb (generation_cleanup_admitted owner w) then (Err InactiveContext, w)
  else match prepare_deadline env delay with
       | Err e => (Err e, w)
       | Ok deadline =>
           let '(r, w) := commit_cancellation owner signal w in
           (result_bind r (λ cleanup, Ok {| tp_deadline := deadline; tp_cleanup := cleanup |}), w)
       end.

(* @src crates/cordis-timer/src/shapes.rs 129-137 TimerExt::sleep *)
Definition sleep := prepare_one_shot.

(* @src crates/cordis-timer/src/shapes.rs 110-127 TimerExt::timeout *)
Definition timeout (env : TimeEnv) (owner : Addr) (delay : Z) (signal : nat) (w : W)
    : result TimerParts TimerRegistrationError * W :=
  if negb (generation_cleanup_admitted owner w) then (Err InactiveContext, w)
  else match prepare_deadline env delay with
       | Err e => (Err e, w)
       | Ok deadline =>
           let '(r, w) := commit_cancellation owner signal w in
           (result_bind r (λ cleanup, Ok {| tp_deadline := deadline; tp_cleanup := cleanup |}), w)
       end.

(* @src crates/cordis-timer/src/shapes.rs 139-154 TimerExt::interval *)
Definition interval (env : TimeEnv) (owner : Addr) (period : Z) (signal : nat) (w : W)
    : result TimerParts TimerRegistrationError * W :=
  if decide (period = 0%Z) then (Err ZeroPeriod, w)
  else if negb (generation_cleanup_admitted owner w) then (Err InactiveContext, w)
  else match prepare_interval env period with
       | Err e => (Err e, w)
       | Ok first =>
           let '(r, w) := commit_cancellation owner signal w in
           (result_bind r (λ cleanup, Ok {| tp_deadline := first; tp_cleanup := cleanup |}), w)
       end.
End construct.

(** * Polling *)

Inductive Kind := KTimeout | KSleep | KInterval.

Section protocol.
Context {V : Type}.
Implicit Types (v : V).

(** What polling an operation answered.  [OEnd] is [Ready(None)] of the stream. *)
(* @src crates/cordis-timer/src/shapes.rs 235-241 TimeoutOutcome *)
Inductive Output := OPending | OTick | OElapsed | OCompleted (v : V) | OCancelled | OEnd.

(** What a check of the cancellation flag leads to when it is clear. *)
Inductive Next := NDeadline | NElapsed | NPending | NWorkReady (v : V) | NComplete (v : V) | NTick.

(** The position inside one poll.  [is_cancelled] loads the flag, registers the waker and
    loads the flag again. *)
Inductive Phase :=
| Idle
| Load (n : Next)
| Register (n : Next)
| Reload (n : Next)
| AtDeadline
| AtWork
| AtRecheck (v : V)
| Commit (o : Output)
| Abandon
| Dropped.

(** The cleanup occurrence in the journal: still there, taken by the operation, by the
    drain of the generation, or gone with its Fiber. *)
Inductive Fate := Armed | Disarmed | Drained | Gone.

(** The [cancel] closure, once the drain runs it: the swap, the wake, its end. *)
Inductive Canceller := NotRun | Swapped | Ran.

Record Timer := {
  tm_phase : Phase;
  tm_terminated : bool;
  tm_entry : bool;
  tm_outputs : list Output;
  tm_fate : Fate;
  tm_cancel : Canceller;
  tm_cancelled : bool;
  tm_waker : bool;
  tm_woken : bool;
  tm_now : Z;
}.

(* @src crates/cordis-timer/src/shapes.rs 248-254 GenerationCancellation::new *)
Definition Timer_new (now : Z) : Timer :=
  {| tm_phase := Idle; tm_terminated := false; tm_entry := true; tm_outputs := []; tm_fate := Armed;
     tm_cancel := NotRun; tm_cancelled := false; tm_waker := false; tm_woken := false; tm_now := now |}.

Definition goto (p : Phase) (s : Timer) : Timer :=
  {| tm_phase := p; tm_terminated := tm_terminated s; tm_entry := tm_entry s; tm_outputs := tm_outputs s; tm_fate := tm_fate s;
     tm_cancel := tm_cancel s; tm_cancelled := tm_cancelled s; tm_waker := tm_waker s; tm_woken := tm_woken s; tm_now := tm_now s |}.

(** The poll answers [o]; newest answer first. *)
Definition answer (o : Output) (terminal : bool) (s : Timer) : Timer :=
  {| tm_phase := Idle; tm_terminated := tm_terminated s || terminal; tm_entry := tm_entry s; tm_outputs := o :: tm_outputs s;
     tm_fate := tm_fate s; tm_cancel := tm_cancel s; tm_cancelled := tm_cancelled s; tm_waker := tm_waker s;
     tm_woken := tm_woken s; tm_now := tm_now s |}.

(** [EffectEntry::disarm]: the registration is used once, and claims the occurrence if it
    is still in the journal. *)
(* @src crates/cordis-timer/src/shapes.rs 162-164 EffectEntry::disarm *)
Definition disarm (s : Timer) : bool * Timer :=
  let won := tm_entry s && match tm_fate s with Armed => true | _ => false end in
  (won, {| tm_phase := tm_phase s; tm_terminated := tm_terminated s; tm_entry := false; tm_outputs := tm_outputs s;
           tm_fate := if won then Disarmed else tm_fate s; tm_cancel := tm_cancel s; tm_cancelled := tm_cancelled s;
           tm_waker := tm_waker s; tm_woken := tm_woken s; tm_now := tm_now s |}).

(* @src crates/cordis-timer/src/shapes.rs 166-174 EffectEntry::abandon *)
Definition abandon (s : Timer) : Timer := (disarm s).2.

(* @src crates/cordis-timer/src/shapes.rs 256-260 GenerationCancellation::cancel *)
Definition cancel (s : Timer) : option Timer :=
  match tm_cancel s, tm_fate s with
  | NotRun, Drained =>
      Some {| tm_phase := tm_phase s; tm_terminated := tm_terminated s; tm_entry := tm_entry s; tm_outputs := tm_outputs s;
              tm_fate := tm_fate s; tm_cancel := if tm_cancelled s then Ran else Swapped; tm_cancelled := true;
              tm_waker := tm_waker s; tm_woken := tm_woken s; tm_now := tm_now s |}
  | Swapped, _ =>
      Some {| tm_phase := tm_phase s; tm_terminated := tm_terminated s; tm_entry := tm_entry s; tm_outputs := tm_outputs s;
              tm_fate := tm_fate s; tm_cancel := Ran; tm_cancelled := tm_cancelled s;
              tm_waker := false; tm_woken := tm_woken s || tm_waker s; tm_now := tm_now s |}
  | _, _ => None
  end.

Definition register_waker (s : Timer) : Timer :=
  {| tm_phase := tm_phase s; tm_terminated := tm_terminated s; tm_entry := tm_entry s; tm_outputs := tm_outputs s;
     tm_fate := tm_fate s; tm_cancel := tm_cancel s; tm_cancelled := tm_cancelled s; tm_waker := true; tm_woken := tm_woken s; tm_now := tm_now s |}.

(** A poll consumes the wake that caused it. *)
Definition consume_wake (s : Timer) : Timer :=
  {| tm_phase := tm_phase s; tm_terminated := tm_terminated s; tm_entry := tm_entry s; tm_outputs := tm_outputs s;
     tm_fate := tm_fate s; tm_cancel := tm_cancel s; tm_cancelled := tm_cancelled s; tm_waker := tm_waker s; tm_woken := false; tm_now := tm_now s |}.

Definition set_fate (f : Fate) (s : Timer) : Timer :=
  {| tm_phase := tm_phase s; tm_terminated := tm_terminated s; tm_entry := tm_entry s; tm_outputs := tm_outputs s;
     tm_fate := f; tm_cancel := tm_cancel s; tm_cancelled := tm_cancelled s; tm_waker := tm_waker s; tm_woken := tm_woken s; tm_now := tm_now s |}.

Definition set_now (now : Z) (s : Timer) : Timer :=
  {| tm_phase := tm_phase s; tm_terminated := tm_terminated s; tm_entry := tm_entry s; tm_outputs := tm_outputs s;
     tm_fate := tm_fate s; tm_cancel := tm_cancel s; tm_cancelled := tm_cancelled s; tm_waker := tm_waker s; tm_woken := tm_woken s; tm_now := now |}.

(** [elapsed d now] is the readiness of Tokio's [Sleep] pinned at [d]. *)
Variable elapsed : Z → Z → bool.
Variable kind : Kind.
Variable deadline : Z.

(** The outcome of [AtWork], which only user code and Tokio's [Interval] decide: the work
    is ready with a value, or the tick is ready. *)
Inductive Outcome := Wait | Value (v : V) | Tick.

(** The flag is loaded, the waker registered, the flag loaded again; a set flag ends the
    poll, a clear one leads to [clear]. *)
(* @src crates/cordis-timer/src/shapes.rs 262-268 GenerationCancellation::is_cancelled *)
Definition is_cancelled (clear : Next → Timer → Timer) (s : Timer) : option Timer :=
  match tm_phase s with
  | Load n => Some (goto (if tm_cancelled s then Abandon else Register n) s)
  | Register n => Some (goto (Reload n) (register_waker s))
  | Reload n => Some (if tm_cancelled s then goto Abandon s else clear n s)
  | _ => None
  end.

(** The terminal answer [o] is committed by the exact claim of the cleanup. *)
(* @src crates/cordis-timer/src/shapes.rs 340-344 poll_timeout *)
Definition commit (o : Output) (s : Timer) : Timer :=
  let '(won, s) := disarm s in answer (if won then o else OCancelled) true s.

(** What follows a clear flag in each operation. *)
(* @src crates/cordis-timer/src/shapes.rs 335-383 poll_timeout *)
Definition timeout_next (n : Next) (s : Timer) : Timer :=
  match n with
  | NDeadline => goto AtDeadline s
  | NElapsed => goto (Commit OElapsed) s
  | NPending => answer OPending false s
  | NWorkReady v => goto (AtRecheck v) s
  | NComplete v => goto (Commit (OCompleted v)) s
  | NTick => s
  end.

(* @src crates/cordis-timer/src/shapes.rs 412-430 Sleep::poll *)
Definition sleep_next (n : Next) (s : Timer) : Timer :=
  match n with
  | NDeadline => goto AtDeadline s
  | NElapsed => goto (Commit OElapsed) s
  | NPending => answer OPending false s
  | _ => s
  end.

(* @src crates/cordis-timer/src/shapes.rs 205-230 Interval::poll_next *)
Definition interval_next (n : Next) (s : Timer) : Timer :=
  match n with
  | NDeadline => goto AtWork s
  | NPending => answer OPending false s
  | NTick => answer OTick false s
  | _ => s
  end.

(* @src crates/cordis-timer/src/shapes.rs 319-384 poll_timeout *)
Definition poll_timeout (o : Outcome) (s : Timer) : option Timer :=
  match tm_phase s with
  | Idle => Some (goto (Load NDeadline) s)
  | AtDeadline => Some (goto (if elapsed deadline (tm_now s) then Load NElapsed else AtWork) s)
  | AtWork =>
      match o with
      | Wait => Some (goto (Load NPending) s)
      | Value v => Some (goto (Load (NWorkReady v)) s)
      | Tick => None
      end
  | AtRecheck v => Some (goto (Load (if elapsed deadline (tm_now s) then NElapsed else NComplete v)) s)
  | Commit o => Some (commit o s)
  | Abandon => Some (answer OCancelled true (abandon s))
  | Dropped => None
  | _ => is_cancelled timeout_next s
  end.

(** [None] at [Idle] is the panic of a poll after completion. *)
(* @src crates/cordis-timer/src/shapes.rs 291-317 Timeout::poll *)
Definition Timeout_poll (o : Outcome) (s : Timer) : option Timer :=
  match tm_phase s with
  | Idle => if tm_terminated s then None else poll_timeout o (consume_wake s)
  | _ => poll_timeout o s
  end.

(* @src crates/cordis-timer/src/shapes.rs 402-438 Sleep::poll *)
Definition Sleep_poll (s : Timer) : option Timer :=
  match tm_phase s with
  | Idle => if tm_terminated s then None else Some (goto (Load NDeadline) (consume_wake s))
  | AtDeadline => Some (goto (Load (if elapsed deadline (tm_now s) then NElapsed else NPending)) s)
  | Commit o => Some (commit o s)
  | Abandon => Some (answer OCancelled true (abandon s))
  | AtWork | AtRecheck _ | Dropped => None
  | _ => is_cancelled sleep_next s
  end.

(* @src crates/cordis-timer/src/shapes.rs 190-232 Interval::poll_next *)
Definition Interval_poll_next (o : Outcome) (s : Timer) : option Timer :=
  match tm_phase s with
  | Idle => if tm_terminated s then Some (answer OEnd true s) else Some (goto (Load NDeadline) (consume_wake s))
  | AtWork =>
      match o with
      | Wait => Some (goto (Load NPending) s)
      | Tick => Some (goto (Load NTick) s)
      | Value _ => None
      end
  | Abandon => Some (answer OCancelled true (abandon s))
  | AtDeadline | AtRecheck _ | Commit _ | Dropped => None
  | _ => is_cancelled interval_next s
  end.

Definition poll_step (o : Outcome) (s : Timer) : option Timer :=
  match kind with KTimeout => Timeout_poll o s | KSleep => Sleep_poll s | KInterval => Interval_poll_next o s end.

(** One step of the poll in progress or of the next one; the drain of the generation takes
    the cleanup out of the journal; the cleanup runs; the owner is freed with its journal;
    time passes; the operation is dropped between two polls. *)
Inductive Event := EPoll (o : Outcome) | EDrain | ECancel | EGone | EClock (now : Z) | EDrop.

Definition step (e : Event) (s : Timer) : option Timer :=
  match e with
  | EPoll o => poll_step o s
  | EDrain => match tm_fate s with Armed => Some (set_fate Drained s) | _ => None end
  | ECancel => cancel s
  | EGone => match tm_fate s with Armed => Some (set_fate Gone s) | _ => None end
  | EClock now => if decide (tm_now s <= now)%Z then Some (set_now now s) else None
  | EDrop => match tm_phase s with Idle => Some (goto Dropped (abandon s)) | _ => None end
  end.

Fixpoint run (es : list Event) (s : Timer) : option Timer :=
  match es with [] => Some s | e :: es => step e s ≫= run es end.
End protocol.
Arguments Output V : clear implicits.
Arguments Next V : clear implicits.
Arguments Phase V : clear implicits.
Arguments Timer V : clear implicits.
Arguments Outcome V : clear implicits.
Arguments Event V : clear implicits.

(** * The invariant *)

Section invariant.
Context {V : Type} (elapsed : Z → Z → bool) (kind : Kind) (deadline : Z).
Implicit Types (s : Timer V) (o : Output V).

(** The answers that do not end an operation, and those that do. *)
Definition waits o : Prop := o = OPending ∨ o = OTick ∧ kind = KInterval.

Definition normal o : Prop := o = OElapsed ∧ kind ≠ KInterval ∨ (∃ v, o = OCompleted v) ∧ kind = KTimeout.

(** A terminal answer agrees with what became of the cleanup. *)
Definition arbitrated s o : Prop :=
  o = OCancelled ∧ (tm_fate s = Drained ∨ tm_fate s = Gone) ∨ normal o ∧ tm_fate s = Disarmed.

Definition outputs_ok s : Prop :=
  if tm_terminated s
  then ∃ n o rest, tm_outputs s = replicate n OEnd ++ o :: rest ∧ (n = 0 ∨ kind = KInterval) ∧ Forall waits rest ∧ arbitrated s o
  else Forall waits (tm_outputs s).

Definition phase_ok s : Prop :=
  match tm_phase s with
  | Idle => tm_terminated s = false → tm_entry s = true ∧ tm_fate s ≠ Disarmed
  | Dropped => True
  | p =>
      tm_terminated s = false ∧ tm_entry s = true ∧ tm_fate s ≠ Disarmed ∧
      match p with
      | Commit o => normal o
      | Abandon => tm_cancelled s = true
      | Reload _ => tm_cancel s = NotRun → tm_waker s = true
      | _ => True
      end ∧
      match p with
      | Load n | Register n | Reload n =>
          match n with
          | NElapsed => kind ≠ KInterval
          | NWorkReady _ | NComplete _ => kind = KTimeout
          | NTick => kind = KInterval
          | _ => True
          end
      | AtRecheck _ => kind = KTimeout
      | AtDeadline => kind ≠ KInterval
      | _ => True
      end
  end.

(** Between two polls the pending operation has its waker registered or is woken. *)
Definition parked_ok s : Prop :=
  tm_phase s = Idle → head (tm_outputs s) = Some OPending →
  match tm_cancel s with NotRun | Swapped => tm_waker s = true | Ran => tm_woken s = true end.

Record timer_ok s : Prop := {
  to_cancelled : tm_cancelled s = true ↔ tm_cancel s ≠ NotRun;
  to_drained : tm_cancelled s = true → tm_fate s = Drained;
  to_phase : phase_ok s;
  to_outputs : outputs_ok s;
  to_parked : parked_ok s;
}.

Lemma Timer_new_ok now : timer_ok (Timer_new now).
Proof. by split; cbn. Qed.

(** Moving inside a poll. *)
Lemma tm_goto_ok p s :
  timer_ok s → tm_terminated s = false → p ≠ Idle → phase_ok (goto p s) → timer_ok (goto p s).
Proof. intros [Hc Hd Hp Ho Hk] Ht Hne Hph. split; try done. by intros ?. Qed.

(** Inside a poll the operation is live. *)
Lemma in_poll s :
  timer_ok s → tm_phase s ≠ Idle → tm_phase s ≠ Dropped →
  tm_terminated s = false ∧ tm_entry s = true ∧ tm_fate s ≠ Disarmed ∧ Forall waits (tm_outputs s).
Proof.
  intros [Hc Hd Hp Ho Hk] H1 H2. unfold phase_ok in Hp. unfold outputs_ok in Ho.
  destruct (tm_phase s); try done; destruct Hp as (Ht & He & Hf & _); by rewrite Ht in Ho.
Qed.

Lemma answer_wait_ok o s :
  timer_ok s → tm_phase s ≠ Idle → tm_phase s ≠ Dropped → waits o →
  (o = OPending → match tm_cancel s with NotRun | Swapped => tm_waker s = true | Ran => tm_woken s = true end) →
  timer_ok (answer o false s).
Proof.
  intros Hok H1 H2 Hw Hpk. destruct (in_poll s Hok H1 H2) as (Ht & He & Hf & Ho). destruct Hok as [Hc Hd Hp _ Hk].
  split; [done|done| | |].
  - unfold phase_ok. cbn. by rewrite Ht.
  - unfold outputs_ok. cbn. rewrite Ht. by constructor.
  - intros _ [= ->]. by apply Hpk.
Qed.

Lemma commit_ok o s : timer_ok s → tm_phase s = Commit o → timer_ok (commit o s).
Proof.
  intros Hok Hph. destruct (in_poll s Hok) as (Ht & He & Hf & Ho); [by rewrite Hph..|].
  destruct Hok as [Hc Hd Hp _ Hk]. unfold phase_ok in Hp. rewrite Hph in Hp. destruct Hp as (_ & _ & _ & Hn & _).
  unfold commit, disarm. rewrite He. cbn.
  assert (tm_fate s = Armed → tm_cancelled s = false) as Harm.
  { intros Ha. destruct (tm_cancelled s); [|done]. specialize (Hd eq_refl). congruence. }
  split; cbn; try done.
  - intros Hcc. destruct (tm_fate s) eqn:Hfate; cbn; try done; specialize (Hd Hcc); congruence.
  - unfold phase_ok. cbn. by rewrite Ht.
  - unfold outputs_ok. cbn. rewrite Ht. cbn. eexists 0, _, _. split_and!; [done|by left|done|]. unfold arbitrated. cbn.
    destruct (tm_fate s); cbn; [by right|done|left; auto..].
  - intros _ [= Heq]. destruct (tm_fate s); cbn in Heq; try done. subst o. destruct Hn as [[? _]|[[? ?] _]]; done.
Qed.

Lemma abandon_ok s : timer_ok s → tm_phase s = Abandon → timer_ok (answer OCancelled true (abandon s)).
Proof.
  intros Hok Hph. destruct (in_poll s Hok) as (Ht & He & Hf & Ho); [by rewrite Hph..|].
  destruct Hok as [Hc Hd Hp _ Hk]. unfold phase_ok in Hp. rewrite Hph in Hp. destruct Hp as (_ & _ & _ & Hcc & _).
  specialize (Hd Hcc). unfold abandon, disarm. rewrite He, Hd. cbn. split; cbn; try done.
  - unfold phase_ok. cbn. by rewrite Ht.
  - unfold outputs_ok. cbn. rewrite Ht. cbn. eexists 0, _, _. split_and!; [done|by left|done|]. by left; auto.
Qed.

(** The flag checks, whatever a clear flag leads to. *)
Lemma is_cancelled_ok clear s s' :
  timer_ok s →
  (∀ n, tm_phase s = Reload n → tm_cancelled s = false → timer_ok (clear n s)) →
  is_cancelled clear s = Some s' → timer_ok s'.
Proof.
  intros Hok Hclear. unfold is_cancelled.
  destruct (tm_phase s) as [|n|n|n| | | | | |] eqn:Hph; try done; intros [= <-];
    (destruct (in_poll s Hok) as (Ht & He & Hf & Ho); [by rewrite Hph..|]);
    pose proof (to_phase s Hok) as Hp; unfold phase_ok in Hp; rewrite Hph in Hp; destruct Hp as (_ & _ & _ & Hx & Hn).
  - apply tm_goto_ok; [done|done|by destruct (tm_cancelled s)|]. unfold phase_ok. cbn.
    destruct (tm_cancelled s) eqn:Hcc; cbn; by split_and!.
  - destruct Hok as [Hc Hd Hp Hout Hk]. split; [done|done| |done|by intros ?]. unfold phase_ok. cbn. by split_and!.
  - destruct (tm_cancelled s) eqn:Hcc; [|by apply Hclear]. apply tm_goto_ok; try done; unfold phase_ok; cbn; by split_and!.
Qed.

Lemma tm_start_ok s : timer_ok s → tm_phase s = Idle → tm_terminated s = false → timer_ok (goto (Load NDeadline) (consume_wake s)).
Proof.
  intros [Hc Hd Hp Ho Hk] Hph Ht. unfold phase_ok in Hp. rewrite Hph in Hp. destruct (Hp Ht) as [He Hf].
  split; try done; unfold phase_ok; cbn; by split_and!.
Qed.

(** The pending answer, right after a clear reload. *)
Lemma pending_ok s n : timer_ok s → tm_phase s = Reload n → tm_cancelled s = false → timer_ok (answer OPending false s).
Proof.
  intros Hok Hph Hcc. pose proof (to_phase s Hok) as Hp. unfold phase_ok in Hp. rewrite Hph in Hp. destruct Hp as (_ & _ & _ & Hw & _).
  apply answer_wait_ok; rewrite ?Hph; try done; [by left|]. intros _.
  assert (tm_cancel s = NotRun) as Hnr; [|rewrite Hnr; auto].
  destruct (tm_cancel s) eqn:E; [done|exfalso..]; apply (eq_true_false_abs _ (proj2 (to_cancelled s Hok) ltac:(by rewrite E)) Hcc).
Qed.

(** The facts of a position inside a poll. *)
Ltac inside s Hok Hph :=
  let Ht := fresh "Ht" in let He := fresh "He" in let Hf := fresh "Hf" in let Ho := fresh "Ho" in
  destruct (in_poll s Hok) as (Ht & He & Hf & Ho); [by rewrite Hph..|];
  let Hp := fresh "Hp" in pose proof (to_phase s Hok) as Hp; unfold phase_ok in Hp; rewrite Hph in Hp;
  destruct Hp as (_ & _ & _ & ?Hx & ?Hn).

(** Moving to a position without an obligation of its own. *)
Ltac move_on := apply tm_goto_ok; [done|done|done|]; unfold phase_ok; cbn; split_and!; done || congruence.

Lemma timeout_next_ok n s :
  kind = KTimeout → timer_ok s → tm_phase s = Reload n → tm_cancelled s = false → timer_ok (timeout_next n s).
Proof.
  intros Hkind Hok Hph Hcc. inside s Hok Hph. destruct n; cbn; [move_on| |by eapply pending_ok|move_on| |done].
  - apply tm_goto_ok; try done. unfold phase_ok. cbn. split_and!; try done. by left.
  - apply tm_goto_ok; try done. unfold phase_ok. cbn. split_and!; try done. right. eauto.
Qed.

Lemma sleep_next_ok n s :
  kind = KSleep → timer_ok s → tm_phase s = Reload n → tm_cancelled s = false → timer_ok (sleep_next n s).
Proof.
  intros Hkind Hok Hph Hcc. inside s Hok Hph. destruct n; cbn; try done; [move_on| |by eapply pending_ok].
  apply tm_goto_ok; try done. unfold phase_ok. cbn. split_and!; try done. by left.
Qed.

Lemma interval_next_ok n s :
  kind = KInterval → timer_ok s → tm_phase s = Reload n → tm_cancelled s = false → timer_ok (interval_next n s).
Proof.
  intros Hkind Hok Hph Hcc. inside s Hok Hph. destruct n; cbn; try done; [move_on|by eapply pending_ok|].
  apply answer_wait_ok; rewrite ?Hph; try done. by right.
Qed.

Lemma end_ok s : kind = KInterval → timer_ok s → tm_phase s = Idle → tm_terminated s = true → timer_ok (answer OEnd true s).
Proof.
  intros Hkind [Hc Hd Hp Ho Hk] Hph Ht. split; try done; unfold phase_ok, outputs_ok in *; cbn in *; rewrite ?Ht in *; [done|].
  destruct Ho as (n & o & rest & Hout & _ & Hw & Ha). exists (S n), o, rest. cbn. rewrite Hout. split_and!; try done. by right.
Qed.

Lemma poll_timeout_ok (w : Outcome V) s s' :
  kind = KTimeout → timer_ok s → tm_phase s ≠ Idle → poll_timeout elapsed deadline w s = Some s' → timer_ok s'.
Proof.
  intros Hkind Hok Hni. unfold poll_timeout. destruct (tm_phase s) as [|n|n|n| | |v|o'| |] eqn:Hph; try done.
  1, 2, 3: apply is_cancelled_ok; [done|]; intros ???; by apply timeout_next_ok.
  - intros [= <-]. inside s Hok Hph. destruct (elapsed _ _); move_on.
  - destruct w; intros; simplify_eq; inside s Hok Hph; move_on.
  - intros [= <-]. inside s Hok Hph. destruct (elapsed _ _); move_on.
  - intros [= <-]. by apply commit_ok.
  - intros [= <-]. by apply abandon_ok.
Qed.

Lemma Sleep_poll_ok s s' : kind = KSleep → timer_ok s → Sleep_poll elapsed deadline s = Some s' → timer_ok s'.
Proof.
  intros Hkind Hok. unfold Sleep_poll. destruct (tm_phase s) as [|n|n|n| | |v|o'| |] eqn:Hph; try done.
  2, 3, 4: apply is_cancelled_ok; [done|]; intros ???; by apply sleep_next_ok.
  - destruct (tm_terminated s) eqn:Ht; [done|]. intros [= <-]. by apply tm_start_ok.
  - intros [= <-]. inside s Hok Hph. destruct (elapsed _ _); move_on.
  - intros [= <-]. by apply commit_ok.
  - intros [= <-]. by apply abandon_ok.
Qed.

Lemma Interval_poll_next_ok (w : Outcome V) s s' : kind = KInterval → timer_ok s → Interval_poll_next w s = Some s' → timer_ok s'.
Proof.
  intros Hkind Hok. unfold Interval_poll_next. destruct (tm_phase s) as [|n|n|n| | |v|o'| |] eqn:Hph; try done.
  2, 3, 4: apply is_cancelled_ok; [done|]; intros ???; by apply interval_next_ok.
  - destruct (tm_terminated s) eqn:Ht; intros [= <-]; [by apply end_ok|by apply tm_start_ok].
  - destruct w; intros; simplify_eq; inside s Hok Hph; move_on.
  - intros [= <-]. by apply abandon_ok.
Qed.

Lemma poll_step_ok (w : Outcome V) s s' : timer_ok s → poll_step elapsed kind deadline w s = Some s' → timer_ok s'.
Proof.
  intros Hok. unfold poll_step. destruct kind eqn:Hkind.
  - unfold Timeout_poll. destruct (tm_phase s) eqn:Hph; [destruct (tm_terminated s) eqn:Ht; [done|]|..];
      try (apply poll_timeout_ok; [done|done|by rewrite Hph]).
    unfold poll_timeout. cbn. rewrite Hph. intros [= <-]. by apply tm_start_ok.
  - by apply Sleep_poll_ok.
  - by apply Interval_poll_next_ok.
Qed.

(** The generation claims the cleanup only while it is in the journal. *)
Lemma set_fate_ok f s : timer_ok s → tm_fate s = Armed → f = Drained ∨ f = Gone → timer_ok (set_fate f s).
Proof.
  intros [Hc Hd Hp Ho Hk] Ha Hf. split; cbn; try done.
  - intros Hcc%Hd. congruence.
  - unfold phase_ok in *. cbn. rewrite Ha in Hp. destruct (tm_phase s); naive_solver.
  - unfold outputs_ok, arbitrated in *. cbn. rewrite Ha in Ho. destruct (tm_terminated s); [|done].
    destruct Ho as (n & o & rest & Hout & Hn & Hw & Har). exists n, o, rest. naive_solver.
Qed.

Lemma cancel_ok s s' : timer_ok s → cancel s = Some s' → timer_ok s'.
Proof.
  intros [Hc Hd Hp Ho Hk]. unfold cancel.
  destruct (tm_cancel s) eqn:Hcan; [destruct (tm_fate s) eqn:Hfate; try done| |done]; intros [= <-].
  - assert (tm_cancelled s = false) as Hcc by (destruct (tm_cancelled s); [|done]; by destruct (proj1 Hc eq_refl)).
    split; cbn; rewrite ?Hcc; try done; unfold phase_ok, outputs_ok, parked_ok, arbitrated in *; cbn; rewrite ?Hcan in *; try done.
    + destruct (tm_phase s); naive_solver.
    + by rewrite Hfate in Ho.
  - assert (tm_cancelled s = true) as Hcc by by apply Hc.
    split; cbn; try done; unfold phase_ok, outputs_ok, parked_ok in *; cbn; rewrite ?Hcan in *; try done.
    + destruct (tm_phase s); naive_solver.
    + intros H1 H2. rewrite (Hk H1 H2). by rewrite orb_true_r.
Qed.

Lemma tm_step_ok e s s' : timer_ok s → step elapsed kind deadline e s = Some s' → timer_ok s'.
Proof.
  intros Hok. destruct e as [w| | | |now|]; cbn [step].
  - by apply poll_step_ok.
  - destruct (tm_fate s) eqn:Hf; try done. intros [= <-]. apply set_fate_ok; auto.
  - by apply cancel_ok.
  - destruct (tm_fate s) eqn:Hf; try done. intros [= <-]. apply set_fate_ok; auto.
  - case_decide; [|done]. intros [= <-]. by destruct Hok.
  - destruct (tm_phase s) eqn:Hph; try done. intros [= <-]. destruct Hok as [Hc Hd Hp Ho Hk].
    unfold phase_ok in Hp. rewrite Hph in Hp.
    split; cbn; try done.
    + intros Hcc. rewrite (Hd Hcc). by rewrite andb_false_r.
    + unfold outputs_ok, arbitrated in *. cbn. destruct (tm_terminated s); [|done].
      destruct Ho as (n & o & rest & Hout & Hn & Hw & Har). exists n, o, rest. split_and!; try done.
      destruct (tm_entry s); cbn; [|done]. destruct (tm_fate s); naive_solver.
Qed.

Lemma timer_run_ok es s s' : timer_ok s → run elapsed kind deadline es s = Some s' → timer_ok s'.
Proof.
  revert s. induction es as [|e es IH]; intros s Hok Hr; cbn in Hr; [by injection Hr as <-|].
  destruct (step _ _ _ e s) as [s1|] eqn:Hs; [|done]. eapply IH; [by eapply tm_step_ok|done].
Qed.
End invariant.

(** * Properties *)

Definition is_terminal {V} (o : Output V) : bool :=
  match o with OElapsed | OCompleted _ | OCancelled => true | _ => false end.

(** [C20] A timer operation and its generation arbitrate exactly once: whatever happens
    between the steps of a poll, an operation gives at most one terminal answer; a normal
    one (elapsed or completed) was won by taking its own cleanup out of the journal, so the
    generation never cancels it; a cancellation is answered only when the cleanup was taken
    by the drain of the generation or went with the owner. *)
Theorem timer_arbitration {V} elapsed kind deadline now es (s : Timer V) :
  run elapsed kind deadline es (Timer_new now) = Some s →
  length (filter is_terminal (tm_outputs s)) ≤ 1 ∧
  (∀ o, o ∈ tm_outputs s → o = OElapsed ∨ (∃ v, o = OCompleted v) →
     tm_fate s = Disarmed ∧ tm_cancelled s = false ∧ tm_cancel s = NotRun) ∧
  (OCancelled ∈ tm_outputs s → tm_fate s = Drained ∨ tm_fate s = Gone).
Proof.
  intros Hr. assert (timer_ok kind s) as Hok by (eapply timer_run_ok; [apply Timer_new_ok|done]).
  assert (∀ l : list (Output V), Forall (waits kind) l → filter is_terminal l = [] ∧ ∀ o, o ∈ l → is_terminal o = false) as Hw.
  { intros l Hl. assert (∀ o, o ∈ l → is_terminal o = false) as H.
    { intros o Hin. rewrite Forall_forall in Hl. by destruct (Hl o Hin) as [->|[-> _]]. }
    split; [|done]. apply filter_nothing. intros o Hin. rewrite (H o Hin). by intros []. }
  assert (∀ n, filter is_terminal (replicate n OEnd) =@{list (Output V)} []) as Hend.
  { intros n. apply filter_nothing. intros o [-> _]%elem_of_replicate. by intros []. }
  pose proof (to_outputs _ _ Hok) as Ho. unfold outputs_ok in Ho. destruct (tm_terminated s).
  - destruct Ho as (n & o & rest & -> & _ & [Hrest Hall]%Hw & Harb).
    assert (∀ o', o' ∈ replicate n OEnd ++ o :: rest → is_terminal o' = true → o' = o) as Hone.
    { intros o' Hin Ht. apply elem_of_app in Hin as [[-> _]%elem_of_replicate|[->|Hin]%elem_of_cons]; [done|done|].
      by rewrite (Hall _ Hin) in Ht. }
    split_and!.
    + rewrite filter_app, Hend, filter_cons, Hrest. case_decide; cbn; lia.
    + intros o' Hin Ho'. assert (o' = o) as -> by (apply Hone; [done|by destruct Ho' as [->|[v ->]]]).
      destruct Harb as [[-> _]|[_ Hf]]; [by destruct Ho' as [?|[? ?]]|]. split; [done|].
      assert (tm_cancelled s = false) as Hcc.
      { destruct (tm_cancelled s) eqn:E; [|done]. pose proof (to_drained _ _ Hok E). congruence. }
      split; [done|]. destruct (tm_cancel s) eqn:E; [done|..];
        exfalso; apply (eq_true_false_abs _ (proj2 (to_cancelled _ _ Hok) ltac:(by rewrite E)) Hcc).
    + intros Hin. assert (OCancelled = o) as <- by by apply Hone.
      destruct Harb as [[_ ?]|[Hn _]]; [done|]. by destruct Hn as [[? _]|[[? ?] _]].
  - destruct (Hw _ Ho) as [Hf Hall]. rewrite Hf. split_and!; [cbn; lia| |].
    + intros o Hin Ho'. specialize (Hall o Hin). by destruct Ho' as [->|[v ->]].
    + intros Hin. by specialize (Hall _ Hin).
Qed.

(** The drain takes the cleanup after the deadline elapsed and before the operation
    commits: the operation answers that it was cancelled. *)
Definition at_least (d now : Z) : bool := bool_decide (d <= now)%Z.
Definition sample_race : list (Event nat) :=
  [EPoll Wait; EPoll Wait; EPoll Wait; EPoll Wait; EClock 10; EDrain; EPoll Wait; EPoll Wait; EPoll Wait; EPoll Wait; EPoll Wait].
Definition sample_race_state : Timer nat := default (Timer_new 0) (run at_least KSleep 10 sample_race (Timer_new 0)).

Lemma timer_arbitration_witness :
  tm_outputs sample_race_state = [OCancelled] ∧ (tm_fate sample_race_state = Drained ∨ tm_fate sample_race_state = Gone).
Proof.
  split; [by vm_compute|].
  apply (timer_arbitration at_least KSleep 10 0 sample_race sample_race_state); [by vm_compute|]. by vm_compute; left.
Defined.

(** ** A parked operation learns of its cancellation *)

(** [C21] No cancellation is missed: an operation whose last poll answered Pending, and
    whose cleanup the generation has taken since, is woken by the time the cleanup has run,
    and the poll it is woken for answers that it was cancelled. *)
Theorem cancellation_is_delivered {V} elapsed kind deadline now es (s : Timer V) w :
  run elapsed kind deadline es (Timer_new now) = Some s →
  tm_phase s = Idle → head (tm_outputs s) = Some OPending → tm_fate s = Drained →
  ∃ n s1 s2, n ≤ 2 ∧ run elapsed kind deadline (replicate n ECancel) s = Some s1 ∧
    tm_cancel s1 = Ran ∧ tm_woken s1 = true ∧
    run elapsed kind deadline [EPoll w; EPoll w; EPoll w] s1 = Some s2 ∧ tm_outputs s2 = OCancelled :: tm_outputs s.
Proof.
  intros Hr Hph Hhd Hf. assert (timer_ok kind s) as Hok by (eapply timer_run_ok; [apply Timer_new_ok|done]).
  assert (tm_terminated s = false) as Ht.
  { pose proof (to_outputs _ _ Hok) as Ho. unfold outputs_ok in Ho. destruct (tm_terminated s); [|done].
    destruct Ho as ([|n] & o & rest & Hout & _ & _ & Harb); rewrite Hout in Hhd; [|done]. injection Hhd as ->.
    destruct Harb as [[? _]|[[[? _]|[[? ?] _]] _]]; done. }
  assert (∃ n s1, n ≤ 2 ∧ run elapsed kind deadline (replicate n ECancel) s = Some s1 ∧ tm_cancel s1 = Ran ∧
    tm_woken s1 = true ∧ tm_cancelled s1 = true ∧ tm_phase s1 = Idle ∧ tm_terminated s1 = false ∧ tm_outputs s1 = tm_outputs s)
    as (n & s1 & Hn & Hrun & Hran & Hwk & Hcc & Hph1 & Ht1 & Ho1).
  { pose proof (to_parked _ _ Hok Hph Hhd) as Hpk. pose proof (to_cancelled _ _ Hok) as Hcc.
    destruct (tm_cancel s) eqn:Hcan.
    - assert (tm_cancelled s = false) as Hc0 by (destruct (tm_cancelled s); [by destruct (proj1 Hcc eq_refl)|done]).
      eexists 2, _. split; [lia|]. cbn. unfold cancel. rewrite Hcan, Hf. cbn. rewrite Hc0. cbn.
      split; [done|]. cbn. rewrite Hpk, orb_true_r. done.
    - eexists 1, _. split; [lia|]. cbn. unfold cancel. rewrite Hcan. cbn. split; [done|]. cbn.
      rewrite Hpk, orb_true_r. split_and!; try done. by apply Hcc.
    - exists 0, s. split_and!; try done; [lia|by apply Hcc]. }
  exists n, s1. eexists. split_and!; try done.
  - cbn. unfold poll_step, Timeout_poll, poll_timeout, Sleep_poll, Interval_poll_next, is_cancelled.
    destruct kind; cbn; rewrite Hph1, ?Ht1; cbn; rewrite ?Hph1; cbn; rewrite Hcc; cbn; done.
  - cbn. by rewrite Ho1.
Qed.

Definition sample_parked : list (Event nat) := replicate 9 (EPoll Wait) ++ [EDrain].
Definition sample_parked_state : Timer nat := default (Timer_new 0) (run at_least KTimeout 10 sample_parked (Timer_new 0)).

Lemma cancellation_is_delivered_witness :
  ∃ n s1 s2, n ≤ 2 ∧ run at_least KTimeout 10 (replicate n ECancel) sample_parked_state = Some s1 ∧
    tm_cancel s1 = Ran ∧ tm_woken s1 = true ∧
    run at_least KTimeout 10 [EPoll (Value 7); EPoll (Value 7); EPoll (Value 7)] s1 = Some s2 ∧
    tm_outputs s2 = OCancelled :: tm_outputs sample_parked_state.
Proof.
  apply (cancellation_is_delivered at_least KTimeout 10 0 sample_parked sample_parked_state (Value 7)); by vm_compute.
Defined.

(** ** The deadline wins *)

Section deadline_wins.
Context {V : Type} (elapsed : Z → Z → bool) (deadline : Z).
(** A deadline that has elapsed stays elapsed. *)
Hypothesis elapsed_stays : ∀ now now', (now <= now')%Z → elapsed deadline now = true → elapsed deadline now' = true.

(** Past the recheck of the deadline. *)
Definition rechecked (s : Timer V) : bool :=
  match tm_phase s with
  | Load (NComplete _) | Register (NComplete _) | Reload (NComplete _) | Commit (OCompleted _) => true
  | _ => false
  end.

Definition lost (s : Timer V) : Prop :=
  elapsed deadline (tm_now s) = true ∧ rechecked s = false ∧ ∀ v, OCompleted v ∉ tm_outputs s.

Lemma lost_poll w s s' : lost s → Timeout_poll elapsed deadline w s = Some s' → lost s'.
Proof.
  intros (He & Hr & Ho). unfold Timeout_poll, poll_timeout, is_cancelled, lost, rechecked in *. cbn [tm_phase consume_wake].
  assert (∀ o (l : list (Output V)), (∀ v, o ≠ OCompleted v) → (∀ v, OCompleted v ∉ l) → ∀ v, OCompleted v ∉ o :: l) as Hcons.
  { intros o l H1 H2 v [Heq|Hin]%elem_of_cons; [by apply (H1 v)|by apply (H2 v)]. }
  destruct (tm_phase s) as [|n|n|n| | |v|o| |] eqn:Hph; cbn.
  - destruct (tm_terminated s); [done|]. by intros [= <-].
  - intros [= <-]. split; [done|]. split; [|done]. destruct (tm_cancelled s), n; done.
  - intros [= <-]. split; [done|]. split; [|done]. by destruct n.
  - intros [= <-]. destruct (tm_cancelled s); [done|]. destruct n; cbn; try done; [|by rewrite Hph].
    split; [done|]. split; [done|]. by apply Hcons.
  - rewrite He. by intros [= <-].
  - destruct w; intros; simplify_eq; by split.
  - rewrite He. by intros [= <-].
  - intros [= <-]. unfold commit, disarm. cbn. split; [done|]. split; [done|]. apply Hcons; [|done].
    intros v. destruct o; try done; by destruct (_ && _).
  - intros [= <-]. cbn. split; [done|]. split; [done|]. by apply Hcons.
  - done.
Qed.

Lemma lost_step e s s' : lost s → step elapsed KTimeout deadline e s = Some s' → lost s'.
Proof.
  intros Hl. destruct e as [w| | | |now|]; cbn [step].
  - by apply lost_poll.
  - destruct (tm_fate s); try done. by intros [= <-].
  - unfold cancel. destruct (tm_cancel s), (tm_fate s); try done; by intros [= <-].
  - destruct (tm_fate s); try done. by intros [= <-].
  - case_decide; [|done]. intros [= <-]. destruct Hl as (He & Hr & Ho). split; [|done]. cbn. by eapply elapsed_stays.
  - unfold lost, rechecked in *. destruct (tm_phase s); try done. intros [= <-]. by destruct Hl as (? & _ & ?).
Qed.

(** Work does not beat a deadline it missed: once the deadline has elapsed before the
    recheck that follows the work's readiness, a Timeout never completes, whatever the work
    answers and whatever happens afterwards. *)
Theorem deadline_beats_work now es0 es (s s' : Timer V) :
  run elapsed KTimeout deadline es0 (Timer_new now) = Some s →
  elapsed deadline (tm_now s) = true → rechecked s = false → tm_terminated s = false →
  run elapsed KTimeout deadline es s = Some s' → ∀ v, OCompleted v ∉ tm_outputs s'.
Proof.
  intros Hr0 He Hr Ht Hrun. assert (timer_ok KTimeout s) as Hok by (eapply timer_run_ok; [apply Timer_new_ok|done]).
  assert (lost s) as Hl.
  { split_and!; try done. pose proof (to_outputs _ _ Hok) as Ho. unfold outputs_ok in Ho. rewrite Ht in Ho.
    intros v Hin. rewrite Forall_forall in Ho. by destruct (Ho _ Hin) as [?|[? _]]. }
  clear He Hr Ht Hok Hr0. revert s Hl Hrun. induction es as [|e es IH]; intros s Hl Hrun; cbn in Hrun.
  - injection Hrun as <-. apply Hl.
  - destruct (step _ _ _ e s) as [s1|] eqn:Hs; [|done]. cbn in Hrun. apply (IH s1); [by eapply lost_step|done].
Qed.
End deadline_wins.

(** The deadline passes while the work is being polled. *)
Definition sample_boundary : list (Event nat) := replicate 5 (EPoll Wait) ++ [EClock 10; EPoll (Value 7)].
Definition sample_boundary_state : Timer nat := default (Timer_new 0) (run at_least KTimeout 10 sample_boundary (Timer_new 0)).
Definition sample_late_state : Timer nat :=
  default (Timer_new 0) (run at_least KTimeout 10 (replicate 8 (EPoll Wait)) sample_boundary_state).

Lemma deadline_beats_work_witness : head (tm_outputs sample_late_state) = Some OElapsed ∧ ∀ v, OCompleted v ∉ tm_outputs sample_late_state.
Proof.
  split; [by vm_compute|].
  apply (deadline_beats_work at_least 10) with (now := 0%Z) (es0 := sample_boundary) (es := replicate 8 (EPoll Wait)) (s := sample_boundary_state);
    [|by vm_compute..].
  intros now now' Hle H. unfold at_least in *. case_bool_decide; [|done]. apply bool_decide_eq_true. lia.
Defined.

(** * Construction *)

Section admission.
Context {W : Type} `{FiberStore W}.

(** The claim of the registration a constructor commits takes its cleanup, once. *)
Lemma effect_sync_spec owner signal (w : W) f :
  fibers w !! owner = Some f →
  effect_sync owner signal w =
  if decide (gate_open f)
  then (Ok {| er_token := (dl_push (f_journal f) (sync_cleanup (CleanUser signal))).1; er_owner := owner |},
        update_fiber owner (λ f, set_f_journal (dl_push (f_journal f) (sync_cleanup (CleanUser signal))).2 f) w)
  else (Err EffectInactiveContext, w).
Proof.
  intros Hf. unfold effect_sync, register_cleanup. rewrite (push_gated_spec _ _ NoPublish w f Hf). by case_decide.
Qed.

(** The construction of an Interval refuses a zero period before it looks at the
    generation, a closed generation before the clock, and the clock before it commits
    anything: every refusal leaves the Runtime as it was, and success commits exactly one
    cleanup and pins the first tick one period from now. *)
Theorem interval_admission env owner period signal (w : W) f :
  fibers w !! owner = Some f →
  interval env owner period signal w =
  if decide (period = 0%Z) then (Err ZeroPeriod, w)
  else if decide (gate_open f) then
    if decide (te_handle env = true ∧ (te_now env + period <= te_max env)%Z ∧ te_arms env = true)
    then (Ok {| tp_deadline := (te_now env + period)%Z;
                tp_cleanup := {| er_token := (dl_push (f_journal f) (sync_cleanup (CleanUser signal))).1; er_owner := owner |} |},
          update_fiber owner (λ f, set_f_journal (dl_push (f_journal f) (sync_cleanup (CleanUser signal))).2 f) w)
    else (Err (if te_handle env then if decide (te_max env < te_now env + period)%Z then DeadlineOutOfRange else TimerUnavailable
               else TimerUnavailable), w)
  else (Err InactiveContext, w).
Proof.
  intros Hf. unfold interval, generation_cleanup_admitted, commit_cancellation. rewrite Hf, assert_can_register_spec.
  case_decide; [done|]. destruct (decide (gate_open f)) as [Hg|Hg]; cbn; [|done].
  unfold prepare_interval. destruct (te_handle env) eqn:Hh; cbn; [|by rewrite decide_False by naive_solver].
  case_decide as Hr; [by rewrite decide_False by (intros (? & ? & ?); lia)|].
  rewrite (effect_sync_spec _ _ _ _ Hf), (decide_True _ _ Hg).
  destruct (te_arms env) eqn:Ha; cbn; [rewrite decide_True; [done|split_and!; try done; lia]|].
  by rewrite decide_False by naive_solver.
Qed.
End admission.

Definition sample_fiber : Fiber := default (Fiber_new 0 "main") (Fiber_root 0).
Definition sample_heap : gmap Addr Fiber := {[ 0 := sample_fiber ]}.
Definition sample_env : TimeEnv := {| te_handle := true; te_now := 3; te_max := 100; te_arms := true |}.

Lemma interval_admission_witness :
  interval sample_env 0 5 9 sample_heap =
  (Ok {| tp_deadline := 8; tp_cleanup := {| er_token := 1; er_owner := 0 |} |},
   update_fiber 0 (λ _, set_f_journal (dl_push (f_journal sample_fiber) (sync_cleanup (CleanUser 9))).2 sample_fiber) sample_heap).
Proof. rewrite (interval_admission sample_env 0 5 9 sample_heap sample_fiber); by vm_compute. Defined.
