(* ===== verification/Registry.v ===== *)
(** Registry residency (crates/cordis-core/src/registry.rs): the flat list of resident
    Fibers, the current allocation (group) of each Plugin key, exact residency claims,
    and the detachment of an allocation for bulk removal.

    Every operation is one critical section of the [allocations] mutex.  A
    [Weak<PluginGroup>] upgrades while the group is mapped or a [DetachedGroup] holds
    it.  The abstract Registry at the end is a plain list of admission rows. *)
From S2P Require Import Prelude Axes BTree Lifecycle Journal Plugin Fiber.

(* @src crates/cordis-core/src/registry.rs 21-24 PluginGroup *)
Record PluginGroup := { pg_id : PluginKey; pg_fibers : list Addr }.

(* @src crates/cordis-core/src/registry.rs 27-32 PluginGroup::new *)
Definition PluginGroup_new (id : PluginKey) : PluginGroup := {| pg_id := id; pg_fibers := [] |}.

(** The removed Fiber, whether the group is now empty, and the group. *)
(* @src crates/cordis-core/src/registry.rs 36-43 PluginGroup::take_fiber *)
Definition take_fiber (g : PluginGroup) (fiber : Addr) : option Addr * bool * PluginGroup :=
  match remove_first (λ candidate, bool_decide (candidate = fiber)) (pg_fibers g) with
  | Some (removed, rest) => (Some removed, bool_decide (rest = []), {| pg_id := pg_id g; pg_fibers := rest |})
  | None => (None, bool_decide (pg_fibers g = []), g)
  end.

(** [rg_groups] is the heap of allocations, [rg_detached] those a [DetachedGroup]
    keeps alive. *)
(* @src crates/cordis-core/src/registry.rs 45-56 RegistryState *)
Record Registry := {
  rg_next : Addr;
  rg_groups : gmap Addr PluginGroup;
  rg_detached : gset Addr;
  rg_allocations : gmap PluginKey Addr;
  rg_residents : list Addr;
}.

(* @src crates/cordis-core/src/registry.rs 60-69 Registry::new *)
Definition Registry_new : Registry :=
  {| rg_next := 0; rg_groups := ∅; rg_detached := ∅; rg_allocations := ∅; rg_residents := [] |}.

(* @src crates/cordis-core/src/registry.rs 70-74 Registry::snapshot_fibers *)
Definition snapshot_fibers (r : Registry) : list Addr := rg_residents r.

(** [Weak<PluginGroup>::upgrade]. *)
Definition upgrade_group (r : Registry) (a : Addr) : option PluginGroup :=
  match rg_groups r !! a with
  | Some g => if decide (a ∈ rg_detached r ∨ rg_allocations r !! pg_id g = Some a) then Some g else None
  | None => None
  end.

(** The current allocation of [key], created when there is none. *)
Definition current_allocation (r : Registry) (key : PluginKey) : Addr * Registry :=
  match rg_allocations r !! key with
  | Some a => (a, r)
  | None =>
      let a := rg_next r in
      (a, {| rg_next := S a; rg_groups := <[ a := PluginGroup_new key ]> (rg_groups r);
             rg_detached := rg_detached r; rg_allocations := <[ key := a ]> (rg_allocations r);
             rg_residents := rg_residents r |})
  end.

Definition push_member (fiber : Addr) (g : PluginGroup) : PluginGroup :=
  {| pg_id := pg_id g; pg_fibers := pg_fibers g ++ [fiber] |}.

(** [None] is the assertion that a Fiber has one residency occurrence (or a Fiber that
    is not allocated, of which the caller holds no [Arc]). *)
(* @src crates/cordis-core/src/registry.rs 90-110 Registry::attach_fiber *)
Definition attach_fiber (heap : gmap Addr Fiber) (r : Registry) (key : PluginKey) (fiber : Addr)
    : option (gmap Addr Fiber * Registry) :=
  let '(a, r) := current_allocation r key in
  match heap !! fiber with
  | None => None
  | Some f =>
      match f_residency f with
      | Some _ => None
      | None =>
          Some (<[ fiber := set_f_residency (Some {| rc_allocation := a; rc_fiber := fiber |}) f ]> heap,
                {| rg_next := rg_next r; rg_groups := alter (push_member fiber) a (rg_groups r);
                   rg_detached := rg_detached r; rg_allocations := rg_allocations r;
                   rg_residents := rg_residents r ++ [fiber] |})
      end
  end.

(** The first member whose teardown the caller would wait on from inside. *)
(* @src crates/cordis-core/src/fiber/mod.rs 1213-1220 refuse_group_removal_recursion *)
Fixpoint refuse_group_removal_recursion (doomed : Addr → bool) (fibers : list Addr) : result unit Addr :=
  match fibers with
  | [] => Ok tt
  | fiber :: fibers => if doomed fiber then Err fiber else refuse_group_removal_recursion doomed fibers
  end.

(* @src crates/cordis-core/src/registry.rs 142-145 DetachedGroup *)
Record DetachedGroup := { dg_allocation : Addr; dg_fibers : list Addr }.

(** The outer [None] is the missing group of a mapped allocation. *)
(* @src crates/cordis-core/src/registry.rs 117-136 Registry::detach_for_removal *)
Definition detach_for_removal (doomed : Addr → bool) (r : Registry) (key : PluginKey)
    : option (result (option DetachedGroup) Addr * Registry) :=
  match rg_allocations r !! key with
  | None => Some (Ok None, r)
  | Some a =>
      match rg_groups r !! a with
      | None => None
      | Some g =>
          match refuse_group_removal_recursion doomed (pg_fibers g) with
          | Err fiber => Some (Err fiber, r)
          | Ok _ =>
              Some (Ok (Some {| dg_allocation := a; dg_fibers := pg_fibers g |}),
                    {| rg_next := rg_next r; rg_groups := rg_groups r;
                       rg_detached := {[ a ]} ∪ rg_detached r;
                       rg_allocations := delete key (rg_allocations r);
                       rg_residents := rg_residents r |})
          end
      end
  end.

(** The end of [dispose_all], once every frozen member has passed its terminal
    barrier: the [DetachedGroup] is dropped. *)
Definition finish_removal (r : Registry) (a : Addr) : Registry :=
  match rg_groups r !! a with
  | Some {| pg_fibers := [] |} =>
      {| rg_next := rg_next r; rg_groups := rg_groups r; rg_detached := rg_detached r ∖ {[ a ]};
         rg_allocations := rg_allocations r; rg_residents := rg_residents r |}
  | _ => r
  end.

(* @src crates/cordis-core/src/registry.rs 212-248 ResidencyClaim::release *)
Definition release (heap : gmap Addr Fiber) (r : Registry) (claim : ResidencyClaim) : Registry :=
  match upgrade_group r (rc_allocation claim), heap !! rc_fiber claim with
  | Some allocation, Some _ =>
      let a := rc_allocation claim in
      let current := bool_decide (rg_allocations r !! pg_id allocation = Some a) in
      let '(_, idle, allocation') := take_fiber allocation (rc_fiber claim) in
      {| rg_next := rg_next r;
         rg_groups := <[ a := allocation' ]> (rg_groups r);
         rg_detached := rg_detached r;
         rg_allocations := if current && idle then delete (pg_id allocation) (rg_allocations r)
                           else rg_allocations r;
         rg_residents := match remove_first (λ candidate, bool_decide (candidate = rc_fiber claim))
                                 (rg_residents r) with
                         | Some (_, rest) => rest
                         | None => rg_residents r
                         end |}
  | _, _ => r
  end.

(* @src crates/cordis-core/src/fiber/mod.rs 1183-1199 Fiber::release_residency *)
Definition release_residency (heap : gmap Addr Fiber) (r : Registry) (fiber : Addr)
    : gmap Addr Fiber * Registry :=
  match heap !! fiber with
  | None => (heap, r)
  | Some f =>
      let heap := <[ fiber := set_f_residency None f ]> heap in
      match f_residency f with
      | None => (heap, r)
      | Some claim => (heap, release heap r claim)
      end
  end.

(** * Invariant *)

Definition claim_of (heap : gmap Addr Fiber) (fiber : Addr) : option ResidencyClaim :=
  heap !! fiber ≫= f_residency.

(** The allocation [fiber] is resident in. *)
Definition home (heap : gmap Addr Fiber) (fiber : Addr) : option Addr :=
  rc_allocation <$> claim_of heap fiber.

Record registry_wf (heap : gmap Addr Fiber) (r : Registry) : Prop := {
  rw_nodup : NoDup (rg_residents r);
  rw_claimed : ∀ fiber c, claim_of heap fiber = Some c →
    fiber ∈ rg_residents r ∧ rc_fiber c = fiber ∧ is_Some (upgrade_group r (rc_allocation c));
  rw_resident : ∀ fiber, fiber ∈ rg_residents r → is_Some (claim_of heap fiber);
  rw_members : ∀ a g, rg_groups r !! a = Some g →
    pg_fibers g = filter (λ fiber, home heap fiber = Some a) (rg_residents r);
  rw_mapped : ∀ k a, rg_allocations r !! k = Some a →
    (a ∉ rg_detached r) ∧ (∃ g, rg_groups r !! a = Some g ∧ pg_id g = k);
  rw_fresh : ∀ a, is_Some (rg_groups r !! a) → a < rg_next r;
  rw_detached : ∀ a, a ∈ rg_detached r → is_Some (rg_groups r !! a);
}.

(** A mapped group has a member. *)
Definition groups_used (r : Registry) : Prop :=
  ∀ k a g, rg_allocations r !! k = Some a → rg_groups r !! a = Some g → pg_fibers g ≠ [].

Lemma registry_wf_new heap : (∀ fiber, claim_of heap fiber = None) → registry_wf heap Registry_new.
Proof.
  intros Hh. split; simpl.
  - constructor.
  - intros fiber c Hc. by rewrite Hh in Hc.
  - set_solver.
  - intros a g Hg. by rewrite lookup_empty in Hg.
  - intros k a Ha. by rewrite lookup_empty in Ha.
  - intros a [g Hg]. by rewrite lookup_empty in Hg.
  - set_solver.
Qed.

Lemma claim_of_set heap fiber f v x :
  heap !! fiber = Some f →
  claim_of (<[ fiber := set_f_residency v f ]> heap) x = if decide (x = fiber) then v else claim_of heap x.
Proof.
  intros Hf. unfold claim_of. case_decide as Hx.
  - subst. by rewrite lookup_insert_eq.
  - by rewrite lookup_insert_ne by done.
Qed.

(** * The abstract Registry

    A row per resident Fiber, in admission order: its key, and whether its group has
    been detached by a bulk removal. *)

Record Row := { row_fiber : Addr; row_key : PluginKey; row_frozen : bool }.

Definition row_current (key : PluginKey) (row : Row) : bool :=
  bool_decide (row_key row = key) && negb (row_frozen row).

Definition freeze_row (key : PluginKey) (row : Row) : Row :=
  {| row_fiber := row_fiber row; row_key := row_key row;
     row_frozen := row_frozen row || bool_decide (row_key row = key) |}.

(** The Fibers a bulk removal of [key] would take. *)
Definition current_members (key : PluginKey) (rows : list Row) : list Addr :=
  row_fiber <$> filter (λ row, row_current key row = true) rows.

Inductive RegOp :=
| OpAttach (key : PluginKey) (fiber : Addr)
| OpDetach (doomed : Addr → bool) (key : PluginKey)
| OpFinish (allocation : Addr)
| OpRelease (fiber : Addr)
| OpSnapshot.

Inductive RegOut := OutDone | OutDetached (r : result (option (list Addr)) Addr) | OutFibers (l : list Addr).

Definition reg_spec (op : RegOp) (rows : list Row) : option (RegOut * list Row) :=
  match op with
  | OpAttach key fiber =>
      if decide (fiber ∈ row_fiber <$> rows) then None
      else Some (OutDone, rows ++ [{| row_fiber := fiber; row_key := key; row_frozen := false |}])
  | OpDetach doomed key =>
      match current_members key rows with
      | [] => Some (OutDetached (Ok None), rows)
      | members =>
          match List.find doomed members with
          | Some fiber => Some (OutDetached (Err fiber), rows)
          | None => Some (OutDetached (Ok (Some members)), freeze_row key <$> rows)
          end
      end
  | OpFinish _ => Some (OutDone, rows)
  | OpRelease fiber => Some (OutDone, filter (λ row, row_fiber row ≠ fiber) rows)
  | OpSnapshot => Some (OutFibers (row_fiber <$> rows), rows)
  end.

Definition reg_run (op : RegOp) (w : gmap Addr Fiber * Registry) : option (RegOut * (gmap Addr Fiber * Registry)) :=
  let '(heap, r) := w in
  match op with
  | OpAttach key fiber => w ← attach_fiber heap r key fiber; Some (OutDone, w)
  | OpDetach doomed key =>
      '(out, r) ← detach_for_removal doomed r key;
      Some (OutDetached (match out with
                         | Ok detached => Ok (dg_fibers <$> detached)
                         | Err fiber => Err fiber
                         end), (heap, r))
  | OpFinish a => Some (OutDone, (heap, finish_removal r a))
  | OpRelease fiber => Some (OutDone, release_residency heap r fiber)
  | OpSnapshot => Some (OutFibers (snapshot_fibers r), w)
  end.

Fixpoint reg_spec_all (ops : list RegOp) (rows : list Row) : option (list RegOut * list Row) :=
  match ops with
  | [] => Some ([], rows)
  | op :: ops => '(out, rows) ← reg_spec op rows; '(outs, rows) ← reg_spec_all ops rows; Some (out :: outs, rows)
  end.

Fixpoint reg_run_all (ops : list RegOp) (w : gmap Addr Fiber * Registry)
    : option (list RegOut * (gmap Addr Fiber * Registry)) :=
  match ops with
  | [] => Some ([], w)
  | op :: ops => '(out, w) ← reg_run op w; '(outs, w) ← reg_run_all ops w; Some (out :: outs, w)
  end.

(** The rows a Registry stands for. *)
Definition row_of (heap : gmap Addr Fiber) (r : Registry) (fiber : Addr) : option Row :=
  a ← home heap fiber; g ← rg_groups r !! a;
  Some {| row_fiber := fiber; row_key := pg_id g;
          row_frozen := negb (bool_decide (rg_allocations r !! pg_id g = Some a)) |}.

Definition rows_of (heap : gmap Addr Fiber) (r : Registry) : list Row :=
  omap (row_of heap r) (rg_residents r).

Lemma home_set heap fiber f v x :
  heap !! fiber = Some f →
  home (<[ fiber := set_f_residency v f ]> heap) x =
  if decide (x = fiber) then rc_allocation <$> v else home heap x.
Proof. intros Hf. unfold home. rewrite (claim_of_set _ _ _ _ _ Hf). by case_decide. Qed.

Lemma upgrade_group_Some r a g :
  upgrade_group r a = Some g ↔
  rg_groups r !! a = Some g ∧ (a ∈ rg_detached r ∨ rg_allocations r !! pg_id g = Some a).
Proof. unfold upgrade_group. case_match; [case_decide|]; naive_solver. Qed.

Lemma row_of_fiber heap r fiber row : row_of heap r fiber = Some row → row_fiber row = fiber.
Proof.
  unfold row_of. destruct (home heap fiber) as [a|]; [|done]. cbn.
  destruct (rg_groups r !! a); [|done]. cbn. by intros [= <-].
Qed.

Section wf.
Context (heap : gmap Addr Fiber) (r : Registry) (Hwf : registry_wf heap r).

Lemma resident_home fiber :
  fiber ∈ rg_residents r → ∃ a g, home heap fiber = Some a ∧ rg_groups r !! a = Some g ∧
    (a ∈ rg_detached r ∨ rg_allocations r !! pg_id g = Some a) ∧ fiber ∈ pg_fibers g.
Proof.
  intros Hf. destruct (rw_resident _ _ Hwf _ Hf) as [c Hc].
  destruct (rw_claimed _ _ Hwf _ _ Hc) as (_ & _ & [g [Hg Hl]%upgrade_group_Some]).
  assert (home heap fiber = Some (rc_allocation c)) as Hh by (unfold home; by rewrite Hc).
  exists (rc_allocation c), g. split_and!; try done.
  rewrite (rw_members _ _ Hwf _ _ Hg). by apply list_elem_of_filter.
Qed.

Lemma home_resident fiber a : home heap fiber = Some a → fiber ∈ rg_residents r.
Proof.
  unfold home. intros (c & Hc & _)%fmap_Some. by apply (rw_claimed _ _ Hwf) in Hc as [? _].
Qed.

Lemma not_resident_unclaimed fiber : fiber ∉ rg_residents r → claim_of heap fiber = None.
Proof.
  intros Hf. destruct (claim_of heap fiber) as [c|] eqn:Hc; [|done].
  by apply (rw_claimed _ _ Hwf) in Hc as [? _].
Qed.

Lemma rows_of_fibers : row_fiber <$> rows_of heap r = rg_residents r.
Proof.
  unfold rows_of. assert (∀ f, f ∈ rg_residents r → ∃ row, row_of heap r f = Some row ∧ row_fiber row = f) as Hrow.
  { intros f Hf. destruct (resident_home f Hf) as (a & g & Hh & Hg & _).
    unfold row_of. rewrite Hh. simpl. rewrite Hg. by eexists. }
  induction (rg_residents r) as [|f l IH]; [done|]. csimpl.
  destruct (Hrow f ltac:(by left)) as (row & -> & Hr). csimpl. f_equal; [done|].
  apply IH. intros; apply Hrow. by right.
Qed.
End wf.

(** * Attachment *)

Lemma current_allocation_spec heap r key a r1 :
  registry_wf heap r → current_allocation r key = (a, r1) →
  registry_wf heap r1 ∧ rg_residents r1 = rg_residents r ∧ rg_allocations r1 !! key = Some a ∧
  (∀ k, k ≠ key → rg_allocations r1 !! k = rg_allocations r !! k) ∧
  (∀ a', a' ≠ a → rg_groups r1 !! a' = rg_groups r !! a') ∧
  rows_of heap r1 = rows_of heap r.
Proof.
  intros Hwf. unfold current_allocation. destruct (rg_allocations r !! key) as [a0|] eqn:Hk.
  { intros [= <- <-]. by split_and!. }
  intros [= <- <-]. simpl.
  assert (rg_groups r !! rg_next r = None) as Hfresh.
  { apply eq_None_not_Some. intros H%(rw_fresh _ _ Hwf). lia. }
  assert (∀ fiber a, home heap fiber = Some a → is_Some (rg_groups r !! a)) as Hhome.
  { intros f a Ha. destruct (resident_home _ _ Hwf f) as (a' & g & Ha' & Hg & _).
    { by eapply home_resident. } by simplify_eq. }
  split_and!; try done.
  - split; simpl; try apply Hwf.
    + intros f c Hc. destruct (rw_claimed _ _ Hwf _ _ Hc) as (Hin & Heq & [g Hg]).
      apply upgrade_group_Some in Hg as [Hg Hl]. split_and!; [done..|]. exists g.
      apply upgrade_group_Some. simpl. rewrite lookup_insert_ne by congruence. split; [done|].
      destruct Hl as [Hl|Hl]; [by left|]. right. rewrite lookup_insert_ne; congruence.
    + intros a g. destruct (decide (a = rg_next r)) as [->|Hne].
      * rewrite lookup_insert_eq. intros [= <-]. simpl. symmetry. apply filter_nothing.
        intros f _ Hf. apply Hhome in Hf as [g Hg]. congruence.
      * rewrite lookup_insert_ne by done. apply (rw_members _ _ Hwf).
    + intros k a. destruct (decide (k = key)) as [->|Hne].
      * rewrite lookup_insert_eq. intros [= <-]. split.
        -- intros Hd. apply (rw_detached _ _ Hwf) in Hd as [g Hg]. congruence.
        -- rewrite lookup_insert_eq. by eexists.
      * rewrite lookup_insert_ne by done. intros Ha.
        destruct (rw_mapped _ _ Hwf _ _ Ha) as (Hd & g & Hg & Hid). split; [done|].
        exists g. rewrite lookup_insert_ne; [done|congruence].
    + intros a Ha. apply lookup_insert_is_Some' in Ha as [<-|Ha]; [lia|].
      apply (rw_fresh _ _ Hwf) in Ha. lia.
    + intros a Ha. apply lookup_insert_is_Some'. right. by apply (rw_detached _ _ Hwf).
  - by rewrite lookup_insert_eq.
  - intros k Hne. by rewrite lookup_insert_ne.
  - intros a' Hne. by rewrite lookup_insert_ne.
  - unfold rows_of. simpl. apply omap_ext_in. intros f Hf.
    destruct (resident_home _ _ Hwf f Hf) as (a & g & Ha & Hg & _).
    unfold row_of. rewrite Ha. simpl. rewrite lookup_insert_ne by congruence. rewrite Hg. simpl.
    do 3 f_equal. apply bool_decide_ext. destruct (decide (pg_id g = key)) as [->|Hne].
    + rewrite lookup_insert_eq, Hk. split; [|done]. intros [= <-]. congruence.
    + by rewrite lookup_insert_ne.
Qed.

Lemma attach_fiber_refused heap r key fiber :
  registry_wf heap r → fiber ∈ rg_residents r → attach_fiber heap r key fiber = None.
Proof.
  intros Hwf Hf. unfold attach_fiber. destruct (current_allocation r key) as [a r1].
  destruct (rw_resident _ _ Hwf _ Hf) as [c Hc]. unfold claim_of in Hc.
  destruct (heap !! fiber) as [f|]; [|done]. simpl in Hc. by rewrite Hc.
Qed.

(** The critical section of an attachment, once the current allocation [a] of the key
    is known. *)
Section attached.
Context (heap : gmap Addr Fiber) (r : Registry) (Hwf : registry_wf heap r).
Context (key : PluginKey) (a : Addr) (Hk : rg_allocations r !! key = Some a).
Context (ga : PluginGroup) (Hga : rg_groups r !! a = Some ga) (Hid : pg_id ga = key).
Context (fiber : Addr) (f : Fiber) (Hheap : heap !! fiber = Some f) (Hf : fiber ∉ rg_residents r).

Let heap' := <[ fiber := set_f_residency (Some {| rc_allocation := a; rc_fiber := fiber |}) f ]> heap.
Let r' := {| rg_next := rg_next r; rg_groups := alter (push_member fiber) a (rg_groups r);
             rg_detached := rg_detached r; rg_allocations := rg_allocations r;
             rg_residents := rg_residents r ++ [fiber] |}.

Lemma attached_claim x :
  claim_of heap' x = if decide (x = fiber) then Some {| rc_allocation := a; rc_fiber := fiber |}
                     else claim_of heap x.
Proof. by apply claim_of_set. Qed.

Lemma attached_home x : home heap' x = if decide (x = fiber) then Some a else home heap x.
Proof. unfold heap'. rewrite home_set by done. by case_decide. Qed.

Lemma attached_groups x g :
  rg_groups r' !! x = Some g ↔
  (x = a ∧ g = push_member fiber ga) ∨ (x ≠ a ∧ rg_groups r !! x = Some g).
Proof.
  simpl. destruct (decide (x = a)) as [->|Hne].
  - rewrite lookup_alter_eq, Hga. naive_solver.
  - rewrite lookup_alter_ne by done. naive_solver.
Qed.

Lemma attached_upgrade x : is_Some (upgrade_group r x) → is_Some (upgrade_group r' x).
Proof.
  intros [g [Hg Hl]%upgrade_group_Some]. destruct (decide (x = a)) as [->|Hne].
  - exists (push_member fiber ga). apply upgrade_group_Some. split; [by apply attached_groups; left|].
    simplify_eq. simpl. tauto.
  - exists g. apply upgrade_group_Some. split; [by apply attached_groups; right|]. done.
Qed.

Lemma attached_members x g :
  rg_groups r' !! x = Some g →
  pg_fibers g = filter (λ y, home heap' y = Some x) (rg_residents r').
Proof.
  assert (∀ b, filter (λ y, home heap' y = Some b) (rg_residents r) =
               filter (λ y, home heap y = Some b) (rg_residents r)) as Hold.
  { intros b. apply filter_ext_in. intros y Hy. rewrite attached_home. case_decide; [congruence|done]. }
  intros [[-> ->]|[Hne Hg]]%attached_groups; simpl; rewrite filter_app, Hold.
  - rewrite (rw_members _ _ Hwf _ _ Hga). f_equal.
    rewrite filter_cons_True; [done|]. rewrite attached_home. by rewrite decide_True.
  - rewrite (rw_members _ _ Hwf _ _ Hg). rewrite filter_cons_False, app_nil_r; [done|].
    rewrite attached_home, decide_True by done. congruence.
Qed.

Lemma attached_wf : registry_wf heap' r'.
Proof.
  assert (is_Some (upgrade_group r a)) as Hupa.
  { exists ga. apply upgrade_group_Some. rewrite Hid. by split; [|right]. }
  split; try apply attached_members.
  - simpl. apply NoDup_app. split_and!; [apply Hwf| |apply NoDup_singleton].
    intros x Hx ->%list_elem_of_singleton. done.
  - intros x c0. rewrite attached_claim. simpl. rewrite elem_of_app, list_elem_of_singleton. case_decide as Hx.
    + intros [= <-]. simpl. split_and!; [by right|done|]. by apply attached_upgrade.
    + intros Hc0. destruct (rw_claimed _ _ Hwf _ _ Hc0) as (? & ? & ?).
      split_and!; [by left|done|]. by apply attached_upgrade.
  - intros x Hx. rewrite attached_claim. case_decide; [done|]. simpl in Hx.
    apply (rw_resident _ _ Hwf). apply elem_of_app in Hx as [?|?%list_elem_of_singleton]; done.
  - intros k x Hkx. destruct (rw_mapped _ _ Hwf _ _ Hkx) as (? & g & Hg & ?). split; [done|].
    destruct (decide (x = a)) as [->|Hne].
    + exists (push_member fiber ga). split; [by apply attached_groups; left|]. by simplify_eq.
    + exists g. split; [by apply attached_groups; right|done].
  - intros x [g [[-> ->]|[? Hg]]%attached_groups]; apply (rw_fresh _ _ Hwf); eauto.
  - intros x Hx. destruct (rw_detached _ _ Hwf _ Hx) as [g Hg]. exists g. apply attached_groups.
    right. split; [|done]. intros ->. by destruct (rw_mapped _ _ Hwf _ _ Hk).
Qed.

Lemma attached_used :
  (∀ k x g, k ≠ key → rg_allocations r !! k = Some x → rg_groups r !! x = Some g → pg_fibers g ≠ []) →
  groups_used r'.
Proof.
  intros Hused k x g Hkx [[-> ->]|[Hne Hg]]%attached_groups; [simpl; by destruct (pg_fibers ga)|].
  apply (Hused k x g); [|done..]. intros ->. simpl in Hkx. congruence.
Qed.

Lemma attached_rows :
  rows_of heap' r' = rows_of heap r ++ [{| row_fiber := fiber; row_key := key; row_frozen := false |}].
Proof.
  unfold rows_of. cbn [rg_residents r']. rewrite omap_app. f_equal.
  - apply omap_ext_in. intros x Hx. unfold row_of. rewrite attached_home.
    case_decide; [congruence|]. destruct (home heap x) as [b|]; [|done]. cbn.
    destruct (decide (b = a)) as [->|Hne].
    + by rewrite lookup_alter_eq, Hga.
    + by rewrite lookup_alter_ne.
  - assert (row_of heap' r' fiber = Some {| row_fiber := fiber; row_key := key; row_frozen := false |}) as Hrow.
    { unfold row_of. rewrite attached_home, decide_True by done. cbn.
      rewrite lookup_alter_eq, Hga. cbn. rewrite Hid, Hk. by rewrite bool_decide_true. }
    csimpl. by rewrite Hrow.
Qed.
End attached.

Lemma attach_fiber_spec heap r key fiber :
  registry_wf heap r → groups_used r → fiber ∉ rg_residents r → is_Some (heap !! fiber) →
  ∃ heap' r', attach_fiber heap r key fiber = Some (heap', r') ∧
    registry_wf heap' r' ∧ groups_used r' ∧ dom heap' = dom heap ∧
    rows_of heap' r' = rows_of heap r ++ [{| row_fiber := fiber; row_key := key; row_frozen := false |}].
Proof.
  intros Hwf Hused Hf [f Hheap]. unfold attach_fiber.
  destruct (current_allocation r key) as [a r1] eqn:Hca.
  destruct (current_allocation_spec _ _ _ _ _ Hwf Hca) as (Hwf1 & Hres & Hk & Ha & Hg & Hrows).
  destruct (rw_mapped _ _ Hwf1 _ _ Hk) as (_ & ga & Hga & Hid).
  rewrite <- Hrows. rewrite <- Hres in Hf.
  pose proof (not_resident_unclaimed _ _ Hwf1 _ Hf) as Hnc. rewrite Hheap.
  assert (f_residency f = None) as -> by (unfold claim_of in Hnc; by rewrite Hheap in Hnc).
  eexists _, _. split; [reflexivity|]. split; [by eapply attached_wf|]. split; [|split].
  - apply attached_used with (key := key) (ga := ga); try done. intros k x g Hne Hm Hgrp. assert (x ≠ a) as Hne'.
    { intros ->. destruct (rw_mapped _ _ Hwf1 _ _ Hm) as (_ & g1 & ? & ?). congruence. }
    rewrite Ha in Hm by done. rewrite Hg in Hgrp by done. by eapply Hused.
  - apply dom_insert_lookup_L. by eexists.
  - by apply attached_rows with (ga := ga).
Qed.

(** * Detachment *)

Lemma refuse_group_removal_find doomed l :
  refuse_group_removal_recursion doomed l =
  match List.find doomed l with Some fiber => Err fiber | None => Ok tt end.
Proof. induction l as [|x l IH]; [done|]. simpl. by destruct (doomed x). Qed.

Lemma current_members_spec heap r key :
  registry_wf heap r →
  current_members key (rows_of heap r) =
  match rg_allocations r !! key ≫= (rg_groups r !!.) with Some g => pg_fibers g | None => [] end.
Proof.
  intros Hwf. unfold current_members, rows_of.
  assert (∀ x, x ∈ rg_residents r → ∃ row, row_of heap r x = Some row ∧ row_fiber row = x ∧
     (row_current key row = true ↔ rg_allocations r !! key = home heap x)) as Hrow.
  { intros x Hx. destruct (resident_home _ _ Hwf x Hx) as (a & g & Ha & Hg & _).
    unfold row_of. rewrite Ha. simpl. rewrite Hg. eexists. split_and!; [done..|].
    unfold row_current. simpl. rewrite andb_true_iff, negb_involutive, !bool_decide_eq_true. split.
    - by intros [<- ?].
    - intros Hk. destruct (rw_mapped _ _ Hwf _ _ Hk) as (_ & g' & ? & ?). by simplify_eq. }
  transitivity (filter (λ x, rg_allocations r !! key = home heap x) (rg_residents r)).
  - induction (rg_residents r) as [|x l IH]; [done|]. csimpl.
    destruct (Hrow x ltac:(by left)) as (row & -> & Hx & Hcur). csimpl.
    specialize (IH ltac:(intros; apply Hrow; by right)).
    rewrite !filter_cons. repeat case_decide; try tauto. csimpl. congruence.
  - destruct (rg_allocations r !! key) as [a|] eqn:Hk; simpl.
    + destruct (rw_mapped _ _ Hwf _ _ Hk) as (_ & g & Hg & _). rewrite Hg.
      rewrite (rw_members _ _ Hwf _ _ Hg). apply filter_ext_in. naive_solver.
    + apply filter_nothing. intros x Hx Hh. destruct (resident_home _ _ Hwf x Hx) as (a & g & ? & _). congruence.
Qed.

Lemma freeze_rows heap r key r' :
  registry_wf heap r → rg_residents r' = rg_residents r → rg_groups r' = rg_groups r →
  rg_allocations r' = delete key (rg_allocations r) →
  rows_of heap r' = freeze_row key <$> rows_of heap r.
Proof.
  intros Hwf Hres Hgr Hal. unfold rows_of. rewrite Hres.
  assert (∀ x, row_of heap r' x = freeze_row key <$> row_of heap r x) as Hrow.
  { intros x. unfold row_of. destruct (home heap x) as [a|]; [|done]. cbn. rewrite Hgr.
    destruct (rg_groups r !! a) as [g|]; [|done]. cbn. unfold freeze_row. cbn. do 2 f_equal. rewrite Hal.
    destruct (decide (pg_id g = key)) as [->|Hne].
    - rewrite lookup_delete_eq, (bool_decide_true (key = key)) by done. by rewrite orb_true_r.
    - rewrite lookup_delete_ne, (bool_decide_false (pg_id g = key)) by done. by rewrite orb_false_r. }
  clear Hres. induction (rg_residents r) as [|x l IH]; [done|]. csimpl. rewrite Hrow, IH. by destruct (row_of heap r x).
Qed.

Lemma detach_wf heap r key a :
  registry_wf heap r → rg_allocations r !! key = Some a →
  registry_wf heap {| rg_next := rg_next r; rg_groups := rg_groups r; rg_detached := {[ a ]} ∪ rg_detached r;
                      rg_allocations := delete key (rg_allocations r); rg_residents := rg_residents r |}.
Proof.
  intros Hwf Hk. destruct (rw_mapped _ _ Hwf _ _ Hk) as (_ & ga & Hga & Hid).
  split; simpl; try apply Hwf.
  - intros x c Hc. destruct (rw_claimed _ _ Hwf _ _ Hc) as (? & ? & [g [Hg Hl]%upgrade_group_Some]).
    split_and!; [done..|]. exists g. apply upgrade_group_Some. simpl. split; [done|].
    destruct (decide (rc_allocation c = a)) as [->|Hne]; [left; set_solver|].
    destruct Hl as [Hl|Hl]; [left; set_solver|right]. rewrite lookup_delete_ne; [done|congruence].
  - intros k x Hkx. apply lookup_delete_Some in Hkx as [Hne Hkx].
    destruct (rw_mapped _ _ Hwf _ _ Hkx) as (? & g & ? & ?). split; [|by exists g].
    rewrite not_elem_of_union, not_elem_of_singleton. split; [|done]. intros ->. congruence.
  - intros x [->%elem_of_singleton|Hx]%elem_of_union; [by eexists|by apply (rw_detached _ _ Hwf)].
Qed.

Lemma detach_for_removal_spec doomed heap r key :
  registry_wf heap r → groups_used r →
  ∃ out r', detach_for_removal doomed r key = Some (out, r') ∧ registry_wf heap r' ∧ groups_used r' ∧
    reg_spec (OpDetach doomed key) (rows_of heap r) =
      Some (OutDetached (match out with Ok d => Ok (dg_fibers <$> d) | Err x => Err x end), rows_of heap r').
Proof.
  intros Hwf Hused. unfold detach_for_removal, reg_spec. rewrite (current_members_spec _ _ _ Hwf).
  destruct (rg_allocations r !! key) as [a|] eqn:Hk; cbn [mbind option_bind]; [|by exists (Ok None), r; split_and!].
  destruct (rw_mapped _ _ Hwf _ _ Hk) as (_ & g & Hg & Hid). rewrite Hg.
  rewrite refuse_group_removal_find. pose proof (Hused _ _ _ Hk Hg) as Hne.
  destruct (pg_fibers g) as [|x l] eqn:Hl; [done|].
  destruct (List.find doomed (x :: l)) as [y|]; [by exists (Err y), r; split_and!|].
  eexists _, _. split; [reflexivity|]. split; [by apply detach_wf|]. split; cbn -[rows_of].
  - intros k b g' Hkb Hg'. simpl in *. apply lookup_delete_Some in Hkb as [_ Hkb]. by eapply Hused.
  - do 2 f_equal. symmetry. by eapply freeze_rows.
Qed.

Lemma finish_removal_spec heap r a :
  registry_wf heap r → groups_used r →
  registry_wf heap (finish_removal r a) ∧ groups_used (finish_removal r a) ∧
  rows_of heap (finish_removal r a) = rows_of heap r.
Proof.
  intros Hwf Hused. unfold finish_removal.
  destruct (rg_groups r !! a) as [[k [|x l]]|] eqn:Ha; [|done..].
  split; [|done]. split; simpl; try apply Hwf.
  - intros x c Hc. destruct (rw_claimed _ _ Hwf _ _ Hc) as (Hx & ? & [g [Hg Hl]%upgrade_group_Some]).
    split_and!; [done..|]. exists g. apply upgrade_group_Some. simpl. split; [done|].
    destruct Hl as [Hl|Hl]; [|by right]. left. apply elem_of_difference. split; [done|].
    intros Hac%elem_of_singleton. rewrite Hac, Ha in Hg. injection Hg as <-.
    apply (rw_members _ _ Hwf) in Ha. simpl in Ha. symmetry in Ha.
    assert (x ∈ (filter (λ y, home heap y = Some a) (rg_residents r))) as Hin.
    { apply list_elem_of_filter. split; [|done]. unfold home. by rewrite Hc, <- Hac. }
    rewrite Ha in Hin. by apply not_elem_of_nil in Hin.
  - intros k' x Hkx. destruct (rw_mapped _ _ Hwf _ _ Hkx) as (? & ?). split; [|done]. set_solver.
  - intros x Hx. apply (rw_detached _ _ Hwf). set_solver.
Qed.

(** * Release *)

(** Removing a member of a duplicate-free list. *)
Lemma remove_first_resident (l : list Addr) x :
  NoDup l →
  match remove_first (λ y, bool_decide (y = x)) l with
  | Some (y, rest) => y = x ∧ x ∈ l ∧ rest = filter (λ y, y ≠ x) l
  | None => x ∉ l
  end.
Proof.
  intros Hnd. destruct (remove_first _ l) as [[y rest]|] eqn:E.
  - apply remove_first_Some in E as (l1 & l2 & -> & -> & ->%bool_decide_eq_true & _).
    apply NoDup_app in Hnd as (_ & Hdis & [Hx Hnd]%NoDup_cons). split_and!; [done|set_solver|].
    rewrite filter_app, filter_cons_False by tauto.
    f_equal; symmetry; apply filter_all; intros y Hy ->; set_solver.
  - intros Hin. apply (proj1 (remove_first_None _ _) E) in Hin. by apply bool_decide_eq_false in Hin.
Qed.

Section released.
Context (heap : gmap Addr Fiber) (r : Registry) (Hwf : registry_wf heap r) (Hused : groups_used r).
Context (fiber : Addr) (f : Fiber) (Hheap : heap !! fiber = Some f).
Context (claim : ResidencyClaim) (Hclaim : f_residency f = Some claim).

Let a := rc_allocation claim.
Let heap' := <[ fiber := set_f_residency None f ]> heap.
Let rest := filter (λ y, y ≠ fiber) (rg_residents r).

Lemma released_home x : home heap' x = if decide (x = fiber) then None else home heap x.
Proof. unfold heap'. rewrite home_set by done. by case_decide. Qed.

Lemma released_members b :
  filter (λ y, home heap' y = Some b) rest =
  filter (λ y, y ≠ fiber) (filter (λ y, home heap y = Some b) (rg_residents r)).
Proof.
  unfold rest. rewrite !list_filter_filter. apply filter_ext_in. intros y Hy.
  rewrite released_home. case_decide; naive_solver.
Qed.

(** The Registry after the release, in closed form. *)
Lemma release_residency_eq :
  ∃ g, rg_groups r !! a = Some g ∧ (a ∈ rg_detached r ∨ rg_allocations r !! pg_id g = Some a) ∧
    fiber ∈ pg_fibers g ∧
    let left := filter (λ y, y ≠ fiber) (pg_fibers g) in
    release_residency heap r fiber =
      (heap', {| rg_next := rg_next r;
                 rg_groups := <[ a := {| pg_id := pg_id g; pg_fibers := left |} ]> (rg_groups r);
                 rg_detached := rg_detached r;
                 rg_allocations := if bool_decide (rg_allocations r !! pg_id g = Some a) && bool_decide (left = [])
                                   then delete (pg_id g) (rg_allocations r) else rg_allocations r;
                 rg_residents := rest |}).
Proof.
  assert (claim_of heap fiber = Some claim) as Hc by (unfold claim_of; by rewrite Hheap).
  destruct (rw_claimed _ _ Hwf _ _ Hc) as (Hin & Hrc & [g Hup]).
  pose proof Hup as [Hg Hl]%upgrade_group_Some. exists g.
  assert (fiber ∈ pg_fibers g) as Hm.
  { rewrite (rw_members _ _ Hwf _ _ Hg). apply list_elem_of_filter. split; [|done].
    unfold home. by rewrite Hc. }
  split_and!; [done..|]. unfold release_residency. rewrite Hheap, Hclaim. unfold release.
  rewrite Hup, Hrc. unfold heap' at 1. rewrite lookup_insert_eq. fold heap' a. cbv zeta. unfold take_fiber.
  assert (NoDup (pg_fibers g)) as Hnd.
  { rewrite (rw_members _ _ Hwf _ _ Hg). apply NoDup_filter, Hwf. }
  pose proof (remove_first_resident _ fiber Hnd) as H1.
  pose proof (remove_first_resident _ fiber (rw_nodup _ _ Hwf)) as H2.
  destruct (remove_first _ (pg_fibers g)) as [[y l]|]; [|done]. destruct H1 as (_ & _ & ->).
  destruct (remove_first _ (rg_residents r)) as [[z l']|]; [|done]. destruct H2 as (_ & _ & ->).
  done.
Qed.

Lemma release_rows :
  let '(heap1, r1) := release_residency heap r fiber in
  rows_of heap1 r1 = filter (λ row, row_fiber row ≠ fiber) (rows_of heap r).
Proof.
  destruct release_residency_eq as (g & Hg & Hl & Hin & ->). unfold rows_of. cbn [rg_residents]. unfold rest.
  set (r1 := {| rg_next := _; rg_groups := _; rg_detached := _; rg_allocations := _; rg_residents := _ |}).
  assert (∀ x, x ∈ rg_residents r → x ≠ fiber → row_of heap' r1 x = row_of heap r x) as Hrow.
  { intros x Hx Hne. destruct (resident_home _ _ Hwf x Hx) as (b & gb & Hb & Hgb & Hlb & Hmb).
    unfold row_of. rewrite released_home, decide_False by done. rewrite Hb. cbn.
    destruct (decide (b = a)) as [->|Hba].
    - rewrite lookup_insert_eq, Hg. cbn. simplify_eq.
      rewrite (bool_decide_false (filter _ (pg_fibers g) = [])); [by rewrite andb_false_r|].
      intros Hnil. assert (x ∈ filter (λ y, y ≠ fiber) (pg_fibers g)) as Hx' by (by apply list_elem_of_filter).
      rewrite Hnil in Hx'. by apply not_elem_of_nil in Hx'.
    - rewrite lookup_insert_ne by done. rewrite Hgb. cbn. do 3 f_equal.
      apply bool_decide_ext. case_match; [|done].
      destruct (decide (pg_id g = pg_id gb)) as [Heq|Hne'].
      + rewrite Heq, lookup_delete_eq. split; [done|]. intros Hk.
        apply andb_true_iff in H as [H%bool_decide_eq_true _]. congruence.
      + by rewrite lookup_delete_ne. }
  clearbody r1. subst rest. clear -Hrow. induction (rg_residents r) as [|x l IH]; [done|].
  specialize (IH ltac:(intros; apply Hrow; [by right|done])).
  rewrite filter_cons. case_decide as Hx; csimpl; [rewrite Hrow by (done || by left)|]; rewrite IH;
    (destruct (row_of heap r x) as [row|] eqn:Er; [|done]); apply row_of_fiber in Er; subst x.
  - by rewrite filter_cons_True.
  - rewrite filter_cons_False; [done|tauto].
Qed.

Lemma release_wf :
  let '(heap1, r1) := release_residency heap r fiber in registry_wf heap1 r1 ∧ groups_used r1.
Proof.
  destruct release_residency_eq as (g & Hg & Hl & Hin & ->).
  set (left := filter (λ y, y ≠ fiber) (pg_fibers g)).
  set (prune := bool_decide (rg_allocations r !! pg_id g = Some a) && bool_decide (left = [])).
  assert (∀ k x, (if prune then delete (pg_id g) (rg_allocations r) else rg_allocations r) !! k = Some x →
          rg_allocations r !! k = Some x ∧ (x = a → left ≠ [])) as Hmap.
  { intros k x Hkx. subst prune. destruct (bool_decide_reflect (rg_allocations r !! pg_id g = Some a)) as [Hm|Hm];
      destruct (bool_decide_reflect (left = [])) as [He|He]; simpl in Hkx; try (by split).
    - apply lookup_delete_Some in Hkx as [Hne Hkx]. split; [done|]. intros ->.
      destruct (rw_mapped _ _ Hwf _ _ Hkx) as (_ & g' & ? & ?). congruence.
    - split; [done|]. intros -> _. destruct (rw_mapped _ _ Hwf _ _ Hkx) as (_ & g' & ? & ?). congruence. }
  split.
  - split; simpl.
    + apply NoDup_filter, Hwf.
    + intros x c. unfold heap'. rewrite (claim_of_set _ _ f) by done. case_decide as Hx; [done|]. intros Hc.
      destruct (rw_claimed _ _ Hwf _ _ Hc) as (Hres & ? & [gc [Hgc Hlc]%upgrade_group_Some]).
      split_and!; [by apply list_elem_of_filter|done|].
      destruct (decide (rc_allocation c = a)) as [Heq|Hne].
      * exists {| pg_id := pg_id g; pg_fibers := left |}. apply upgrade_group_Some. simpl.
        rewrite Heq, lookup_insert_eq. split; [done|]. destruct Hl as [Hl|Hl]; [by left|]. right.
        assert (x ∈ left) as Hx'.
        { apply list_elem_of_filter. split; [done|]. rewrite (rw_members _ _ Hwf _ _ Hg).
          apply list_elem_of_filter. split; [|done]. unfold home. by rewrite Hc, <- Heq. }
        subst prune. rewrite (bool_decide_false (left = [])); [by rewrite andb_false_r|].
        intros Hnil. rewrite Hnil in Hx'. by apply not_elem_of_nil in Hx'.
      * exists gc. apply upgrade_group_Some. simpl. rewrite lookup_insert_ne by done. split; [done|].
        destruct Hlc as [Hlc|Hlc]; [by left|]. right. subst prune. case_match; [|done].
        apply andb_true_iff in H0 as [H0%bool_decide_eq_true _].
        rewrite lookup_delete_ne; [done|congruence].
    + intros x [Hne Hx]%list_elem_of_filter. unfold heap'. rewrite (claim_of_set _ _ f) by done.
      rewrite decide_False by done. by apply (rw_resident _ _ Hwf).
    + intros b gb. fold rest. rewrite released_members. destruct (decide (b = a)) as [->|Hne].
      * rewrite lookup_insert_eq. intros [= <-]. simpl. by rewrite <- (rw_members _ _ Hwf _ _ Hg).
      * rewrite lookup_insert_ne by done. intros Hgb. rewrite <- (rw_members _ _ Hwf _ _ Hgb). symmetry.
        apply filter_all. intros y Hy ->. rewrite (rw_members _ _ Hwf _ _ Hgb) in Hy.
        rewrite (rw_members _ _ Hwf _ _ Hg) in Hin.
        apply list_elem_of_filter in Hy as [Hy _], Hin as [Hin _]. congruence.
    + intros k x [Hkx _]%Hmap. destruct (rw_mapped _ _ Hwf _ _ Hkx) as (? & g' & Hg' & ?). split; [done|].
      destruct (decide (x = a)) as [->|Hne]; [|exists g'; by rewrite lookup_insert_ne].
      rewrite lookup_insert_eq. eexists; split; [done|]. simpl. congruence.
    + intros x [->|Hx]%lookup_insert_is_Some'; apply (rw_fresh _ _ Hwf); [by eexists|done].
    + intros x Hx. apply lookup_insert_is_Some'. right. by apply (rw_detached _ _ Hwf).
  - intros k x gx [Hkx Hne]%Hmap. simpl. destruct (decide (x = a)) as [->|Hxa].
    + rewrite lookup_insert_eq. intros [= <-]. by apply Hne.
    + rewrite lookup_insert_ne by done. intros Hgx. by eapply Hused.
Qed.
End released.

(** A release by a Fiber that is not resident changes nothing. *)
Lemma release_absent heap r fiber :
  registry_wf heap r → fiber ∉ rg_residents r →
  let '(heap1, r1) := release_residency heap r fiber in
  r1 = r ∧ (∀ x, claim_of heap1 x = claim_of heap x) ∧ dom heap1 = dom heap.
Proof.
  intros Hwf Hf. pose proof (not_resident_unclaimed _ _ Hwf _ Hf) as Hc. unfold release_residency.
  destruct (heap !! fiber) as [f|] eqn:Hh; [|done].
  assert (f_residency f = None) as Hr by (unfold claim_of in Hc; by rewrite Hh in Hc). rewrite Hr.
  split_and!; [done| |apply dom_insert_lookup_L; by eexists].
  intros x. rewrite (claim_of_set _ _ f) by done. case_decide; by subst.
Qed.

Lemma registry_wf_ext heap heap' r :
  (∀ x, claim_of heap' x = claim_of heap x) →
  registry_wf heap r → registry_wf heap' r ∧ rows_of heap' r = rows_of heap r.
Proof.
  intros Hc Hwf. assert (∀ x, home heap' x = home heap x) as Hh by (intros; unfold home; by rewrite Hc).
  split; [split; try apply Hwf|].
  - intros x c. rewrite Hc. apply Hwf.
  - intros x. rewrite Hc. apply Hwf.
  - intros a g Hg. rewrite (rw_members _ _ Hwf _ _ Hg). apply filter_ext_in. intros x _. by rewrite Hh.
  - unfold rows_of. apply omap_ext_in. intros x _. unfold row_of. by rewrite Hh.
Qed.

(** One operation of the Registry and of the abstract one. *)
Lemma reg_step_refines op heap r :
  registry_wf heap r → groups_used r →
  (∀ key fiber, op = OpAttach key fiber → is_Some (heap !! fiber)) →
  match reg_run op (heap, r) with
  | Some (out, (heap', r')) =>
      reg_spec op (rows_of heap r) = Some (out, rows_of heap' r') ∧
      registry_wf heap' r' ∧ groups_used r' ∧ dom heap' = dom heap
  | None => reg_spec op (rows_of heap r) = None
  end.
Proof.
  intros Hwf Hused Hlive. destruct op as [key fiber|doomed key|a|fiber|]; cbn [reg_run mbind option_bind].
  - cbn [reg_spec]. rewrite (rows_of_fibers _ _ Hwf). case_decide as Hf.
    { by rewrite attach_fiber_refused. }
    destruct (attach_fiber_spec heap r key fiber Hwf Hused Hf) as (h' & r' & Ha & ? & ? & ? & Hr); [by eapply Hlive|].
    rewrite Ha. cbn [mbind option_bind]. by rewrite Hr.
  - destruct (detach_for_removal_spec doomed heap r key Hwf Hused) as (out & r' & Hd & ? & ? & Hs).
    rewrite Hd. cbn [mbind option_bind]. by rewrite Hs.
  - destruct (finish_removal_spec heap r a Hwf Hused) as (? & ? & Hr). cbn [reg_spec]. by rewrite Hr.
  - cbn [reg_spec]. destruct (decide (fiber ∈ rg_residents r)) as [Hin|Hnin].
    + destruct (rw_resident _ _ Hwf _ Hin) as [c Hc]. unfold claim_of in Hc.
      apply bind_Some in Hc as (f & Hf & Hc).
      pose proof (release_wf _ _ Hwf Hused _ _ Hf _ Hc) as Hw.
      pose proof (release_rows _ _ Hwf _ _ Hf _ Hc) as Hr.
      destruct (release_residency_eq _ _ Hwf _ _ Hf _ Hc) as (g & _ & _ & _ & Heq).
      rewrite Heq in *. destruct Hw. rewrite Hr. split_and!; [done..|].
      apply dom_insert_lookup_L. by eexists.
    + pose proof (release_absent heap r fiber Hwf Hnin) as Ha.
      destruct (release_residency heap r fiber) as [h' r']. destruct Ha as (-> & Hc & Hd).
      destruct (registry_wf_ext heap h' r Hc Hwf) as [Hwf' ->]. split_and!; try done.
      f_equal. f_equal. apply filter_all. intros row Hrow <-.
      apply Hnin. rewrite <- (rows_of_fibers _ _ Hwf). apply list_elem_of_fmap. by eexists.
  - cbn [reg_spec]. by rewrite (rows_of_fibers _ _ Hwf).
Qed.

(** * Properties *)

(** [C38] The Registry refines the plain table of admission rows.  For every sequence of
    attachments, detachments, releases and snapshots of allocated Fibers, from an empty
    Registry, the results are those of the abstract table: a snapshot lists the resident
    Fibers in admission order; a bulk removal freezes exactly the Fibers admitted under
    its key since the key was last detached, or is refused, changing nothing, by the
    first member it would wait on; releasing a Fiber removes that occurrence and nothing
    else, from a detached group as well as from a current one, a second time without
    effect; and attaching panics exactly for a Fiber that is already resident. *)
Theorem registry_refines (heap : gmap Addr Fiber) (ops : list RegOp)
    (Hheap : ∀ fiber f, heap !! fiber = Some f → f_residency f = None)
    (Hlive : ∀ key fiber, OpAttach key fiber ∈ ops → is_Some (heap !! fiber)) :
  match reg_run_all ops (heap, Registry_new) with
  | Some (outs, (heap', r')) =>
      reg_spec_all ops [] = Some (outs, rows_of heap' r') ∧ registry_wf heap' r'
  | None => reg_spec_all ops [] = None
  end.
Proof.
  assert (registry_wf heap Registry_new) as Hwf.
  { apply registry_wf_new. intros x. unfold claim_of. destruct (heap !! x) eqn:E; [|done]. by eapply Hheap. }
  assert (groups_used Registry_new) as Hused by (intros k a g Hk; simpl in Hk; by rewrite lookup_empty in Hk).
  change [] with (rows_of heap Registry_new).
  revert Hwf Hused. generalize Registry_new. clear Hheap. revert heap Hlive.
  induction ops as [|op ops IH]; intros heap Hlive r Hwf Hused; [done|].
  pose proof (reg_step_refines op heap r Hwf Hused
    ltac:(intros k f ->; apply (Hlive k); by left)) as Hstep.
  cbn [reg_run_all reg_spec_all]. destruct (reg_run op (heap, r)) as [[out [h1 r1]]|].
  - destruct Hstep as (-> & Hwf1 & Hused1 & Hdom). cbn [mbind option_bind].
    specialize (IH h1 ltac:(intros k f Hin; apply elem_of_dom; rewrite Hdom; apply elem_of_dom, (Hlive k); by right)
                  r1 Hwf1 Hused1).
    destruct (reg_run_all ops (h1, r1)) as [[outs [h2 r2]]|]; cbn [mbind option_bind].
    + destruct IH as [-> ?]. done.
    + by rewrite IH.
  - by rewrite Hstep.
Qed.

(** Two Fibers of one key, its bulk removal, a third Fiber admitted before the members
    are released: the replacement group keeps its member. *)
Example registry_refines_witness :
  let heap : gmap Addr Fiber := <[ 1 := Fiber_new 1 "a" ]> (<[ 2 := Fiber_new 2 "b" ]> {[ 3 := Fiber_new 3 "c" ]}) in
  let key := Typed 7 in
  let ops := [OpAttach key 1; OpAttach key 2; OpDetach (λ _, false) key; OpAttach key 3;
              OpRelease 1; OpRelease 2; OpRelease 1; OpSnapshot; OpDetach (λ _, false) key] in
  ∃ rows, reg_spec_all ops [] =
    Some ([OutDone; OutDone; OutDetached (Ok (Some [1; 2])); OutDone; OutDone; OutDone; OutDone;
           OutFibers [3]; OutDetached (Ok (Some [3]))], rows).
Proof.
  intros heap key ops. pose proof (registry_refines heap ops) as H.
  assert (∀ fiber f, heap !! fiber = Some f → f_residency f = None) as H1.
  { intros x f Hx. unfold heap in Hx. repeat apply lookup_insert_Some in Hx as [[_ <-]|[_ Hx]]; try done.
    by apply lookup_singleton_Some in Hx as [_ <-]. }
  assert (∀ key fiber, OpAttach key fiber ∈ ops → is_Some (heap !! fiber)) as H2.
  { intros k x Hx. unfold ops in Hx. repeat (apply elem_of_cons in Hx as [Hx|Hx]; [try discriminate Hx; injection Hx as _ ->; vm_compute; by eexists|]).
    by apply not_elem_of_nil in Hx. }
  specialize (H H1 H2). destruct (reg_run_all ops (heap, Registry_new)) as [[outs [h r]]|] eqn:E;
    [|vm_compute in E; discriminate E].
  assert (outs = [OutDone; OutDone; OutDetached (Ok (Some [1; 2])); OutDone; OutDone; OutDone; OutDone;
           OutFibers [3]; OutDetached (Ok (Some [3]))]) as <-.
  { apply (f_equal (fmap (M := option) fst)) in E. vm_compute in E. by injection E. }
  exists (rows_of h r). exact (proj1 H).
Defined.
