(* ===== verification/Deps.v ===== *)
(** The dependency index (crates/cordis-core/src/deps.rs): a derived reverse map from
    exact Service slots to the Fibers that declare them, and the authoritative scan of
    resident Fibers it accelerates (crates/cordis-core/src/context.rs,
    [Root::dependents_for_edges]).

    Every operation is one critical section of the index mutex. *)
From S2P Require Import Prelude Axes BTree Lifecycle Journal Plugin Fiber Registry.

Abbreviation EdgeKey := (string * RealmKey)%type (only parsing).

(* @src crates/cordis-core/src/deps.rs 30-33 Dependent *)
Record Dependent := { dp_id : Addr; dp_fiber : Addr }.

(* @src crates/cordis-core/src/deps.rs 23-28 IndexState *)
Record DependencyIndex := { ix_reverse : gmap EdgeKey (list Dependent); ix_complete : bool }.

(* @src crates/cordis-core/src/deps.rs 36-43 DependencyIndex::default *)
Definition DependencyIndex_new : DependencyIndex := {| ix_reverse := ∅; ix_complete := true |}.

(** [entry(key).or_default().push(row)] *)
Definition push_row (row : Dependent) (m : gmap EdgeKey (list Dependent)) (key : EdgeKey) :=
  <[ key := default [] (m !! key) ++ [row] ]> m.

(* @src crates/cordis-core/src/deps.rs 57-82 DependencyIndex::register *)
Definition register (ix : DependencyIndex) (fiber : Addr) (f : Fiber) : DependencyIndex :=
  if negb (ix_complete ix) then ix
  else if negb (f_alive f) then ix
  else {| ix_reverse := fold_left (push_row {| dp_id := f_id f; dp_fiber := fiber |})
                          (edge_key <$> f_edges f) (ix_reverse ix);
          ix_complete := ix_complete ix |}.

(** One edge of [unregister]: the rows of [id] leave, an emptied list is removed. *)
Definition retain_others (id : Addr) (m : gmap EdgeKey (list Dependent)) (key : EdgeKey) :=
  match m !! key with
  | None => m
  | Some l => match filter (λ d, dp_id d ≠ id) l with
              | [] => delete key m
              | l => <[ key := l ]> m
              end
  end.

(* @src crates/cordis-core/src/deps.rs 88-100 DependencyIndex::unregister *)
Definition unregister (ix : DependencyIndex) (f : Fiber) : DependencyIndex :=
  {| ix_reverse := fold_left (retain_others (f_id f)) (edge_key <$> f_edges f) (ix_reverse ix);
     ix_complete := ix_complete ix |}.

(** The rows whose Fiber can be upgraded. *)
Definition upgradable (heap : gmap Addr Fiber) (l : list Dependent) : list Dependent :=
  filter (λ d, is_Some (heap !! dp_fiber d)) l.

(** The loop over the requested edges: upgraded Fibers with their identity, the pruned
    map, the edges found empty. *)
Fixpoint collect (heap : gmap Addr Fiber) (m : gmap EdgeKey (list Dependent)) (edges : list EdgeKey)
    : list (Addr * Addr) * gmap EdgeKey (list Dependent) * list EdgeKey :=
  match edges with
  | [] => ([], m, [])
  | edge :: edges =>
      match m !! edge with
      | None => collect heap m edges
      | Some l =>
          let retained := upgradable heap l in
          let '(upgraded, m, emptied) := collect heap (<[ edge := retained ]> m) edges in
          (((λ d, (dp_id d, dp_fiber d)) <$> retained) ++ upgraded, m,
           if decide (retained = []) then edge :: emptied else emptied)
      end
  end.

(** The first occurrence of each identity. *)
Fixpoint unique_by_id (seen : gset Addr) (l : list (Addr * Addr)) : list Addr :=
  match l with
  | [] => []
  | (id, fiber) :: l =>
      if decide (id ∈ seen) then unique_by_id seen l else fiber :: unique_by_id ({[ id ]} ∪ seen) l
  end.

(* @src crates/cordis-core/src/deps.rs 111-156 DependencyIndex::dependents_of *)
Definition dependents_of (heap : gmap Addr Fiber) (ix : DependencyIndex) (edges : list EdgeKey)
    : option (list Addr) * DependencyIndex :=
  if negb (ix_complete ix) then (None, ix)
  else
    let '(upgraded, m, emptied) := collect heap (ix_reverse ix) edges in
    (Some (unique_by_id ∅ upgraded),
     {| ix_reverse := fold_left (λ m edge, delete edge m) emptied m; ix_complete := ix_complete ix |}).

(** Whether the Fiber declares one of the edges. *)
Definition declares (edges : list EdgeKey) (f : Fiber) : Prop :=
  Exists (λ e, edge_key e ∈ edges) (f_edges f).

#[export] Instance declares_dec edges f : Decision (declares edges f).
Proof. unfold declares. apply _. Defined.

Definition is_dependent (heap : gmap Addr Fiber) (edges : list EdgeKey) (fiber : Addr) : Prop :=
  match heap !! fiber with Some f => f_alive f = true ∧ declares edges f | None => False end.

#[export] Instance is_dependent_dec heap edges fiber : Decision (is_dependent heap edges fiber).
Proof. unfold is_dependent. destruct (heap !! fiber); apply _. Defined.

(** The part of [Root] a Service commit reads: the Fibers, the Registry, the index. *)
Record Graph := { gr_fibers : gmap Addr Fiber; gr_registry : Registry; gr_deps : DependencyIndex }.

(** The affected Fibers, and the residents retained by the fallback. *)
(* @src crates/cordis-core/src/context.rs 101-124 Root::dependents_for_edges_with_retention *)
Definition dependents_for_edges_with_retention (g : Graph) (edges : list EdgeKey)
    : list Addr * list Addr * Graph :=
  match dependents_of (gr_fibers g) (gr_deps g) edges with
  | (Some indexed, ix) =>
      (indexed, [], {| gr_fibers := gr_fibers g; gr_registry := gr_registry g; gr_deps := ix |})
  | (None, ix) =>
      let retained_snapshot := snapshot_fibers (gr_registry g) in
      (filter (is_dependent (gr_fibers g) edges) retained_snapshot, retained_snapshot,
       {| gr_fibers := gr_fibers g; gr_registry := gr_registry g; gr_deps := ix |})
  end.

(* @src crates/cordis-core/src/context.rs 96-99 Root::dependents_for_edges *)
Definition dependents_for_edges (g : Graph) (edges : list EdgeKey) : list Addr :=
  (dependents_for_edges_with_retention g edges).1.1.

(** * The index against the Fibers it serves *)

Definition rows_at (m : gmap EdgeKey (list Dependent)) (key : EdgeKey) : list Dependent :=
  default [] (m !! key).

(** [served] are the Fibers whose registration succeeded and that have not been
    unregistered; identities are those of the allocation. *)
Record index_wf (heap : gmap Addr Fiber) (served : gset Addr) (m : gmap EdgeKey (list Dependent)) : Prop := {
  iw_ids : ∀ fiber f, heap !! fiber = Some f → f_id f = fiber;
  iw_rows : ∀ key d, d ∈ rows_at m key →
    dp_id d = dp_fiber d ∧ ∀ f, heap !! dp_fiber d = Some f →
      dp_fiber d ∈ served ∧ key ∈ edge_key <$> f_edges f;
  iw_served : ∀ fiber f key, fiber ∈ served → heap !! fiber = Some f → key ∈ edge_key <$> f_edges f →
    ∃ d, d ∈ rows_at m key ∧ dp_fiber d = fiber;
}.

Lemma rows_at_push row m key key' :
  rows_at (push_row row m key) key' = rows_at m key' ++ (if decide (key' = key) then [row] else []).
Proof.
  unfold rows_at, push_row. case_decide as Hk.
  - subst. by rewrite lookup_insert_eq.
  - by rewrite lookup_insert_ne, app_nil_r.
Qed.

Lemma rows_at_push_all row keys m key d :
  d ∈ rows_at (fold_left (push_row row) keys m) key ↔ d ∈ rows_at m key ∨ (d = row ∧ key ∈ keys).
Proof.
  revert m. induction keys as [|k keys IH]; intros m; simpl; [set_solver|].
  rewrite IH, rows_at_push. case_decide; set_solver.
Qed.

Lemma rows_at_retain id m key key' :
  rows_at (retain_others id m key) key' =
  if decide (key' = key) then filter (λ d, dp_id d ≠ id) (rows_at m key') else rows_at m key'.
Proof.
  unfold rows_at, retain_others. case_decide as Hk.
  - subst. destruct (m !! key) as [l|] eqn:Hl; [|by rewrite Hl]. simpl.
    destruct (filter _ l) eqn:Hf; [by rewrite lookup_delete_eq|by rewrite lookup_insert_eq].
  - destruct (m !! key) as [l|]; [|done].
    destruct (filter _ l); [by rewrite lookup_delete_ne|by rewrite lookup_insert_ne].
Qed.

Lemma rows_at_retain_all id keys m key d :
  d ∈ rows_at (fold_left (retain_others id) keys m) key ↔
  d ∈ rows_at m key ∧ (key ∈ keys → dp_id d ≠ id).
Proof.
  revert m. induction keys as [|k keys IH]; intros m; simpl; [set_solver|].
  rewrite IH, rows_at_retain. case_decide as Hk; [rewrite list_elem_of_filter|]; set_solver.
Qed.

Lemma rows_at_delete_all keys m key :
  (∀ k, k ∈ keys → rows_at m k = []) →
  rows_at (fold_left (λ m edge, delete edge m) keys m) key = rows_at m key.
Proof.
  revert m. induction keys as [|k keys IH]; intros m Hk; simpl; [done|].
  assert (∀ k', rows_at (delete k m) k' = rows_at m k') as Hdel.
  { intros k'. unfold rows_at at 1. destruct (decide (k' = k)) as [->|Hne].
    - rewrite lookup_delete_eq. symmetry. apply Hk. by left.
    - by rewrite lookup_delete_ne. }
  rewrite IH; [done|]. intros k' Hk'. rewrite Hdel. apply Hk. by right.
Qed.

(** * Queries *)

Lemma collect_spec heap edges m :
  let '(upgraded, m', emptied) := collect heap m edges in
  (∀ x, x ∈ upgraded ↔ ∃ key d, key ∈ edges ∧ d ∈ rows_at m key ∧
     is_Some (heap !! dp_fiber d) ∧ x = (dp_id d, dp_fiber d)) ∧
  (∀ key d, d ∈ rows_at m' key → d ∈ rows_at m key) ∧
  (∀ key d, d ∈ rows_at m key → is_Some (heap !! dp_fiber d) → d ∈ rows_at m' key) ∧
  (∀ key, key ∈ emptied → rows_at m' key = []).
Proof.
  revert m. induction edges as [|edge edges IH]; intros m; cbn [collect]; [set_solver|].
  destruct (m !! edge) as [l|] eqn:Hl.
  - set (m1 := <[ edge := upgradable heap l ]> m).
    assert (∀ key, rows_at m1 key = if decide (key = edge) then upgradable heap l else rows_at m key) as Hm1.
    { intros key. unfold rows_at, m1. case_decide; subst; [by rewrite lookup_insert_eq|by rewrite lookup_insert_ne]. }
    assert (rows_at m edge = l) as Hle by (unfold rows_at; by rewrite Hl).
    assert (∀ d, d ∈ upgradable heap l ↔ is_Some (heap !! dp_fiber d) ∧ d ∈ l) as Hup
      by (intros d; unfold upgradable; by rewrite list_elem_of_filter).
    specialize (IH m1). destruct (collect heap m1 edges) as [[upgraded m'] emptied].
    destruct IH as (IHu & IHs & IHk & IHe). split_and!.
    + intros x. rewrite elem_of_app, IHu, list_elem_of_fmap. split.
      * intros [(d & -> & [Hd Hin]%Hup)|(key & d & Hk & Hd & Hx & ->)].
        -- exists edge, d. rewrite Hle. split_and!; [by left|done..].
        -- exists key, d. rewrite Hm1 in Hd. split_and!; [by right| |done..].
           case_decide; [|done]. subst. by apply Hup in Hd as [_ ?].
      * intros (key & d & Hk & Hd & Hx & ->). destruct (decide (key = edge)) as [->|Hne].
        -- left. exists d. split; [done|]. apply Hup. by rewrite Hle in Hd.
        -- right. exists key, d. rewrite Hm1, decide_False by done. set_solver.
    + intros key d Hd%IHs. rewrite Hm1 in Hd. case_decide; [|done]. subst. by apply Hup in Hd as [_ ?].
    + intros key d Hd Hx. apply IHk; [|done]. rewrite Hm1. case_decide; [|done]. apply Hup. by subst.
    + intros key Hin. assert (key ∈ emptied ∨ key = edge ∧ upgradable heap l = []) as [Hin'|[-> Hnil]]
        by (case_decide; set_solver); [by apply IHe|].
      destruct (rows_at m' edge) as [|d rows] eqn:Hr; [done|].
      assert (d ∈ rows_at m1 edge) as Hd by (apply IHs; rewrite Hr; by left).
      rewrite Hm1, decide_True, Hnil in Hd by done. by apply not_elem_of_nil in Hd.
  - assert (rows_at m edge = []) as Hle by (unfold rows_at; by rewrite Hl).
    specialize (IH m). destruct (collect heap m edges) as [[upgraded m'] emptied].
    destruct IH as (IHu & IHs & IHk & IHe). split_and!; [|done..].
    intros x. rewrite IHu. split; intros (key & d & Hk & Hd & Hx); exists key, d; [set_solver|].
    split; [|by split]. apply elem_of_cons in Hk as [->|Hk]; [|done].
    rewrite Hle in Hd. by apply not_elem_of_nil in Hd.
Qed.

Lemma unique_by_id_spec seen l :
  (∀ x, x ∈ l → x.1 = x.2) →
  NoDup (unique_by_id seen l) ∧
  ∀ fiber, fiber ∈ unique_by_id seen l ↔ (fiber, fiber) ∈ l ∧ fiber ∉ seen.
Proof.
  revert seen. induction l as [|[id fiber] l IH]; intros seen Hl; cbn [unique_by_id].
  { split; [constructor|set_solver]. }
  assert (id = fiber) as -> by (apply (Hl (id, fiber)); by left).
  assert (∀ x, x ∈ l → x.1 = x.2) as Hl' by (intros; apply Hl; by right).
  case_decide as Hs.
  - destruct (IH seen Hl') as [Hnd Hin]. split; [done|]. intros x. rewrite Hin, elem_of_cons. naive_solver.
  - destruct (IH ({[ fiber ]} ∪ seen) Hl') as [Hnd Hin]. split.
    + constructor; [|done]. rewrite Hin. set_solver.
    + intros x. rewrite elem_of_cons, Hin, elem_of_cons. destruct (decide (x = fiber)); set_solver.
Qed.

(** A query answers with the allocated served Fibers that declare a requested edge, each
    once, and leaves the index serving the same Fibers. *)
Lemma dependents_of_spec heap served ix edges :
  index_wf heap served (ix_reverse ix) → ix_complete ix = true →
  ∃ l ix', dependents_of heap ix edges = (Some l, ix') ∧ ix_complete ix' = true ∧
    index_wf heap served (ix_reverse ix') ∧ NoDup l ∧
    ∀ fiber, fiber ∈ l ↔ fiber ∈ served ∧ ∃ f, heap !! fiber = Some f ∧ declares edges f.
Proof.
  intros Hwf Hc. unfold dependents_of. rewrite Hc. simpl.
  pose proof (collect_spec heap edges (ix_reverse ix)) as Hcol.
  destruct (collect heap (ix_reverse ix) edges) as [[upgraded m'] emptied].
  destruct Hcol as (Hu & Hs & Hk & He).
  destruct (unique_by_id_spec ∅ upgraded) as [Hnd Hin].
  { intros x (key & d & _ & Hd & _ & ->)%Hu. by apply (iw_rows _ _ _ Hwf) in Hd as [? _]. }
  eexists _, _. split; [reflexivity|]. split; [done|]. split; [|split; [done|]].
  - split; [apply Hwf| |]; simpl.
    + intros key d. rewrite rows_at_delete_all by done. intros Hd%Hs. by apply (iw_rows _ _ _ Hwf).
    + intros x f key Hx Hf Hkey. destruct (iw_served _ _ _ Hwf _ _ _ Hx Hf Hkey) as (d & Hd & <-).
      exists d. rewrite rows_at_delete_all by done. split; [|done]. apply Hk; [done|by eexists].
  - intros x. rewrite Hin, Hu. unfold declares. split.
    + intros [(key & d & Hkey & Hd & [f Hf] & Heq) _]. injection Heq as _ ->.
      destruct (iw_rows _ _ _ Hwf _ _ Hd) as [_ Hd']. destruct (Hd' f Hf) as [Hserved Hedge].
      split; [done|]. exists f. split; [done|]. apply Exists_exists.
      apply list_elem_of_fmap in Hedge as (e & -> & He'). by exists e.
    + intros (Hserved & f & Hf & (e & He' & Hkey)%Exists_exists). split; [|set_solver].
      destruct (iw_served _ _ _ Hwf x f (edge_key e) Hserved Hf) as (d & Hd & <-).
      { apply list_elem_of_fmap. by exists e. }
      exists (edge_key e), d. destruct (iw_rows _ _ _ Hwf _ _ Hd) as [-> _]. split_and!; [done..|by eexists|done].
Qed.

(** * Updates *)

Lemma register_wf heap served ix fiber f :
  index_wf heap served (ix_reverse ix) → heap !! fiber = Some f → f_alive f = true → ix_complete ix = true →
  index_wf heap ({[ fiber ]} ∪ served) (ix_reverse (register ix fiber f)).
Proof.
  intros Hwf Hf Ha Hc. unfold register. rewrite Hc, Ha. simpl.
  pose proof (iw_ids _ _ _ Hwf _ _ Hf) as Hid. split; [apply Hwf| |].
  - intros key d [Hd|[-> Hk]]%rows_at_push_all.
    + destruct (iw_rows _ _ _ Hwf _ _ Hd) as [? Hh]. split; [done|]. intros f' Hf'.
      destruct (Hh f' Hf'). split; [set_solver|done].
    + simpl. split; [done|]. intros f' Hf'. simplify_eq. split; [set_solver|done].
  - intros x f' key Hx Hf' Hkey. setoid_rewrite rows_at_push_all.
    destruct (decide (x = fiber)) as [->|Hne].
    + eexists. split; [right; split; [reflexivity|]|done]. by simplify_eq.
    + destruct (iw_served _ _ _ Hwf x f' key) as (d & Hd & <-); [set_solver|done..|].
      exists d. split; [by left|done].
Qed.

Lemma unregister_wf heap served ix fiber f :
  index_wf heap served (ix_reverse ix) → heap !! fiber = Some f →
  index_wf heap (served ∖ {[ fiber ]}) (ix_reverse (unregister ix f)).
Proof.
  intros Hwf Hf. pose proof (iw_ids _ _ _ Hwf _ _ Hf) as Hid. split; [apply Hwf| |]; simpl.
  - intros key d [Hd Hne]%rows_at_retain_all. destruct (iw_rows _ _ _ Hwf _ _ Hd) as [Heq Hh].
    split; [done|]. intros f' Hf'. destruct (Hh f' Hf') as [Hs Hkey]. split; [|done].
    apply elem_of_difference. split; [done|]. intros Hx%elem_of_singleton.
    assert (f' = f) as -> by congruence. apply (Hne Hkey). congruence.
  - intros x f' key [Hx Hne%not_elem_of_singleton]%elem_of_difference Hf' Hkey.
    destruct (iw_served _ _ _ Hwf x f' key Hx Hf' Hkey) as (d & Hd & <-).
    exists d. split; [|done]. apply rows_at_retain_all. split; [done|].
    destruct (iw_rows _ _ _ Hwf _ _ Hd). congruence.
Qed.

(** The index does not look at the mutable part of a Fiber, and a dropped Fiber only
    leaves dead rows behind. *)
Lemma index_wf_heap heap heap' served m :
  index_wf heap served m →
  (∀ x f', heap' !! x = Some f' →
     (∃ f, heap !! x = Some f ∧ f_id f' = f_id f ∧ f_edges f' = f_edges f) ∨
     (f_id f' = x ∧ (x ∉ served) ∧ (∀ key d, d ∈ rows_at m key → dp_fiber d ≠ x))) →
  index_wf heap' served m.
Proof.
  intros Hwf Hh. split.
  - intros x f' Hf'. destruct (Hh x f' Hf') as [(f & Hf & -> & _)|[? _]]; [|done]. by apply (iw_ids _ _ _ Hwf).
  - intros key d Hd. destruct (iw_rows _ _ _ Hwf _ _ Hd) as [? Hrow]. split; [done|]. intros f' Hf'.
    destruct (Hh _ f' Hf') as [(f & Hf & _ & ->)|(_ & _ & Hne)]; [by apply Hrow|].
    by destruct (Hne key d Hd).
  - intros x f' key Hx Hf' Hkey. destruct (Hh _ f' Hf') as [(f & Hf & _ & He)|(_ & ? & _)]; [|done].
    rewrite He in Hkey. by eapply iw_served.
Qed.

(** Every row names an address below [n]. *)
Definition rows_below (n : Addr) (m : gmap EdgeKey (list Dependent)) : Prop :=
  ∀ key d, d ∈ rows_at m key → dp_fiber d < n.

Lemma dependents_of_rows heap ix edges key d :
  d ∈ rows_at (ix_reverse (dependents_of heap ix edges).2) key → d ∈ rows_at (ix_reverse ix) key.
Proof.
  unfold dependents_of. destruct (negb (ix_complete ix)); [done|].
  pose proof (collect_spec heap edges (ix_reverse ix)) as Hcol.
  destruct (collect heap (ix_reverse ix) edges) as [[upgraded m'] emptied].
  destruct Hcol as (_ & Hs & _ & He). simpl. rewrite rows_at_delete_all by done. apply Hs.
Qed.

(** * The index over the life of a Runtime *)

(** Allocation of a Fiber with its edges, the spawn path's registration, the death
    mark, the teardown's unregistration, the last [Arc] dropped, a query. *)
Inductive DepOp :=
| DNew (name : string) (edges : list DependencyEdge)
| DRegister (fiber : Addr)
| DKill (fiber : Addr)
| DUnregister (fiber : Addr)
| DDrop (fiber : Addr)
| DQuery (edges : list EdgeKey).

Record DepState := { ds_next : Addr; ds_heap : gmap Addr Fiber; ds_index : DependencyIndex }.

Definition on_fiber {A} (heap : gmap Addr Fiber) (fiber : Addr) (k : Fiber → A) (d : A) : A :=
  match heap !! fiber with Some f => k f | None => d end.

Definition dep_step (op : DepOp) (s : DepState) : option (list Addr) * DepState :=
  match op with
  | DNew name edges =>
      (None, {| ds_next := S (ds_next s);
                ds_heap := <[ ds_next s := Fiber_new_with_edges (ds_next s) name edges ]> (ds_heap s);
                ds_index := ds_index s |})
  | DRegister x =>
      (None, {| ds_next := ds_next s; ds_heap := ds_heap s;
                ds_index := on_fiber (ds_heap s) x (register (ds_index s) x) (ds_index s) |})
  | DKill x => (None, {| ds_next := ds_next s; ds_heap := alter (set_f_alive false) x (ds_heap s); ds_index := ds_index s |})
  | DUnregister x =>
      (None, {| ds_next := ds_next s; ds_heap := ds_heap s;
                ds_index := on_fiber (ds_heap s) x (unregister (ds_index s)) (ds_index s) |})
  | DDrop x => (None, {| ds_next := ds_next s; ds_heap := delete x (ds_heap s); ds_index := ds_index s |})
  | DQuery edges =>
      let '(answer, ix) := dependents_of (ds_heap s) (ds_index s) edges in
      (answer, {| ds_next := ds_next s; ds_heap := ds_heap s; ds_index := ix |})
  end.

(** Who must be found: registered while alive, not yet unregistered. *)
Definition dep_served (op : DepOp) (s : DepState) (served : gset Addr) : gset Addr :=
  match op with
  | DRegister x => on_fiber (ds_heap s) x (λ f, if f_alive f then {[ x ]} ∪ served else served) served
  | DUnregister x => on_fiber (ds_heap s) x (λ _, served ∖ {[ x ]}) served
  | _ => served
  end.

Fixpoint dep_run (ops : list DepOp) (s : DepState) (served : gset Addr) : DepState * gset Addr :=
  match ops with
  | [] => (s, served)
  | op :: ops => dep_run ops (dep_step op s).2 (dep_served op s served)
  end.

Definition dep_new : DepState := {| ds_next := 0; ds_heap := ∅; ds_index := DependencyIndex_new |}.

Record dep_wf (s : DepState) (served : gset Addr) : Prop := {
  dw_index : index_wf (ds_heap s) served (ix_reverse (ds_index s));
  dw_complete : ix_complete (ds_index s) = true;
  dw_rows : rows_below (ds_next s) (ix_reverse (ds_index s));
  dw_heap : ∀ x, is_Some (ds_heap s !! x) → x < ds_next s;
  dw_served : ∀ x, x ∈ served → x < ds_next s;
}.

Lemma dep_step_wf op s served : dep_wf s served → dep_wf (dep_step op s).2 (dep_served op s served).
Proof.
  intros [Hix Hc Hr Hh Hs]. destruct op as [name edges|x|x|x|x|edges]; simpl.
  - split; simpl; [|done| |intros y [<-|Hy]%lookup_insert_is_Some'; [lia|apply Hh in Hy; lia]|intros y Hy%Hs; lia].
    + eapply index_wf_heap; [done|]. intros y f' [[<- <-]|[Hne Hf]]%lookup_insert_Some; [right|left; by eexists].
      split_and!; [done|intros Hy%Hs; lia|]. intros key d Hd Hx. apply Hr in Hd. lia.
    + intros key d Hd%Hr. lia.
  - unfold on_fiber. destruct (ds_heap s !! x) as [f|] eqn:Hx; [|done].
    destruct (f_alive f) eqn:Ha.
    + split; simpl; [by apply register_wf| | |done|].
      * unfold register. by rewrite Hc, Ha.
      * unfold register. rewrite Hc, Ha. simpl. intros key d [Hd|[-> _]]%rows_at_push_all; [by eapply Hr|].
        simpl. apply Hh. by eexists.
      * intros y [->%elem_of_singleton|Hy]%elem_of_union; [apply Hh; by eexists|by apply Hs].
    + assert (register (ds_index s) x f = ds_index s) as -> by (unfold register; by rewrite Hc, Ha). done.
  - split; simpl; try done.
    + eapply index_wf_heap; [done|]. intros y f' Hy. left. destruct (decide (y = x)) as [->|Hne].
      * rewrite lookup_alter_eq in Hy. apply fmap_Some in Hy as (f & Hf & ->). by exists f.
      * rewrite lookup_alter_ne in Hy by done. by exists f'.
    + intros y Hy. apply Hh. by rewrite lookup_alter_is_Some in Hy.
  - unfold on_fiber. destruct (ds_heap s !! x) as [f|] eqn:Hx; [|done].
    split; simpl; [by apply unregister_wf|done| |done|intros y Hy; apply Hs; set_solver].
    intros key d [Hd _]%rows_at_retain_all. by eapply Hr.
  - split; simpl; try done.
    + eapply index_wf_heap; [done|]. intros y f' [_ Hy]%lookup_delete_Some. left. by exists f'.
    + intros y [f' [_ Hy]%lookup_delete_Some]. apply Hh. by eexists.
  - destruct (dependents_of_spec _ _ _ edges Hix Hc) as (l & ix' & Heq & Hc' & Hix' & _ & _).
    pose proof (dependents_of_rows (ds_heap s) (ds_index s) edges) as Hrows.
    rewrite Heq in *. split; simpl; try done. intros key d Hd%Hrows. by eapply Hr.
Qed.

(** The dependency index is only an acceleration.  After any sequence of Fiber
    allocations, registrations, deaths, unregistrations, drops and earlier queries, a
    query answers with the allocated Fibers that were registered while alive, were not
    unregistered since, and declare one of the requested slots: each exactly once,
    whatever duplicates the declarations, the request or the matching edges contain; a
    registration that loses the race against the death of its Fiber adds nothing. *)
Theorem index_answers_exactly (ops : list DepOp) (edges : list EdgeKey) :
  let '(s, served) := dep_run ops dep_new ∅ in
  ∃ l, (dep_step (DQuery edges) s).1 = Some l ∧ NoDup l ∧
    ∀ fiber, fiber ∈ l ↔ fiber ∈ served ∧ ∃ f, ds_heap s !! fiber = Some f ∧ declares edges f.
Proof.
  assert (dep_wf dep_new ∅) as Hwf.
  { split; simpl; [|done|..].
    - split; simpl; [intros x f Hx; by rewrite lookup_empty in Hx| |set_solver].
      intros key d Hd. unfold rows_at in Hd. rewrite lookup_empty in Hd. by apply not_elem_of_nil in Hd.
    - intros key d Hd. unfold rows_at in Hd. rewrite lookup_empty in Hd. by apply not_elem_of_nil in Hd.
    - intros x [f Hx]. by rewrite lookup_empty in Hx.
    - set_solver. }
  revert Hwf. generalize dep_new (∅ : gset Addr). induction ops as [|op ops IH]; intros s served Hwf; simpl.
  - destruct Hwf as [Hix Hc _ _ _].
    destruct (dependents_of_spec _ _ _ edges Hix Hc) as (l & ix' & -> & _ & _ & Hnd & Hin). by exists l.
  - apply (IH (dep_step op s).2). by apply dep_step_wf.
Qed.

(** * Leaving the index as it was *)

(** Rows of one identity only, at the keys in question and nowhere else. *)
Lemma push_all_lookup row keys m key :
  ∃ own, Forall (eq row) own ∧ (key ∉ keys → own = []) ∧
    fold_left (push_row row) keys m !! key =
      match m !! key with Some l => Some (l ++ own) | None => match own with [] => None | _ => Some own end end.
Proof.
  revert m. induction keys as [|k keys IH]; intros m; cbn.
  { exists []. split_and!; try done. destruct (m !! key); [by rewrite app_nil_r|done]. }
  destruct (IH (push_row row m k)) as (own & Hown & Hnin & Heq).
  destruct (decide (k = key)) as [->|Hne].
  - exists (row :: own). rewrite Heq. unfold push_row. rewrite lookup_insert_eq. split_and!; [by constructor|set_solver|].
    destruct (m !! key); cbn; [by rewrite <- app_assoc|done].
  - exists own. rewrite Heq. unfold push_row. rewrite lookup_insert_ne by done. split_and!; [done|set_solver|done].
Qed.

Lemma retain_others_lookup id m k key :
  retain_others id m k !! key =
  if decide (k = key) then l ← m !! key; match filter (λ d, dp_id d ≠ id) l with [] => None | l' => Some l' end else m !! key.
Proof.
  unfold retain_others. case_decide as Hk.
  - subst k. destruct (m !! key) as [l|] eqn:Hm; cbn; [|done].
    destruct (filter _ l); [apply lookup_delete_eq|apply lookup_insert_eq].
  - destruct (m !! k) as [l|]; [|done]. destruct (filter _ l); [by rewrite lookup_delete_ne|by rewrite lookup_insert_ne].
Qed.

Lemma retain_all_lookup id keys m key l :
  filter (λ d, dp_id d ≠ id) (default [] (m !! key)) = l →
  (key ∉ keys → m !! key = match l with [] => None | _ => Some l end) →
  fold_left (retain_others id) keys m !! key = match l with [] => None | _ => Some l end.
Proof.
  revert m. induction keys as [|k keys IH]; intros m Hl Hnin; cbn; [apply Hnin; set_solver|].
  assert (filter (λ d, dp_id d ≠ id) l = l) as Hll.
  { subst l. apply filter_all. by intros d [Hd _]%list_elem_of_filter. }
  apply IH; rewrite retain_others_lookup; case_decide as Hk.
  - destruct (m !! key) as [l0|]; cbn in *; [rewrite Hl; destruct l; [done|exact Hll]|done].
  - done.
  - intros _. destruct (m !! key) as [l0|]; cbn in *; [rewrite Hl; by destruct l|by subst l].
  - intros Hin. apply Hnin. set_solver.
Qed.

(** Registering a Fiber and unregistering it leaves the index exactly as it was,
    whatever edges it declares, how often it declares them, and whether the index is
    complete: no row, and no emptied entry, stays behind. *)
Theorem register_unregister_roundtrip (ix : DependencyIndex) (fiber : Addr) (f : Fiber) :
  (∀ key l, ix_reverse ix !! key = Some l → l ≠ [] ∧ ∀ d, d ∈ l → dp_id d ≠ f_id f) →
  unregister (register ix fiber f) f = ix.
Proof.
  intros Hix. destruct ix as [m complete]. cbn in Hix.
  assert (∀ key own, Forall (eq {| dp_id := f_id f; dp_fiber := fiber |}) own →
    filter (λ d, dp_id d ≠ f_id f) (default [] (m !! key) ++ own) = default [] (m !! key)) as Hfilter.
  { intros key own Hown. rewrite filter_app, (filter_nothing _ own), app_nil_r.
    - apply filter_all. intros d Hd. destruct (m !! key) as [l|] eqn:Hl; [by apply (Hix key l Hl)|by apply not_elem_of_nil in Hd].
    - intros d Hd. rewrite Forall_forall in Hown. rewrite <- (Hown d Hd). cbn. tauto. }
  assert (∀ key, m !! key = match default [] (m !! key) with [] => None | _ => Some (default [] (m !! key)) end) as Hm.
  { intros key. destruct (m !! key) as [l|] eqn:Hl; [|done]. destruct (Hix key l Hl) as [Hne _]. by destruct l. }
  unfold unregister, register. cbn.
  destruct complete, (f_alive f); cbn; f_equal; apply map_eq; intros key; rewrite (Hm key).
  2, 3, 4: apply retain_all_lookup; [|done]; rewrite <- (app_nil_r (default [] (m !! key))) at 1; by apply Hfilter.
  destruct (push_all_lookup {| dp_id := f_id f; dp_fiber := fiber |} (edge_key <$> f_edges f) m key) as (own & Hown & Hnin & Heq).
  apply retain_all_lookup.
  - rewrite Heq. rewrite <- (Hfilter key own Hown) at 1. destruct (m !! key); [done|]. by destruct own.
  - intros Hk. rewrite Heq, (Hnin Hk), <- (Hm key). destruct (m !! key) as [l|]; [|done]. by rewrite app_nil_r.
Qed.

Definition sample_index : DependencyIndex :=
  {| ix_reverse := {[ ("log", 0%Z) := [{| dp_id := 7; dp_fiber := 7 |}] ]}; ix_complete := true |}.
Definition sample_dependent : Fiber :=
  Fiber_new_with_edges 1 "consumer"
    [{| de_service := "log"; de_realm := 0 |}; {| de_service := "http"; de_realm := 0 |}; {| de_service := "log"; de_realm := 0 |}].

Lemma register_unregister_roundtrip_witness :
  register sample_index 1 sample_dependent ≠ sample_index ∧
  unregister (register sample_index 1 sample_dependent) sample_dependent = sample_index.
Proof.
  split.
  - intros H. apply (f_equal (λ ix, length (rows_at (ix_reverse ix) ("log", 0%Z)))) in H. by vm_compute in H.
  - apply register_unregister_roundtrip. intros key l Hl. cbn in Hl.
    apply lookup_singleton_Some in Hl as [_ <-]. split; [done|]. by intros d ->%list_elem_of_singleton.
Defined.
