(* ===== verification/Services.v ===== *)
(** Service publications (crates/cordis-core/src/service.rs): the contract binding of
    Service names, the exact-slot occurrence store, publication capabilities, and the
    lifecycle transition that changes visibility (crates/cordis-core/src/fiber/mod.rs,
    [Fiber::transition]).

    Every operation of the store is one critical section of its mutex: the durable
    recheck obligations of the dependents are committed in the same section as the
    change of visibility they answer to. *)
From S2P Require Import Prelude Axes BTree Lifecycle Journal EventStore Observation Plugin Fiber Registry Deps.

(** * The store *)

(** An implementation of the [Service] trait: its name and its type. *)
(* @src crates/cordis-core/src/service.rs 134-137 Service *)
Record Service := { sv_name : string; sv_type : TypeId }.

(* @src crates/cordis-core/src/service.rs 180-195 ServiceLookupError *)
Inductive ServiceLookupError := Unavailable (service : string) | LookupContractMismatch (service : string).

(* @src crates/cordis-core/src/service.rs 198-216 ServicePublishError *)
Inductive ServicePublishError :=
| PublishInactiveContext
| DuplicatePublication (service : string)
| PublishContractMismatch (service : string).

(* @src crates/cordis-core/src/service.rs 219-234 ServiceControlError *)
Inductive ServiceControlError := StalePublication (service : string) | MutationClosed (service : string).

(** The occurrence identity is an allocation. *)
(* @src crates/cordis-core/src/service.rs 268-273 ServiceSlot *)
Record ServiceSlot := { ss_occurrence : Addr; ss_value : AnyValue; ss_contract : TypeId; ss_fiber : Addr }.

Abbreviation SlotKey := (RealmKey * string)%type (only parsing).

(* @src crates/cordis-core/src/service.rs 275-281 ServiceState *)
Record ServiceState := { contracts : gmap string TypeId; slots : gmap SlotKey ServiceSlot }.

(* @src crates/cordis-core/src/service.rs 405-407 ServiceStore::new *)
Definition ServiceState_default : ServiceState := {| contracts := ∅; slots := ∅ |}.

(* @src crates/cordis-core/src/service.rs 283-286 ServiceInstallRefusal *)
Inductive ServiceInstallRefusal := InstallDuplicate | InstallContractMismatch.

(* @src crates/cordis-core/src/service.rs 291-299 CommittedServiceDrift *)
Record CommittedServiceDrift := { cd_affected : list Addr; cd_retained : list Addr }.

(** The commit of the recheck of each affected Fiber. *)
Definition commit_rechecks (affected : list Addr) (heap : gmap Addr Fiber) : gmap Addr Fiber :=
  fold_left (λ heap x, alter fiber_commit_recheck x heap) affected heap.

(* @src crates/cordis-core/src/service.rs 310-319 CommittedServiceDrift::commit *)
Definition drift_commit (g : Graph) (edges : list EdgeKey) : CommittedServiceDrift * Graph :=
  let '(affected, retained, g) := dependents_for_edges_with_retention g edges in
  ({| cd_affected := affected; cd_retained := retained |},
   {| gr_fibers := commit_rechecks affected (gr_fibers g); gr_registry := gr_registry g; gr_deps := gr_deps g |}).

(** The commit made only when the change is visible. *)
Definition drift_if (visible : bool) (g : Graph) (edges : list EdgeKey) : option CommittedServiceDrift * Graph :=
  if visible then let '(d, g) := drift_commit g edges in (Some d, g) else (None, g).

Definition is_active (heap : gmap Addr Fiber) (x : Addr) : bool :=
  match heap !! x with Some f => bool_decide (fiber_state f = Active) | None => false end.

Definition owner_alive (heap : gmap Addr Fiber) (x : Addr) : bool :=
  match heap !! x with Some f => f_alive f | None => false end.

(** The store and the graph its commits read. *)
Record Stores := { so_services : ServiceState; so_graph : Graph }.

(** On success: the evicted slot and the committed drift.  The contract binding stays
    when the slot is refused. *)
(* @src crates/cordis-core/src/service.rs 409-449 ServiceStore::install *)
Definition install (owner : Addr) (slot : ServiceSlot) (key : RealmKey) (name : string) (so : Stores)
    : result (option ServiceSlot * option CommittedServiceDrift) (ServiceInstallRefusal * ServiceSlot) * Stores :=
  let st := so_services so in
  let bound := contracts st !! name in
  if bool_decide (is_Some bound ∧ bound ≠ Some (ss_contract slot)) then (Err (InstallContractMismatch, slot), so)
  else
    let st := match bound with
              | Some _ => st
              | None => {| contracts := <[ name := ss_contract slot ]> (contracts st); slots := slots st |}
              end in
    let heap := gr_fibers (so_graph so) in
    if match slots st !! (key, name) with
       | Some existing => owner_alive heap (ss_fiber existing)
       | None => false
       end
    then (Err (InstallDuplicate, slot), {| so_services := st; so_graph := so_graph so |})
    else
      let '(drift, g) := drift_if (is_active heap owner) (so_graph so) [(name, key)] in
      let evicted := slots st !! (key, name) in
      (Ok (evicted, drift),
       {| so_services := {| contracts := contracts st; slots := <[ (key, name) := slot ]> (slots st) |};
          so_graph := g |}).

(* @src crates/cordis-core/src/service.rs 451-455 ServiceStore::visible *)
Definition visible (heap : gmap Addr Fiber) (slot : ServiceSlot) : bool :=
  match heap !! ss_fiber slot with
  | Some f => f_alive f && bool_decide (fiber_state f = Active)
  | None => false
  end.

(* @src crates/cordis-core/src/service.rs 457-461 ServiceStore::occurrence_id *)
Definition occurrence_id (so : Stores) (key : RealmKey) (name : string) : option Addr :=
  match slots (so_services so) !! (key, name) with
  | Some slot => if visible (gr_fibers (so_graph so)) slot then Some (ss_occurrence slot) else None
  | None => None
  end.

(* @src crates/cordis-core/src/service.rs 463-487 ServiceStore::visible_value *)
Definition visible_value (so : Stores) (S : Service) (key : RealmKey) : result AnyValue ServiceLookupError :=
  let st := so_services so in
  let bound := contracts st !! sv_name S in
  if bool_decide (is_Some bound ∧ bound ≠ Some (sv_type S)) then Err (LookupContractMismatch (sv_name S))
  else
    match slots st !! (key, sv_name S) with
    | Some slot =>
        if visible (gr_fibers (so_graph so)) slot then
          (* the downcast of the cloned value *)
          if decide (av_type (ss_value slot) = sv_type S) then Ok (ss_value slot)
          else Err (LookupContractMismatch (sv_name S))
        else Err (Unavailable (sv_name S))
    | None => Err (Unavailable (sv_name S))
    end.

Definition set_slot (key : SlotKey) (slot : ServiceSlot) (so : Stores) : Stores :=
  {| so_services := {| contracts := contracts (so_services so); slots := <[ key := slot ]> (slots (so_services so)) |};
     so_graph := so_graph so |}.

Definition clear_slot (key : SlotKey) (so : Stores) : Stores :=
  {| so_services := {| contracts := contracts (so_services so); slots := delete key (slots (so_services so)) |};
     so_graph := so_graph so |}.

Definition can_register (heap : gmap Addr Fiber) (x : Addr) : bool :=
  match heap !! x with Some f => is_ok (assert_can_register f) | None => false end.

(** The outgoing value, or the error with the rejected one. *)
(* @src crates/cordis-core/src/service.rs 489-524 ServiceStore::set_exact *)
Definition set_exact (key : RealmKey) (name : string) (occurrence owner : Addr) (value : AnyValue) (so : Stores)
    : result AnyValue (ServiceControlError * AnyValue) * Stores :=
  match slots (so_services so) !! (key, name) with
  | None => (Err (StalePublication name, value), so)
  | Some slot =>
      if negb (bool_decide (ss_occurrence slot = occurrence)) then (Err (StalePublication name, value), so)
      else if negb (can_register (gr_fibers (so_graph so)) owner) then (Err (MutationClosed name, value), so)
      else (Ok (ss_value slot),
            set_slot (key, name) {| ss_occurrence := ss_occurrence slot; ss_value := value;
                                    ss_contract := ss_contract slot; ss_fiber := ss_fiber slot |} so)
  end.

(* @src crates/cordis-core/src/service.rs 526-562 ServiceStore::remove_exact *)
Definition remove_exact (key : RealmKey) (name : string) (occurrence owner : Addr) (so : Stores)
    : result (ServiceSlot * option CommittedServiceDrift) ServiceControlError * Stores :=
  match slots (so_services so) !! (key, name) with
  | None => (Err (StalePublication name), so)
  | Some slot =>
      if negb (bool_decide (ss_occurrence slot = occurrence)) then (Err (StalePublication name), so)
      else if negb (can_register (gr_fibers (so_graph so)) owner) then (Err (MutationClosed name), so)
      else
        let '(drift, g) := drift_if (is_active (gr_fibers (so_graph so)) owner) (so_graph so) [(name, key)] in
        (Ok (slot, drift), clear_slot (key, name) {| so_services := so_services so; so_graph := g |})
  end.

(* @src crates/cordis-core/src/service.rs 564-579 ServiceStore::withdraw_exact *)
Definition withdraw_exact (key : RealmKey) (name : string) (occurrence : Addr) (so : Stores) : Stores :=
  match slots (so_services so) !! (key, name) with
  | Some slot => if decide (ss_occurrence slot = occurrence) then clear_slot (key, name) so else so
  | None => so
  end.

(** The occupied slots whose owner is [x], with their keys. *)
Definition owned_slots (st : ServiceState) (x : Addr) : list (SlotKey * ServiceSlot) :=
  filter (λ '(_, slot), ss_fiber slot = x) (map_to_list (slots st)).

(* @src crates/cordis-core/src/service.rs 584-593 ServiceStore::slots_owned_by *)
Definition slots_owned_by (so : Stores) (x : Addr) : list EdgeKey :=
  (λ '((key, name), _), (name, key)) <$> owned_slots (so_services so) x.

(* @src crates/cordis-core/src/service.rs 671-675 ServiceVisibilityOccurrence *)
Record ServiceVisibilityOccurrence := { vo_service : string; vo_realm : RealmKey; vo_occurrence : Addr }.

(** [None] is the panic of the state publication on an exhausted counter. *)
(* @src crates/cordis-core/src/service.rs 600-644 ServiceStore::commit_fiber_transition *)
Definition commit_fiber_transition (x : Addr) (next : FiberState) (so : Stores)
    : option (list ServiceVisibilityOccurrence * option CommittedServiceDrift * Stores) :=
  let visibility := (λ '((key, name), slot),
                       {| vo_service := name; vo_realm := key; vo_occurrence := ss_occurrence slot |})
                    <$> owned_slots (so_services so) x in
  let '(drift, g) := drift_if (negb (bool_decide (visibility = []))) (so_graph so)
                       ((λ v, (vo_service v, vo_realm v)) <$> visibility) in
  f ← gr_fibers g !! x;
  f ← set_state next f;
  Some (visibility, drift,
        {| so_services := so_services so;
           so_graph := {| gr_fibers := <[ x := f ]> (gr_fibers g); gr_registry := gr_registry g;
                          gr_deps := gr_deps g |} |}).

(* @src crates/cordis-core/src/service.rs 677-683 ServiceOccurrenceSnapshot *)
Record ServiceOccurrenceSnapshot :=
  { os_id : Addr; os_service : string; os_realm : RealmKey; os_provider : Addr; os_visible : bool }.

(* @src crates/cordis-core/src/service.rs 646-668 ServiceStore::snapshot_occurrences *)
Definition snapshot_occurrences (so : Stores) : list ServiceOccurrenceSnapshot :=
  omap (λ '((key, name), slot),
    match gr_fibers (so_graph so) !! ss_fiber slot with
    | None => None
    | Some f =>
        if is_ok (assert_can_register f) then
          Some {| os_id := ss_occurrence slot; os_service := name; os_realm := key; os_provider := f_id f;
                  os_visible := bool_decide (fiber_state f = Active) |}
        else None
    end) (map_to_list (slots (so_services so))).

(** * The Runtime around the store *)

(** [root_next] allocates identities, [root_kicked] records the Fibers handed to
    [InertiaSlot::kick] (Inertia.v), [root_observed] the published records. *)
Record Runtime := {
  root_membership : Addr;
  root_next : Addr;
  root_stores : Stores;
  root_kicked : list Addr;
  root_observed : list RuntimeObservation;
}.

Definition with_stores (so : Stores) (r : Runtime) : Runtime :=
  {| root_membership := root_membership r; root_next := root_next r; root_stores := so;
     root_kicked := root_kicked r; root_observed := root_observed r |}.

Definition root_heap (r : Runtime) : gmap Addr Fiber := gr_fibers (so_graph (root_stores r)).

Definition with_heap (heap : gmap Addr Fiber) (so : Stores) : Stores :=
  {| so_services := so_services so;
     so_graph := {| gr_fibers := heap; gr_registry := gr_registry (so_graph so); gr_deps := gr_deps (so_graph so) |} |}.

#[export, program] Instance stores_fiber_store : FiberStore Stores :=
  {| fibers := λ so, gr_fibers (so_graph so);
     update_fiber := λ x g so, with_heap (alter g x (gr_fibers (so_graph so))) so |}.
Next Obligation. done. Qed.

#[export, program] Instance runtime_fiber_store : FiberStore Runtime :=
  {| fibers := root_heap; update_fiber := λ x g r, with_stores (update_fiber x g (root_stores r)) r |}.
Next Obligation. done. Qed.

Definition observe (o : RuntimeObservation) (r : Runtime) : Runtime :=
  {| root_membership := root_membership r; root_next := root_next r; root_stores := root_stores r;
     root_kicked := root_kicked r; root_observed := root_observed r ++ [o] |}.

(** The drops of the retained Fibers run destructors only. *)
(* @src crates/cordis-core/src/service.rs 321-352 CommittedServiceDrift::kick *)
Definition drift_kick (d : CommittedServiceDrift) (r : Runtime) : Runtime :=
  {| root_membership := root_membership r; root_next := root_next r; root_stores := root_stores r;
     root_kicked := root_kicked r ++ cd_affected d; root_observed := root_observed r |}.

Definition kick_some (d : option CommittedServiceDrift) (r : Runtime) : Runtime :=
  match d with Some d => drift_kick d r | None => r end.

Definition observe_visibility (S : string) (key : RealmKey) (previous current : option Addr) (r : Runtime) : Runtime :=
  observe (ServiceVisibility S {| realm_membership := root_membership r; realm_key := key |} previous current) r.

(** What follows a committed change once every lock is released: the kicks, and the
    record of a visible one. *)
Definition announce (drift : option CommittedServiceDrift) (S : string) (key : RealmKey)
    (previous current : option Addr) (r : Runtime) : Runtime :=
  let r := kick_some drift r in
  if bool_decide (is_Some drift) then observe_visibility S key previous current r else r.

(* @src crates/cordis-core/src/service.rs 689-697 ServicePublication *)
Record ServicePublication :=
  { sp_service : Service; sp_key : RealmKey; sp_occurrence : Addr; sp_owner : Addr; sp_cleanup : Z }.

(** The step of [ServiceSlotPublish]: the refusal is kept for [provide], and so is the
    drift of a successful installation. *)
(* @src crates/cordis-core/src/service.rs 368-395 ServiceSlotPublish::publish *)
Definition slot_publish (owner : Addr) (slot : ServiceSlot) (key : RealmKey) (name : string)
    (w : option CommittedServiceDrift * Runtime) : result unit ServicePublishError * (option CommittedServiceDrift * Runtime) :=
  let '(drift, r) := w in
  match install owner slot key name (root_stores r) with
  | (Ok (_, drift), so) => (Ok tt, (drift, with_stores so r))
  | (Err (InstallDuplicate, _), so) => (Err (DuplicatePublication name), (drift, with_stores so r))
  | (Err (InstallContractMismatch, _), so) => (Err (PublishContractMismatch name), (drift, with_stores so r))
  end.

#[export, program] Instance drift_fiber_store {A} : FiberStore (A * Runtime) :=
  {| fibers := λ w, root_heap w.2; update_fiber := λ x g w, (w.1, update_fiber x g w.2) |}.
Next Obligation. done. Qed.

(** The identity of the occurrence is allocated before the gated section. *)
Definition fresh_occurrence (r : Runtime) : Addr * Runtime :=
  (root_next r, {| root_membership := root_membership r; root_next := S (root_next r); root_stores := root_stores r;
                   root_kicked := root_kicked r; root_observed := root_observed r |}).

(* @src crates/cordis-core/src/service.rs 774-859 Context::provide *)
Definition provide (ctx : Context) (S : Service) (value : AnyValue) (r : Runtime)
    : result ServicePublication ServicePublishError * Runtime :=
  let fiber := ctx_fiber ctx in
  if negb (can_register (root_heap r) fiber) then (Err PublishInactiveContext, r)
  else
    let key := isolate_key ctx (sv_name S) in
    let '(occurrence, r) := fresh_occurrence r in
    let slot := {| ss_occurrence := occurrence; ss_value := value; ss_contract := sv_type S; ss_fiber := fiber |} in
    match push_gated fiber (sync_cleanup (CleanService key (sv_name S) occurrence))
            (slot_publish fiber slot key (sv_name S)) (None, r) with
    | (Err (_, refusal), (_, r)) => (Err (default PublishInactiveContext refusal), r)
    | (Ok cleanup, (drift, r)) =>
        (Ok {| sp_service := S; sp_key := key; sp_occurrence := occurrence; sp_owner := fiber; sp_cleanup := cleanup |},
         announce drift (sv_name S) key None (Some occurrence) r)
    end.

(* @src crates/cordis-core/src/service.rs 864-867 Context::try_service *)
Definition try_service (ctx : Context) (S : Service) (r : Runtime) : result AnyValue ServiceLookupError :=
  visible_value (root_stores r) S (isolate_key ctx (sv_name S)).

(* @src crates/cordis-core/src/service.rs 706-722 ServicePublication::set *)
Definition publication_set (p : ServicePublication) (value : AnyValue) (r : Runtime)
    : result unit ServiceControlError * Runtime :=
  match set_exact (sp_key p) (sv_name (sp_service p)) (sp_occurrence p) (sp_owner p) value (root_stores r) with
  | (Ok _, so) => (Ok tt, with_stores so r)
  | (Err (error, _), so) => (Err error, with_stores so r)
  end.

(* @src crates/cordis-core/src/service.rs 730-768 ServicePublication::remove *)
Definition publication_remove (p : ServicePublication) (r : Runtime) : result unit ServiceControlError * Runtime :=
  let name := sv_name (sp_service p) in
  match remove_exact (sp_key p) name (sp_occurrence p) (sp_owner p) (root_stores r) with
  | (Err error, so) => (Err error, with_stores so r)
  | (Ok (_, drift), so) =>
      let '(_, r) := claim_cleanup (sp_owner p) (sp_cleanup p) (with_stores so r) in
      (Ok tt, announce drift name (sp_key p) (Some (sp_occurrence p)) None r)
  end.

(** [None] is the panic of the state publication on an exhausted counter. *)
(* @src crates/cordis-core/src/fiber/mod.rs 597-649 Fiber::transition *)
Definition transition (x : Addr) (next : FiberState) (r : Runtime) : option Runtime :=
  f ← root_heap r !! x;
  let old := fiber_state f in
  if decide (old = next) then Some r
  else
    '(visibility, drift, r) ←
      (if negb (bool_decide ((old = Active) ↔ (next = Active))) && f_installed f then
         '(visibility, drift, so) ← commit_fiber_transition x next (root_stores r);
         Some (visibility, drift, with_stores so r)
       else f ← set_state next f; Some ([], None, update_fiber x (λ _, f) r));
    let r := kick_some drift r in
    if f_installed f then
      let r := fold_left (λ r v, observe_visibility (vo_service v) (vo_realm v)
                  (if decide (old = Active) then Some (vo_occurrence v) else None)
                  (if decide (next = Active) then Some (vo_occurrence v) else None) r) visibility r in
      Some (observe (ObservedFiberState (f_id f) old next) r)
    else Some r.

(* @src crates/cordis-core/src/fiber/mod.rs 732-742 Fiber::missing_from *)
Definition missing_from (f : Fiber) (so : Stores) : list string :=
  de_service <$> filter (λ e, occurrence_id so (de_realm e) (de_service e) = None) (f_edges f).

(** The settle target: the committed input and the occurrence each edge resolves to;
    [None] is the [expect] on a Fiber without spawn state. *)
(* @src crates/cordis-core/src/fiber/inertia.rs 17-21 SemanticTarget *)
Record SemanticTarget := { tg_input : Addr; tg_assignments : list (DependencyEdge * option Addr) }.

(* @src crates/cordis-core/src/fiber/inertia.rs 31-35 SemanticTarget::has_missing *)
Definition has_missing (t : SemanticTarget) : bool :=
  existsb (λ '(_, publication), match publication with None => true | Some _ => false end) (tg_assignments t).

(* @src crates/cordis-core/src/fiber/mod.rs 844-858 Fiber::compute_target *)
Definition compute_target (f : Fiber) (so : Stores) : option SemanticTarget :=
  match effective_input (f_spawn f) with
  | Err _ => None
  | Ok input => Some {| tg_input := input;
                        tg_assignments := (λ e, (e, occurrence_id so (de_realm e) (de_service e))) <$> f_edges f |}
  end.

(** * What a commit changes *)

(** Two Fibers that differ at most in the committed recheck revision. *)
Definition agree (f f' : Fiber) : Prop := f' = set_f_committed (f_committed f') f.

#[export] Instance agree_refl : Reflexive agree.
Proof. by intros []. Qed.
#[export] Instance agree_trans : Transitive agree.
Proof. intros [] [] []. unfold agree. simpl. intros [=] [=]. by subst. Qed.

Lemma agree_commit f : agree f (fiber_commit_recheck f).
Proof. by destruct f. Qed.

(** Heaps that agree address by address. *)
Definition heap_agrees (h h' : gmap Addr Fiber) : Prop := ∀ x, option_Forall2 agree (h !! x) (h' !! x).

#[export] Instance heap_agrees_refl : Reflexive heap_agrees.
Proof. intros h x. reflexivity. Qed.
#[export] Instance heap_agrees_trans : Transitive heap_agrees.
Proof. intros h1 h2 h3 H1 H2 x. by transitivity (h2 !! x). Qed.

Lemma heap_agrees_lookup h h' x f' : heap_agrees h h' → h' !! x = Some f' → ∃ f, h !! x = Some f ∧ agree f f'.
Proof. intros Ha Hx. specialize (Ha x). rewrite Hx in Ha. inversion Ha; subst; eauto. Qed.

Lemma heap_agrees_lookup_l h h' x f : heap_agrees h h' → h !! x = Some f → ∃ f', h' !! x = Some f' ∧ agree f f'.
Proof. intros Ha Hx. specialize (Ha x). rewrite Hx in Ha. inversion Ha; subst; eauto. Qed.

Lemma commit_rechecks_lookup l h x :
  NoDup l →
  commit_rechecks l h !! x = if decide (x ∈ l) then fiber_commit_recheck <$> h !! x else h !! x.
Proof.
  unfold commit_rechecks. revert h. induction l as [|y l IH]; intros h Hnd; simpl.
  { done. }
  apply NoDup_cons in Hnd as [Hy Hnd]. rewrite IH by done.
  destruct (decide (x = y)) as [->|Hne].
  - rewrite decide_False, decide_True by (done || by left). by rewrite lookup_alter_eq.
  - rewrite lookup_alter_ne by done. repeat case_decide; try done; set_solver.
Qed.

Lemma commit_rechecks_agrees l h : NoDup l → heap_agrees h (commit_rechecks l h).
Proof.
  intros Hnd x. rewrite commit_rechecks_lookup by done. case_decide; [|reflexivity].
  destruct (h !! x); constructor. apply agree_commit.
Qed.

(** The graph of a Runtime whose index serves [served]. *)
Record graph_wf (served : gset Addr) (g : Graph) : Prop := {
  gw_index : index_wf (gr_fibers g) served (ix_reverse (gr_deps g));
  gw_complete : ix_complete (gr_deps g) = true;
}.

Lemma index_wf_agrees h h' served m : heap_agrees h h' → index_wf h served m → index_wf h' served m.
Proof.
  intros Ha Hwf. eapply index_wf_heap; [done|]. intros x f' Hx. left.
  destruct (heap_agrees_lookup _ _ _ _ Ha Hx) as (f & Hf & ->). by exists f.
Qed.

(** The Fibers that must hear about a change of one of the slots. *)
Definition dependent_of (served : gset Addr) (h : gmap Addr Fiber) (edges : list EdgeKey) (x : Addr) : Prop :=
  x ∈ served ∧ ∃ f, h !! x = Some f ∧ declares edges f.

(** Every dependent of [edges] has a new committed revision. *)
Definition recommitted (served : gset Addr) (edges : list EdgeKey) (h h' : gmap Addr Fiber) : Prop :=
  ∀ x, dependent_of served h edges x →
    ∃ f f', h !! x = Some f ∧ h' !! x = Some f' ∧ f_committed f' ≠ f_committed f.

Lemma drift_commit_spec served g edges :
  graph_wf served g →
  let '(d, g') := drift_commit g edges in
  graph_wf served g' ∧ heap_agrees (gr_fibers g) (gr_fibers g') ∧ gr_registry g' = gr_registry g ∧
  (∀ x, x ∈ cd_affected d ↔ dependent_of served (gr_fibers g) edges x) ∧
  recommitted served edges (gr_fibers g) (gr_fibers g') ∧
  (∀ key row, row ∈ rows_at (ix_reverse (gr_deps g')) key → row ∈ rows_at (ix_reverse (gr_deps g)) key).
Proof.
  intros [Hix Hc]. unfold drift_commit, dependents_for_edges_with_retention.
  destruct (dependents_of_spec _ _ _ edges Hix Hc) as (l & ix' & Heq & Hc' & Hix' & Hnd & Hin).
  pose proof (dependents_of_rows (gr_fibers g) (gr_deps g) edges) as Hrows.
  rewrite Heq in *. simpl in *.
  assert (heap_agrees (gr_fibers g) (commit_rechecks l (gr_fibers g))) as Ha by by apply commit_rechecks_agrees.
  split_and!; try done.
  - split; [|done]. simpl. by eapply index_wf_agrees.
  - intros x Hx. destruct Hx as (Hs & f & Hf & Hd). exists f, (fiber_commit_recheck f).
    rewrite commit_rechecks_lookup by done. rewrite decide_True.
    + rewrite Hf. split_and!; [done..|]. apply fiber_commit_recheck_changes.
    + apply Hin. split; [done|]. by exists f.
Qed.

Definition rows_subset (g g' : Graph) : Prop :=
  ∀ key row, row ∈ rows_at (ix_reverse (gr_deps g')) key → row ∈ rows_at (ix_reverse (gr_deps g)) key.

Lemma drift_if_rows b served g edges : graph_wf served g → rows_subset g (drift_if b g edges).2.
Proof.
  intros Hg. unfold drift_if. destruct b; [|by intros key row].
  pose proof (drift_commit_spec served g edges Hg) as H. destruct (drift_commit g edges) as [d g'].
  by destruct H as (_ & _ & _ & _ & _ & ?).
Qed.

Lemma drift_if_spec b served g edges :
  graph_wf served g →
  let '(d, g') := drift_if b g edges in
  graph_wf served g' ∧ heap_agrees (gr_fibers g) (gr_fibers g') ∧ gr_registry g' = gr_registry g ∧
  is_Some d ∧ b = true ∧ recommitted served edges (gr_fibers g) (gr_fibers g') ∨
  d = None ∧ b = false ∧ g' = g.
Proof.
  intros Hg. unfold drift_if. destruct b; [|cbn; by right].
  pose proof (drift_commit_spec served g edges Hg) as H. destruct (drift_commit g edges) as [d g'].
  destruct H as (? & ? & ? & ? & ? & ?). left. by split_and!.
Qed.

(** * Well-formed stores *)

Record slots_wf (next : Addr) (st : ServiceState) : Prop := {
  sw_bound : ∀ key name slot, slots st !! (key, name) = Some slot →
    contracts st !! name = Some (ss_contract slot) ∧ av_type (ss_value slot) = ss_contract slot;
  sw_fresh : ∀ k slot, slots st !! k = Some slot → ss_occurrence slot < next;
}.

(** Visibility is decided by the owner's death mark and state only. *)
Lemma visible_agrees h h' slot : heap_agrees h h' → visible h' slot = visible h slot.
Proof.
  intros Ha. unfold visible. specialize (Ha (ss_fiber slot)).
  destruct Ha as [f f' ->|]; done.
Qed.

Lemma owner_alive_agrees h h' x : heap_agrees h h' → owner_alive h' x = owner_alive h x.
Proof. intros Ha. unfold owner_alive. specialize (Ha x). by destruct Ha as [f f' ->|]. Qed.

(** The store's answer to an installation, refused or made. *)
Lemma install_spec next served owner slot key name so :
  slots_wf next (so_services so) → graph_wf served (so_graph so) →
  let st := so_services so in
  let h := gr_fibers (so_graph so) in
  let '(out, so') := install owner slot key name so in
  match out with
  | Err (InstallContractMismatch, s) =>
      so' = so ∧ s = slot ∧ ∃ t, contracts st !! name = Some t ∧ t ≠ ss_contract slot
  | Err (InstallDuplicate, s) =>
      so' = so ∧ s = slot ∧ contracts st !! name = Some (ss_contract slot) ∧
      ∃ existing, slots st !! (key, name) = Some existing ∧ owner_alive h (ss_fiber existing) = true
  | Ok (evicted, drift) =>
      (contracts st !! name = None ∨ contracts st !! name = Some (ss_contract slot)) ∧
      evicted = slots st !! (key, name) ∧
      (∀ existing, slots st !! (key, name) = Some existing → owner_alive h (ss_fiber existing) = false) ∧
      contracts (so_services so') = <[ name := ss_contract slot ]> (contracts st) ∧
      slots (so_services so') = <[ (key, name) := slot ]> (slots st) ∧
      (drift, so_graph so') = drift_if (is_active h owner) (so_graph so) [(name, key)]
  end.
Proof.
  intros Hsw Hg. unfold install.
  case_bool_decide as Hm.
  { destruct Hm as [[t Ht] Hne]. split_and!; [done..|]. exists t. split; [done|]. intros ->. congruence. }
  set (h := gr_fibers (so_graph so)).
  assert (contracts (so_services so) !! name = None ∨
          contracts (so_services so) !! name = Some (ss_contract slot)) as Hb.
  { destruct (contracts (so_services so) !! name) as [t|] eqn:Ht; [|by left]. right.
    destruct (decide (t = ss_contract slot)) as [->|Hne]; [done|].
    exfalso. apply Hm. split; [by eexists|congruence]. }
  set (st := match contracts (so_services so) !! name with Some _ => _ | None => _ end).
  assert (slots st = slots (so_services so)) as Hst by (unfold st; by case_match).
  rewrite Hst. destruct (slots (so_services so) !! (key, name)) as [existing|] eqn:Hs.
  - destruct (sw_bound _ _ Hsw _ _ _ Hs) as [Hbound _].
    assert (contracts (so_services so) !! name = Some (ss_contract slot)) as Hb'.
    { destruct Hb as [Hb|Hb]; congruence. }
    assert (st = so_services so) as Hst' by (unfold st; by rewrite Hb').
    destruct (owner_alive h (ss_fiber existing)) eqn:Ho.
    { rewrite Hst'. split_and!; [by destruct so|done|done|]. by exists existing. }
    destruct (drift_if _ _ _) as [d g]. simpl. rewrite Hst'. split_and!; try done.
    + by intros ? [= <-].
    + by rewrite insert_id.
  - destruct (drift_if _ _ _) as [d g]. simpl. split_and!; try done.
    unfold st. destruct Hb as [Hb|Hb]; rewrite Hb; simpl; [done|by rewrite insert_id].
Qed.

Lemma install_wf next served owner slot key name so out so' :
  slots_wf next (so_services so) → graph_wf served (so_graph so) →
  av_type (ss_value slot) = ss_contract slot → ss_occurrence slot < next →
  install owner slot key name so = (out, so') → slots_wf next (so_services so').
Proof.
  intros Hsw Hg Ht Ho Hi. pose proof (install_spec next served owner slot key name so Hsw Hg) as H.
  rewrite Hi in H. destruct out as [[evicted drift]|[[] s]]; [|by destruct H as [-> _]..].
  destruct H as (Hb & _ & _ & Hc & Hs & _). split; rewrite Hs.
  - intros k n s. rewrite Hc. intros [[[= <- <-] <-]|[Hne Hk]]%lookup_insert_Some.
    + by rewrite lookup_insert_eq.
    + destruct (sw_bound _ _ Hsw _ _ _ Hk) as [Hbound Hval]. split; [|done].
      destruct (decide (name = n)) as [->|Hn]; [|by rewrite lookup_insert_ne].
      rewrite lookup_insert_eq. destruct Hb; congruence.
  - intros k s [[_ <-]|[_ Hk]]%lookup_insert_Some; [done|]. by eapply sw_fresh.
Qed.

Record runtime_wf (served : gset Addr) (r : Runtime) : Prop := {
  rt_slots : slots_wf (root_next r) (so_services (root_stores r));
  rt_graph : graph_wf served (so_graph (root_stores r));
}.

Lemma slots_wf_mono n m st : slots_wf n st → n ≤ m → slots_wf m st.
Proof. intros [Hb Hf] Hle. split; [done|]. intros k s Hk. apply Hf in Hk. lia. Qed.

Lemma can_register_open h x f : h !! x = Some f → can_register h x = bool_decide (gate_open f).
Proof. intros Hx. unfold can_register. rewrite Hx, assert_can_register_spec. by case_decide; case_bool_decide. Qed.

(** What a visible publication adds to the record. *)
Definition published (r : Runtime) (name : string) (key : RealmKey) (previous current : option Addr) :=
  ServiceVisibility name {| realm_membership := root_membership r; realm_key := key |} previous current.

Lemma announce_spec drift name key previous current r :
  let r' := announce drift name key previous current r in
  root_stores r' = root_stores r ∧
  match drift with
  | Some d => root_kicked r' = root_kicked r ++ cd_affected d ∧
              root_observed r' = root_observed r ++ [published r name key previous current]
  | None => root_kicked r' = root_kicked r ∧ root_observed r' = root_observed r
  end.
Proof. by destruct drift. Qed.

(** The pushed cleanup of an owner. *)
Definition push_cleanup (c : Cleanup) (f : Fiber) : Fiber := set_f_journal (dl_push (f_journal f) c).2 f.

(** Whatever only touches journals and revisions leaves visibility alone. *)
Definition same_visibility (h h' : gmap Addr Fiber) : Prop :=
  ∀ x, option_Forall2 (λ f f', f_alive f' = f_alive f ∧ fiber_state f' = fiber_state f) (h !! x) (h' !! x).

Lemma same_visibility_visible h h' slot : same_visibility h h' → visible h' slot = visible h slot.
Proof. intros Hs. unfold visible. specialize (Hs (ss_fiber slot)). by destruct Hs as [f f' [-> ->]|]. Qed.

Lemma same_visibility_agrees h h' : heap_agrees h h' → same_visibility h h'.
Proof. intros Ha x. specialize (Ha x). by destruct Ha as [f f' ->|]; constructor. Qed.

#[export] Instance same_visibility_trans : Transitive same_visibility.
Proof.
  intros h1 h2 h3 H1 H2 x. specialize (H1 x). specialize (H2 x).
  destruct H1 as [f f' [Ha Hs]|]; inversion H2 as [? f'' [Ha' Hs']|]; constructor; simplify_eq. by rewrite Ha', Hs'.
Qed.

Lemma same_visibility_push h x c : same_visibility h (alter (push_cleanup c) x h).
Proof.
  intros y. destruct (decide (y = x)) as [->|Hne].
  - rewrite lookup_alter_eq. by destruct (h !! x); constructor.
  - rewrite lookup_alter_ne by done. by destruct (h !! y); constructor.
Qed.

Section provided.
Context (served : gset Addr) (h : gmap Addr Fiber) (owner : Addr) (f : Fiber).
Context (Hf : h !! owner = Some f) (Hgate : gate_open f).
Context (so so' : Stores) (Hso : gr_fibers (so_graph so) = h).
Context (key : RealmKey) (name : string) (slot : ServiceSlot) (drift : option CommittedServiceDrift).
Context (Hold : ∀ existing, slots (so_services so) !! (key, name) = Some existing → owner_alive h (ss_fiber existing) = false).
Context (Hslots : slots (so_services so') = <[ (key, name) := slot ]> (slots (so_services so))).
Context (Hdrift : (drift, so_graph so') = drift_if (is_active h owner) (so_graph so) [(name, key)]).
Context (Hg : graph_wf served (so_graph so)) (Howner : ss_fiber slot = owner).

Lemma provided_active : is_active h owner = bool_decide (fiber_state f = Active).
Proof. unfold is_active. by rewrite Hf. Qed.

Lemma provided_agrees : heap_agrees h (gr_fibers (so_graph so')).
Proof.
  pose proof (drift_if_spec (is_active h owner) served (so_graph so) [(name, key)] Hg) as H. rewrite <- Hdrift in H.
  rewrite <- Hso. destruct H as [(_ & ? & _)|(_ & _ & ->)]; [done|reflexivity].
Qed.

Lemma provided_recommitted :
  fiber_state f = Active → is_Some drift ∧ recommitted served [(name, key)] h (gr_fibers (so_graph so')).
Proof.
  intros Ha. pose proof (drift_if_spec (is_active h owner) served (so_graph so) [(name, key)] Hg) as H.
  rewrite <- Hdrift, provided_active, bool_decide_true, Hso in H by done.
  by destruct H as [(_ & _ & _ & ? & _ & ?)|(_ & ? & _)].
Qed.

Lemma provided_silent : fiber_state f ≠ Active → drift = None.
Proof.
  intros Ha. pose proof (drift_if_spec (is_active h owner) served (so_graph so) [(name, key)] Hg) as H.
  rewrite <- Hdrift, provided_active, bool_decide_false in H by done.
  by destruct H as [(_ & _ & _ & _ & ? & _)|(? & _ & _)].
Qed.

(** The slot of the new occurrence is visible exactly if its owner is Active. *)
Lemma provided_visible h' : same_visibility h h' → visible h' slot = bool_decide (fiber_state f = Active).
Proof.
  intros Hs. rewrite (same_visibility_visible h h') by done. unfold visible. rewrite Howner, Hf.
  by destruct Hgate as [-> _].
Qed.
End provided.

(** [C40] Publishing a Service is decided by the gate, the contract binding and the exact
    slot, in this order, and a refusal changes nothing.  With a closed generation the
    answer is [InactiveContext]; with the name bound to another contract it is
    [ContractMismatch]; with a slot whose owner is still alive it is
    [DuplicatePublication]; otherwise the slot holds the new occurrence, bound to the
    contract, with its withdrawal as the newest cleanup of the owner.  If the owner is
    Active the occurrence is visible at once, its value is what a lookup through the
    same Context returns, every dependent has a new recheck revision, and one visibility
    record is published; if it is Loading nobody is notified and nothing becomes
    visible. *)
Theorem provide_outcome (served : gset Addr) (ctx : Context) (S : Service) (v : nat) (r : Runtime) (f : Fiber)
    (Hwf : runtime_wf served r) (Hf : root_heap r !! ctx_fiber ctx = Some f)
    (Hj : journal_wf (f_journal f)) (Hroom : (dl_sn (f_journal f) < u64_max)%Z) :
  let key := isolate_key ctx (sv_name S) in
  let value := {| av_type := sv_type S; av_payload := v |} in
  let st := so_services (root_stores r) in
  let '(out, r') := provide ctx S value r in
  let unchanged := root_stores r' = root_stores r ∧ root_kicked r' = root_kicked r ∧ root_observed r' = root_observed r in
  match out with
  | Err PublishInactiveContext => unchanged ∧ ¬ gate_open f
  | Err (PublishContractMismatch n) =>
      unchanged ∧ n = sv_name S ∧ gate_open f ∧ ∃ t, contracts st !! sv_name S = Some t ∧ t ≠ sv_type S
  | Err (DuplicatePublication n) =>
      unchanged ∧ n = sv_name S ∧ gate_open f ∧ contracts st !! sv_name S = Some (sv_type S) ∧
      ∃ slot, slots st !! (key, sv_name S) = Some slot ∧ owner_alive (root_heap r) (ss_fiber slot) = true
  | Ok p =>
      gate_open f ∧
      slots (so_services (root_stores r')) = <[ (key, sv_name S) :=
        {| ss_occurrence := sp_occurrence p; ss_value := value; ss_contract := sv_type S; ss_fiber := ctx_fiber ctx |} ]> (slots st) ∧
      contracts (so_services (root_stores r')) = <[ sv_name S := sv_type S ]> (contracts st) ∧
      sp_occurrence p = root_next r ∧ sp_owner p = ctx_fiber ctx ∧ sp_key p = key ∧
      (∃ f', root_heap r' !! ctx_fiber ctx = Some f' ∧
         dl_map (f_journal f') = dl_map (f_journal f) ++
           [(sp_cleanup p, sync_cleanup (CleanService key (sv_name S) (sp_occurrence p)))]) ∧
      if decide (fiber_state f = Active) then
        occurrence_id (root_stores r') key (sv_name S) = Some (sp_occurrence p) ∧
        try_service ctx S r' = Ok value ∧
        recommitted served [(sv_name S, key)] (root_heap r) (root_heap r') ∧
        root_observed r' = root_observed r ++ [published r (sv_name S) key None (Some (sp_occurrence p))]
      else
        occurrence_id (root_stores r') key (sv_name S) = None ∧
        root_kicked r' = root_kicked r ∧ root_observed r' = root_observed r
  end.
Proof.
  intros key value st. unfold provide. rewrite (can_register_open _ _ f Hf).
  case_bool_decide as Hgate; [cbn [negb fresh_occurrence]|by cbn].
  set (r1 := {| root_membership := _; root_next := _; root_stores := _; root_kicked := _; root_observed := _ |}).
  set (slot := {| ss_occurrence := root_next r; ss_value := _; ss_contract := _; ss_fiber := _ |}).
  rewrite (push_gated_spec _ _ _ _ f) by done. rewrite decide_True by done. unfold slot_publish.
  pose proof (install_spec (root_next r) served (ctx_fiber ctx) slot key (sv_name S) (root_stores r)
                (rt_slots _ _ Hwf) (rt_graph _ _ Hwf)) as Hi.
  cbn [root_stores r1]. destruct (install _ _ _ _ _) as [[[evicted drift]|[[] s]] so]; cbn zeta in Hi.
  2: { destruct Hi as (-> & -> & ? & ?). cbn. by split_and!. }
  2: { destruct Hi as (-> & -> & ?). cbn. by split_and!. }
  destruct Hi as (Hb & _ & Hold & Hc & Hs & Hd).
  change (update_fiber ?x ?g (drift, ?w)) with (drift, update_fiber x g w). cbv beta iota.
  set (c := sync_cleanup _). set (r2 := update_fiber _ _ _).
  pose proof (announce_spec drift (sv_name S) key None (Some (root_next r)) r2) as [Han Hann].
  fold key. set (r' := announce _ _ _ _ _ _) in *.
  assert (root_heap r' = alter (push_cleanup c) (ctx_fiber ctx) (gr_fibers (so_graph so))) as Hheap
    by (unfold root_heap; by rewrite Han).
  pose proof (provided_agrees served _ _ _ _ eq_refl _ _ _ Hd (rt_graph _ _ Hwf)) as Hagree.
  assert (same_visibility (root_heap r) (root_heap r')) as Hvis.
  { rewrite Hheap. etransitivity; [apply same_visibility_agrees, Hagree|apply same_visibility_push]. }
  assert (so_services (root_stores r') = so_services so) as Hsv by by rewrite Han.
  pose proof (provided_visible _ _ _ Hf Hgate slot eq_refl _ Hvis) as Hv. cbn [sp_occurrence sp_owner sp_key sp_cleanup].
  rewrite Hsv, Hs, Hc. split_and!; [done..| |].
  - rewrite Hheap, lookup_alter_eq. destruct (heap_agrees_lookup_l _ _ _ _ Hagree Hf) as (f1 & -> & ->).
    eexists. split; [done|].
    change (dl_map (dl_push (f_journal f) c).2 = dl_map (f_journal f) ++ [((dl_push (f_journal f) c).1, c)]).
    by destruct (dl_push_spec (f_journal f) c Hj Hroom) as [-> _].
  - unfold try_service, occurrence_id, visible_value. rewrite Hsv, Hs, Hc, !lookup_insert_eq.
    change (gr_fibers (so_graph (root_stores r'))) with (root_heap r'). rewrite Hv.
    case_decide as Hact.
    + rewrite bool_decide_true by done.
      destruct (provided_recommitted served _ _ _ Hf _ _ eq_refl _ _ _ Hd (rt_graph _ _ Hwf) Hact) as [[d ->] Hre].
      split_and!; [done| | |by apply Hann].
      * rewrite bool_decide_false by (intros [_ ?]; done). cbn. by rewrite decide_True.
      * intros x Hx. destruct (Hre x Hx) as (fx & fx' & Hfx & Hfx' & Hne). exists fx.
        rewrite Hheap. destruct (decide (x = ctx_fiber ctx)) as [->|Hxo].
        -- rewrite lookup_alter_eq, Hfx'. eexists. split_and!; [done..|]. done.
        -- rewrite lookup_alter_ne by done. by exists fx'.
    + rewrite bool_decide_false by done.
      rewrite (provided_silent served _ _ _ Hf _ _ _ _ _ Hd (rt_graph _ _ Hwf) Hact) in Hann. by destruct Hann.
Qed.

(** * Transitions *)

(** [f'] is [f] after the publication of [next], and possibly a recheck commit. *)
Definition transitioned (next : FiberState) (f f' : Fiber) : Prop :=
  fiber_state f' = next ∧ f' = set_f_committed (f_committed f') (set_f_state (f_state f') f).

Lemma set_state_transitioned next f f0 f' :
  agree f f0 → set_state next f0 = Some f' → transitioned next f f'.
Proof.
  intros -> Hs. apply set_state_spec in Hs as (p & -> & Hp). unfold transitioned, fiber_state. simpl.
  split; [done|]. by destruct f.
Qed.

Lemma recommitted_mono served edges edges' h h' :
  (∀ e, e ∈ edges' → e ∈ edges) → recommitted served edges h h' → recommitted served edges' h h'.
Proof.
  intros Hsub Hr x (Hs & f & Hf & Hd). apply Hr. split; [done|]. exists f. split; [done|].
  unfold declares in *. eapply Exists_impl; [done|]. simpl. auto.
Qed.

Lemma observe_fold_stores r (f : Runtime → ServiceVisibilityOccurrence → Runtime) vs :
  (∀ r v, root_stores (f r v) = root_stores r ∧ root_next (f r v) = root_next r ∧ root_membership (f r v) = root_membership r) →
  root_stores (fold_left f vs r) = root_stores r ∧ root_next (fold_left f vs r) = root_next r ∧
  root_membership (fold_left f vs r) = root_membership r.
Proof.
  intros Hf. revert r. induction vs as [|v vs IH]; intros r; simpl; [done|].
  destruct (IH (f r v)) as (-> & -> & ->). apply Hf.
Qed.

(** The stores after a transition, before the notifications. *)
Definition transition_stores (x : Addr) (next : FiberState) (f : Fiber) (so : Stores) : option Stores :=
  if negb (bool_decide ((fiber_state f = Active) ↔ (next = Active))) && f_installed f
  then '(_, _, so) ← commit_fiber_transition x next so; Some so
  else f ← set_state next f; Some (update_fiber x (λ _, f) so).

Lemma transition_stores_eq x next r r' f :
  root_heap r !! x = Some f → transition x next r = Some r' →
  root_next r' = root_next r ∧ root_membership r' = root_membership r ∧
  (fiber_state f = next ∧ r' = r ∨
   fiber_state f ≠ next ∧ transition_stores x next f (root_stores r) = Some (root_stores r')).
Proof.
  intros Hf. unfold transition, transition_stores. rewrite Hf. cbn [mbind option_bind].
  destruct (decide (fiber_state f = next)) as [Heq|Hne]; [intros [= <-]; by split_and!; [..|left]|].
  intros Htr. assert (∃ r1, root_stores r' = root_stores r1 ∧ root_next r' = root_next r1 ∧
    root_membership r' = root_membership r1 ∧ root_next r1 = root_next r ∧ root_membership r1 = root_membership r ∧
    transition_stores x next f (root_stores r) = Some (root_stores r1)) as (r1 & -> & -> & -> & -> & -> & Hst);
    [|split_and!; [done..|right; by split]].
  unfold transition_stores. revert Htr.
  destruct (negb (bool_decide ((fiber_state f = Active) ↔ (next = Active))) && f_installed f) eqn:Hb.
  - destruct (commit_fiber_transition x next (root_stores r)) as [[[visibility drift] so]|]; [|done].
    cbn [mbind option_bind]. apply andb_true_iff in Hb as [_ ->].
    intros [= <-]. exists (with_stores so r).
    destruct (observe_fold_stores (kick_some drift (with_stores so r))
      (λ r v, observe_visibility (vo_service v) (vo_realm v)
         (if decide (fiber_state f = Active) then Some (vo_occurrence v) else None)
         (if decide (next = Active) then Some (vo_occurrence v) else None) r) visibility) as (H1 & H2 & H3); [done|].
    cbn [observe root_stores root_next root_membership]. rewrite H1, H2, H3. by destruct drift.
  - destruct (set_state next f) as [f'|]; [|done]. cbn [mbind option_bind]. intros Htr.
    exists (update_fiber x (λ _, f') r). by destruct (f_installed f); injection Htr as <-.
Qed.

Lemma owned_slots_in st x key name slot :
  slots st !! (key, name) = Some slot → ss_fiber slot = x → ((key, name), slot) ∈ owned_slots st x.
Proof. intros Hs Hx. apply list_elem_of_filter. split; [done|]. by apply elem_of_map_to_list. Qed.

(** What one transition does to the stores: the state of [x] and revisions, nothing else;
    and a slot changes visibility only together with the commit of its dependents. *)
Record transition_effect (served : gset Addr) (x : Addr) (next : FiberState) (so so' : Stores) : Prop := {
  te_services : so_services so' = so_services so;
  te_registry : gr_registry (so_graph so') = gr_registry (so_graph so);
  te_graph : graph_wf served (so_graph so');
  te_rows : rows_subset (so_graph so) (so_graph so');
  te_self : ∃ f f', fibers so !! x = Some f ∧ fibers so' !! x = Some f' ∧ transitioned next f f';
  te_others : ∀ y, y ≠ x → option_Forall2 agree (fibers so !! y) (fibers so' !! y);
  te_commits : ∀ key name,
    (∀ f, fibers so !! x = Some f → f_installed f = true ∨ (fiber_state f = Active ↔ next = Active)) →
    occurrence_id so key name ≠ occurrence_id so' key name →
    recommitted served [(name, key)] (fibers so) (fibers so');
}.

Lemma occurrence_id_state so so' x key name slot :
  so_services so' = so_services so → slots (so_services so) !! (key, name) = Some slot → ss_fiber slot ≠ x →
  (∀ y, y ≠ x → option_Forall2 agree (fibers so !! y) (fibers so' !! y)) →
  occurrence_id so' key name = occurrence_id so key name.
Proof.
  intros Hsv Hs Hne Ho. unfold occurrence_id, visible. rewrite Hsv, Hs. specialize (Ho _ Hne). cbn in Ho.
  by destruct Ho as [f f' ->|].
Qed.

Lemma graph_wf_update served g x f f' :
  graph_wf served g → gr_fibers g !! x = Some f → f_id f' = f_id f → f_edges f' = f_edges f →
  graph_wf served {| gr_fibers := <[ x := f' ]> (gr_fibers g); gr_registry := gr_registry g; gr_deps := gr_deps g |}.
Proof.
  intros [Hix Hc] Hf Hid He. split; [|done]. simpl. eapply index_wf_heap; [done|].
  intros y g' [[<- <-]|[Hne Hy]]%lookup_insert_Some; left; [by exists f|by exists g'].
Qed.

Lemma alter_insert_some {A} (m : gmap Addr A) x (g : A → A) a : m !! x = Some a → alter g x m = <[ x := g a ]> m.
Proof.
  intros Hx. apply map_eq. intros y. destruct (decide (y = x)) as [->|Hne].
  - by rewrite lookup_alter_eq, lookup_insert_eq, Hx.
  - by rewrite lookup_alter_ne, lookup_insert_ne.
Qed.

Lemma transition_stores_effect served x next f so so' :
  graph_wf served (so_graph so) → fibers so !! x = Some f →
  transition_stores x next f so = Some so' → transition_effect served x next so so'.
Proof.
  intros Hg Hf. unfold transition_stores. destruct (negb _ && f_installed f) eqn:Hb.
  - apply andb_true_iff in Hb as [_ Hinst]. unfold commit_fiber_transition.
    set (visibility := _ <$> owned_slots (so_services so) x). set (edges := _ <$> visibility).
    pose proof (drift_if_spec (negb (bool_decide (visibility = []))) served (so_graph so) edges Hg) as Hd.
    pose proof (drift_if_rows (negb (bool_decide (visibility = []))) served (so_graph so) edges Hg) as Hrows.
    destruct (drift_if _ _ edges) as [drift g].
    assert (graph_wf served g ∧ heap_agrees (gr_fibers (so_graph so)) (gr_fibers g) ∧
            gr_registry g = gr_registry (so_graph so)) as (Hg' & Ha & Hreg)
      by (destruct Hd as [(? & ? & ? & _)|(_ & _ & ->)]; done).
    destruct (heap_agrees_lookup_l _ _ _ _ Ha Hf) as (f0 & Hf0 & Hagr). rewrite Hf0. cbn [mbind option_bind].
    destruct (set_state next f0) as [f'|] eqn:Hst; [|done]. cbn [mbind option_bind]. intros [= <-].
    pose proof (set_state_transitioned _ _ _ _ Hagr Hst) as Htr.
    split; [done|done| |done|..]; cbn [fibers stores_fiber_store so_graph gr_fibers].
    + eapply graph_wf_update; [done..| |]; destruct Htr as [_ ->]; by rewrite Hagr.
    + exists f, f'. rewrite lookup_insert_eq. by split_and!.
    + intros y Hne. rewrite lookup_insert_ne by done. apply Ha.
    + intros key name _ Hocc. destruct (slots (so_services so) !! (key, name)) as [slot|] eqn:Hs.
      2: { exfalso. apply Hocc. unfold occurrence_id. cbn [so_services]. by rewrite Hs. }
      destruct (decide (ss_fiber slot = x)) as [Hx|Hx].
      2: { exfalso. apply Hocc. symmetry. eapply occurrence_id_state; [done..|]. intros y Hne.
           cbn. rewrite lookup_insert_ne by done. apply Ha. }
      assert ((name, key) ∈ edges) as Hin.
      { unfold edges, visibility. rewrite <- list_fmap_compose. apply list_elem_of_fmap.
        exists ((key, name), slot). split; [done|]. by apply owned_slots_in. }
      destruct Hd as [(_ & _ & _ & _ & _ & Hre)|(_ & Hnil & _)].
      * intros y Hy. destruct (recommitted_mono _ _ [(name, key)] _ _ ltac:(by intros e ->%list_elem_of_singleton) Hre y Hy)
          as (fy & fy' & Hfy & Hfy' & Hne). exists fy.
        destruct (decide (y = x)) as [->|Hyx].
        -- rewrite lookup_insert_eq. exists f'. split_and!; [done..|].
           apply set_state_spec in Hst as (p & -> & _). simpl. congruence.
        -- rewrite lookup_insert_ne by done. by exists fy'.
      * apply negb_false_iff, bool_decide_eq_true in Hnil. unfold edges in Hin. rewrite Hnil in Hin.
        by apply not_elem_of_nil in Hin.
  - destruct (set_state next f) as [f'|] eqn:Hst; [|done]. cbn [mbind option_bind]. intros [= <-].
    pose proof (set_state_transitioned next f f f' ltac:(reflexivity) Hst) as Htr.
    cbn [update_fiber stores_fiber_store]. rewrite (alter_insert_some _ _ _ _ Hf).
    split; [done|done| |by intros key row|..]; cbn [fibers stores_fiber_store with_heap so_graph gr_fibers].
    + eapply graph_wf_update; [done..| |]; by destruct Htr as [_ ->].
    + exists f, f'. rewrite lookup_insert_eq. by split_and!.
    + intros y Hne. rewrite lookup_insert_ne by done. reflexivity.
    + intros key name Hins Hocc. exfalso. apply Hocc. unfold occurrence_id.
      cbn [so_services with_heap so_graph gr_fibers].
      destruct (slots (so_services so) !! (key, name)) as [slot|]; [|done].
      assert (visible (<[ x := f' ]> (gr_fibers (so_graph so))) slot = visible (gr_fibers (so_graph so)) slot) as ->; [|done].
      unfold visible. destruct (decide (ss_fiber slot = x)) as [Hx|Hx]; [|by rewrite lookup_insert_ne].
      rewrite Hx, lookup_insert_eq. change (gr_fibers (so_graph so) !! x) with (fibers so !! x). rewrite Hf.
      destruct Htr as [Hnext ->]. cbn [f_alive set_f_committed set_f_state]. f_equal. apply bool_decide_ext.
      change (fiber_state f' = Active ↔ fiber_state f = Active). rewrite Hnext.
      specialize (Hins f Hf). apply andb_false_iff in Hb as [Hb|Hb].
      * apply negb_false_iff, bool_decide_eq_true in Hb. tauto.
      * destruct Hins as [?|?]; [congruence|tauto].
Qed.

(** * Exact controls *)

(** What an exact removal answers, and what it leaves. *)
Lemma remove_exact_spec key name occurrence owner so :
  let h := gr_fibers (so_graph so) in
  let at_key := slots (so_services so) !! (key, name) in
  let '(out, so') := remove_exact key name occurrence owner so in
  match out with
  | Err (StalePublication _) => so' = so ∧ ∀ slot, at_key = Some slot → ss_occurrence slot ≠ occurrence
  | Err (MutationClosed _) =>
      so' = so ∧ can_register h owner = false ∧ ∃ slot, at_key = Some slot ∧ ss_occurrence slot = occurrence
  | Ok (slot, drift) =>
      at_key = Some slot ∧ ss_occurrence slot = occurrence ∧ can_register h owner = true ∧
      contracts (so_services so') = contracts (so_services so) ∧
      slots (so_services so') = delete (key, name) (slots (so_services so)) ∧
      (drift, so_graph so') = drift_if (is_active h owner) (so_graph so) [(name, key)]
  end.
Proof.
  unfold remove_exact. cbn zeta. destruct (slots (so_services so) !! (key, name)) as [slot|] eqn:Hs.
  - case_bool_decide as Ho; cbn [negb].
    + destruct (can_register _ owner) eqn:Hc; cbn [negb].
      * destruct (drift_if _ _ _) as [d g]. by split_and!.
      * split_and!; [done..|]. by exists slot.
    + split; [done|]. by intros ? [= <-].
  - done.
Qed.

(** What an exact replacement of the value answers, and what it leaves. *)
Lemma set_exact_spec key name occurrence owner value so :
  let h := gr_fibers (so_graph so) in
  let at_key := slots (so_services so) !! (key, name) in
  let '(out, so') := set_exact key name occurrence owner value so in
  match out with
  | Err (StalePublication _, v) => so' = so ∧ v = value ∧ ∀ slot, at_key = Some slot → ss_occurrence slot ≠ occurrence
  | Err (MutationClosed _, v) =>
      so' = so ∧ v = value ∧ can_register h owner = false ∧ ∃ slot, at_key = Some slot ∧ ss_occurrence slot = occurrence
  | Ok outgoing =>
      ∃ slot, at_key = Some slot ∧ ss_occurrence slot = occurrence ∧ outgoing = ss_value slot ∧
      can_register h owner = true ∧
      so' = set_slot (key, name) {| ss_occurrence := occurrence; ss_value := value;
                                    ss_contract := ss_contract slot; ss_fiber := ss_fiber slot |} so
  end.
Proof.
  unfold set_exact. cbn zeta. destruct (slots (so_services so) !! (key, name)) as [slot|] eqn:Hs.
  - case_bool_decide as Ho; cbn [negb].
    + destruct (can_register _ owner) eqn:Hc; cbn [negb].
      * exists slot. split_and!; try done. by rewrite Ho.
      * split_and!; [done..|]. by exists slot.
    + split_and!; [done..|]. by intros ? [= <-].
  - done.
Qed.

(** A withdrawal removes the occurrence it names, or nothing. *)
Lemma withdraw_exact_spec key name occurrence so :
  let so' := withdraw_exact key name occurrence so in
  so_graph so' = so_graph so ∧ contracts (so_services so') = contracts (so_services so) ∧
  ∀ k slot, slots (so_services so') !! k = Some slot ↔
    slots (so_services so) !! k = Some slot ∧ ¬ (k = (key, name) ∧ ss_occurrence slot = occurrence).
Proof.
  unfold withdraw_exact. destruct (slots (so_services so) !! (key, name)) as [slot|] eqn:Hs.
  - case_decide as Ho.
    + cbn. split_and!; [done..|]. intros k s. rewrite lookup_delete_Some. split; [naive_solver|].
      intros [Hk Hne]. split; [|done]. intros <-. apply Hne. split; [done|]. congruence.
    + cbn. split_and!; [done..|]. intros k s. split; [|naive_solver]. intros Hk. split; [done|].
      intros [-> Hocc]. congruence.
  - cbn. split_and!; [done..|]. intros k s. split; [|naive_solver]. intros Hk. split; [done|].
    intros [-> _]. congruence.
Qed.

(** * A fresh Runtime *)

Lemma graph_wf_fresh (main : Addr) (f : Fiber) :
  f_id f = main →
  graph_wf ∅ {| gr_fibers := {[ main := f ]}; gr_registry := Registry_new; gr_deps := DependencyIndex_new |}.
Proof.
  intros Hid. split; [split|done]; simpl.
  - intros x g [<- <-]%lookup_singleton_Some. done.
  - intros key d Hd. unfold rows_at in Hd. rewrite lookup_empty in Hd. by apply not_elem_of_nil in Hd.
  - set_solver.
Qed.

Lemma slots_wf_fresh next : slots_wf next ServiceState_default.
Proof. split; [intros key name slot|intros k slot]; cbn; by rewrite lookup_empty. Qed.

(** A publication by the root Fiber of a fresh Runtime. *)
Definition sample_root : Fiber := default (Fiber_new 0 "root") (Fiber_root 0).
Definition sample_ctx : Context :=
  {| ctx_root := 0; ctx_fiber := 0; ctx_isolate := None; ctx_scope := None; ctx_intercept := None |}.
Definition sample_service : Service := {| sv_name := "clock"; sv_type := 3 |}.
Definition sample_runtime : Runtime :=
  {| root_membership := 0; root_next := 1;
     root_stores := {| so_services := ServiceState_default;
                       so_graph := {| gr_fibers := {[ 0 := sample_root ]}; gr_registry := Registry_new;
                                      gr_deps := DependencyIndex_new |} |};
     root_kicked := []; root_observed := [] |}.

Example provide_outcome_witness :
  runtime_wf ∅ sample_runtime ∧
  ∃ p, (provide sample_ctx sample_service {| av_type := 3; av_payload := 7 |} sample_runtime).1 = Ok p ∧
    try_service sample_ctx sample_service
      (provide sample_ctx sample_service {| av_type := 3; av_payload := 7 |} sample_runtime).2 =
      Ok {| av_type := 3; av_payload := 7 |}.
Proof.
  assert (runtime_wf ∅ sample_runtime) as Hwf by (split; [apply slots_wf_fresh|by apply graph_wf_fresh]).
  split; [exact Hwf|].
  pose proof (provide_outcome ∅ sample_ctx sample_service 7 sample_runtime sample_root Hwf eq_refl
                DisposableList_new_wf eq_refl) as H. cbn zeta in H.
  destruct (provide sample_ctx sample_service _ sample_runtime) as [[p|e] r'] eqn:E; [|by vm_compute in E].
  exists p. split; [done|]. destruct H as (_ & _ & _ & _ & _ & _ & _ & H).
  rewrite decide_True in H by done. by destruct H as (_ & Ht & _).
Defined.
