(* ===== verification/Generation.v ===== *)
(** Generations (crates/cordis-core/src/fiber/mod.rs, gated.rs, effect.rs, service.rs,
    fiber/spawn.rs): spawning, the settle pass, drains, teardown, registrations and
    publication controls as the steps of one Runtime, interleaved at the granularity of
    the locks the code takes.

    At most one lifecycle pass drives a Fiber, which is what the convergence slot
    guarantees (Inertia.v, [slot_single_holder]); [wd_drivers] holds the position of each.
    A registration holds the journal lock of its Fiber from the recheck to the push;
    [wd_sections] holds the registration inside that lock.  Every other function is one
    critical section or one atomic access.  What a user callback does to the Runtime
    it does through steps of this system, so a cleanup, an apply or a task is represented
    by the point where it may take such steps and the point where it has ended.  *)
From S2P Require Import Prelude Axes BTree Lifecycle Journal EventStore Observation Plugin Fiber Registry Deps Services.

(** * The state *)

(** What follows a drain: the rest of the settle pass, the publication of a failed
    apply, or the end of a teardown.  [owns] marks the pass of the creation, the only
    one whose caller may vanish in the middle. *)
Inductive Kont :=
| KSettle (missing owns : bool)
| KFailed (owns : bool) (failure : PluginFailure)
| KDispose (owns : bool).

(** The position of a lifecycle pass. *)
Inductive Driver :=
| DSettle (missing owns : bool)
| DUnload (missing owns : bool)
| DSnapshot (k : Kont)
| DDrain (rest : list Z) (k : Kont)
| DRunning (rest : list Z) (k : Kont)
| DDecide (missing owns : bool)
| DLoading (owns : bool)
| DApplying (owns : bool)
| DEnded (owns : bool) (outcome : result (result unit PluginFailure) string)
| DFailed (failure : PluginFailure)
| DTeardown (owns : bool)
| DKill (owns : bool)
| DUnregister (owns : bool)
| DDisposed
| DRelease.

(** What a registration publishes with its cleanup. *)
Inductive Publication :=
| PubNothing (callback : nat) (async : bool)
| PubService (ctx : Context) (svc : Service) (value : AnyValue).

(** [occurrence] is the identity of the published Service occurrence.  The code makes the
    allocation before the gate; it is counted here, where it can first be observed. *)
Inductive Phase := PhEntered | PhChecked | PhPublished (occurrence : Addr) (drift : option CommittedServiceDrift).

(** The registration that holds a journal lock. *)
Record Section_ := { sc_publication : Publication; sc_phase : Phase }.

(** [wd_running] is the claimed cleanup a drain waits for; [wd_removed] the publications
    whose slot is gone and whose cleanup is still to be claimed by their [remove];
    [wd_served] the Fibers the dependency index serves, a history variable. *)
Record World := {
  wd_main : Addr;
  wd_root : Runtime;
  wd_served : gset Addr;
  wd_drivers : gmap Addr Driver;
  wd_running : gmap Addr Cleanup;
  wd_sections : gmap Addr Section_;
  wd_effects : list EffectRegistration;
  wd_pubs : list ServicePublication;
  wd_removed : list ServicePublication;
}.

Definition world_fibers (w : World) : gmap Addr Fiber := root_heap (wd_root w).

Definition put_root (r : Runtime) (w : World) : World :=
  {| wd_main := wd_main w; wd_root := r; wd_served := wd_served w; wd_drivers := wd_drivers w;
     wd_running := wd_running w; wd_sections := wd_sections w; wd_effects := wd_effects w;
     wd_pubs := wd_pubs w; wd_removed := wd_removed w |}.

Definition put_served (s : gset Addr) (w : World) : World :=
  {| wd_main := wd_main w; wd_root := wd_root w; wd_served := s; wd_drivers := wd_drivers w;
     wd_running := wd_running w; wd_sections := wd_sections w; wd_effects := wd_effects w;
     wd_pubs := wd_pubs w; wd_removed := wd_removed w |}.

Definition put_drivers (d : gmap Addr Driver) (w : World) : World :=
  {| wd_main := wd_main w; wd_root := wd_root w; wd_served := wd_served w; wd_drivers := d;
     wd_running := wd_running w; wd_sections := wd_sections w; wd_effects := wd_effects w;
     wd_pubs := wd_pubs w; wd_removed := wd_removed w |}.

Definition put_running (m : gmap Addr Cleanup) (w : World) : World :=
  {| wd_main := wd_main w; wd_root := wd_root w; wd_served := wd_served w; wd_drivers := wd_drivers w;
     wd_running := m; wd_sections := wd_sections w; wd_effects := wd_effects w;
     wd_pubs := wd_pubs w; wd_removed := wd_removed w |}.

Definition put_sections (m : gmap Addr Section_) (w : World) : World :=
  {| wd_main := wd_main w; wd_root := wd_root w; wd_served := wd_served w; wd_drivers := wd_drivers w;
     wd_running := wd_running w; wd_sections := m; wd_effects := wd_effects w;
     wd_pubs := wd_pubs w; wd_removed := wd_removed w |}.

Definition put_issued (e : list EffectRegistration) (p : list ServicePublication) (w : World) : World :=
  {| wd_main := wd_main w; wd_root := wd_root w; wd_served := wd_served w; wd_drivers := wd_drivers w;
     wd_running := wd_running w; wd_sections := wd_sections w; wd_effects := e; wd_pubs := p;
     wd_removed := wd_removed w |}.

Definition put_removed (l : list ServicePublication) (w : World) : World :=
  {| wd_main := wd_main w; wd_root := wd_root w; wd_served := wd_served w; wd_drivers := wd_drivers w;
     wd_running := wd_running w; wd_sections := wd_sections w; wd_effects := wd_effects w;
     wd_pubs := wd_pubs w; wd_removed := l |}.

Definition goto (x : Addr) (d : Driver) (w : World) : World := put_drivers (<[ x := d ]> (wd_drivers w)) w.
Definition stop (x : Addr) (w : World) : World := put_drivers (delete x (wd_drivers w)) w.

(** A change of one Fiber. *)
Definition on (x : Addr) (g : Fiber → Fiber) (w : World) : World := put_root (update_fiber x g (wd_root w)) w.

(** The Fiber of the root Context. *)
(* @src crates/cordis-core/src/context.rs 176-199 Context::new *)
Definition world_new (membership main : Addr) : option World :=
  f ← Fiber_root main;
  Some {| wd_main := main;
          wd_root := {| root_membership := membership; root_next := S main;
                        root_stores := {| so_services := ServiceState_default;
                                          so_graph := {| gr_fibers := {[ main := f ]}; gr_registry := Registry_new;
                                                         gr_deps := DependencyIndex_new |} |};
                        root_kicked := []; root_observed := [] |};
          wd_served := ∅; wd_drivers := ∅; wd_running := ∅; wd_sections := ∅; wd_effects := []; wd_pubs := [];
          wd_removed := [] |}.

(** * Spawning *)

(** The missing Services are those of one stable observation of the state. *)
(* @src crates/cordis-core/src/observation.rs 428-450 fiber_snapshot *)
Definition fiber_snapshot (w : World) (f : Fiber) : FiberSnapshot :=
  {| fs_id := f_id f; fs_role := Ordinary; fs_name := f_name f; fs_state := fiber_state f;
     fs_missing_services := if bool_decide (fiber_state f = Pending) && f_alive f
                            then missing_from f (root_stores (wd_root w)) else [] |}.

Definition bump (r : Runtime) : Runtime := (fresh_occurrence r).2.

Definition with_graph (g : Graph) (r : Runtime) : Runtime :=
  with_stores {| so_services := so_services (root_stores r); so_graph := g |} r.

Definition resolve_edges (ctx : Context) (inject : InjectSpec) : list DependencyEdge :=
  (λ e, {| de_service := ie_name e; de_realm := isolate_key ctx (ie_name e) |}) <$> entries inject.

(** The commit point of a creation: the Fiber is allocated and attached.  [None] is the
    origin's closed generation, or a panic of [attach_fiber]. *)
(* @src crates/cordis-core/src/fiber/spawn.rs 251-289 spawn_prepared_inner *)
Definition spawn_attach (ctx : Context) (p : PreparedPlugin) (require_origin_open : bool) (w : World) : option World :=
  let r := wd_root w in
  if require_origin_open && negb (can_register (root_heap r) (ctx_fiber ctx)) then None
  else
    let x := root_next r in
    let f := set_f_creation_pending true
               (Fiber_new_with_edges x (pp_name p) (resolve_edges ctx (pp_inject p))) in
    let g := so_graph (root_stores r) in
    '(heap, reg) ← attach_fiber (<[ x := f ]> (gr_fibers g)) (gr_registry g) (Typed (pp_contract p)) x;
    Some (put_root (with_graph {| gr_fibers := heap; gr_registry := reg; gr_deps := gr_deps g |} (bump r)) w).

(** The scope of the Fiber: a child of the spawning Scope carrying the configured rows. *)
Definition spawn_scope (ctx : Context) (node : Addr) (inject : InjectSpec) : Context :=
  fold_left (λ ctx e, match ie_configured e with
                      | Some layer => with_configured_intercept ctx (ie_name e) layer
                      | None => ctx
                      end) (entries inject) (with_child_scope ctx node).

(** The installation of the spawn record; [None] is the [expect] on a second one.
    [seal] is the address of the plugin's seal. *)
(* @src crates/cordis-core/src/fiber/spawn.rs 302-320 spawn_prepared_inner *)
Definition spawn_record (x : Addr) (ctx : Context) (p : PreparedPlugin) (seal : Addr) (w : World) : option World :=
  let r := wd_root w in
  f ← root_heap r !! x;
  let '(node, r) := fresh_occurrence r in
  let '(input, r) := fresh_occurrence r in
  let incoming := {| st_plugin := seal; st_name := pp_name p; st_inject := pp_inject p;
                     st_scope := spawn_scope ctx node (pp_inject p); st_plugin_key := Typed (pp_contract p);
                     st_spawning_ctx := ctx; st_effective_input := input |} in
  match spawn_install (f_spawn f) incoming with
  | (Ok _, s) => Some (on x (set_f_spawn s) (put_root r w))
  | (Err _, _) => None
  end.

(** The registration of the declared edges, and the admission record. *)
(* @src crates/cordis-core/src/fiber/spawn.rs 321-331 spawn_prepared_inner *)
Definition spawn_index (x : Addr) (w : World) : option World :=
  let r := wd_root w in
  let g := so_graph (root_stores r) in
  f ← gr_fibers g !! x;
  if f_installed f then
    let g := {| gr_fibers := gr_fibers g; gr_registry := gr_registry g; gr_deps := register (gr_deps g) x f |} in
    let w := put_root (observe (FiberResidency Admitted_ (fiber_snapshot w f)) (with_graph g r)) w in
    Some (if f_alive f then put_served ({[ x ]} ∪ wd_served w) w else w)
  else None.

(** A committed change of input: the record gets a new input identity. *)
Definition with_input (input : Addr) (st : Stored) : Stored :=
  {| st_plugin := st_plugin st; st_name := st_name st; st_inject := st_inject st; st_scope := st_scope st;
     st_plugin_key := st_plugin_key st; st_spawning_ctx := st_spawning_ctx st; st_effective_input := input |}.

Definition commit_input (x : Addr) (w : World) : option World :=
  f ← world_fibers w !! x;
  st ← f_spawn f;
  let '(input, r) := fresh_occurrence (wd_root w) in
  Some (on x (set_f_spawn (Some (with_input input st))) (put_root r w)).

(** * The lifecycle passes *)

Definition kont_owns (k : Kont) : bool :=
  match k with KSettle _ owns | KFailed owns _ | KDispose owns => owns end.

(** Where a pass goes on after its drain. *)
Definition after_drain (k : Kont) : Driver :=
  match k with
  | KSettle missing owns => DDecide missing owns
  | KFailed _ failure => DFailed failure
  | KDispose _ => DDisposed
  end.

(** [transition] on the Fiber [x] of the world. *)
Definition move (x : Addr) (next : FiberState) (w : World) : option World :=
  r ← transition x next (wd_root w); Some (put_root r w).

Definition unlocked (x : Addr) (w : World) : bool := bool_decide (wd_sections w !! x = None).

(** One step of a settle pass: [settle_once_inner], with the drains as their own
    positions.  [missing] is [target.has_missing()]. *)
(* @src crates/cordis-core/src/fiber/mod.rs 902-988 Fiber::settle_once_inner *)
Definition settle_step (x : Addr) (f : Fiber) (d : Driver) (ending : ApplyEnding) (w : World) : option World :=
  match d with
  | DSettle missing owns =>
      if negb (f_alive f) then Some (stop x w)
      else match fiber_state f with
           | Active | Failed | Loading => Some (goto x (DUnload missing owns) w)
           | Pending | Unloading | Disposed => Some (goto x (DDecide missing owns) w)
           end
  | DUnload missing owns => w ← move x Unloading w; Some (goto x (DSnapshot (KSettle missing owns)) w)
  | DDecide missing owns =>
      if missing then w ← move x Pending (on x (store_error None) w); Some (stop x w)
      else if negb owns && f_creation_pending f && negb (f_applied f) then Some (stop x w)
      else match apply_snapshot (f_spawn f) with
           | Ok _ => Some (goto x (DLoading owns) (on x (set_f_replacing false) w))
           | Err _ => None
           end
  | DLoading owns => w ← move x Loading w; Some (goto x (DApplying owns) w)
  | DApplying owns =>
      (* the end of the contained apply *)
      let outcome := match ending with
                     | ApplyDone => Ok (Ok tt)
                     | ApplyErr d => Ok (Err (pf_returned d))
                     | ApplyUnwound payload => Err payload
                     end in
      Some (goto x (DEnded owns outcome) (on x (set_f_applied true) w))
  | DEnded owns (Ok (Ok _)) => w ← move x Active (on x (store_error None) w); Some (stop x w)
  | DEnded owns (Ok (Err failure)) => w ← move x Unloading w; Some (goto x (DSnapshot (KFailed owns failure)) w)
  | DEnded owns (Err panic) => w ← move x Unloading w; Some (goto x (DSnapshot (KFailed owns (pf_panicked panic))) w)
  | DFailed failure => w ← move x Failed (on x (store_error (Some failure)) w); Some (stop x w)
  | _ => None
  end.

(** One step of a drain: the snapshot of the tokens, taken once no previously claimed
    cleanup runs and while the journal is unlocked; then, from the newest token, each
    claim; a claimed cleanup is waited for. *)
(* @src crates/cordis-core/src/fiber/mod.rs 815-840 Fiber::drain_disposables *)
Definition drain_step (x : Addr) (f : Fiber) (d : Driver) (w : World) : option World :=
  match d with
  | DSnapshot k =>
      if bool_decide (wd_running w !! x = None) && unlocked x w
      then Some (goto x (DDrain (dl_tokens (f_journal f)) k) (on x (set_f_draining true) w)) else None
  | DDrain rest k =>
      match rev rest with
      | [] => Some (goto x (after_drain k) (on x (set_f_draining false) w))
      | token :: rest' =>
          if unlocked x w then
            match claim_cleanup x token w.(wd_root) with
            | (None, r) => Some (goto x (DDrain (rev rest') k) (put_root r w))
            | (Some cleanup, r) =>
                Some (put_running (<[ x := cleanup ]> (wd_running w)) (goto x (DRunning (rev rest') k) (put_root r w)))
            end
          else None
      end
  | DRunning rest k =>
      if bool_decide (wd_running w !! x = None) then Some (goto x (DDrain rest k) w) else None
  | _ => None
  end.

(** The removal of the declared edges beside the death mark. *)
Definition unindex (x : Addr) (f : Fiber) (w : World) : World :=
  if f_installed f then
    let g := so_graph (root_stores (wd_root w)) in
    put_served (wd_served w ∖ {[ x ]})
      (put_root (with_graph {| gr_fibers := gr_fibers g; gr_registry := gr_registry g;
                               gr_deps := unregister (gr_deps g) f |} (wd_root w)) w)
  else w.

(** The release of the residency claim, with its record. *)
(* @src crates/cordis-core/src/fiber/mod.rs 1183-1199 Fiber::release_residency *)
Definition release_world (x : Addr) (f : Fiber) (w : World) : World :=
  let g := so_graph (root_stores (wd_root w)) in
  let '(heap, reg) := release_residency (gr_fibers g) (gr_registry g) x in
  let r := with_graph {| gr_fibers := heap; gr_registry := reg; gr_deps := gr_deps g |} (wd_root w) in
  put_root (if f_installed f && bool_decide (is_Some (f_residency f))
            then observe (FiberResidency Removed (fiber_snapshot w f)) r else r) w.

(** One step of a teardown: [teardown_body], the release of the residency claim and the
    publication of the completed barrier. *)
(* @src crates/cordis-core/src/fiber/mod.rs 1097-1127 Fiber::teardown_body *)
Definition teardown_step (x : Addr) (f : Fiber) (d : Driver) (w : World) : option World :=
  match d with
  | DTeardown owns =>
      let w := on x (set_f_creation_pending false) w in
      if decide (fiber_state f = Disposed) then Some (goto x DRelease w)
      else w ← move x Unloading w; Some (goto x (DKill owns) w)
  | DKill owns => Some (goto x (DUnregister owns) (on x (set_f_alive false) w))
  | DUnregister owns => Some (goto x (DSnapshot (KDispose owns)) (unindex x f w))
  | DDisposed => w ← move x Disposed w; Some (goto x DRelease (on x (store_error None) w))
  | DRelease => Some (stop x (on x (set_f_dispose_complete true) (release_world x f w)))
  | _ => None
  end.

(** One step of the pass that drives [x]. *)
Definition drive (x : Addr) (ending : ApplyEnding) (w : World) : option World :=
  d ← wd_drivers w !! x;
  f ← world_fibers w !! x;
  match settle_step x f d ending w with
  | Some w => Some w
  | None => match drain_step x f d w with
            | Some w => Some w
            | None => teardown_step x f d w
            end
  end.

(** * Operations of clients and of the framework *)

(** What a cleanup of the framework does; a user cleanup acts through other steps, and
    the stores of listeners, policies and observers are not part of this state. *)
Definition run_action (c : CleanupAction) (so : Stores) : Stores :=
  match c with
  | CleanService key name occurrence => withdraw_exact key name occurrence so
  | _ => so
  end.

(** The cleanup pushed with a publication. *)
Definition cleanup_of (p : Publication) (occurrence : Addr) : Cleanup :=
  match p with
  | PubNothing callback async => {| cl_run := CleanUser callback; async_cleanup := async |}
  | PubService ctx svc _ => sync_cleanup (CleanService (isolate_key ctx (sv_name svc)) (sv_name svc) occurrence)
  end.

(** What an operation on a Fiber's handle writes to the Fiber outside of a pass: the
    terminal mark taken before the slot is claimed, the end of the creation window, the
    parked failure it takes. *)
Inductive Mark := MkTerminal | MkHandoff | MkTakeError.

Definition apply_mark (m : Mark) : Fiber → Fiber :=
  match m with
  | MkTerminal => mark_terminal
  | MkHandoff => set_f_creation_pending false
  | MkTakeError => λ f, (take_error f).2
  end.

(** A query of the dependency index prunes the rows of dead Fibers it meets. *)
Definition query_index (edges : list EdgeKey) (w : World) : World :=
  put_root (with_graph (dependents_for_edges_with_retention (so_graph (root_stores (wd_root w))) edges).2 (wd_root w)) w.

(** A registration asked for by a client: an effect, or a Service publication. *)
Inductive Request := ReqEffect (callback : nat) (async : bool) | ReqService (ctx : Context) (svc : Service) (v : nat).

Definition publication_of (request : Request) : Publication :=
  match request with
  | ReqEffect callback async => PubNothing callback async
  | ReqService ctx svc v => PubService ctx svc {| av_type := sv_type svc; av_payload := v |}
  end.

(** The registration takes the journal lock of its Fiber.  (The unlocked gate before it
    can only refuse earlier.) *)
Definition enter_section (x : Addr) (request : Request) (w : World) : option World :=
  if bool_decide (is_Some (world_fibers w !! x)) && unlocked x w &&
     match request with ReqEffect _ _ => true | ReqService ctx _ _ => bool_decide (ctx_fiber ctx = x) end
  then Some (put_sections (<[ x := {| sc_publication := publication_of request; sc_phase := PhEntered |} ]>
                             (wd_sections w)) w)
  else None.

Definition leave_section (x : Addr) (w : World) : World := put_sections (delete x (wd_sections w)) w.

Definition set_phase (x : Addr) (p : Publication) (ph : Phase) (w : World) : World :=
  put_sections (<[ x := {| sc_publication := p; sc_phase := ph |} ]> (wd_sections w)) w.

(** The steps of [push_gated] under the journal lock: the recheck, the publication, the
    push with the release of the lock and what follows it. *)
(* @src crates/cordis-core/src/gated.rs 71-98 push_gated *)
Definition section_step (x : Addr) (w : World) : option World :=
  match wd_sections w !! x, world_fibers w !! x with
  | Some sc, Some f =>
      let p := sc_publication sc in
      match sc_phase sc with
      | PhEntered =>
          match assert_can_register f with
          | Err _ => Some (leave_section x w)
          | Ok _ => Some (set_phase x p PhChecked w)
          end
      | PhChecked =>
          match p with
          | PubNothing _ _ => Some (set_phase x p (PhPublished 0 None) w)
          | PubService ctx svc value =>
              let '(occurrence, r) := fresh_occurrence (wd_root w) in
              let slot := {| ss_occurrence := occurrence; ss_value := value; ss_contract := sv_type svc; ss_fiber := x |} in
              match install x slot (isolate_key ctx (sv_name svc)) (sv_name svc) (root_stores r) with
              | (Ok (_, drift), so) => Some (set_phase x p (PhPublished occurrence drift) (put_root (with_stores so r) w))
              | (Err _, so) => Some (leave_section x (put_root (with_stores so r) w))
              end
          end
      | PhPublished occurrence drift =>
          let cleanup := cleanup_of p occurrence in
          let token := (dl_push (f_journal f) cleanup).1 in
          if decide (dl_sn (f_journal f) < u64_max)%Z then
            let w := leave_section x (on x (push_cleanup cleanup) w) in
            match p with
            | PubNothing _ _ =>
                Some (put_issued ({| er_token := token; er_owner := x |} :: wd_effects w) (wd_pubs w) w)
            | PubService ctx svc _ =>
                let key := isolate_key ctx (sv_name svc) in
                let cap := {| sp_service := svc; sp_key := key; sp_occurrence := occurrence; sp_owner := x;
                              sp_cleanup := token |} in
                Some (put_issued (wd_effects w) (cap :: wd_pubs w)
                        (put_root (announce drift (sv_name svc) key None (Some occurrence) (wd_root w)) w))
            end
          else None
      end
  | _, _ => None
  end.

(** The [remove] of a publication, up to the release of the store lock; its cleanup is
    claimed by a later step. *)
(* @src crates/cordis-core/src/service.rs 730-768 ServicePublication::remove *)
Definition remove_step (p : ServicePublication) (w : World) : World :=
  let name := sv_name (sp_service p) in
  match remove_exact (sp_key p) name (sp_occurrence p) (sp_owner p) (root_stores (wd_root w)) with
  | (Err _, so) => put_root (with_stores so (wd_root w)) w
  | (Ok (_, drift), so) =>
      put_removed (p :: wd_removed w)
        (put_root (announce drift name (sp_key p) (Some (sp_occurrence p)) None (with_stores so (wd_root w))) w)
  end.

(** * The steps *)

Inductive Op :=
(* creation *)
| OpSpawn (ctx : Context) (p : PreparedPlugin) (require_origin_open : bool)
| OpRecord (x : Addr) (ctx : Context) (p : PreparedPlugin) (seal : Addr)
| OpIndex (x : Addr)
(* passes *)
| OpSettle (x : Addr) (missing owns : bool)
| OpTeardown (x : Addr) (owns : bool)
| OpDrive (x : Addr) (ending : ApplyEnding)
| OpRunEnd (x : Addr)
| OpCancel (x : Addr)
| OpReplace (x : Addr)
| OpMark (x : Addr) (m : Mark)
| OpQuery (edges : list EdgeKey)
(* registrations and controls *)
| OpEnter (x : Addr) (request : Request)
| OpSection (x : Addr)
| OpSet (i : nat) (v : nat)
| OpRemove (i : nat)
| OpClaim (i : nat)
| OpEffectClaim (i : nat)
(* the Registry and the heap *)
| OpDetach (doomed : Addr → bool) (key : PluginKey)
| OpFinish (allocation : Addr)
| OpDrop (x : Addr)
(* the commit of an accepted update *)
| OpCommit (x : Addr).

(** Whether the caller of the creation may vanish here: the pass is at an await. *)
Definition cancellable (d : Driver) : bool :=
  match d with
  | DSnapshot k | DRunning _ k => kont_owns k
  | DApplying owns => owns
  | _ => false
  end.

Definition update_registry (reg : Registry) (w : World) : World :=
  let g := so_graph (root_stores (wd_root w)) in
  put_root (with_graph {| gr_fibers := gr_fibers g; gr_registry := reg; gr_deps := gr_deps g |} (wd_root w)) w.

(** [None]: the step cannot be taken. *)
Definition step (op : Op) (w : World) : option World :=
  match op with
  | OpSpawn ctx p require_origin_open => spawn_attach ctx p require_origin_open w
  | OpRecord x ctx p seal => if decide (x = wd_main w) then None else spawn_record x ctx p seal w
  | OpIndex x => spawn_index x w
  | OpSettle x missing owns =>
      f ← world_fibers w !! x;
      if bool_decide (wd_drivers w !! x = None) && f_installed f && negb (bool_decide (x = wd_main w))
      then Some (goto x (DSettle missing owns) w) else None
  | OpTeardown x owns =>
      (* [claim_terminal] or [mark_terminal], with the slot held *)
      f ← world_fibers w !! x;
      if bool_decide (wd_drivers w !! x = None) && negb (bool_decide (x = wd_main w)) && negb (f_dispose_complete f)
      then Some (goto x (DTeardown owns) (on x mark_terminal w)) else None
  | OpDrive x ending => drive x ending w
  | OpRunEnd x =>
      c ← wd_running w !! x;
      Some (put_running (delete x (wd_running w))
              (put_root (with_stores (run_action (cl_run c) (root_stores (wd_root w))) (wd_root w)) w))
  | OpCancel x =>
      d ← wd_drivers w !! x;
      if cancellable d then Some (goto x (DTeardown true) (on x mark_terminal w)) else None
  | OpReplace x => _ ← world_fibers w !! x; Some (on x mark_replacing w)
  | OpMark x m => _ ← world_fibers w !! x; Some (on x (apply_mark m) w)
  | OpQuery edges => Some (query_index edges w)
  | OpEnter x request => enter_section x request w
  | OpSection x => section_step x w
  | OpSet i v =>
      p ← wd_pubs w !! i;
      Some (put_root (publication_set p {| av_type := sv_type (sp_service p); av_payload := v |} (wd_root w)).2 w)
  | OpRemove i => p ← wd_pubs w !! i; Some (remove_step p w)
  | OpClaim i =>
      p ← wd_removed w !! i;
      if unlocked (sp_owner p) w
      then Some (put_removed (delete i (wd_removed w))
                   (put_root (claim_cleanup (sp_owner p) (sp_cleanup p) (wd_root w)).2 w)) else None
  | OpEffectClaim i =>
      e ← wd_effects w !! i;
      if unlocked (er_owner e) w then Some (put_root (claim_cleanup (er_owner e) (er_token e) (wd_root w)).2 w) else None
  | OpDetach doomed key =>
      '(_, reg) ← detach_for_removal doomed (gr_registry (so_graph (root_stores (wd_root w)))) key;
      Some (update_registry reg w)
  | OpFinish a => Some (update_registry (finish_removal (gr_registry (so_graph (root_stores (wd_root w)))) a) w)
  | OpDrop x =>
      let g := so_graph (root_stores (wd_root w)) in
      if bool_decide (x ∉ snapshot_fibers (gr_registry g)) && negb (bool_decide (x = wd_main w)) &&
         bool_decide (wd_drivers w !! x = None) && unlocked x w
      then Some (put_root (with_graph {| gr_fibers := delete x (gr_fibers g); gr_registry := gr_registry g;
                                         gr_deps := gr_deps g |} (wd_root w)) w)
      else None
  | OpCommit x => if decide (x = wd_main w) then None else commit_input x w
  end.

Fixpoint run (ops : list Op) (w : World) : option World :=
  match ops with
  | [] => Some w
  | op :: ops => w ← step op w; run ops w
  end.
