(* ===== verification/GenerationInv.v ===== *)
(** The invariant of the Runtime's steps (Generation.v), and what it says of the code:
    a parked or dead generation holds nothing, visibility never changes without the
    recheck of every dependent, stale publications stay stale, contracts stay bound. *)
From S2P Require Import Prelude Axes BTree Lifecycle Journal EventStore Observation Plugin Fiber Registry Deps Services Generation.

(** * The invariant of one Fiber *)

Definition parked (s : FiberState) : Prop := s = Pending ∨ s = Failed ∨ s = Disposed.

(** A registration that has passed the recheck and has not released the journal. *)
Definition past_check (sc : option Section_) : Prop :=
  match sc with
  | Some {| sc_phase := PhChecked |} | Some {| sc_phase := PhPublished _ _ |} => True
  | _ => False
  end.

(** Nothing is owned: no obligation, no claimed cleanup, no registration on its way. *)
Definition quiet (f : Fiber) (run : option Cleanup) (sc : option Section_) : Prop :=
  dl_map (f_journal f) = [] ∧ run = None ∧ ¬ past_check sc.

(** A drain returning to the settle pass is that of an applied generation; a drain of a
    teardown is that of a dead Fiber. *)
Definition kont_ok (k : Kont) (f : Fiber) : Prop :=
  match k with
  | KSettle _ _ | KFailed _ _ => f_applied f = true ∧ f_installed f = true
  | KDispose _ => f_alive f = false
  end.

Definition drained_to (rest : list Z) (f : Fiber) : Prop := ∀ t, t ∈ dl_tokens (f_journal f) → t ∈ rest.

(** What holds at each position of a pass. *)
Definition position_ok (main : bool) (d : option Driver) (f : Fiber) (run : option Cleanup) (sc : option Section_) : Prop :=
  let st := fiber_state f in
  match d with
  | None | Some (DSettle _ _) =>
      run = None ∧ (st = Active ∨ parked st) ∧ (parked st → quiet f run sc) ∧
      (st = Active ∨ st = Failed → main = true ∨ f_applied f = true)
  | Some (DUnload _ _) => run = None ∧ (st = Active ∨ st = Failed ∧ quiet f run sc) ∧ f_applied f = true
  | Some (DSnapshot k) => st = Unloading ∧ kont_ok k f
  | Some (DDrain rest k) => st = Unloading ∧ kont_ok k f ∧ run = None ∧ ¬ past_check sc ∧ drained_to rest f
  | Some (DRunning rest k) => st = Unloading ∧ kont_ok k f ∧ ¬ past_check sc ∧ drained_to rest f
  | Some (DDecide _ _) => quiet f run sc ∧ (st = Unloading ∧ f_applied f = true ∨ st = Pending)
  | Some (DLoading _) => quiet f run sc ∧ (st = Unloading ∨ st = Pending)
  | Some (DApplying _) => run = None ∧ st = Loading
  | Some (DEnded _ _) => run = None ∧ st = Loading ∧ f_applied f = true
  | Some (DFailed _) => quiet f run sc ∧ st = Unloading ∧ f_applied f = true
  | Some (DTeardown _) => parked st → quiet f run sc
  | Some (DKill _) => st = Unloading
  | Some (DUnregister _) => st = Unloading ∧ f_alive f = false
  | Some DDisposed => quiet f run sc ∧ st = Unloading ∧ f_alive f = false
  | Some DRelease => quiet f run sc ∧ st = Disposed
  end.

(** The passes that may apply. *)
Definition settling (d : Driver) : Prop :=
  match d with
  | DSettle _ _ | DUnload _ _ | DDecide _ _ | DLoading _ | DApplying _ | DEnded _ _ | DFailed _ => True
  | _ => False
  end.

(** The cleanup names an occurrence that, if it is current, belongs to [x]. *)
Definition entry_ok (x next : Addr) (st : ServiceState) (c : Cleanup) : Prop :=
  match cl_run c with
  | CleanService key name o =>
      o < next ∧ ∀ slot, slots st !! (key, name) = Some slot → ss_occurrence slot = o → ss_fiber slot = x
  | _ => True
  end.

(** Some obligation withdraws the occurrence [o] of the slot. *)
Definition covered (f : Fiber) (run : option Cleanup) (sc : option Section_) (key : RealmKey) (name : string) (o : Addr) : Prop :=
  let withdraws c := cl_run c = CleanService key name o in
  (∃ t c, bt_lookup (dl_map (f_journal f)) t = Some c ∧ withdraws c) ∨
  (∃ c, run = Some c ∧ withdraws c) ∨
  (∃ p drift, sc = Some {| sc_publication := p; sc_phase := PhPublished o drift |} ∧ withdraws (cleanup_of p o)).

(** The occurrence [o], if it is current, belongs to [x] and has the contract of [svc]. *)
Definition bound_ok (x next : Addr) (st : ServiceState) (key : RealmKey) (svc : Service) (o : Addr) : Prop :=
  o < next ∧ ∀ slot, slots st !! (key, sv_name svc) = Some slot → ss_occurrence slot = o →
    ss_fiber slot = x ∧ ss_contract slot = sv_type svc.

Definition section_ok (x next : Addr) (st : ServiceState) (sc : option Section_) : Prop :=
  match sc with
  | Some {| sc_publication := PubService ctx svc value; sc_phase := ph |} =>
      ctx_fiber ctx = x ∧ av_type value = sv_type svc ∧
      match ph with PhPublished o _ => bound_ok x next st (isolate_key ctx (sv_name svc)) svc o | _ => True end
  | _ => True
  end.

Record fiber_inv (main served resident : bool) (next : Addr) (st : ServiceState)
    (d : option Driver) (run : option Cleanup) (sc : option Section_) (x : Addr) (f : Fiber) : Prop := {
  fi_journal : journal_wf (f_journal f);
  fi_position : position_ok main d f run sc;
  fi_running : is_Some run → fiber_state f = Unloading;
  fi_covered : ∀ key name slot, slots st !! (key, name) = Some slot → ss_fiber slot = x →
    covered f run sc key name (ss_occurrence slot);
  fi_entries : ∀ t c, bt_lookup (dl_map (f_journal f)) t = Some c → entry_ok x next st c;
  fi_run_entry : ∀ c, run = Some c → entry_ok x next st c;
  fi_section : section_ok x next st sc;
  fi_dead : fiber_state f = Disposed → f_alive f = false;
  fi_served : served = true → f_installed f = true ∧ (f_alive f = true ∨ ∃ owns, d = Some (DUnregister owns));
  fi_resident : resident = false → main = true ∨
    fiber_state f = Disposed ∧ f_dispose_complete f = true ∧ (d = None ∨ ∃ m o, d = Some (DSettle m o));
  fi_installed : ∀ d', d = Some d' → settling d' → f_installed f = true;
  fi_active : fiber_state f = Active → main = true ∨ f_installed f = true;
  fi_main : main = true → fiber_state f = Active ∧ f_alive f = true ∧ d = None;
}.

Definition services_of (w : World) : ServiceState := so_services (root_stores (wd_root w)).
Definition graph_of (w : World) : Graph := so_graph (root_stores (wd_root w)).

Definition is_resident (w : World) (x : Addr) : bool :=
  bool_decide (x ∈ rg_residents (gr_registry (graph_of w))).

Definition fiber_ok (w : World) (x : Addr) (f : Fiber) : Prop :=
  fiber_inv (bool_decide (x = wd_main w)) (bool_decide (x ∈ wd_served w)) (is_resident w x)
    (root_next (wd_root w)) (services_of w) (wd_drivers w !! x) (wd_running w !! x) (wd_sections w !! x) x f.

(** Issued capabilities: the token, if it still names a cleanup, names theirs. *)
Definition effect_ok (h : gmap Addr Fiber) (next : Addr) (e : EffectRegistration) : Prop :=
  er_owner e < next ∧ ∀ f, h !! er_owner e = Some f → (er_token e <= dl_sn (f_journal f))%Z ∧
    ∀ c, bt_lookup (dl_map (f_journal f)) (er_token e) = Some c → ∃ n, cl_run c = CleanUser n.

Definition pub_ok (h : gmap Addr Fiber) (next : Addr) (st : ServiceState) (p : ServicePublication) : Prop :=
  let name := sv_name (sp_service p) in
  sp_owner p < next ∧ bound_ok (sp_owner p) next st (sp_key p) (sp_service p) (sp_occurrence p) ∧
  ∀ f, h !! sp_owner p = Some f → (sp_cleanup p <= dl_sn (f_journal f))%Z ∧
    ∀ c, bt_lookup (dl_map (f_journal f)) (sp_cleanup p) = Some c →
      cl_run c = CleanService (sp_key p) name (sp_occurrence p).

Definition gone (st : ServiceState) (key : RealmKey) (name : string) (o : Addr) : Prop :=
  ∀ slot, slots st !! (key, name) = Some slot → ss_occurrence slot ≠ o.

Record world_ok (w : World) : Prop := {
  wo_slots : slots_wf (root_next (wd_root w)) (services_of w);
  wo_owners : ∀ k slot, slots (services_of w) !! k = Some slot → is_Some (world_fibers w !! ss_fiber slot);
  wo_graph : graph_wf (wd_served w) (graph_of w);
  wo_rows : rows_below (root_next (wd_root w)) (ix_reverse (gr_deps (graph_of w)));
  wo_heap : ∀ x, is_Some (world_fibers w !! x) → x < root_next (wd_root w);
  wo_served : ∀ x, x ∈ wd_served w → is_Some (world_fibers w !! x);
  wo_registry : registry_wf (world_fibers w) (gr_registry (graph_of w)) ∧ groups_used (gr_registry (graph_of w));
  wo_main : is_Some (world_fibers w !! wd_main w);
  wo_drivers : ∀ x, is_Some (wd_drivers w !! x) → is_Some (world_fibers w !! x);
  wo_running : ∀ x, is_Some (wd_running w !! x) → is_Some (world_fibers w !! x);
  wo_sections : ∀ x, is_Some (wd_sections w !! x) → is_Some (world_fibers w !! x);
  wo_fibers : ∀ x f, world_fibers w !! x = Some f → fiber_ok w x f;
  wo_effects : ∀ e, e ∈ wd_effects w → effect_ok (world_fibers w) (root_next (wd_root w)) e;
  wo_pubs : ∀ p, p ∈ wd_pubs w ++ wd_removed w → pub_ok (world_fibers w) (root_next (wd_root w)) (services_of w) p;
  wo_removed : ∀ p, p ∈ wd_removed w → gone (services_of w) (sp_key p) (sv_name (sp_service p)) (sp_occurrence p);
}.

(** * Frames *)

(** What no step but the release of the residency changes. *)
Definition static (f f' : Fiber) : Prop :=
  f_id f' = f_id f ∧ f_edges f' = f_edges f ∧ f_residency f' = f_residency f.

(** Two Fibers the invariant cannot tell apart. *)
Record like (f f' : Fiber) : Prop := {
  lk_static : static f f';
  lk_journal : f_journal f' = f_journal f;
  lk_state : fiber_state f' = fiber_state f;
  lk_alive : f_alive f' = f_alive f;
  lk_applied : f_applied f' = f_applied f;
  lk_spawn : f_spawn f' = f_spawn f;
  lk_complete : f_dispose_complete f' = f_dispose_complete f;
}.

Lemma like_refl f : like f f.
Proof. by split. Qed.

Lemma agree_like f f' : agree f f' → like f f'.
Proof. intros ->. by split. Qed.

#[export] Hint Resolve like_refl agree_like : cordis.

Lemma like_installed f f' : like f f' → f_installed f' = f_installed f.
Proof. intros Hl. unfold f_installed. by rewrite (lk_spawn _ _ Hl). Qed.

(** A slot that was there before, with the same occurrence, owner and contract. *)
Definition old_slot (st : ServiceState) (k : SlotKey) (slot' : ServiceSlot) : Prop :=
  ∃ slot, slots st !! k = Some slot ∧ ss_occurrence slot' = ss_occurrence slot ∧
          ss_fiber slot' = ss_fiber slot ∧ ss_contract slot' = ss_contract slot.

(** Every slot is an old one, or a fresh occurrence owned by [x]. *)
Definition slots_ext (x next : Addr) (st st' : ServiceState) : Prop :=
  ∀ k slot', slots st' !! k = Some slot' → old_slot st k slot' ∨ ss_occurrence slot' = next ∧ ss_fiber slot' = x.

Lemma slots_ext_refl x next st : slots_ext x next st st.
Proof. intros k slot Hk. left. by exists slot. Qed.

Lemma entry_ok_ext x y next next' st st' c :
  next ≤ next' → slots_ext y next st st' → entry_ok x next st c → entry_ok x next' st' c.
Proof.
  intros Hle Hext. unfold entry_ok. destruct (cl_run c) as [| |key name o| |]; try done.
  intros [Ho He]. split; [lia|]. intros slot' Hk Hocc.
  destruct (Hext _ _ Hk) as [(slot & Hs & H1 & H2 & _)|[H1 _]]; [|lia].
  rewrite H2. apply He; congruence.
Qed.

Lemma bound_ok_ext x y next next' st st' key svc o :
  next ≤ next' → slots_ext y next st st' → bound_ok x next st key svc o → bound_ok x next' st' key svc o.
Proof.
  intros Hle Hext [Ho He]. split; [lia|]. intros slot' Hk Hocc.
  destruct (Hext _ _ Hk) as [(slot & Hs & H1 & H2 & H3)|[H1 _]]; [|lia].
  rewrite H2, H3. apply He; congruence.
Qed.

Lemma section_ok_ext x y next next' st st' sc :
  next ≤ next' → slots_ext y next st st' → section_ok x next st sc → section_ok x next' st' sc.
Proof.
  intros Hle Hext. unfold section_ok. destruct sc as [[[] []]|]; try done.
  intros (? & ? & ?). split; [done|]. split; [done|]. by eapply bound_ok_ext.
Qed.

Lemma gone_ext x next st st' key name o :
  o < next → slots_ext x next st st' → gone st key name o → gone st' key name o.
Proof.
  intros Ho Hext Hg slot Hs. destruct (Hext _ _ Hs) as [(s & Hs' & -> & _)|[-> _]]; [by apply Hg|lia].
Qed.

Lemma position_ok_like main d f f' run sc : like f f' → position_ok main d f run sc → position_ok main d f' run sc.
Proof.
  intros Hl. pose proof (like_installed _ _ Hl) as Hi. destruct Hl as [_ Hj Hs Ha Hp _ _].
  assert (∀ k, kont_ok k f → kont_ok k f') as Hk.
  { intros k. unfold kont_ok. destruct k; rewrite ?Hp, ?Hi, ?Ha; done. }
  assert (quiet f run sc → quiet f' run sc) as Hq by (unfold quiet; by rewrite Hj).
  assert (∀ rest, drained_to rest f → drained_to rest f') as Hd by (intros rest Hr t Ht; apply Hr; unfold dl_tokens; by rewrite <- Hj).
  unfold position_ok. destruct d as [[]|]; rewrite ?Hs, ?Hp, ?Ha; naive_solver.
Qed.

Lemma covered_like f f' run sc key name o : like f f' → covered f run sc key name o → covered f' run sc key name o.
Proof. intros Hl. unfold covered. by rewrite (lk_journal _ _ Hl). Qed.

(** The invariant of a Fiber another one's step leaves alone. *)
Lemma fiber_inv_frame main served resident next next' st st' d run sc x y f f' :
  fiber_inv main served resident next st d run sc x f →
  like f f' → next ≤ next' → slots_ext y next st st' →
  (∀ k slot', slots st' !! k = Some slot' → ss_fiber slot' = x → old_slot st k slot') →
  fiber_inv main served resident next' st' d run sc x f'.
Proof.
  intros Hi Hl Hle Hext Hold. pose proof (like_installed _ _ Hl) as Hins. split.
  - rewrite (lk_journal _ _ Hl). apply Hi.
  - eapply position_ok_like; [done|apply Hi].
  - rewrite (lk_state _ _ Hl). apply Hi.
  - intros key name slot' Hs Hx. destruct (Hold _ _ Hs Hx) as (slot & Hs' & -> & He & _).
    eapply covered_like; [done|]. apply (fi_covered _ _ _ _ _ _ _ _ _ _ Hi _ _ _ Hs'). congruence.
  - rewrite (lk_journal _ _ Hl). intros t c Ht. eapply entry_ok_ext; [done..|]. by eapply (fi_entries _ _ _ _ _ _ _ _ _ _ Hi).
  - intros c Hc. eapply entry_ok_ext; [done..|]. by eapply (fi_run_entry _ _ _ _ _ _ _ _ _ _ Hi).
  - eapply section_ok_ext; [done..|]. apply Hi.
  - rewrite (lk_state _ _ Hl), (lk_alive _ _ Hl). apply Hi.
  - rewrite Hins, (lk_alive _ _ Hl). apply Hi.
  - rewrite (lk_state _ _ Hl), (lk_complete _ _ Hl). apply Hi.
  - rewrite Hins. apply Hi.
  - rewrite (lk_state _ _ Hl), Hins. apply Hi.
  - rewrite (lk_state _ _ Hl), (lk_alive _ _ Hl). apply Hi.
Qed.

(** Journals only grow at fresh tokens. *)
Definition journal_ext (f f' : Fiber) : Prop :=
  (dl_sn (f_journal f) <= dl_sn (f_journal f'))%Z ∧
  ∀ t c, bt_lookup (dl_map (f_journal f')) t = Some c →
    bt_lookup (dl_map (f_journal f)) t = Some c ∨ (dl_sn (f_journal f) < t)%Z.

Lemma journal_ext_same f f' : f_journal f' = f_journal f → journal_ext f f'.
Proof. intros Hj. unfold journal_ext. rewrite Hj. split; [lia|]. by left. Qed.

Lemma like_journal_ext f f' : like f f' → journal_ext f f'.
Proof. intros Hl. apply journal_ext_same, Hl. Qed.

Definition heap_ext (h h' : gmap Addr Fiber) : Prop :=
  ∀ y f', h' !! y = Some f' → ∃ f, h !! y = Some f ∧ journal_ext f f'.

Lemma effect_ok_ext h h' next next' e :
  heap_ext h h' → next ≤ next' → effect_ok h next e → effect_ok h' next' e.
Proof.
  intros Hh Hle [Hown He]. split; [lia|]. intros f' Hf'. destruct (Hh _ _ Hf') as (f & Hf & Hsn & Hl). destruct (He f Hf) as [Ht Hc].
  split; [lia|]. intros c [Hlk|Hlt]%Hl; [by apply Hc|lia].
Qed.

Lemma pub_ok_ext x h h' next next' st st' p :
  heap_ext h h' → next ≤ next' → slots_ext x next st st' → pub_ok h next st p → pub_ok h' next' st' p.
Proof.
  intros Hh Hle Hext (Hown & Hb & Hc). split; [lia|]. split; [by eapply bound_ok_ext|].
  intros f' Hf'. destruct (Hh _ _ Hf') as (f & Hf & Hsn & Hl). destruct (Hc f Hf) as [Ht Hcl].
    split; [lia|]. intros c [Hlk|Hlt]%Hl; [by apply Hcl|lia].
Qed.

(** The well-formedness of the graph of a world. *)
Record graph_ok (w : World) : Prop := {
  gk_graph : graph_wf (wd_served w) (graph_of w);
  gk_rows : rows_below (root_next (wd_root w)) (ix_reverse (gr_deps (graph_of w)));
  gk_registry : registry_wf (world_fibers w) (gr_registry (graph_of w)) ∧ groups_used (gr_registry (graph_of w));
}.

(** A step that works on the Fiber [x]: it may install a fresh occurrence for [x] or
    clear slots, and leaves the other Fibers' positions alone. *)
Record local_change (x : Addr) (w w' : World) : Prop := {
  lc_main : wd_main w' = wd_main w;
  lc_next : root_next (wd_root w) ≤ root_next (wd_root w');
  lc_slots : slots_ext x (root_next (wd_root w)) (services_of w) (services_of w');
  lc_others : ∀ y, y ≠ x → option_Forall2 like (world_fibers w !! y) (world_fibers w' !! y);
  lc_self : ∀ f', world_fibers w' !! x = Some f' → ∃ f, world_fibers w !! x = Some f ∧ journal_ext f f';
  lc_present : is_Some (world_fibers w' !! x);
  lc_drivers : ∀ y, y ≠ x → wd_drivers w' !! y = wd_drivers w !! y;
  lc_running : ∀ y, y ≠ x → wd_running w' !! y = wd_running w !! y;
  lc_sections : ∀ y, y ≠ x → wd_sections w' !! y = wd_sections w !! y;
  lc_served : ∀ y, y ≠ x → (y ∈ wd_served w' ↔ y ∈ wd_served w);
  lc_resident : ∀ y, y ≠ x → is_resident w' y = is_resident w y;
}.

(** The issued capabilities of a world. *)
Record caps_ok (w : World) : Prop := {
  ck_effects : ∀ e, e ∈ wd_effects w → effect_ok (world_fibers w) (root_next (wd_root w)) e;
  ck_pubs : ∀ p, p ∈ wd_pubs w ++ wd_removed w → pub_ok (world_fibers w) (root_next (wd_root w)) (services_of w) p;
  ck_removed : ∀ p, p ∈ wd_removed w → gone (services_of w) (sp_key p) (sv_name (sp_service p)) (sp_occurrence p);
}.

Section local.
Context (x : Addr) (w w' : World) (Hok : world_ok w) (Hlc : local_change x w w').

Lemma local_heap_ext : heap_ext (world_fibers w) (world_fibers w').
Proof.
  intros y f' Hy. destruct (decide (y = x)) as [->|Hne]; [by apply (lc_self _ _ _ Hlc)|].
  pose proof (lc_others _ _ _ Hlc y Hne) as Ho. rewrite Hy in Ho. inversion Ho as [f ? Hl Hf|]; subst.
  exists f. split; [done|]. by apply like_journal_ext.
Qed.

Lemma local_present y : is_Some (world_fibers w !! y) → is_Some (world_fibers w' !! y).
Proof.
  intros [f Hf]. destruct (decide (y = x)) as [->|Hne]; [apply Hlc|].
  pose proof (lc_others _ _ _ Hlc y Hne) as Ho. rewrite Hf in Ho. inversion Ho; by eexists.
Qed.

(** Capabilities already issued stay in order. *)
Lemma local_caps_old :
  (∀ e, e ∈ wd_effects w → effect_ok (world_fibers w') (root_next (wd_root w')) e) ∧
  (∀ p, p ∈ wd_pubs w ++ wd_removed w → pub_ok (world_fibers w') (root_next (wd_root w')) (services_of w') p) ∧
  (∀ p, p ∈ wd_removed w → gone (services_of w') (sp_key p) (sv_name (sp_service p)) (sp_occurrence p)).
Proof.
  pose proof local_heap_ext as Hext. split_and!.
  - intros e He. eapply effect_ok_ext; [done|apply Hlc|]. by apply (wo_effects _ Hok).
  - intros p Hp. eapply pub_ok_ext; [done|apply Hlc..|]. by apply (wo_pubs _ Hok).
  - intros p Hp. eapply gone_ext; [|apply Hlc|by apply (wo_removed _ Hok)].
    apply (wo_pubs _ Hok). apply elem_of_app. by right.
Qed.

Lemma local_caps :
  wd_effects w' = wd_effects w → wd_pubs w' = wd_pubs w → wd_removed w' = wd_removed w → caps_ok w'.
Proof. intros He Hp Hr. destruct local_caps_old as (? & ? & ?). split; rewrite ?He, ?Hp, ?Hr; done. Qed.

Lemma local_other y f' : y ≠ x → world_fibers w' !! y = Some f' → fiber_ok w' y f'.
Proof.
  intros Hne Hy. pose proof (lc_others _ _ _ Hlc y Hne) as Ho. rewrite Hy in Ho.
  inversion Ho as [f ? Hl Hf|]; subst. symmetry in Hf. pose proof (wo_fibers _ Hok y f Hf) as Hi.
  unfold fiber_ok in *. rewrite (lc_main _ _ _ Hlc), (lc_drivers _ _ _ Hlc y Hne), (lc_running _ _ _ Hlc y Hne),
    (lc_sections _ _ _ Hlc y Hne), (lc_resident _ _ _ Hlc y Hne).
  rewrite (bool_decide_ext (y ∈ wd_served w') (y ∈ wd_served w)) by (by apply (lc_served _ _ _ Hlc)).
  eapply fiber_inv_frame; [done|done|apply Hlc|apply Hlc|].
  intros k slot' Hs Hx. destruct (lc_slots _ _ _ Hlc _ _ Hs) as [?|[_ ?]]; [done|congruence].
Qed.

Lemma local_ok :
  slots_wf (root_next (wd_root w')) (services_of w') → graph_ok w' → caps_ok w' →
  (∀ f', world_fibers w' !! x = Some f' → fiber_ok w' x f') → world_ok w'.
Proof.
  intros Hsw [Hg Hrows Hreg] [He Hp Hr] Hx.
  assert (∀ y, is_Some (world_fibers w' !! y) → is_Some (world_fibers w !! y)) as Hback.
  { intros y [f' Hf']. destruct (local_heap_ext _ _ Hf') as (f & Hf & _). by eexists. }
  assert (∀ y, y = x → is_Some (world_fibers w' !! y)) as Hself by (intros y ->; apply Hlc).
  split; try done.
  - intros k slot Hs. destruct (lc_slots _ _ _ Hlc _ _ Hs) as [(s & Hs' & _ & -> & _)|[_ ->]]; [|by apply Hself].
    by eapply local_present, wo_owners.
  - intros y Hy%Hback%(wo_heap _ Hok). pose proof (lc_next _ _ _ Hlc). lia.
  - intros y Hy. destruct (decide (y = x)) as [?|Hne]; [by apply Hself|].
    apply (lc_served _ _ _ Hlc) in Hy; [|done]. by apply local_present, (wo_served _ Hok).
  - rewrite (lc_main _ _ _ Hlc). apply local_present, (wo_main _ Hok).
  - intros y Hy. destruct (decide (y = x)) as [?|Hne]; [by apply Hself|].
    rewrite (lc_drivers _ _ _ Hlc) in Hy by done. by apply local_present, (wo_drivers _ Hok).
  - intros y Hy. destruct (decide (y = x)) as [?|Hne]; [by apply Hself|].
    rewrite (lc_running _ _ _ Hlc) in Hy by done. by apply local_present, (wo_running _ Hok).
  - intros y Hy. destruct (decide (y = x)) as [?|Hne]; [by apply Hself|].
    rewrite (lc_sections _ _ _ Hlc) in Hy by done. by apply local_present, (wo_sections _ Hok).
  - intros y f Hy. destruct (decide (y = x)) as [->|Hne]; [by apply Hx|by apply local_other].
Qed.
End local.

(** * Steps that change one Fiber only *)

Record solo (x : Addr) (f f' : Fiber) (w w' : World) : Prop := {
  sl_before : world_fibers w !! x = Some f;
  sl_after : world_fibers w' !! x = Some f';
  sl_static : static f f';
  sl_journal : journal_ext f f';
  sl_others : ∀ y, y ≠ x → option_Forall2 like (world_fibers w !! y) (world_fibers w' !! y);
  sl_main : wd_main w' = wd_main w;
  sl_next : root_next (wd_root w') = root_next (wd_root w);
  sl_services : services_of w' = services_of w;
  sl_registry : gr_registry (graph_of w') = gr_registry (graph_of w);
  sl_rows : rows_subset (graph_of w) (graph_of w');
  sl_graph : graph_wf (wd_served w') (graph_of w');
  sl_served : wd_served w' = wd_served w;
  sl_drivers : ∀ y, y ≠ x → wd_drivers w' !! y = wd_drivers w !! y;
  sl_running : ∀ y, y ≠ x → wd_running w' !! y = wd_running w !! y;
  sl_sections : ∀ y, y ≠ x → wd_sections w' !! y = wd_sections w !! y;
  sl_effects : wd_effects w' = wd_effects w;
  sl_pubs : wd_pubs w' = wd_pubs w;
  sl_removed : wd_removed w' = wd_removed w;
}.

Lemma solo_static x f f' w w' y : solo x f f' w w' → option_Forall2 static (world_fibers w !! y) (world_fibers w' !! y).
Proof.
  intros Hs. destruct (decide (y = x)) as [->|Hne].
  - rewrite (sl_before _ _ _ _ _ Hs), (sl_after _ _ _ _ _ Hs). constructor. apply Hs.
  - destruct (sl_others _ _ _ _ _ Hs y Hne); constructor. by apply lk_static.
Qed.

Lemma registry_ok_static h h' reg :
  (∀ y, option_Forall2 static (h !! y) (h' !! y)) →
  registry_wf h reg ∧ groups_used reg → registry_wf h' reg ∧ groups_used reg.
Proof.
  intros Hst [Hwf Hu]. split; [|done]. apply (registry_wf_ext h h' reg); [|done].
  intros y. unfold claim_of. by destruct (Hst y) as [f f' (_ & _ & Hr)|].
Qed.

Lemma solo_local x f f' w w' : solo x f f' w w' → local_change x w w'.
Proof.
  intros Hs. split; try apply Hs.
  - rewrite (sl_next _ _ _ _ _ Hs). lia.
  - rewrite (sl_services _ _ _ _ _ Hs). apply slots_ext_refl.
  - intros f1 Hf1. rewrite (sl_after _ _ _ _ _ Hs) in Hf1. simplify_eq. exists f. by split; apply Hs.
  - rewrite (sl_after _ _ _ _ _ Hs). by eexists.
  - intros y Hne. by rewrite (sl_served _ _ _ _ _ Hs).
  - intros y _. unfold is_resident. by rewrite (sl_registry _ _ _ _ _ Hs).
Qed.

Lemma solo_ok x f f' w w' : world_ok w → solo x f f' w w' → fiber_ok w' x f' → world_ok w'.
Proof.
  intros Hok Hs Hx. pose proof (solo_local _ _ _ _ _ Hs) as Hlc.
  eapply local_ok; [done|done|..].
  - rewrite (sl_next _ _ _ _ _ Hs), (sl_services _ _ _ _ _ Hs). apply Hok.
  - split; [apply Hs| |].
    + intros key d Hd%(sl_rows _ _ _ _ _ Hs). rewrite (sl_next _ _ _ _ _ Hs). by apply (wo_rows _ Hok) in Hd.
    + rewrite (sl_registry _ _ _ _ _ Hs). eapply registry_ok_static; [by intros y; eapply solo_static|]. apply Hok.
  - by eapply local_caps; [|done|apply Hs..].
  - intros f1 Hf1. rewrite (sl_after _ _ _ _ _ Hs) in Hf1. by simplify_eq.
Qed.

(** A change of [x] in place. *)
Lemma solo_on x f g w w' :
  world_ok w → world_fibers w !! x = Some f → static f (g f) → journal_ext f (g f) →
  wd_root w' = update_fiber x g (wd_root w) → wd_main w' = wd_main w → wd_served w' = wd_served w →
  (∀ y, y ≠ x → wd_drivers w' !! y = wd_drivers w !! y) →
  (∀ y, y ≠ x → wd_running w' !! y = wd_running w !! y) →
  (∀ y, y ≠ x → wd_sections w' !! y = wd_sections w !! y) →
  wd_effects w' = wd_effects w → wd_pubs w' = wd_pubs w → wd_removed w' = wd_removed w →
  solo x f (g f) w w'.
Proof.
  intros Hok Hf Hst Hj Hr Hm Hsv Hd Hrun Hsec He Hp Hrem.
  assert (world_fibers w' = alter g x (world_fibers w)) as Hh by (unfold world_fibers; by rewrite Hr).
  split; try done.
  - by rewrite Hh, lookup_alter_eq, Hf.
  - intros y Hne. rewrite Hh, lookup_alter_ne by done. destruct (world_fibers w !! y); constructor. apply like_refl.
  - by rewrite Hr.
  - unfold services_of. by rewrite Hr.
  - unfold graph_of. by rewrite Hr.
  - unfold graph_of. rewrite Hr. by intros key row.
  - rewrite Hsv. unfold graph_of. rewrite Hr. cbn. rewrite (alter_insert_some _ _ _ _ Hf).
    apply graph_wf_update with (f := f); [apply Hok|done|apply Hst..].
Qed.

(** A lifecycle transition of [x]. *)
Lemma solo_move x next f w w0 w' :
  world_ok w → world_fibers w !! x = Some f → move x next w = Some w0 →
  wd_root w' = wd_root w0 → wd_main w' = wd_main w → wd_served w' = wd_served w →
  (∀ y, y ≠ x → wd_drivers w' !! y = wd_drivers w !! y) →
  (∀ y, y ≠ x → wd_running w' !! y = wd_running w !! y) →
  (∀ y, y ≠ x → wd_sections w' !! y = wd_sections w !! y) →
  wd_effects w' = wd_effects w → wd_pubs w' = wd_pubs w → wd_removed w' = wd_removed w →
  ∃ f', solo x f f' w w' ∧ transitioned next f f'.
Proof.
  intros Hok Hf Hmv Hr Hm Hsv Hd Hrun Hsec He Hp Hrem. unfold move in Hmv.
  destruct (transition x next (wd_root w)) as [r|] eqn:Ht; [|done]. cbn in Hmv. injection Hmv as <-. cbn in Hr.
  destruct (transition_stores_eq _ _ _ _ _ Hf Ht) as (Hn & _ & [[Heq ->]|[Hne Hts]]).
  - exists f. split; [|split; [done|by destruct f]]. split; try done; unfold world_fibers, services_of, graph_of; rewrite ?Hr; try done.
    + by apply journal_ext_same.
    + intros y _. destruct (root_heap (wd_root w) !! y); constructor. apply like_refl.
    + by intros key row.
    + rewrite Hsv. apply Hok.
  - destruct (transition_stores_effect _ _ _ _ _ _ (wo_graph _ Hok) Hf Hts) as [Hsv' Hreg Hg Hrows (f0 & f' & Hf0 & Hf' & Htr) Ho _].
    assert (f0 = f) as ->. { change (world_fibers w !! x = Some f0) in Hf0. congruence. }
    exists f'. split; [|done]. destruct Htr as [Hst Heq].
    split; try done; unfold world_fibers, services_of, graph_of, root_heap; rewrite ?Hr; try done.
    + rewrite Heq. by split.
    + apply journal_ext_same. by rewrite Heq.
    + intros y Hy. specialize (Ho y Hy).
      change (option_Forall2 like (fibers (root_stores (wd_root w)) !! y) (fibers (root_stores r) !! y)).
      destruct Ho; constructor. by apply agree_like.
    + by rewrite Hsv.
Qed.

(** The parameters of the invariant of [x] in [w], but for the position, the running
    cleanup and the registration. *)
Definition fiber_at (w : World) (x : Addr) (d : option Driver) (run : option Cleanup) (sc : option Section_) (f : Fiber) : Prop :=
  fiber_inv (bool_decide (x = wd_main w)) (bool_decide (x ∈ wd_served w)) (is_resident w x)
    (root_next (wd_root w)) (services_of w) d run sc x f.

Lemma solo_fiber_ok x f f' w w' :
  solo x f f' w w' →
  fiber_at w x (wd_drivers w' !! x) (wd_running w' !! x) (wd_sections w' !! x) f' → fiber_ok w' x f'.
Proof.
  intros Hs. unfold fiber_at, fiber_ok, is_resident.
  by rewrite (sl_main _ _ _ _ _ Hs), (sl_served _ _ _ _ _ Hs), (sl_next _ _ _ _ _ Hs),
    (sl_services _ _ _ _ _ Hs), (sl_registry _ _ _ _ _ Hs).
Qed.

(** A change the invariant does not see. *)
Lemma on_like_ok x f g w :
  world_ok w → world_fibers w !! x = Some f → like f (g f) → world_ok (on x g w).
Proof.
  intros Hok Hf Hl.
  assert (solo x f (g f) w (on x g w)) as Hs.
  { eapply solo_on; try done; [apply Hl|by apply like_journal_ext]. }
  eapply solo_ok; [done..|]. eapply solo_fiber_ok; [done|].
  eapply fiber_inv_frame; [by apply (wo_fibers _ Hok)|done|lia|apply (slots_ext_refl x)|].
  intros k slot Hk _. by exists slot.
Qed.

Lemma on_lookup x g w f : world_fibers w !! x = Some f → world_fibers (on x g w) !! x = Some (g f).
Proof. intros Hf. unfold world_fibers, on. cbn. unfold root_heap. cbn. rewrite lookup_alter_eq. by unfold world_fibers, root_heap in Hf; rewrite Hf. Qed.

(** The driver of [x] moves on. *)
Definition only_driver (x : Addr) (m m' : gmap Addr Driver) : Prop := ∀ y, y ≠ x → m' !! y = m !! y.

Lemma only_driver_insert x d m : only_driver x m (<[ x := d ]> m).
Proof. intros y Hne. by rewrite lookup_insert_ne. Qed.
Lemma only_driver_delete x m : only_driver x m (delete x m).
Proof. intros y Hne. by rewrite lookup_delete_ne. Qed.

Lemma driver_ok x f m w :
  world_ok w → world_fibers w !! x = Some f → only_driver x (wd_drivers w) m →
  fiber_at w x (m !! x) (wd_running w !! x) (wd_sections w !! x) f → world_ok (put_drivers m w).
Proof.
  intros Hok Hf Hm Hx.
  assert (solo x f f w (put_drivers m w)) as Hs.
  { split; try done; [by apply journal_ext_same| |by intros key row|apply Hok].
    intros y _. destruct (world_fibers _ !! y); constructor. apply like_refl. }
  eapply solo_ok; [done..|]. by eapply solo_fiber_ok.
Qed.

(** A transition, after which the driver moves on. *)
Lemma move_ok x f next m w w0 :
  world_ok w → world_fibers w !! x = Some f → move x next w = Some w0 → only_driver x (wd_drivers w) m →
  (∀ f', transitioned next f f' → fiber_at w x (m !! x) (wd_running w !! x) (wd_sections w !! x) f') →
  world_ok (put_drivers m w0).
Proof.
  intros Hok Hf Hmv Hm Hx. pose proof Hmv as Hmv'. unfold move in Hmv'.
  destruct (transition x next (wd_root w)) as [r|] eqn:Ht; [|done]. injection Hmv' as <-.
  destruct (solo_move x next f w (put_root r w) (put_drivers m (put_root r w)) Hok Hf Hmv) as (f' & Hs & Htr); try done.
  eapply solo_ok; [done..|]. eapply solo_fiber_ok; [done|]. by apply Hx.
Qed.

(** * Moving one Fiber *)

Lemma transitioned_fields next f f' :
  transitioned next f f' →
  fiber_state f' = next ∧ f_journal f' = f_journal f ∧ f_alive f' = f_alive f ∧ f_applied f' = f_applied f ∧
  f_installed f' = f_installed f ∧ f_dispose_complete f' = f_dispose_complete f.
Proof. intros [Hs Heq]. split_and!; [done|..]; by rewrite Heq. Qed.

(** Re-establishing the invariant at a new position. *)
Lemma fiber_at_change w x d d' run run' sc f f' :
  fiber_at w x (Some d) run sc f → journal_wf (f_journal f') →
  (∀ key name o, covered f run sc key name o → covered f' run' sc key name o) →
  (∀ t c, bt_lookup (dl_map (f_journal f')) t = Some c → bt_lookup (dl_map (f_journal f)) t = Some c) →
  (∀ c, run' = Some c → run = Some c ∨ ∃ t, bt_lookup (dl_map (f_journal f)) t = Some c) →
  position_ok false d' f' run' sc →
  (is_Some run' → fiber_state f' = Unloading) →
  (fiber_state f' = Disposed → f_alive f' = false) →
  f_installed f' = f_installed f →
  (f_alive f' = f_alive f ∨ ∃ o, d' = Some (DUnregister o)) → (∀ o, d ≠ DUnregister o) →
  ((∀ m o, d ≠ DSettle m o) ∨ f_alive f = true ∨ d' = None ∧ f' = f) →
  (∀ d1, d' = Some d1 → settling d1 → settling d ∨ f_installed f = true) →
  (fiber_state f' = Active → settling d ∨ fiber_state f = Active) →
  fiber_at w x d' run' sc f'.
Proof.
  intros Hi Hwf Hcov Hent Hrc Hpos Hrun Hdead Hins Hal Hnu Hres Hset Hact.
  assert (bool_decide (x = wd_main w) = false) as Hmain.
  { destruct (bool_decide (x = wd_main w)) eqn:E; [|done]. by destruct (fi_main _ _ _ _ _ _ _ _ _ _ Hi E) as (_ & _ & ?). }
  unfold fiber_at in *. rewrite Hmain in *. split; try done.
  - intros key name slot Hs Hx. by apply Hcov, (fi_covered _ _ _ _ _ _ _ _ _ _ Hi).
  - intros t c Hc%Hent. by apply (fi_entries _ _ _ _ _ _ _ _ _ _ Hi t).
  - intros c [Hr|[t Ht]]%Hrc; [by apply (fi_run_entry _ _ _ _ _ _ _ _ _ _ Hi)|by apply (fi_entries _ _ _ _ _ _ _ _ _ _ Hi t)].
  - apply Hi.
  - intros Hs. destruct (fi_served _ _ _ _ _ _ _ _ _ _ Hi Hs) as [Hin [Ha|[o Hu]]]; [|by destruct (Hnu o); congruence].
    rewrite Hins. split; [done|]. destruct Hal as [->|[o ->]]; [by left|right; by exists o].
  - intros Hr. destruct (fi_resident _ _ _ _ _ _ _ _ _ _ Hi Hr) as [?|(Hst & Hc & Hd)]; [done|]. right.
    destruct Hd as [?|(m & o & [= ->])]; [done|].
    destruct Hres as [Hne|[Ha|[-> ->]]]; [by destruct (Hne m o)| |by split_and!; [..|left]].
    rewrite (fi_dead _ _ _ _ _ _ _ _ _ _ Hi Hst) in Ha. done.
  - intros d1 Hd1 Hs1. rewrite Hins. destruct (Hset d1 Hd1 Hs1) as [Hsd|?]; [|done].
    by apply (fi_installed _ _ _ _ _ _ _ _ _ _ Hi d).
  - intros Ha. rewrite Hins. destruct (Hact Ha) as [Hsd|Hst]; [right|by apply (fi_active _ _ _ _ _ _ _ _ _ _ Hi)].
    by apply (fi_installed _ _ _ _ _ _ _ _ _ _ Hi d).
Qed.

(** The same, with the same journal. *)
Lemma fiber_at_move w x d d' run sc f f' :
  fiber_at w x (Some d) run sc f → f_journal f' = f_journal f →
  position_ok false d' f' run sc →
  (is_Some run → fiber_state f' = Unloading) →
  (fiber_state f' = Disposed → f_alive f' = false) →
  f_installed f' = f_installed f →
  (f_alive f' = f_alive f ∨ ∃ o, d' = Some (DUnregister o)) → (∀ o, d ≠ DUnregister o) →
  ((∀ m o, d ≠ DSettle m o) ∨ f_alive f = true ∨ d' = None ∧ f' = f) →
  (∀ d1, d' = Some d1 → settling d1 → settling d ∨ f_installed f = true) →
  (fiber_state f' = Active → settling d ∨ fiber_state f = Active) →
  fiber_at w x d' run sc f'.
Proof.
  intros Hi Hj. eapply fiber_at_change; [done|rewrite Hj; apply Hi|..|by left]; by (unfold covered; rewrite Hj).
Qed.

(** The positions of passes over a Fiber that is not the root one. *)
Lemma driven_at w x d f :
  world_ok w → world_fibers w !! x = Some f → wd_drivers w !! x = Some d →
  fiber_at w x (Some d) (wd_running w !! x) (wd_sections w !! x) f ∧
  position_ok false (Some d) f (wd_running w !! x) (wd_sections w !! x).
Proof.
  intros Hok Hf Hd. pose proof (wo_fibers _ Hok _ _ Hf) as Hi. unfold fiber_ok in Hi. rewrite Hd in Hi.
  split; [done|]. pose proof (fi_position _ _ _ _ _ _ _ _ _ _ Hi) as Hp.
  destruct (bool_decide (x = wd_main w)) eqn:E; [|done]. by destruct (fi_main _ _ _ _ _ _ _ _ _ _ Hi eq_refl) as (_ & _ & ?).
Qed.

Lemma goto_ok x f d d' w :
  world_ok w → world_fibers w !! x = Some f → wd_drivers w !! x = Some d →
  (fiber_at w x (Some d) (wd_running w !! x) (wd_sections w !! x) f →
   fiber_at w x (Some d') (wd_running w !! x) (wd_sections w !! x) f) →
  world_ok (goto x d' w).
Proof.
  intros Hok Hf Hd Hx. eapply driver_ok; [done..|apply only_driver_insert|]. rewrite lookup_insert_eq.
  apply Hx. by apply driven_at.
Qed.

Lemma stop_ok x f d w :
  world_ok w → world_fibers w !! x = Some f → wd_drivers w !! x = Some d →
  (fiber_at w x (Some d) (wd_running w !! x) (wd_sections w !! x) f →
   fiber_at w x None (wd_running w !! x) (wd_sections w !! x) f) →
  world_ok (stop x w).
Proof.
  intros Hok Hf Hd Hx. eapply driver_ok; [done..|apply only_driver_delete|]. rewrite lookup_delete_eq.
  apply Hx. by apply driven_at.
Qed.

(** The transition of [x] at a position, to the next position. *)
Lemma move_driver_ok x f next d m w w0 :
  world_ok w → world_fibers w !! x = Some f → wd_drivers w !! x = Some d → move x next w = Some w0 →
  only_driver x (wd_drivers w) m →
  (∀ f', transitioned next f f' →
     fiber_at w x (Some d) (wd_running w !! x) (wd_sections w !! x) f →
     fiber_at w x (m !! x) (wd_running w !! x) (wd_sections w !! x) f') →
  world_ok (put_drivers m w0).
Proof.
  intros Hok Hf Hd Hmv Hm Hx. eapply move_ok; [done..|]. intros f' Htr. apply Hx; [done|]. by apply driven_at.
Qed.

Lemma quiet_fields f f' run sc : f_journal f' = f_journal f → quiet f run sc → quiet f' run sc.
Proof. intros Hj. unfold quiet. by rewrite Hj. Qed.

Lemma store_error_like e f : like f (store_error e f).
Proof. by split. Qed.

(** The name of the pass after a transition made by [move]. *)
Lemma move_drivers x next w w0 : move x next w = Some w0 → wd_drivers w0 = wd_drivers w.
Proof. unfold move. destruct (transition _ _ _); [|done]. by intros [= <-]. Qed.

(** No cleanup runs at a position, as the context says. *)
Ltac no_run :=
  let Hr := fresh in let Hn := fresh in
  intros [? Hr]; exfalso;
  cbn [wd_running put_root put_drivers on goto stop] in Hr;
  match goal with
  | Hn : quiet _ _ _ |- _ => destruct Hn as (_ & Hn & _); cbn [wd_running put_root put_drivers on goto stop] in Hn; congruence
  | Hn : _ = None |- _ => cbn [wd_running put_root put_drivers on goto stop] in Hn; congruence
  end.

(** The side conditions of [fiber_at_move] other than the position. *)
Ltac at_side :=
  try solve
    [ done
    | intros []; congruence
    | intros; congruence
    | by left
    | left; intros; discriminate
    | right; by left
    | right; right; by split
    | intros ? [= <-] []
    | intros ? [= <-] ?; by left
    | intros ? [= <-] ?; by right
    | intros; left; exact I
    | intros; by right
    | cbn [f_journal store_error f_alive f_installed]; congruence
    | intros; exfalso; congruence
    | left; cbn [f_journal store_error f_alive f_installed]; congruence
    | no_run
    | by eauto ].

Ltac at_move H :=
  eapply (fiber_at_move _ _ _ _ _ _ _ _ H); at_side;
  try exact (fi_dead _ _ _ _ _ _ _ _ _ _ H);
  try exact (fi_running _ _ _ _ _ _ _ _ _ _ H).

(** Both halves of a step that ends in a transition: to a position, or to the end. *)
Lemma move_goto_ok x f next d d' w w0 :
  world_ok w → world_fibers w !! x = Some f → wd_drivers w !! x = Some d → move x next w = Some w0 →
  (∀ f', transitioned next f f' → fiber_at w x (Some d) (wd_running w !! x) (wd_sections w !! x) f →
     position_ok false (Some d) f (wd_running w !! x) (wd_sections w !! x) →
     fiber_at w x (Some d') (wd_running w !! x) (wd_sections w !! x) f') →
  world_ok (goto x d' w0).
Proof.
  intros Hok Hf Hd Hmv Hx. unfold goto. rewrite (move_drivers _ _ _ _ Hmv).
  eapply move_driver_ok; [done..|apply only_driver_insert|]. intros f' Htr _. rewrite lookup_insert_eq.
  destruct (driven_at _ _ _ _ Hok Hf Hd). by apply Hx.
Qed.

Lemma move_stop_ok x f next d w w0 :
  world_ok w → world_fibers w !! x = Some f → wd_drivers w !! x = Some d → move x next w = Some w0 →
  (∀ f', transitioned next f f' → fiber_at w x (Some d) (wd_running w !! x) (wd_sections w !! x) f →
     position_ok false (Some d) f (wd_running w !! x) (wd_sections w !! x) →
     fiber_at w x None (wd_running w !! x) (wd_sections w !! x) f') →
  world_ok (stop x w0).
Proof.
  intros Hok Hf Hd Hmv Hx. unfold stop. rewrite (move_drivers _ _ _ _ Hmv).
  eapply move_driver_ok; [done..|apply only_driver_delete|]. intros f' Htr _. rewrite lookup_delete_eq.
  destruct (driven_at _ _ _ _ Hok Hf Hd). by apply Hx.
Qed.

(** A change of [x] by its own pass, to the next position. *)
Lemma on_goto_ok x f g d d' w :
  world_ok w → world_fibers w !! x = Some f → wd_drivers w !! x = Some d →
  static f (g f) → journal_ext f (g f) →
  (fiber_at w x (Some d) (wd_running w !! x) (wd_sections w !! x) f →
   position_ok false (Some d) f (wd_running w !! x) (wd_sections w !! x) →
   fiber_at w x (Some d') (wd_running w !! x) (wd_sections w !! x) (g f)) →
  world_ok (goto x d' (on x g w)).
Proof.
  intros Hok Hf Hd Hst Hj Hx.
  assert (solo x f (g f) w (goto x d' (on x g w))) as Hs.
  { eapply solo_on; try done. intros y Hne. by apply only_driver_insert. }
  eapply solo_ok; [done..|]. eapply solo_fiber_ok; [done|]. cbn [wd_drivers goto put_drivers]. rewrite lookup_insert_eq.
  destruct (driven_at _ _ _ _ Hok Hf Hd). by apply Hx.
Qed.

(** The invariant with the fields of a transitioned Fiber rewritten to the old ones. *)
Ltac after_transition Htr f' :=
  let Hs := fresh "Hs'" in let Hj := fresh "Hj'" in let Ha := fresh "Ha'" in
  let Hp := fresh "Hp'" in let Hi := fresh "Hi'" in let Hc := fresh "Hc'" in
  destruct (transitioned_fields _ _ _ Htr) as (Hs & Hj & Ha & Hp & Hi & Hc); clear Htr.

Lemma settle_step_ok x f d ending w w' :
  world_ok w → world_fibers w !! x = Some f → wd_drivers w !! x = Some d →
  settle_step x f d ending w = Some w' → world_ok w'.
Proof.
  intros Hok Hf Hd. destruct (driven_at _ _ _ _ Hok Hf Hd) as [Hat Hpos].
  destruct d as [missing owns|missing owns|k|rest k|rest k|missing owns|owns|owns|owns outcome|failure|owns|owns|owns| |];
    cbn [settle_step]; try done.
  - (* DSettle *)
    destruct Hpos as (Hrun & Hst & Hq & Happ). destruct (f_alive f) eqn:Ha; cbn [negb].
    2: { intros [= <-]. eapply stop_ok; [done..|]. intros _. by at_move Hat. }
    assert (fiber_state f ≠ Disposed) as Hnd.
    { intros Hs. rewrite (fi_dead _ _ _ _ _ _ _ _ _ _ Hat Hs) in Ha. done. }
    destruct (fiber_state f) eqn:Hs; try done; intros [= <-]; (eapply goto_ok; [done..|]; intros _).
    + by destruct Hst as [?|[?|[?|?]]].
    + at_move Hat. cbn. rewrite Hs. destruct (Happ ltac:(by left)) as [?|?]; [done|]. split_and!; auto.
    + at_move Hat. cbn. rewrite Hs. split; [|by right]. apply Hq. by left.
    + by destruct Hst as [?|[?|[?|?]]].
    + at_move Hat. cbn. rewrite Hs. destruct (Happ ltac:(by right)) as [?|?]; [done|]. split_and!; auto.
      right. split; [done|]. apply Hq. right. by left.
  - (* DUnload *)
    destruct (move x Unloading w) as [w0|] eqn:Hmv; [|done]. intros [= <-].
    eapply move_goto_ok; [done..|]. intros f' Htr _ (Hrun & Hst & Happ). after_transition Htr f'.
    pose proof (fi_installed _ _ _ _ _ _ _ _ _ _ Hat _ eq_refl I) as Hin.
    at_move Hat; [|congruence..]. cbn. split_and!; congruence.
  - (* DDecide *)
    destruct Hpos as (Hq & Hst). pose proof (fi_installed _ _ _ _ _ _ _ _ _ _ Hat _ eq_refl I) as Hin.
    destruct missing.
    + pose proof (on_like_ok x f (store_error None) w Hok Hf (store_error_like None f)) as Hok1.
      destruct (move x Pending _) as [w0|] eqn:Hmv; [|done]. intros [= <-].
      eapply move_stop_ok; [done|by apply on_lookup|done|done|]. intros f' Htr Hat1 (Hq1 & _).
      after_transition Htr f'. at_move Hat1. cbn. rewrite Hs'.
      split_and!; [apply Hq|right; by left|intros _; by eapply quiet_fields|by intros []].
    + destruct (negb owns && f_creation_pending f && negb (f_applied f)) eqn:Hc.
      * intros [= <-]. apply andb_true_iff in Hc as [_ Hap%negb_true_iff]. eapply stop_ok; [done..|]. intros _.
        destruct Hst as [[_ ?]|Hst]; [congruence|]. at_move Hat. cbn. rewrite Hst.
        split_and!; [apply Hq|right; by left|done|by intros []].
      * destruct (apply_snapshot (f_spawn f)) as [?|?]; [|done]. intros [= <-].
        eapply goto_ok; [eapply on_like_ok; [done..|by split]|by apply on_lookup|done|]. intros Hat1.
        at_move Hat1. split; [done|tauto].
  - (* DLoading *)
    destruct Hpos as (Hq & Hst). destruct (move x Loading w) as [w0|] eqn:Hmv; [|done]. intros [= <-].
    eapply move_goto_ok; [done..|]. intros f' Htr _ _. after_transition Htr f'.
    at_move Hat. split; [apply Hq|done].
  - (* DApplying *)
    destruct Hpos as (Hrun & Hst). intros [= <-].
    eapply on_goto_ok; [done..|by apply journal_ext_same|].
    pose proof (fi_installed _ _ _ _ _ _ _ _ _ _ Hat _ eq_refl I) as Hin.
    intros _ _. at_move Hat.
  - (* DEnded *)
    destruct Hpos as (Hrun & Hst & Happ). pose proof (fi_installed _ _ _ _ _ _ _ _ _ _ Hat _ eq_refl I) as Hin.
    destruct outcome as [[[]|failure]|panic].
    + pose proof (on_like_ok x f (store_error None) w Hok Hf (store_error_like None f)) as Hok1.
      destruct (move x Active _) as [w0|] eqn:Hmv; [|done]. intros [= <-].
      eapply move_stop_ok; [done|by apply on_lookup|done|done|]. intros f' Htr Hat1 _.
      after_transition Htr f'. at_move Hat1. cbn. rewrite Hs'. unfold parked.
      split_and!; [done|by left|by intros [?|[?|?]]|right; by rewrite Hp'].
    + destruct (move x Unloading w) as [w0|] eqn:Hmv; [|done]. intros [= <-].
      eapply move_goto_ok; [done..|]. intros f' Htr _ _. after_transition Htr f'.
      at_move Hat. cbn. split_and!; congruence.
    + destruct (move x Unloading w) as [w0|] eqn:Hmv; [|done]. intros [= <-].
      eapply move_goto_ok; [done..|]. intros f' Htr _ _. after_transition Htr f'.
      at_move Hat. cbn. split_and!; congruence.
  - (* DFailed *)
    destruct Hpos as (Hq & Hst & Happ).
    pose proof (on_like_ok x f (store_error (Some failure)) w Hok Hf (store_error_like _ f)) as Hok1.
    destruct (move x Failed _) as [w0|] eqn:Hmv; [|done]. intros [= <-].
    eapply move_stop_ok; [done|by apply on_lookup|done|done|]. intros f' Htr Hat1 _.
    after_transition Htr f'. at_move Hat1. cbn. rewrite Hs'.
    split_and!; [apply Hq|right; right; by left|intros _; by eapply quiet_fields|right; by rewrite Hp'].
Qed.

(** * Claims *)

Lemma tokens_lookup l t : t ∈ dl_tokens l ↔ is_Some (bt_lookup (dl_map l) t).
Proof.
  pose proof (bt_lookup_None (dl_map l) t) as Hn. unfold dl_tokens. destruct (bt_lookup (dl_map l) t) eqn:E.
  - split; [by eexists|]. intros _. destruct (decide (t ∈ bt_keys (dl_map l))) as [?|?%Hn]; [done|]. congruence.
  - split; [|by intros []]. intros Ht. by apply Hn in Ht.
Qed.

Lemma remove_disposable_lookup f token t :
  journal_wf (f_journal f) →
  bt_lookup (dl_map (f_journal (remove_disposable f token).2)) t =
  if decide (token = t) then None else bt_lookup (dl_map (f_journal f)) t.
Proof. intros [_ Hs _]. by apply bt_lookup_remove. Qed.

Lemma remove_disposable_static f token : static f (remove_disposable f token).2.
Proof. by split. Qed.

Lemma remove_disposable_journal f token :
  journal_wf (f_journal f) → journal_ext f (remove_disposable f token).2.
Proof.
  intros Hwf. split; [done|]. intros t c. rewrite remove_disposable_lookup by done.
  case_decide; [done|]. by left.
Qed.

Lemma quiet_removed f token run sc : quiet f run sc → quiet (remove_disposable f token).2 run sc.
Proof. unfold quiet. cbn. by intros (-> & ? & ?). Qed.

Lemma drained_removed f token rest :
  journal_wf (f_journal f) → drained_to (rest ++ [token]) f → drained_to rest (remove_disposable f token).2.
Proof.
  intros Hwf Hd t. rewrite tokens_lookup, remove_disposable_lookup by done. case_decide as E; [by intros []|].
  rewrite <- tokens_lookup. intros [?|?%list_elem_of_singleton]%Hd%elem_of_app; [done|congruence].
Qed.

Lemma drained_nil f : drained_to [] f → dl_map (f_journal f) = [].
Proof.
  intros Hd. destruct (dl_map (f_journal f)) as [|[t c] m] eqn:E; [done|].
  destruct (not_elem_of_nil t). apply Hd. unfold dl_tokens. rewrite E. by left.
Qed.

Definition removed (token : Z) (f : Fiber) : Fiber := (remove_disposable f token).2.

Lemma claim_root x token f w :
  world_fibers w !! x = Some f →
  claim_cleanup x token (wd_root w) =
  (bt_lookup (dl_map (f_journal f)) token, update_fiber x (removed token) (wd_root w)).
Proof. intros Hf. unfold claim_cleanup. change (fibers (wd_root w)) with (world_fibers w). by rewrite Hf. Qed.

(** A drain claims its next token. *)
Lemma drain_claim_ok x f rest token k w d' run' m :
  world_ok w → world_fibers w !! x = Some f → wd_drivers w !! x = Some (DDrain (rest ++ [token]) k) →
  run' = bt_lookup (dl_map (f_journal f)) token → m !! x = run' → (∀ y, y ≠ x → m !! y = wd_running w !! y) →
  d' = match run' with Some _ => DRunning rest k | None => DDrain rest k end →
  world_ok (put_running m (goto x d' (on x (removed token) w))).
Proof.
  intros Hok Hf Hd Hrun' Hm Hro Hd'. destruct (driven_at _ _ _ _ Hok Hf Hd) as [Hat (Hst & Hk & Hrun & Hpc & Hdr)].
  pose proof (fi_journal _ _ _ _ _ _ _ _ _ _ Hat) as Hwf.
  set (w' := put_running _ _).
  assert (solo x f (removed token f) w w') as Hs.
  { eapply solo_on; try done; [by apply remove_disposable_journal|]. intros y Hne. by apply only_driver_insert. }
  eapply solo_ok; [done..|]. eapply solo_fiber_ok; [done|]. unfold w'. cbn [wd_drivers wd_running wd_sections put_running goto put_drivers].
  rewrite lookup_insert_eq, Hm. cbn [wd_sections on put_root].
  pose proof (drained_removed f token rest Hwf Hdr) as Hdr'. rewrite Hrun in Hat.
  eapply (fiber_at_change _ _ _ _ _ _ _ _ _ Hat); at_side; try exact (fi_dead _ _ _ _ _ _ _ _ _ _ Hat).
  - by apply dl_remove_wf.
  - intros key name o. unfold covered, removed. intros [(t & c & Ht & Hc)|[(c & ? & _)|Hsc]]; [|done|by right; right].
    destruct (decide (token = t)) as [->|Hne].
    + right. left. exists c. split; [congruence|done].
    + left. exists t, c. rewrite remove_disposable_lookup, decide_False by done. done.
  - intros t c. unfold removed. rewrite remove_disposable_lookup by done. case_decide; [done|]. done.
  - intros c Hc. right. exists token. congruence.
  - assert (kont_ok k (removed token f)) by (by destruct k). destruct run'; subst d'; by split_and!.
  - intros d1 [= <-]. subst d'. by destruct run'.
Qed.

Lemma drain_step_ok x f d w w' :
  world_ok w → world_fibers w !! x = Some f → wd_drivers w !! x = Some d →
  drain_step x f d w = Some w' → world_ok w'.
Proof.
  intros Hok Hf Hd. destruct (driven_at _ _ _ _ Hok Hf Hd) as [Hat Hpos].
  pose proof (fi_journal _ _ _ _ _ _ _ _ _ _ Hat) as Hwf.
  destruct d as [missing owns|missing owns|k|rest k|rest k|missing owns|owns|owns|owns outcome|failure|owns|owns|owns| |];
    cbn [drain_step]; try done.
  - (* DSnapshot *)
    destruct Hpos as (Hst & Hk). destruct (_ && _) eqn:Hg; [|done]. intros [= <-].
    apply andb_true_iff in Hg as [Hrun%bool_decide_eq_true_1 Hu%bool_decide_eq_true_1].
    eapply on_goto_ok; [done..|by apply journal_ext_same|]. intros _ _. at_move Hat.
    cbn. rewrite Hu. split_and!; [done..|by intros []|by intros t].
  - (* DDrain *)
    destruct Hpos as (Hst & Hk & Hrun & Hpc & Hdr). destruct (rev rest) as [|token rest'] eqn:Hrev.
    + intros [= <-]. assert (rest = []) as -> by (by destruct rest as [|? ?]; [|apply (f_equal length) in Hrev; rewrite length_rev in Hrev]).
      assert (quiet f (wd_running w !! x) (wd_sections w !! x)) as Hq by (split; [by apply drained_nil|done]).
      eapply on_goto_ok; [done..|by apply journal_ext_same|]. intros _ _. destruct k; cbn in *.
      * at_move Hat; [split; [done|left; naive_solver]|].
        intros; right; naive_solver.
      * at_move Hat; [naive_solver|]. intros; right; naive_solver.
      * at_move Hat.
    + destruct (unlocked x w); [|done]. rewrite (claim_root _ _ _ _ Hf).
      assert (rest = rev rest' ++ [token]) as -> by (rewrite <- (rev_involutive rest), Hrev; done).
      destruct (bt_lookup _ _) as [c|] eqn:Hlk; intros [= <-].
      * eapply (drain_claim_ok x f (rev rest') token k w _ (Some c)); [done..|by rewrite lookup_insert_eq| |done].
        intros y Hne. by rewrite lookup_insert_ne.
      * by eapply (drain_claim_ok x f (rev rest') token k w _ None (wd_running w)).
  - (* DRunning *)
    destruct Hpos as (Hst & Hk & Hpc & Hdr). case_bool_decide as Hrun; [|done]. intros [= <-].
    eapply goto_ok; [done..|]. intros _. at_move Hat.
Qed.

(** * Teardown *)

Lemma fiber_at_unserved main served resident next st run sc x f owns :
  fiber_inv main served resident next st (Some (DUnregister owns)) run sc x f →
  f_alive f = false → fiber_state f = Unloading →
  fiber_inv main false resident next st (Some (DSnapshot (KDispose owns))) run sc x f.
Proof.
  intros Hi Ha Hst. split; try apply Hi; try done.
  - intros Hr. destruct (fi_resident _ _ _ _ _ _ _ _ _ _ Hi Hr) as [?|(? & _)]; [by left|congruence].
  - intros d' [= <-] [].
  - intros Hm. by destruct (fi_main _ _ _ _ _ _ _ _ _ _ Hi Hm) as (_ & _ & ?).
Qed.

(** The step of [DUnregister]: the index no longer serves [x]. *)
Lemma unindex_ok x f owns d' w :
  world_ok w → world_fibers w !! x = Some f → wd_drivers w !! x = Some (DUnregister owns) →
  d' = DSnapshot (KDispose owns) → world_ok (goto x d' (unindex x f w)).
Proof.
  intros Hok Hf Hd ->. destruct (driven_at _ _ _ _ Hok Hf Hd) as [Hat (Hst & Ha)].
  set (w' := goto _ _ _).
  assert (world_fibers w' = world_fibers w) as Hh by (unfold w', unindex; by destruct (f_installed f)).
  assert (services_of w' = services_of w) as Hsv by (unfold w', unindex; by destruct (f_installed f)).
  assert (root_next (wd_root w') = root_next (wd_root w)) as Hn by (unfold w', unindex; by destruct (f_installed f)).
  assert (gr_registry (graph_of w') = gr_registry (graph_of w)) as Hreg by (unfold w', unindex; by destruct (f_installed f)).
  assert (wd_served w' = wd_served w ∖ {[ x ]}) as Hs.
  { unfold w', unindex. destruct (f_installed f) eqn:Hin; [done|]. cbn.
    destruct (decide (x ∈ wd_served w)) as [Hx|Hx]; [|set_solver].
    destruct (fi_served _ _ _ _ _ _ _ _ _ _ Hat) as [? _]; [by apply bool_decide_eq_true_2|congruence]. }
  assert (local_change x w w') as Hlc.
  { split; rewrite ?Hh, ?Hn, ?Hsv; try done.
    - unfold w', unindex. by destruct (f_installed f).
    - apply slots_ext_refl.
    - intros y _. destruct (world_fibers w !! y); constructor. apply like_refl.
    - intros f' Hf'. exists f'. split; [done|]. by apply journal_ext_same.
    - intros y Hne. unfold w', unindex. destruct (f_installed f); cbn; by rewrite lookup_insert_ne.
    - unfold w', unindex. by destruct (f_installed f).
    - unfold w', unindex. by destruct (f_installed f).
    - intros y Hne. rewrite Hs. set_solver.
    - intros y _. unfold is_resident. by rewrite Hreg. }
  eapply local_ok; [done..| | | |].
  - rewrite Hn, Hsv. apply Hok.
  - pose proof (wo_graph _ Hok) as [Hix Hc]. split; [split| |].
    + rewrite Hs. unfold w', unindex. destruct (f_installed f) eqn:Hin; cbn.
      * by apply unregister_wf.
      * assert (wd_served w ∖ {[ x ]} = wd_served w) as ->; [|done].
        rewrite <- Hs. unfold w', unindex. by rewrite Hin.
    + unfold w', unindex. by destruct (f_installed f).
    + rewrite Hn. intros key dp Hdp. apply (wo_rows _ Hok key). revert Hdp.
      unfold w', unindex. destruct (f_installed f); cbn; [|done]. by intros [? _]%rows_at_retain_all.
    + rewrite Hh, Hreg. apply Hok.
  - eapply local_caps; [done..| | |]; unfold w', unindex; by destruct (f_installed f).
  - rewrite Hh. intros f' Hf'. assert (f' = f) as -> by congruence. unfold fiber_ok, is_resident.
    rewrite Hn, Hsv, Hreg, Hs, (bool_decide_false (x ∈ wd_served w ∖ {[ x ]})) by set_solver.
    assert (wd_main w' = wd_main w ∧ wd_drivers w' !! x = Some (DSnapshot (KDispose owns)) ∧
            wd_running w' !! x = wd_running w !! x ∧ wd_sections w' !! x = wd_sections w !! x) as (-> & -> & -> & ->).
    { unfold w', unindex. destruct (f_installed f); cbn; by rewrite lookup_insert_eq. }
    by apply fiber_at_unserved with (owns := owns) (served := bool_decide (x ∈ wd_served w)).
Qed.

(** The new Registry of a release. *)
Lemma release_spec heap r x f :
  registry_wf heap r → groups_used r → heap !! x = Some f →
  ∃ r', release_residency heap r x = (<[ x := set_f_residency None f ]> heap, r') ∧
    registry_wf (<[ x := set_f_residency None f ]> heap) r' ∧ groups_used r' ∧
    (∀ y, y ∈ rg_residents r' ↔ y ∈ rg_residents r ∧ y ≠ x).
Proof.
  intros Hwf Hu Hf. destruct (f_residency f) as [claim|] eqn:Hc.
  - pose proof (release_wf _ _ Hwf Hu _ _ Hf _ Hc) as H.
    destruct (release_residency_eq _ _ Hwf _ _ Hf _ Hc) as (g & _ & _ & _ & Heq).
    rewrite Heq in *. eexists. split; [done|]. destruct H. split_and!; [done..|].
    intros y. cbn. rewrite list_elem_of_filter. tauto.
  - assert (x ∉ rg_residents r) as Hx.
    { intros [c Hc']%(rw_resident _ _ Hwf). unfold claim_of in Hc'. rewrite Hf in Hc'. cbn in Hc'. congruence. }
    pose proof (release_absent heap r x Hwf Hx) as H. unfold release_residency in *. rewrite Hf, Hc in *.
    exists r. destruct H as (_ & Hcl & _). split; [done|].
    split_and!; [by apply (registry_wf_ext heap)|done|]. intros y. split; [|by intros []]. intros Hy. split; [done|].
    by intros ->.
Qed.

(** The position after a teardown. *)
Lemma fiber_at_released w x f run sc resident :
  fiber_at w x (Some DRelease) run sc f → quiet f run sc → fiber_state f = Disposed →
  fiber_inv (bool_decide (x = wd_main w)) (bool_decide (x ∈ wd_served w)) resident
    (root_next (wd_root w)) (services_of w) None run sc x (set_f_dispose_complete true (set_f_residency None f)).
Proof.
  intros Hi Hq Hst. pose proof (fi_dead _ _ _ _ _ _ _ _ _ _ Hi Hst) as Ha.
  split; try apply Hi; try done.
  - cbn. change (fiber_state _) with (fiber_state f). rewrite Hst. unfold parked.
    split_and!; [apply Hq|by right; right; right|intros _; exact Hq|by intros []].
  - intros Hs. destruct (fi_served _ _ _ _ _ _ _ _ _ _ Hi Hs) as [_ [?|[o ?]]]; congruence.
  - intros _. right. split_and!; [exact Hst|done|by left].
  - intros Hm. by destruct (fi_main _ _ _ _ _ _ _ _ _ _ Hi Hm) as (_ & _ & ?).
Qed.

(** The release of the residency, and the completed barrier. *)
Lemma release_world_ok x f w :
  world_ok w → world_fibers w !! x = Some f → wd_drivers w !! x = Some DRelease →
  world_ok (stop x (on x (set_f_dispose_complete true) (release_world x f w))).
Proof.
  intros Hok Hf Hd. destruct (driven_at _ _ _ _ Hok Hf Hd) as [Hat (Hq & Hst)].
  destruct (wo_registry _ Hok) as [Hwf Hu].
  destruct (release_spec _ _ x f Hwf Hu Hf) as (reg & Hrel & Hwf' & Hu' & Hres).
  set (f1 := set_f_residency None f) in *. set (f' := set_f_dispose_complete true f1).
  set (w' := stop _ _).
  assert (wd_root w' = update_fiber x (set_f_dispose_complete true) (wd_root (release_world x f w))) as Hroot by done.
  unfold release_world in Hroot. unfold graph_of, world_fibers, root_heap in Hrel. rewrite Hrel in Hroot.
  assert (world_fibers w' = <[ x := f' ]> (world_fibers w)) as Hh.
  { unfold world_fibers, root_heap. rewrite Hroot. destruct (_ && _); cbn; by rewrite alter_insert_eq. }
  assert (services_of w' = services_of w) as Hsv by (unfold services_of; rewrite Hroot; by destruct (_ && _)).
  assert (root_next (wd_root w') = root_next (wd_root w)) as Hn by (rewrite Hroot; by destruct (_ && _)).
  assert (gr_registry (graph_of w') = reg ∧ gr_deps (graph_of w') = gr_deps (graph_of w)) as [Hreg Hdeps]
    by (unfold graph_of; rewrite Hroot; by destruct (_ && _)).
  assert (wd_main w' = wd_main w ∧ wd_served w' = wd_served w ∧ wd_running w' = wd_running w ∧
          wd_sections w' = wd_sections w ∧ wd_drivers w' = delete x (wd_drivers w)) as (Hm & Hs & Hrun & Hsec & Hdr)
    by (unfold w', release_world, graph_of; by rewrite Hrel).
  assert (∀ y, y ≠ x → is_resident w' y = is_resident w y) as Hro.
  { intros y Hne. unfold is_resident. rewrite Hreg. apply bool_decide_ext. rewrite Hres. tauto. }
  assert (local_change x w w') as Hlc.
  { split; rewrite ?Hh, ?Hn, ?Hsv, ?Hm, ?Hs, ?Hrun, ?Hsec, ?Hdr; try done.
    - apply slots_ext_refl.
    - intros y Hne. rewrite lookup_insert_ne by done. destruct (world_fibers w !! y); constructor. apply like_refl.
    - intros g. rewrite lookup_insert_eq. intros [= <-]. exists f. split; [done|]. by apply journal_ext_same.
    - rewrite lookup_insert_eq. by eexists.
    - intros y Hne. by rewrite lookup_delete_ne. }
  eapply local_ok; [done..| | | |].
  - rewrite Hn, Hsv. apply Hok.
  - pose proof (wo_graph _ Hok) as Hg. split.
    + rewrite Hs. replace (graph_of w') with
        {| gr_fibers := <[ x := f' ]> (gr_fibers (graph_of w)); gr_registry := reg; gr_deps := gr_deps (graph_of w) |}.
      * destruct (graph_wf_update _ _ x f f' Hg Hf) as [H1 H2]; [done..|]. by split.
      * change (gr_fibers (graph_of w)) with (world_fibers w). rewrite <- Hh, <- Hreg, <- Hdeps.
        unfold world_fibers, root_heap, graph_of. by destruct (so_graph _).
    + rewrite Hn, Hdeps. apply Hok.
    + rewrite Hh, Hreg. split; [|done]. apply (registry_wf_ext (<[ x := f1 ]> (world_fibers w))); [|done].
      intros y. unfold claim_of. destruct (decide (y = x)) as [->|Hne]; [by rewrite !lookup_insert_eq|by rewrite !lookup_insert_ne].
  - eapply local_caps; [done..| | |]; unfold w', release_world, graph_of; by rewrite Hrel.
  - rewrite Hh. intros g. rewrite lookup_insert_eq. intros [= <-]. unfold fiber_ok.
    rewrite Hn, Hsv, Hm, Hs, Hrun, Hsec, Hdr, lookup_delete_eq. by apply fiber_at_released.
Qed.

Lemma teardown_step_ok x f d w w' :
  world_ok w → world_fibers w !! x = Some f → wd_drivers w !! x = Some d →
  teardown_step x f d w = Some w' → world_ok w'.
Proof.
  intros Hok Hf Hd. destruct (driven_at _ _ _ _ Hok Hf Hd) as [Hat Hpos].
  destruct d as [missing owns|missing owns|k|rest k|rest k|missing owns|owns|owns|owns outcome|failure|owns|owns|owns| |];
    cbn [teardown_step]; try done.
  - (* DTeardown *)
    pose proof (on_like_ok x f (set_f_creation_pending false) w Hok Hf ltac:(by split)) as Hok1.
    destruct (decide (fiber_state f = Disposed)) as [Hst|Hst].
    + intros [= <-]. eapply goto_ok; [done|by apply on_lookup|done|]. intros Hat1. at_move Hat1.
      split; [|done]. apply Hpos. right. by right.
    + destruct (move x Unloading _) as [w0|] eqn:Hmv; [|done]. intros [= <-].
      eapply move_goto_ok; [done|by apply on_lookup|done|done|]. intros f' Htr Hat1 _.
      after_transition Htr f'. at_move Hat1.
  - (* DKill *)
    intros [= <-]. eapply on_goto_ok; [done..|by apply journal_ext_same|]. intros _ _. at_move Hat.
  - (* DUnregister *)
    intros [= <-]. by eapply unindex_ok.
  - (* DDisposed *)
    destruct Hpos as (Hq & Hst & Ha). destruct (move x Disposed w) as [w0|] eqn:Hmv; [|done]. intros [= <-].
    assert (world_ok (goto x DRelease w0)) as Hok1.
    { eapply move_goto_ok; [done..|]. intros f' Htr _ _. after_transition Htr f'.
      at_move Hat. split; [by eapply quiet_fields|done]. }
    assert (is_Some (world_fibers (goto x DRelease w0) !! x)) as [f' Hf'] by (by apply (wo_drivers _ Hok1); eexists; apply lookup_insert_eq).
    exact (on_like_ok x f' (store_error None) _ Hok1 Hf' (store_error_like None f')).
  - intros [= <-]. by apply release_world_ok.
Qed.

Lemma drive_ok x ending w w' : world_ok w → drive x ending w = Some w' → world_ok w'.
Proof.
  intros Hok. unfold drive. destruct (wd_drivers w !! x) as [d|] eqn:Hd; [|done]. cbn [mbind option_bind].
  destruct (world_fibers w !! x) as [f|] eqn:Hf; [|done]. cbn [mbind option_bind].
  destruct (settle_step x f d ending w) eqn:H1; [intros [= <-]; by eapply settle_step_ok|].
  destruct (drain_step x f d w) eqn:H2; [intros [= <-]; by eapply drain_step_ok|].
  by apply teardown_step_ok.
Qed.

(** * Starting and cancelling passes *)

(** A pass over a Fiber no pass drives. *)
Lemma start_ok x f g d w :
  world_ok w → world_fibers w !! x = Some f → wd_drivers w !! x = None → x ≠ wd_main w → like f (g f) →
  (settling d → f_installed f = true) →
  (∀ run sc, position_ok false None f run sc → position_ok false (Some d) f run sc) →
  (f_dispose_complete f = false ∨ ∃ m o, d = DSettle m o) →
  world_ok (goto x d (on x g w)).
Proof.
  intros Hok Hf Hd Hm Hl Hset Hpos Hc.
  pose proof (on_like_ok x f g w Hok Hf Hl) as Hok1. pose proof (on_lookup x g w f Hf) as Hf1.
  pose proof (wo_fibers _ Hok _ _ Hf) as Hi. unfold fiber_ok in Hi. rewrite Hd, (bool_decide_false _ Hm) in Hi.
  assert (fiber_at w x (Some d) (wd_running w !! x) (wd_sections w !! x) f) as Hat.
  { unfold fiber_at. rewrite (bool_decide_false _ Hm). split; try apply Hi; try done.
    - apply Hpos, Hi.
    - intros Hs. destruct (fi_served _ _ _ _ _ _ _ _ _ _ Hi Hs) as [? [?|[o ?]]]; [|done]. split; [done|by left].
    - intros Hr. destruct (fi_resident _ _ _ _ _ _ _ _ _ _ Hi Hr) as [?|(Hst & Hcm & _)]; [done|]. right.
      destruct Hc as [?|(m & o & ->)]; [congruence|]. split_and!; [done..|]. right. by exists m, o.
    - intros d' [= <-]. exact Hset. }
  assert (solo x f (g f) w (goto x d (on x g w))) as Hs.
  { eapply solo_on; try done; [apply Hl|by apply like_journal_ext|]. intros y Hne. by apply only_driver_insert. }
  eapply solo_ok; [exact Hok|exact Hs|]. eapply solo_fiber_ok; [done|]. cbn [wd_drivers goto put_drivers]. rewrite lookup_insert_eq.
  eapply fiber_inv_frame; [exact Hat|done|lia|apply (slots_ext_refl x)|].
  intros k slot Hk _. by exists slot.
Qed.

Lemma mark_terminal_like f : like f (mark_terminal f).
Proof. by split. Qed.

Lemma op_settle_ok x missing owns w w' : world_ok w → step (OpSettle x missing owns) w = Some w' → world_ok w'.
Proof.
  intros Hok. cbn [step]. destruct (world_fibers w !! x) as [f|] eqn:Hf; [|done]. cbn [mbind option_bind].
  destruct (_ && _) eqn:Hg; [|done]. intros [= <-].
  apply andb_true_iff in Hg as [[Hd%bool_decide_eq_true_1 Hin]%andb_true_iff Hm%negb_true_iff%bool_decide_eq_false_1].
  change (world_ok (goto x (DSettle missing owns) w)).
  pose proof (start_ok x f id (DSettle missing owns) w Hok Hf Hd Hm (like_refl f) (λ _, Hin) (λ _ _ Hp, Hp)) as H.
  assert (world_ok (goto x (DSettle missing owns) (on x id w)) → world_ok (goto x (DSettle missing owns) w)) as Heq; [|eauto 10].
  assert (on x id w = w) as ->; [|done]. unfold on, put_root, update_fiber. cbn. rewrite alter_id by done. destruct w as [? [? ? [? []] ? ?] ? ? ? ? ? ? ?]. done.
Qed.

Lemma op_teardown_ok x owns w w' : world_ok w → step (OpTeardown x owns) w = Some w' → world_ok w'.
Proof.
  intros Hok. cbn [step]. destruct (world_fibers w !! x) as [f|] eqn:Hf; [|done]. cbn [mbind option_bind].
  destruct (_ && _) eqn:Hg; [|done]. intros [= <-].
  apply andb_true_iff in Hg as [[Hd%bool_decide_eq_true_1 Hm%negb_true_iff%bool_decide_eq_false_1]%andb_true_iff Hc%negb_true_iff].
  apply start_ok with (f := f); auto using mark_terminal_like. by intros run sc (_ & _ & Hq & _).
Qed.

Lemma op_cancel_ok x w w' : world_ok w → step (OpCancel x) w = Some w' → world_ok w'.
Proof.
  intros Hok. cbn [step]. destruct (wd_drivers w !! x) as [d|] eqn:Hd; [|done]. cbn [mbind option_bind].
  destruct (cancellable d) eqn:Hc; [|done]. intros [= <-].
  destruct (wo_drivers _ Hok x ltac:(by eexists)) as [f Hf]. destruct (driven_at _ _ _ _ Hok Hf Hd) as [Hat Hpos].
  eapply on_goto_ok; [done..|by apply journal_ext_same|]. intros _ _.
  destruct d; try done; at_move Hat; cbn in *; change (fiber_state (mark_terminal f)) with (fiber_state f).
  - destruct Hpos as (-> & _). by intros [?|[?|?]].
  - destruct Hpos as (-> & _). by intros [?|[?|?]].
  - destruct Hpos as (_ & ->). by intros [?|[?|?]].
Qed.

Lemma op_replace_ok x w w' : world_ok w → step (OpReplace x) w = Some w' → world_ok w'.
Proof.
  intros Hok. cbn [step]. destruct (world_fibers w !! x) as [f|] eqn:Hf; [|done]. cbn [mbind option_bind].
  intros [= <-]. eapply on_like_ok; [done..|]. by split.
Qed.

Lemma op_mark_ok x m w w' : world_ok w → step (OpMark x m) w = Some w' → world_ok w'.
Proof.
  intros Hok. cbn [step]. destruct (world_fibers w !! x) as [f|] eqn:Hf; [|done]. cbn [mbind option_bind].
  intros [= <-]. eapply on_like_ok; [done..|]. by destruct m.
Qed.

(** * The end of a cleanup *)

(** The stores of [so'] are those of [so] less some slots. *)
Record fewer_slots (so so' : Stores) : Prop := {
  fs_graph : so_graph so' = so_graph so;
  fs_contracts : contracts (so_services so') = contracts (so_services so);
  fs_slots : ∀ k slot, slots (so_services so') !! k = Some slot → slots (so_services so) !! k = Some slot;
}.

Lemma run_action_fewer c so : fewer_slots so (run_action c so).
Proof.
  destruct c as [| |key name o| |]; try by split.
  destruct (withdraw_exact_spec key name o so) as (Hg & Hc & Hs). split; [done..|].
  intros k slot. cbn [run_action]. rewrite Hs. tauto.
Qed.

Lemma run_action_gone key name o c so slot :
  cl_run c = CleanService key name o → slots (so_services (run_action (cl_run c) so)) !! (key, name) = Some slot →
  ss_occurrence slot ≠ o.
Proof.
  intros -> Hs. cbn [run_action] in Hs. destruct (withdraw_exact_spec key name o so) as (_ & _ & H).
  apply H in Hs as [_ Hne]. tauto.
Qed.

Lemma slots_wf_fewer next so so' :
  fewer_slots so so' → slots_wf next (so_services so) → slots_wf next (so_services so').
Proof.
  intros [_ Hc Hs] [Hb Hf]. split; [|intros k slot Hk; by apply (Hf k), Hs].
  intros key name slot Hk. rewrite Hc. by apply Hb with (key := key), Hs.
Qed.

Lemma fewer_slots_ext x next so so' : fewer_slots so so' → slots_ext x next (so_services so) (so_services so').
Proof. intros Hf k slot Hs. left. exists slot. split; [by apply (fs_slots _ _ Hf)|done]. Qed.

Lemma position_ok_ran d f c sc : position_ok false d f (Some c) sc → position_ok false d f None sc.
Proof.
  unfold position_ok, quiet. destruct d as [[]|]; cbn; try naive_solver.
Qed.

Lemma op_run_end_ok x w w' : world_ok w → step (OpRunEnd x) w = Some w' → world_ok w'.
Proof.
  intros Hok. cbn [step]. destruct (wd_running w !! x) as [c|] eqn:Hrun; [|done]. cbn [mbind option_bind]. intros [= <-].
  destruct (wo_running _ Hok x ltac:(by eexists)) as [f Hf]. pose proof (wo_fibers _ Hok _ _ Hf) as Hi.
  unfold fiber_ok in Hi. rewrite Hrun in Hi.
  pose proof (run_action_fewer (cl_run c) (root_stores (wd_root w))) as Hfew.
  set (so' := run_action _ _) in *. set (w' := put_running _ _).
  assert (graph_of w' = graph_of w) as Hg by (unfold graph_of; cbn; apply Hfew).
  assert (world_fibers w' = world_fibers w) as Hh.
  { change (gr_fibers (graph_of w') = gr_fibers (graph_of w)). by rewrite Hg. }
  assert (local_change x w w') as Hlc.
  { split; rewrite ?Hh; try done.
    - by apply fewer_slots_ext.
    - intros y _. destruct (world_fibers w !! y); constructor. apply like_refl.
    - intros f' Hf'. exists f'. split; [done|]. by apply journal_ext_same.
    - intros y Hne. cbn. by rewrite lookup_delete_ne.
    - intros y _. unfold is_resident. by rewrite Hg. }
  eapply local_ok; [done..| | | |].
  - eapply slots_wf_fewer; [exact Hfew|apply Hok].
  - split; rewrite ?Hg; [apply Hok..|]. rewrite Hh. apply Hok.
  - by eapply local_caps.
  - rewrite Hh. intros g Hg'. assert (g = f) as -> by congruence. unfold fiber_ok, is_resident. rewrite Hg.
    cbn [wd_running w' put_running]. rewrite lookup_delete_eq.
    assert (bool_decide (x = wd_main w) = false) as Hm.
    { destruct (bool_decide (x = wd_main w)) eqn:E; [|done]. pose proof (fi_main _ _ _ _ _ _ _ _ _ _ Hi eq_refl) as (Hst & _).
      rewrite (fi_running _ _ _ _ _ _ _ _ _ _ Hi ltac:(by eexists)) in Hst. done. }
    change (wd_main w') with (wd_main w). rewrite Hm in Hi |- *.
    split; try apply Hi; try done.
    + apply (position_ok_ran _ _ c), Hi.
    + intros key name slot Hs Hx.
      destruct (fi_covered _ _ _ _ _ _ _ _ _ _ Hi key name slot (fs_slots _ _ Hfew _ _ Hs) Hx) as [?|[(c' & [= <-] & Hc)|?]];
        [by left| |by right; right].
      by destruct (run_action_gone _ _ _ _ _ _ Hc Hs).
    + intros t c' Hc'. eapply (entry_ok_ext _ x); [done|by apply fewer_slots_ext|]. by apply (fi_entries _ _ _ _ _ _ _ _ _ _ Hi t).
    + eapply (section_ok_ext _ x); [done|by apply fewer_slots_ext|]. apply Hi.
Qed.

(** * Claims by registrations and publications *)

Lemma position_ok_removed main d f token run sc :
  journal_wf (f_journal f) → position_ok main d f run sc → position_ok main d (removed token f) run sc.
Proof.
  intros Hwf.
  assert (quiet f run sc → quiet (removed token f) run sc) as Hq by apply quiet_removed.
  assert (∀ k, kont_ok k f → kont_ok k (removed token f)) as Hk by (by intros []).
  assert (∀ rest, drained_to rest f → drained_to rest (removed token f)) as Hd.
  { intros rest Hr t Ht. apply Hr. revert Ht. unfold removed. rewrite !tokens_lookup, remove_disposable_lookup by done.
    case_decide; [by intros []|done]. }
  unfold position_ok. change (fiber_state (removed token f)) with (fiber_state f).
  destruct d as [[]|]; cbn; naive_solver.
Qed.

(** A claim whose cleanup has nothing left to withdraw. *)
Lemma claim_ok x f token w :
  world_ok w → world_fibers w !! x = Some f →
  (∀ c key name o, bt_lookup (dl_map (f_journal f)) token = Some c → cl_run c = CleanService key name o →
     gone (services_of w) key name o) →
  world_ok (on x (removed token) w).
Proof.
  intros Hok Hf Hgone. pose proof (wo_fibers _ Hok _ _ Hf) as Hi. pose proof (fi_journal _ _ _ _ _ _ _ _ _ _ Hi) as Hwf.
  assert (solo x f (removed token f) w (on x (removed token) w)) as Hs.
  { eapply solo_on; try done. by apply remove_disposable_journal. }
  eapply solo_ok; [exact Hok|exact Hs|]. eapply solo_fiber_ok; [done|]. unfold fiber_at.
  change (wd_drivers (on x (removed token) w)) with (wd_drivers w).
  change (wd_running (on x (removed token) w)) with (wd_running w).
  change (wd_sections (on x (removed token) w)) with (wd_sections w).
  split; try apply Hi.
  - by apply dl_remove_wf.
  - by apply position_ok_removed, Hi.
  - intros key name slot Hk Hx. destruct (fi_covered _ _ _ _ _ _ _ _ _ _ Hi key name slot Hk Hx) as [(t & c & Ht & Hc)|?]; [|by right].
    left. exists t, c. unfold removed. rewrite remove_disposable_lookup by done. case_decide as E; [|done].
    subst t. by destruct (Hgone c key name _ Ht Hc slot Hk).
  - intros t c. unfold removed. rewrite remove_disposable_lookup by done. case_decide; [done|]. apply Hi.
Qed.

Lemma claim_root_ok x token w :
  world_ok w →
  (∀ f c key name o, world_fibers w !! x = Some f → bt_lookup (dl_map (f_journal f)) token = Some c →
     cl_run c = CleanService key name o → gone (services_of w) key name o) →
  world_ok (put_root (claim_cleanup x token (wd_root w)).2 w).
Proof.
  intros Hok Hg. destruct (world_fibers w !! x) as [f|] eqn:Hf.
  - rewrite (claim_root _ _ _ _ Hf). eapply claim_ok; [done..|]. intros c key name o. by apply Hg.
  - unfold claim_cleanup. change (fibers (wd_root w)) with (world_fibers w). rewrite Hf. cbn. by destruct w.
Qed.

Lemma op_effect_claim_ok i w w' : world_ok w → step (OpEffectClaim i) w = Some w' → world_ok w'.
Proof.
  intros Hok. cbn [step]. destruct (wd_effects w !! i) as [e|] eqn:He; [|done]. cbn [mbind option_bind].
  destruct (unlocked _ w); [|done]. intros [= <-]. apply claim_root_ok; [done|].
  intros f c key name o Hf Hc Hcl.
  destruct (wo_effects _ Hok e (list_elem_of_lookup_2 _ _ _ He)) as [_ He']. destruct (He' f Hf) as [_ Hu].
  destruct (Hu c Hc) as [n Hn]. congruence.
Qed.

(** Dropping issued capabilities. *)
Lemma removed_subset_ok l w :
  world_ok w → (∀ p, p ∈ l → p ∈ wd_removed w) → world_ok (put_removed l w).
Proof.
  intros Hok Hl. destruct Hok. split; try done; cbn; [|auto].
  intros p [?|?%Hl]%elem_of_app; apply wo_pubs0, elem_of_app; auto.
Qed.

Lemma op_claim_ok i w w' : world_ok w → step (OpClaim i) w = Some w' → world_ok w'.
Proof.
  intros Hok. cbn [step]. destruct (wd_removed w !! i) as [p|] eqn:Hp; [|done]. cbn [mbind option_bind].
  destruct (unlocked _ w); [|done]. intros [= <-]. apply list_elem_of_lookup_2 in Hp.
  apply removed_subset_ok.
  - apply claim_root_ok; [done|]. intros f c key name o Hf Hc Hcl.
    destruct (wo_pubs _ Hok p ltac:(apply elem_of_app; by right)) as (_ & _ & Hpub).
    destruct (Hpub f Hf) as [_ Hcl']. specialize (Hcl' c Hc). rewrite Hcl in Hcl'. injection Hcl' as -> -> ->.
    by apply (wo_removed _ Hok).
  - intros q Hq. by eapply list_elem_of_delete_inv.
Qed.
