(* ===== verification/GenerationOps.v ===== *)
(** The invariant of the Runtime (GenerationInv.v) is preserved by registrations, exact
    controls, creations and the Registry's steps; hence it holds in every reachable
    world. *)
From S2P Require Import Prelude Axes BTree Lifecycle Journal EventStore Observation Plugin Fiber Registry Deps Services Generation GenerationInv.

(** * Registrations *)

(** The registration of [x] moves on. *)
Lemma sections_ok x f m w :
  world_ok w → world_fibers w !! x = Some f → (∀ y, y ≠ x → m !! y = wd_sections w !! y) →
  fiber_at w x (wd_drivers w !! x) (wd_running w !! x) (m !! x) f → world_ok (put_sections m w).
Proof.
  intros Hok Hf Hm Hx.
  assert (solo x f f w (put_sections m w)) as Hs.
  { split; try done; [by apply journal_ext_same| |by intros key row|apply Hok].
    intros y _. destruct (world_fibers _ !! y); constructor. apply like_refl. }
  eapply solo_ok; [exact Hok|exact Hs|]. by eapply solo_fiber_ok.
Qed.

(** The invariant at another registration. *)
Lemma fiber_inv_section main served resident next st d run sc sc' x f :
  fiber_inv main served resident next st d run sc x f →
  (position_ok main d f run sc → position_ok main d f run sc') →
  (∀ key name o, covered f run sc key name o → covered f run sc' key name o) →
  section_ok x next st sc' → fiber_inv main served resident next st d run sc' x f.
Proof.
  intros Hi Hp Hc Hs. split; try apply Hi; try done.
  - by apply Hp, Hi.
  - intros key name slot Hk Hx. by apply Hc, (fi_covered _ _ _ _ _ _ _ _ _ _ Hi).
Qed.

(** No position asks for a registration. *)
Lemma position_ok_calm main d f run sc sc' :
  ¬ past_check sc' → position_ok main d f run sc → position_ok main d f run sc'.
Proof. intros Hn. unfold position_ok, quiet. destruct d as [[]|]; cbn; naive_solver. Qed.

(** The positions at which a registration may be past its recheck. *)
Lemma position_ok_open main d f run sc sc' :
  gate_open f → position_ok main d f run sc → position_ok main d f run sc'.
Proof.
  intros (Ha & _ & _ & Hst). unfold position_ok, quiet, parked.
  destruct d as [[]|]; cbn; destruct Hst as [Hst|Hst]; rewrite ?Hst; naive_solver.
Qed.

Lemma position_ok_past main d f run sc sc' :
  past_check sc → position_ok main d f run sc → position_ok main d f run sc'.
Proof.
  intros Hp. unfold position_ok, quiet. destruct d as [[]|]; cbn; try naive_solver.
Qed.

Definition owner_of_slot (p : Publication) (key : RealmKey) (name : string) (o : Addr) : Prop :=
  cl_run (cleanup_of p o) = CleanService key name o.

Lemma enter_section_ok x request w w' : world_ok w → enter_section x request w = Some w' → world_ok w'.
Proof.
  intros Hok. unfold enter_section. destruct (_ && _) eqn:Hg; [|done]. intros [= <-].
  apply andb_true_iff in Hg as [[[f Hf]%bool_decide_eq_true_1 Hu%bool_decide_eq_true_1]%andb_true_iff Hc].
  eapply sections_ok; [done..| |].
  - intros y Hne. by rewrite lookup_insert_ne.
  - rewrite lookup_insert_eq. pose proof (wo_fibers _ Hok _ _ Hf) as Hi. unfold fiber_ok in Hi. rewrite Hu in Hi.
    eapply fiber_inv_section; [exact Hi| | |].
    + apply position_ok_calm. by intros [].
    + intros key name o [?|[?|(p & drift & ? & _)]]; [by left|by right; left|done].
    + destruct request; [done|]. apply bool_decide_eq_true_1 in Hc. done.
Qed.

(** ** Steps that change slots and revisions *)

(** The Runtime goes to [r'], whose Fibers differ in their revisions only, and the
    registration of [x] goes on. *)
Record drifts (x : Addr) (w : World) (r' : Runtime) : Prop := {
  dr_next : root_next (wd_root w) ≤ root_next r';
  dr_wf : slots_wf (root_next r') (so_services (root_stores r'));
  dr_slots : slots_ext x (root_next (wd_root w)) (services_of w) (so_services (root_stores r'));
  dr_graph : graph_wf (wd_served w) (so_graph (root_stores r'));
  dr_heap : heap_agrees (world_fibers w) (root_heap r');
  dr_registry : gr_registry (so_graph (root_stores r')) = gr_registry (graph_of w);
  dr_rows : rows_subset (graph_of w) (so_graph (root_stores r'));
}.

Lemma agree_static f f' : agree f f' → static f f'.
Proof. intros Ha. by apply lk_static, agree_like. Qed.

Lemma drifts_ok x f w r' m l :
  world_ok w → world_fibers w !! x = Some f → drifts x w r' → (∀ y, y ≠ x → m !! y = wd_sections w !! y) →
  (∀ p, p ∈ l → p ∈ wd_pubs w ++ wd_removed w ∧
     gone (so_services (root_stores r')) (sp_key p) (sv_name (sp_service p)) (sp_occurrence p)) →
  fiber_inv (bool_decide (x = wd_main w)) (bool_decide (x ∈ wd_served w)) (is_resident w x)
    (root_next r') (so_services (root_stores r')) (wd_drivers w !! x) (wd_running w !! x) (m !! x) x f →
  world_ok (put_removed l (put_sections m (put_root r' w))).
Proof.
  intros Hok Hf [Hn Hwf Hext Hg Ha Hreg Hrows] Hm Hl Hx. set (w' := put_removed _ _).
  assert (local_change x w w') as Hlc.
  { split; try done.
    - intros y _. specialize (Ha y). change (option_Forall2 like (world_fibers w !! y) (root_heap r' !! y)).
      destruct Ha; constructor. by apply agree_like.
    - intros f' Hf'. destruct (heap_agrees_lookup _ _ _ _ Ha Hf') as (f0 & Hf0 & Hagree).
      exists f0. split; [done|]. by apply like_journal_ext, agree_like.
    - destruct (heap_agrees_lookup_l _ _ _ _ Ha Hf) as (f' & Hf' & _). by exists f'.
    - intros y _. unfold is_resident. by rewrite <- Hreg. }
  eapply local_ok; [exact Hok|exact Hlc|exact Hwf| | |].
  - split; [exact Hg| |].
    + intros key dp Hdp%Hrows. apply (wo_rows _ Hok) in Hdp. cbn. lia.
    + change (gr_registry (graph_of w')) with (gr_registry (so_graph (root_stores r'))). rewrite Hreg.
      eapply registry_ok_static; [|apply (wo_registry _ Hok)]. intros y. specialize (Ha y).
      change (option_Forall2 static (world_fibers w !! y) (root_heap r' !! y)).
      destruct Ha; constructor. by apply agree_static.
  - destruct (local_caps_old _ _ _ Hok Hlc) as (He & Hp & Hr). split.
    + exact He.
    + intros p [Hp'|Hp'%Hl]%elem_of_app; apply Hp; [apply elem_of_app; by left|apply Hp'].
    + intros p Hp'. by apply Hl.
  - intros f' Hf'. destruct (heap_agrees_lookup _ _ _ _ Ha Hf') as (f0 & Hf0 & Hagree).
    assert (f0 = f) as -> by (unfold world_fibers in *; congruence).
    assert (is_resident w' x = is_resident w x) as Hres by (unfold is_resident; by rewrite <- Hreg).
    unfold fiber_ok. rewrite Hres. eapply fiber_inv_frame; [exact Hx|by apply agree_like|done|apply (slots_ext_refl x)|].
    intros k slot Hk _. by exists slot.
Qed.

(** The publications whose slot was gone stay so. *)
Lemma removed_stay_gone x w r' :
  world_ok w → drifts x w r' →
  ∀ p, p ∈ wd_removed w → p ∈ wd_pubs w ++ wd_removed w ∧
     gone (so_services (root_stores r')) (sp_key p) (sv_name (sp_service p)) (sp_occurrence p).
Proof.
  intros Hok Hd p Hp. assert (p ∈ wd_pubs w ++ wd_removed w) as Hin by (apply elem_of_app; by right).
  split; [done|]. eapply gone_ext; [|apply Hd|by apply (wo_removed _ Hok)]. by apply (wo_pubs _ Hok).
Qed.

Lemma drift_if_drifts b served g edges :
  graph_wf served g →
  let g' := (drift_if b g edges).2 in
  graph_wf served g' ∧ heap_agrees (gr_fibers g) (gr_fibers g') ∧ gr_registry g' = gr_registry g ∧ rows_subset g g'.
Proof.
  intros Hg. pose proof (drift_if_rows b served g edges Hg) as Hr. pose proof (drift_if_spec b served g edges Hg) as H.
  destruct (drift_if b g edges) as [d g']. cbn in *.
  destruct H as [(? & ? & ? & _)|(_ & _ & ->)]; [by split_and!|]. by split_and!.
Qed.

(** A refused publication, and the allocation of its identity. *)
Lemma bump_drifts x w so :
  world_ok w → so = root_stores (wd_root w) → drifts x w (with_stores so (bump (wd_root w))).
Proof.
  intros Hok ->. pose proof (wo_graph _ Hok). split; try done; cbn; [lia| |apply slots_ext_refl|by intros key row].
  eapply slots_wf_mono; [apply Hok|lia].
Qed.

(** An installation. *)
Lemma install_drifts x w slot key name evicted drift so :
  world_ok w → ss_occurrence slot = root_next (wd_root w) → ss_fiber slot = x → av_type (ss_value slot) = ss_contract slot →
  install x slot key name (root_stores (wd_root w)) = (Ok (evicted, drift), so) →
  drifts x w (with_stores so (bump (wd_root w))) ∧ slots (so_services so) = <[ (key, name) := slot ]> (slots (services_of w)).
Proof.
  intros Hok Ho Hx Ht Hi. set (next := root_next (wd_root w)) in *.
  assert (slots_wf (S next) (services_of w)) as Hwf by (eapply slots_wf_mono; [apply Hok|unfold next; lia]).
  pose proof (install_spec (S next) (wd_served w) x slot key name (root_stores (wd_root w)) Hwf (wo_graph _ Hok)) as H.
  pose proof (install_wf (S next) (wd_served w) x slot key name _ _ _ Hwf (wo_graph _ Hok) Ht ltac:(lia) Hi) as Hwf'.
  rewrite Hi in H. destruct H as (_ & _ & _ & _ & Hs & Hd). split; [|exact Hs].
  destruct (drift_if_drifts (is_active (gr_fibers (graph_of w)) x) _ _ [(name, key)] (wo_graph _ Hok)) as (Hg & Ha & Hr & Hrows).
  unfold graph_of in *. rewrite <- Hd in *. split; try done; cbn; [lia|].
  intros k slot'. rewrite Hs. intros [[<- <-]|[_ Hk]]%lookup_insert_Some; [by right|]. left. by exists slot'.
Qed.

Lemma recheck_ok x f p w :
  world_ok w → world_fibers w !! x = Some f → gate_open f →
  wd_sections w !! x = Some {| sc_publication := p; sc_phase := PhEntered |} → world_ok (set_phase x p PhChecked w).
Proof.
  intros Hok Hf Hgate Hsc. pose proof (wo_fibers _ Hok _ _ Hf) as Hi. unfold fiber_ok in Hi. rewrite Hsc in Hi.
  eapply sections_ok; [done..| |]; [intros y Hne; by rewrite lookup_insert_ne|]. rewrite lookup_insert_eq.
  eapply fiber_inv_section; [exact Hi|by apply position_ok_open| |].
  - intros key name o [?|[?|(q & drift & ? & _)]]; [by left|by right; left|done].
  - pose proof (fi_section _ _ _ _ _ _ _ _ _ _ Hi) as Hs. destruct p; [done|]. exact Hs.
Qed.

(** The registration ends with the refusal of its recheck, or of its publication. *)
Lemma refuse_ok x f r' w :
  world_ok w → world_fibers w !! x = Some f → drifts x w r' → services_of w = so_services (root_stores r') →
  (∀ p o drift, wd_sections w !! x ≠ Some {| sc_publication := p; sc_phase := PhPublished o drift |}) →
  world_ok (leave_section x (put_root r' w)).
Proof.
  intros Hok Hf Hd Hsv Hsc. pose proof (wo_fibers _ Hok _ _ Hf) as Hi. unfold fiber_ok in Hi.
  change (world_ok (put_removed (wd_removed w) (put_sections (delete x (wd_sections w)) (put_root r' w)))).
  apply (drifts_ok x f w r' (delete x (wd_sections w)) (wd_removed w) Hok Hf Hd).
  - intros y Hne. by rewrite lookup_delete_ne.
  - by apply (removed_stay_gone x).
  - rewrite lookup_delete_eq. eapply fiber_inv_section.
    + rewrite <- Hsv. eapply fiber_inv_frame; [exact Hi|done|apply Hd|by apply (slots_ext_refl x)|].
      intros k slot Hk _. by exists slot.
    + apply position_ok_calm. by intros [].
    + intros key name o [?|[?|(q & drift & Hq & _)]]; [by left|by right; left|by destruct (Hsc q o drift)].
    + done.
Qed.

(** The publication under the journal lock. *)
Lemma publish_ok x f ctx svc value evicted drift so w :
  let p := PubService ctx svc value in
  let key := isolate_key ctx (sv_name svc) in
  let o := root_next (wd_root w) in
  let slot := {| ss_occurrence := o; ss_value := value; ss_contract := sv_type svc; ss_fiber := x |} in
  world_ok w → world_fibers w !! x = Some f →
  wd_sections w !! x = Some {| sc_publication := p; sc_phase := PhChecked |} →
  install x slot key (sv_name svc) (root_stores (wd_root w)) = (Ok (evicted, drift), so) →
  world_ok (set_phase x p (PhPublished o drift) (put_root (with_stores so (bump (wd_root w))) w)).
Proof.
  intros p key o slot Hok Hf Hsc Hin. pose proof (wo_fibers _ Hok _ _ Hf) as Hi. unfold fiber_ok in Hi. rewrite Hsc in Hi.
  destruct (fi_section _ _ _ _ _ _ _ _ _ _ Hi) as (Hctx & Htype & _).
  destruct (install_drifts x w slot key (sv_name svc) evicted drift so Hok eq_refl eq_refl Htype Hin) as [Hd Hs].
  set (r' := with_stores so (bump (wd_root w))) in *.
  set (sc' := {| sc_publication := p; sc_phase := PhPublished o drift |}).
  change (world_ok (put_removed (wd_removed w) (put_sections (<[ x := sc' ]> (wd_sections w)) (put_root r' w)))).
  apply (drifts_ok x f w r' _ _ Hok Hf Hd).
  - intros y Hne. by rewrite lookup_insert_ne.
  - by apply (removed_stay_gone x).
  - rewrite lookup_insert_eq. pose proof (dr_slots _ _ _ Hd) as Hext. pose proof (dr_next _ _ _ Hd) as Hle.
    split; try apply Hi.
    + intros k name s Hk Hx. cbn in Hk. rewrite Hs in Hk. apply lookup_insert_Some in Hk as [[[= <- <-] <-]|[_ Hk]].
      * right. right. by exists p, drift.
      * destruct (fi_covered _ _ _ _ _ _ _ _ _ _ Hi _ _ _ Hk Hx) as [?|[?|(q & dr & ? & _)]]; [by left|by right; left|done].
    + intros t c Hc. eapply entry_ok_ext; [exact Hle|exact Hext|]. by apply (fi_entries _ _ _ _ _ _ _ _ _ _ Hi t).
    + intros c Hc. eapply entry_ok_ext; [exact Hle|exact Hext|]. by apply (fi_run_entry _ _ _ _ _ _ _ _ _ _ Hi).
    + cbn. split; [done|]. split; [done|]. split; [unfold o; lia|]. intros s. cbn. rewrite Hs, lookup_insert_eq. by intros [= <-].
Qed.

(** An effect publishes nothing. *)
Lemma publish_nothing_ok x f callback async w :
  let p := PubNothing callback async in
  world_ok w → world_fibers w !! x = Some f →
  wd_sections w !! x = Some {| sc_publication := p; sc_phase := PhChecked |} →
  world_ok (set_phase x p (PhPublished 0 None) w).
Proof.
  intros p Hok Hf Hsc. pose proof (wo_fibers _ Hok _ _ Hf) as Hi. unfold fiber_ok in Hi. rewrite Hsc in Hi.
  eapply sections_ok; [done..| |]; [intros y Hne; by rewrite lookup_insert_ne|]. rewrite lookup_insert_eq.
  eapply fiber_inv_section; [exact Hi| | |done].
  - apply position_ok_past. exact I.
  - intros key name o [?|[?|(q & drift & ? & _)]]; [by left|by right; left|done].
Qed.

(** ** The push *)

Lemma root_ok r' w :
  root_stores r' = root_stores (wd_root w) → root_next r' = root_next (wd_root w) → world_ok w → world_ok (put_root r' w).
Proof.
  intros Hs Hn Hok.
  assert (services_of (put_root r' w) = services_of w) as H1 by (unfold services_of; cbn; by rewrite Hs).
  assert (graph_of (put_root r' w) = graph_of w) as H2 by (unfold graph_of; cbn; by rewrite Hs).
  assert (world_fibers (put_root r' w) = world_fibers w) as H3
    by (change (gr_fibers (graph_of (put_root r' w)) = gr_fibers (graph_of w)); by rewrite H2).
  assert (root_next (wd_root (put_root r' w)) = root_next (wd_root w)) as H4 by done.
  split; rewrite ?H1, ?H2, ?H3, ?H4; try first [exact (wo_main _ Hok)|apply Hok].
  intros x f Hf. unfold fiber_ok, is_resident. rewrite H1, H2, H4. by apply (wo_fibers _ Hok).
Qed.

Lemma issued_ok e p w :
  world_ok w → (∀ c, c ∈ e → c ∈ wd_effects w ∨ effect_ok (world_fibers w) (root_next (wd_root w)) c) →
  (∀ c, c ∈ p → c ∈ wd_pubs w ∨ pub_ok (world_fibers w) (root_next (wd_root w)) (services_of w) c) →
  world_ok (put_issued e p w).
Proof.
  intros Hok He Hp. split; try first [exact (wo_main _ Hok)|apply Hok].
  - intros c [Hc|Hc]%He; [by apply (wo_effects _ Hok)|done].
  - intros c [[Hc|Hc]%Hp|Hc]%elem_of_app; [|done|]; apply (wo_pubs _ Hok), elem_of_app; auto.
Qed.

Lemma pushed_journal c f :
  journal_wf (f_journal f) → (dl_sn (f_journal f) < u64_max)%Z →
  let f' := push_cleanup c f in
  let t := (dl_push (f_journal f) c).1 in
  t = (dl_sn (f_journal f) + 1)%Z ∧ dl_sn (f_journal f') = t ∧ journal_wf (f_journal f') ∧
  ∀ t', bt_lookup (dl_map (f_journal f')) t' = if decide (t = t') then Some c else bt_lookup (dl_map (f_journal f)) t'.
Proof.
  intros Hwf Hlt. destruct (dl_push_spec _ c Hwf Hlt) as [Heq Hwf']. cbn zeta. unfold push_cleanup. cbn [f_journal set_f_journal].
  rewrite Heq. split_and!; [done..|by rewrite Heq in Hwf'|]. intros t'. cbn [dl_map fst snd].
  rewrite <- bt_insert_last; [apply bt_lookup_insert|]. intros k Hk. apply Z.ltb_lt. destruct Hwf as [_ _ Hb]. specialize (Hb k Hk). lia.
Qed.

Lemma position_ok_push main d f c run sc :
  past_check sc → position_ok main d f run sc → position_ok main d (push_cleanup c f) run None.
Proof.
  intros Hp. unfold position_ok, quiet. change (fiber_state (push_cleanup c f)) with (fiber_state f).
  destruct d as [[]|]; cbn; try naive_solver.
  all: intros (? & Hk); split; [done|]; destruct k; exact Hk.
Qed.

(** The push with the release of the journal lock. *)
Lemma push_ok x f p o drift w :
  let c := cleanup_of p o in
  world_ok w → world_fibers w !! x = Some f → (dl_sn (f_journal f) < u64_max)%Z →
  wd_sections w !! x = Some {| sc_publication := p; sc_phase := PhPublished o drift |} →
  world_ok (leave_section x (on x (push_cleanup c) w)).
Proof.
  intros c Hok Hf Hlt Hsc. pose proof (wo_fibers _ Hok _ _ Hf) as Hi. unfold fiber_ok in Hi. rewrite Hsc in Hi.
  pose proof (fi_journal _ _ _ _ _ _ _ _ _ _ Hi) as Hwf.
  destruct (pushed_journal c f Hwf Hlt) as (Ht & Hsn & Hwf' & Hlk).
  assert (solo x f (push_cleanup c f) w (leave_section x (on x (push_cleanup c) w))) as Hs.
  { eapply solo_on; try done.
    - split; [rewrite Hsn, Ht; lia|]. intros t c'. rewrite Hlk. destruct (decide _) as [E|E]; [intros _; right; rewrite <- E, Ht; lia|by left].
    - intros y Hne. cbn. by rewrite lookup_delete_ne. }
  eapply solo_ok; [exact Hok|exact Hs|]. eapply solo_fiber_ok; [done|]. unfold fiber_at.
  change (wd_drivers (leave_section x (on x (push_cleanup c) w))) with (wd_drivers w).
  change (wd_running (leave_section x (on x (push_cleanup c) w))) with (wd_running w).
  cbn [wd_sections leave_section put_sections]. rewrite lookup_delete_eq.
  split; try apply Hi; try done.
  - eapply position_ok_push; [|exact (fi_position _ _ _ _ _ _ _ _ _ _ Hi)]. exact I.
  - intros key name slot Hk Hx. unfold covered.
    destruct (fi_covered _ _ _ _ _ _ _ _ _ _ Hi _ _ _ Hk Hx) as [(t & c' & Hc' & Hcl)|[?|(q & dr & [= <- <- <-] & Hcl)]].
    + left. exists t, c'. rewrite Hlk. destruct (decide _) as [E|E]; [|done].
      destruct Hwf as [_ _ Hb]. assert (t ∈ dl_tokens (f_journal f)) as Hin by (apply tokens_lookup; by eexists).
      apply Hb in Hin. lia.
    + by right; left.
    + left. exists (dl_push (f_journal f) c).1, c. rewrite Hlk, decide_True by done. done.
  - intros t c'. rewrite Hlk. destruct (decide _); [|by apply (fi_entries _ _ _ _ _ _ _ _ _ _ Hi t)]. intros [= <-].
    pose proof (fi_section _ _ _ _ _ _ _ _ _ _ Hi) as Hsec. destruct p as [|ctx svc value]; [done|].
    destruct Hsec as (_ & _ & Ho & Hb). split; [done|]. intros slot Hk Hoc. by apply Hb.
Qed.

Lemma announce_ok drift name key previous current w :
  world_ok w → world_ok (put_root (announce drift name key previous current (wd_root w)) w).
Proof. intros Hok. apply root_ok; [| |done]; destruct drift; done. Qed.

(** The capabilities a push issues. *)
Lemma pushed_effect_ok x f callback async w :
  let c := cleanup_of (PubNothing callback async) 0 in
  x < root_next (wd_root w) → world_fibers w !! x = Some f → journal_wf (f_journal f) → (dl_sn (f_journal f) < u64_max)%Z →
  effect_ok (world_fibers (on x (push_cleanup c) w)) (root_next (wd_root w)) {| er_token := (dl_push (f_journal f) c).1; er_owner := x |}.
Proof.
  intros c Hx Hf Hwf Hlt. destruct (pushed_journal c f Hwf Hlt) as (Ht & Hsn & _ & Hlk).
  split; [done|]. intros g Hg. cbn [er_owner er_token] in *. rewrite (on_lookup _ _ _ _ Hf) in Hg. injection Hg as <-.
  split; [rewrite Hsn; lia|]. intros c'. rewrite Hlk, decide_True by done. intros [= <-]. by exists callback.
Qed.

Lemma pushed_pub_ok x f ctx svc value o w :
  let c := cleanup_of (PubService ctx svc value) o in
  let key := isolate_key ctx (sv_name svc) in
  x < root_next (wd_root w) → world_fibers w !! x = Some f → journal_wf (f_journal f) → (dl_sn (f_journal f) < u64_max)%Z →
  bound_ok x (root_next (wd_root w)) (services_of w) key svc o →
  pub_ok (world_fibers (on x (push_cleanup c) w)) (root_next (wd_root w)) (services_of w)
    {| sp_service := svc; sp_key := key; sp_occurrence := o; sp_owner := x; sp_cleanup := (dl_push (f_journal f) c).1 |}.
Proof.
  intros c key Hx Hf Hwf Hlt Hb. destruct (pushed_journal c f Hwf Hlt) as (Ht & Hsn & _ & Hlk).
  split; [done|]. split; [exact Hb|]. intros g Hg. cbn [sp_owner sp_cleanup] in *. rewrite (on_lookup _ _ _ _ Hf) in Hg. injection Hg as <-.
  split; [rewrite Hsn; lia|]. intros c'. rewrite Hlk, decide_True by done. by intros [= <-].
Qed.

Lemma section_step_ok x w w' : world_ok w → section_step x w = Some w' → world_ok w'.
Proof.
  intros Hok. unfold section_step. destruct (wd_sections w !! x) as [[p ph]|] eqn:Hsc; [|done].
  destruct (world_fibers w !! x) as [f|] eqn:Hf; [|done]. cbn [sc_phase sc_publication].
  pose proof (wo_fibers _ Hok _ _ Hf) as Hi. pose proof (fi_journal _ _ _ _ _ _ _ _ _ _ Hi) as Hwf.
  destruct ph as [| |o drift].
  - rewrite assert_can_register_spec. destruct (decide (gate_open f)) as [Hgate|Hgate]; intros [= <-].
    + by eapply recheck_ok.
    + assert (drifts x w (wd_root w)) as Hd.
      { split; try done; [apply Hok|apply slots_ext_refl|apply Hok|by intros key row]. }
      change (world_ok (leave_section x (put_root (wd_root w) w))).
      eapply refuse_ok; [done..|]. intros q o drift. rewrite Hsc. congruence.
  - destruct p as [callback async|ctx svc value].
    + intros [= <-]. by eapply publish_nothing_ok.
    + cbn [fresh_occurrence]. set (slot := {| ss_occurrence := _; ss_value := _; ss_contract := _; ss_fiber := _ |}).
      change (root_stores _) with (root_stores (wd_root w)) at 1.
      destruct (install x slot _ _ _) as [[[evicted drift]|e] so] eqn:Hin; intros [= <-].
      * by eapply publish_ok.
      * pose proof (install_spec _ _ x slot (isolate_key ctx (sv_name svc)) (sv_name svc) _ (wo_slots _ Hok) (wo_graph _ Hok)) as Hs.
        fold (services_of w) in Hs. rewrite Hin in Hs.
        assert (so = root_stores (wd_root w)) as -> by (destruct e as [[] ?]; by destruct Hs).
        apply (refuse_ok x f (with_stores (root_stores (wd_root w)) (bump (wd_root w)))); [done..|by apply bump_drifts|done|].
        intros q o drift. rewrite Hsc. congruence.
  - destruct (decide _) as [Hlt|]; [|done].
    pose proof (push_ok x f p o drift w Hok Hf Hlt Hsc) as Hok1.
    destruct p as [callback async|ctx svc value]; intros [= <-].
    + apply issued_ok; [done| |auto]. intros c [->|Hc]%elem_of_cons; [right|by left].
      pose proof (wo_heap _ Hok x ltac:(by eexists)) as Hx.
      exact (pushed_effect_ok x f callback async w Hx Hf Hwf Hlt).
    + apply issued_ok; [by apply announce_ok|auto|]. intros c [->|Hc]%elem_of_cons; [right|by left].
      unfold fiber_ok in Hi. rewrite Hsc in Hi. destruct (fi_section _ _ _ _ _ _ _ _ _ _ Hi) as (_ & _ & Hb).
      pose proof (pushed_pub_ok x f ctx svc value o w (wo_heap _ Hok x ltac:(by eexists)) Hf Hwf Hlt Hb) as Hp.
      match goal with |- context [announce ?d ?n ?k ?a ?b ?r1] =>
        assert (root_stores (announce d n k a b r1) = root_stores r1 ∧
                root_next (announce d n k a b r1) = root_next (wd_root w)) as [Hst Hn] by (by destruct d);
        set (r2 := announce d n k a b r1) in * end.
      change (pub_ok (root_heap r2) (root_next r2) (so_services (root_stores r2))
                {| sp_service := svc; sp_key := isolate_key ctx (sv_name svc); sp_occurrence := o; sp_owner := x;
                   sp_cleanup := (dl_push (f_journal f) (cleanup_of (PubService ctx svc value) o)).1 |}).
      unfold root_heap. rewrite Hn, Hst. exact Hp.
Qed.

(** * Exact controls *)

Lemma drifts_stores x w r1 r2 :
  drifts x w r1 → root_stores r2 = root_stores r1 → root_next r2 = root_next r1 → drifts x w r2.
Proof. intros [] Hs Hn. unfold root_heap in *. split; unfold root_heap; by rewrite ?Hs, ?Hn. Qed.

(** A step that changes or clears slots without installing any. *)
Lemma old_slots_ok x f w r' l :
  world_ok w → world_fibers w !! x = Some f → drifts x w r' →
  (∀ k slot, slots (so_services (root_stores r')) !! k = Some slot → old_slot (services_of w) k slot) →
  (∀ p, p ∈ l → p ∈ wd_removed w ∨ p ∈ wd_pubs w ∧
     gone (so_services (root_stores r')) (sp_key p) (sv_name (sp_service p)) (sp_occurrence p)) →
  world_ok (put_removed l (put_root r' w)).
Proof.
  intros Hok Hf Hd Hold Hl. apply (drifts_ok x f w r' (wd_sections w) l Hok Hf Hd); [done| |].
  - intros p [Hp|[Hp Hg]]%Hl; [by apply (removed_stay_gone x)|]. split; [apply elem_of_app; by left|done].
  - eapply fiber_inv_frame; [by apply (wo_fibers _ Hok)|done|apply Hd|apply Hd|]. by intros k slot Hk _; apply Hold.
Qed.

Lemma set_drifts x p v slot w :
  world_ok w → p ∈ wd_pubs w →
  slots (services_of w) !! (sp_key p, sv_name (sp_service p)) = Some slot → ss_occurrence slot = sp_occurrence p →
  let value := {| av_type := sv_type (sp_service p); av_payload := v |} in
  let so := set_slot (sp_key p, sv_name (sp_service p))
              {| ss_occurrence := sp_occurrence p; ss_value := value; ss_contract := ss_contract slot;
                 ss_fiber := ss_fiber slot |} (root_stores (wd_root w)) in
  drifts x w (with_stores so (wd_root w)) ∧ ∀ k s, slots (so_services so) !! k = Some s → old_slot (services_of w) k s.
Proof.
  intros Hok Hp Hs Ho value so.
  assert (∀ k s, slots (so_services so) !! k = Some s → old_slot (services_of w) k s) as Hold.
  { intros k s. cbn. intros [[<- <-]|[Hne Hk]]%lookup_insert_Some; [by exists slot|by exists s]. }
  split; [|exact Hold]. destruct (wo_slots _ Hok) as [Hb Hf].
  destruct (wo_pubs _ Hok p ltac:(apply elem_of_app; by left)) as (_ & [Hlt Hbd] & _).
  destruct (Hbd slot Hs Ho) as [_ Hc].
  split; try done; [|intros k s Hk; left; by apply Hold|apply Hok|by intros key row].
  split.
  - intros key name s. cbn. intros [[[= <- <-] <-]|[_ Hk]]%lookup_insert_Some; [|by apply (Hb key)].
    split; [|done]. cbn. destruct (Hb _ _ _ Hs) as [Hbn _]. exact Hbn.
  - intros k s. cbn. intros [[<- <-]|[_ Hk]]%lookup_insert_Some; [done|by apply (Hf k)].
Qed.

Lemma op_set_ok i v w w' : world_ok w → step (OpSet i v) w = Some w' → world_ok w'.
Proof.
  intros Hok. cbn [step]. destruct (wd_pubs w !! i) as [p|] eqn:Hp; [|done]. cbn [mbind option_bind]. intros [= <-].
  apply list_elem_of_lookup_2 in Hp. unfold publication_set. set (value := {| av_type := _; av_payload := _ |}).
  pose proof (set_exact_spec (sp_key p) (sv_name (sp_service p)) (sp_occurrence p) (sp_owner p) value (root_stores (wd_root w))) as H.
  destruct (set_exact _ _ _ _ _ _) as [[outgoing|[e v']] so]; cbn [snd].
  - destruct H as (slot & Hs & Ho & _ & _ & ->).
    destruct (wo_owners _ Hok _ _ Hs) as [f Hf].
    destruct (set_drifts (ss_fiber slot) p v slot w Hok Hp Hs Ho) as [Hd Hold].
    apply (old_slots_ok (ss_fiber slot) f w _ (wd_removed w) Hok Hf Hd Hold). auto.
  - assert (so = root_stores (wd_root w)) as -> by (destruct e; by destruct H). by apply root_ok.
Qed.

Lemma remove_step_ok p w : world_ok w → p ∈ wd_pubs w → world_ok (remove_step p w).
Proof.
  intros Hok Hp. unfold remove_step.
  pose proof (remove_exact_spec (sp_key p) (sv_name (sp_service p)) (sp_occurrence p) (sp_owner p) (root_stores (wd_root w))) as H.
  destruct (remove_exact _ _ _ _ _) as [[[slot drift]|e] so].
  - destruct H as (Hs & Ho & Hreg & Hc & Hsl & Hd).
    assert (fewer_slots {| so_services := services_of w; so_graph := so_graph so |} so) as Hfew.
    { split; [done..|]. intros k s. rewrite Hsl. intros [_ Hk]%lookup_delete_Some. exact Hk. }
    destruct (world_fibers w !! sp_owner p) as [f|] eqn:Hf.
    2: { unfold can_register in Hreg. change (gr_fibers (so_graph (root_stores (wd_root w)))) with (world_fibers w) in Hreg. by rewrite Hf in Hreg. }
    destruct (drift_if_drifts (is_active (gr_fibers (graph_of w)) (sp_owner p)) _ _ [(sv_name (sp_service p), sp_key p)] (wo_graph _ Hok)) as (Hg & Ha & Hr & Hrows).
    unfold graph_of in *. rewrite <- Hd in *.
    assert (drifts (sp_owner p) w (with_stores so (wd_root w))) as Hdr.
    { split; try done; [eapply slots_wf_fewer; [exact Hfew|apply Hok]|by eapply (fewer_slots_ext _ _ _ _ Hfew)]. }
    pose proof (announce_spec drift (sv_name (sp_service p)) (sp_key p) (Some (sp_occurrence p)) None (with_stores so (wd_root w))) as [Hst _].
    assert (root_next (announce drift (sv_name (sp_service p)) (sp_key p) (Some (sp_occurrence p)) None (with_stores so (wd_root w))) = root_next (wd_root w)) as Hn
      by (by destruct drift).
    apply (old_slots_ok (sp_owner p) f w _ _ Hok Hf (drifts_stores _ _ _ _ Hdr Hst Hn)).
    + intros k s. rewrite Hst. intros Hk%(fs_slots _ _ Hfew). by exists s.
    + intros q [->|Hq]%elem_of_cons; [|by left]. right. split; [done|]. rewrite Hst. intros s. cbn. rewrite Hsl, lookup_delete_eq. done.
  - assert (so = root_stores (wd_root w)) as -> by (destruct e; by destruct H). by apply root_ok.
Qed.

(** * Creations *)

(** A change of [x] in place that may also allocate identities and serve [x]. *)
Record grows (x : Addr) (f f' : Fiber) (w w' : World) : Prop := {
  gr_after : world_fibers w' = <[ x := f' ]> (world_fibers w);
  gr_static : static f f';
  gr_journal : f_journal f' = f_journal f;
  gr_main : wd_main w' = wd_main w;
  gr_next : root_next (wd_root w) ≤ root_next (wd_root w');
  gr_services : services_of w' = services_of w;
  gr_registry' : gr_registry (graph_of w') = gr_registry (graph_of w);
  gr_graph : graph_wf (wd_served w') (graph_of w');
  gr_rows : rows_below (root_next (wd_root w')) (ix_reverse (gr_deps (graph_of w')));
  gr_served : ∀ y, y ≠ x → (y ∈ wd_served w' ↔ y ∈ wd_served w);
  gr_drivers : wd_drivers w' = wd_drivers w;
  gr_running : wd_running w' = wd_running w;
  gr_sections : wd_sections w' = wd_sections w;
  gr_caps : wd_effects w' = wd_effects w ∧ wd_pubs w' = wd_pubs w ∧ wd_removed w' = wd_removed w;
}.

Lemma grows_ok x f f' w w' :
  world_ok w → world_fibers w !! x = Some f → grows x f f' w w' →
  fiber_inv (bool_decide (x = wd_main w)) (bool_decide (x ∈ wd_served w')) (is_resident w x)
    (root_next (wd_root w')) (services_of w) (wd_drivers w !! x) (wd_running w !! x) (wd_sections w !! x) x f' →
  world_ok w'.
Proof.
  intros Hok Hf Hg Hx.
  assert (∀ y, is_resident w' y = is_resident w y) as Hres
    by (intros y; unfold is_resident; by rewrite (gr_registry' _ _ _ _ _ Hg)).
  assert (local_change x w w') as Hlc.
  { split; rewrite ?(gr_drivers _ _ _ _ _ Hg), ?(gr_running _ _ _ _ _ Hg), ?(gr_sections _ _ _ _ _ Hg),
      ?(gr_after _ _ _ _ _ Hg), ?(gr_services _ _ _ _ _ Hg); try done; try apply Hg.
    - apply slots_ext_refl.
    - intros y Hne. rewrite lookup_insert_ne by done. destruct (world_fibers w !! y); constructor. apply like_refl.
    - intros g. rewrite lookup_insert_eq. intros [= <-]. exists f. split; [done|]. apply journal_ext_same, Hg.
    - rewrite lookup_insert_eq. by eexists. }
  eapply local_ok; [exact Hok|exact Hlc| | | |].
  - rewrite (gr_services _ _ _ _ _ Hg). eapply slots_wf_mono; [apply Hok|apply Hg].
  - split; [apply Hg..|]. rewrite (gr_registry' _ _ _ _ _ Hg).
    eapply registry_ok_static; [|apply (wo_registry _ Hok)]. intros y. rewrite (gr_after _ _ _ _ _ Hg).
    destruct (decide (y = x)) as [->|Hne]; [rewrite lookup_insert_eq, Hf; constructor; apply Hg|].
    rewrite lookup_insert_ne by done. destruct (world_fibers w !! y); by constructor.
  - destruct (gr_caps _ _ _ _ _ Hg) as (? & ? & ?). by eapply local_caps.
  - intros g. rewrite (gr_after _ _ _ _ _ Hg), lookup_insert_eq. intros [= <-]. unfold fiber_ok.
    by rewrite Hres, (gr_main _ _ _ _ _ Hg), (gr_drivers _ _ _ _ _ Hg), (gr_running _ _ _ _ _ Hg), (gr_sections _ _ _ _ _ Hg),
      (gr_services _ _ _ _ _ Hg).
Qed.

Lemma position_ok_installed d f s run sc :
  f_installed (set_f_spawn s f) = true → position_ok false d f run sc → position_ok false d (set_f_spawn s f) run sc.
Proof.
  intros Hin. unfold position_ok, quiet, drained_to. change (fiber_state (set_f_spawn s f)) with (fiber_state f).
  assert (∀ k, kont_ok k f → kont_ok k (set_f_spawn s f)) by (intros []; cbn; intros; naive_solver).
  destruct d as [[]|]; cbn; naive_solver.
Qed.

(** The spawn record of [x] is set, and identities are allocated. *)
Lemma set_spawn_ok x st f r w :
  world_ok w → x ≠ wd_main w → world_fibers w !! x = Some f →
  root_stores r = root_stores (wd_root w) → root_next (wd_root w) ≤ root_next r →
  world_ok (on x (set_f_spawn (Some st)) (put_root r w)).
Proof.
  intros Hok Hm Hf Hr Hle. destruct r as [mb n so kicked observed]. cbn in Hr, Hle. subst so.
  set (f' := set_f_spawn (Some st) f).
  pose proof (wo_fibers _ Hok _ _ Hf) as Hi. unfold fiber_ok in Hi. rewrite (bool_decide_false _ Hm) in Hi.
  apply (grows_ok x f f' w); [done..| |].
  - assert (alter (set_f_spawn (Some st)) x (world_fibers w) = <[ x := f' ]> (world_fibers w)) as Hh
      by (by apply alter_insert_some).
    split; try done; cbn.
    + rewrite (alter_insert_some _ _ _ f) by done. by apply graph_wf_update with (f := f); [apply Hok|..].
    + intros key d Hd%(wo_rows _ Hok). lia.
  - rewrite (bool_decide_false _ Hm). change (wd_served (on _ _ _)) with (wd_served w).
    assert (∀ c, entry_ok x (root_next (wd_root w)) (services_of w) c → entry_ok x n (services_of w) c) as He.
    { intros c. apply (entry_ok_ext x x); [done|apply slots_ext_refl]. }
    split; try apply Hi; try done.
    + apply position_ok_installed; [done|]. apply Hi.
    + intros t c Hc. apply He. by apply (fi_entries _ _ _ _ _ _ _ _ _ _ Hi t).
    + intros c Hc. apply He. by apply (fi_run_entry _ _ _ _ _ _ _ _ _ _ Hi).
    + eapply (section_ok_ext x x); [exact Hle|apply slots_ext_refl|]. apply Hi.
    + intros Hsv. split; [done|]. apply (fi_served _ _ _ _ _ _ _ _ _ _ Hi Hsv).
    + intros Ha. by right.
Qed.

Lemma spawn_record_ok x ctx p seal w w' :
  world_ok w → x ≠ wd_main w → spawn_record x ctx p seal w = Some w' → world_ok w'.
Proof.
  intros Hok Hm. unfold spawn_record. destruct (root_heap (wd_root w) !! x) as [f|] eqn:Hf; [|done].
  cbn [mbind option_bind fresh_occurrence]. set (incoming := {| st_plugin := _ |}).
  destruct (f_spawn f) as [?|] eqn:Hs; cbn [spawn_install]; [done|]. intros [= <-].
  apply (set_spawn_ok x incoming f); try done. cbn. lia.
Qed.

Lemma commit_input_ok x w w' : world_ok w → x ≠ wd_main w → commit_input x w = Some w' → world_ok w'.
Proof.
  intros Hok Hm. unfold commit_input. destruct (world_fibers w !! x) as [f|] eqn:Hf; [|done]. cbn [mbind option_bind].
  destruct (f_spawn f) as [st|]; [|done]. cbn [mbind option_bind fresh_occurrence]. intros [= <-].
  apply (set_spawn_ok x _ f); try done. cbn. lia.
Qed.

Lemma spawn_index_ok x w w' : world_ok w → spawn_index x w = Some w' → world_ok w'.
Proof.
  intros Hok. unfold spawn_index. destruct (gr_fibers (so_graph (root_stores (wd_root w))) !! x) as [f|] eqn:Hf; [|done].
  cbn [mbind option_bind]. destruct (f_installed f) eqn:Hin; [|done]. intros [= <-].
  change (world_fibers w !! x = Some f) in Hf. pose proof (wo_graph _ Hok) as [Hix Hc].
  destruct (f_alive f) eqn:Ha.
  - apply (grows_ok x f f w); [done..| |].
    + split; try done; cbn.
      * by rewrite insert_id.
      * split; cbn; [by apply register_wf|]. unfold graph_of in Hc. unfold register. by rewrite Hc, Ha.
      * intros key d. unfold register. unfold graph_of in Hc. rewrite Hc, Ha. cbn.
        intros [Hd|[-> _]]%rows_at_push_all; [by apply (wo_rows _ Hok) in Hd|]. apply (wo_heap _ Hok). by exists f.
      * intros y Hne. set_solver.
    + pose proof (wo_fibers _ Hok _ _ Hf) as Hi. unfold fiber_ok in Hi. cbn [put_served wd_served].
      split; try apply Hi. intros _. split; [done|]. by left.
  - apply root_ok; [|done|done]. cbn. unfold register. rewrite Ha. cbn. unfold graph_of in Hc. rewrite Hc.
    by destruct (root_stores (wd_root w)) as [? []].
Qed.

(** * The Registry *)

Lemma update_registry_ok reg w :
  world_ok w → registry_wf (world_fibers w) reg → groups_used reg →
  rg_residents reg = rg_residents (gr_registry (graph_of w)) → world_ok (update_registry reg w).
Proof.
  intros Hok Hwf Hu Hres. pose proof (wo_graph _ Hok) as [Hix Hc].
  split; try first [exact (wo_main _ Hok)|apply Hok]; [by split|done|].
  intros x f Hf. unfold fiber_ok, is_resident. cbn. rewrite Hres. by apply (wo_fibers _ Hok).
Qed.

Lemma op_detach_ok doomed key w w' : world_ok w → step (OpDetach doomed key) w = Some w' → world_ok w'.
Proof.
  intros Hok. cbn [step]. destruct (wo_registry _ Hok) as [Hwf Hu]. unfold graph_of in *.
  destruct (detach_for_removal_spec doomed _ _ key Hwf Hu) as (out & reg & Hd & Hwf' & Hu' & _). rewrite Hd.
  cbn [mbind option_bind]. intros [= <-]. apply update_registry_ok; [done..|].
  revert Hd. unfold detach_for_removal. destruct (rg_allocations _ !! key); [|by intros [= _ <-]].
  destruct (rg_groups _ !! _); [|done]. by destruct (refuse_group_removal_recursion _ _); intros [= _ <-].
Qed.

Lemma op_finish_ok a w w' : world_ok w → step (OpFinish a) w = Some w' → world_ok w'.
Proof.
  intros Hok. cbn [step]. intros [= <-]. destruct (wo_registry _ Hok) as [Hwf Hu].
  destruct (finish_removal_spec _ _ a Hwf Hu) as (Hwf' & Hu' & _). apply update_registry_ok; [done..|].
  unfold finish_removal. by destruct (rg_groups _ !! a) as [[? []]|].
Qed.

(** ** Queries of the dependency index *)

Lemma query_spec served g edges :
  graph_wf served g →
  let g' := (dependents_for_edges_with_retention g edges).2 in
  graph_wf served g' ∧ gr_fibers g' = gr_fibers g ∧ gr_registry g' = gr_registry g ∧ rows_subset g g'.
Proof.
  intros [Hix Hc]. unfold dependents_for_edges_with_retention.
  destruct (dependents_of_spec _ _ _ edges Hix Hc) as (l & ix' & Heq & Hc' & Hix' & _).
  pose proof (dependents_of_rows (gr_fibers g) (gr_deps g) edges) as Hrows. rewrite Heq in *. by split.
Qed.

Lemma query_index_ok edges w : world_ok w → world_ok (query_index edges w).
Proof.
  intros Hok. destruct (query_spec _ _ edges (wo_graph _ Hok)) as (Hg & Hh & Hreg & Hrows).
  set (w' := query_index edges w).
  assert (world_fibers w' = world_fibers w) as Hf by (unfold world_fibers, root_heap; cbn; exact Hh).
  assert (gr_registry (graph_of w') = gr_registry (graph_of w)) as Hr by exact Hreg.
  split; rewrite ?Hf, ?Hr; try first [exact Hg|exact (wo_main _ Hok)|apply Hok].
  - intros key d Hd%Hrows. by apply (wo_rows _ Hok) in Hd.
  - intros x f Hx. unfold fiber_ok, is_resident. rewrite Hr. by apply (wo_fibers _ Hok).
Qed.

(** ** Attachment of a fresh Fiber *)

Lemma attach_fresh heap reg key x f heap' reg' :
  registry_wf heap reg → groups_used reg → heap !! x = None → f_residency f = None →
  attach_fiber (<[ x := f ]> heap) reg key x = Some (heap', reg') →
  (∃ c, heap' = <[ x := set_f_residency (Some c) f ]> heap) ∧ registry_wf heap' reg' ∧ groups_used reg' ∧
  ∀ y, y ∈ rg_residents reg' ↔ y ∈ rg_residents reg ∨ y = x.
Proof.
  intros Hwf Hu Hx Hres Hat.
  assert (registry_wf (<[ x := f ]> heap) reg) as Hwf1.
  { apply (registry_wf_ext heap); [|done]. intros y. unfold claim_of.
    destruct (decide (y = x)) as [->|Hne]; [by rewrite lookup_insert_eq, Hx|by rewrite lookup_insert_ne]. }
  assert (x ∉ rg_residents reg) as Hnr.
  { intros [c Hc]%(rw_resident _ _ Hwf). unfold claim_of in Hc. by rewrite Hx in Hc. }
  destruct (attach_fiber_spec _ _ key x Hwf1 Hu Hnr ltac:(rewrite lookup_insert_eq; by eexists))
    as (h & r & Heq & Hwf' & Hu' & _ & Hrows).
  rewrite Heq in Hat. injection Hat as <- <-. split_and!; [|done..|].
  - revert Heq. unfold attach_fiber. destruct (current_allocation reg key) as [a r1]. rewrite lookup_insert_eq, Hres.
    intros [= <- _]. eexists. by rewrite insert_insert_eq.
  - intros y. rewrite <- (rows_of_fibers _ _ Hwf'), <- (rows_of_fibers _ _ Hwf1), Hrows, fmap_app, elem_of_app.
    cbn. by rewrite list_elem_of_singleton.
Qed.

(** The invariant of a fresh Fiber. *)
Lemma fresh_fiber_inv next st x name edges c :
  (∀ k slot, slots st !! k = Some slot → ss_fiber slot ≠ x) →
  fiber_inv false false true next st None None None x
    (set_f_residency (Some c) (set_f_creation_pending true (Fiber_new_with_edges x name edges))).
Proof.
  intros Hs. split; try done.
  - apply DisposableList_new_wf.
  - split; [done|]. split; [by right; left|]. split; [|by intros []]. intros _. split; [done|]. by split; [|intros []].
  - intros key n slot Hk Hx. by destruct (Hs _ _ Hk).
Qed.

Lemma spawn_attach_ok ctx p o w w' : world_ok w → spawn_attach ctx p o w = Some w' → world_ok w'.
Proof.
  intros Hok. unfold spawn_attach. set (x := root_next (wd_root w)). destruct (_ && _); [done|].
  set (f := set_f_creation_pending true _). change (gr_fibers (so_graph (root_stores (wd_root w)))) with (world_fibers w).
  destruct (attach_fiber _ _ _ _) as [[heap reg]|] eqn:Hat; [|done]. cbn [mbind option_bind]. intros [= <-].
  destruct (wo_registry _ Hok) as [Hwf Hu].
  assert (world_fibers w !! x = None) as Hx.
  { apply eq_None_not_Some. intros Hs%(wo_heap _ Hok). unfold x in Hs. lia. }
  destruct (attach_fresh _ _ _ x f _ _ Hwf Hu Hx eq_refl Hat) as ([c ->] & Hwf' & Hu' & Hres). clear Hat.
  set (f' := set_f_residency (Some c) f) in *. set (w' := put_root _ w).
  assert (world_fibers w' = <[ x := f' ]> (world_fibers w)) as Hh by done.
  assert (root_next (wd_root w') = S x ∧ services_of w' = services_of w) as [Hn Hsv] by done.
  assert (∀ y, is_Some (world_fibers w !! y) → is_Some (world_fibers w' !! y)) as Hup.
  { intros y Hy. rewrite Hh. destruct (decide (y = x)) as [->|]; [rewrite lookup_insert_eq; by eexists|by rewrite lookup_insert_ne]. }
  assert (∀ y g, y ≠ x → world_fibers w' !! y = Some g → world_fibers w !! y = Some g) as Hold
    by (intros y g Hne; rewrite Hh, lookup_insert_ne; done).
  assert (∀ y, is_Some (world_fibers w !! y) → y ≠ x) as Hne by (intros y [g Hg] ->; congruence).
  split; rewrite ?Hn, ?Hsv.
  - eapply slots_wf_mono; [apply Hok|unfold x; lia].
  - intros k slot Hs. by eapply Hup, (wo_owners _ Hok).
  - pose proof (wo_graph _ Hok) as [Hix Hc]. split; [|done]. eapply index_wf_heap; [exact Hix|].
    change (gr_fibers (graph_of w')) with (world_fibers w'). rewrite Hh.
    intros y g [[<- <-]|[_ Hy]]%lookup_insert_Some; [right|left; by exists g].
    split_and!; [done|intros Hs%(wo_served _ Hok)%Hne; done|].
    intros key d Hd%(wo_rows _ Hok). unfold x. lia.
  - intros key d Hd%(wo_rows _ Hok). unfold x. lia.
  - intros y. rewrite Hh. intros [<-|Hy]%lookup_insert_is_Some'; [lia|]. apply (wo_heap _ Hok) in Hy. unfold x. lia.
  - intros y Hy. apply Hup. by apply (wo_served _ Hok).
  - done.
  - apply Hup, (wo_main _ Hok).
  - intros y Hy. by apply Hup, (wo_drivers _ Hok).
  - intros y Hy. by apply Hup, (wo_running _ Hok).
  - intros y Hy. by apply Hup, (wo_sections _ Hok).
  - intros y g Hy. unfold fiber_ok. rewrite Hn, Hsv. destruct (decide (y = x)) as [->|Hyx].
    + rewrite Hh, lookup_insert_eq in Hy. injection Hy as <-.
      change (wd_main w') with (wd_main w). change (wd_served w') with (wd_served w).
      change (wd_drivers w') with (wd_drivers w). change (wd_running w') with (wd_running w).
      change (wd_sections w') with (wd_sections w).
      rewrite (bool_decide_false (x = wd_main w)) by (intros He; by apply (Hne _ (wo_main _ Hok))).
      rewrite (bool_decide_false (x ∈ wd_served w)) by (by intros Hs%(wo_served _ Hok)%Hne).
      assert (is_resident w' x = true) as -> by (apply bool_decide_eq_true_2, Hres; by right).
      assert (wd_drivers w !! x = None) as -> by (apply eq_None_not_Some; by intros Hs%(wo_drivers _ Hok)%Hne).
      assert (wd_running w !! x = None) as -> by (apply eq_None_not_Some; by intros Hs%(wo_running _ Hok)%Hne).
      assert (wd_sections w !! x = None) as -> by (apply eq_None_not_Some; by intros Hs%(wo_sections _ Hok)%Hne).
      apply fresh_fiber_inv. intros k slot Hs%(wo_owners _ Hok). by apply Hne.
    + pose proof (wo_fibers _ Hok _ _ (Hold _ _ Hyx Hy)) as Hi. unfold fiber_ok in Hi.
      assert (is_resident w' y = is_resident w y) as -> by
        (apply bool_decide_ext; change (y ∈ rg_residents reg ↔ y ∈ rg_residents (gr_registry (graph_of w)));
         rewrite Hres; tauto).
      eapply fiber_inv_frame; [exact Hi|done|unfold x; lia|apply (slots_ext_refl x)|].
      intros k slot Hk _. by exists slot.
  - intros e He. destruct (wo_effects _ Hok e He) as [Hlt Hf]. split; [unfold x; lia|].
    intros g Hg. apply Hf, Hold; [unfold x; lia|done].
  - intros q Hq. destruct (wo_pubs _ Hok q Hq) as (Hlt & [Hb1 Hb2] & Hf). split; [unfold x; lia|].
    split; [split; [unfold x; lia|done]|]. intros g Hg. apply Hf, Hold; [unfold x; lia|done].
  - apply Hok.
Qed.

(** ** Release of the memory *)

(** A Fiber the Registry has let go of, and that no pass drives, holds nothing. *)
Lemma forgotten_holds_nothing w x f :
  world_ok w → world_fibers w !! x = Some f → is_resident w x = false → x ≠ wd_main w → wd_drivers w !! x = None →
  fiber_state f = Disposed ∧ quiet f (wd_running w !! x) (wd_sections w !! x) ∧ (x ∉ wd_served w) ∧
  ∀ k slot, slots (services_of w) !! k = Some slot → ss_fiber slot ≠ x.
Proof.
  intros Hok Hf Hr Hm Hd. pose proof (wo_fibers _ Hok _ _ Hf) as Hi. unfold fiber_ok in Hi.
  rewrite (bool_decide_false _ Hm), Hd in Hi.
  destruct (fi_resident _ _ _ _ _ _ _ _ _ _ Hi Hr) as [?|(Hst & _)]; [done|].
  destruct (fi_position _ _ _ _ _ _ _ _ _ _ Hi) as (_ & _ & Hq & _).
  assert (quiet f (wd_running w !! x) (wd_sections w !! x)) as Hquiet by (apply Hq; right; by right).
  split; [done|]. split; [done|]. split.
  - intros Hs. pose proof (fi_dead _ _ _ _ _ _ _ _ _ _ Hi Hst).
    destruct (fi_served _ _ _ _ _ _ _ _ _ _ Hi) as [_ [?|[o ?]]]; [by apply bool_decide_eq_true_2|congruence|done].
  - intros [key name] slot Hs Hx. destruct Hquiet as (Hj & Hrun & Hpc).
    destruct (fi_covered _ _ _ _ _ _ _ _ _ _ Hi _ _ _ Hs Hx) as [(t & c & Ht & _)|[(c & ? & _)|(p & dr & Hsc & _)]].
    + by rewrite Hj in Ht.
    + congruence.
    + by rewrite Hsc in Hpc; apply Hpc.
Qed.

Lemma op_drop_ok x w w' : world_ok w → step (OpDrop x) w = Some w' → world_ok w'.
Proof.
  intros Hok. cbn [step]. destruct (_ && _) eqn:Hg; [|done]. intros [= <-].
  apply andb_true_iff in Hg as [[[Hr%bool_decide_eq_true_1 Hm%negb_true_iff%bool_decide_eq_false_1]%andb_true_iff
    Hd%bool_decide_eq_true_1]%andb_true_iff Hu%bool_decide_eq_true_1].
  set (w' := put_root _ w). assert (world_fibers w' = delete x (world_fibers w)) as Hh by done.
  assert (∀ y g, world_fibers w' !! y = Some g → y ≠ x ∧ world_fibers w !! y = Some g) as Hold.
  { intros y g. rewrite Hh. intros [? ?]%lookup_delete_Some. done. }
  destruct (wo_registry _ Hok) as [Hwf Hgu].
  assert (∀ y, y = x → is_Some (world_fibers w !! y) →
    ∃ f, world_fibers w !! x = Some f ∧ quiet f (wd_running w !! x) (wd_sections w !! x) ∧ (x ∉ wd_served w) ∧
    ∀ k slot, slots (services_of w) !! k = Some slot → ss_fiber slot ≠ x) as Hgone.
  { intros y -> [f Hf]. exists f. split; [done|].
    assert (is_resident w x = false) as Hres by (by apply bool_decide_eq_false_2).
    by destruct (forgotten_holds_nothing w x f Hok Hf Hres Hm Hd) as (_ & ? & ? & ?). }
  assert (∀ y, is_Some (world_fibers w !! y) → y ≠ x → is_Some (world_fibers w' !! y)) as Hkeep
    by (intros y Hy Hne; by rewrite Hh, lookup_delete_ne).
  assert (heap_ext (world_fibers w) (world_fibers w')) as Hext.
  { intros y g [_ Hy]%Hold. exists g. split; [done|]. by apply journal_ext_same. }
  split; try first [exact (wo_slots _ Hok)|exact (wo_rows _ Hok)|exact (wo_removed _ Hok)].
  - intros k slot Hs. pose proof (wo_owners _ Hok _ _ Hs) as Ho. apply Hkeep; [done|]. intros Hx.
    destruct (Hgone _ Hx Ho) as (f & _ & _ & _ & Hn). by apply (Hn _ _ Hs).
  - pose proof (wo_graph _ Hok) as [Hix Hc]. split; [|done]. eapply index_wf_heap; [exact Hix|].
    intros y g [_ Hy]%Hold. left. by exists g.
  - intros y [g [_ Hy]%Hold]. apply (wo_heap _ Hok). by exists g.
  - intros y Hy. pose proof (wo_served _ Hok _ Hy) as Ho. apply Hkeep; [done|]. intros ->.
    by destruct (Hgone _ eq_refl Ho) as (f & _ & _ & Hn & _).
  - split; [|done]. apply (registry_wf_ext (world_fibers w)); [|done]. intros y. rewrite Hh. unfold claim_of.
    destruct (decide (y = x)) as [->|Hne]; [|by rewrite lookup_delete_ne]. rewrite lookup_delete_eq.
    symmetry. apply (not_resident_unclaimed _ _ Hwf x Hr).
  - apply Hkeep; [apply (wo_main _ Hok)|]. intros He. by apply Hm.
  - intros y Hy. apply Hkeep; [by apply (wo_drivers _ Hok)|]. intros ->. destruct Hy as [d Hy].
    change (wd_drivers w !! x = Some d) in Hy. congruence.
  - intros y Hy. pose proof (wo_running _ Hok _ Hy) as Ho. apply Hkeep; [done|]. intros ->.
    destruct (Hgone _ eq_refl Ho) as (f & _ & (_ & Hn & _) & _). destruct Hy as [c Hy].
    change (wd_running w !! x = Some c) in Hy. congruence.
  - intros y Hy. apply Hkeep; [by apply (wo_sections _ Hok)|]. intros ->. destruct Hy as [c Hy].
    change (wd_sections w !! x = Some c) in Hy. congruence.
  - intros y g [Hne Hy]%Hold. exact (wo_fibers _ Hok _ _ Hy).
  - intros e He. eapply effect_ok_ext; [exact Hext|done|]. by apply (wo_effects _ Hok).
  - intros p Hp. eapply (pub_ok_ext x); [exact Hext|done|apply slots_ext_refl|]. by apply (wo_pubs _ Hok).
Qed.

(** * Every reachable world *)

Theorem step_ok op w w' : world_ok w → step op w = Some w' → world_ok w'.
Proof.
  intros Hok. destruct op as [ctx p o|x ctx p seal|x|x m o|x o|x e|x|x|x|x m|edges|x rq|x|i v|i|i|i|doomed key|a|x|x].
  - by apply spawn_attach_ok.
  - cbn [step]. destruct (decide _); [done|]. by apply spawn_record_ok.
  - by apply spawn_index_ok.
  - by apply op_settle_ok.
  - by apply op_teardown_ok.
  - by apply drive_ok.
  - by apply op_run_end_ok.
  - by apply op_cancel_ok.
  - by apply op_replace_ok.
  - by apply op_mark_ok.
  - cbn [step]. intros [= <-]. by apply query_index_ok.
  - by apply enter_section_ok.
  - by apply section_step_ok.
  - by apply op_set_ok.
  - cbn [step]. destruct (wd_pubs w !! i) as [p|] eqn:Hp; [|done]. cbn [mbind option_bind]. intros [= <-].
    apply remove_step_ok; [done|]. by eapply list_elem_of_lookup_2.
  - by apply op_claim_ok.
  - by apply op_effect_claim_ok.
  - by apply op_detach_ok.
  - by apply op_finish_ok.
  - by apply op_drop_ok.
  - cbn [step]. destruct (decide _); [done|]. by apply commit_input_ok.
Qed.

Lemma run_ok ops w w' : world_ok w → run ops w = Some w' → world_ok w'.
Proof.
  revert w. induction ops as [|op ops IH]; intros w Hok; cbn [run]; [by intros [= <-]|].
  destruct (step op w) as [w1|] eqn:Hs; [|done]. cbn [mbind option_bind]. apply IH. by eapply step_ok.
Qed.
