(* ===== verification/GenerationEffect.v ===== *)
(** What one step of the Runtime (Generation.v) does to the Service store: occurrences
    are fresh or old, contracts stay, and a slot changes visibility only together with
    the recheck commit of its dependents. *)
From S2P Require Import Prelude Axes BTree Lifecycle Journal EventStore Observation Plugin Fiber Registry Deps Services Generation GenerationInv GenerationOps.

(** * Effects *)

Definition occurrence_at (w : World) (key : RealmKey) (name : string) : option Addr :=
  occurrence_id (root_stores (wd_root w)) key name.

(** Each Fiber the index serves for the slot has another recheck revision, if it is
    still allocated. *)
Definition dependents_recommitted (w w' : World) (key : RealmKey) (name : string) : Prop :=
  ∀ y f f', y ∈ wd_served w → world_fibers w !! y = Some f → declares [(name, key)] f →
    world_fibers w' !! y = Some f' → f_committed f' ≠ f_committed f.

Record step_effect (w w' : World) : Prop := {
  ef_next : root_next (wd_root w) ≤ root_next (wd_root w');
  ef_slots : ∀ k slot, slots (services_of w') !! k = Some slot →
    old_slot (services_of w) k slot ∨ root_next (wd_root w) ≤ ss_occurrence slot;
  ef_contracts : ∀ n t, contracts (services_of w) !! n = Some t → contracts (services_of w') !! n = Some t;
  ef_commits : ∀ key name, occurrence_at w key name ≠ occurrence_at w' key name → dependents_recommitted w w' key name;
}.

Definition sees (f : Fiber) : bool := f_alive f && bool_decide (fiber_state f = Active).

(** Nothing happens to slots, to visibility and to revisions. *)
Record calm (w w' : World) : Prop := {
  cm_next : root_next (wd_root w) ≤ root_next (wd_root w');
  cm_services : services_of w' = services_of w;
  cm_fibers : ∀ y, option_Forall2 (λ f f', sees f' = sees f ∧ f_committed f' = f_committed f ∧ f_edges f' = f_edges f)
                     (world_fibers w !! y) (world_fibers w' !! y);
}.

Lemma visible_sees h slot : visible h slot = match h !! ss_fiber slot with Some f => sees f | None => false end.
Proof. done. Qed.

Lemma calm_visible w w' slot : calm w w' → visible (world_fibers w') slot = visible (world_fibers w) slot.
Proof. intros Hc. rewrite !visible_sees. by destruct (cm_fibers _ _ Hc (ss_fiber slot)) as [f f' (? & _)|]. Qed.

(** Visibility is decided by the slots and by their owners. *)
Lemma occurrence_at_same w w' :
  services_of w' = services_of w →
  (∀ k slot, slots (services_of w) !! k = Some slot → visible (world_fibers w') slot = visible (world_fibers w) slot) →
  ∀ key name, occurrence_at w' key name = occurrence_at w key name.
Proof.
  intros Hsv Hv key name. unfold occurrence_at, occurrence_id. fold (services_of w) (services_of w'). rewrite Hsv.
  destruct (slots (services_of w) !! (key, name)) as [slot|] eqn:Hs; [|done].
  change (gr_fibers (so_graph (root_stores (wd_root w')))) with (world_fibers w').
  change (gr_fibers (so_graph (root_stores (wd_root w)))) with (world_fibers w). by rewrite (Hv _ _ Hs).
Qed.

Lemma same_services_effect w w' :
  root_next (wd_root w) ≤ root_next (wd_root w') → services_of w' = services_of w →
  (∀ k slot, slots (services_of w) !! k = Some slot → visible (world_fibers w') slot = visible (world_fibers w) slot) →
  step_effect w w'.
Proof.
  intros Hn Hsv Hv. split; [done| | |].
  - rewrite Hsv. intros k slot Hk. left. by exists slot.
  - by rewrite Hsv.
  - intros key name []. by rewrite (occurrence_at_same w w').
Qed.

Lemma calm_effect w w' : calm w w' → step_effect w w'.
Proof. intros Hc. apply same_services_effect; try apply Hc. intros k slot _. by apply calm_visible. Qed.

#[export] Instance calm_refl : Reflexive calm.
Proof. intros w. split; [done..|]. intros y. by destruct (world_fibers w !! y); constructor. Qed.

Lemma calm_occurrence w w' key name : calm w w' → occurrence_at w' key name = occurrence_at w key name.
Proof. intros Hc. apply occurrence_at_same; [apply Hc|]. intros k slot _. by apply calm_visible. Qed.

(** An effect between calm changes. *)
Lemma calm_around w w1 w2 w' :
  calm w w1 → wd_served w1 = wd_served w → step_effect w1 w2 → calm w2 w' → step_effect w w'.
Proof.
  intros H1 Hsv [Hn Hs Hc He] H2.
  pose proof (cm_services _ _ H1) as E1. pose proof (cm_services _ _ H2) as E2.
  pose proof (cm_next _ _ H1) as L1. pose proof (cm_next _ _ H2) as L2. split.
  - lia.
  - rewrite E2, <- E1. intros k slot Hk. destruct (Hs k slot Hk) as [?|?]; [by left|right; lia].
  - rewrite E2, <- E1. exact Hc.
  - intros key name. rewrite (calm_occurrence _ _ key name H2), <- (calm_occurrence _ _ key name H1).
    intros Hne y f f' Hy Hf Hd Hf'. specialize (He key name Hne).
    pose proof (cm_fibers _ _ H1 y) as R1. rewrite Hf in R1. inversion R1 as [? f1 (_ & Hc1 & He1) Hf1|]; subst.
    pose proof (cm_fibers _ _ H2 y) as R2. rewrite Hf' in R2. inversion R2 as [f2 ? (_ & Hc2 & _) Hf2|]; subst.
    rewrite Hc2, <- Hc1. eapply He; [by rewrite Hsv|done| |done]. unfold declares in *. by rewrite He1.
Qed.

(** ** Calm steps *)

(** A change of [x] that leaves its visibility and its revision alone. *)
Lemma calm_on x f g w w' :
  world_fibers w !! x = Some f → world_fibers w' = alter g x (world_fibers w) → services_of w' = services_of w →
  root_next (wd_root w) ≤ root_next (wd_root w') →
  sees (g f) = sees f → f_committed (g f) = f_committed f → f_edges (g f) = f_edges f → calm w w'.
Proof.
  intros Hf Hh Hsv Hn Hs Hc He. split; [done..|]. intros y. rewrite Hh.
  destruct (decide (y = x)) as [->|Hne]; [rewrite lookup_alter_eq, Hf; by constructor|].
  rewrite lookup_alter_ne by done. by destruct (world_fibers w !! y); constructor.
Qed.

Lemma calm_same w w' :
  world_fibers w' = world_fibers w → services_of w' = services_of w →
  root_next (wd_root w) ≤ root_next (wd_root w') → calm w w'.
Proof. intros Hh Hsv Hn. split; [done..|]. intros y. rewrite Hh. by destruct (world_fibers w !! y); constructor. Qed.

(** ** Transitions *)

Lemma move_effect x f next w w' :
  world_ok w → world_fibers w !! x = Some f → move x next w = Some w' →
  (f_installed f = true ∨ (fiber_state f = Active ↔ next = Active)) → step_effect w w' ∧ wd_served w' = wd_served w.
Proof.
  intros Hok Hf. unfold move. destruct (transition x next (wd_root w)) as [r|] eqn:Ht; [|done].
  cbn [mbind option_bind]. intros [= <-] Hvis. split; [|done].
  destruct (transition_stores_eq _ _ _ _ _ Hf Ht) as (Hn & _ & [[_ ->]|[_ Hts]]); [by apply calm_effect, calm_same|].
  pose proof (transition_stores_effect _ _ _ _ _ _ (wo_graph _ Hok) Hf Hts) as Hte.
  pose proof (te_services _ _ _ _ _ Hte) as Hsv. split.
  - cbn. lia.
  - unfold services_of. cbn. rewrite Hsv. intros k slot Hk. left. by exists slot.
  - unfold services_of. cbn. by rewrite Hsv.
  - intros key name Hne y f0 f' Hy Hf0 Hd Hf'.
    assert (∀ g, fibers (root_stores (wd_root w)) !! x = Some g → f_installed g = true ∨ (fiber_state g = Active ↔ next = Active)) as Hcond.
    { intros g Hg. change (world_fibers w !! x = Some g) in Hg. congruence. }
    destruct (te_commits _ _ _ _ _ Hte key name Hcond Hne y) as (f1 & f2 & Hf1 & Hf2 & Hdiff).
    { split; [done|]. by exists f0. }
    change (world_fibers w !! y = Some f1) in Hf1. change (world_fibers (put_root r w) !! y = Some f2) in Hf2. congruence.
Qed.

(** A driven Fiber is not the root one, and is installed if it is Active. *)
Lemma driven_visible w x f d next :
  world_ok w → world_fibers w !! x = Some f → wd_drivers w !! x = Some d → next ≠ Active →
  f_installed f = true ∨ (fiber_state f = Active ↔ next = Active).
Proof.
  intros Hok Hf Hd Hn. destruct (driven_at _ _ _ _ Hok Hf Hd) as [Hi _]. unfold fiber_at in Hi.
  destruct (decide (fiber_state f = Active)) as [Ha|Ha]; [left|by right].
  destruct (fi_active _ _ _ _ _ _ _ _ _ _ Hi Ha) as [Hm|?]; [|done].
  by destruct (fi_main _ _ _ _ _ _ _ _ _ _ Hi Hm) as (_ & _ & ?).
Qed.

(** A pass's transition, among changes the visibility does not depend on. *)
Lemma moves_effect x f g next w w1 w2 w' :
  world_ok w → world_fibers w !! x = Some f → world_ok w1 → w1 = on x g w → like f (g f) →
  f_committed (g f) = f_committed f →
  move x next w1 = Some w2 → (f_installed f = true ∨ (fiber_state f = Active ↔ next = Active)) →
  calm w2 w' → step_effect w w'.
Proof.
  intros Hok Hf Hok1 -> Hl Hc Hmv Hvis Hc2.
  assert (calm w (on x g w)) as Hc1.
  { eapply calm_on; try done; [unfold sees; by rewrite (lk_alive _ _ Hl), (lk_state _ _ Hl)|]. apply (lk_static _ _ Hl). }
  destruct (move_effect x (g f) next (on x g w) w2 Hok1) as [He Hsv]; [by apply on_lookup|done| |].
  - by rewrite (like_installed _ _ Hl), (lk_state _ _ Hl).
  - by apply (calm_around _ _ _ _ Hc1 eq_refl He).
Qed.

Lemma calm_drivers m w : calm w (put_drivers m w).
Proof. by apply calm_same. Qed.

Lemma settle_step_effect x f d ending w w' :
  world_ok w → world_fibers w !! x = Some f → wd_drivers w !! x = Some d →
  settle_step x f d ending w = Some w' → step_effect w w'.
Proof.
  intros Hok Hf Hd. pose proof (λ n, driven_visible w x f d n Hok Hf Hd) as Hvis.
  assert (∀ next w0 m, move x next w = Some w0 → (f_installed f = true ∨ (fiber_state f = Active ↔ next = Active)) →
          step_effect w (put_drivers m w0)) as Hmove.
  { intros next w0 m Hmv Hv. destruct (move_effect x f next w w0 Hok Hf Hmv Hv) as [He _].
    apply (calm_around w w w0); [reflexivity|done|done|apply calm_drivers]. }
  assert (∀ next e w0 m, move x next (on x (store_error e) w) = Some w0 →
          (f_installed f = true ∨ (fiber_state f = Active ↔ next = Active)) → step_effect w (put_drivers m w0)) as Hmove'.
  { intros next e w0 m Hmv Hv. pose proof (on_like_ok x f (store_error e) w Hok Hf (store_error_like e f)) as Hok1.
    eapply (moves_effect x f (store_error e) next w _ w0); [done|done|exact Hok1|done|apply store_error_like|done|done|done|].
    apply calm_drivers. }
  destruct d as [missing owns|missing owns|k|rest k|rest k|missing owns|owns|owns|owns outcome|failure|owns|owns|owns| |];
    cbn [settle_step]; try done.
  - destruct (negb (f_alive f)); [intros [= <-]; apply calm_effect, calm_drivers|].
    destruct (fiber_state f); intros [= <-]; apply calm_effect, calm_drivers.
  - destruct (move x Unloading w) as [w0|] eqn:Hmv; [|done]. intros [= <-]. apply (Hmove _ _ _ Hmv). by apply Hvis.
  - destruct missing.
    + destruct (move x Pending _) as [w0|] eqn:Hmv; [|done]. intros [= <-]. apply (Hmove' _ _ _ _ Hmv). by apply Hvis.
    + destruct (_ && _); [intros [= <-]; apply calm_effect, calm_drivers|].
      destruct (apply_snapshot (f_spawn f)); [|done]. intros [= <-]. apply calm_effect. by eapply calm_on.
  - destruct (move x Loading w) as [w0|] eqn:Hmv; [|done]. intros [= <-]. apply (Hmove _ _ _ Hmv). by apply Hvis.
  - intros [= <-]. apply calm_effect. by eapply calm_on.
  - destruct (driven_at _ _ _ _ Hok Hf Hd) as [Hat _].
    pose proof (fi_installed _ _ _ _ _ _ _ _ _ _ Hat _ eq_refl I) as Hin.
    destruct outcome as [[[]|failure]|panic].
    + destruct (move x Active _) as [w0|] eqn:Hmv; [|done]. intros [= <-]. apply (Hmove' _ _ _ _ Hmv). by left.
    + destruct (move x Unloading w) as [w0|] eqn:Hmv; [|done]. intros [= <-]. apply (Hmove _ _ _ Hmv). by left.
    + destruct (move x Unloading w) as [w0|] eqn:Hmv; [|done]. intros [= <-]. apply (Hmove _ _ _ Hmv). by left.
  - destruct (move x Failed _) as [w0|] eqn:Hmv; [|done]. intros [= <-]. apply (Hmove' _ _ _ _ Hmv). by apply Hvis.
Qed.

Lemma calm_claim x token w : calm w (put_root (claim_cleanup x token (wd_root w)).2 w).
Proof.
  destruct (world_fibers w !! x) as [f|] eqn:Hf.
  - rewrite (claim_root _ _ _ _ Hf). by eapply (calm_on x f (removed token)).
  - unfold claim_cleanup. change (fibers (wd_root w)) with (world_fibers w). rewrite Hf. by apply calm_same.
Qed.

Lemma drain_step_effect x f d w w' :
  world_fibers w !! x = Some f → drain_step x f d w = Some w' → step_effect w w'.
Proof.
  intros Hf. destruct d as [missing owns|missing owns|k|rest k|rest k|missing owns|owns|owns|owns outcome|failure|owns|owns|owns| |];
    cbn [drain_step]; try done.
  - destruct (_ && _); [|done]. intros [= <-]. apply calm_effect. by eapply calm_on.
  - destruct (rev rest) as [|token rest']; [intros [= <-]; apply calm_effect; by eapply calm_on|].
    destruct (unlocked x w); [|done]. pose proof (calm_claim x token w) as Hc.
    destruct (claim_cleanup x token (wd_root w)) as [[c|] r]; intros [= <-]; apply calm_effect;
      (split; [apply Hc|apply Hc|exact (cm_fibers _ _ Hc)]).
  - destruct (bool_decide _); [|done]. intros [= <-]. apply calm_effect, calm_drivers.
Qed.

Lemma calm_release x f w :
  world_ok w → world_fibers w !! x = Some f → calm w (stop x (on x (set_f_dispose_complete true) (release_world x f w))).
Proof.
  intros Hok Hf. destruct (wo_registry _ Hok) as [Hwf Hu].
  destruct (release_spec _ _ x f Hwf Hu Hf) as (reg & Hrel & _).
  apply (calm_on x f (λ f, set_f_dispose_complete true (set_f_residency None f))); try done.
  - unfold release_world. unfold graph_of, world_fibers, root_heap in *. rewrite Hrel.
    rewrite (alter_insert_some _ _ _ _ Hf). destruct (_ && _); cbn; by rewrite alter_insert_eq.
  - unfold release_world. unfold graph_of, world_fibers, root_heap in *. rewrite Hrel. by destruct (_ && _).
  - unfold release_world. unfold graph_of, world_fibers, root_heap in *. rewrite Hrel. by destruct (_ && _).
Qed.

Lemma teardown_step_effect x f d w w' :
  world_ok w → world_fibers w !! x = Some f → wd_drivers w !! x = Some d →
  teardown_step x f d w = Some w' → step_effect w w'.
Proof.
  intros Hok Hf Hd. pose proof (λ n, driven_visible w x f d n Hok Hf Hd) as Hvis.
  destruct (driven_at _ _ _ _ Hok Hf Hd) as [Hat Hpos].
  destruct d as [missing owns|missing owns|k|rest k|rest k|missing owns|owns|owns|owns outcome|failure|owns|owns|owns| |];
    cbn [teardown_step]; try done.
  - pose proof (on_like_ok x f (set_f_creation_pending false) w Hok Hf ltac:(by split)) as Hok1.
    destruct (decide (fiber_state f = Disposed)); [intros [= <-]; apply calm_effect; by eapply calm_on|].
    destruct (move x Unloading _) as [w0|] eqn:Hmv; [|done]. intros [= <-].
    eapply (moves_effect x f (set_f_creation_pending false) Unloading w _ w0); [done|done|exact Hok1|done|by split|done|done|by apply Hvis|].
    apply calm_drivers.
  - intros [= <-]. apply calm_effect. eapply (calm_on x f (set_f_alive false)); try done.
    unfold sees. cbn in Hpos. change (fiber_state (set_f_alive false f)) with (fiber_state f). rewrite Hpos.
    rewrite (bool_decide_false (Unloading = Active)) by done. by rewrite !andb_false_r.
  - intros [= <-]. apply calm_effect, calm_same; unfold unindex; by destruct (f_installed f).
  - destruct (move x Disposed w) as [w0|] eqn:Hmv; [|done]. intros [= <-].
    destruct (move_effect x f Disposed w w0 Hok Hf Hmv ltac:(by apply Hvis)) as [He Hsv].
    eapply (calm_around w w w0); [reflexivity|done|exact He|].
    assert (is_Some (world_fibers w0 !! x)) as [f0 Hf0].
    { assert (∃ r, w0 = put_root r w) as [r ->]
        by (revert Hmv; unfold move; destruct (transition _ _ _) as [r|]; [|done]; intros [= <-]; by exists r).
      destruct (solo_move x Disposed f w _ (put_root r w) Hok Hf Hmv) as (f0 & Hs & _); try done. exists f0. apply Hs. }
    by eapply calm_on.
  - intros [= <-]. by apply calm_effect, calm_release.
Qed.

Lemma drive_effect x ending w w' : world_ok w → drive x ending w = Some w' → step_effect w w'.
Proof.
  intros Hok. unfold drive. destruct (wd_drivers w !! x) as [d|] eqn:Hd; [|done]. cbn [mbind option_bind].
  destruct (world_fibers w !! x) as [f|] eqn:Hf; [|done]. cbn [mbind option_bind].
  destruct (settle_step x f d ending w) eqn:H1; [intros [= <-]; by eapply settle_step_effect|].
  destruct (drain_step x f d w) eqn:H2; [intros [= <-]; by eapply drain_step_effect|].
  by eapply teardown_step_effect.
Qed.

(** ** Slots *)

(** A change of the slots and of revisions only, with the commit of the one slot whose
    visibility may change. *)
Lemma slot_change_effect w w' key name :
  root_next (wd_root w) ≤ root_next (wd_root w') →
  (∀ k slot, slots (services_of w') !! k = Some slot → old_slot (services_of w) k slot ∨ root_next (wd_root w) ≤ ss_occurrence slot) →
  (∀ n t, contracts (services_of w) !! n = Some t → contracts (services_of w') !! n = Some t) →
  (∀ k, k ≠ (key, name) → slots (services_of w') !! k = slots (services_of w) !! k) →
  same_visibility (world_fibers w) (world_fibers w') →
  (occurrence_at w key name ≠ occurrence_at w' key name → recommitted (wd_served w) [(name, key)] (world_fibers w) (world_fibers w')) →
  step_effect w w'.
Proof.
  intros Hn Hs Hc Ho Hv Hr. split; [done..|]. intros key' name' Hne.
  destruct (decide ((key', name') = (key, name))) as [[= -> ->]|Hk].
  - intros y f f' Hy Hf Hd Hf'. destruct (Hr Hne y) as (f1 & f2 & Hf1 & Hf2 & Hdiff); [split; [done|by exists f]|].
    congruence.
  - destruct Hne. unfold occurrence_at, occurrence_id. fold (services_of w) (services_of w'). rewrite (Ho _ Hk).
    destruct (slots (services_of w) !! (key', name')) as [slot|]; [|done].
    change (gr_fibers (so_graph (root_stores (wd_root w')))) with (world_fibers w').
    change (gr_fibers (so_graph (root_stores (wd_root w)))) with (world_fibers w).
    by rewrite (same_visibility_visible _ _ slot Hv).
Qed.

(** The commit that goes with an installation or a removal by [owner]. *)
Lemma drift_recommits w owner key name drift g :
  world_ok w → (drift, g) = drift_if (is_active (world_fibers w) owner) (graph_of w) [(name, key)] →
  heap_agrees (world_fibers w) (gr_fibers g) ∧
  (is_active (world_fibers w) owner = true → recommitted (wd_served w) [(name, key)] (world_fibers w) (gr_fibers g)).
Proof.
  intros Hok Hd. pose proof (drift_if_spec (is_active (world_fibers w) owner) _ _ [(name, key)] (wo_graph _ Hok)) as H.
  rewrite <- Hd in H. destruct H as [(_ & Ha & _ & _ & _ & Hr)|(_ & Hf & ->)]; [by split|]. rewrite Hf. by split.
Qed.

Lemma inactive_invisible h slot x : ss_fiber slot = x → is_active h x = false → visible h slot = false.
Proof.
  intros <-. unfold is_active, visible. destruct (h !! ss_fiber slot); [|done]. intros ->. by rewrite andb_false_r.
Qed.

Lemma dead_invisible h slot : owner_alive h (ss_fiber slot) = false → visible h slot = false.
Proof. unfold owner_alive, visible. by destruct (h !! ss_fiber slot) as [f|]; [intros ->|]. Qed.

Lemma occurrence_at_slot w key name slot :
  slots (services_of w) !! (key, name) = Some slot → visible (world_fibers w) slot = false → occurrence_at w key name = None.
Proof.
  intros Hs Hv. unfold occurrence_at, occurrence_id. fold (services_of w). rewrite Hs.
  change (gr_fibers (so_graph (root_stores (wd_root w)))) with (world_fibers w). by rewrite Hv.
Qed.

Lemma occurrence_at_none w key name : slots (services_of w) !! (key, name) = None → occurrence_at w key name = None.
Proof. intros Hs. unfold occurrence_at, occurrence_id. fold (services_of w). by rewrite Hs. Qed.

(** The installation of a slot by [x] is an effect. *)
Lemma install_effect x slot key name evicted drift so w w' :
  world_ok w → ss_occurrence slot = root_next (wd_root w) → ss_fiber slot = x →
  install x slot key name (root_stores (wd_root w)) = (Ok (evicted, drift), so) →
  root_stores (wd_root w') = so → root_next (wd_root w) ≤ root_next (wd_root w') → step_effect w w'.
Proof.
  intros Hok Ho Hx Hin Hst Hn.
  pose proof (install_spec _ _ x slot key name _ (wo_slots _ Hok) (wo_graph _ Hok)) as H. fold (services_of w) in H.
  rewrite Hin in H. cbn zeta in H. destruct H as (Hb & _ & Hold & Hc & Hs & Hd).
  change (gr_fibers (so_graph (root_stores (wd_root w)))) with (world_fibers w) in *.
  assert (services_of w' = so_services so ∧ world_fibers w' = gr_fibers (so_graph so)) as [Hsv Hh]
    by (unfold services_of, world_fibers, root_heap; by rewrite Hst).
  destruct (drift_recommits _ _ _ _ _ _ Hok Hd) as [Ha Hr].
  assert (same_visibility (world_fibers w) (world_fibers w')) as Hvis by (rewrite Hh; by apply same_visibility_agrees).
  apply (slot_change_effect w w' key name); try done; rewrite ?Hsv.
  - intros k s. rewrite Hs. intros [[<- <-]|[_ Hk]]%lookup_insert_Some; [right; lia|]. left. by exists s.
  - intros n t Hnt. rewrite Hc. destruct (decide (name = n)) as [->|]; [|by rewrite lookup_insert_ne].
    rewrite lookup_insert_eq. fold (services_of w) in Hb. destruct Hb as [Hb|Hb]; congruence.
  - intros k Hk. rewrite Hs. by rewrite lookup_insert_ne.
  - rewrite Hh. intros Hne. apply Hr. destruct (is_active (world_fibers w) x) eqn:Hact; [done|]. destruct Hne.
    rewrite (occurrence_at_slot w' key name slot).
    + destruct (slots (services_of w) !! (key, name)) as [s|] eqn:Hk; [|by apply occurrence_at_none].
      apply (occurrence_at_slot _ _ _ _ Hk), dead_invisible, Hold. done.
    + rewrite Hsv, Hs. apply lookup_insert_eq.
    + rewrite (same_visibility_visible _ _ _ Hvis). by apply (inactive_invisible _ _ x).
Qed.

Lemma calm_announce drift name key previous current w :
  calm w (put_root (announce drift name key previous current (wd_root w)) w).
Proof.
  assert (root_stores (announce drift name key previous current (wd_root w)) = root_stores (wd_root w) ∧
          root_next (announce drift name key previous current (wd_root w)) = root_next (wd_root w)) as [Hs Hn] by (by destruct drift).
  apply calm_same; unfold world_fibers, root_heap, services_of; cbn; rewrite ?Hs, ?Hn; done.
Qed.

Lemma section_step_effect x w w' : world_ok w → section_step x w = Some w' → step_effect w w'.
Proof.
  intros Hok. unfold section_step. destruct (wd_sections w !! x) as [[p ph]|] eqn:Hsc; [|done].
  destruct (world_fibers w !! x) as [f|] eqn:Hf; [|done]. cbn [sc_phase sc_publication]. destruct ph as [| |o drift].
  - destruct (assert_can_register f); intros [= <-]; by apply calm_effect, calm_same.
  - destruct p as [callback async|ctx svc value]; [intros [= <-]; by apply calm_effect, calm_same|].
    cbn [fresh_occurrence]. set (slot := {| ss_occurrence := _; ss_value := _; ss_contract := _; ss_fiber := _ |}).
    change (root_stores _) with (root_stores (wd_root w)) at 1.
    destruct (install x slot _ _ _) as [[[evicted drift]|e] so] eqn:Hin; intros [= <-].
    + eapply install_effect; [done| | |exact Hin|done|]; [done..|cbn; lia].
    + pose proof (install_spec _ _ x slot (isolate_key ctx (sv_name svc)) (sv_name svc) _ (wo_slots _ Hok) (wo_graph _ Hok)) as Hs.
      fold (services_of w) in Hs. rewrite Hin in Hs.
      assert (so = root_stores (wd_root w)) as -> by (destruct e as [[] ?]; by destruct Hs).
      apply calm_effect, calm_same; [done..|cbn; lia].
  - destruct (decide _) as [Hlt|]; [|done]. destruct p as [callback async|ctx svc value]; intros [= <-].
    + apply calm_effect. by eapply (calm_on x f (push_cleanup _)).
    + apply (calm_around w w w); [reflexivity|done|by apply calm_effect|].
      match goal with |- calm _ (put_issued _ _ (put_root (announce ?d ?n ?k ?a ?b ?r) _)) =>
        assert (root_stores (announce d n k a b r) = root_stores r ∧ root_next (announce d n k a b r) = root_next r)
          as [Hst Hn] by (by destruct d) end.
      eapply (calm_on x f (push_cleanup (cleanup_of (PubService ctx svc value) o))); try done.
      * unfold world_fibers, root_heap. cbn [wd_root put_issued put_root]. by rewrite Hst.
      * unfold services_of. cbn [wd_root put_issued put_root]. by rewrite Hst.
      * cbn [wd_root put_issued put_root]. by rewrite Hn.
Qed.

(** ** Controls and the end of cleanups *)

Lemma op_set_effect i v w w' : world_ok w → step (OpSet i v) w = Some w' → step_effect w w'.
Proof.
  intros Hok. cbn [step]. destruct (wd_pubs w !! i) as [p|]; [|done]. cbn [mbind option_bind]. intros [= <-].
  unfold publication_set. set (value := {| av_type := _; av_payload := _ |}).
  pose proof (set_exact_spec (sp_key p) (sv_name (sp_service p)) (sp_occurrence p) (sp_owner p) value (root_stores (wd_root w))) as H.
  destruct (set_exact _ _ _ _ _ _) as [[outgoing|[e v']] so]; cbn [snd].
  - destruct H as (slot & Hs & Ho & _ & _ & ->).
    apply (slot_change_effect w _ (sp_key p) (sv_name (sp_service p))); try done.
    + intros k s. cbn. intros [[<- <-]|[_ Hk]]%lookup_insert_Some; left; [by exists slot|by exists s].
    + intros k Hk. cbn. by rewrite lookup_insert_ne.
    + intros y. change (option_Forall2 (λ f f', f_alive f' = f_alive f ∧ fiber_state f' = fiber_state f)
        (world_fibers w !! y) (world_fibers w !! y)). by destruct (world_fibers w !! y); constructor.
    + intros []. unfold occurrence_at, occurrence_id. rewrite Hs. cbn. rewrite lookup_insert_eq. cbn. by rewrite Ho.
  - assert (so = root_stores (wd_root w)) as -> by (destruct e; by destruct H). by apply calm_effect, calm_same.
Qed.

Lemma remove_step_effect p w : world_ok w → p ∈ wd_pubs w → step_effect w (remove_step p w).
Proof.
  intros Hok Hp. unfold remove_step.
  pose proof (remove_exact_spec (sp_key p) (sv_name (sp_service p)) (sp_occurrence p) (sp_owner p) (root_stores (wd_root w))) as H.
  destruct (remove_exact _ _ _ _ _) as [[[slot drift]|e] so].
  2: { assert (so = root_stores (wd_root w)) as -> by (destruct e; by destruct H). by apply calm_effect, calm_same. }
  destruct H as (Hs & Ho & _ & Hc & Hsl & Hd).
  change (gr_fibers (so_graph (root_stores (wd_root w)))) with (world_fibers w) in *.
  destruct (drift_recommits _ _ _ _ _ _ Hok Hd) as [Ha Hr].
  destruct (wo_pubs _ Hok p ltac:(apply elem_of_app; by left)) as (_ & [_ Hb] & _). destruct (Hb slot Hs Ho) as [Hx _].
  set (r0 := with_stores so (wd_root w)) in *. set (w1 := put_root r0 w).
  assert (step_effect w w1) as He.
  { assert (same_visibility (world_fibers w) (world_fibers w1)) as Hvis by (by apply same_visibility_agrees).
    apply (slot_change_effect w w1 (sp_key p) (sv_name (sp_service p))); try done.
    - intros k s. change (services_of w1) with (so_services so). rewrite Hsl.
      intros [_ Hk]%lookup_delete_Some. left. by exists s.
    - intros n t. change (services_of w1) with (so_services so). by rewrite Hc.
    - intros k Hk. change (services_of w1) with (so_services so). by rewrite Hsl, lookup_delete_ne.
    - intros Hne. apply Hr. destruct (is_active (world_fibers w) (sp_owner p)) eqn:Hact; [done|]. destruct Hne.
      rewrite (occurrence_at_none w1)
        by (change (slots (so_services so) !! (sp_key p, sv_name (sp_service p)) = None); by rewrite Hsl, lookup_delete_eq).
      apply (occurrence_at_slot _ _ _ _ Hs). by apply (inactive_invisible _ _ (sp_owner p)). }
  eapply (calm_around w w w1); [reflexivity|done|exact He|].
  pose proof (calm_announce drift (sv_name (sp_service p)) (sp_key p) (Some (sp_occurrence p)) None w1) as Hcm.
  split; apply Hcm.
Qed.

Lemma op_run_end_effect x w w' : world_ok w → step (OpRunEnd x) w = Some w' → step_effect w w'.
Proof.
  intros Hok. cbn [step]. destruct (wd_running w !! x) as [c|] eqn:Hrun; [|done]. cbn [mbind option_bind]. intros [= <-].
  destruct (wo_running _ Hok x ltac:(by eexists)) as [f Hf]. pose proof (wo_fibers _ Hok _ _ Hf) as Hi.
  unfold fiber_ok in Hi. rewrite Hrun in Hi.
  destruct (cl_run c) as [| |key name o| |] eqn:Hc; try by apply calm_effect, calm_same.
  cbn [run_action]. destruct (withdraw_exact_spec key name o (root_stores (wd_root w))) as (Hg & Hct & Hs).
  set (so := withdraw_exact _ _ _ _) in *. set (w' := put_running _ _).
  assert (world_fibers w' = world_fibers w) as Hh by (unfold world_fibers, root_heap; cbn; by rewrite Hg).
  assert (fewer_slots (root_stores (wd_root w)) so) as Hfew by (split; [done..|intros k s Hk; by apply Hs in Hk as [? _]]).
  apply (slot_change_effect w w' key name); try done.
  - intros k s Hk. left. exists s. split; [by apply (fs_slots _ _ Hfew)|done].
  - intros n t. change (contracts (services_of w')) with (contracts (so_services so)). by rewrite Hct.
  - intros k Hk. apply option_eq. intros s. change (services_of w') with (so_services so). rewrite Hs. naive_solver.
  - rewrite Hh. by apply same_visibility_agrees.
  - intros Hne. destruct Hne. destruct (slots (services_of w) !! (key, name)) as [slot|] eqn:Hk.
    + destruct (decide (ss_occurrence slot = o)) as [Ho|Ho].
      * rewrite (occurrence_at_none w').
        -- apply (occurrence_at_slot _ _ _ _ Hk).
           pose proof (fi_run_entry _ _ _ _ _ _ _ _ _ _ Hi c eq_refl) as He. unfold entry_ok in He. rewrite Hc in He.
           apply (inactive_invisible _ _ x); [by apply He|]. unfold is_active. rewrite Hf.
           by rewrite (fi_running _ _ _ _ _ _ _ _ _ _ Hi ltac:(by eexists)).
        -- apply eq_None_not_Some. intros [s Hs']. apply Hs in Hs' as [Hs' Hn]. apply Hn. split; [done|].
           change (slots (services_of w) !! (key, name) = Some s) in Hs'. congruence.
      * assert (slots (services_of w') !! (key, name) = Some slot) as Hk' by (apply Hs; split; [done|tauto]).
        unfold occurrence_at, occurrence_id. fold (services_of w) (services_of w'). rewrite Hk, Hk'.
        change (gr_fibers (so_graph (root_stores (wd_root w')))) with (world_fibers w'). by rewrite Hh.
    + rewrite (occurrence_at_none w _ _ Hk). symmetry. apply occurrence_at_none.
      apply eq_None_not_Some. intros [s [Hs' _]%Hs]. change (slots (services_of w) !! (key, name) = Some s) in Hs'. congruence.
Qed.

(** ** Creations and releases *)

Lemma spawn_attach_effect ctx p o w w' : world_ok w → spawn_attach ctx p o w = Some w' → step_effect w w'.
Proof.
  intros Hok. unfold spawn_attach. set (x := root_next (wd_root w)). destruct (_ && _); [done|].
  set (f := set_f_creation_pending true _). change (gr_fibers (so_graph (root_stores (wd_root w)))) with (world_fibers w).
  destruct (attach_fiber _ _ _ _) as [[heap reg]|] eqn:Hat; [|done]. cbn [mbind option_bind]. intros [= <-].
  destruct (wo_registry _ Hok) as [Hwf Hu].
  assert (∀ y, is_Some (world_fibers w !! y) → y ≠ x) as Hne by (intros y Hs%(wo_heap _ Hok); unfold x; lia).
  assert (world_fibers w !! x = None) as Hx by (apply eq_None_not_Some; by intros Hs%Hne).
  destruct (attach_fresh _ _ _ x f _ _ Hwf Hu Hx eq_refl Hat) as ([c ->] & _).
  apply same_services_effect; [cbn; unfold x; lia|done|]. intros k slot Hs.
  assert (ss_fiber slot ≠ x) as Hn by (by apply Hne; eapply (wo_owners _ Hok)).
  change (visible (<[ x := set_f_residency (Some c) f ]> (world_fibers w)) slot = visible (world_fibers w) slot).
  unfold visible. by rewrite lookup_insert_ne.
Qed.

Lemma op_drop_effect x w w' : world_ok w → step (OpDrop x) w = Some w' → step_effect w w'.
Proof.
  intros Hok Hst. pose proof (op_drop_ok x w w' Hok Hst) as Hok'. revert Hst.
  cbn [step]. destruct (_ && _); [|done]. intros [= Hw]. subst w'.
  apply same_services_effect; [done..|]. intros k slot Hs. pose proof (wo_owners _ Hok' _ _ Hs) as [f Hf].
  change (delete x (world_fibers w) !! ss_fiber slot = Some f) in Hf. apply lookup_delete_Some in Hf as [Hne Hf].
  change (visible (delete x (world_fibers w)) slot = visible (world_fibers w) slot).
  unfold visible. by rewrite lookup_delete_ne.
Qed.

Lemma step_has_effect op w w' : world_ok w → step op w = Some w' → step_effect w w'.
Proof.
  intros Hok Hst. pose proof Hst as Hst'.
  destruct op as [ctx p o|x ctx p seal|x|x m o|x o|x e|x|x|x|x m|edges|x rq|x|i v|i|i|i|doomed key|a|x|x]; cbn [step] in Hst.
  - by eapply spawn_attach_effect.
  - destruct (decide _); [done|]. revert Hst. unfold spawn_record.
    destruct (root_heap (wd_root w) !! x) as [f|] eqn:Hf; [|done]. cbn [mbind option_bind fresh_occurrence].
    destruct (spawn_install _ _) as [[|] s]; [|done]. intros [= <-]. apply calm_effect.
    eapply (calm_on x f (set_f_spawn s)); try done. cbn. lia.
  - revert Hst. unfold spawn_index. destruct (gr_fibers _ !! x) as [f|]; [|done]. cbn [mbind option_bind].
    destruct (f_installed f); [|done]. intros [= <-]. apply calm_effect, calm_same; by destruct (f_alive f).
  - destruct (world_fibers w !! x) as [f|]; [|done]. cbn [mbind option_bind] in Hst.
    destruct (_ && _); [|done]. injection Hst as <-. apply calm_effect, calm_drivers.
  - destruct (world_fibers w !! x) as [f|] eqn:Hf; [|done]. cbn [mbind option_bind] in Hst.
    destruct (_ && _); [|done]. injection Hst as <-. apply calm_effect. by eapply calm_on.
  - by eapply drive_effect.
  - by eapply op_run_end_effect.
  - destruct (wd_drivers w !! x) as [d|] eqn:Hd; [|done]. cbn [mbind option_bind] in Hst.
    destruct (cancellable d); [|done]. injection Hst as <-. apply calm_effect.
    destruct (wo_drivers _ Hok x ltac:(by eexists)) as [f Hf]. by eapply calm_on.
  - destruct (world_fibers w !! x) as [f|] eqn:Hf; [|done]. cbn [mbind option_bind] in Hst. injection Hst as <-.
    apply calm_effect. by eapply calm_on.
  - destruct (world_fibers w !! x) as [f|] eqn:Hf; [|done]. cbn [mbind option_bind] in Hst. injection Hst as <-.
    apply calm_effect. eapply (calm_on x f (apply_mark m)); by destruct m.
  - injection Hst as <-. apply calm_effect, calm_same; [|done..].
    apply (query_spec _ _ edges (wo_graph _ Hok)).
  - revert Hst. unfold enter_section. destruct (_ && _); [|done]. intros [= <-]. by apply calm_effect, calm_same.
  - by eapply section_step_effect.
  - by eapply op_set_effect.
  - destruct (wd_pubs w !! i) as [p|] eqn:Hp; [|done]. cbn [mbind option_bind] in Hst. injection Hst as <-.
    apply remove_step_effect; [done|]. by eapply list_elem_of_lookup_2.
  - destruct (wd_removed w !! i) as [p|]; [|done]. cbn [mbind option_bind] in Hst.
    destruct (unlocked _ w); [|done]. injection Hst as <-. apply calm_effect.
    pose proof (calm_claim (sp_owner p) (sp_cleanup p) w) as Hc. split; apply Hc.
  - destruct (wd_effects w !! i) as [c|]; [|done]. cbn [mbind option_bind] in Hst.
    destruct (unlocked _ w); [|done]. injection Hst as <-. apply calm_effect, calm_claim.
  - destruct (detach_for_removal _ _ _) as [[out reg]|]; [|done]. cbn [mbind option_bind] in Hst. injection Hst as <-.
    by apply calm_effect, calm_same.
  - injection Hst as <-. by apply calm_effect, calm_same.
  - by eapply op_drop_effect.
  - destruct (decide _); [done|]. revert Hst. unfold commit_input.
    destruct (world_fibers w !! x) as [f|] eqn:Hf; [|done]. cbn [mbind option_bind].
    destruct (f_spawn f) as [st|]; [|done]. cbn [mbind option_bind fresh_occurrence]. intros [= <-]. apply calm_effect.
    eapply (calm_on x f (set_f_spawn (Some (with_input _ st)))); try done. cbn. lia.
Qed.
