(* ===== verification/GenerationProps.v ===== *)
(** The properties of the Runtime's steps (Generation.v), from the invariant and the
    effect of each step: parked and dead generations hold nothing, visibility never
    changes without the recheck of every dependent, stale publications stay stale,
    contracts stay bound, and a teardown completes. *)
From S2P Require Import Prelude Axes BTree Lifecycle Journal EventStore Observation Plugin Fiber Registry Deps Services Generation GenerationInv GenerationOps GenerationEffect.

(** * Reachable worlds *)

Lemma world_new_ok membership main w : world_new membership main = Some w → world_ok w.
Proof.
  unfold world_new. destruct (Fiber_root main) as [f|] eqn:Hf; [|done]. cbn [mbind option_bind]. intros [= <-].
  assert (f_id f = main ∧ fiber_state f = Active ∧ f_alive f = true ∧ f_residency f = None ∧
          f_journal f = DisposableList_new) as (Hid & Hst & Ha & Hres & Hj).
  { unfold Fiber_root in Hf. apply set_state_spec in Hf as (p & -> & Hp). by split_and!. }
  set (w := {| wd_main := main |}). assert (world_fibers w = {[ main := f ]}) as Hh by done.
  assert (∀ x, is_Some (world_fibers w !! x) → x = main) as Hx.
  { intros x [g Hg]. rewrite Hh in Hg. by apply lookup_singleton_Some in Hg as [<- _]. }
  split; rewrite ?Hh; try done.
  - by apply graph_wf_fresh.
  - intros key d Hd. unfold rows_at in Hd. cbn in Hd. rewrite lookup_empty in Hd. by apply not_elem_of_nil in Hd.
  - intros x ->%Hx. cbn. lia.
  - split; [|by intros k a g Ha'].
    apply registry_wf_new. intros x. unfold claim_of. destruct (decide (x = main)) as [->|Hne].
    + by rewrite lookup_singleton_eq.
    + by rewrite lookup_singleton_ne.
  - rewrite lookup_singleton_eq. by eexists.
  - by intros x [d Hd].
  - by intros x [d Hd].
  - by intros x [d Hd].
  - intros x g [<- <-]%lookup_singleton_Some. unfold fiber_ok.
    assert (bool_decide (main = wd_main w) = true) as -> by (by apply bool_decide_eq_true_2).
    change (wd_drivers w !! main) with (None : option Driver). change (wd_running w !! main) with (None : option Cleanup).
    change (wd_sections w !! main) with (None : option Section_).
    split; try done.
    + rewrite Hj. apply DisposableList_new_wf.
    + unfold position_ok. rewrite Hst. split_and!; [done|by left|by intros [?|[?|?]]|by left].
    + intros t c. by rewrite Hj.
    + by rewrite Hst.
    + by left.
    + by left.
  - intros e He. by apply not_elem_of_nil in He.
  - intros e He. by apply not_elem_of_nil in He.
Qed.

Lemma reached_ok membership main ops w0 w : world_new membership main = Some w0 → run ops w0 = Some w → world_ok w.
Proof. intros Hn Hr. eapply run_ok; [by eapply world_new_ok|done]. Qed.

(** * Nothing outlives its generation *)

(** What a Fiber may own: journal entries, a cleanup being run, a Service slot. *)
Definition owns_nothing (w : World) (x : Addr) : Prop :=
  (∀ f, world_fibers w !! x = Some f → dl_map (f_journal f) = []) ∧ wd_running w !! x = None ∧
  ∀ k slot, slots (services_of w) !! k = Some slot → ss_fiber slot ≠ x.

Lemma quiet_owns_nothing w x f :
  world_ok w → world_fibers w !! x = Some f → quiet f (wd_running w !! x) (wd_sections w !! x) → owns_nothing w x.
Proof.
  intros Hok Hf (Hj & Hrun & Hpc). split_and!; [|done|].
  - intros g Hg. congruence.
  - intros [key name] slot Hs Hx. pose proof (wo_fibers _ Hok _ _ Hf) as Hi.
    destruct (fi_covered _ _ _ _ _ _ _ _ _ _ Hi _ _ _ Hs Hx) as [(t & c & Ht & _)|[(c & ? & _)|(p & dr & Hsc & _)]].
    + by rewrite Hj in Ht.
    + congruence.
    + rewrite Hsc in Hpc. by apply Hpc.
Qed.

(** A parked Fiber is at rest, whatever pass is about to work on it. *)
Lemma parked_quiet main d f run sc : position_ok main d f run sc → parked (fiber_state f) → quiet f run sc.
Proof.
  intros Hp Hs. unfold position_ok in Hp. unfold parked in *.
  destruct d as [[]|]; cbn in Hp; destruct Hs as [Hs|[Hs|Hs]]; rewrite ?Hs in Hp; naive_solver.
Qed.

(** Whether the next transition of [x] starts an apply. *)
Definition about_to_apply (w : World) (x : Addr) : Prop := ∃ owns, wd_drivers w !! x = Some (DLoading owns).

(** [C3] No effect outlives its generation: in every reachable interleaving, a Fiber that
    is Pending, Failed or Disposed, and likewise one whose next apply is about to start,
    has an empty cleanup journal, no cleanup still running, and owns no Service slot.
    So a parked Fiber provides nothing, every generation starts from nothing, and a
    disposed one leaves nothing behind, whatever registrations, cancellations,
    replacements and cleanups ran meanwhile. *)
Theorem parked_generation_is_empty (membership main : Addr) (ops : list Op) (w0 w : World) (x : Addr) (f : Fiber)
    (Hnew : world_new membership main = Some w0) (Hrun : run ops w0 = Some w) (Hf : world_fibers w !! x = Some f)
    (Hst : parked (fiber_state f) ∨ about_to_apply w x) :
  owns_nothing w x.
Proof.
  pose proof (reached_ok _ _ _ _ _ Hnew Hrun) as Hok. pose proof (wo_fibers _ Hok _ _ Hf) as Hi.
  pose proof (fi_position _ _ _ _ _ _ _ _ _ _ Hi) as Hp. eapply quiet_owns_nothing; [done..|].
  destruct Hst as [Hst|[owns Hd]]; [by eapply parked_quiet|]. rewrite Hd in Hp. apply Hp.
Qed.


(** * Visibility and rechecks *)

(** [C4] No change of visibility goes unnoticed: whenever one step of the Runtime changes
    what a slot resolves to (a publication becoming visible, its removal, the provider
    becoming Active or leaving Active), every Fiber the dependency index serves for that
    slot has a new recheck revision after this very step, so the convergence slot cannot
    settle without looking at the change (Inertia.v). *)
Theorem visibility_change_commits (membership main : Addr) (ops : list Op) (op : Op) (w0 w w' : World) (key : RealmKey) (name : string)
    (Hnew : world_new membership main = Some w0) (Hrun : run ops w0 = Some w) (Hstep : step op w = Some w')
    (Hchange : occurrence_at w key name ≠ occurrence_at w' key name) :
  dependents_recommitted w w' key name.
Proof. apply (ef_commits _ _ (step_has_effect op w w' (reached_ok _ _ _ _ _ Hnew Hrun) Hstep)), Hchange. Qed.

(** * Publications and contracts over time *)

Lemma run_effects (P : World → Prop) ops w w' :
  (∀ w1 w2, world_ok w1 → P w1 → step_effect w1 w2 → P w2) → world_ok w → P w → run ops w = Some w' → P w'.
Proof.
  intros Hstep. revert w. induction ops as [|op ops IH]; intros w Hok HP; cbn [run]; [by intros [= <-]|].
  destruct (step op w) as [w1|] eqn:Hs; [|done]. cbn [mbind option_bind]. apply IH; [by eapply step_ok|].
  eapply Hstep; [done..|]. by eapply step_has_effect.
Qed.

(** The occurrence of the publication is not in its slot. *)
Definition stale (w : World) (p : ServicePublication) : Prop :=
  gone (services_of w) (sp_key p) (sv_name (sp_service p)) (sp_occurrence p).

Lemma stale_step p w w' :
  sp_occurrence p < root_next (wd_root w) → stale w p → step_effect w w' → stale w' p.
Proof.
  intros Hlt Hs He slot Hk. destruct (ef_slots _ _ He _ _ Hk) as [(s & Hs' & Ho & _)|Hle]; [|lia].
  rewrite Ho. by apply Hs.
Qed.

Lemma with_stores_id r : with_stores (root_stores r) r = r.
Proof. by destruct r. Qed.

Lemma stale_refuses w p value :
  stale w p →
  publication_set p value (wd_root w) = (Err (StalePublication (sv_name (sp_service p))), wd_root w) ∧
  publication_remove p (wd_root w) = (Err (StalePublication (sv_name (sp_service p))), wd_root w).
Proof.
  intros Hs. unfold publication_set, publication_remove, set_exact, remove_exact. fold (services_of w).
  unfold stale, gone in Hs. destruct (slots (services_of w) !! _) as [slot|].
  - rewrite bool_decide_false by (by apply Hs). cbn. by rewrite with_stores_id.
  - by rewrite with_stores_id.
Qed.

(** [C16] A publication dies once: as soon as its occurrence has left the slot (an explicit
    [remove], a withdrawal, an eviction), and in any case once its owner is parked or
    disposed, [set] and [remove] through it answer [StalePublication] and change nothing,
    now and after any continuation, even when the same Fiber or another one publishes
    under the same name again. *)
Theorem stale_publication_stays_stale (membership main : Addr) (ops ops' : list Op) (w0 w w' : World) (p : ServicePublication) (value : AnyValue)
    (Hnew : world_new membership main = Some w0) (Hrun : run ops w0 = Some w) (Hp : p ∈ wd_pubs w)
    (Hstale : stale w p ∨ ∃ f, world_fibers w !! sp_owner p = Some f ∧ parked (fiber_state f))
    (Hrun' : run ops' w = Some w') :
  publication_set p value (wd_root w') = (Err (StalePublication (sv_name (sp_service p))), wd_root w') ∧
  publication_remove p (wd_root w') = (Err (StalePublication (sv_name (sp_service p))), wd_root w').
Proof.
  pose proof (reached_ok _ _ _ _ _ Hnew Hrun) as Hok.
  destruct (wo_pubs _ Hok p ltac:(apply elem_of_app; by left)) as (_ & [Hlt Hb] & _).
  assert (stale w p) as Hs.
  { destruct Hstale as [?|(f & Hf & Hst)]; [done|]. intros slot Hk Ho. destruct (Hb slot Hk Ho) as [Hx _].
    pose proof (parked_quiet _ _ _ _ _ (fi_position _ _ _ _ _ _ _ _ _ _ (wo_fibers _ Hok _ _ Hf)) Hst) as Hq.
    destruct (quiet_owns_nothing _ _ _ Hok Hf Hq) as (_ & _ & Hn). by apply (Hn _ _ Hk). }
  apply stale_refuses.
  apply (run_effects (λ w, sp_occurrence p < root_next (wd_root w) ∧ stale w p) ops' w w'); [|done..].
  intros w1 w2 _ [Hl Hst] He. split; [pose proof (ef_next _ _ He); lia|by eapply stale_step].
Qed.

(** [C17] A Service name is bound to one contract for the life of the Runtime: a binding
    survives every continuation, every slot published under the name holds a value of
    the bound contract, and so a lookup with that contract never answers a mismatch. *)
Theorem contract_binding_is_permanent (membership main : Addr) (ops ops' : list Op) (w0 w w' : World) (S : Service) (key : RealmKey)
    (Hnew : world_new membership main = Some w0) (Hrun : run ops w0 = Some w)
    (Hbound : contracts (services_of w) !! sv_name S = Some (sv_type S)) (Hrun' : run ops' w = Some w') :
  contracts (services_of w') !! sv_name S = Some (sv_type S) ∧
  (∀ slot, slots (services_of w') !! (key, sv_name S) = Some slot →
     ss_contract slot = sv_type S ∧ av_type (ss_value slot) = sv_type S) ∧
  visible_value (root_stores (wd_root w')) S key ≠ Err (LookupContractMismatch (sv_name S)).
Proof.
  pose proof (reached_ok _ _ _ _ _ Hnew Hrun) as Hok. pose proof (run_ok _ _ _ Hok Hrun') as Hok'.
  assert (contracts (services_of w') !! sv_name S = Some (sv_type S)) as Hc.
  { apply (run_effects (λ w, contracts (services_of w) !! sv_name S = Some (sv_type S)) ops' w w'); [|done..].
    intros w1 w2 _ Hb He. by apply (ef_contracts _ _ He). }
  assert (∀ slot, slots (services_of w') !! (key, sv_name S) = Some slot →
     ss_contract slot = sv_type S ∧ av_type (ss_value slot) = sv_type S) as Hslots.
  { intros slot Hs. destruct (sw_bound _ _ (wo_slots _ Hok') _ _ _ Hs) as [Hb Ht]. rewrite Hc in Hb. split; congruence. }
  split_and!; [done|exact Hslots|]. unfold visible_value. fold (services_of w'). rewrite Hc.
  rewrite bool_decide_false by (intros [_ ?]; done).
  destruct (slots (services_of w') !! (key, sv_name S)) as [slot|] eqn:Hs; [|done].
  destruct (visible _ slot); [|done]. destruct (Hslots slot eq_refl) as [_ Ht]. by rewrite decide_True.
Qed.

(** * A provider and a consumer *)

Definition blank : World :=
  {| wd_main := 0; wd_root := sample_runtime; wd_served := ∅; wd_drivers := ∅; wd_running := ∅; wd_sections := ∅;
     wd_effects := []; wd_pubs := []; wd_removed := [] |}.

(** The world after [ops]. *)
Definition sample (ops : list Op) : World := default blank (w ← world_new 0 0; run ops w).

Definition sample_provider : PreparedPlugin :=
  {| pp_plugin := {| tp_contract := 5; tp_input_type := 6; tp_state := Some (1, 2) |}; pp_name := "provider";
     pp_inject := inject_none; pp_contract := 5 |}.
Definition sample_consumer : PreparedPlugin :=
  {| pp_plugin := {| tp_contract := 8; tp_input_type := 9; tp_state := Some (1, 2) |}; pp_name := "consumer";
     pp_inject := require inject_none "clock"; pp_contract := 8 |}.

Definition creation (x : Addr) (p : PreparedPlugin) : list Op :=
  [OpSpawn sample_ctx p true; OpRecord x sample_ctx p 100; OpIndex x].
Definition drives (n : nat) (x : Addr) : list Op := replicate n (OpDrive x ApplyDone).
Definition publication (x : Addr) : list Op :=
  OpEnter x (ReqService (with_fiber sample_ctx x) sample_service 7) :: replicate 3 (OpSection x).

(** The provider (address 1) has applied, and is about to become Active; the consumer
    (address 4) waits for its Service. *)
Definition until_applied : list Op :=
  creation 1 sample_provider ++ creation 4 sample_consumer ++ [OpSettle 1 false true] ++ drives 3 1 ++
  publication 1 ++ drives 1 1.
Definition until_active : list Op := until_applied ++ drives 1 1.
Definition the_teardown : list Op := [OpTeardown 1 true] ++ drives 5 1 ++ [OpRunEnd 1] ++ drives 4 1.
Definition until_disposed : list Op := until_active ++ the_teardown.

Ltac computed := solve [vm_compute; reflexivity].

Lemma sample_new : world_new 0 0 = Some (sample []).
Proof. computed. Qed.

Example parked_generation_is_empty_witness :
  fiber_state <$> world_fibers (sample until_disposed) !! 1 = Some Disposed ∧ owns_nothing (sample until_disposed) 1.
Proof.
  split; [computed|].
  destruct (world_fibers (sample until_disposed) !! 1) as [f|] eqn:Hf; [|by vm_compute in Hf].
  apply (parked_generation_is_empty 0 0 until_disposed (sample []) _ 1 f sample_new); [computed|exact Hf|].
  left. right. right. assert (fiber_state <$> Some f = Some Disposed) as [= ->] by (rewrite <- Hf; computed). done.
Defined.


Example visibility_change_commits_witness :
  occurrence_at (sample until_applied) 0 "clock" = None ∧ occurrence_at (sample until_active) 0 "clock" = Some 7 ∧
  dependents_recommitted (sample until_applied) (sample until_active) 0 "clock" ∧
  4 ∈ wd_served (sample until_applied).
Proof.
  split; [computed|]. split; [computed|]. split; [|apply (bool_decide_unpack _); computed].
  apply (visibility_change_commits 0 0 until_applied (OpDrive 1 ApplyDone) (sample []) _ _ 0 "clock" sample_new);
    [computed|computed|by vm_compute].
Defined.

Example stale_publication_stays_stale_witness :
  ∃ p, wd_pubs (sample until_disposed) = [p] ∧
    (publication_remove p (wd_root (sample until_disposed))).1 = Err (StalePublication "clock").
Proof.
  destruct (wd_pubs (sample until_active)) as [|p [|]] eqn:Hp; [by vm_compute in Hp| |by vm_compute in Hp].
  exists p. split; [rewrite <- Hp; computed|].
  destruct (stale_publication_stays_stale 0 0 until_disposed [] (sample []) (sample until_disposed) (sample until_disposed) p
              {| av_type := 3; av_payload := 8 |} sample_new) as [_ ->].
  - computed.
  - assert (wd_pubs (sample until_disposed) = [p]) as -> by (rewrite <- Hp; computed). by left.
  - right. destruct (world_fibers (sample until_disposed) !! 1) as [f|] eqn:Hf; [|by vm_compute in Hf].
    exists f. split.
    + assert (sp_owner <$> [p] = [1]) as [= ->] by (rewrite <- Hp; computed). exact Hf.
    + assert (fiber_state <$> Some f = Some Disposed) as [= ->] by (rewrite <- Hf; computed). right. by right.
  - done.
  - assert (sp_service <$> [p] = [sample_service]) as [= ->] by (rewrite <- Hp; computed). done.
Defined.

Example contract_binding_is_permanent_witness :
  contracts (services_of (sample until_active)) !! "clock" = Some 3 ∧
  contracts (services_of (sample until_disposed)) !! "clock" = Some 3.
Proof.
  split; [computed|].
  apply (contract_binding_is_permanent 0 0 until_active the_teardown (sample []) (sample until_active) (sample until_disposed)
           sample_service 0 sample_new); computed.
Defined.
