(* ===== verification/Observers.v ===== *)
(** Observers of a Runtime and its snapshots (crates/cordis-core/src/observation.rs,
    context.rs): an observer is in the hub exactly as long as its cleanup is in the
    journal of the Fiber that registered it, and what a snapshot lists. *)
From S2P Require Import Prelude Axes BTree Lifecycle Journal EventStore Observation Plugin Fiber Registry Deps Services Generation GenerationInv GenerationOps GenerationEffect GenerationProps.

(** * Registration *)

Record HubState := { hs_fibers : gmap Addr Fiber; hs_hub : ObservationHub }.

Definition with_hub (h : ObservationHub) (s : HubState) : HubState := {| hs_fibers := hs_fibers s; hs_hub := h |}.

#[export, program] Instance hub_fiber_store : FiberStore HubState :=
  {| fibers := hs_fibers;
     update_fiber := λ x g s, {| hs_fibers := alter g x (hs_fibers s); hs_hub := hs_hub s |} |}.
Next Obligation. done. Qed.

Section observers.
(** The Fiber of the Context a callback was registered on. *)
Context (home : nat → Addr).

(** The refusal stands for the [unreachable!] on an occupied identity. *)
(* @src crates/cordis-core/src/observation.rs 249-261 ObserverPublish::publish *)
Definition ObserverPublish (id : Z) (callback : nat) (s : HubState) : result unit unit * HubState :=
  match hub_publish_observer (hs_hub s) id callback with
  | Some hub => (Ok tt, with_hub hub s)
  | None => (Err tt, s)
  end.

(** [None] is a panic: no identity is left, or the publication met an occupied one. *)
(* @src crates/cordis-core/src/observation.rs 265-296 ObservationHub::register *)
Definition register_observer (callback : nat) (s : HubState) : option (result unit EffectRegistrationError * HubState) :=
  '(id, hub) ← hub_fresh_id (hs_hub s);
  match push_gated (home callback) (sync_cleanup (CleanObserver id)) (ObserverPublish id callback) (with_hub hub s) with
  | (Ok _, s) => Some (Ok tt, s)
  | (Err (GatedInactiveContext, _), s) => Some (Err EffectInactiveContext, s)
  | (Err (GatedPublishRefused, _), _) => None
  end.

(** A drain claims an entry of a journal and runs it. *)
(* @src crates/cordis-core/src/observation.rs 285-287 ObservationHub::register *)
Definition drain_entry (x : Addr) (token : Z) (s : HubState) : HubState :=
  match claim_cleanup x token s with
  | (Some c, s) => match cl_run c with CleanObserver id => with_hub (hub_remove (hs_hub s) id) s | _ => s end
  | (None, s) => s
  end.

(** The journal of the Fiber files the cleanup of the observer under the token. *)
Definition files (s : HubState) (x : Addr) (token : Z) (id : Z) : Prop :=
  ∃ f c, hs_fibers s !! x = Some f ∧ (token, c) ∈ dl_map (f_journal f) ∧ cl_run c = CleanObserver id.

(** Everything else that happens to the Fibers leaves the journals in order and files no
    cleanup of an observer. *)
Definition elsewhere (s s' : HubState) : Prop :=
  hs_hub s' = hs_hub s ∧ (∀ x token id, files s' x token id ↔ files s x token id) ∧
  ∀ x f, hs_fibers s' !! x = Some f → journal_wf (f_journal f).

Definition tokens_left (s : HubState) (x : Addr) : Prop := ∀ f, hs_fibers s !! x = Some f → (dl_sn (f_journal f) < u64_max)%Z.

Inductive hub_step (s : HubState) : HubState → Prop :=
| HubRegister callback r s' : tokens_left s (home callback) → register_observer callback s = Some (r, s') → hub_step s s'
| HubDrain x token : hub_step s (drain_entry x token s)
| HubElsewhere s' : elsewhere s s' → hub_step s s'.

Definition hub_init (s : HubState) : Prop :=
  hs_hub s = ObservationHub_default ∧ (∀ x token id, ¬ files s x token id) ∧
  ∀ x f, hs_fibers s !! x = Some f → journal_wf (f_journal f).

Definition hub_reachable : HubState → Prop := reachable hub_init hub_step.

Record hub_inv (s : HubState) : Prop := {
  hi_hub : hub_wf (hs_hub s);
  hi_journals : ∀ x f, hs_fibers s !! x = Some f → journal_wf (f_journal f);
  hi_issued : ∀ x token id, files s x token id → (0 < id ≤ oh_next_id (hs_hub s))%Z;
  hi_once : ∀ x token id x' token', files s x token id → files s x' token' id → x = x' ∧ token = token';
  hi_home : ∀ id callback, oh_observers (hs_hub s) !! id = Some callback → ∃ token, files s (home callback) token id;
  hi_filed : ∀ x token id, files s x token id → ∃ callback, oh_observers (hs_hub s) !! id = Some callback ∧ home callback = x;
}.

Lemma pushed_files s x f id hub y token i :
  hs_fibers s !! x = Some f → journal_wf (f_journal f) → (dl_sn (f_journal f) < u64_max)%Z →
  files (update_fiber x (λ f, set_f_journal (dl_push (f_journal f) (sync_cleanup (CleanObserver id))).2 f) (with_hub hub s)) y token i ↔
  files s y token i ∨ y = x ∧ token = (dl_sn (f_journal f) + 1)%Z ∧ i = id.
Proof.
  intros Hf Hj Hsn. assert (dl_map (dl_push (f_journal f) (sync_cleanup (CleanObserver id))).2 = dl_map (f_journal f) ++ [((dl_sn (f_journal f) + 1)%Z, sync_cleanup (CleanObserver id))]) as Hp
    by (by rewrite (proj1 (dl_push_spec _ _ Hj Hsn))).
  unfold files. cbn [update_fiber hub_fiber_store hs_fibers with_hub]. destruct (decide (y = x)) as [->|Hne].
  - rewrite lookup_alter_eq, Hf. cbn [fmap option_fmap option_map]. split.
    + intros (g & c & [= <-] & Hin & Hc). change ((token, c) ∈ dl_map (dl_push (f_journal f) (sync_cleanup (CleanObserver id))).2) in Hin. rewrite Hp in Hin.
      apply elem_of_app in Hin as [Hin|[= -> ->]%list_elem_of_singleton]; [left; by exists f, c|]. right. by injection Hc as <-.
    + intros [(g & c & [= <-] & Hin & Hc)|(_ & -> & ->)]; eexists; [exists c|exists (sync_cleanup (CleanObserver id))];
        (split; [done|]); (split; [|done]); change (f_journal (set_f_journal ?j _)) with j; rewrite Hp; apply elem_of_app; [by left|right; by left].
  - rewrite lookup_alter_ne by done. split; [by left|]. by intros [?|[? _]].
Qed.

Lemma claimed_files s x token y token' i :
  (∀ f, hs_fibers s !! x = Some f → journal_wf (f_journal f)) →
  files (claim_cleanup x token s).2 y token' i ↔ files s y token' i ∧ (y, token') ≠ (x, token).
Proof.
  intros Hj. unfold claim_cleanup. cbn. destruct (hs_fibers s !! x) as [f|] eqn:Hf.
  - unfold files. cbn. destruct (decide (y = x)) as [->|Hne].
    + rewrite lookup_alter_eq, Hf. cbn. split.
      * intros (g & c & [= <-] & Hin & Hc). cbn in Hin. apply bt_elem_remove in Hin as [Hne Hin]; [|apply (Hj f eq_refl)].
        split; [by exists f, c|]. by intros [=].
      * intros [(g & c & [= <-] & Hin & Hc) Hne]. eexists. exists c. split; [done|]. cbn. split; [|done].
        apply bt_elem_remove; [apply (Hj f eq_refl)|]. split; [|done]. by intros ->.
    + rewrite lookup_alter_ne by done. split; [intros ?; split; [done|by intros [=]]|by intros [? _]].
  - cbn. split; [|by intros [? _]]. intros (g & c & Hg & H). split; [by exists g, c|]. intros [= -> ->]. congruence.
Qed.

Lemma register_inv callback r s s' :
  hub_inv s → tokens_left s (home callback) → register_observer callback s = Some (r, s') → hub_inv s'.
Proof.
  intros Hi Hsn. unfold register_observer. destruct (hub_fresh_id (hs_hub s)) as [[id hub]|] eqn:Hid; [|done]. cbn [mbind option_bind].
  destruct (hub_fresh_id_unused _ _ _ (hi_hub _ Hi) Hid) as [Hfree Hwf].
  assert (id = oh_next_id hub ∧ (oh_next_id (hs_hub s) < id)%Z ∧ oh_observers hub = oh_observers (hs_hub s)) as (Hid1 & Hid2 & Hobs).
  { unfold hub_fresh_id in Hid. destruct (checked_succ _) as [n|] eqn:E; [|done]. injection Hid as <- <-. apply checked_succ_Some in E as [_ ->]. cbn. split_and!; [done|lia|done]. }
  assert (hub_inv (with_hub hub s)) as Hi1.
  { destruct Hi as [H1 H2 H3 H4 H5 H6]. split; cbn; rewrite ?Hobs; [exact Hwf|done| |done..]. intros x token i Hin. specialize (H3 x token i Hin). lia. }
  unfold push_gated. cbn [fibers hub_fiber_store hs_fibers with_hub]. destruct (hs_fibers s !! home callback) as [f|] eqn:Hf; [|by intros [= <- <-]].
  destruct (assert_can_register f); [|by intros [= <- <-]]. unfold ObserverPublish, hub_publish_observer. cbn [hs_hub with_hub].
  rewrite Hfree. intros Hs. pose proof (hi_journals _ Hi _ _ Hf) as Hj. specialize (Hsn f Hf).
  set (hub1 := {| oh_next_id := oh_next_id hub; oh_observers := <[id:=callback]> (oh_observers hub) |}) in Hs.
  assert (s' = update_fiber (home callback) (λ f, set_f_journal (dl_push (f_journal f) (sync_cleanup (CleanObserver id))).2 f) (with_hub hub1 s)) as Heq by (by injection Hs).
  pose proof (λ y token i, pushed_files s (home callback) f id hub1 y token i Hf Hj Hsn) as Hfiles. rewrite <- Heq in Hfiles.
  assert (hs_fibers s' = alter (λ f, set_f_journal (dl_push (f_journal f) (sync_cleanup (CleanObserver id))).2 f) (home callback) (hs_fibers s)) as Hfs by (by rewrite Heq).
  assert (oh_next_id (hs_hub s') = id) as Hn by (by rewrite Heq).
  assert (oh_observers (hs_hub s') = <[id:=callback]> (oh_observers (hs_hub s))) as Ho by (rewrite Heq; cbn; by rewrite Hobs).
  clear Hs Heq hub1. pose proof (hi_hub _ Hi) as [Hpos Hbelow]. split.
  - split; rewrite Hn, ?Ho; [lia|]. intros i [->|[Hne Hi']]%lookup_insert_is_Some; [lia|]. apply Hbelow in Hi'. lia.
  - rewrite Hfs. intros x g Hg. destruct (decide (x = home callback)) as [->|Hne].
    + rewrite lookup_alter_eq, Hf in Hg. injection Hg as <-. by apply dl_push_spec.
    + rewrite lookup_alter_ne in Hg by done. by eapply (hi_journals _ Hi).
  - intros x token i [Hin|(_ & _ & ->)]%Hfiles; rewrite Hn; [apply (hi_issued _ Hi) in Hin|]; lia.
  - intros x token i x' token' [Hin|(-> & -> & ->)]%Hfiles [Hin'|(-> & -> & ?)]%Hfiles; subst; try done.
    + by eapply (hi_once _ Hi).
    + apply (hi_issued _ Hi) in Hin. lia.
    + apply (hi_issued _ Hi) in Hin'. lia.
  - intros i cb. rewrite Ho. intros [[<- <-]|[Hne Hcb]]%lookup_insert_Some.
    + eexists. apply Hfiles. by right.
    + destruct (hi_home _ Hi _ _ Hcb) as [token Ht]. exists token. apply Hfiles. by left.
  - intros x token i [Hin|(-> & _ & ->)]%Hfiles; rewrite Ho.
    + destruct (hi_filed _ Hi _ _ _ Hin) as (cb & Hcb & Hx). exists cb. split; [|done].
      rewrite lookup_insert_ne; [done|]. intros ->. apply (hi_issued _ Hi) in Hin. lia.
    + exists callback. by rewrite lookup_insert_eq.
Qed.

Lemma drain_inv x token s : hub_inv s → hub_inv (drain_entry x token s).
Proof.
  intros Hi. unfold drain_entry. pose proof (λ y t i, claimed_files s x token y t i (hi_journals _ Hi x)) as Hfiles.
  assert (∀ y g, hs_fibers (claim_cleanup x token s).2 !! y = Some g → journal_wf (f_journal g)) as Hj.
  { intros y g. unfold claim_cleanup. cbn. destruct (hs_fibers s !! x) as [f|] eqn:Hf; [|apply Hi]. cbn.
    destruct (decide (y = x)) as [->|Hne]; [rewrite lookup_alter_eq, Hf|rewrite lookup_alter_ne by done; apply Hi].
    intros [= <-]. cbn. apply (dl_remove_wf (f_journal f)), (hi_journals _ Hi _ _ Hf). }
  assert (hs_hub (claim_cleanup x token s).2 = hs_hub s) as Hh by (unfold claim_cleanup; cbn; by destruct (hs_fibers s !! x)).
  assert (∀ c, (claim_cleanup x token s).1 = Some c → ∃ f, hs_fibers s !! x = Some f ∧ (token, c) ∈ dl_map (f_journal f)) as Hc.
  { intros c. unfold claim_cleanup. cbn. destruct (hs_fibers s !! x) as [f|] eqn:Hf; [|done]. cbn. intros Hc. exists f. split; [done|]. by apply bt_lookup_Some_in. }
  assert (∀ f c, hs_fibers s !! x = Some f → (token, c) ∈ dl_map (f_journal f) → (claim_cleanup x token s).1 = Some c) as Hc'.
  { intros f c Hf Hin. unfold claim_cleanup. cbn. rewrite Hf. cbn. apply bt_elem; [apply (hi_journals _ Hi _ _ Hf)|done]. }
  destruct (claim_cleanup x token s) as [[c|] s1]; cbn [fst snd] in *.
  - destruct (Hc c eq_refl) as (f & Hf & Hin). assert ((∃ id, cl_run c = CleanObserver id) ∨ ∀ id, cl_run c ≠ CleanObserver id) as [[id Hid]|Hno].
    { destruct (cl_run c); eauto; by right. }
    + rewrite Hid. assert (files s x token id) as Hfl by by exists f, c.
      split; unfold with_hub; cbn.
      * rewrite Hh. destruct (hi_hub _ Hi) as [H1 H2]. split; [exact H1|]. cbn. intros i Hl. apply lookup_delete_is_Some in Hl as [_ Hl]. by apply H2.
      * exact Hj.
      * intros y t i [Hin' _]%(Hfiles y t i). rewrite Hh. cbn. by eapply (hi_issued _ Hi).
      * intros y t i y' t' [H1 _]%(Hfiles y t i) [H2 _]%(Hfiles y' t' i). by eapply (hi_once _ Hi).
      * intros i cb. rewrite Hh. cbn. intros [Hne Hcb]%lookup_delete_Some. destruct (hi_home _ Hi _ _ Hcb) as [t Ht]. exists t. apply (Hfiles (home cb) t i). split; [done|].
        intros Heq. injection Heq as Hx Ht0. subst t. rewrite Hx in Ht. destruct Ht as (g & c' & Hg & Hin' & Hc1). pose proof (Hc' g c' Hg Hin'). congruence.
      * intros y t i [Hin' Hne]%(Hfiles y t i). destruct (hi_filed _ Hi _ _ _ Hin') as (cb & Hcb & Hy). exists cb. split; [|done]. rewrite Hh. cbn.
        rewrite lookup_delete_ne; [done|]. intros ->. by destruct (hi_once _ Hi _ _ _ _ _ Hfl Hin') as [-> ->].
    + assert (hub_inv s1) as Hs1; [|by destruct (cl_run c); try exact Hs1; destruct (Hno id)].
      assert (∀ y t i, files s y t i → (y, t) ≠ (x, token)) as Hother.
      { intros y t i (g & c' & Hg & Hin' & Hc1) Heq. injection Heq as -> ->. pose proof (Hc' g c' Hg Hin'). apply (Hno i). congruence. }
      split; rewrite ?Hh; [apply Hi|exact Hj|..].
      * intros y t i [Hin' _]%Hfiles. by eapply (hi_issued _ Hi).
      * intros y t i y' t' [H1 _]%Hfiles [H2 _]%Hfiles. by eapply (hi_once _ Hi).
      * intros i cb Hcb. destruct (hi_home _ Hi _ _ Hcb) as [t Ht]. exists t. apply (Hfiles (home cb) t i). split; [done|by apply (Hother _ _ i)].
      * intros y t i [Hin' _]%Hfiles. by apply (hi_filed _ Hi y t i).
  - split; rewrite ?Hh; [apply Hi|exact Hj|..].
    + intros y t i [Hin' _]%Hfiles. by eapply (hi_issued _ Hi).
    + intros y t i y' t' [H1 _]%Hfiles [H2 _]%Hfiles. by eapply (hi_once _ Hi).
    + intros i cb Hcb. destruct (hi_home _ Hi _ _ Hcb) as [t Ht]. exists t. apply (Hfiles (home cb) t i). split; [done|].
      intros Heq. injection Heq as Hx Ht0. subst t. rewrite Hx in Ht. destruct Ht as (g & c' & Hg & Hin' & _). by discriminate (Hc' g c' Hg Hin').
    + intros y t i [Hin' _]%Hfiles. by apply (hi_filed _ Hi y t i).
Qed.

Lemma hub_reachable_inv s : hub_reachable s → hub_inv s.
Proof.
  apply reachable_invariant.
  - intros s0 (Hh & Hn & Hj). split; rewrite ?Hh; try done.
    + split; [done|]. intros id [c Hc]. change ((∅ : gmap Z nat) !! id = Some c) in Hc. by rewrite lookup_empty in Hc.
    + intros x t i H. by destruct (Hn x t i).
    + intros x t i x' t' H. by destruct (Hn x t i).
    + intros x t i H. by destruct (Hn x t i).
  - intros s0 s1 _ Hi Hs. destruct Hs as [cb r s1 Hsn Hr|x t|s1 (Hh & Hfl & Hj)]; [by eapply register_inv|by apply drain_inv|].
    destruct Hi as [H1 H2 H3 H4 H5 H6]. split; rewrite ?Hh; try done.
    + intros x t i Hx%Hfl. by eapply H3.
    + intros x t i x' t' Hx%Hfl Hx'%Hfl. by eapply H4.
    + intros i cb Hcb. destruct (H5 _ _ Hcb) as [t Ht]. exists t. by apply Hfl.
    + intros x t i Hx%Hfl. by apply H6 in Hx.
Qed.
End observers.


(** The root Fiber registers an observer. *)
Definition hub_sample : HubState :=
  {| hs_fibers := match Fiber_root 0 with Some f => {[ 0 := f ]} | None => ∅ end; hs_hub := ObservationHub_default |}.

Lemma hub_sample_init : hub_init hub_sample.
Proof.
  split; [done|]. split.
  - intros x token id (f & c & Hf & Hin & _). cbn in Hf. apply lookup_singleton_Some in Hf as [<- <-]. by apply not_elem_of_nil in Hin.
  - intros x f Hf. cbn in Hf. apply lookup_singleton_Some in Hf as [<- <-]. apply DisposableList_new_wf.
Qed.


(** * Snapshots *)

(** The root Fiber first, then the residents of one moment, each as it was read ([seen],
    from its world and its body, which the handle keeps); then the occurrences of one
    moment of the Service store. *)
(* @src crates/cordis-core/src/context.rs 238-272 Context::runtime_snapshot *)
Definition runtime_snapshot (w : World) (seen : Addr → World * Fiber) (w' : World) : list FiberSnapshot * list ServiceOccurrenceSnapshot :=
  let root := {| fs_id := wd_main w; fs_role := Root; fs_name := from_option f_name "root" (world_fibers w !! wd_main w); fs_state := Active; fs_missing_services := [] |} in
  (root :: ((λ x, fiber_snapshot (seen x).1 (seen x).2) <$> snapshot_fibers (gr_registry (graph_of w))),
   snapshot_occurrences (root_stores (wd_root w'))).

(** A row of a snapshot: the slot it shows, whose owner accepts registrations. *)
Lemma snapshot_row w row :
  row ∈ snapshot_occurrences (root_stores (wd_root w)) ↔
  ∃ slot f, slots (services_of w) !! (os_realm row, os_service row) = Some slot ∧ ss_occurrence slot = os_id row ∧
            world_fibers w !! ss_fiber slot = Some f ∧ gate_open f ∧ os_provider row = f_id f ∧
            os_visible row = bool_decide (fiber_state f = Active).
Proof.
  unfold snapshot_occurrences. rewrite list_elem_of_omap. split.
  - intros ([[key name] slot] & Hin%elem_of_map_to_list & Hrow).
    destruct (gr_fibers (so_graph (root_stores (wd_root w))) !! ss_fiber slot) as [f|] eqn:Hf; [|done].
    rewrite assert_can_register_spec in Hrow. case_decide as Hg; [|done]. injection Hrow as <-. by exists slot, f.
  - intros (slot & f & Hs & Ho & Hf & Hg & Hp & Hv). exists ((os_realm row, os_service row), slot). split; [by apply elem_of_map_to_list|].
    change (gr_fibers (so_graph (root_stores (wd_root w)))) with (world_fibers w). rewrite Hf, assert_can_register_spec, decide_True by done.
    destruct row; cbn in *. by subst.
Qed.

(** What a snapshot says.  In a reachable Runtime the root Fiber and each resident are listed
    once; a slot is listed at most once, under the identity of its publication; a row is
    marked visible exactly when a lookup of its Service answers with that publication; and
    a publication a lookup answers with is listed unless its owner has begun to close. *)
Theorem snapshot_agrees_with_lookups (membership main : Addr) (ops : list Op) (w0 w : World) (seen : Addr → World * Fiber)
    (Hnew : world_new membership main = Some w0) (Hrun : run ops w0 = Some w) (Hseen : ∀ x, f_id (seen x).2 = x) :
  let '(fibers, services) := runtime_snapshot w seen w in
  fs_id <$> fibers = wd_main w :: snapshot_fibers (gr_registry (graph_of w)) ∧ NoDup (snapshot_fibers (gr_registry (graph_of w))) ∧
  (∀ r r', r ∈ services → r' ∈ services → os_realm r = os_realm r' → os_service r = os_service r' → r = r') ∧
  (∀ r, r ∈ services → os_visible r = true ↔ occurrence_at w (os_realm r) (os_service r) = Some (os_id r)) ∧
  ∀ key name o slot f, occurrence_at w key name = Some o → slots (services_of w) !! (key, name) = Some slot →
    world_fibers w !! ss_fiber slot = Some f → gate_open f →
    ∃ r, r ∈ services ∧ os_id r = o ∧ os_realm r = key ∧ os_service r = name ∧ os_visible r = true.
Proof.
  pose proof (reached_ok _ _ _ _ _ Hnew Hrun) as Hok. cbn [runtime_snapshot]. split_and!.
  - cbn. f_equal. rewrite <- list_fmap_compose. rewrite <- (list_fmap_id (snapshot_fibers _)) at 2. apply list_fmap_ext. intros i x _. apply Hseen.
  - apply (wo_registry _ Hok).
  - intros r r' (s1 & f1 & H1 & H2 & H3 & _ & H4 & H5)%snapshot_row (s2 & f2 & G1 & G2 & G3 & _ & G4 & G5)%snapshot_row Hr Hn.
    rewrite Hr, Hn in H1. destruct r, r'; cbn in *. simplify_eq. congruence.
  - intros r (slot & f & H1 & H2 & H3 & Hg & _ & H5)%snapshot_row. unfold occurrence_at, occurrence_id.
    fold (services_of w). rewrite H1. unfold visible. change (gr_fibers (so_graph (root_stores (wd_root w)))) with (world_fibers w). rewrite H3, H5.
    destruct Hg as (Ha & _). rewrite Ha. cbn. destruct (bool_decide _); [|done]. split; [by rewrite H2|done].
  - intros key name o slot f Ho Hs Hf Hg. unfold occurrence_at, occurrence_id in Ho. fold (services_of w) in Ho. rewrite Hs in Ho.
    unfold visible in Ho. change (gr_fibers (so_graph (root_stores (wd_root w)))) with (world_fibers w) in Ho. rewrite Hf in Ho.
    destruct (f_alive f && _) eqn:Hv; [|done]. injection Ho as <-. apply andb_true_iff in Hv as [_ Hv].
    exists {| os_id := ss_occurrence slot; os_service := name; os_realm := key; os_provider := f_id f; os_visible := true |}.
    split_and!; [|done..]. apply snapshot_row. exists slot, f. cbn. by rewrite Hv.
Qed.
