(* ===== verification/GenerationLive.v ===== *)
(** A teardown completes (Generation.v): left to run, with its cleanups ending and the
    journal of its Fiber unlocked, a teardown reaches the end of its barrier in a number
    of steps bounded by the journal it found. *)
From S2P Require Import Prelude Axes BTree Lifecycle Journal EventStore Observation Plugin Fiber Registry Deps Services Generation GenerationInv GenerationOps GenerationEffect GenerationProps.

(** * Transitions that do not exhaust the publication counters *)

Definition can_publish (p : StatePublication) (next : FiberState) : Prop :=
  publication_wf p ∧ (sp_revision p next < u64_max)%Z ∧ (sp_sequence p < u64_max)%Z.

Lemma set_state_progress next f :
  can_publish (f_state f) next → set_state next f = Some (set_f_state (sp_publish (f_state f) next).2 f).
Proof.
  intros (Hwf & Hr & Hs). unfold set_state. pose proof (sp_publish_spec (f_state f) next Hwf) as H.
  destruct (sp_publish (f_state f) next) as [[o|e] p]; [done|]. destruct H as (_ & _ & _ & _ & H). lia.
Qed.

(** A transition succeeds, and publishes the state. *)
Lemma transition_progress served x next r f :
  graph_wf served (so_graph (root_stores r)) → root_heap r !! x = Some f → can_publish (f_state f) next →
  ∃ r' f', transition x next r = Some r' ∧ root_heap r' !! x = Some f' ∧ f_state f' = (sp_publish (f_state f) next).2.
Proof.
  intros Hg Hf Hp.
  assert (∀ so, transition_stores x next f (root_stores r) = Some so → ∃ r', transition x next r = Some r') as Hrun.
  { unfold transition_stores, transition. rewrite Hf. cbn [mbind option_bind]. intros so Hs.
    destruct (decide _); [by eexists|]. destruct (negb _ && _).
    - destruct (commit_fiber_transition _ _ _) as [[[v d] so']|]; [|done]. cbn [mbind option_bind].
      destruct (f_installed f); by eexists.
    - destruct (set_state next f); [|done]. cbn [mbind option_bind]. destruct (f_installed f); by eexists. }
  destruct (decide (fiber_state f = next)) as [Heq|Hne].
  { exists r, f. unfold transition. rewrite Hf. cbn [mbind option_bind]. rewrite decide_True by done.
    split_and!; [done..|]. unfold sp_publish. by rewrite decide_True. }
  assert (∃ so f', transition_stores x next f (root_stores r) = Some so ∧ fibers so !! x = Some f' ∧
            f_state f' = (sp_publish (f_state f) next).2) as (so & f' & Hts & Hf' & Hst).
  { unfold transition_stores. destruct (negb _ && _).
    - unfold commit_fiber_transition. set (v := _ <$> owned_slots _ _). set (edges := _ <$> v).
      destruct (drift_if_drifts (negb (bool_decide (v = []))) served _ edges Hg) as (_ & Ha & _).
      destruct (drift_if _ _ edges) as [d g]. cbn [snd] in Ha.
      destruct (heap_agrees_lookup_l _ _ _ _ Ha Hf) as (f0 & Hf0 & Hagr).
      assert (f_state f0 = f_state f) as Hs0 by (by rewrite Hagr).
      rewrite Hf0. cbn [mbind option_bind]. rewrite set_state_progress by (by rewrite Hs0). cbn [mbind option_bind].
      do 2 eexists. split; [done|]. cbn. rewrite lookup_insert_eq, Hs0. by split.
    - rewrite set_state_progress by done. cbn [mbind option_bind]. do 2 eexists. split; [done|].
      cbn. unfold root_heap in Hf. rewrite lookup_alter_eq, Hf. by split. }
  destruct (Hrun _ Hts) as [r' Hr']. exists r', f'. split; [done|].
  destruct (transition_stores_eq _ _ _ _ _ Hf Hr') as (_ & _ & [[? _]|[_ Hts']]); [done|].
  rewrite Hts in Hts'. injection Hts' as ->. by split.
Qed.

Lemma move_progress x next w f :
  world_ok w → world_fibers w !! x = Some f → can_publish (f_state f) next →
  ∃ r f', move x next w = Some (put_root r w) ∧ root_heap r !! x = Some f' ∧
    f_state f' = (sp_publish (f_state f) next).2 ∧ f_journal f' = f_journal f.
Proof.
  intros Hok Hf Hp. destruct (transition_progress _ x next _ f (wo_graph _ Hok) Hf Hp) as (r & f' & Ht & Hf' & Hst).
  exists r, f'. assert (move x next w = Some (put_root r w)) as Hm by (unfold move; by rewrite Ht). split_and!; try done.
  destruct (solo_move x next f w _ (put_root r w) Hok Hf Hm) as (f1 & Hs & Htr); try done.
  pose proof (sl_after _ _ _ _ _ Hs) as Hf1. change (root_heap r !! x = Some f1) in Hf1.
  assert (f1 = f') as -> by congruence. by destruct (transitioned_fields _ _ _ Htr) as (_ & ? & _).
Qed.

(** * The pass left to run *)

(** The pass of [x] takes its next step, or the cleanup it waits for ends. *)
Definition tick (x : Addr) (w : World) : option World :=
  match wd_running w !! x with
  | Some _ => step (OpRunEnd x) w
  | None => step (OpDrive x ApplyDone) w
  end.

(** The pass runs to its end, in at most [fuel] steps. *)
Fixpoint pursue (fuel : nat) (x : Addr) (w : World) : option World :=
  match wd_drivers w !! x with
  | None => Some w
  | Some _ => match fuel with 0 => None | S fuel => w ← tick x w; pursue fuel x w end
  end.

Definition arrives (fuel : nat) (x : Addr) (w : World) (P : World → Prop) : Prop :=
  ∃ w', pursue fuel x w = Some w' ∧ P w'.

Lemma arrives_tick fuel x w w1 d P :
  wd_drivers w !! x = Some d → tick x w = Some w1 → arrives fuel x w1 P → arrives (S fuel) x w P.
Proof. intros Hd Ht (w' & Hp & HP). exists w'. cbn [pursue]. rewrite Hd, Ht. by split. Qed.

Lemma pursue_mono fuel fuel' x w w' : fuel ≤ fuel' → pursue fuel x w = Some w' → pursue fuel' x w = Some w'.
Proof.
  revert fuel' w. induction fuel as [|fuel IH]; intros fuel' w Hle; cbn [pursue].
  - destruct (wd_drivers w !! x) eqn:Hd; [done|]. intros [= <-]. destruct fuel'; cbn [pursue]; by rewrite Hd.
  - destruct (wd_drivers w !! x) eqn:Hd; [|intros [= <-]; destruct fuel'; cbn [pursue]; by rewrite Hd].
    destruct fuel' as [|fuel']; [lia|]. cbn [pursue]. rewrite Hd. destruct (tick x w); [|done]. apply IH. lia.
Qed.

Lemma arrives_mono fuel fuel' x w P : fuel ≤ fuel' → arrives fuel x w P → arrives fuel' x w P.
Proof. intros Hle (w' & Hp & HP). exists w'. split; [by eapply pursue_mono|done]. Qed.

(** The Fiber of a pass that nothing blocks. *)
Record ready (x : Addr) (f : Fiber) (w : World) : Prop := {
  rd_ok : world_ok w;
  rd_fiber : world_fibers w !! x = Some f;
  rd_unlocked : wd_sections w !! x = None;
}.

Definition torn_down (x : Addr) (w : World) : Prop :=
  wd_drivers w !! x = None ∧ (x ∉ snapshot_fibers (gr_registry (graph_of w))) ∧ (x ∉ wd_served w) ∧ owns_nothing w x ∧
  ∃ f, world_fibers w !! x = Some f ∧ fiber_state f = Disposed ∧ f_alive f = false ∧ f_dispose_complete f = true.

Lemma ready_step x f f' op w w' :
  ready x f w → step op w = Some w' → world_fibers w' !! x = Some f' → wd_sections w' !! x = None → ready x f' w'.
Proof. intros [Hok _ _] Hs Hf' Hsec. split; [by eapply step_ok|done..]. Qed.

(** A step of the pass. *)
Lemma tick_drive x f d w :
  world_fibers w !! x = Some f → wd_drivers w !! x = Some d → wd_running w !! x = None →
  tick x w = match settle_step x f d ApplyDone w with
             | Some w => Some w
             | None => match drain_step x f d w with Some w => Some w | None => teardown_step x f d w end
             end.
Proof. intros Hf Hd Hr. unfold tick. rewrite Hr. cbn [step]. unfold drive. by rewrite Hd, Hf. Qed.

Lemma tick_step x w w' : wd_running w !! x = None → tick x w = Some w' → step (OpDrive x ApplyDone) w = Some w'.
Proof. intros Hr. unfold tick. by rewrite Hr. Qed.

Lemma arrives_release x f w : ready x f w → wd_drivers w !! x = Some DRelease → arrives 1 x w (torn_down x).
Proof.
  intros Hrd Hd. destruct (Hrd) as [Hok Hf Hsec].
  destruct (driven_at _ _ _ _ Hok Hf Hd) as [Hat (Hq & Hst)].
  pose proof Hq as (_ & Hrun & _). pose proof (tick_drive x f _ w Hf Hd Hrun) as Ht. cbn [settle_step drain_step teardown_step] in Ht.
  destruct (wo_registry _ Hok) as [Hwf Hu]. destruct (release_spec _ _ x f Hwf Hu Hf) as (reg & Hrel & _ & _ & Hres).
  set (w' := stop x _) in Ht. pose proof (step_ok _ _ _ Hok (tick_step _ _ _ Hrun Ht)) as Hok'.
  assert (wd_drivers w' !! x = None ∧ wd_running w' = wd_running w ∧ wd_sections w' = wd_sections w ∧ wd_main w' = wd_main w) as (Hd' & Hrun' & Hsec' & Hm').
  { unfold w', release_world. unfold graph_of, world_fibers, root_heap in Hrel. rewrite Hrel.
    destruct (_ && _); cbn; by rewrite lookup_delete_eq. }
  assert (gr_registry (graph_of w') = reg ∧ world_fibers w' !! x = Some (set_f_dispose_complete true (set_f_residency None f))) as [Hreg Hf'].
  { unfold w', release_world. unfold graph_of, world_fibers, root_heap in *. rewrite Hrel.
    destruct (_ && _); cbn; by rewrite lookup_alter_eq, lookup_insert_eq. }
  eapply arrives_tick; [done|exact Ht|]. exists w'. cbn [pursue]. rewrite Hd'. split; [done|].
  set (f' := set_f_dispose_complete _ _) in *. pose proof (wo_fibers _ Hok' _ _ Hf') as Hi. unfold fiber_ok in Hi.
  rewrite Hd', Hrun', Hsec' in Hi.
  assert (f_alive f' = false) as Ha by (by apply (fi_dead _ _ _ _ _ _ _ _ _ _ Hi)).
  split_and!; [done| | | |by exists f'].
  - unfold snapshot_fibers. rewrite Hreg, Hres. naive_solver.
  - intros Hs. destruct (fi_served _ _ _ _ _ _ _ _ _ _ Hi) as [_ [?|[o ?]]]; [by apply bool_decide_eq_true_2|congruence|done].
  - eapply quiet_owns_nothing; [done..|]. rewrite Hrun', Hsec'. exact Hq.
Qed.

Lemma arrives_disposed x f w :
  ready x f w → can_publish (f_state f) Disposed → wd_drivers w !! x = Some DDisposed → arrives 2 x w (torn_down x).
Proof.
  intros Hrd Hroom Hd. destruct (Hrd) as [Hok Hf Hsec].
  destruct (driven_at _ _ _ _ Hok Hf Hd) as [Hat (Hq & Hst & Ha)]. pose proof Hq as (_ & Hrun & _).
  pose proof (tick_drive x f _ w Hf Hd Hrun) as Ht. cbn [settle_step drain_step teardown_step] in Ht.
  destruct (move_progress x Disposed w f Hok Hf Hroom) as (r & f1 & Hm & Hf1 & _). rewrite Hm in Ht.
  cbn [mbind option_bind] in Ht. eapply arrives_tick; [done|exact Ht|].
  apply (arrives_release x (store_error None f1)); [|apply lookup_insert_eq].
  eapply ready_step; [exact Hrd|exact (tick_step _ _ _ Hrun Ht)| |done].
  exact (on_lookup x (store_error None) (put_root r w) f1 Hf1).
Qed.

(** ** The drain *)

Lemma arrives_drain o n x rest f w :
  length rest = n → ready x f w → can_publish (f_state f) Disposed → wd_drivers w !! x = Some (DDrain rest (KDispose o)) →
  arrives (3 * n + 3) x w (torn_down x).
Proof.
  revert rest f w. induction n as [|n IH]; intros rest f w Hn Hrd Hroom Hd; destruct (Hrd) as [Hok Hf Hsec];
    destruct (driven_at _ _ _ _ Hok Hf Hd) as [Hat (Hst & Hk & Hrun & _)];
    pose proof (tick_drive x f _ w Hf Hd Hrun) as Ht; cbn [settle_step drain_step] in Ht.
  - destruct rest; [|done]. cbn [rev] in Ht. eapply arrives_tick; [done|exact Ht|].
    apply (arrives_disposed x (set_f_draining false f)); [|done|apply lookup_insert_eq].
    eapply ready_step; [exact Hrd|exact (tick_step _ _ _ Hrun Ht)| |done].
    exact (on_lookup x (set_f_draining false) w f Hf).
  - destruct (rev rest) as [|token rest'] eqn:Hrev.
    { apply (f_equal length) in Hrev. rewrite length_rev in Hrev. cbn in Hrev. lia. }
    assert (length (rev rest') = n) as Hlen.
    { apply (f_equal length) in Hrev. rewrite length_rev in Hrev. rewrite length_rev. cbn in Hrev. lia. }
    unfold unlocked in Ht. rewrite bool_decide_true in Ht by done. rewrite (claim_root _ _ _ _ Hf) in Ht.
    destruct (bt_lookup _ _) as [c|] eqn:Hlk.
    + replace (3 * S n + 3) with (S (S (S (3 * n + 3)))) by lia.
      match type of Ht with _ = Some ?v => set (w1 := v) in Ht end.
      pose proof (tick_step _ _ _ Hrun Ht) as Hs1.
      assert (ready x (removed token f) w1) as Hrd1
        by (eapply ready_step; [exact Hrd|exact Hs1|exact (on_lookup x (removed token) w f Hf)|done]).
      assert (wd_drivers w1 !! x = Some (DRunning (rev rest') (KDispose o))) as Hd1 by (cbn; by rewrite lookup_insert_eq).
      assert (wd_running w1 !! x = Some c) as Hrun1 by (cbn; by rewrite lookup_insert_eq).
      eapply arrives_tick; [done|exact Ht|].
      (* the cleanup ends *)
      assert (∃ w2, tick x w1 = Some w2 ∧ step (OpRunEnd x) w1 = Some w2) as (w2 & Ht2 & Hs2).
      { unfold tick. rewrite Hrun1. cbn [step]. rewrite Hrun1. cbn [mbind option_bind]. eexists. by split. }
      pose proof Hs2 as Hw2. cbn [step] in Hw2. rewrite Hrun1 in Hw2. cbn [mbind option_bind] in Hw2.
      injection Hw2 as Hw2. pose proof (fs_graph _ _ (run_action_fewer (cl_run c) (root_stores (wd_root w1)))) as Hgr.
      assert (ready x (removed token f) w2) as Hrd2.
      { eapply ready_step; [exact Hrd1|exact Hs2| |by subst w2]. subst w2.
        change (gr_fibers (so_graph (run_action (cl_run c) (root_stores (wd_root w1)))) !! x = Some (removed token f)).
        rewrite Hgr. apply Hrd1. }
      assert (wd_drivers w2 !! x = Some (DRunning (rev rest') (KDispose o))) as Hd2 by (by subst w2).
      assert (wd_running w2 !! x = None) as Hrun2 by (subst w2; cbn; apply lookup_delete_eq).
      eapply arrives_tick; [exact Hd1|exact Ht2|].
      (* and the drain goes on *)
      pose proof (tick_drive x _ _ w2 (rd_fiber _ _ _ Hrd2) Hd2 Hrun2) as Ht3. cbn [settle_step drain_step] in Ht3.
      rewrite bool_decide_true in Ht3 by done. eapply arrives_tick; [exact Hd2|exact Ht3|].
      apply (IH (rev rest') (removed token f)); [done| |done|apply lookup_insert_eq].
      eapply ready_step; [exact Hrd2|exact (tick_step _ _ _ Hrun2 Ht3)|apply Hrd2|apply Hrd2].
    + apply (arrives_mono (S (3 * n + 3))); [lia|]. eapply arrives_tick; [done|exact Ht|].
      apply (IH (rev rest') (removed token f)); [done| |done|apply lookup_insert_eq].
      eapply ready_step; [exact Hrd|exact (tick_step _ _ _ Hrun Ht)|exact (on_lookup x (removed token) w f Hf)|done].
Qed.

(** ** The whole teardown *)

Lemma arrives_snapshot o x f w :
  ready x f w → can_publish (f_state f) Disposed → wd_drivers w !! x = Some (DSnapshot (KDispose o)) →
  wd_running w !! x = None → arrives (3 * length (dl_map (f_journal f)) + 4) x w (torn_down x).
Proof.
  intros Hrd Hroom Hd Hrun. destruct (Hrd) as [Hok Hf Hsec].
  pose proof (tick_drive x f _ w Hf Hd Hrun) as Ht. cbn [settle_step drain_step] in Ht.
  unfold unlocked in Ht. rewrite !bool_decide_true in Ht by done. cbn [andb] in Ht.
  replace (3 * length (dl_map (f_journal f)) + 4) with (S (3 * length (dl_map (f_journal f)) + 3)) by lia.
  eapply arrives_tick; [done|exact Ht|].
  apply (arrives_drain o _ x (dl_tokens (f_journal f)) (set_f_draining true f));
    [unfold dl_tokens, bt_keys; by rewrite length_fmap| |done|apply lookup_insert_eq].
  eapply ready_step; [exact Hrd|exact (tick_step _ _ _ Hrun Ht)|exact (on_lookup x (set_f_draining true) w f Hf)|done].
Qed.

Lemma arrives_unregister o x f w :
  ready x f w → can_publish (f_state f) Disposed → wd_drivers w !! x = Some (DUnregister o) →
  wd_running w !! x = None → arrives (3 * length (dl_map (f_journal f)) + 5) x w (torn_down x).
Proof.
  intros Hrd Hroom Hd Hrun. destruct (Hrd) as [Hok Hf Hsec].
  pose proof (tick_drive x f _ w Hf Hd Hrun) as Ht. cbn [settle_step drain_step teardown_step] in Ht.
  replace (3 * length (dl_map (f_journal f)) + 5) with (S (3 * length (dl_map (f_journal f)) + 4)) by lia.
  eapply arrives_tick; [done|exact Ht|].
  assert (world_fibers (unindex x f w) = world_fibers w ∧ wd_running (unindex x f w) = wd_running w ∧
          wd_sections (unindex x f w) = wd_sections w) as (Hh & Hr & Hs) by (unfold unindex; by destruct (f_installed f)).
  apply (arrives_snapshot o); [|done|apply lookup_insert_eq|].
  - eapply ready_step; [exact Hrd|exact (tick_step _ _ _ Hrun Ht)| |].
    + change (world_fibers (unindex x f w) !! x = Some f). by rewrite Hh.
    + change (wd_sections (unindex x f w) !! x = None). by rewrite Hs.
  - change (wd_running (unindex x f w) !! x = None). by rewrite Hr.
Qed.

Lemma arrives_kill o x f w :
  ready x f w → can_publish (f_state f) Disposed → wd_drivers w !! x = Some (DKill o) →
  wd_running w !! x = None → arrives (3 * length (dl_map (f_journal f)) + 6) x w (torn_down x).
Proof.
  intros Hrd Hroom Hd Hrun. destruct (Hrd) as [Hok Hf Hsec].
  pose proof (tick_drive x f _ w Hf Hd Hrun) as Ht. cbn [settle_step drain_step teardown_step] in Ht.
  replace (3 * length (dl_map (f_journal f)) + 6) with (S (3 * length (dl_map (f_journal f)) + 5)) by lia.
  eapply arrives_tick; [done|exact Ht|].
  apply (arrives_unregister o x (set_f_alive false f)); [|done|apply lookup_insert_eq|done].
  eapply ready_step; [exact Hrd|exact (tick_step _ _ _ Hrun Ht)|exact (on_lookup x (set_f_alive false) w f Hf)|done].
Qed.

(** The publication counters leave room for the two transitions of a teardown. *)
Definition room_for_teardown (p : StatePublication) : Prop :=
  publication_wf p ∧ (sp_revision p Unloading < u64_max)%Z ∧ (sp_revision p Disposed < u64_max)%Z ∧ (sp_sequence p + 1 < u64_max)%Z.

Lemma room_after_unloading p :
  room_for_teardown p → can_publish p Unloading ∧ can_publish p Disposed ∧ can_publish (sp_publish p Unloading).2 Disposed.
Proof.
  intros (Hwf & Hu & Hd & Hs). split_and!; [by split_and!; [..|lia]|by split_and!; [..|lia]|].
  pose proof (sp_publish_spec p Unloading Hwf) as H. destruct (sp_publish p Unloading) as [r p']. cbn [snd].
  destruct H as (Hwf' & _ & _ & H). split; [done|]. destruct r as [[old|]|e].
  - destruct H as (_ & _ & _ & Ho & ->). rewrite Ho by done. lia.
  - destruct H as [-> _]. lia.
  - destruct H as [_ H]. lia.
Qed.

Lemma arrives_teardown o x f w :
  ready x f w → room_for_teardown (f_state f) → wd_drivers w !! x = Some (DTeardown o) → wd_running w !! x = None →
  arrives (3 * length (dl_map (f_journal f)) + 7) x w (torn_down x).
Proof.
  intros Hrd Hroom Hd Hrun. destruct (Hrd) as [Hok Hf Hsec]. destruct (room_after_unloading _ Hroom) as (Hcu & Hcd & Hcd').
  pose proof (tick_drive x f _ w Hf Hd Hrun) as Ht. cbn [settle_step drain_step teardown_step] in Ht.
  set (f0 := set_f_creation_pending false f).
  pose proof (on_like_ok x f (set_f_creation_pending false) w Hok Hf ltac:(by split)) as Hok0.
  pose proof (on_lookup x (set_f_creation_pending false) w f Hf) as Hf0.
  replace (3 * length (dl_map (f_journal f)) + 7) with (S (3 * length (dl_map (f_journal f)) + 6)) by lia.
  destruct (decide (fiber_state f = Disposed)) as [Hst|Hst].
  - eapply arrives_tick; [done|exact Ht|]. eapply arrives_mono; [|apply (arrives_release x f0); [|apply lookup_insert_eq]]; [lia|].
    eapply ready_step; [exact Hrd|exact (tick_step _ _ _ Hrun Ht)|exact Hf0|done].
  - destruct (move_progress x Unloading _ f0 Hok0 Hf0 Hcu) as (r & f1 & Hm & Hf1 & Hs1 & Hj1). rewrite Hm in Ht.
    cbn [mbind option_bind] in Ht. eapply arrives_tick; [done|exact Ht|].
    change (f_journal f0) with (f_journal f) in Hj1. rewrite <- Hj1.
    apply (arrives_kill o x f1); [|by rewrite Hs1|apply lookup_insert_eq|done].
    eapply ready_step; [exact Hrd|exact (tick_step _ _ _ Hrun Ht)|exact Hf1|done].
Qed.

(** [C5] A teardown completes.  In any reachable world with a teardown of [x] about to
    start, no registration holding its journal and no earlier cleanup of it still
    running, the pass left to run (every claimed cleanup ending) passes its barrier
    within three steps per journal entry and seven more: [x] is then Disposed and dead,
    owns nothing, is not served by the index and is no longer resident.  The publication
    counters must leave room for its two transitions; the code panics otherwise. *)
Theorem teardown_completes (membership main : Addr) (ops : list Op) (w0 w : World) (x : Addr) (o : bool) (f : Fiber)
    (Hnew : world_new membership main = Some w0) (Hrun : run ops w0 = Some w)
    (Hd : wd_drivers w !! x = Some (DTeardown o)) (Hf : world_fibers w !! x = Some f)
    (Hunlocked : wd_sections w !! x = None) (Hidle : wd_running w !! x = None) (Hroom : room_for_teardown (f_state f)) :
  ∃ w', pursue (3 * length (dl_map (f_journal f)) + 7) x w = Some w' ∧ torn_down x w'.
Proof. apply (arrives_teardown o x f w); [|done..]. split; [by eapply reached_ok|done..]. Qed.

Example teardown_completes_witness :
  wd_drivers (sample (until_active ++ [OpTeardown 1 true])) !! 1 = Some (DTeardown true) ∧
  ∃ w', pursue 10 1 (sample (until_active ++ [OpTeardown 1 true])) = Some w' ∧ torn_down 1 w'.
Proof.
  split; [computed|].
  destruct (world_fibers (sample (until_active ++ [OpTeardown 1 true])) !! 1) as [f|] eqn:Hf; [|by vm_compute in Hf].
  assert (length (dl_map (f_journal f)) = 1 ∧ f_state f = {| sp_current := Active; sp_revisions := [1; 1; 1; 0; 0; 0]%Z; sp_sequence := 2 |}) as [Hl Hs].
  { assert ((λ f, (length (dl_map (f_journal f)), f_state f)) <$> Some f =
        Some (1, {| sp_current := Active; sp_revisions := [1; 1; 1; 0; 0; 0]%Z; sp_sequence := 2 |})) as [= ? ?]
      by (rewrite <- Hf; computed). by split. }
  destruct (teardown_completes 0 0 (until_active ++ [OpTeardown 1 true]) (sample [])
              (sample (until_active ++ [OpTeardown 1 true])) 1 true f sample_new) as (w' & Hp & Hw);
    [computed|computed|exact Hf|computed|computed| |].
  - rewrite Hs. unfold room_for_teardown, sp_revision, u64_max. split; [|cbn; lia].
    split; [done| |cbn; unfold u64_max; lia]. intros []; unfold sp_revision, u64_max; cbn; lia.
  - rewrite Hl in Hp. exists w'. exact (conj Hp Hw).
Defined.
