(* ===== verification/GenerationAge.v ===== *)
(** Facts about a Fiber that no step of the Runtime (Generation.v) takes back: the
    terminal mark, the death mark, the Disposed state, the completed teardown, the
    released residency, and a teardown under way. *)
From S2P Require Import Prelude Axes BTree Lifecycle Journal EventStore Observation Plugin Fiber Registry Deps Services Generation GenerationInv GenerationOps GenerationEffect.

(** * Ageing *)

Lemma journal_ext_trans f g h : journal_ext f g → journal_ext g h → journal_ext f h.
Proof.
  intros [S1 L1] [S2 L2]. split; [lia|]. intros t c [Ht|Ht]%L2; [by apply L1|]. right. lia.
Qed.

(** The positions of a teardown: those that end with the completed barrier. *)
Definition dying (d : Driver) : Prop :=
  match d with
  | DTeardown _ | DKill _ | DUnregister _ | DDisposed | DRelease => True
  | DSnapshot k | DDrain _ k | DRunning _ k => match k with KDispose _ => True | _ => False end
  | _ => False
  end.

(** The teardown of the Fiber is complete or under way. *)
Definition doomed (w : World) (x : Addr) (f : Fiber) : Prop :=
  f_dispose_complete f = true ∨ ∃ d, wd_drivers w !! x = Some d ∧ dying d.

(** No pass of the Fiber has changed its state since it came to rest. *)
Definition resting (w : World) (x : Addr) : Prop :=
  match wd_drivers w !! x with None | Some (DSettle _ _) => True | _ => False end.

(** The positions whose step publishes a state other than Unloading. *)
Definition publishes (d : Driver) : Prop :=
  match d with DDecide _ _ | DLoading _ | DEnded _ _ | DFailed _ | DDisposed => True | _ => False end.

(** The Fibers whose spawn record the step may set, and those whose parked failure it may
    take; the last four facts of an age are about the others, and hold of single steps. *)
Section ageing.
Context (recorded taken : Addr → Prop).

Record ages (w w' : World) (x : Addr) (f f' : Fiber) : Prop := {
  ag_disposing : f_disposing f = true → f_disposing f' = true;
  ag_complete : f_dispose_complete f = true → f_dispose_complete f' = true;
  ag_dead : f_alive f = false → f_alive f' = false;
  ag_disposed : fiber_state f = Disposed → fiber_state f' = Disposed;
  ag_released : f_residency f = None → f_residency f' = None;
  ag_completed : f_dispose_complete f' = true →
    f_dispose_complete f = true ∨ fiber_state f' = Disposed ∧ f_residency f' = None;
  ag_doomed : doomed w x f → doomed w' x f';
  ag_died : f_alive f' = false → f_alive f = false ∨ doomed w' x f';
  ag_spawn : ¬ recorded x → f_spawn f' = f_spawn f;
  ag_journal : journal_ext f f';
  ag_edges : f_edges f' = f_edges f;
  ag_told : ¬ taken x → resting w' x → fiber_state f' = Failed → f_error f' = None →
    resting w x ∧ fiber_state f = Failed ∧ f_error f = None;
  ag_spared : ¬ taken x → f_alive f' = false → f_alive f = false ∨ doomed w x f;
  ag_moved : ¬ taken x → fiber_state f' ≠ fiber_state f →
    ∃ d, wd_drivers w !! x = Some d ∧ (fiber_state f' = Unloading ∨ publishes d);
  ag_applied : ¬ taken x → f_applied f' ≠ f_applied f → ∃ owns, wd_drivers w !! x = Some (DApplying owns);
}.

(** A Fiber just attached. *)
Definition newborn (f : Fiber) : Prop :=
  f_alive f = true ∧ f_disposing f = false ∧ f_dispose_complete f = false ∧ fiber_state f = Pending ∧ f_spawn f = None.

Record elapses (w w' : World) : Prop := {
  el_main : wd_main w' = wd_main w;
  el_next : root_next (wd_root w) ≤ root_next (wd_root w');
  el_fiber : ∀ x f', world_fibers w' !! x = Some f' →
    root_next (wd_root w) ≤ x ∧ newborn f' ∨ ∃ f, world_fibers w !! x = Some f ∧ ages w w' x f f';
}.

(** Two Fibers of one age. *)
Record still (f f' : Fiber) : Prop := {
  st_disposing : f_disposing f' = f_disposing f;
  st_complete : f_dispose_complete f' = f_dispose_complete f;
  st_alive : f_alive f' = f_alive f;
  st_state : fiber_state f' = fiber_state f;
  st_residency : f_residency f' = f_residency f;
  st_spawn : f_spawn f' = f_spawn f;
  st_journal : journal_ext f f';
  st_error : f_error f' = f_error f;
  st_edges : f_edges f' = f_edges f;
  st_applied : f_applied f' = f_applied f;
}.

#[export] Instance still_refl : Reflexive still.
Proof. intros f. split; try done. by apply journal_ext_same. Qed.
#[export] Instance still_trans : Transitive still.
Proof. intros f g h [] []. split; try congruence. by eapply journal_ext_trans. Qed.

(** Fibers that differ in the marks no age depends on. *)
Lemma still_same f f' :
  f_disposing f' = f_disposing f → f_dispose_complete f' = f_dispose_complete f → f_alive f' = f_alive f →
  fiber_state f' = fiber_state f → f_residency f' = f_residency f → f_spawn f' = f_spawn f → f_journal f' = f_journal f →
  f_error f' = f_error f → f_edges f' = f_edges f → f_applied f' = f_applied f → still f f'.
Proof. intros. split; try done. by apply journal_ext_same. Qed.

Lemma agree_still f f' : agree f f' → still f f'.
Proof. intros ->. by apply still_same. Qed.

Definition heap_still (h h' : gmap Addr Fiber) (y : Addr) : Prop := option_Forall2 still (h !! y) (h' !! y).

Lemma heap_still_same h h' y : h' !! y = h !! y → heap_still h h' y.
Proof. unfold heap_still. intros ->. by destruct (h !! y); constructor. Qed.

Lemma heap_still_agrees h h' y : heap_agrees h h' → heap_still h h' y.
Proof. intros Ha. unfold heap_still. destruct (Ha y); constructor. by apply agree_still. Qed.

Lemma still_ages w w' x f f' : still f f' → wd_drivers w' !! x = wd_drivers w !! x → ages w w' x f f'.
Proof.
  intros [H1 H2 H3 H4 H5 H6 H7 H8 H9 H10] Hd. split; rewrite ?H1, ?H2, ?H3, ?H4, ?H5, ?H8, ?H9, ?H10; auto; try done; [unfold doomed; by rewrite H2, Hd|].
  unfold resting. by rewrite Hd.
Qed.

(** Every Fiber but [x] is as it was. *)
Lemma elapses_at x f f' w w' :
  wd_main w' = wd_main w → root_next (wd_root w) ≤ root_next (wd_root w') →
  (∀ y, y ≠ x → heap_still (world_fibers w) (world_fibers w') y ∧ wd_drivers w' !! y = wd_drivers w !! y) →
  world_fibers w !! x = Some f → world_fibers w' !! x = Some f' → ages w w' x f f' → elapses w w'.
Proof.
  intros Hm Hn Ho Hf Hf' Ha. split; [done..|]. intros y g Hg. right.
  destruct (decide (y = x)) as [->|Hne]; [simplify_eq; by exists f|].
  destruct (Ho y Hne) as [Hs Hd]. unfold heap_still in Hs. rewrite Hg in Hs.
  inversion Hs as [g0 ? Hst Heq|]; subst. exists g0. split; [done|]. by apply still_ages.
Qed.

Lemma elapses_still w w' :
  wd_main w' = wd_main w → root_next (wd_root w) ≤ root_next (wd_root w') →
  (∀ y, heap_still (world_fibers w) (world_fibers w') y) → wd_drivers w' = wd_drivers w → elapses w w'.
Proof.
  intros Hm Hn Ho Hd. split; [done..|]. intros y g Hg. right. specialize (Ho y). unfold heap_still in Ho. rewrite Hg in Ho.
  inversion Ho as [g0 ? Hst Heq|]; subst. exists g0. split; [done|]. apply still_ages; [done|by rewrite Hd].
Qed.

Lemma elapses_same w w' :
  wd_main w' = wd_main w → root_next (wd_root w) ≤ root_next (wd_root w') →
  world_fibers w' = world_fibers w → wd_drivers w' = wd_drivers w → elapses w w'.
Proof. intros Hm Hn Hh Hd. apply elapses_still; [done..| |done]. intros y. apply heap_still_same. by rewrite Hh. Qed.

(** A change of one Fiber in place, and of its driver. *)
Lemma elapses_on x g f w w' :
  wd_main w' = wd_main w → root_next (wd_root w) ≤ root_next (wd_root w') →
  world_fibers w !! x = Some f → world_fibers w' = alter g x (world_fibers w) →
  (∀ y, y ≠ x → wd_drivers w' !! y = wd_drivers w !! y) → ages w w' x f (g f) → elapses w w'.
Proof.
  intros Hm Hn Hf Hh Hd Ha. eapply (elapses_at x f (g f)); [done..| |done| |done].
  - intros y Hne. split; [|by apply Hd]. apply heap_still_same. rewrite Hh. by rewrite lookup_alter_ne.
  - by rewrite Hh, lookup_alter_eq, Hf.
Qed.

Lemma drivers_goto x d w y : y ≠ x → wd_drivers (goto x d w) !! y = wd_drivers w !! y.
Proof. intros. cbn. by rewrite lookup_insert_ne. Qed.
Lemma drivers_stop x w y : y ≠ x → wd_drivers (stop x w) !! y = wd_drivers w !! y.
Proof. intros. cbn. by rewrite lookup_delete_ne. Qed.

(** * Each step *)

(** A transition of [x] to [next] among changes of its driver. *)
Lemma move_elapses x f g next w w0 w' :
  world_ok (on x g w) → world_fibers w !! x = Some f → still f (store_error (f_error f) (g f)) →
  fiber_state f ≠ Disposed → (doomed w x f → doomed w' x f) → (next = Failed → is_Some (f_error (g f))) →
  (∃ d, wd_drivers w !! x = Some d ∧ (next = Unloading ∨ publishes d)) →
  move x next (on x g w) = Some w0 →
  wd_root w' = wd_root w0 → wd_main w' = wd_main w →
  (∀ y, y ≠ x → wd_drivers w' !! y = wd_drivers w !! y) →
  elapses w w'.
Proof.
  intros Hok Hf Hst Hnd Hdm Hfl Hpub Hmv Hr Hm Hd.
  assert (wd_main w0 = wd_main (on x g w)) as Hm0
    by (revert Hmv; unfold move; destruct (transition _ _ _); [|done]; by intros [= <-]).
  destruct (solo_move x next (g f) (on x g w) w0 (put_root (wd_root w0) (on x g w)) Hok) as (f' & Hs & Htr); try done.
  { by apply on_lookup. }
  assert (world_fibers w' = world_fibers (put_root (wd_root w0) (on x g w))) as Hh by (unfold world_fibers; by rewrite Hr).
  assert (f_dispose_complete f' = f_dispose_complete f ∧ f_disposing f' = f_disposing f ∧ f_alive f' = f_alive f ∧ f_residency f' = f_residency f ∧ f_spawn f' = f_spawn f ∧
    journal_ext f f' ∧ fiber_state f' = next ∧ f_error f' = f_error (g f) ∧ f_edges f' = f_edges f ∧ f_applied f' = f_applied f)
    as (Hc & Hdi & Ha & Hre & Hsp & Hj & Hfs & Hfe & Hed & Hap).
  { destruct Htr as [Hfs Htr]. rewrite Htr at 1 2 3 4 5 6 8 9 10. cbn. destruct Hst. by split_and!. }
  eapply (elapses_at x f f').
  - done.
  - rewrite Hr. pose proof (sl_next _ _ _ _ _ Hs) as Hn. cbn in Hn. rewrite Hn. done.
  - intros y Hne. split; [|by apply Hd]. unfold heap_still. rewrite Hh.
    assert (world_fibers w !! y = world_fibers (on x g w) !! y) as ->.
    { unfold world_fibers, on, root_heap. cbn. by rewrite lookup_alter_ne. }
    assert (∃ r, w0 = put_root r (on x g w) ∧ transition x next (wd_root (on x g w)) = Some r) as (r & -> & Ht).
    { revert Hmv. unfold move. destruct (transition _ _ _) as [r|]; [|done]. intros [= <-]. by exists r. }
    assert (world_fibers (on x g w) !! x = Some (g f)) as Hgf by by apply on_lookup.
    destruct (transition_stores_eq _ _ _ _ _ Hgf Ht) as (_ & _ & [[_ ->]|[_ Hts]]); [by apply heap_still_same|].
    destruct (transition_stores_effect _ _ _ _ _ _ (wo_graph _ Hok) Hgf Hts) as [_ _ _ _ _ Ho _].
    change (option_Forall2 still (fibers (root_stores (wd_root (on x g w))) !! y) (fibers (root_stores r) !! y)).
    destruct (Ho y Hne); constructor. by apply agree_still.
  - done.
  - rewrite Hh. apply Hs.
  - split; rewrite ?Hdi, ?Hc, ?Ha, ?Hre; auto; [done| | | |].
    + intros H. destruct (Hdm H) as [?|?]; [left; congruence|by right].
    + rewrite Hfs, Hfe. intros _ _ Hnf Hnone. destruct (Hfl Hnf). congruence.
    + intros _ _. by rewrite Hfs.
    + by rewrite Hap.
Qed.

Lemma goto_doomed x d f w : wd_drivers w !! x = Some d → dying d → doomed w x f.
Proof. intros Hd Hy. right. by exists d. Qed.

Lemma on_id x w : on x id w = w.
Proof. unfold on, put_root, update_fiber. cbn. rewrite alter_id by done. destruct w as [? [? ? [? []] ? ?] ? ? ? ? ? ? ?]. done. Qed.

(** A driver that is not dying leaves a Fiber doomed only by its completion. *)
Lemma lively_doomed w w' x f f' d :
  wd_drivers w !! x = Some d → ¬ dying d → f_dispose_complete f' = f_dispose_complete f → doomed w x f → doomed w' x f'.
Proof. intros Hd Hy Hc [H|(d' & Hd' & ?)]; [left; congruence|by simplify_eq]. Qed.

Lemma still_on_elapses x g f w w' :
  wd_main w' = wd_main w → root_next (wd_root w) ≤ root_next (wd_root w') →
  world_fibers w !! x = Some f → world_fibers w' = alter g x (world_fibers w) →
  (∀ y, y ≠ x → wd_drivers w' !! y = wd_drivers w !! y) → still f (g f) →
  (doomed w x f → doomed w' x (g f)) → (fiber_state f = Failed → resting w' x → resting w x) → elapses w w'.
Proof.
  intros Hm Hn Hf Hh Hd [H1 H2 H3 H4 H5 H6 H7 H8 H9 H10] Hdm Hrs. eapply elapses_on; [done..|].
  split; rewrite ?H1, ?H2, ?H3, ?H4, ?H5, ?H8, ?H10; auto; done.
Qed.

(** A pass under way is no rest. *)
Lemma goto_moving x d w : match d with DSettle _ _ => False | _ => True end → ¬ resting (goto x d w) x.
Proof. unfold resting. cbn. rewrite lookup_insert_eq. destruct d; naive_solver. Qed.

(** A step of the driver alone. *)
Lemma driver_elapses x d m f w :
  world_fibers w !! x = Some f → wd_drivers w !! x = Some d → (∀ y, y ≠ x → m !! y = wd_drivers w !! y) →
  (dying d → ∃ d', m !! x = Some d' ∧ dying d') →
  (fiber_state f = Failed → resting (put_drivers m w) x → resting w x) → elapses w (put_drivers m w).
Proof.
  intros Hf Hd Ho Hy Hrs. eapply (still_on_elapses x id f); try done.
  - by rewrite alter_id.
  - intros [?|(d0 & Hd0 & Hd1)]; [by left|]. right. simplify_eq. by apply Hy.
Qed.

Lemma settle_step_elapses x f d ending w w' :
  world_ok w → world_fibers w !! x = Some f → wd_drivers w !! x = Some d →
  settle_step x f d ending w = Some w' → elapses w w'.
Proof.
  intros Hok Hf Hd. destruct (driven_at _ _ _ _ Hok Hf Hd) as [_ Hpos].
  assert (∀ m, ¬ dying d → (∀ y, y ≠ x → m !! y = wd_drivers w !! y) →
    (fiber_state f = Failed → resting (put_drivers m w) x → resting w x) → elapses w (put_drivers m w)) as Hstay.
  { intros m Hy Hm Hrs. by eapply (driver_elapses x d m f). }
  assert (∀ g next w0 m, ¬ dying d → like f (g f) → still f (store_error (f_error f) (g f)) → fiber_state f ≠ Disposed →
    (next = Failed → is_Some (f_error (g f))) → (next = Unloading ∨ publishes d) → move x next (on x g w) = Some w0 →
    (∀ y, y ≠ x → m !! y = wd_drivers w !! y) → elapses w (put_drivers m w0)) as Hmove.
  { intros g next w0 m Hy Hl Hst Hnd Hfl Hpub Hmv Hm. eapply (move_elapses x f g next w w0); try done; [by eapply on_like_ok| |by exists d|].
    - intros H. eapply (lively_doomed w _ x f f d); done.
    - revert Hmv. unfold move. destruct (transition _ _ _); [|done]. by intros [= <-]. }
  assert (∀ next w0 m, ¬ dying d → fiber_state f ≠ Disposed → next ≠ Failed → (next = Unloading ∨ publishes d) → move x next w = Some w0 →
    (∀ y, y ≠ x → m !! y = wd_drivers w !! y) → elapses w (put_drivers m w0)) as Hmove0.
  { intros next w0 m Hy Hnd Hnf Hpub Hmv. apply (Hmove id next); [done|apply like_refl|by apply still_same|done|done|done|]. by rewrite on_id. }
  assert (∀ next w0, move x next w = Some w0 → wd_drivers w0 = wd_drivers w) as Hmd by (intros; by eapply move_drivers).
  assert (∀ g next w0, move x next (on x g w) = Some w0 → wd_drivers w0 = wd_drivers w) as Hmd'
    by (intros g next w0 H; by apply move_drivers in H).
  destruct d as [missing owns|missing owns|k|rest k|rest k|missing owns|owns|owns|owns outcome|failure|owns|owns|owns| |];
    cbn [settle_step]; try done; cbn in Hpos.
  - assert (resting w x) as Hrs by (unfold resting; by rewrite Hd).
    destruct (negb (f_alive f)); [intros [= <-]; apply Hstay; [by intros []|apply drivers_stop|done]|].
    destruct (fiber_state f); intros [= <-]; (apply Hstay; [by intros []|apply drivers_goto|done]).
  - destruct (move x Unloading w) as [w0|] eqn:Hmv; [|done]. intros [= <-]. eapply (Hmove0 Unloading); [by intros []| |done|by left|done|].
    + destruct Hpos as (_ & [->|[-> _]] & _); done.
    + intros y Hne. rewrite lookup_insert_ne by done. by rewrite (Hmd _ _ Hmv).
  - destruct Hpos as (_ & Hpos). assert (fiber_state f ≠ Disposed) as Hnd by (destruct Hpos as [[-> _]| ->]; done).
    destruct missing.
    + destruct (move x Pending _) as [w0|] eqn:Hmv; [|done]. intros [= <-].
      eapply (Hmove (store_error None) Pending); [by intros []|apply store_error_like|by apply still_same|done|done|by right|done|].
      intros y Hne. rewrite lookup_delete_ne by done. by rewrite (Hmd' _ _ _ Hmv).
    + assert (fiber_state f ≠ Failed) as Hnf by (destruct Hpos as [[-> _]| ->]; done).
      destruct (_ && _); [intros [= <-]; apply Hstay; [by intros []|apply drivers_stop|done]|].
      destruct (apply_snapshot (f_spawn f)); [|done]. intros [= <-].
      eapply (still_on_elapses x (set_f_replacing false) f); try done; [by intros; rewrite drivers_goto|by apply still_same|].
      apply (lively_doomed w _ x f _ (DDecide false owns)); [done|by intros []|done].
  - destruct (move x Loading w) as [w0|] eqn:Hmv; [|done]. intros [= <-]. eapply (Hmove0 Loading); [by intros []| |done|by right|done|].
    + destruct Hpos as (_ & [->| ->]); done.
    + intros y Hne. rewrite lookup_insert_ne by done. by rewrite (Hmd _ _ Hmv).
  - intros [= <-]. assert (doomed w x f → doomed (goto x (DEnded owns match ending with
        | ApplyDone => Ok (Ok tt) | ApplyErr dg => Ok (Err (pf_returned dg)) | ApplyUnwound payload => Err payload end)
        (on x (set_f_applied true) w)) x (set_f_applied true f)) as Hdm
      by (apply (lively_doomed w _ x f _ (DApplying owns)); [done|by intros []|done]).
    eapply (elapses_on x (set_f_applied true) f); try done; [by intros; rewrite drivers_goto|].
    split; try done; [by left|by left|by apply journal_ext_same| |by left|by exists owns].
    intros _ _ Hfl. destruct Hpos as [_ Hl]. change (fiber_state f = Failed) in Hfl. congruence.
  - destruct Hpos as (_ & Hpos & _). assert (fiber_state f ≠ Disposed) as Hnd by (by rewrite Hpos).
    destruct outcome as [[[]|failure]|panic].
    + destruct (move x Active _) as [w0|] eqn:Hmv; [|done]. intros [= <-].
      eapply (Hmove (store_error None) Active); [by intros []|apply store_error_like|by apply still_same|done|done|by right|done|].
      intros y Hne. rewrite lookup_delete_ne by done. by rewrite (Hmd' _ _ _ Hmv).
    + destruct (move x Unloading w) as [w0|] eqn:Hmv; [|done]. intros [= <-]. eapply (Hmove0 Unloading); [by intros []|done|done|by left|done|].
      intros y Hne. rewrite lookup_insert_ne by done. by rewrite (Hmd _ _ Hmv).
    + destruct (move x Unloading w) as [w0|] eqn:Hmv; [|done]. intros [= <-]. eapply (Hmove0 Unloading); [by intros []|done|done|by left|done|].
      intros y Hne. rewrite lookup_insert_ne by done. by rewrite (Hmd _ _ Hmv).
  - destruct Hpos as (_ & Hpos & _). destruct (move x Failed _) as [w0|] eqn:Hmv; [|done]. intros [= <-].
    eapply (Hmove (store_error (Some failure)) Failed); [by intros []|apply store_error_like|by apply still_same|by rewrite Hpos|done|by right|done|].
    intros y Hne. rewrite lookup_delete_ne by done. by rewrite (Hmd' _ _ _ Hmv).
Qed.

(** A claim changes the journal only. *)
Lemma removed_still f token : journal_wf (f_journal f) → still f (removed token f).
Proof. intros Hwf. pose proof (remove_disposable_journal f token Hwf) as Hj. revert Hj. unfold removed, remove_disposable. by destruct (dl_remove _ _). Qed.

Lemma drain_step_elapses x f d w w' :
  world_ok w → world_fibers w !! x = Some f → wd_drivers w !! x = Some d → drain_step x f d w = Some w' → elapses w w'.
Proof.
  intros Hok Hf Hd. pose proof (fi_journal _ _ _ _ _ _ _ _ _ _ (wo_fibers _ Hok _ _ Hf)) as Hwf.
  assert (∀ d' w0, match d' with DSettle _ _ => False | _ => True end → wd_drivers w0 !! x = Some d' → resting w0 x → resting w x) as Hmv
    by (intros [] w0 Hd0; unfold resting; by intros ->).
  destruct d as [missing owns|missing owns|k|rest k|rest k|missing owns|owns|owns|owns outcome|failure|owns|owns|owns| |];
    cbn [drain_step]; try done.
  - destruct (_ && _); [|done]. intros [= <-].
    eapply (still_on_elapses x (set_f_draining true) f); try done; [by intros; rewrite drivers_goto|by apply still_same| |intros _; by eapply Hmv, lookup_insert_eq].
    intros [?|(d & Hd' & Hy)]; [by left|]. simplify_eq. eapply goto_doomed; [apply lookup_insert_eq|done].
  - destruct (rev rest) as [|token rest'].
    { intros [= <-]. eapply (still_on_elapses x (set_f_draining false) f); try done;
        [by intros; rewrite drivers_goto|by apply still_same| |intros _; eapply Hmv; [|apply lookup_insert_eq]; by destruct k].
      intros [?|(d & Hd' & Hy)]; [by left|]. simplify_eq. eapply goto_doomed; [apply lookup_insert_eq|by destruct k]. }
    destruct (unlocked x w); [|done]. pose proof (claim_root _ token _ _ Hf) as Hc.
    destruct (claim_cleanup x token (wd_root w)) as [[c|] r]; injection Hc as _ ->; intros [= <-];
      (eapply (still_on_elapses x (removed token) f); [done|done|done|done|by intros; cbn; rewrite lookup_insert_ne|by apply removed_still| |intros _; by eapply Hmv, lookup_insert_eq]);
      (intros [?|(d & Hd' & Hy)]; [left; by rewrite (st_complete _ _ (removed_still f token Hwf))|]); simplify_eq;
      (eapply goto_doomed; [apply lookup_insert_eq|by destruct k]).
  - destruct (bool_decide _); [|done]. intros [= <-]. eapply (driver_elapses x _ _ f); [done|done|by intros; rewrite lookup_insert_ne| |intros _; by eapply Hmv, lookup_insert_eq].
    intros Hy. eexists. split; [apply lookup_insert_eq|]. by destruct k.
Qed.

Lemma release_elapses x f w :
  world_ok w → world_fibers w !! x = Some f → fiber_state f = Disposed →
  elapses w (stop x (on x (set_f_dispose_complete true) (release_world x f w))).
Proof.
  intros Hok Hf Hst. destruct (wo_registry _ Hok) as [Hwf Hu].
  destruct (release_spec _ _ x f Hwf Hu Hf) as (reg & Hrel & _).
  eapply (elapses_on x (λ f, set_f_dispose_complete true (set_f_residency None f)) f).
  - unfold release_world. destruct (release_residency _ _ _). by destruct (_ && _).
  - unfold release_world. unfold graph_of, world_fibers, root_heap in *. rewrite Hrel. by destruct (_ && _).
  - done.
  - unfold release_world. unfold graph_of, world_fibers, root_heap in *. rewrite Hrel.
    rewrite (alter_insert_some _ _ _ _ Hf). destruct (_ && _); cbn; by rewrite alter_insert_eq.
  - intros y Hne. rewrite drivers_stop by done. unfold release_world. destruct (release_residency _ _ _). by destruct (_ && _).
  - split; try done; [by right|by left|by left|by apply journal_ext_same| |by left].
    intros _ _ H. change (fiber_state f = Failed) in H. congruence.
Qed.

Lemma teardown_step_elapses x f d w w' :
  world_ok w → world_fibers w !! x = Some f → wd_drivers w !! x = Some d →
  teardown_step x f d w = Some w' → elapses w w'.
Proof.
  intros Hok Hf Hd. destruct (driven_at _ _ _ _ Hok Hf Hd) as [_ Hpos].
  destruct d as [missing owns|missing owns|k|rest k|rest k|missing owns|owns|owns|owns outcome|failure|owns|owns|owns| |];
    cbn [teardown_step]; try done; cbn in Hpos.
  - assert (still f (set_f_creation_pending false f)) as Hs by by apply still_same.
    destruct (decide (fiber_state f = Disposed)) as [He|Hne].
    { intros [= <-]. eapply (still_on_elapses x (set_f_creation_pending false) f); try done; [by intros; rewrite drivers_goto| |congruence].
      intros _. eapply goto_doomed; [apply lookup_insert_eq|done]. }
    destruct (move x Unloading _) as [w0|] eqn:Hmv; [|done]. intros [= <-].
    pose proof (move_drivers _ _ _ _ Hmv) as Hmd.
    eapply (move_elapses x f (set_f_creation_pending false) Unloading w w0); try done; [by eapply on_like_ok| | | |].
    + intros _. eapply goto_doomed; [apply lookup_insert_eq|done].
    + eexists. split; [exact Hd|by left].
    + revert Hmv. unfold move. destruct (transition _ _ _); [|done]. by intros [= <-].
    + intros y Hne'. rewrite drivers_goto by done. by rewrite Hmd.
  - intros [= <-]. eapply (elapses_on x (set_f_alive false) f); try done; [by intros; rewrite drivers_goto|].
    assert (doomed (goto x (DUnregister owns) (on x (set_f_alive false) w)) x (set_f_alive false f)) as Hdm
      by (eapply goto_doomed; [apply lookup_insert_eq|done]).
    assert (doomed w x f) as Hdw by (eapply goto_doomed; [exact Hd|done]).
    split; try done; [by left|by right|by apply journal_ext_same| |by right]. intros _ Hr. exfalso. revert Hr. by apply goto_moving.
  - intros [= <-]. eapply (still_on_elapses x id f); try done; unfold unindex; destruct (f_installed f); cbn; try done.
    + by rewrite alter_id.
    + by rewrite alter_id.
    + intros y Hne. by rewrite lookup_insert_ne.
    + intros y Hne. by rewrite lookup_insert_ne.
    + intros _. eapply goto_doomed; [apply lookup_insert_eq|done].
    + intros _. eapply goto_doomed; [apply lookup_insert_eq|done].
    + intros _. unfold resting. cbn. by rewrite lookup_insert_eq.
    + intros _. unfold resting. cbn. by rewrite lookup_insert_eq.
  - destruct Hpos as (_ & Hst & _). destruct (move x Disposed w) as [w0|] eqn:Hmv; [|done]. intros [= <-].
    pose proof (move_drivers _ _ _ _ Hmv) as Hmd.
    assert (elapses w (goto x DRelease w0)) as [Hm Hn He].
    { eapply (move_elapses x f id Disposed w w0); try done.
      - by rewrite on_id.
      - by apply still_same.
      - by rewrite Hst.
      - intros _. eapply goto_doomed; [apply lookup_insert_eq|done].
      - eexists. split; [exact Hd|by right].
      - by rewrite on_id.
      - revert Hmv. unfold move. destruct (transition _ _ _); [|done]. by intros [= <-].
      - intros y Hne. rewrite drivers_goto by done. by rewrite Hmd. }
    split; [exact Hm|exact Hn|]. intros y g'. unfold world_fibers, goto, on, root_heap. cbn.
    intros Hg'. assert (∃ g, gr_fibers (so_graph (root_stores (wd_root w0))) !! y = Some g ∧ (g' = g ∨ y = x ∧ g' = store_error None g))
      as (g & Hg & [->|[-> ->]]).
    { revert Hg'. rewrite lookup_alter. case_decide; [subst|intros; eauto]. destruct (gr_fibers _ !! y); [|done]. intros [= <-]. eauto. }
    { destruct (He y g Hg) as [[? ?]|(f0 & Hf0 & [])]; [by left|right; exists f0; split; [done|by split]]. }
    destruct (He x g Hg) as [[? ?]|(f0 & Hf0 & [])]; [by left|right; exists f0; split; [done|]]. split; try done.
    intros _ Hr. exfalso. revert Hr. unfold resting. cbn. by rewrite lookup_insert_eq.
  - destruct Hpos as (_ & Hst). intros [= <-]. by apply release_elapses.
Qed.

Lemma drive_elapses x ending w w' : world_ok w → drive x ending w = Some w' → elapses w w'.
Proof.
  intros Hok. unfold drive. destruct (wd_drivers w !! x) as [d|] eqn:Hd; [|done]. cbn [mbind option_bind].
  destruct (world_fibers w !! x) as [f|] eqn:Hf; [|done]. cbn [mbind option_bind].
  destruct (settle_step x f d ending w) eqn:H1; [intros [= <-]; by eapply settle_step_elapses|].
  destruct (drain_step x f d w) eqn:H2; [intros [= <-]; by eapply drain_step_elapses|].
  by eapply teardown_step_elapses.
Qed.

(** ** Steps that drive nothing *)

Lemma agrees_elapses w w' :
  wd_main w' = wd_main w → root_next (wd_root w) ≤ root_next (wd_root w') →
  heap_agrees (world_fibers w) (world_fibers w') → wd_drivers w' = wd_drivers w → elapses w w'.
Proof. intros Hm Hn Ha Hd. apply elapses_still; try done. intros y. by apply heap_still_agrees. Qed.

(** A change in place that no age depends on. *)
Lemma still_elapses x g f w w' :
  wd_main w' = wd_main w → root_next (wd_root w) ≤ root_next (wd_root w') →
  world_fibers w !! x = Some f → world_fibers w' = alter g x (world_fibers w) → wd_drivers w' = wd_drivers w →
  still f (g f) → elapses w w'.
Proof.
  intros Hm Hn Hf Hh Hd Hs. eapply (elapses_on x g f); try done; [by intros; rewrite Hd|]. apply still_ages; [done|by rewrite Hd].
Qed.

Lemma announce_root d n k a b r : root_stores (announce d n k a b r) = root_stores r ∧ root_next (announce d n k a b r) = root_next r.
Proof. by destruct d. Qed.

Lemma claim_elapses x token w : world_ok w → elapses w (put_root (claim_cleanup x token (wd_root w)).2 w).
Proof.
  intros Hok. destruct (world_fibers w !! x) as [f|] eqn:Hf.
  - rewrite (claim_root _ _ _ _ Hf). eapply (still_elapses x (removed token) f); try done.
    eapply removed_still, fi_journal, (wo_fibers _ Hok _ _ Hf).
  - unfold claim_cleanup. change (fibers (wd_root w)) with (world_fibers w). rewrite Hf. by apply elapses_same.
Qed.

Lemma spawn_attach_elapses ctx p o w w' : world_ok w → spawn_attach ctx p o w = Some w' → elapses w w'.
Proof.
  intros Hok. unfold spawn_attach. set (x := root_next (wd_root w)). destruct (_ && _); [done|].
  set (f := set_f_creation_pending true _). change (gr_fibers (so_graph (root_stores (wd_root w)))) with (world_fibers w).
  destruct (attach_fiber _ _ _ _) as [[heap reg]|] eqn:Hat; [|done]. cbn [mbind option_bind]. intros [= <-].
  destruct (wo_registry _ Hok) as [Hwf Hu].
  assert (world_fibers w !! x = None) as Hx.
  { apply eq_None_not_Some. intros Hs%(wo_heap _ Hok). unfold x in Hs. lia. }
  destruct (attach_fresh _ _ _ x f _ _ Hwf Hu Hx eq_refl Hat) as ([c ->] & _).
  split; [done|cbn; lia|]. intros y g Hy.
  change (<[ x := set_f_residency (Some c) f ]> (world_fibers w) !! y = Some g) in Hy.
  apply lookup_insert_Some in Hy as [[<- <-]|[Hne Hy]]; [left; by split; [unfold x; lia|]|].
  right. exists g. split; [done|]. by apply still_ages.
Qed.

Lemma pushed_still c f : journal_wf (f_journal f) → (dl_sn (f_journal f) < u64_max)%Z → still f (push_cleanup c f).
Proof.
  intros Hwf Hlt. destruct (pushed_journal c f Hwf Hlt) as (Ht & Hsn & _ & Hlk). split; try done. split; [lia|].
  intros t c'. rewrite Hlk. case_decide; [intros _; right; lia|by left].
Qed.

Lemma section_step_elapses x w w' : world_ok w → section_step x w = Some w' → elapses w w'.
Proof.
  intros Hok. unfold section_step. destruct (wd_sections w !! x) as [[p ph]|] eqn:Hsc; [|done].
  destruct (world_fibers w !! x) as [f|] eqn:Hf; [|done]. cbn [sc_phase sc_publication]. destruct ph as [| |o drift].
  - destruct (assert_can_register f); intros [= <-]; by apply elapses_same.
  - destruct p as [callback async|ctx svc value]; [intros [= <-]; by apply elapses_same|].
    cbn [fresh_occurrence]. set (slot := {| ss_occurrence := _; ss_value := _; ss_contract := _; ss_fiber := _ |}).
    change (root_stores _) with (root_stores (wd_root w)) at 1.
    destruct (install x slot _ _ _) as [[[evicted drift]|e] so] eqn:Hin; intros [= <-].
    + pose proof (fi_section _ _ _ _ _ _ _ _ _ _ (wo_fibers _ Hok _ _ Hf)) as Hs. rewrite Hsc in Hs. destruct Hs as (_ & Ht & _).
      destruct (install_drifts x w slot _ _ evicted drift so Hok eq_refl eq_refl Ht Hin) as [Hd _].
      apply agrees_elapses; [done|apply Hd|apply Hd|done].
    + pose proof (install_spec _ _ x slot (isolate_key ctx (sv_name svc)) (sv_name svc) _ (wo_slots _ Hok) (wo_graph _ Hok)) as Hs.
      fold (services_of w) in Hs. rewrite Hin in Hs.
      assert (so = root_stores (wd_root w)) as -> by (destruct e as [[] ?]; by destruct Hs).
      apply elapses_same; [done|cbn; lia|done|done].
  - destruct (decide _) as [Hlt|]; [|done].
    pose proof (λ c, pushed_still c f (fi_journal _ _ _ _ _ _ _ _ _ _ (wo_fibers _ Hok _ _ Hf)) Hlt) as Hps.
    destruct p as [callback async|ctx svc value]; intros [= <-].
    + by eapply (still_elapses x (push_cleanup _) f).
    + match goal with |- elapses _ (put_issued _ _ (put_root (announce ?d ?n ?k ?a ?b ?r) _)) =>
        destruct (announce_root d n k a b r) as [Hst Hn] end.
      eapply (still_elapses x (push_cleanup (cleanup_of (PubService ctx svc value) o)) f); try done.
      * cbn [wd_root put_issued put_root]. by rewrite Hn.
      * unfold world_fibers, root_heap. cbn [wd_root put_issued put_root]. by rewrite Hst.
Qed.

Lemma op_set_elapses i v w w' : world_ok w → step (OpSet i v) w = Some w' → elapses w w'.
Proof.
  intros Hok. cbn [step]. destruct (wd_pubs w !! i) as [p|]; [|done]. cbn [mbind option_bind]. intros [= <-].
  unfold publication_set. set (value := {| av_type := _; av_payload := _ |}).
  pose proof (set_exact_spec (sp_key p) (sv_name (sp_service p)) (sp_occurrence p) (sp_owner p) value (root_stores (wd_root w))) as H.
  destruct (set_exact _ _ _ _ _ _) as [[outgoing|[e v']] so]; cbn [snd].
  - destruct H as (slot & _ & _ & _ & _ & ->). by apply elapses_same.
  - assert (so = root_stores (wd_root w)) as -> by (destruct e; by destruct H). by apply elapses_same.
Qed.

Lemma remove_step_elapses p w : world_ok w → elapses w (remove_step p w).
Proof.
  intros Hok. unfold remove_step.
  pose proof (remove_exact_spec (sp_key p) (sv_name (sp_service p)) (sp_occurrence p) (sp_owner p) (root_stores (wd_root w))) as H.
  destruct (remove_exact _ _ _ _ _) as [[[slot drift]|e] so].
  2: { assert (so = root_stores (wd_root w)) as -> by (destruct e; by destruct H). by apply elapses_same. }
  destruct H as (_ & _ & _ & _ & _ & Hd).
  change (gr_fibers (so_graph (root_stores (wd_root w)))) with (world_fibers w) in *.
  destruct (drift_recommits _ _ _ _ _ _ Hok Hd) as [Ha _].
  match goal with |- elapses _ (put_removed _ (put_root (announce ?d ?n ?k ?a ?b ?r) _)) =>
    destruct (announce_root d n k a b r) as [Hst Hn] end.
  apply agrees_elapses; [done| | |done].
  - cbn [wd_root put_removed put_root]. by rewrite Hn.
  - unfold world_fibers at 2, root_heap. cbn [wd_root put_removed put_root]. by rewrite Hst.
Qed.

Lemma op_run_end_elapses x w w' : step (OpRunEnd x) w = Some w' → elapses w w'.
Proof.
  cbn [step]. destruct (wd_running w !! x) as [c|]; [|done]. cbn [mbind option_bind]. intros [= <-].
  apply elapses_same; try done. unfold world_fibers, root_heap. cbn. destruct (cl_run c) as [| |key name o| |]; try done.
  cbn [run_action]. destruct (withdraw_exact_spec key name o (root_stores (wd_root w))) as (Hg & _). by rewrite Hg.
Qed.

End ageing.

#[export] Hint Resolve drivers_goto drivers_stop : cordis.

Definition records (op : Op) (x : Addr) : Prop := match op with OpRecord y _ _ _ | OpCommit y => y = x | _ => False end.
Definition takes (op : Op) (x : Addr) : Prop := match op with OpMark y MkTakeError => y = x | _ => False end.

Lemma step_elapses op w w' : world_ok w → step op w = Some w' → elapses (records op) (takes op) w w'.
Proof.
  intros Hok Hst. pose proof Hst as Hst'.
  destruct op as [ctx p o|x ctx p seal|x|x m o|x o|x e|x|x|x|x m|edges|x rq|x|i v|i|i|i|doomed key|a|x|x]; cbn [step] in Hst.
  - by eapply spawn_attach_elapses.
  - destruct (decide _); [done|]. revert Hst. unfold spawn_record.
    destruct (root_heap (wd_root w) !! x) as [f|] eqn:Hf; [|done]. cbn [mbind option_bind fresh_occurrence].
    destruct (spawn_install _ _) as [[|] s]; [|done]. intros [= <-].
    eapply (elapses_on _ _ x (set_f_spawn s) f); try done; [cbn; lia|].
    split; try done; [by left|by left|by apply journal_ext_same|by left].
  - revert Hst. unfold spawn_index. destruct (gr_fibers _ !! x) as [f|]; [|done]. cbn [mbind option_bind].
    destruct (f_installed f); [|done]. intros [= <-]. apply elapses_same; by destruct (f_alive f).
  - destruct (world_fibers w !! x) as [f|] eqn:Hf; [|done]. cbn [mbind option_bind] in Hst.
    destruct (_ && _) eqn:Hg; [|done]. injection Hst as <-. apply andb_true_iff in Hg as [[Hd%bool_decide_eq_true_1 _]%andb_true_iff _].
    eapply (still_on_elapses _ _ x id f); try done; [by rewrite alter_id|by intros; rewrite drivers_goto| |unfold resting; by rewrite Hd].
    intros [?|(d & ? & _)]; [by left|congruence].
  - destruct (world_fibers w !! x) as [f|] eqn:Hf; [|done]. cbn [mbind option_bind] in Hst.
    destruct (_ && _); [|done]. injection Hst as <-.
    eapply (elapses_on _ _ x mark_terminal f); try done; [by intros; rewrite drivers_goto|].
    split; try done; [by left|intros _; eapply goto_doomed; [apply lookup_insert_eq|done]|by left|by apply journal_ext_same| |by left].
    intros _ Hr. exfalso. revert Hr. by apply goto_moving.
  - by eapply drive_elapses.
  - by eapply op_run_end_elapses.
  - destruct (wd_drivers w !! x) as [d|] eqn:Hd; [|done]. cbn [mbind option_bind] in Hst.
    destruct (cancellable d); [|done]. injection Hst as <-.
    destruct (wo_drivers _ Hok x ltac:(by eexists)) as [f Hf].
    eapply (elapses_on _ _ x mark_terminal f); try done; [by intros; rewrite drivers_goto|].
    split; try done; [by left|intros _; eapply goto_doomed; [apply lookup_insert_eq|done]|by left|by apply journal_ext_same| |by left].
    intros _ Hr. exfalso. revert Hr. by apply goto_moving.
  - destruct (world_fibers w !! x) as [f|] eqn:Hf; [|done]. cbn [mbind option_bind] in Hst. injection Hst as <-.
    by eapply (still_elapses _ _ x mark_replacing f); try done; apply still_same.
  - destruct (world_fibers w !! x) as [f|] eqn:Hf; [|done]. cbn [mbind option_bind] in Hst. injection Hst as <-.
    destruct m.
    + eapply (elapses_on _ _ x mark_terminal f); try done. split; try done; [by left|by left|by apply journal_ext_same|by left].
    + eapply (still_elapses _ _ x (apply_mark MkHandoff) f); try done. by apply still_same.
    + eapply (elapses_on _ _ x (apply_mark MkTakeError) f); try done.
      split; try done; [by left|by left|by apply journal_ext_same].
  - injection Hst as <-. apply elapses_same; try done. apply (query_spec _ _ edges (wo_graph _ Hok)).
  - revert Hst. unfold enter_section. destruct (_ && _); [|done]. intros [= <-]. by apply elapses_same.
  - by eapply section_step_elapses.
  - by eapply op_set_elapses.
  - destruct (wd_pubs w !! i) as [p|]; [|done]. cbn [mbind option_bind] in Hst. injection Hst as <-. by apply remove_step_elapses.
  - destruct (wd_removed w !! i) as [p|]; [|done]. cbn [mbind option_bind] in Hst.
    destruct (unlocked _ w); [|done]. injection Hst as <-.
    destruct (claim_elapses (records (OpClaim i)) (takes (OpClaim i)) (sp_owner p) (sp_cleanup p) w Hok) as [? ? He]. split; [done..|]. intros y g Hg.
    destruct (He y g Hg) as [?|(f & Hf & [])]; [by left|right; exists f; by split].
  - destruct (wd_effects w !! i) as [c|]; [|done]. cbn [mbind option_bind] in Hst.
    destruct (unlocked _ w); [|done]. injection Hst as <-. by apply claim_elapses.
  - destruct (detach_for_removal _ _ _) as [[out reg]|]; [|done]. cbn [mbind option_bind] in Hst. injection Hst as <-.
    by apply elapses_same.
  - injection Hst as <-. by apply elapses_same.
  - destruct (_ && _); [|done]. injection Hst as <-. split; [done..|]. intros y g Hy.
    change (delete x (world_fibers w) !! y = Some g) in Hy. apply lookup_delete_Some in Hy as [_ Hy].
    right. exists g. split; [done|]. by apply still_ages.
  - destruct (decide _); [done|]. revert Hst. unfold commit_input.
    destruct (world_fibers w !! x) as [f|] eqn:Hf; [|done]. cbn [mbind option_bind].
    destruct (f_spawn f) as [st|]; [|done]. cbn [mbind option_bind fresh_occurrence]. intros [= <-].
    eapply (elapses_on _ _ x (set_f_spawn _) f); try done; [cbn; lia|].
    split; try done; [by left|by left|by apply journal_ext_same|by left].
Qed.

(** * Facts that last *)

(** [P] holds of the Fiber at [x] for as long as it is allocated. *)
Definition lasts (P : World → Addr → Fiber → Prop) (w : World) (x : Addr) : Prop :=
  x < root_next (wd_root w) ∧ ∀ f, world_fibers w !! x = Some f → P w x f.

Definition closing (_ : World) (_ : Addr) (f : Fiber) : Prop := f_disposing f = true.
Definition completed (_ : World) (_ : Addr) (f : Fiber) : Prop := f_dispose_complete f = true.

(** Time passed, in any number of steps. *)
Record later (R : Addr → Prop) (w w' : World) : Prop := {
  lt_main : wd_main w' = wd_main w;
  lt_next : root_next (wd_root w) ≤ root_next (wd_root w');
  lt_fiber : ∀ x f', x < root_next (wd_root w) → world_fibers w' !! x = Some f' →
    ∃ f, world_fibers w !! x = Some f ∧ ages R (λ _, True) w w' x f f';
}.

Lemma ages_weaken (R R' T : Addr → Prop) w w' x f f' :
  (R x → R' x) → ages R T w w' x f f' → ages R' (λ _, True) w w' x f f'.
Proof. intros HR []. split; auto; intros Hn; by destruct Hn. Qed.

Lemma elapses_later R T w w' : elapses R T w w' → later R w w'.
Proof.
  intros [Hm Hn Hf]. split; [done..|]. intros x f' Hx Hf'. destruct (Hf x f' Hf') as [[? _]|(f & ? & Ha)]; [lia|].
  exists f. split; [done|]. by eapply ages_weaken.
Qed.

#[export] Instance later_refl R : Reflexive (later R).
Proof.
  intros w. split; [done..|]. intros x f _ Hf. exists f. split; [done|]. by apply still_ages.
Qed.

Lemma ages_trans R T w1 w2 w3 x f1 f2 f3 :
  ages R T w1 w2 x f1 f2 → ages R (λ _, True) w2 w3 x f2 f3 → ages R (λ _, True) w1 w3 x f1 f3.
Proof.
  intros [A1 A2 A3 A4 A5 A6 A7 A8 A9 A10 A11 _ _ _ _] [B1 B2 B3 B4 B5 B6 B7 B8 B9 B10 B11 _ _ _ _]. split; auto; try (intros Hn; by destruct Hn); try congruence.
  - intros [Hc|?]%B6; [|by right]. destruct (A6 Hc) as [?|[? ?]]; auto.
  - intros [Hd|?]%B8; [|by right]. destruct (A8 Hd); auto.
  - intros Hr. rewrite B9 by done. auto.
  - by eapply journal_ext_trans.
Qed.

#[export] Instance later_trans R : Transitive (later R).
Proof.
  intros w1 w2 w3 [M1 N1 F1] [M2 N2 F2]. split; [congruence|lia|]. intros x f3 Hx Hf3.
  destruct (F2 x f3 ltac:(lia) Hf3) as (f2 & Hf2 & H23). destruct (F1 x f2 Hx Hf2) as (f1 & Hf1 & H12).
  exists f1. split; [done|]. by eapply ages_trans.
Qed.

Lemma later_weaken (R R' : Addr → Prop) w w' : (∀ x, R x → R' x) → later R w w' → later R' w w'.
Proof.
  intros HR [M N F]. split; [done..|]. intros x f' Hx Hf'. destruct (F x f' Hx Hf') as (f & Hf & Ha). exists f.
  split; [done|]. eapply ages_weaken; [apply HR|done].
Qed.

Lemma lasts_later R (P : World → Addr → Fiber → Prop) w w' x :
  (∀ f f', ages R (λ _, True) w w' x f f' → P w x f → P w' x f') → later R w w' → lasts P w x → lasts P w' x.
Proof.
  intros HP [_ Hn Hl] [Hx HL]. split; [lia|]. intros f' Hf'. destruct (Hl _ _ Hx Hf') as (f & Hf & Ha).
  eapply HP; [done|by apply HL].
Qed.

Lemma closing_later R w w' x : later R w w' → lasts closing w x → lasts closing w' x.
Proof. apply lasts_later. intros f f' Ha. apply Ha. Qed.
Lemma completed_later R w w' x : later R w w' → lasts completed w x → lasts completed w' x.
Proof. apply lasts_later. intros f f' Ha. apply Ha. Qed.
Lemma doomed_later R w w' x : later R w w' → lasts doomed w x → lasts doomed w' x.
Proof. apply lasts_later. intros f f' Ha. apply Ha. Qed.
#[export] Hint Resolve closing_later completed_later doomed_later : cordis.

(** How a Fiber ends: a completed teardown is that of a Disposed Fiber that the Registry
    let go of, and a dead Fiber is one whose teardown is complete or under way. *)
Record endings_ok (w : World) : Prop := {
  eo_complete : ∀ x f, world_fibers w !! x = Some f → f_dispose_complete f = true →
    fiber_state f = Disposed ∧ f_residency f = None;
  eo_dead : ∀ x f, world_fibers w !! x = Some f → f_alive f = false → doomed w x f;
}.

Lemma endings_elapses R T w w' : elapses R T w w' → endings_ok w → endings_ok w'.
Proof.
  intros He [Hc Hd]. split; intros x f' Hf'; destruct (el_fiber _ _ _ _ He _ _ Hf') as [[_ (Ha & _ & Hn & _)]|(f & Hf & Ha)]; try congruence.
  - intros [Hcf|?]%(ag_completed _ _ _ _ _ _ _ Ha); [|done]. destruct (Hc _ _ Hf Hcf). split; by apply Ha.
  - intros [Hdf|?]%(ag_died _ _ _ _ _ _ _ Ha); [|done]. apply (ag_doomed _ _ _ _ _ _ _ Ha). by eapply Hd.
Qed.

(** A complete Fiber that no pass drives is dead. *)
Lemma doomed_idle w x f : doomed w x f → wd_drivers w !! x = None → f_dispose_complete f = true.
Proof. intros [?|(d & ? & _)]; congruence. Qed.
