(* ===== verification/GenerationPass.v ===== *)
(** Where a lifecycle pass of the Runtime (Generation.v) goes: which position follows
    which, what a pass in progress still owes to the journal it found, and what nobody but
    the holder of the convergence slot can do to a Fiber. *)
From S2P Require Import Prelude Axes BTree Lifecycle Journal EventStore Observation Plugin Fiber Registry Deps Services Generation GenerationInv GenerationOps GenerationEffect GenerationAge.

(** * The positions of a pass *)

(** The position after one step of the pass; [None] is the end of the pass. *)
Definition follows (d : Driver) (d' : option Driver) : Prop :=
  match d with
  | DSettle m o => d' = None ∨ d' = Some (DUnload m o) ∨ d' = Some (DDecide m o)
  | DUnload m o => d' = Some (DSnapshot (KSettle m o))
  | DSnapshot k => ∃ rest, d' = Some (DDrain rest k)
  | DDrain _ k => d' = Some (after_drain k) ∨ ∃ rest, d' = Some (DDrain rest k) ∨ d' = Some (DRunning rest k)
  | DRunning rest k => d' = Some (DDrain rest k)
  | DDecide _ o => d' = None ∨ d' = Some (DLoading o)
  | DLoading o => d' = Some (DApplying o)
  | DApplying o => ∃ outcome, d' = Some (DEnded o outcome)
  | DEnded o _ => d' = None ∨ ∃ failure, d' = Some (DSnapshot (KFailed o failure))
  | DFailed _ | DRelease => d' = None
  | DTeardown o => d' = Some DRelease ∨ d' = Some (DKill o)
  | DKill o => d' = Some (DUnregister o)
  | DUnregister o => d' = Some (DSnapshot (KDispose o))
  | DDisposed => d' = Some DRelease
  end.

Lemma goto_driver x d w : wd_drivers (goto x d w) !! x = Some d.
Proof. apply lookup_insert_eq. Qed.
Lemma stop_driver x w : wd_drivers (stop x w) !! x = None.
Proof. apply lookup_delete_eq. Qed.

Lemma settle_follows x f d e w w' : settle_step x f d e w = Some w' → follows d (wd_drivers w' !! x).
Proof.
  destruct d as [m o|m o|k|r k|r k|m o|o|o|o [[[]|fl]|p]|fl|o|o|o| |]; cbn [settle_step follows]; try done.
  all: try (destruct (move x _ _) as [w0|]; [|done]; cbn [mbind option_bind]).
  all: try (destruct (negb (f_alive f)); [intros [= <-]; rewrite stop_driver; by left|]; destruct (fiber_state f)).
  all: try (intros [= <-]; rewrite ?goto_driver, ?stop_driver; naive_solver).
  destruct m; [destruct (move x _ _) as [w0|]; [|done]; cbn [mbind option_bind]; intros [= <-]; rewrite stop_driver; by left|].
  destruct (_ && _); [intros [= <-]; rewrite stop_driver; by left|].
  destruct (apply_snapshot _); [|done]. intros [= <-]. rewrite goto_driver. by right.
Qed.

Lemma drain_follows x f d w w' : drain_step x f d w = Some w' → follows d (wd_drivers w' !! x).
Proof.
  destruct d as [m o|m o|k|r k|r k|m o|o|o|o oc|fl|o|o|o| |]; cbn [drain_step follows]; try done.
  - destruct (_ && _); [|done]. intros [= <-]. rewrite goto_driver. by eexists.
  - destruct (rev r); [intros [= <-]; rewrite goto_driver; by left|]. destruct (unlocked x w); [|done].
    destruct (claim_cleanup _ _ _) as [[c|] rt]; intros [= <-]; right; eexists.
    + right. apply goto_driver.
    + left. apply goto_driver.
  - destruct (bool_decide _); [|done]. intros [= <-]. by rewrite goto_driver.
Qed.

Lemma teardown_follows x f d w w' : teardown_step x f d w = Some w' → follows d (wd_drivers w' !! x).
Proof.
  destruct d as [m o|m o|k|r k|r k|m o|o|o|o oc|fl|o|o|o| |]; cbn [teardown_step follows]; try done.
  - destruct (decide _); [intros [= <-]; rewrite goto_driver; by left|].
    destruct (move x _ _) as [w0|]; [|done]. cbn [mbind option_bind]. intros [= <-]. rewrite goto_driver. by right.
  - intros [= <-]. by rewrite goto_driver.
  - intros [= <-]. by rewrite goto_driver.
  - destruct (move x _ _) as [w0|]; [|done]. cbn [mbind option_bind]. intros [= <-]. by rewrite goto_driver.
  - intros [= <-]. by rewrite stop_driver.
Qed.

Lemma drive_follows x e w w' : drive x e w = Some w' → ∃ d, wd_drivers w !! x = Some d ∧ follows d (wd_drivers w' !! x).
Proof.
  unfold drive. destruct (wd_drivers w !! x) as [d|] eqn:Hd; [|done]. cbn [mbind option_bind].
  destruct (world_fibers w !! x) as [f|]; [|done]. cbn [mbind option_bind]. intros Hs. exists d. split; [done|].
  destruct (settle_step _ _ _ _ _) eqn:H1; [|destruct (drain_step _ _ _ _) eqn:H2].
  - injection Hs as <-. by eapply settle_follows.
  - injection Hs as <-. by eapply drain_follows.
  - by eapply teardown_follows.
Qed.

(** The Fiber whose pass a step starts, moves or ends. *)
Definition moves (op : Op) (x : Addr) : Prop :=
  match op with OpSettle y _ _ | OpTeardown y _ | OpDrive y _ | OpCancel y => y = x | _ => False end.

Lemma drive_drivers x e w w' y : drive x e w = Some w' → y ≠ x → wd_drivers w' !! y = wd_drivers w !! y.
Proof.
  unfold drive. destruct (wd_drivers w !! x) as [d|] eqn:Hd; [|done]. cbn [mbind option_bind].
  destruct (world_fibers w !! x) as [f|]; [|done]. cbn [mbind option_bind]. intros Hs Hne.
  assert (∀ m, wd_drivers m !! y = wd_drivers w !! y → ∀ d, wd_drivers (goto x d m) !! y = wd_drivers w !! y) as Hgo
    by (intros m Hm d0; by rewrite drivers_goto).
  assert (∀ m, wd_drivers m !! y = wd_drivers w !! y → wd_drivers (stop x m) !! y = wd_drivers w !! y) as Hst
    by (intros m Hm; by rewrite drivers_stop).
  assert (∀ next m w0, move x next m = Some w0 → wd_drivers m !! y = wd_drivers w !! y → wd_drivers w0 !! y = wd_drivers w !! y) as Hmv
    by (intros next m w0 Hm; by rewrite (move_drivers _ _ _ _ Hm)).
  destruct (settle_step _ _ _ _ _) as [w1|] eqn:H1; [|destruct (drain_step _ _ _ _) as [w1|] eqn:H2].
  - injection Hs as <-. destruct d as [m o|m o|k|r k|r k|m o|o|o|o [[[]|fl]|p]|fl|o|o|o| |]; cbn [settle_step] in H1; try done.
    all: repeat case_match; try done; simplify_option_eq; eauto.
  - injection Hs as <-. clear H1. destruct d; cbn [drain_step] in H2; try done; repeat case_match; try done; injection H2 as <-; by apply Hgo.
  - clear H1 H2. destruct d; cbn [teardown_step] in Hs; try done; repeat case_match; try done; simplify_option_eq; try by apply Hgo.
    + apply Hgo. by eapply Hmv.
    + apply Hgo. unfold unindex. by destruct (f_installed f).
    + apply Hgo. by eapply Hmv.
    + apply Hst. unfold release_world. destruct (release_residency _ _ _). by destruct (_ && _).
Qed.

Lemma step_drivers op w w' x : step op w = Some w' → ¬ moves op x → wd_drivers w' !! x = wd_drivers w !! x.
Proof.
  intros Hst Hm. destruct op as [ctx p o|y ctx p seal|y|y m o|y o|y e|y|y|y|y m|edges|y rq|y|i v|i|i|i|doomed key|a|y|y]; cbn [step moves] in *.
  4,5: destruct (world_fibers w !! y); [|done]; cbn [mbind option_bind] in Hst; destruct (_ && _); [|done]; injection Hst as <-; rewrite drivers_goto by congruence; done.
  4: by eapply drive_drivers.
  5: destruct (wd_drivers w !! y); [|done]; cbn [mbind option_bind] in Hst; destruct (cancellable _); [|done]; injection Hst as <-; rewrite drivers_goto by congruence; done.
  - revert Hst. unfold spawn_attach. destruct (_ && _); [done|]. destruct (attach_fiber _ _ _ _) as [[]|]; [|done]. by intros [= <-].
  - destruct (decide _); [done|]. revert Hst. unfold spawn_record. destruct (root_heap _ !! y); [|done]. cbn [mbind option_bind fresh_occurrence].
    destruct (spawn_install _ _) as [[] ?]; [|done]. by intros [= <-].
  - revert Hst. unfold spawn_index. destruct (gr_fibers _ !! y) as [f|]; [|done]. cbn [mbind option_bind]. destruct (f_installed f); [|done].
    intros [= <-]. by destruct (f_alive f).
  - destruct (wd_running w !! y); [|done]. cbn [mbind option_bind] in Hst. by injection Hst as <-.
  - destruct (world_fibers w !! y); [|done]. cbn [mbind option_bind] in Hst. by injection Hst as <-.
  - destruct (world_fibers w !! y); [|done]. cbn [mbind option_bind] in Hst. by injection Hst as <-.
  - by injection Hst as <-.
  - revert Hst. unfold enter_section. destruct (_ && _); [|done]. by intros [= <-].
  - revert Hst. unfold section_step. destruct (wd_sections w !! y) as [[p ph]|]; [|done]. destruct (world_fibers w !! y) as [f|]; [|done].
    cbn [sc_phase sc_publication fresh_occurrence]. repeat case_match; try done; by intros [= <-].
  - destruct (wd_pubs w !! i); [|done]. cbn [mbind option_bind] in Hst. by injection Hst as <-.
  - destruct (wd_pubs w !! i) as [p|]; [|done]. cbn [mbind option_bind] in Hst. injection Hst as <-. unfold remove_step.
    by destruct (remove_exact _ _ _ _ _) as [[[slot drift]|er] so].
  - destruct (wd_removed w !! i); [|done]. cbn [mbind option_bind] in Hst. destruct (unlocked _ _); [|done]. by injection Hst as <-.
  - destruct (wd_effects w !! i); [|done]. cbn [mbind option_bind] in Hst. destruct (unlocked _ _); [|done]. by injection Hst as <-.
  - destruct (detach_for_removal _ _ _) as [[]|]; [|done]. cbn [mbind option_bind] in Hst. by injection Hst as <-.
  - by injection Hst as <-.
  - destruct (_ && _); [|done]. by injection Hst as <-.
  - destruct (decide _); [done|]. revert Hst. unfold commit_input. destruct (world_fibers w !! y) as [f|]; [|done]. cbn [mbind option_bind].
    destruct (f_spawn f); [|done]. cbn [mbind option_bind fresh_occurrence]. by intros [= <-].
Qed.

(** A pass goes on, is cancelled, or is moved by its own step. *)
Lemma step_follows op w w' x d :
  step op w = Some w' → wd_drivers w !! x = Some d →
  wd_drivers w' !! x = Some d ∨ wd_drivers w' !! x = Some (DTeardown true) ∧ op = OpCancel x ∨ follows d (wd_drivers w' !! x).
Proof.
  intros Hst Hd. destruct op as [ctx p o|y ctx p seal|y|y m o|y o|y e|y|y|y|y m|edges|y rq|y|i v|i|i|i|doomed key|a|y|y];
    try (left; rewrite (step_drivers _ _ _ x Hst) by (intros Hm; by destruct Hm); done).
  all: destruct (decide (y = x)) as [->|Hne]; [|left; rewrite (step_drivers _ _ _ x Hst) by (intros Hm; by destruct Hm); done].
  - cbn [step] in Hst. destruct (world_fibers w !! x); [|done]. cbn [mbind option_bind] in Hst. by rewrite Hd in Hst.
  - cbn [step] in Hst. destruct (world_fibers w !! x); [|done]. cbn [mbind option_bind] in Hst. by rewrite Hd in Hst.
  - right; right. destruct (drive_follows _ _ _ _ Hst) as (d' & Hd' & Hf). by simplify_eq.
  - right; left. cbn [step] in Hst. rewrite Hd in Hst. cbn [mbind option_bind] in Hst. destruct (cancellable d); [|done].
    injection Hst as <-. by rewrite goto_driver.
Qed.

(** A pass is started by the two steps that claim a slot. *)
Definition starts (op : Op) (x : Addr) : Prop :=
  match op with OpSettle y _ _ | OpTeardown y _ => y = x | _ => False end.

Lemma step_idle op w w' x : step op w = Some w' → ¬ starts op x → wd_drivers w !! x = None → wd_drivers w' !! x = None.
Proof.
  intros Hst Hn Hd. assert ((∃ e, op = OpDrive x e) ∨ op = OpCancel x ∨ ¬ moves op x) as [[e ->]|[->|Hm]].
  { destruct op as [ctx p o|y ctx p seal|y|y m o|y o|y e|y|y|y|y m|edges|y rq|y|i v|i|i|i|doomed key|a|y|y]; cbn in *; eauto.
    - destruct (decide (y = x)) as [->|]; eauto.
    - destruct (decide (y = x)) as [->|]; eauto. }
  - cbn [step] in Hst. unfold drive in Hst. by rewrite Hd in Hst.
  - cbn [step] in Hst. by rewrite Hd in Hst.
  - by rewrite (step_drivers _ _ _ _ Hst Hm).
Qed.

(** * What a pass owes to the journal it found *)

(** The pass has not finished the drain of the generation it leaves. *)
Definition early (d : Driver) : Prop :=
  match d with
  | DSettle _ _ | DUnload _ _ | DTeardown _ | DKill _ | DUnregister _ => True
  | DSnapshot k | DDrain _ k | DRunning _ k => match k with KFailed _ _ => False | _ => True end
  | DDecide _ _ | DLoading _ | DApplying _ | DEnded _ _ | DFailed _ | DDisposed | DRelease => False
  end.

(** Every cleanup in the journal was committed after the token [n]. *)
Definition all_after (n : Z) (f : Fiber) : Prop := ∀ t c, bt_lookup (dl_map (f_journal f)) t = Some c → (n < t)%Z.

Definition issued (n : Z) (_ : World) (_ : Addr) (f : Fiber) : Prop := (n <= dl_sn (f_journal f))%Z.
Definition fresh_after (n : Z) (w : World) (x : Addr) (f : Fiber) : Prop := issued n w x f ∧ all_after n f.
Definition leaving (n : Z) (w : World) (x : Addr) (f : Fiber) : Prop :=
  issued n w x f ∧ ((∃ d, wd_drivers w !! x = Some d ∧ early d) ∨ all_after n f).

Lemma all_after_ext n f f' : (n <= dl_sn (f_journal f))%Z → journal_ext f f' → all_after n f → all_after n f'.
Proof. intros Hn [_ Hl] Ha t c [Ht|Ht]%Hl; [by eapply Ha|lia]. Qed.

Lemma quiet_after n f run sc : quiet f run sc → all_after n f.
Proof. intros [Hj _] t c. by rewrite Hj. Qed.

(** A pass past its drain found everything drained, and an idle dead Fiber holds nothing. *)
Lemma follows_after n w' x f' d :
  world_ok w' → endings_ok w' → world_fibers w' !! x = Some f' → early d → follows d (wd_drivers w' !! x) →
  (wd_drivers w' !! x = None → f_alive f' = false) → (∃ d', wd_drivers w' !! x = Some d' ∧ early d') ∨ all_after n f'.
Proof.
  intros Hok He Hf' Hd Hfl Hdead. pose proof (fi_position _ _ _ _ _ _ _ _ _ _ (wo_fibers _ Hok _ _ Hf')) as Hp.
  destruct (wd_drivers w' !! x) as [d'|] eqn:Hd'; cbn in Hfl.
  - assert (early d' ∨ quiet f' (wd_running w' !! x) (wd_sections w' !! x)) as [H|H]; [|left; by exists d'|right; by eapply quiet_after].
    destruct d as [m o|m o|k|r k|r k|m o|o|o|o oc|fl|o|o|o| |]; cbn in Hd; try done; cbn in Hfl.
    + destruct Hfl as [?|[[= ->]|[= ->]]]; [done|by left|right; apply Hp].
    + injection Hfl as ->. by left.
    + destruct Hfl as [r [= ->]]. by left.
    + destruct Hfl as [[= ->]|(r' & [[= ->]|[= ->]])]; [|by left..]. destruct k; cbn in *; try done; right; apply Hp.
    + injection Hfl as ->. by left.
    + destruct Hfl as [[= ->]|[= ->]]; [right; apply Hp|by left].
    + injection Hfl as ->. by left.
    + injection Hfl as ->. by left.
  - right. assert (fiber_state f' = Disposed) as Hs.
    { eapply (eo_complete _ He); [done|]. eapply doomed_idle; [|done]. eapply (eo_dead _ He); [done|auto]. }
    destruct Hp as (_ & _ & Hq & _). eapply quiet_after, Hq. right; by right.
Qed.

(** An early pass ends at once only for a dead Fiber. *)
Lemma early_end op w w' x d f :
  step op w = Some w' → wd_drivers w !! x = Some d → early d → world_fibers w !! x = Some f → wd_drivers w' !! x = None →
  f_alive f = false.
Proof.
  intros Hst Hd He Hf Hn. assert (∃ e, op = OpDrive x e) as [e ->].
  { destruct (step_follows _ _ _ _ _ Hst Hd) as [H|[[H _]|_]]; [congruence..|].
    destruct op as [ctx p o|y ctx p seal|y|y m o|y o|y e|y|y|y|y m|edges|y rq|y|i v|i|i|i|doomed key|a|y|y];
      try (by rewrite (step_drivers _ _ _ x Hst), Hd in Hn by (intros Hm; by destruct Hm)).
    all: destruct (decide (y = x)) as [->|Hne]; [|by rewrite (step_drivers _ _ _ x Hst), Hd in Hn by (intros Hm; by destruct Hm)].
    - cbn [step] in Hst. rewrite Hf in Hst. cbn [mbind option_bind] in Hst. by rewrite Hd in Hst.
    - cbn [step] in Hst. rewrite Hf in Hst. cbn [mbind option_bind] in Hst. by rewrite Hd in Hst.
    - by exists e.
    - cbn [step] in Hst. rewrite Hd in Hst. cbn [mbind option_bind] in Hst. destruct (cancellable d); [|done].
      injection Hst as <-. by rewrite goto_driver in Hn. }
  cbn [step] in Hst. destruct (drive_follows _ _ _ _ Hst) as (d0 & Hd0 & Hfl). simplify_eq. rewrite Hn in Hfl.
  unfold drive in Hst. rewrite Hd, Hf in Hst. cbn [mbind option_bind] in Hst.
  destruct d as [m o|m o|k|r k|r k|m o|o|o|o oc|fl|o|o|o| |]; cbn in He, Hfl; try done; try naive_solver.
  cbn [settle_step] in Hst. destruct (f_alive f); [|done]. exfalso. cbn [negb] in Hst.
  destruct (fiber_state f); injection Hst as <-; by rewrite goto_driver in Hn.
Qed.

Lemma issued_later n R w w' x : later R w w' → lasts (issued n) w x → lasts (issued n) w' x.
Proof. apply lasts_later. unfold issued. intros f f' Ha Hn. pose proof (proj1 (ag_journal _ _ _ _ _ _ _ Ha)). lia. Qed.

Lemma fresh_later n R w w' x : later R w w' → lasts (fresh_after n) w x → lasts (fresh_after n) w' x.
Proof.
  apply lasts_later. intros f f' Ha [Hn Hj]. pose proof (ag_journal _ _ _ _ _ _ _ Ha) as He. unfold fresh_after, issued in *.
  split; [pose proof (proj1 He); lia|]. by eapply all_after_ext.
Qed.

(** What a pass owes stays owed until the drain is over. *)
Lemma step_leaving n op w w' x :
  world_ok w → endings_ok w → step op w = Some w' → lasts (leaving n) w x → lasts (leaving n) w' x.
Proof.
  intros Hok He Hst [Hx Hl]. pose proof (step_elapses _ _ _ Hok Hst) as Hel. pose proof (step_ok _ _ _ Hok Hst) as Hok'.
  pose proof (endings_elapses _ _ _ _ Hel He) as He'. split; [pose proof (el_next _ _ _ _ Hel); lia|].
  intros f' Hf'. destruct (el_fiber _ _ _ _ Hel x f' Hf') as [[? _]|(f & Hf & Ha)]; [lia|].
  destruct (Hl f Hf) as [Hn Hc]. pose proof (ag_journal _ _ _ _ _ _ _ Ha) as Hj. unfold leaving, issued in *.
  split; [pose proof (proj1 Hj); lia|]. destruct Hc as [(d & Hd & Hearly)|Hfresh]; [|right; by eapply all_after_ext].
  destruct (step_follows _ _ _ _ _ Hst Hd) as [Hd'|[[Hd' _]|Hfl]]; [left; by exists d|left; by eexists|].
  eapply follows_after; [done..|]. intros Hnone. apply (ag_dead _ _ _ _ _ _ _ Ha). by eapply early_end.
Qed.

(** * What only the holder of the slot does *)

(** Alive, and no teardown is under way. *)
Definition spared (w : World) (x : Addr) (f : Fiber) : Prop :=
  f_alive f = true ∧ ∀ d, wd_drivers w !! x = Some d → ¬ dying d.

Lemma follows_lively d d' : ¬ dying d → follows d (Some d') → ¬ dying d'.
Proof.
  destruct d as [m o|m o|k|r k|r k|m o|o|o|o oc|fl|o|o|o| |]; cbn; intros Hd Hf Hd'; try (by destruct Hd); try naive_solver.
  destruct Hf as [[= ->]|(r' & [[= ->]|[= ->]])]; cbn in Hd'; [|naive_solver..]. destruct k; cbn in *; naive_solver.
Qed.

(** The steps that need the slot. *)
Definition claims_slot (op : Op) (x : Addr) : Prop :=
  match op with OpSettle y _ _ | OpTeardown y _ | OpCancel y | OpMark y MkTakeError => y = x | _ => False end.

Lemma step_spared op w w' x :
  world_ok w → endings_ok w → step op w = Some w' → (claims_slot op x → ∃ m o, op = OpSettle x m o) →
  lasts spared w x → lasts spared w' x.
Proof.
  intros Hok He Hst Hn [Hx Hl]. pose proof (step_elapses _ _ _ Hok Hst) as Hel. split; [pose proof (el_next _ _ _ _ Hel); lia|].
  intros f' Hf'. destruct (el_fiber _ _ _ _ Hel x f' Hf') as [[? _]|(f & Hf & Ha)]; [lia|].
  destruct (Hl f Hf) as [Halive Hlively]. split.
  - destruct (f_alive f') eqn:Ha'; [done|exfalso]. assert (¬ takes op x) as Ht.
    { intros Ht. destruct op as [| | | | | | | | |y []| | | | | | | | | | |]; cbn in Ht; try done. destruct (Hn Ht) as (? & ? & [=]). }
    destruct (ag_spared _ _ _ _ _ _ _ Ha Ht Ha') as [?|[Hc|(d & Hd & ?)]]; [congruence| |by eapply Hlively].
    pose proof (fi_dead _ _ _ _ _ _ _ _ _ _ (wo_fibers _ Hok _ _ Hf) (proj1 (eo_complete _ He _ _ Hf Hc))). congruence.
  - intros d' Hd'. destruct (wd_drivers w !! x) as [d|] eqn:Hd.
    + destruct (step_follows _ _ _ _ _ Hst Hd) as [H|[[_ ->]|H]]; [rewrite Hd' in H; by simplify_eq; apply Hlively| |].
      * destruct (Hn eq_refl) as (? & ? & [=]).
      * rewrite Hd' in H. eapply follows_lively; [by apply Hlively|done].
    + destruct op as [ctx p o|y ctx p seal|y|y m o|y o|y e|y|y|y|y m|edges|y rq|y|i v|i|i|i|doomed key|a|y|y];
        try (by rewrite (step_idle _ _ _ x Hst) in Hd' by (done || intros Hs; by destruct Hs)).
      all: destruct (decide (y = x)) as [->|Hne]; [|by rewrite (step_idle _ _ _ x Hst) in Hd' by (done || intros Hs; by destruct Hs)].
      * cbn [step] in Hst. rewrite Hf in Hst. cbn [mbind option_bind] in Hst. destruct (_ && _); [|done]. injection Hst as <-.
        rewrite goto_driver in Hd'. injection Hd' as <-. by intros [].
      * destruct (Hn eq_refl) as (? & ? & [=]).
Qed.

(** * Parked failures *)

(** Whoever finds a Fiber Failed and at rest finds the parked failure; [D] are exempt. *)
Definition told (D : Addr → Prop) (w : World) : Prop :=
  ∀ x f, ¬ D x → world_fibers w !! x = Some f → resting w x → fiber_state f = Failed → f_error f ≠ None.

Lemma step_told D op w w' : world_ok w → step op w = Some w' → (∀ x, takes op x → D x) → told D w → told D w'.
Proof.
  intros Hok Hst HT Ht x f' Hx Hf' Hr Hs Hn. pose proof (step_elapses _ _ _ Hok Hst) as Hel.
  destruct (el_fiber _ _ _ _ Hel x f' Hf') as [[_ (_ & _ & _ & ? & _)]|(f & Hf & Ha)]; [congruence|].
  destruct (ag_told _ _ _ _ _ _ _ Ha (λ H, Hx (HT x H)) Hr Hs Hn) as (H1 & H2 & H3). by eapply (Ht x f).
Qed.

(** A failure is taken by whoever tears the Fiber down at once. *)
Lemma taken_told x owns w w1 w2 :
  world_ok w → step (OpMark x MkTakeError) w = Some w1 → step (OpTeardown x owns) w1 = Some w2 →
  told (λ _, False) w → told (λ _, False) w2.
Proof.
  intros Hok H1 H2 Ht. pose proof (step_ok _ _ _ Hok H1) as Hok1.
  assert (told (eq x) w) as Ht0 by (intros y f _; apply Ht; by intros []).
  assert (told (eq x) w2) as Ht2.
  { eapply (step_told _ _ w1); [done|exact H2|done|]. eapply step_told; [exact Hok|exact H1|by intros y|done]. }
  intros y f _ Hf Hr. destruct (decide (x = y)) as [->|Hne]; [|exact (Ht2 y f Hne Hf Hr)].
  exfalso. cbn [step] in H2. destruct (world_fibers w1 !! y); [|done]. cbn [mbind option_bind] in H2.
  destruct (_ && _); [|done]. injection H2 as <-. revert Hr. by apply goto_moving.
Qed.

(** * The spawn record *)

Definition recorded_at (_ : World) (_ : Addr) (f : Fiber) : Prop := f_installed f = true.

(** An installed record stays, and the root Fiber never gets one. *)
Lemma step_recorded op w w' x : world_ok w → step op w = Some w' → lasts recorded_at w x → lasts recorded_at w' x.
Proof.
  intros Hok Hst [Hx Hl]. pose proof (step_elapses _ _ _ Hok Hst) as Hel. split; [pose proof (el_next _ _ _ _ Hel); lia|].
  intros f' Hf'. destruct (el_fiber _ _ _ _ Hel x f' Hf') as [[? _]|(f & Hf & Ha)]; [lia|].
  pose proof (Hl f Hf) as Hr. unfold recorded_at, f_installed in *.
  destruct op as [ctx p o|y ctx p seal|y|y m o|y o|y e|y|y|y|y m|edges|y rq|y|i v|i|i|i|doomed key|a|y|y];
    try (by rewrite (ag_spawn _ _ _ _ _ _ _ Ha) by (by intros [])).
  all: destruct (decide (y = x)) as [->|Hne]; [|by rewrite (ag_spawn _ _ _ _ _ _ _ Ha)]; cbn [step] in Hst; destruct (decide _); [done|].
  - unfold spawn_record in Hst. change (root_heap (wd_root w)) with (world_fibers w) in Hst. rewrite Hf in Hst.
    cbn [mbind option_bind fresh_occurrence] in Hst. unfold spawn_install in Hst. by destruct (f_spawn f).
  - unfold commit_input in Hst. rewrite Hf in Hst. cbn [mbind option_bind] in Hst. destruct (f_spawn f) as [st|]; [|done].
    cbn [mbind option_bind fresh_occurrence] in Hst. injection Hst as <-.
    match type of Hf' with world_fibers (on _ ?g _) !! _ = _ => change (alter g x (world_fibers w) !! x = Some f') in Hf' end.
    rewrite lookup_alter_eq, Hf in Hf'. by injection Hf' as <-.
Qed.

Definition root_bare (w : World) : Prop := ∀ f, world_fibers w !! wd_main w = Some f → f_spawn f = None.

Lemma step_bare op w w' : world_ok w → step op w = Some w' → root_bare w → root_bare w'.
Proof.
  intros Hok Hst Hb f' Hf'. pose proof (step_elapses _ _ _ Hok Hst) as Hel. rewrite (el_main _ _ _ _ Hel) in Hf'.
  destruct (el_fiber _ _ _ _ Hel _ f' Hf') as [[_ (_ & _ & _ & _ & ?)]|(f & Hf & Ha)]; [done|].
  rewrite (ag_spawn _ _ _ _ _ _ _ Ha); [by apply Hb|]. intros Hr.
  destruct op; cbn [records] in Hr; try done; subst; cbn [step] in Hst; by rewrite decide_True in Hst.
Qed.

(** * Runs of steps *)

Lemma run_lasts (C : Op → Prop) (P : World → Addr → Fiber → Prop) ops w w' x :
  (∀ op w w', C op → world_ok w → endings_ok w → step op w = Some w' → lasts P w x → lasts P w' x) →
  (∀ op, op ∈ ops → C op) → world_ok w → endings_ok w → run ops w = Some w' → lasts P w x → lasts P w' x.
Proof.
  intros HP. revert w. induction ops as [|op ops IH]; intros w Hn Hok He; cbn [run]; [by intros [= <-]|].
  destruct (step op w) as [w1|] eqn:Hs; [|done]. cbn [mbind option_bind]. intros Hr Hl.
  pose proof (step_elapses _ _ _ Hok Hs) as Hel.
  apply (IH w1); [intros; apply Hn; by right|by eapply step_ok|by eapply endings_elapses|done|].
  eapply HP; [apply Hn; by left|done..].
Qed.

Lemma run_bare ops w w' : world_ok w → run ops w = Some w' → root_bare w → root_bare w'.
Proof.
  revert w. induction ops as [|op ops IH]; intros w Hok; cbn [run]; [by intros [= <-]|].
  destruct (step op w) as [w1|] eqn:Hs; [|done]. cbn [mbind option_bind]. intros Hr Hb.
  apply (IH w1); [by eapply step_ok|done|by eapply step_bare].
Qed.
