(* ===== verification/GenerationGroups.v ===== *)
(** The groups of the Registry under the steps of the Runtime (Generation.v): only
    creation, release and bulk removal touch the Registry, and a group that was detached
    never takes a member again. *)
From S2P Require Import Prelude Axes BTree Lifecycle Journal EventStore Observation Plugin Fiber Registry Deps Services Generation GenerationInv GenerationOps GenerationAge.

Definition registry_of (w : World) : Registry := gr_registry (graph_of w).

(** The allocation [a] exists and no key maps to it. *)
Definition unmapped (r : Registry) (a : Addr) : Prop := a < rg_next r ∧ ∀ k, rg_allocations r !! k ≠ Some a.

(** Allocations are mapped only when they are new, and an unmapped group only shrinks. *)
Record groups_age (r r' : Registry) : Prop := {
  ga_next : rg_next r ≤ rg_next r';
  ga_mapped : ∀ k a, rg_allocations r' !! k = Some a → rg_allocations r !! k = Some a ∨ rg_next r ≤ a;
  ga_group : ∀ a g', unmapped r a → rg_groups r' !! a = Some g' →
    ∃ g, rg_groups r !! a = Some g ∧ ∀ x, x ∈ pg_fibers g' → x ∈ pg_fibers g;
  ga_kept : ∀ a, is_Some (rg_groups r !! a) → is_Some (rg_groups r' !! a);
}.

#[export] Instance groups_age_refl : Reflexive groups_age.
Proof. intros r. split; [done|by left| |done]. intros a g _ Hg. by exists g. Qed.

Lemma groups_age_unmapped r r' a : groups_age r r' → unmapped r a → unmapped r' a.
Proof.
  intros [Hn Hm _ _] [Ha Hk]. split; [lia|]. intros k [H|H]%Hm; [by eapply Hk|lia].
Qed.

Lemma groups_age_trans r1 r2 r3 : groups_age r1 r2 → groups_age r2 r3 → groups_age r1 r3.
Proof.
  intros H1 H2. pose proof H1 as [N1 M1 G1 K1]. pose proof H2 as [N2 M2 G2 K2]. split; [lia| | |auto].
  - intros k a [H|H]%M2; [by apply M1|right; lia].
  - intros a g3 Hu Hg3. destruct (G2 a g3 (groups_age_unmapped _ _ _ H1 Hu) Hg3) as (g2 & Hg2 & Hs2).
    destruct (G1 a g2 Hu Hg2) as (g1 & Hg1 & Hs1). exists g1. split; [done|]. auto.
Qed.

(** * The Registry's own operations *)

Lemma attach_groups heap r key x heap' r' : attach_fiber heap r key x = Some (heap', r') → groups_age r r'.
Proof.
  unfold attach_fiber, current_allocation. destruct (rg_allocations r !! key) as [a|] eqn:Hk.
  - destruct (heap !! x) as [f|]; [|done]. destruct (f_residency f); [done|]. intros [= <- <-]. split; cbn; [done|by left| |by intros b; rewrite lookup_alter_is_Some].
    intros b g' [_ Hu] Hg. assert (b ≠ a) by (intros ->; by eapply Hu). rewrite lookup_alter_ne in Hg by done. by exists g'.
  - destruct (heap !! x) as [f|]; [|done]. destruct (f_residency f); [done|]. intros [= <- <-]. split; cbn; [lia| | |by intros b Hb; rewrite lookup_alter_is_Some, lookup_insert_is_Some'; auto].
    + intros k a [[<- <-]|[_ H]]%lookup_insert_Some; [by right|by left].
    + intros b g' [Hb _] Hg. assert (b ≠ rg_next r) by lia. rewrite lookup_alter_ne, lookup_insert_ne in Hg by done. by exists g'.
Qed.

Lemma take_fiber_members g x y : y ∈ pg_fibers (take_fiber g x).2 → y ∈ pg_fibers g.
Proof.
  unfold take_fiber. destruct (remove_first _ (pg_fibers g)) as [[z rest]|] eqn:Hr; [|done]. cbn.
  apply remove_first_Some in Hr as (l1 & l2 & -> & -> & _). set_solver.
Qed.

Lemma release_groups heap r x : groups_age r (release_residency heap r x).2.
Proof.
  unfold release_residency. destruct (heap !! x) as [f|]; [|done]. destruct (f_residency f) as [c|]; [|done]. cbn [snd].
  unfold release. destruct (upgrade_group r (rc_allocation c)) as [g|] eqn:Hu; [|done].
  destruct (<[x:=_]> heap !! rc_fiber c); [|done]. apply upgrade_group_Some in Hu as Hg.
  destruct (take_fiber g (rc_fiber c)) as [[o idle] g'] eqn:Ht. split; cbn; [done| | |by intros b Hb; rewrite lookup_insert_is_Some'; auto].
  - intros k a H. left. destruct (_ && _); [by apply lookup_delete_Some in H as [_ H]|done].
  - intros a g2 _ [[<- <-]|[_ H]]%lookup_insert_Some; [|by exists g2]. exists g. split; [apply Hg|].
    intros y Hy. apply (take_fiber_members g (rc_fiber c)). by rewrite Ht.
Qed.

Lemma detach_groups doomed r key out r' : detach_for_removal doomed r key = Some (out, r') → groups_age r r'.
Proof.
  unfold detach_for_removal. destruct (rg_allocations r !! key) as [a|]; [|by intros [= _ <-]].
  destruct (rg_groups r !! a) as [g|]; [|done]. destruct (refuse_group_removal_recursion _ _); intros [= _ <-]; [|done].
  split; cbn; [done| | |done].
  - intros k b H. apply lookup_delete_Some in H as [_ H]. by left.
  - intros b g' _ Hg. by exists g'.
Qed.

(** The frozen members are the members, and nothing maps to the group any more. *)
Lemma detached_group doomed heap r key g r' :
  registry_wf heap r → detach_for_removal doomed r key = Some (Ok (Some g), r') →
  unmapped r' (dg_allocation g) ∧ ∃ group, rg_groups r' !! dg_allocation g = Some group ∧ pg_fibers group = dg_fibers g.
Proof.
  intros Hwf. unfold detach_for_removal. destruct (rg_allocations r !! key) as [a|] eqn:Ha; [|done].
  destruct (rg_groups r !! a) as [group|] eqn:Hg; [|done]. destruct (refuse_group_removal_recursion _ _); [|done].
  intros [= <- <-]. cbn. split; [|by exists group]. split; [by apply (rw_fresh _ _ Hwf); exists group|].
  intros k H. cbn in H. apply lookup_delete_Some in H as [Hne H]. apply Hne. destruct (rw_mapped _ _ Hwf _ _ Ha) as (_ & g1 & Hg1 & <-).
  destruct (rw_mapped _ _ Hwf _ _ H) as (_ & g2 & Hg2 & <-). congruence.
Qed.

Lemma finish_groups r a : groups_age r (finish_removal r a).
Proof.
  unfold finish_removal. destruct (rg_groups r !! a) as [[k [|]]|]; try done. split; cbn; [done|by left| |done]. intros b g' _ Hg. by exists g'.
Qed.

(** * The steps of the Runtime *)

Lemma drift_if_registry v g edges : gr_registry (drift_if v g edges).2 = gr_registry g.
Proof.
  unfold drift_if, drift_commit, dependents_for_edges_with_retention. destruct v; [|done].
  by destruct (dependents_of _ _ _) as [[]].
Qed.

Lemma install_registry x slot key name so : gr_registry (so_graph (install x slot key name so).2) = gr_registry (so_graph so).
Proof.
  unfold install. destruct (bool_decide _); [done|]. destruct (match slots _ !! _ with Some _ => _ | None => _ end); [done|].
  destruct (drift_if _ _ _) as [d g] eqn:Hd. pose proof (f_equal (λ p, gr_registry p.2) Hd) as Hg. cbn in Hg.
  rewrite drift_if_registry in Hg. by symmetry.
Qed.

Lemma remove_registry key name o x so : gr_registry (so_graph (remove_exact key name o x so).2) = gr_registry (so_graph so).
Proof.
  unfold remove_exact. destruct (slots _ !! _) as [slot|]; [|done]. destruct (negb _); [done|]. destruct (negb _); [done|].
  destruct (drift_if _ _ _) as [d g] eqn:Hd. pose proof (f_equal (λ p, gr_registry p.2) Hd) as Hg. cbn in Hg.
  rewrite drift_if_registry in Hg. by symmetry.
Qed.

Lemma kick_registry d r : root_stores (kick_some d r) = root_stores r.
Proof. by destruct d. Qed.

Lemma transition_registry x next r r' :
  transition x next r = Some r' → gr_registry (so_graph (root_stores r')) = gr_registry (so_graph (root_stores r)).
Proof.
  unfold transition. destruct (root_heap r !! x) as [f|]; [|done]. cbn [mbind option_bind]. destruct (decide _); [by intros [= <-]|].
  assert (∀ o c (l : list ServiceVisibilityOccurrence) r0, root_stores (fold_left (λ r v, observe_visibility (vo_service v) (vo_realm v) (o v) (c v) r) l r0) = root_stores r0) as Hfold.
  { intros o c l. induction l as [|v l IH]; intros r0; [done|]. cbn [fold_left]. by rewrite IH. }
  destruct (_ && _).
  - unfold commit_fiber_transition. destruct (drift_if _ _ _) as [drift g] eqn:Hd.
    pose proof (f_equal (λ p, gr_registry p.2) Hd) as Hg. cbn in Hg. rewrite drift_if_registry in Hg.
    destruct (gr_fibers g !! x) as [f1|]; [|done]. cbn [mbind option_bind]. destruct (set_state next f1) as [f2|]; [|done]. cbn [mbind option_bind].
    destruct (f_installed f); intros [= <-]; cbn [root_stores observe]; rewrite ?Hfold, kick_registry; cbn; congruence.
  - destruct (set_state next f) as [f2|]; [|done]. cbn [mbind option_bind]. destruct (f_installed f); by intros [= <-].
Qed.

Lemma move_registry x next w w' : move x next w = Some w' → registry_of w' = registry_of w.
Proof.
  unfold move. destruct (transition x next (wd_root w)) as [r|] eqn:Ht; [|done]. cbn [mbind option_bind]. intros [= <-].
  by eapply transition_registry.
Qed.

Lemma claim_registry x t r : gr_registry (so_graph (root_stores (claim_cleanup x t r).2)) = gr_registry (so_graph (root_stores r)).
Proof. unfold claim_cleanup. by destruct (fibers r !! x). Qed.

Lemma drive_registry x e w w' : drive x e w = Some w' → groups_age (registry_of w) (registry_of w').
Proof.
  unfold drive. destruct (wd_drivers w !! x) as [d|]; [|done]. cbn [mbind option_bind].
  destruct (world_fibers w !! x) as [f|]; [|done]. cbn [mbind option_bind]. intros Hs.
  assert (registry_of w' = registry_of w ∨ teardown_step x f d w = Some w') as [->|Ht]; [| done |].
  - destruct (settle_step _ _ _ _ _) as [w1|] eqn:H1; [|destruct (drain_step _ _ _ _) as [w1|] eqn:H2; [|by right]]; left; injection Hs as <-.
    + destruct d as [m o|m o|k|r k|r k|m o|o|o|o [[[]|fl]|p]|fl|o|o|o| |]; cbn [settle_step] in H1; try done.
      all: try (destruct (move x _ _) as [w0|] eqn:Hm; [|done]; cbn [mbind option_bind] in H1; injection H1 as <-; by apply move_registry in Hm).
      * destruct (negb (f_alive f)); [by injection H1 as <-|]. destruct (fiber_state f); by injection H1 as <-.
      * destruct m; [destruct (move x _ _) as [w0|] eqn:Hm; [|done]; cbn [mbind option_bind] in H1; injection H1 as <-; by apply move_registry in Hm|].
        destruct (_ && _); [by injection H1 as <-|]. destruct (apply_snapshot _); [|done]. by injection H1 as <-.
      * by injection H1 as <-.
    + clear H1. destruct d as [m o|m o|k|r k|r k|m o|o|o|o oc|fl|o|o|o| |]; cbn [drain_step] in H2; try done.
      * destruct (_ && _); [|done]. by injection H2 as <-.
      * destruct (rev r) as [|t r']; [by injection H2 as <-|]. destruct (unlocked x w); [|done].
        pose proof (claim_registry x t (wd_root w)) as Hc. destruct (claim_cleanup x t (wd_root w)) as [[c|] rt]; injection H2 as <-; exact Hc.
      * destruct (bool_decide _); [|done]. by injection H2 as <-.
  - destruct d as [m o|m o|k|r k|r k|m o|o|o|o oc|fl|o|o|o| |]; cbn [teardown_step] in Ht; try done.
    + destruct (decide _); [by injection Ht as <-|]. destruct (move x _ _) as [w0|] eqn:Hm; [|done]. cbn [mbind option_bind] in Ht.
      injection Ht as <-. apply move_registry in Hm. change (groups_age (registry_of w) (registry_of w0)). by rewrite Hm.
    + by injection Ht as <-.
    + injection Ht as <-. unfold unindex. by destruct (f_installed f).
    + destruct (move x _ _) as [w0|] eqn:Hm; [|done]. cbn [mbind option_bind] in Ht.
      injection Ht as <-. apply move_registry in Hm. change (groups_age (registry_of w) (registry_of w0)). by rewrite Hm.
    + injection Ht as <-. pose proof (release_groups (world_fibers w) (registry_of w) x) as Hr. unfold release_world.
      change (gr_fibers (so_graph (root_stores (wd_root w)))) with (world_fibers w).
      change (gr_registry (so_graph (root_stores (wd_root w)))) with (registry_of w).
      destruct (release_residency _ _ _) as [heap reg]. by destruct (_ && _).
Qed.

Lemma step_groups op w w' : world_ok w → step op w = Some w' → groups_age (registry_of w) (registry_of w').
Proof.
  intros Hok Hst. assert (registry_of w' = registry_of w → groups_age (registry_of w) (registry_of w')) as Hsame by by intros ->.
  destruct op as [ctx p o|y ctx p seal|y|y m o|y o|y e|y|y|y|y m|edges|y rq|y|i v|i|i|i|doomed key|a|y|y]; cbn [step] in Hst.
  - revert Hst. unfold spawn_attach. destruct (_ && _); [done|]. destruct (attach_fiber _ _ _ _) as [[heap reg]|] eqn:Hat; [|done].
    intros [= <-]. change (groups_age (registry_of w) reg). by eapply attach_groups.
  - apply Hsame. destruct (decide _); [done|]. revert Hst. unfold spawn_record. destruct (root_heap _ !! y); [|done]. cbn [mbind option_bind fresh_occurrence].
    destruct (spawn_install _ _) as [[] ?]; [|done]. by intros [= <-].
  - apply Hsame. revert Hst. unfold spawn_index. destruct (gr_fibers _ !! y) as [f|]; [|done]. cbn [mbind option_bind]. destruct (f_installed f); [|done].
    intros [= <-]. by destruct (f_alive f).
  - apply Hsame. destruct (world_fibers w !! y); [|done]. cbn [mbind option_bind] in Hst. destruct (_ && _); [|done]. by injection Hst as <-.
  - apply Hsame. destruct (world_fibers w !! y); [|done]. cbn [mbind option_bind] in Hst. destruct (_ && _); [|done]. by injection Hst as <-.
  - by eapply drive_registry.
  - apply Hsame. destruct (wd_running w !! y) as [c|]; [|done]. cbn [mbind option_bind] in Hst. injection Hst as <-.
    destruct (cl_run c); try done. cbn. unfold withdraw_exact. destruct (slots _ !! _); [|done]. by destruct (decide _).
  - apply Hsame. destruct (wd_drivers w !! y); [|done]. cbn [mbind option_bind] in Hst. destruct (cancellable _); [|done]. by injection Hst as <-.
  - apply Hsame. destruct (world_fibers w !! y); [|done]. cbn [mbind option_bind] in Hst. by injection Hst as <-.
  - apply Hsame. destruct (world_fibers w !! y); [|done]. cbn [mbind option_bind] in Hst. by injection Hst as <-.
  - apply Hsame. injection Hst as <-. unfold query_index, dependents_for_edges_with_retention, registry_of, graph_of. cbn.
    by destruct (dependents_of _ _ _) as [[]].
  - apply Hsame. revert Hst. unfold enter_section. destruct (_ && _); [|done]. by intros [= <-].
  - apply Hsame. revert Hst. unfold section_step. destruct (wd_sections w !! y) as [[p ph]|]; [|done]. destruct (world_fibers w !! y) as [f|]; [|done].
    cbn [sc_phase sc_publication fresh_occurrence]. destruct ph as [| |o drift].
    + destruct (assert_can_register f); by intros [= <-].
    + destruct p as [callback async|ctx svc value]; [by intros [= <-]|].
      pose proof (install_registry y {| ss_occurrence := root_next (wd_root w); ss_value := value; ss_contract := sv_type svc; ss_fiber := y |}
        (isolate_key ctx (sv_name svc)) (sv_name svc) (root_stores (wd_root w))) as Hin.
      change (root_stores _) with (root_stores (wd_root w)) at 1.
      destruct (install _ _ _ _ _) as [[[evicted drift]|er] so]; intros [= <-]; exact Hin.
    + destruct (decide _); [|done]. destruct p; intros [= <-]; [done|]. unfold registry_of, graph_of. cbn [wd_root put_issued put_root].
      by rewrite (proj1 (announce_root _ _ _ _ _ _)).
  - apply Hsame. destruct (wd_pubs w !! i) as [p|]; [|done]. cbn [mbind option_bind] in Hst. injection Hst as <-.
    unfold publication_set, set_exact. repeat case_match; by simplify_eq.
  - apply Hsame. destruct (wd_pubs w !! i) as [p|]; [|done]. cbn [mbind option_bind] in Hst. injection Hst as <-. unfold remove_step.
    pose proof (remove_registry (sp_key p) (sv_name (sp_service p)) (sp_occurrence p) (sp_owner p) (root_stores (wd_root w))) as Hr.
    destruct (remove_exact _ _ _ _ _) as [[[slot drift]|er] so]; [|exact Hr]. unfold registry_of, graph_of. cbn [wd_root put_removed put_root].
    by rewrite (proj1 (announce_root _ _ _ _ _ _)).
  - apply Hsame. destruct (wd_removed w !! i); [|done]. cbn [mbind option_bind] in Hst. destruct (unlocked _ _); [|done]. injection Hst as <-.
    apply claim_registry.
  - apply Hsame. destruct (wd_effects w !! i); [|done]. cbn [mbind option_bind] in Hst. destruct (unlocked _ _); [|done]. injection Hst as <-.
    apply claim_registry.
  - destruct (detach_for_removal _ _ _) as [[out reg]|] eqn:Hd; [|done]. cbn [mbind option_bind] in Hst. injection Hst as <-.
    by eapply detach_groups.
  - injection Hst as <-. apply finish_groups.
  - apply Hsame. destruct (_ && _); [|done]. by injection Hst as <-.
  - apply Hsame. destruct (decide _); [done|]. revert Hst. unfold commit_input. destruct (world_fibers w !! y) as [f|]; [|done]. cbn [mbind option_bind].
    destruct (f_spawn f); [|done]. cbn [mbind option_bind fresh_occurrence]. by intros [= <-].
Qed.

Lemma run_groups ops w w' : world_ok w → run ops w = Some w' → groups_age (registry_of w) (registry_of w').
Proof.
  revert w. induction ops as [|op ops IH]; intros w Hok; cbn [run]; [by intros [= <-]|].
  destruct (step op w) as [w1|] eqn:Hs; [|done]. cbn [mbind option_bind]. intros Hr.
  eapply groups_age_trans; [by eapply step_groups|]. eapply IH; [by eapply step_ok|done].
Qed.
