(* ===== verification/GenerationTarget.v ===== *)
(** What a pass settles towards (crates/cordis-core/src/fiber/mod.rs): the target of a
    Fiber changes only together with its recheck revision, an occurrence that stopped
    being visible never is again, and where a pass leaves the Fiber it settles. *)
From S2P Require Import Prelude Axes BTree Lifecycle Journal EventStore Observation Plugin Fiber Registry Deps Services Generation GenerationInv GenerationOps GenerationEffect GenerationAge GenerationPass GenerationProps.

(** * Ageing, whoever takes the parked failure *)

Lemma take_error_step x w w' y f f' :
  step (OpMark x MkTakeError) w = Some w' → world_fibers w !! y = Some f → world_fibers w' !! y = Some f' →
  fiber_state f' = fiber_state f ∧ f_applied f' = f_applied f ∧ f_alive f' = f_alive f.
Proof.
  cbn [step]. destruct (world_fibers w !! x) as [g|] eqn:Hg; [|done]. cbn [mbind option_bind]. intros [= <-] Hf Hf'.
  change (alter (apply_mark MkTakeError) x (world_fibers w) !! y = Some f') in Hf'.
  destruct (decide (y = x)) as [->|Hne]; [rewrite lookup_alter_eq, Hf in Hf'|rewrite lookup_alter_ne in Hf' by done]; by simplify_eq/=.
Qed.

(** A state changes by a step of the pass that drives the Fiber. *)
Lemma step_moved op w w' x f f' :
  world_ok w → step op w = Some w' → world_fibers w !! x = Some f → world_fibers w' !! x = Some f' →
  fiber_state f' ≠ fiber_state f → ∃ d, wd_drivers w !! x = Some d ∧ (fiber_state f' = Unloading ∨ publishes d).
Proof.
  intros Hok Hst Hf Hf' Hne. destruct (el_fiber _ _ _ _ (step_elapses _ _ _ Hok Hst) x f' Hf') as [[Hx _]|(g & Hg & Ha)].
  { pose proof (wo_heap _ Hok x ltac:(by eexists)). lia. }
  simplify_eq. destruct op as [| | | | | | | | |y []| | | | | | | | | | |]; try (apply (ag_moved _ _ _ _ _ _ _ Ha); [by intros []|done]).
  destruct (take_error_step _ _ _ _ _ _ Hst Hf Hf') as [? _]. congruence.
Qed.

Lemma step_applied op w w' x f f' :
  world_ok w → step op w = Some w' → world_fibers w !! x = Some f → world_fibers w' !! x = Some f' →
  f_applied f' ≠ f_applied f → ∃ owns, wd_drivers w !! x = Some (DApplying owns).
Proof.
  intros Hok Hst Hf Hf' Hne. destruct (el_fiber _ _ _ _ (step_elapses _ _ _ Hok Hst) x f' Hf') as [[Hx _]|(g & Hg & Ha)].
  { pose proof (wo_heap _ Hok x ltac:(by eexists)). lia. }
  simplify_eq. destruct op as [| | | | | | | | |y []| | | | | | | | | | |]; try (apply (ag_applied _ _ _ _ _ _ _ Ha); [by intros []|done]).
  destruct (take_error_step _ _ _ _ _ _ Hst Hf Hf') as (_ & ? & _). congruence.
Qed.

(** Without a pass nothing moves. *)
Lemma step_undriven op w w' x f f' :
  world_ok w → step op w = Some w' → world_fibers w !! x = Some f → world_fibers w' !! x = Some f' →
  wd_drivers w !! x = None → fiber_state f' = fiber_state f ∧ f_applied f' = f_applied f.
Proof.
  intros Hok Hst Hf Hf' Hd. split.
  - destruct (decide (fiber_state f' = fiber_state f)) as [|Hne]; [done|].
    destruct (step_moved _ _ _ _ _ _ Hok Hst Hf Hf' Hne) as (d & ? & _). congruence.
  - destruct (decide (f_applied f' = f_applied f)) as [|Hne]; [done|].
    destruct (step_applied _ _ _ _ _ _ Hok Hst Hf Hf' Hne) as (d & ?). congruence.
Qed.

(** The Fiber of before, for one that was not just attached. *)
Lemma step_aged op w w' x f' :
  world_ok w → step op w = Some w' → is_Some (world_fibers w !! x) → world_fibers w' !! x = Some f' →
  ∃ f, world_fibers w !! x = Some f ∧ ages (records op) (takes op) w w' x f f'.
Proof.
  intros Hok Hst Hx Hf'. destruct (el_fiber _ _ _ _ (step_elapses _ _ _ Hok Hst) x f' Hf') as [[Hlt _]|?]; [|done].
  pose proof (wo_heap _ Hok x Hx). lia.
Qed.

(** * The index *)

(** The index serves a Fiber until its teardown. *)
Lemma drive_served x e w w' y :
  drive x e w = Some w' → y ∈ wd_served w → (∀ o, wd_drivers w !! y ≠ Some (DUnregister o)) → y ∈ wd_served w'.
Proof.
  unfold drive. destruct (wd_drivers w !! x) as [d|] eqn:Hd; [|done]. cbn [mbind option_bind].
  destruct (world_fibers w !! x) as [f|]; [|done]. cbn [mbind option_bind]. intros Hs Hy Hn.
  assert (∀ next m w0, move x next m = Some w0 → wd_served w0 = wd_served m) as Hmv
    by (intros next m w0; unfold move; destruct (transition _ _ _); [|done]; by intros [= <-]).
  destruct (settle_step _ _ _ _ _) as [w1|] eqn:H1; [|destruct (drain_step _ _ _ _) as [w1|] eqn:H2].
  - injection Hs as <-. destruct d as [m o|m o|k|r k|r k|m o|o|o|o [[[]|fl]|p]|fl|o|o|o| |]; cbn [settle_step] in H1; try done.
    all: repeat case_match; try done; simplify_option_eq; cbn [goto stop put_drivers wd_served]; try done.
    all: by erewrite Hmv by done.
  - injection Hs as <-. destruct d; cbn [drain_step] in H2; try done; repeat case_match; try done; by simplify_eq.
  - destruct d; cbn [teardown_step] in Hs; try done; repeat case_match; try done; simplify_option_eq; cbn [goto stop put_drivers wd_served]; try done.
    + by erewrite Hmv by done.
    + unfold unindex. destruct (f_installed f); [|done]. cbn. assert (y ≠ x) by (intros ->; by eapply Hn). set_solver.
    + by erewrite Hmv by done.
    + unfold release_world. destruct (release_residency _ _ _). by destruct (_ && _).
Qed.

Lemma step_served op w w' y :
  step op w = Some w' → y ∈ wd_served w → (∀ o, wd_drivers w !! y ≠ Some (DUnregister o)) → y ∈ wd_served w'.
Proof.
  intros Hst Hy Hn. destruct op as [ctx p o|x ctx p seal|x|x m o|x o|x e|x|x|x|x m|edges|x rq|x|i v|i|i|i|doomed key|a|x|x]; cbn [step] in Hst.
  6: by eapply drive_served.
  all: try (destruct (world_fibers w !! x); [|done]; cbn [mbind option_bind] in Hst).
  all: try (destruct (_ && _); [|done]).
  all: try (by injection Hst as <-).
  - revert Hst. unfold spawn_attach. destruct (_ && _); [done|]. destruct (attach_fiber _ _ _ _) as [[]|]; [|done]. by intros [= <-].
  - destruct (decide _); [done|]. revert Hst. unfold spawn_record. destruct (root_heap _ !! x); [|done]. cbn [mbind option_bind fresh_occurrence].
    destruct (spawn_install _ _) as [[] ?]; [|done]. by intros [= <-].
  - revert Hst. unfold spawn_index. destruct (gr_fibers _ !! x) as [f|]; [|done]. cbn [mbind option_bind]. destruct (f_installed f); [|done].
    intros [= <-]. destruct (f_alive f); [|done]. cbn. set_solver.
  - destruct (wd_running w !! x); [|done]. cbn [mbind option_bind] in Hst. by injection Hst as <-.
  - destruct (wd_drivers w !! x); [|done]. cbn [mbind option_bind] in Hst. destruct (cancellable _); [|done]. by injection Hst as <-.
  - revert Hst. unfold enter_section. destruct (_ && _); [|done]. by intros [= <-].
  - revert Hst. unfold section_step. destruct (wd_sections w !! x) as [[p ph]|]; [|done]. destruct (world_fibers w !! x) as [f|]; [|done].
    cbn [sc_phase sc_publication fresh_occurrence]. repeat case_match; try done; by intros [= <-].
  - destruct (wd_pubs w !! i); [|done]. cbn [mbind option_bind] in Hst. by injection Hst as <-.
  - destruct (wd_pubs w !! i) as [p|]; [|done]. cbn [mbind option_bind] in Hst. injection Hst as <-. unfold remove_step.
    by destruct (remove_exact _ _ _ _ _) as [[[slot drift]|er] so].
  - destruct (wd_removed w !! i); [|done]. cbn [mbind option_bind] in Hst. destruct (unlocked _ _); [|done]. by injection Hst as <-.
  - destruct (wd_effects w !! i); [|done]. cbn [mbind option_bind] in Hst. destruct (unlocked _ _); [|done]. by injection Hst as <-.
  - destruct (detach_for_removal _ _ _) as [[]|]; [|done]. cbn [mbind option_bind] in Hst. by injection Hst as <-.
  - destruct (decide _); [done|]. revert Hst. unfold commit_input. destruct (world_fibers w !! x) as [f|]; [|done]. cbn [mbind option_bind].
    destruct (f_spawn f); [|done]. cbn [mbind option_bind fresh_occurrence]. by intros [= <-].
Qed.

(** * Occurrences that will not be seen again *)

(** The occurrence is not in the slot, or its owner is dead or emptying its journal. *)
Definition hidden (w : World) (k : SlotKey) (o : Addr) : Prop :=
  o < root_next (wd_root w) ∧ ∀ slot, slots (services_of w) !! k = Some slot → ss_occurrence slot = o →
    ∀ f, world_fibers w !! ss_fiber slot = Some f → f_alive f = false ∨ fiber_state f = Unloading.

Lemma hidden_unseen w key name o : hidden w (key, name) o → occurrence_at w key name ≠ Some o.
Proof.
  intros [_ Hh]. unfold occurrence_at, occurrence_id. fold (services_of w). destruct (slots (services_of w) !! (key, name)) as [slot|] eqn:Hs; [|done].
  unfold visible. change (gr_fibers (so_graph (root_stores (wd_root w)))) with (world_fibers w).
  destruct (world_fibers w !! ss_fiber slot) as [f|] eqn:Hf; [|done]. destruct (f_alive f && _) eqn:Hv; [|done]. intros [= Ho].
  apply andb_true_iff in Hv as [Ha Hst%bool_decide_eq_true_1]. destruct (Hh slot eq_refl Ho f Hf); congruence.
Qed.

(** A pass that publishes another state has nothing left in the slots, or was Loading. *)
Lemma publishes_empty w x f d :
  world_ok w → world_fibers w !! x = Some f → wd_drivers w !! x = Some d → publishes d →
  fiber_state f ≠ Active ∧ (fiber_state f = Unloading → owns_nothing w x).
Proof.
  intros Hok Hf Hd Hp. destruct (driven_at _ _ _ _ Hok Hf Hd) as [_ Hpos].
  destruct d; cbn in Hp; try done; cbn in Hpos.
  - destruct Hpos as [Hq [[-> _]| ->]]; (split; [done|]; intros _; by eapply quiet_owns_nothing).
  - destruct Hpos as [Hq [->| ->]]; (split; [done|]; intros _; by eapply quiet_owns_nothing).
  - destruct Hpos as (_ & -> & _). done.
  - destruct Hpos as (Hq & -> & _). split; [done|]. intros _. by eapply quiet_owns_nothing.
  - destruct Hpos as (Hq & -> & _). split; [done|]. intros _. by eapply quiet_owns_nothing.
Qed.

(** The slot of an earlier occurrence, and its owner, before the step. *)
Lemma slot_before op w w' k slot' :
  world_ok w → step op w = Some w' → slots (services_of w') !! k = Some slot' → ss_occurrence slot' < root_next (wd_root w) →
  ∃ slot f, slots (services_of w) !! k = Some slot ∧ ss_occurrence slot' = ss_occurrence slot ∧ ss_fiber slot' = ss_fiber slot ∧
            world_fibers w !! ss_fiber slot = Some f.
Proof.
  intros Hok Hst Hs Hlt. destruct (ef_slots _ _ (step_has_effect _ _ _ Hok Hst) _ _ Hs) as [(slot & H1 & H2 & H3 & _)|?]; [|lia].
  destruct (wo_owners _ Hok _ _ H1) as [f Hf]. by exists slot, f.
Qed.

Lemma step_hidden op w w' k o : world_ok w → step op w = Some w' → hidden w k o → hidden w' k o.
Proof.
  intros Hok Hst [Hlt Hh]. split; [pose proof (ef_next _ _ (step_has_effect _ _ _ Hok Hst)); lia|].
  intros slot' Hs' Ho f' Hf'. destruct (slot_before _ _ _ _ _ Hok Hst Hs' ltac:(lia)) as (slot & f & Hs & Ho' & Hx & Hf).
  rewrite Hx in Hf'. destruct (step_aged _ _ _ _ _ Hok Hst ltac:(by eexists) Hf') as (g & Hg & Ha). simplify_eq.
  destruct (Hh slot Hs (eq_sym Ho') f Hf) as [Hdead|Hun]; [left; by apply Ha|].
  destruct (decide (fiber_state f' = fiber_state f)) as [Heq|Hne]; [right; congruence|].
  destruct (step_moved _ _ _ _ _ _ Hok Hst Hf Hf' Hne) as (d & Hd & [?|Hp]); [by right|].
  destruct (publishes_empty _ _ _ _ Hok Hf Hd Hp) as [_ He]. destruct (He Hun) as (_ & _ & Hnone). by destruct (Hnone k slot Hs).
Qed.

(** An occurrence that was visible and is not any more. *)
Lemma step_hides op w w' key name o :
  world_ok w → step op w = Some w' → occurrence_at w key name = Some o → occurrence_at w' key name ≠ Some o → hidden w' (key, name) o.
Proof.
  intros Hok Hst Ho Hn. pose proof (step_has_effect _ _ _ Hok Hst) as He.
  assert (o < root_next (wd_root w)) as Hlt.
  { revert Ho. unfold occurrence_at, occurrence_id. fold (services_of w). destruct (slots (services_of w) !! (key, name)) as [slot|] eqn:Hs; [|done].
    destruct (visible _ _); [|done]. intros [= <-]. by apply (sw_fresh _ _ (wo_slots _ Hok) _ _ Hs). }
  split; [pose proof (ef_next _ _ He); lia|]. intros slot' Hs' Ho' f' Hf'.
  destruct (slot_before _ _ _ _ _ Hok Hst Hs' ltac:(lia)) as (slot & f & Hs & Hoc & Hx & Hf).
  revert Ho Hn. unfold occurrence_at, occurrence_id. fold (services_of w) (services_of w'). rewrite Hs, Hs'. unfold visible.
  change (gr_fibers (so_graph (root_stores (wd_root w)))) with (world_fibers w). change (gr_fibers (so_graph (root_stores (wd_root w')))) with (world_fibers w').
  rewrite Hf, Hf'. destruct (f_alive f && _) eqn:Hv; [|done]. intros _ Hn. apply andb_true_iff in Hv as [Ha Hact%bool_decide_eq_true_1].
  destruct (f_alive f') eqn:Ha'; [right|by left]. cbn in Hn. rewrite Hx in Hf'.
  destruct (decide (fiber_state f' = fiber_state f)) as [Heq|Hne].
  { rewrite bool_decide_true in Hn by congruence. congruence. }
  destruct (step_moved _ _ _ _ _ _ Hok Hst Hf Hf' Hne) as (d & Hd & [?|Hp]); [done|].
  by destruct (publishes_empty _ _ _ _ Hok Hf Hd Hp).
Qed.

(** * The target *)

Definition target_of (w : World) (f : Fiber) : option SemanticTarget := compute_target f (root_stores (wd_root w)).

(** A target moves only with the revision of a served Fiber, or by a committed input. *)
Lemma step_target op w w' x f f' :
  world_ok w → step op w = Some w' → ¬ records op x → x ∈ wd_served w →
  world_fibers w !! x = Some f → world_fibers w' !! x = Some f' → f_committed f' = f_committed f → target_of w' f' = target_of w f.
Proof.
  intros Hok Hst Hr Hsv Hf Hf' Hc. destruct (step_aged _ _ _ _ _ Hok Hst ltac:(by eexists) Hf') as (g & Hg & Ha). simplify_eq.
  unfold target_of, compute_target. rewrite (ag_spawn _ _ _ _ _ _ _ Ha Hr), (ag_edges _ _ _ _ _ _ _ Ha).
  destruct (effective_input (f_spawn f)) as [input|]; [|done]. do 2 f_equal. apply list_fmap_ext. intros i e He.
  f_equal. destruct (decide (occurrence_at w (de_realm e) (de_service e) = occurrence_at w' (de_realm e) (de_service e))) as [|Hne]; [done|].
  destruct (ef_commits _ _ (step_has_effect _ _ _ Hok Hst) _ _ Hne x f f' Hsv Hf); [|done..].
  unfold declares. apply Exists_exists. exists e. split; [by eapply list_elem_of_lookup_2|]. by left.
Qed.

(** * Where a pass leaves its Fiber *)

(** The Fiber is as a pass towards a target leaves it; the first apply may be left to the
    creation. *)
Definition settled_as (missing : bool) (f : Fiber) : Prop :=
  if missing then fiber_state f = Pending
  else fiber_state f = Active ∨ fiber_state f = Failed ∨ f_applied f = false.

(** The pass at this position works towards a target that misses a Service, or does not. *)
Definition aims (missing : bool) (d : Driver) : Prop :=
  match d with
  | DSettle m _ | DUnload m _ | DDecide m _ => m = missing
  | DSnapshot k | DDrain _ k | DRunning _ k =>
      match k with KSettle m _ => m = missing | KFailed _ _ => missing = false | KDispose _ => False end
  | DLoading _ | DApplying _ | DEnded _ _ | DFailed _ => missing = false
  | _ => False
  end.

Lemma move_state x f next w w0 :
  world_ok w → world_fibers w !! x = Some f → move x next w = Some w0 →
  ∃ f', world_fibers w0 !! x = Some f' ∧ fiber_state f' = next.
Proof.
  intros Hok Hf Hmv. destruct (solo_move x next f w w0 (put_root (wd_root w0) w) Hok Hf Hmv) as (f' & Hs & [Ht _]); try done.
  exists f'. split; [|done]. exact (sl_after _ _ _ _ _ Hs).
Qed.

(** What a step of a pass leads to. *)
Definition course (missing : bool) (x : Addr) (w' : World) : Prop :=
  match wd_drivers w' !! x with
  | Some d => aims missing d
  | None => ∀ f, world_fibers w' !! x = Some f → settled_as missing f
  end.

Lemma goto_course missing x d w : aims missing d → course missing x (goto x d w).
Proof. unfold course. by rewrite goto_driver. Qed.

Lemma stop_course missing x w : (∀ f, world_fibers w !! x = Some f → settled_as missing f) → course missing x (stop x w).
Proof. unfold course. by rewrite stop_driver. Qed.

Lemma settle_course missing x f d e w w' :
  world_ok w → world_fibers w !! x = Some f → f_alive f = true → aims missing d →
  settle_step x f d e w = Some w' → course missing x w'.
Proof.
  intros Hok Hf Ha Haim.
  assert (∀ er next w0, move x next (on x (store_error er) w) = Some w0 → ∃ f', world_fibers w0 !! x = Some f' ∧ fiber_state f' = next) as Hmv.
  { intros er next w0. apply (move_state x (store_error er f)); [eapply on_like_ok; [done..|apply store_error_like]|by apply on_lookup]. }
  destruct d as [m o|m o|k|r k|r k|m o|o|o|o [[[]|fl]|p]|fl|o|o|o| |]; cbn [settle_step aims] in *; try done; subst.
  - rewrite Ha. cbn. destruct (fiber_state f); intros [= <-]; by apply goto_course.
  - destruct (move x _ _); [|done]. intros [= <-]. by apply goto_course.
  - destruct missing.
    + destruct (move x _ _) as [w0|] eqn:Hm; [|done]. cbn [mbind option_bind]. intros [= <-]. apply stop_course.
      destruct (Hmv _ _ _ Hm) as (g & Hg & Hs). intros f' Hf'. by simplify_eq.
    + destruct (_ && _) eqn:Hb; [intros [= <-]|].
      * apply stop_course. intros f' Hf'. simplify_eq. right; right. apply andb_true_iff in Hb as [_ Hb]. by apply negb_true_iff in Hb.
      * destruct (apply_snapshot _); [|done]. intros [= <-]. by apply goto_course.
  - destruct (move x _ _); [|done]. intros [= <-]. by apply goto_course.
  - intros [= <-]. by apply goto_course.
  - destruct (move x _ _) as [w0|] eqn:Hm; [|done]. cbn [mbind option_bind]. intros [= <-]. apply stop_course.
    destruct (Hmv _ _ _ Hm) as (g & Hg & Hs). intros f' Hf'. simplify_eq. by left.
  - destruct (move x _ _); [|done]. intros [= <-]. by apply goto_course.
  - destruct (move x _ _); [|done]. intros [= <-]. by apply goto_course.
  - destruct (move x _ _) as [w0|] eqn:Hm; [|done]. cbn [mbind option_bind]. intros [= <-]. apply stop_course.
    destruct (Hmv _ _ _ Hm) as (g & Hg & Hs). intros f' Hf'. simplify_eq. right; by left.
Qed.

Lemma drain_course missing x f d w w' : aims missing d → drain_step x f d w = Some w' → course missing x w'.
Proof.
  intros Haim. destruct d as [m o|m o|k|r k|r k|m o|o|o|o oc|fl|o|o|o| |]; cbn [drain_step aims] in *; try done.
  - destruct (_ && _); [|done]. intros [= <-]. by apply goto_course.
  - destruct (rev r); [intros [= <-]; apply goto_course; by destruct k|]. destruct (unlocked x w); [|done].
    destruct (claim_cleanup _ _ _) as [[c|] rt]; intros [= <-]; by apply goto_course.
  - destruct (bool_decide _); [|done]. intros [= <-]. by apply goto_course.
Qed.

(** One step of a pass under way keeps its aim, and its last leaves the Fiber settled. *)
Lemma drive_course missing x e w w' f d :
  world_ok w → world_fibers w !! x = Some f → f_alive f = true → wd_drivers w !! x = Some d → aims missing d →
  drive x e w = Some w' → course missing x w'.
Proof.
  intros Hok Hf Ha Hd Haim. unfold drive. rewrite Hd, Hf. cbn [mbind option_bind].
  destruct (settle_step _ _ _ _ _) eqn:H1; [intros [= <-]; by eapply settle_course|].
  destruct (drain_step _ _ _ _) eqn:H2; [intros [= <-]; by eapply drain_course|].
  by destruct d.
Qed.
