(* ===== verification/Handles.v ===== *)
(** The operations of a FiberHandle that outlive one lifecycle pass (crates/cordis-core/
    src/fiber/spawn.rs, era.rs, inertia.rs, mod.rs, registry.rs): creation, disposal,
    restart, update, the replacement of a Fiber by a fresh era and the removal of all Fibers
    of a plugin, as threads over the Runtime of Generation.v.

    A thread takes one step at a time and its steps interleave with those of every other
    thread and of the Runtime; every change of the Runtime a thread makes is a step of
    Generation.v.  The convergence slot of a Fiber is held by the pass that drives it or
    by a thread, and then [sy_holds] has the Fiber.  What a thread learns from a component
    outside this state (the refusal of a recursion, SettleCtx.v; the verdict of an exit
    recheck, Inertia.v; whether the destructor of user data panics) is part of the step. *)
From S2P Require Import Prelude Axes BTree Lifecycle Journal EventStore Observation Plugin Fiber Registry Deps Services Generation.

(** * Outcomes *)

(* @src crates/cordis-core/src/fiber/spawn.rs 165-189 SpawnError *)
Inductive SpawnError := InactiveContext | InitialApply (failure : PluginFailure) | Interrupted.

(* @src crates/cordis-core/src/fiber/mod.rs 341-350 EraSwapFailure *)
Inductive EraSwapFailure := SuccessorApply (failure : PluginFailure) | SuccessorLost.

(** A recursion is named by the Fiber it would wait for. *)
(* @src crates/cordis-core/src/fiber/mod.rs 353-368 EraSwapError *)
Inductive EraSwapError := PluginContractMismatch | EraClosed | EraRecursion (x : Addr) | Incomplete (e : EraSwapFailure).

(** [None] is the [unreachable!] on an origin's closed generation. *)
(* @src crates/cordis-core/src/fiber/era.rs 371-379 map_spawn_failure *)
Definition map_spawn_failure (e : SpawnError) : option EraSwapFailure :=
  match e with
  | InitialApply failure => Some (SuccessorApply failure)
  | Interrupted => Some SuccessorLost
  | InactiveContext => None
  end.

(** What the caller of [era_swap] gets: a handle, an error, or the panic of the
    destructor of the old input, resumed. *)
Inductive EraResult := EraHandle (y : Addr) | EraErr (e : EraSwapError) | EraPanic.

(* @src crates/cordis-core/src/fiber/mod.rs 1477-1489 RestartError *)
Inductive RestartError := RestartClosed | RestartRecursion | RestartApply (failure : PluginFailure).

(* @src crates/cordis-core/src/fiber/mod.rs 374-382 UpdateOutcome *)
Inductive UpdateOutcome := Committed (state : FiberState) | Vetoed.

(* @src crates/cordis-core/src/fiber/mod.rs 385-406 UpdateError *)
Inductive UpdateError :=
| UpdateContractMismatch
| UpdateClosed
| UpdateRecursion
| UpdateControl (failure : InvocationFailure)
| AdmissionLost
| UpdateApply (failure : PluginFailure).

(** What the caller of [restart] or [update] gets; the panic is that of the destructor of
    the superseded input. *)
Inductive ControlResult :=
| CrRestart (r : result unit RestartError)
| CrUpdate (r : result UpdateOutcome UpdateError)
| CrPanic.

(** * Threads *)

(** A creation, at one of its awaits or between two accesses; [SpDone] keeps the
    attempted Fiber. *)
Inductive SpawnPc :=
| SpAttach
| SpRecord (x : Addr)
| SpIndex (x : Addr)
| SpClaim (x : Addr)
| SpPass (x : Addr)
| SpSettling (x : Addr) (missing : bool)
| SpFailing (x : Addr) (failure : PluginFailure)
| SpRecheck (x : Addr)
| SpDone (attempted : option Addr) (r : result Addr SpawnError).

(** The completion of a creation its caller abandoned. *)
Inductive GuardPc := GuTerminal (x : Addr) | GuJoin (x : Addr) | GuClaim (x : Addr) | GuTeardown (x : Addr) | GuDone (x : Addr).

Inductive DisposePc := DpStart | DpClaim | DpHeld | DpWait | DpDone (r : result unit unit).

(** The caller of a replacement. *)
Inductive CallerPc := EcStart | EcClaim (r : EraRecipe) | EcHeld (r : EraRecipe) | EcAwait | EcDone (r : EraResult) | EcGone.

(** The owner task of a committed replacement, and after it the cleanup of a successor
    nobody took. *)
Inductive OwnerPc :=
| EoNone
| EoTeardown (dependents : list Addr)
| EoEntry (dependents : list Addr)
| EoInput
| EoSpawn (p : PreparedPlugin) (sp : SpawnPc)
| EoFinal (r : EraResult)
| EoConverge (dependents : list Addr) (r : EraResult)
| EoOffer (r : EraResult)
| EoTaken
| EoUndelivered (y : Addr)
| EoDispose (y : Addr) (edges : list EdgeKey) (pc : DisposePc)
| EoCapture (y : Addr) (edges : list EdgeKey)
| EoRelease (y : Addr) (dependents : list Addr)
| EoClosed.

(** [er_attempt] is the Fiber the replacement allocated, [er_recipe] and [er_edges] what
    the commit captured. *)
Record Era := {
  er_source : Addr;
  er_change : PreparedChange;
  er_recipe : option EraRecipe;
  er_edges : list EdgeKey;
  er_attempt : option Addr;
  er_caller : CallerPc;
  er_owner : OwnerPc;
}.

(** A restart, or an update with its candidate. *)
Inductive ControlKind := Restarting | Updating (change : PreparedChange).

(** The caller of a restart or an update. *)
Inductive ControlPc := CtStart | CtChain | CtClaim | CtHeld | CtDropping | CtAwait | CtDone (r : ControlResult) | CtGone.

(** The owner of a committed one; [missing] is that of the recorded target. *)
Inductive ControlOwner :=
| CoNone
| CoInput (missing : bool)
| CoPass (missing : bool)
| CoSettling (missing : bool)
| CoDone (r : result FiberState PluginFailure).

(** [ct_since] is the newest token of the journal at the commit, a history variable. *)
Record Control := {
  ct_target : Addr;
  ct_kind : ControlKind;
  ct_since : Z;
  ct_caller : ControlPc;
  ct_owner : ControlOwner;
}.

(** A bulk removal: it disposes of the members it froze one after the other, the first of
    [rest] by [pc]. *)
Inductive RemovalPc :=
| RmStart
| RmMembers (rest : list Addr) (pc : DisposePc)
| RmDone (r : result unit Addr).

Record Removal := { rm_key : PluginKey; rm_group : option DetachedGroup; rm_pc : RemovalPc }.

Inductive Thread :=
| ThSpawn (ctx : Context) (p : PreparedPlugin) (pc : SpawnPc)
| ThGuard (pc : GuardPc)
| ThDispose (x : Addr) (pc : DisposePc)
| ThEra (e : Era)
| ThControl (c : Control)
| ThRemove (r : Removal)
| ThGone.

(** [sy_seals] holds the seal of each Fiber, under the address of the Fiber. *)
Record System := {
  sy_world : World;
  sy_holds : gset Addr;
  sy_seals : gmap Addr TypedPlugin;
  sy_threads : gmap nat Thread;
}.

Definition put_world (w : World) (s : System) : System :=
  {| sy_world := w; sy_holds := sy_holds s; sy_seals := sy_seals s; sy_threads := sy_threads s |}.
Definition put_holds (h : gset Addr) (s : System) : System :=
  {| sy_world := sy_world s; sy_holds := h; sy_seals := sy_seals s; sy_threads := sy_threads s |}.
Definition put_seals (m : gmap Addr TypedPlugin) (s : System) : System :=
  {| sy_world := sy_world s; sy_holds := sy_holds s; sy_seals := m; sy_threads := sy_threads s |}.
Definition put_threads (t : gmap nat Thread) (s : System) : System :=
  {| sy_world := sy_world s; sy_holds := sy_holds s; sy_seals := sy_seals s; sy_threads := t |}.

(** What a step learns: which lifecycle waits would be recursions, whether the recheck
    of an exit found drift, whether no recheck of an awaited Fiber is outstanding,
    whether the destruction of the old input panics, and what the precommit chain of an
    update answers: a failure, a veto, or the final input. *)
Record Choice := {
  ch_refused : Addr → bool;
  ch_drift : bool;
  ch_settled : bool;
  ch_panics : bool;
  ch_chain : result (option nat) InvocationFailure;
}.

Definition stores_of (s : System) : Stores := root_stores (wd_root (sy_world s)).
Definition fiber_at_addr (s : System) (x : Addr) : option Fiber := world_fibers (sy_world s) !! x.

(** A step of the Runtime. *)
Definition do (op : Op) (s : System) : option System := w ← step op (sy_world s); Some (put_world w s).

(** ** The slot *)

Definition slot_free (x : Addr) (s : System) : bool :=
  bool_decide (wd_drivers (sy_world s) !! x = None) && bool_decide (x ∉ sy_holds s).
Definition hold (x : Addr) (s : System) : System := put_holds ({[ x ]} ∪ sy_holds s) s.
Definition unhold (x : Addr) (s : System) : System := put_holds (sy_holds s ∖ {[ x ]}) s.

(** ** Creation *)

(** The classification of the settled first pass; the slot is held throughout, and the
    tail of the pass is taken to find the slot idle after a clean exit (Inertia.v,
    [creation_tail_steals_slot], has the other case). *)
(* @src crates/cordis-core/src/fiber/inertia.rs 510-556 InertiaSlot::initial_spawn_pass *)
Definition after_pass (x : Addr) (missing : bool) (ch : Choice) (f : Fiber) (s : System) : option (SpawnPc * System) :=
  if missing then
    if ch_drift ch then Some (SpPass x, s) else Some (SpRecheck x, unhold x s)
  else if bool_decide (fiber_state f = Failed) then
    let failure := default (pf_returned "plugin failed without a parked failure") (take_error f).1 in
    s ← do (OpMark x MkTakeError) s;
    s ← do (OpTeardown x true) s;
    Some (SpFailing x failure, s)
  else if ch_drift ch then Some (SpPass x, s)
  else Some (SpRecheck x, unhold x s).

(** One step of [spawn_prepared_inner]; the forced unlinks find the residency released
    with the end of the teardown. *)
(* @src crates/cordis-core/src/fiber/spawn.rs 251-376 spawn_prepared_inner *)
Definition spawn_step (ctx : Context) (p : PreparedPlugin) (require_origin_open : bool) (ch : Choice) (pc : SpawnPc) (s : System)
    : option (SpawnPc * System) :=
  match pc with
  | SpAttach =>
      if require_origin_open && negb (can_register (world_fibers (sy_world s)) (ctx_fiber ctx))
      then Some (SpDone None (Err InactiveContext), s)
      else let x := root_next (wd_root (sy_world s)) in
           s ← do (OpSpawn ctx p require_origin_open) s; Some (SpRecord x, s)
  | SpRecord x => s ← do (OpRecord x ctx p x) s; Some (SpIndex x, put_seals (<[ x := pp_plugin p ]> (sy_seals s)) s)
  | SpIndex x => s ← do (OpIndex x) s; Some (SpClaim x, s)
  | SpClaim x =>
      f ← fiber_at_addr s x;
      if slot_free x s then
        if f_alive f then Some (SpPass x, hold x s) else Some (SpDone (Some x) (Err Interrupted), s)
      else None
  | SpPass x =>
      f ← fiber_at_addr s x;
      let missing := negb (bool_decide (missing_from f (stores_of s) = [])) in
      s ← do (OpSettle x missing true) s; Some (SpSettling x missing, s)
  | SpSettling x missing =>
      f ← fiber_at_addr s x;
      if bool_decide (wd_drivers (sy_world s) !! x = None) then after_pass x missing ch f s else None
  | SpFailing x failure =>
      if bool_decide (wd_drivers (sy_world s) !! x = None)
      then Some (SpDone (Some x) (Err (InitialApply failure)), unhold x s) else None
  | SpRecheck x =>
      f ← fiber_at_addr s x;
      if slot_free x s then
        if f_alive f then s ← do (OpMark x MkHandoff) s; Some (SpDone (Some x) (Ok x), s)
        else Some (SpDone (Some x) (Err Interrupted), s)
      else None
  | SpDone _ _ => None
  end.

(** The spawn future is dropped at an await: the armed guard takes over. *)
(* @src crates/cordis-core/src/fiber/spawn.rs 204-230 CreationGuard::drop *)
Definition spawn_drop (pc : SpawnPc) (s : System) : option (option GuardPc * System) :=
  match pc with
  | SpAttach => Some (None, s)
  | SpClaim x | SpRecheck x => Some (Some (GuTerminal x), s)
  | SpSettling x _ | SpFailing x _ => s ← do (OpCancel x) s; Some (Some (GuTeardown x), s)
  | SpRecord _ | SpIndex _ | SpPass _ | SpDone _ _ => None
  end.

(** One step of the completion of an abandoned creation; a pass that died holding the
    slot is continued by its own teardown ([GuTeardown]). *)
(* @src crates/cordis-core/src/fiber/mod.rs 1147-1172 Fiber::creation_interrupted_teardown *)
Definition guard_step (pc : GuardPc) (s : System) : option (GuardPc * System) :=
  match pc with
  | GuTerminal x =>
      f ← fiber_at_addr s x;
      if (claim_terminal f).1 then Some (GuJoin x, s)
      else s ← do (OpMark x MkTerminal) s; Some (GuClaim x, s)
  | GuJoin x => f ← fiber_at_addr s x; if f_dispose_complete f then Some (GuDone x, s) else None
  | GuClaim x =>
      f ← fiber_at_addr s x;
      if slot_free x s then
        if f_alive f then s ← do (OpTeardown x false) s; Some (GuTeardown x, hold x s) else Some (GuDone x, s)
      else None
  | GuTeardown x =>
      if bool_decide (wd_drivers (sy_world s) !! x = None) then Some (GuDone x, unhold x s) else None
  | GuDone _ => None
  end.

(** ** Disposal *)

(** One step of the disposal of [x], with the refusal of its handle. *)
(* @src crates/cordis-core/src/fiber/mod.rs 1009-1047 Fiber::dispose *)
Definition dispose_step (refused : bool) (x : Addr) (pc : DisposePc) (s : System) : option (DisposePc * System) :=
  f ← fiber_at_addr s x;
  match pc with
  | DpStart =>
      if refused then Some (DpDone (Err tt), s)
      else if f_dispose_complete f then Some (DpDone (Ok tt), s) else Some (DpClaim, s)
  | DpClaim => if slot_free x s then Some (DpHeld, hold x s) else None
  | DpHeld =>
      if f_dispose_complete f then Some (DpDone (Ok tt), unhold x s)
      else if (claim_terminal f).1 then Some (DpWait, unhold x s)
      else s ← do (OpTeardown x false) s; Some (DpWait, unhold x s)
  | DpWait => if f_dispose_complete f then Some (DpDone (Ok tt), s) else None
  | DpDone _ => None
  end.

(** ** Readiness *)

Inductive ReadyError := ReadyRecursion | ReadyApply (failure : PluginFailure).

(** One attempt of the loop of [ready]: [None] goes on waiting.  The slot is idle and no
    recheck is outstanding ([ch_settled]) while the state is read; the [Err] of the outer
    result is the [unreachable!] on a transient state. *)
(* @src crates/cordis-core/src/fiber/mod.rs 1613-1657 FiberHandle::ready *)
Definition ready_attempt (ch : Choice) (y : Addr) (s : System) : option (result (result FiberState ReadyError) unit) :=
  f ← fiber_at_addr s y;
  if ch_refused ch y then Some (Ok (Err ReadyRecursion))
  else if slot_free y s && ch_settled ch then
    match fiber_state f with
    | Failed => match f_error f with Some failure => Some (Ok (Err (ReadyApply failure))) | None => None end
    | Active | Pending | Disposed => Some (Ok (Ok (fiber_state f)))
    | Loading | Unloading => Some (Err tt)
    end
  else None.

(** ** Replacement *)

Definition with_caller (c : CallerPc) (e : Era) : Era :=
  {| er_source := er_source e; er_change := er_change e; er_recipe := er_recipe e; er_edges := er_edges e;
     er_attempt := er_attempt e; er_caller := c; er_owner := er_owner e |}.
Definition with_owner (o : OwnerPc) (e : Era) : Era :=
  {| er_source := er_source e; er_change := er_change e; er_recipe := er_recipe e; er_edges := er_edges e;
     er_attempt := er_attempt e; er_caller := er_caller e; er_owner := o |}.
Definition with_attempt (y : option Addr) (e : Era) : Era :=
  {| er_source := er_source e; er_change := er_change e; er_recipe := er_recipe e; er_edges := er_edges e;
     er_attempt := y; er_caller := er_caller e; er_owner := er_owner e |}.
Definition committed_with (r : EraRecipe) (edges : list EdgeKey) (e : Era) : Era :=
  {| er_source := er_source e; er_change := er_change e; er_recipe := Some r; er_edges := edges;
     er_attempt := er_attempt e; er_caller := er_caller e; er_owner := er_owner e |}.

(** The query prunes the index on its way. *)
(* @src crates/cordis-core/src/fiber/era.rs 414-422 capture_dependents *)
Definition capture_dependents (edges : list EdgeKey) (skip : list Addr) (s : System) : option (list Addr * System) :=
  let captured := dependents_for_edges (so_graph (stores_of s)) edges in
  s ← do (OpQuery edges) s;
  Some (filter (λ y, y ∉ skip) captured, s).

(** The admission: everything before the wait for the slot. *)
(* @src crates/cordis-core/src/fiber/era.rs 138-155 FiberHandle::era_swap *)
Definition era_admit (refused : bool) (x : Addr) (change : PreparedChange) (f : Fiber) : result EraRecipe EraSwapError :=
  if refused then Err (EraRecursion x)
  else if negb (f_alive f) || f_disposing f then Err EraClosed
  else if negb (bool_decide (spawn_contract (f_spawn f) = Some (pc_contract change))) then Err PluginContractMismatch
  else match era_recipe (f_spawn f) with Ok r => Ok r | Err _ => Err EraClosed end.

(** The commit, under the journal lock: the edges of the source, the refusals of its
    dependents, the terminal claim.  [None]: a registration holds the lock. *)
(* @src crates/cordis-core/src/fiber/era.rs 161-201 FiberHandle::era_swap *)
Definition era_commit (ch : Choice) (r : EraRecipe) (e : Era) (s : System) : option (Era * System) :=
  let x := er_source e in
  f ← fiber_at_addr s x;
  if negb (f_alive f) then Some (with_caller (EcDone (EraErr EraClosed)) e, unhold x s)
  else if unlocked x (sy_world s) then
    let edges := slots_owned_by (stores_of s) x in
    '(dependents, s) ← capture_dependents edges [x] s;
    match list_find (λ y, ch_refused ch y = true) dependents with
    | Some (_, y) => Some (with_caller (EcDone (EraErr (EraRecursion y))) e, unhold x s)
    | None =>
        if (claim_terminal f).1 then Some (with_caller (EcDone (EraErr EraClosed)) e, unhold x s)
        else s ← do (OpTeardown x false) s;
             Some (with_owner (EoTeardown dependents) (with_caller EcAwait (committed_with r edges e)), unhold x s)
    end
  else None.

(** One step of the caller; the answer is taken from the owner's channel. *)
(* @src crates/cordis-core/src/fiber/era.rs 203-251 FiberHandle::era_swap *)
Definition caller_step (ch : Choice) (e : Era) (s : System) : option (Era * System) :=
  let x := er_source e in
  match er_caller e with
  | EcStart =>
      f ← fiber_at_addr s x;
      match era_admit (ch_refused ch x) x (er_change e) f with
      | Err error => Some (with_caller (EcDone (EraErr error)) e, s)
      | Ok r => Some (with_caller (EcClaim r) e, s)
      end
  | EcClaim r => if slot_free x s then Some (with_caller (EcHeld r) e, hold x s) else None
  | EcHeld r => era_commit ch r e s
  | EcAwait =>
      match er_owner e with
      | EoOffer r => Some (with_owner EoTaken (with_caller (EcDone r) e), s)
      | _ => None
      end
  | EcDone _ | EcGone => None
  end.

(** What becomes of an answer nobody takes: an offered successor is cleaned up, an error
    is inert, and a panic is reported. *)
(* @src crates/cordis-core/src/fiber/era.rs 101-118 EraHandoffGuard::drop *)
Definition undelivered (r : EraResult) : OwnerPc :=
  match r with EraHandle y => EoUndelivered y | EraErr _ | EraPanic => EoClosed end.

(** The caller's future is dropped at an await: before the commit nothing happened. *)
Definition caller_drop (e : Era) : option Era :=
  match er_caller e with
  | EcStart | EcClaim _ => Some (with_caller EcGone e)
  | EcAwait =>
      Some (with_caller EcGone (match er_owner e with EoOffer r => with_owner (undelivered r) e | _ => e end))
  | EcHeld _ | EcDone _ | EcGone => None
  end.

(** The owner sends its answer. *)
(* @src crates/cordis-core/src/fiber/era.rs 220-239 FiberHandle::era_swap *)
Definition offer (r : EraResult) (e : Era) : Era :=
  match er_caller e with EcAwait => with_owner (EoOffer r) e | _ => with_owner (undelivered r) e end.

(** One step of a convergence: the head's [ready], whose answer is ignored. *)
(* @src crates/cordis-core/src/fiber/era.rs 398-412 converge *)
Definition converge_step (ch : Choice) (ys : list Addr) (s : System) : option (list Addr) :=
  match ys with
  | [] => None
  | y :: ys => match ready_attempt ch y s with Some (Ok _) => Some ys | _ => None end
  end.

(** The dependents a final convergence waits for. *)
(* @src crates/cordis-core/src/fiber/era.rs 381-396 converge_final *)
Definition converge_final (edges : list EdgeKey) (source : Addr) (successor : option Addr) (s : System) : option (list Addr * System) :=
  let edges := edges ++ match successor with Some y => slots_owned_by (stores_of s) y | None => [] end in
  let skip := source :: match successor with Some y => [y] | None => [] end in
  capture_dependents edges skip s.

(** The fresh attempt of a creation that just took a step. *)
Definition attempted (sp : SpawnPc) : option Addr :=
  match sp with
  | SpAttach => None
  | SpRecord x | SpIndex x | SpClaim x | SpPass x | SpSettling x _ | SpFailing x _ | SpRecheck x => Some x
  | SpDone o _ => o
  end.

(** One step of the owner of a committed replacement.  [None] besides waiting: the panics
    on an incompatible change and on a plugin that is not typed. *)
(* @src crates/cordis-core/src/fiber/era.rs 284-369 run_committed_replacement *)
Definition owner_step (ch : Choice) (e : Era) (s : System) : option (Era * System) :=
  let x := er_source e in
  match er_owner e with
  | EoTeardown dependents =>
      f ← fiber_at_addr s x; if f_dispose_complete f then Some (with_owner (EoEntry dependents) e, s) else None
  | EoEntry [] => Some (with_owner EoInput e, s)
  | EoEntry ys => ys ← converge_step ch ys s; Some (with_owner (EoEntry ys) e, s)
  | EoInput =>
      r ← er_recipe e;
      match era_plugin_key r with
      | Anonymous _ => None
      | Typed contract =>
          seal ← sy_seals s !! era_plugin r;
          match into_successor seal (er_change e) with
          | (Err _, _) => None
          | (Ok plugin, seal) =>
              let s := put_seals (<[ era_plugin r := seal ]> (sy_seals s)) s in
              if ch_panics ch then Some (with_owner (EoFinal EraPanic) e, s)
              else Some (with_owner (EoSpawn {| pp_plugin := plugin; pp_name := era_name r; pp_inject := era_inject r;
                                                pp_contract := contract |} SpAttach) e, s)
          end
      end
  | EoSpawn _ (SpDone _ (Ok y)) => Some (with_owner (EoFinal (EraHandle y)) e, s)
  | EoSpawn _ (SpDone _ (Err error)) =>
      failure ← map_spawn_failure error; Some (with_owner (EoFinal (EraErr (Incomplete failure))) e, s)
  | EoSpawn p sp =>
      r ← er_recipe e;
      '(sp, s) ← spawn_step (era_spawning_ctx r) p false ch sp s;
      Some (with_owner (EoSpawn p sp) (with_attempt (attempted sp) e), s)
  | EoFinal r =>
      '(ys, s) ← converge_final (er_edges e) x (match r with EraHandle y => Some y | _ => None end) s; Some (with_owner (EoConverge ys r) e, s)
  | EoConverge [] r => Some (offer r e, s)
  | EoConverge ys r => ys ← converge_step ch ys s; Some (with_owner (EoConverge ys r) e, s)
  | _ => None
  end.

(** One step of the cleanup of a successor nobody took. *)
(* @src crates/cordis-core/src/fiber/era.rs 254-282 cleanup_undelivered_successor *)
Definition cleanup_step (ch : Choice) (e : Era) (s : System) : option (Era * System) :=
  match er_owner e with
  | EoUndelivered y => Some (with_owner (EoDispose y (er_edges e ++ slots_owned_by (stores_of s) y) DpStart) e, s)
  | EoDispose y edges (DpDone _) => Some (with_owner (EoCapture y edges) e, s)
  | EoDispose y edges pc => '(pc, s) ← dispose_step false y pc s; Some (with_owner (EoDispose y edges pc) e, s)
  | EoCapture y edges => '(ys, s) ← capture_dependents edges [er_source e; y] s; Some (with_owner (EoRelease y ys) e, s)
  | EoRelease y [] => Some (with_owner EoClosed e, s)
  | EoRelease y ys => ys ← converge_step ch ys s; Some (with_owner (EoRelease y ys) e, s)
  | _ => None
  end.

(** ** Restart and update *)

Definition with_ct_caller (pc : ControlPc) (c : Control) : Control :=
  {| ct_target := ct_target c; ct_kind := ct_kind c; ct_since := ct_since c; ct_caller := pc; ct_owner := ct_owner c |}.
Definition with_ct_owner (o : ControlOwner) (c : Control) : Control :=
  {| ct_target := ct_target c; ct_kind := ct_kind c; ct_since := ct_since c; ct_caller := ct_caller c; ct_owner := o |}.
Definition with_ct_kind (k : ControlKind) (c : Control) : Control :=
  {| ct_target := ct_target c; ct_kind := k; ct_since := ct_since c; ct_caller := ct_caller c; ct_owner := ct_owner c |}.
Definition with_ct_since (n : Z) (c : Control) : Control :=
  {| ct_target := ct_target c; ct_kind := ct_kind c; ct_since := n; ct_caller := ct_caller c; ct_owner := ct_owner c |}.

(** A typed policy takes the input out of the candidate and seals its own in its place. *)
(* @src crates/cordis-core/src/update.rs 242-244 reseal *)
Definition reseal (change : PreparedChange) (input : nat) : PreparedChange :=
  {| pc_contract := pc_contract change; pc_input := {| av_type := av_type (pc_input change); av_payload := input |} |}.

(** The admission of a restart, and of an update: [None] lets the operation go on. *)
(* @src crates/cordis-core/src/fiber/mod.rs 1726-1733 FiberHandle::restart *)
Definition restart_admit (refused : bool) (f : Fiber) : option RestartError :=
  if refused then Some RestartRecursion else if negb (f_alive f) then Some RestartClosed else None.

(* @src crates/cordis-core/src/fiber/mod.rs 1745-1761 FiberHandle::update *)
Definition update_admit (refused : bool) (x : Addr) (change : PreparedChange) (f : Fiber) : option UpdateError :=
  if refused then Some UpdateRecursion
  else if negb (f_alive f) then Some UpdateClosed
  else if negb (bool_decide (spawn_contract (f_spawn f) = Some (pc_contract change))) then Some UpdateContractMismatch
  else match required_context_for (f_spawn f) x with Ok _ => None | Err _ => Some UpdateClosed end.

Definition target_missing (f : Fiber) (s : System) : bool := negb (bool_decide (missing_from f (stores_of s) = [])).

(** The commit of a restart, with the slot held. *)
(* @src crates/cordis-core/src/fiber/inertia.rs 596-643 InertiaSlot::restart_pass *)
Definition restart_commit (c : Control) (s : System) : option (Control * System) :=
  let x := ct_target c in
  f ← fiber_at_addr s x;
  if negb (f_alive f) then Some (with_ct_caller (CtDone (CrRestart (Err RestartClosed))) c, unhold x s)
  else
    let missing := target_missing f s in
    s ← do (OpReplace x) s;
    Some (with_ct_owner (CoPass missing) (with_ct_caller CtAwait (with_ct_since (dl_sn (f_journal f)) c)), s).

(** The commit of an update, with the slot held; [None] is also the [expect] on a change
    the seal refuses. *)
(* @src crates/cordis-core/src/fiber/inertia.rs 676-723 InertiaSlot::update_pass *)
Definition update_commit (change : PreparedChange) (c : Control) (s : System) : option (Control * System) :=
  let x := ct_target c in
  f ← fiber_at_addr s x;
  if negb (f_alive f) then Some (with_ct_caller (CtDone (CrUpdate (Err AdmissionLost))) c, unhold x s)
  else
    s ← do (OpReplace x) s;
    match commit_change (sy_seals s) (f_spawn f) change (root_next (wd_root (sy_world s))) with
    | (Ok _, seals, _) =>
        s ← do (OpCommit x) (put_seals seals s);
        Some (with_ct_owner (CoInput (target_missing f s)) (with_ct_caller CtDropping (with_ct_since (dl_sn (f_journal f)) c)), s)
    | (Err _, _, _) => None
    end.

(** The answer of the owner, as the caller's operation gives it. *)
Definition control_answer (k : ControlKind) (r : result FiberState PluginFailure) : ControlResult :=
  match k, r with
  | Restarting, Ok _ => CrRestart (Ok tt)
  | Restarting, Err failure => CrRestart (Err (RestartApply failure))
  | Updating _, Ok state => CrUpdate (Ok (Committed state))
  | Updating _, Err failure => CrUpdate (Err (UpdateApply failure))
  end.

(** One step of the caller; after the commit the superseded input is destroyed, and its
    panic ends the call. *)
(* @src crates/cordis-core/src/fiber/mod.rs 1745-1774 FiberHandle::update *)
Definition control_step (ch : Choice) (c : Control) (s : System) : option (Control * System) :=
  let x := ct_target c in
  match ct_caller c with
  | CtStart =>
      f ← fiber_at_addr s x;
      match ct_kind c with
      | Restarting =>
          match restart_admit (ch_refused ch x) f with
          | Some e => Some (with_ct_caller (CtDone (CrRestart (Err e))) c, s)
          | None => Some (with_ct_caller CtClaim c, s)
          end
      | Updating change =>
          match update_admit (ch_refused ch x) x change f with
          | Some e => Some (with_ct_caller (CtDone (CrUpdate (Err e))) c, s)
          | None => Some (with_ct_caller CtChain c, s)
          end
      end
  | CtChain =>
      match ct_kind c, ch_chain ch with
      | Restarting, _ => None
      | Updating _, Err failure => Some (with_ct_caller (CtDone (CrUpdate (Err (UpdateControl failure)))) c, s)
      | Updating _, Ok None => Some (with_ct_caller (CtDone (CrUpdate (Ok Vetoed))) c, s)
      | Updating change, Ok (Some input) => Some (with_ct_caller CtClaim (with_ct_kind (Updating (reseal change input)) c), s)
      end
  | CtClaim => if slot_free x s then Some (with_ct_caller CtHeld c, hold x s) else None
  | CtHeld => match ct_kind c with Restarting => restart_commit c s | Updating change => update_commit change c s end
  | CtDropping => Some (with_ct_caller (if ch_panics ch then CtDone CrPanic else CtAwait) c, s)
  | CtAwait =>
      match ct_owner c with
      | CoDone r => Some (with_ct_caller (CtDone (control_answer (ct_kind c) r)) c, s)
      | _ => None
      end
  | CtDone _ | CtGone => None
  end.

(** One step of the owner: it waits for the destruction of the old input, settles, and
    settles again while the exit finds drift. *)
(* @src crates/cordis-core/src/fiber/inertia.rs 649-672 InertiaSlot::restart_committed *)
Definition control_owner_step (ch : Choice) (c : Control) (s : System) : option (Control * System) :=
  let x := ct_target c in
  match ct_owner c with
  | CoNone | CoDone _ => None
  | CoInput missing =>
      match ct_caller c with CtDropping => None | _ => Some (with_ct_owner (CoPass missing) c, s) end
  | CoPass missing => s ← do (OpSettle x missing false) s; Some (with_ct_owner (CoSettling missing) c, s)
  | CoSettling missing =>
      f ← fiber_at_addr s x;
      if bool_decide (wd_drivers (sy_world s) !! x = None) then
        if ch_drift ch then Some (with_ct_owner (CoPass (target_missing f s)) c, s)
        else Some (with_ct_owner (CoDone (match f_error f with Some failure => Err failure | None => Ok (fiber_state f) end)) c, unhold x s)
      else None
  end.

(** The caller's future is dropped at an await: before the commit nothing happened, after
    it only the wait is abandoned. *)
Definition control_drop (c : Control) : option Control :=
  match ct_caller c with
  | CtStart | CtChain | CtClaim | CtAwait => Some (with_ct_caller CtGone c)
  | CtHeld | CtDropping | CtDone _ | CtGone => None
  end.

(** ** Bulk removal *)

Definition with_rm_pc (pc : RemovalPc) (r : Removal) : Removal :=
  {| rm_key := rm_key r; rm_group := rm_group r; rm_pc := pc |}.

(** The detachment, in the first poll of the caller: a refusal or an absent group ends the
    call, a detached group is frozen. *)
(* @src crates/cordis-core/src/registry.rs 179-202 Context::remove_plugins *)
Definition removal_start (ch : Choice) (r : Removal) (s : System) : option (Removal * System) :=
  match rm_pc r with
  | RmStart =>
      '(out, _) ← detach_for_removal (ch_refused ch) (gr_registry (so_graph (stores_of s))) (rm_key r);
      match out with
      | Err x => Some (with_rm_pc (RmDone (Err x)) r, s)
      | Ok None => Some (with_rm_pc (RmDone (Ok tt)) r, s)
      | Ok (Some g) =>
          s ← do (OpDetach (ch_refused ch) (rm_key r)) s;
          Some ({| rm_key := rm_key r; rm_group := Some g; rm_pc := RmMembers (dg_fibers g) DpStart |}, s)
      end
  | _ => None
  end.

(** One step of the framework-owned work: the disposal of the next member, whose handle
    is then dropped, and at the end that of the group.  [None] besides waiting: the
    assertion that the group is empty. *)
(* @src crates/cordis-core/src/registry.rs 147-163 DetachedGroup::dispose_all *)
Definition dispose_all_step (r : Removal) (s : System) : option (Removal * System) :=
  match rm_pc r with
  | RmMembers (y :: rest) (DpDone _) => Some (with_rm_pc (RmMembers rest DpStart) r, s)
  | RmMembers (y :: rest) pc =>
      '(pc, s) ← dispose_step false y pc s; Some (with_rm_pc (RmMembers (y :: rest) pc) r, s)
  | RmMembers [] _ =>
      g ← rm_group r;
      group ← rg_groups (gr_registry (so_graph (stores_of s))) !! dg_allocation g;
      if bool_decide (pg_fibers group = []) then
        s ← do (OpFinish (dg_allocation g)) s; Some (with_rm_pc (RmDone (Ok tt)) r, s)
      else None
  | RmStart | RmDone _ => None
  end.

(** * The system *)

Inductive Event :=
| EvRuntime (op : Op)
| EvSpawn (i : nat) (ctx : Context) (plugin : Plugin) (input : nat) (over : InjectSpec)
| EvDispose (i : nat) (x : Addr)
| EvSwap (i : nat) (x : Addr) (contract : TypeId) (input : nat)
| EvRestart (i : nat) (x : Addr)
| EvUpdate (i : nat) (x : Addr) (contract : TypeId) (input : nat)
| EvRemove (i : nat) (key : PluginKey)
| EvCaller (i : nat) (ch : Choice)
| EvOwner (i : nat) (ch : Choice)
| EvDrop (i : nat).

(** The steps of the Runtime that are not those of a thread: the passes of convergence,
    the drivers of all passes, registrations, controls, the Registry, the release of
    memory. *)
Definition free_op (op : Op) (s : System) : bool :=
  match op with
  | OpSettle x _ owns => negb owns && bool_decide (x ∉ sy_holds s)
  | OpDrive _ _ | OpRunEnd _ | OpEnter _ _ | OpSection _ | OpSet _ _ | OpRemove _ | OpClaim _ | OpEffectClaim _
  | OpDrop _ | OpQuery _ => true
  | OpSpawn _ _ _ | OpRecord _ _ _ _ | OpIndex _ | OpTeardown _ _ | OpCancel _ | OpReplace _ | OpMark _ _ | OpCommit _
  | OpDetach _ _ | OpFinish _ => false
  end.

Definition new_era (x : Addr) (change : PreparedChange) : Era :=
  {| er_source := x; er_change := change; er_recipe := None; er_edges := []; er_attempt := None;
     er_caller := EcStart; er_owner := EoNone |}.

Definition new_control (x : Addr) (k : ControlKind) : Control :=
  {| ct_target := x; ct_kind := k; ct_since := 0; ct_caller := CtStart; ct_owner := CoNone |}.

Definition start (i : nat) (t : Thread) (s : System) : option System :=
  match sy_threads s !! i with Some _ => None | None => Some (put_threads (<[ i := t ]> (sy_threads s)) s) end.

(** A handle is handed out once the spawn record is installed. *)
Definition start_control (i : nat) (x : Addr) (k : ControlKind) (s : System) : option System :=
  f ← fiber_at_addr s x; if f_installed f then start i (ThControl (new_control x k)) s else None.

Definition set_thread (i : nat) (t : Thread) (s : System) : System := put_threads (<[ i := t ]> (sy_threads s)) s.

(** The step of a thread its caller polls, and of a thread the framework owns. *)
Definition caller_of (ch : Choice) (t : Thread) (s : System) : option (Thread * System) :=
  match t with
  | ThSpawn ctx p pc => '(pc, s) ← spawn_step ctx p true ch pc s; Some (ThSpawn ctx p pc, s)
  | ThGuard pc => '(pc, s) ← guard_step pc s; Some (ThGuard pc, s)
  | ThDispose x pc => '(pc, s) ← dispose_step (ch_refused ch x) x pc s; Some (ThDispose x pc, s)
  | ThEra e => '(e, s) ← caller_step ch e s; Some (ThEra e, s)
  | ThControl c => '(c, s) ← control_step ch c s; Some (ThControl c, s)
  | ThRemove r => '(r, s) ← removal_start ch r s; Some (ThRemove r, s)
  | ThGone => None
  end.

Definition owner_of (ch : Choice) (t : Thread) (s : System) : option (Thread * System) :=
  match t with
  | ThEra e => '(e, s) ← (match owner_step ch e s with Some r => Some r | None => cleanup_step ch e s end); Some (ThEra e, s)
  | ThControl c => '(c, s) ← control_owner_step ch c s; Some (ThControl c, s)
  | ThRemove r => '(r, s) ← dispose_all_step r s; Some (ThRemove r, s)
  | _ => None
  end.

(** The future of a caller is dropped.  A disposal that only waits is inert to it; between
    the claim of the slot and the start of the teardown there is no await.  A removal that
    has detached its group is framework-owned, and goes on. *)
Definition drop_of (t : Thread) (s : System) : option (Thread * System) :=
  match t with
  | ThSpawn ctx p pc =>
      '(guard, s) ← spawn_drop pc s; Some (match guard with Some g => ThGuard g | None => ThGone end, s)
  | ThDispose _ (DpStart | DpClaim | DpWait) => Some (ThGone, s)
  | ThEra e => e ← caller_drop e; Some (ThEra e, s)
  | ThControl c => c ← control_drop c; Some (ThControl c, s)
  | ThRemove {| rm_pc := RmStart |} => Some (ThGone, s)
  | ThDispose _ _ | ThGuard _ | ThRemove _ | ThGone => None
  end.

Section system.
(** The associated type [Plugin::Input] of a contract. *)
Variable input_type : TypeId → TypeId.

Definition sys_step (ev : Event) (s : System) : option System :=
  match ev with
  | EvRuntime op => if free_op op s then do op s else None
  | EvSpawn i ctx plugin input over =>
      start i (ThSpawn ctx (with_inject_overlay (plugin_from_input input_type plugin input) over) SpAttach) s
  | EvDispose i x => _ ← fiber_at_addr s x; start i (ThDispose x DpStart) s
  | EvSwap i x contract input =>
      _ ← fiber_at_addr s x; start i (ThEra (new_era x (change_from_input input_type contract input))) s
  | EvRestart i x => start_control i x Restarting s
  | EvUpdate i x contract input => start_control i x (Updating (change_from_input input_type contract input)) s
  | EvRemove i key => start i (ThRemove {| rm_key := key; rm_group := None; rm_pc := RmStart |}) s
  | EvCaller i ch => t ← sy_threads s !! i; '(t, s) ← caller_of ch t s; Some (set_thread i t s)
  | EvOwner i ch => t ← sy_threads s !! i; '(t, s) ← owner_of ch t s; Some (set_thread i t s)
  | EvDrop i => t ← sy_threads s !! i; '(t, s) ← drop_of t s; Some (set_thread i t s)
  end.

Fixpoint sys_run (evs : list Event) (s : System) : option System :=
  match evs with [] => Some s | ev :: evs => s ← sys_step ev s; sys_run evs s end.
End system.

Definition system_new (membership main : Addr) : option System :=
  w ← world_new membership main; Some {| sy_world := w; sy_holds := ∅; sy_seals := ∅; sy_threads := ∅ |}.
