(* ===== verification/HandlesProps.v ===== *)
(** What the operations of a handle (Handles.v) leave behind, whatever interleaving: a
    finished disposal, an abandoned or failed creation and a replaced source are gone with
    everything they owned, two eras of one Fiber never overlap, and the successor of a
    replacement is delivered or gone. *)
From S2P Require Import Prelude Axes BTree Lifecycle Journal EventStore Observation Plugin Fiber Registry Deps Services Generation GenerationInv GenerationOps GenerationEffect GenerationProps GenerationAge Handles.

(** * Steps of the Runtime *)

Record sys_base (s : System) : Prop := {
  sb_world : world_ok (sy_world s);
  sb_endings : endings_ok (sy_world s);
}.

Definition since (R : Addr → Prop) (s s' : System) : Prop := later R (sy_world s) (sy_world s').

Lemma do_spec op s s' :
  sys_base s → do op s = Some s' →
  sys_base s' ∧ since (records op) s s' ∧ step op (sy_world s) = Some (sy_world s') ∧ s' = put_world (sy_world s') s.
Proof.
  intros [Hw He]. unfold do. destruct (step op (sy_world s)) as [w|] eqn:Hs; [|done]. cbn [mbind option_bind]. intros [= <-].
  pose proof (step_elapses _ _ _ Hw Hs) as Hel. split_and!; [|by eapply elapses_later|done|done].
  split; [by eapply step_ok|by eapply endings_elapses].
Qed.

Lemma holds_base h s : sys_base s → sys_base (put_holds h s).
Proof. by intros []. Qed.
Lemma seals_base m s : sys_base s → sys_base (put_seals m s).
Proof. by intros []. Qed.
#[local] Hint Resolve holds_base seals_base : core.

(** * What each position of a thread promises *)

Definition allocated (w : World) (x : Addr) : Prop := x < root_next (wd_root w).

Definition spawn_ok (w : World) (pc : SpawnPc) : Prop :=
  match pc with
  | SpAttach => True
  | SpRecord x | SpIndex x | SpClaim x | SpPass x | SpSettling x _ | SpRecheck x => allocated w x
  | SpFailing x _ => lasts doomed w x
  | SpDone (Some x) (Ok y) => y = x ∧ allocated w x
  | SpDone (Some x) (Err _) => lasts completed w x
  | SpDone None r => r = Err InactiveContext
  end.

Definition guard_ok (w : World) (pc : GuardPc) : Prop :=
  match pc with
  | GuTerminal x | GuJoin x | GuClaim x => allocated w x
  | GuTeardown x => lasts doomed w x
  | GuDone x => lasts completed w x
  end.

Definition dispose_ok (w : World) (x : Addr) (pc : DisposePc) : Prop :=
  match pc with DpDone (Ok _) => lasts completed w x | _ => True end.

(** The attempt is the answer's handle, or is over. *)
Definition result_ok (w : World) (e : Era) (r : EraResult) : Prop :=
  match r with
  | EraHandle y => er_attempt e = Some y
  | EraErr _ | EraPanic => ∀ y, er_attempt e = Some y → lasts completed w y
  end.

Definition waiting (e : Era) : Prop := er_caller e = EcAwait ∨ er_caller e = EcGone.

Definition owner_ok (w : World) (e : Era) : Prop :=
  match er_owner e with
  | EoNone => er_attempt e = None ∧
      match er_caller e with EcAwait | EcDone (EraHandle _) => False | _ => True end
  | EoTeardown _ => er_attempt e = None ∧ waiting e
  | EoEntry _ | EoInput => er_attempt e = None ∧ waiting e ∧ lasts completed w (er_source e)
  | EoSpawn _ sp => er_attempt e = attempted sp ∧ spawn_ok w sp ∧ waiting e ∧ lasts completed w (er_source e)
  | EoFinal r | EoConverge _ r => result_ok w e r ∧ waiting e ∧ lasts completed w (er_source e)
  | EoOffer r => result_ok w e r ∧ er_caller e = EcAwait ∧ lasts completed w (er_source e)
  | EoTaken => ∃ r, er_caller e = EcDone r ∧ result_ok w e r ∧ lasts completed w (er_source e)
  | EoUndelivered y => er_attempt e = Some y ∧ er_caller e = EcGone ∧ lasts completed w (er_source e)
  | EoDispose y _ pc => er_attempt e = Some y ∧ er_caller e = EcGone ∧ lasts completed w (er_source e) ∧
      dispose_ok w y pc ∧ pc ≠ DpDone (Err tt)
  | EoCapture y _ | EoRelease y _ =>
      er_attempt e = Some y ∧ er_caller e = EcGone ∧ lasts completed w (er_source e) ∧ lasts completed w y
  | EoClosed => er_caller e = EcGone ∧ lasts completed w (er_source e) ∧ ∀ y, er_attempt e = Some y → lasts completed w y
  end.

(** The source was claimed. *)
Definition committed (e : Era) : Prop := er_owner e ≠ EoNone.

Definition era_ok (w : World) (e : Era) : Prop := owner_ok w e ∧ (committed e → lasts closing w (er_source e)).

(** Nothing is committed before the owner exists, and an answer of the owner is its own. *)
Definition control_ok (c : Control) : Prop :=
  match ct_caller c with
  | CtStart | CtClaim | CtHeld => ct_owner c = CoNone
  | CtChain => ct_owner c = CoNone ∧ ∃ change, ct_kind c = Updating change
  | CtDropping => ∃ missing, ct_owner c = CoInput missing
  | CtAwait | CtDone CrPanic => ct_owner c ≠ CoNone
  | CtDone (CrRestart (Err (RestartClosed | RestartRecursion)))
  | CtDone (CrUpdate (Ok Vetoed))
  | CtDone (CrUpdate (Err (UpdateContractMismatch | UpdateClosed | UpdateRecursion | UpdateControl _ | AdmissionLost))) =>
      ct_owner c = CoNone
  | CtDone r => ∃ o, ct_owner c = CoDone o ∧ r = control_answer (ct_kind c) o
  | CtGone => True
  end.

(** The members a bulk removal has passed are gone. *)
Definition removal_ok (w : World) (r : Removal) : Prop :=
  match rm_pc r with
  | RmStart | RmDone (Err _) => rm_group r = None
  | RmMembers rest pc => ∃ g finished, rm_group r = Some g ∧ dg_fibers g = finished ++ rest ∧
      (∀ y, y ∈ finished → lasts completed w y) ∧
      match rest with [] => True | y :: _ => dispose_ok w y pc ∧ pc ≠ DpDone (Err tt) end
  | RmDone (Ok _) => ∀ g y, rm_group r = Some g → y ∈ dg_fibers g → lasts completed w y
  end.

Definition thread_ok (w : World) (t : Thread) : Prop :=
  match t with
  | ThSpawn _ _ pc => spawn_ok w pc
  | ThGuard pc => guard_ok w pc
  | ThDispose x pc => dispose_ok w x pc
  | ThEra e => era_ok w e
  | ThControl c => control_ok c
  | ThRemove r => removal_ok w r
  | ThGone => True
  end.

(** ** Promises last *)

Section lasting.
Context {R : Addr → Prop} {w w' : World} (Hl : later R w w').

Lemma allocated_later x : allocated w x → allocated w' x.
Proof. unfold allocated. pose proof (lt_next _ _ _ Hl). lia. Qed.

Lemma spawn_ok_later pc : spawn_ok w pc → spawn_ok w' pc.
Proof using Hl.
  destruct pc as [|x|x|x|x|x m|x failure|x|[x|] [y|err]]; cbn; eauto using allocated_later, doomed_later, completed_later.
  intros [-> ?]. eauto using allocated_later.
Qed.

Lemma guard_ok_later pc : guard_ok w pc → guard_ok w' pc.
Proof using Hl. destruct pc; cbn; eauto using allocated_later, doomed_later, completed_later. Qed.

Lemma dispose_ok_later x pc : dispose_ok w x pc → dispose_ok w' x pc.
Proof using Hl. destruct pc as [| | | |[]]; cbn; eauto using completed_later. Qed.

Lemma result_ok_later e r : result_ok w e r → result_ok w' e r.
Proof using Hl. destruct r; cbn; eauto using completed_later. Qed.

Lemma owner_ok_later e : owner_ok w e → owner_ok w' e.
Proof using Hl.
  unfold owner_ok. destruct (er_owner e); try done; intros; destruct_and?;
    try (split_and?; eauto using spawn_ok_later, dispose_ok_later, result_ok_later, completed_later; done).
  destruct H as (r & ? & ? & ?). exists r. split_and!; eauto using result_ok_later, completed_later.
Qed.

Lemma removal_ok_later r : removal_ok w r → removal_ok w' r.
Proof using Hl.
  unfold removal_ok. destruct (rm_pc r) as [|rest pc|[[]|x]]; [done| | |done].
  - intros (g & finished & ? & ? & Hf & Hr). exists g, finished. split_and!; [done|done|by eauto using completed_later|].
    destruct rest; [done|]. destruct Hr. split; [by apply dispose_ok_later|done].
  - intros Hf g y Hg Hy. eauto using completed_later.
Qed.

Lemma thread_ok_later t : thread_ok w t → thread_ok w' t.
Proof using Hl.
  destruct t as [ctx p pc|pc|x pc|e|c|r|]; cbn; eauto using spawn_ok_later, guard_ok_later, dispose_ok_later, removal_ok_later.
  intros [H1 H2]. split; [by apply owner_ok_later|]. intros Hc. eapply closing_later; [done|auto].
Qed.
End lasting.

(** * Each step keeps the promises *)

(** [R] are the Fibers whose spawn record the step may install. *)
Record stepped (R : Addr → Prop) (s s' : System) : Prop := {
  sp_base : sys_base s';
  sp_since : since R s s';
  sp_fresh : ∀ x f, ¬ allocated (sy_world s) x → ¬ R x → fiber_at_addr s' x = Some f → f_spawn f = None;
  sp_threads : sy_threads s' = sy_threads s;
}.

#[local] Instance stepped_trans R : Transitive (stepped R).
Proof.
  intros s1 s2 s3 [_ H1 F1 T1] [B H2 F2 T2]. split; [done|by eapply later_trans| |congruence].
  intros x f Hx Hr Hf. destruct (decide (x < root_next (wd_root (sy_world s2)))) as [Hlt|Hnlt]; [|by eapply F2].
  destruct (lt_fiber _ _ _ H2 x f Hlt Hf) as (f0 & Hf0 & Ha). rewrite (ag_spawn _ _ _ _ _ _ _ Ha Hr). by eapply F1.
Qed.

Lemma stepped_same R s s' : sys_base s → sy_world s' = sy_world s → sy_threads s' = sy_threads s → stepped R s s'.
Proof.
  intros [Hok He] Hw Ht. split; [by split; rewrite Hw|unfold since; rewrite Hw; reflexivity| |done].
  intros x f Hx _. unfold fiber_at_addr. rewrite Hw. intros Hf. destruct Hx. apply (wo_heap _ Hok). by exists f.
Qed.

Lemma do_stepped R op s s' :
  sys_base s → do op s = Some s' → (∀ y, records op y → R y) →
  stepped R s s' ∧ step op (sy_world s) = Some (sy_world s').
Proof.
  intros Hb Hd Hr. destruct (do_spec _ _ _ Hb Hd) as (Hb' & Hs & Hst & Heq). split; [|done].
  pose proof (step_elapses _ _ _ (sb_world _ Hb) Hst) as Hel.
  split; [done|by eapply later_weaken| |by rewrite Heq].
  intros x f Hx Hnr Hf. destruct (el_fiber _ _ _ _ Hel x f Hf) as [[_ (_ & _ & _ & _ & ?)]|(f0 & Hf0 & _)]; [done|].
  destruct Hx. apply (wo_heap _ (sb_world _ Hb)). by exists f0.
Qed.

Lemma allocated_fiber s x f : sys_base s → fiber_at_addr s x = Some f → allocated (sy_world s) x.
Proof. intros Hb Hf. apply (wo_heap _ (sb_world _ Hb)). by exists f. Qed.

Lemma lasts_fiber P s x f : sys_base s → fiber_at_addr s x = Some f → P (sy_world s) x f → lasts P (sy_world s) x.
Proof.
  intros Hb Hf HP. split; [by eapply allocated_fiber|]. intros g Hg. unfold fiber_at_addr in Hf. congruence.
Qed.

(** A dead Fiber whose slot is free is complete, and so is a doomed one. *)
Lemma slot_free_spec x s : slot_free x s = true → wd_drivers (sy_world s) !! x = None ∧ x ∉ sy_holds s.
Proof. unfold slot_free. intros [H1%bool_decide_eq_true_1 H2%bool_decide_eq_true_1]%andb_true_iff. done. Qed.

Lemma dead_completed x f s :
  sys_base s → fiber_at_addr s x = Some f → f_alive f = false → wd_drivers (sy_world s) !! x = None →
  lasts completed (sy_world s) x.
Proof.
  intros Hb Hf Ha Hd. eapply lasts_fiber; [done..|]. eapply doomed_idle; [|done]. by eapply (eo_dead _ (sb_endings _ Hb)).
Qed.

Lemma doomed_completed x w : lasts doomed w x → wd_drivers w !! x = None → lasts completed w x.
Proof. intros [Hx Hl] Hd. split; [done|]. intros f Hf. by eapply doomed_idle; [apply Hl|]. Qed.

Lemma teardown_dooms x owns w w' :
  world_ok w → step (OpTeardown x owns) w = Some w' → lasts doomed w' x ∧ lasts closing w' x.
Proof.
  intros Hok. cbn [step]. destruct (world_fibers w !! x) as [f|] eqn:Hf; [|done]. cbn [mbind option_bind].
  destruct (_ && _); [|done]. intros [= <-]. pose proof (wo_heap _ Hok x ltac:(by exists f)) as Hx. split; (split; [exact Hx|]).
  - intros g _. eapply goto_doomed; [apply lookup_insert_eq|done].
  - intros g Hg. change (alter mark_terminal x (world_fibers w) !! x = Some g) in Hg.
    rewrite lookup_alter_eq, Hf in Hg. by injection Hg as <-.
Qed.

Lemma cancel_dooms x w w' : world_ok w → step (OpCancel x) w = Some w' → lasts doomed w' x.
Proof.
  intros Hok. cbn [step]. destruct (wd_drivers w !! x) as [d|] eqn:Hd; [|done]. cbn [mbind option_bind].
  destruct (cancellable d); [|done]. intros [= <-]. split; [by apply (wo_heap _ Hok), (wo_drivers _ Hok); exists d|].
  intros g _. eapply goto_doomed; [apply lookup_insert_eq|done].
Qed.

Lemma settle_pass_ok R x missing ch f s pc' s' :
  sys_base s → fiber_at_addr s x = Some f → after_pass x missing ch f s = Some (pc', s') →
  stepped R s s' ∧ spawn_ok (sy_world s') pc'.
Proof.
  intros Hb Hf. pose proof (allocated_fiber _ _ _ Hb Hf) as Hx. unfold after_pass.
  assert (∀ s', sy_world s' = sy_world s → sy_threads s' = sy_threads s → stepped R s s' ∧ allocated (sy_world s') x) as Hsame
    by (intros s'' Hw Ht; split; [by apply stepped_same|by rewrite Hw]).
  destruct missing; [destruct (ch_drift ch); intros [= <- <-]; by apply Hsame|].
  destruct (bool_decide _); [|destruct (ch_drift ch); intros [= <- <-]; by apply Hsame].
  destruct (do (OpMark x MkTakeError) s) as [s1|] eqn:H1; [|done]. cbn [mbind option_bind].
  destruct (do_stepped R _ _ _ Hb H1) as [Hs1 _]; [by intros ? []|]. pose proof (sp_base _ _ _ Hs1) as Hb1.
  destruct (do (OpTeardown x true) s1) as [s2|] eqn:H2; [|done]. cbn [mbind option_bind]. intros [= <- <-].
  destruct (do_stepped R _ _ _ Hb1 H2) as [Hs2 Hst]; [by intros ? []|]. split; [by etrans|].
  by eapply teardown_dooms; [apply (sb_world _ Hb1)|].
Qed.

Definition recording (pc : SpawnPc) (y : Addr) : Prop := pc = SpRecord y.

Lemma spawn_step_ok R ctx p b ch pc s pc' s' :
  (∀ y, recording pc y → R y) → sys_base s → spawn_ok (sy_world s) pc → spawn_step ctx p b ch pc s = Some (pc', s') →
  stepped R s s' ∧ spawn_ok (sy_world s') pc' ∧ (pc ≠ SpAttach → attempted pc' = attempted pc).
Proof.
  intros HR Hb Hp. destruct pc as [|x|x|x|x|x m|x failure|x|]; cbn [spawn_step] in *; try done.
  - destruct (_ && _); [intros [= <- <-]; split_and!; [by apply stepped_same|done|done]|].
    destruct (do _ s) as [s1|] eqn:H1; [|done]. cbn [mbind option_bind]. intros [= <- <-].
    destruct (do_stepped R _ _ _ Hb H1) as [Hs1 Hst]; [by intros ? []|]. split_and!; [done| |done]. cbn. unfold allocated. cbn [step] in Hst.
    revert Hst. unfold spawn_attach. destruct (_ && _); [done|]. destruct (attach_fiber _ _ _ _) as [[heap reg]|]; [|done].
    cbn [mbind option_bind]. intros [= <-]. cbn. lia.
  - destruct (do _ s) as [s1|] eqn:H1; [|done]. cbn [mbind option_bind]. intros [= <- <-].
    destruct (do_stepped R _ _ _ Hb H1 (λ y H, HR y (f_equal SpRecord H))) as [Hs1 _].
    split_and!; [|by eapply allocated_later; [apply (sp_since _ _ _ Hs1)|]|done]. etrans; [done|]. apply stepped_same; [by apply Hs1|done..].
  - destruct (do _ s) as [s1|] eqn:H1; [|done]. cbn [mbind option_bind]. intros [= <- <-].
    destruct (do_stepped R _ _ _ Hb H1) as [Hs1 _]; [by intros ? []|]. split_and!; [done|by eapply allocated_later; [apply (sp_since _ _ _ Hs1)|]|done].
  - destruct (fiber_at_addr s x) as [f|] eqn:Hf; [|done]. cbn [mbind option_bind].
    destruct (slot_free x s) eqn:Hfree; [|done]. apply slot_free_spec in Hfree as [Hd _].
    destruct (f_alive f) eqn:Ha; intros [= <- <-]; (split_and!; [by apply stepped_same| |done]); [done|by eapply dead_completed].
  - destruct (fiber_at_addr s x) as [f|] eqn:Hf; [|done]. cbn [mbind option_bind].
    destruct (do _ s) as [s1|] eqn:H1; [|done]. cbn [mbind option_bind]. intros [= <- <-].
    destruct (do_stepped R _ _ _ Hb H1) as [Hs1 _]; [by intros ? []|]. split_and!; [done|by eapply allocated_later; [apply (sp_since _ _ _ Hs1)|]|done].
  - destruct (fiber_at_addr s x) as [f|] eqn:Hf; [|done]. cbn [mbind option_bind].
    destruct (bool_decide _); [|done]. intros Hp'. destruct (settle_pass_ok R _ _ _ _ _ _ _ Hb Hf Hp') as [H1 H2].
    split_and!; [done..|]. intros _. revert Hp'. unfold after_pass. repeat case_match; try done; try by intros [= <- _].
    destruct (do _ s) as [s1|]; [|done]. cbn [mbind option_bind]. destruct (do _ s1); [|done]. by intros [= <- _].
  - destruct (bool_decide _) eqn:Hd; [|done]. apply bool_decide_eq_true_1 in Hd. intros [= <- <-].
    split_and!; [by apply stepped_same|by apply doomed_completed|done].
  - destruct (fiber_at_addr s x) as [f|] eqn:Hf; [|done]. cbn [mbind option_bind].
    destruct (slot_free x s) eqn:Hfree; [|done]. apply slot_free_spec in Hfree as [Hd _].
    destruct (f_alive f) eqn:Ha; [|intros [= <- <-]; split_and!; [by apply stepped_same|by eapply dead_completed|done]].
    destruct (do _ s) as [s1|] eqn:H1; [|done]. cbn [mbind option_bind]. intros [= <- <-].
    destruct (do_stepped R _ _ _ Hb H1) as [Hs1 _]; [by intros ? []|].
    split_and!; [done|split; [done|by eapply allocated_later; [apply (sp_since _ _ _ Hs1)|]]|done].
Qed.

Lemma spawn_drop_ok R pc s g s' :
  sys_base s → spawn_ok (sy_world s) pc → spawn_drop pc s = Some (g, s') →
  stepped R s s' ∧ match g with Some g => guard_ok (sy_world s') g | None => True end.
Proof.
  intros Hb Hp. destruct pc as [|x|x|x|x|x m|x failure|x|]; cbn [spawn_drop] in *; try done;
    try (intros [= <- <-]; split; [by apply stepped_same|done]).
  all: destruct (do _ s) as [s1|] eqn:H1; [|done]; cbn [mbind option_bind]; intros [= <- <-];
    destruct (do_stepped R _ _ _ Hb H1) as [Hs1 Hst]; [by intros ? []|]; split; [done|]; eapply cancel_dooms; [apply (sb_world _ Hb)|done].
Qed.

Lemma guard_step_ok R pc s pc' s' :
  sys_base s → guard_ok (sy_world s) pc → guard_step pc s = Some (pc', s') → stepped R s s' ∧ guard_ok (sy_world s') pc'.
Proof.
  intros Hb Hp. destruct pc as [x|x|x|x|x]; cbn [guard_step] in *; try done.
  - destruct (fiber_at_addr s x) as [f|] eqn:Hf; [|done]. cbn [mbind option_bind].
    destruct (claim_terminal f).1; [intros [= <- <-]; split; [by apply stepped_same|done]|].
    destruct (do _ s) as [s1|] eqn:H1; [|done]. cbn [mbind option_bind]. intros [= <- <-].
    destruct (do_stepped R _ _ _ Hb H1) as [Hs1 _]; [by intros ? []|]. split; [done|]. by eapply allocated_later; [apply (sp_since _ _ _ Hs1)|].
  - destruct (fiber_at_addr s x) as [f|] eqn:Hf; [|done]. cbn [mbind option_bind].
    destruct (f_dispose_complete f) eqn:Hc; [|done]. intros [= <- <-]. split; [by apply stepped_same|by eapply lasts_fiber].
  - destruct (fiber_at_addr s x) as [f|] eqn:Hf; [|done]. cbn [mbind option_bind].
    destruct (slot_free x s) eqn:Hfree; [|done]. apply slot_free_spec in Hfree as [Hd _].
    destruct (f_alive f) eqn:Ha; [|intros [= <- <-]; split; [by apply stepped_same|by eapply dead_completed]].
    destruct (do _ s) as [s1|] eqn:H1; [|done]. cbn [mbind option_bind]. intros [= <- <-].
    destruct (do_stepped R _ _ _ Hb H1) as [Hs1 Hst]; [by intros ? []|]. split; [etrans; [done|by apply stepped_same; [apply Hs1|..]]|].
    by eapply teardown_dooms; [apply (sb_world _ Hb)|].
  - destruct (bool_decide _) eqn:Hd; [|done]. apply bool_decide_eq_true_1 in Hd. intros [= <- <-].
    split; [by apply stepped_same|by apply doomed_completed].
Qed.

Lemma dispose_step_ok R refused x pc s pc' s' :
  sys_base s → dispose_step refused x pc s = Some (pc', s') →
  stepped R s s' ∧ dispose_ok (sy_world s') x pc' ∧ (refused = false → pc' ≠ DpDone (Err tt)).
Proof.
  intros Hb. unfold dispose_step. destruct (fiber_at_addr s x) as [f|] eqn:Hf; [|done]. cbn [mbind option_bind].
  assert (f_dispose_complete f = true → lasts completed (sy_world s) x) as Hc by (intros; by eapply lasts_fiber).
  destruct pc as [| | | |].
  - destruct refused; [intros [= <- <-]; split_and!; [by apply stepped_same|done|done]|].
    destruct (f_dispose_complete f); intros [= <- <-]; split_and!; try done; try by apply stepped_same. by apply Hc.
  - destruct (slot_free x s); [|done]. intros [= <- <-]. by split_and!; [apply stepped_same| |].
  - destruct (f_dispose_complete f); [intros [= <- <-]; by split_and!; [apply stepped_same|apply Hc|]|].
    destruct (claim_terminal f).1; [intros [= <- <-]; by split_and!; [apply stepped_same| |]|].
    destruct (do _ s) as [s1|] eqn:H1; [|done]. cbn [mbind option_bind]. intros [= <- <-].
    destruct (do_stepped R _ _ _ Hb H1) as [Hs1 _]; [by intros ? []|]. split_and!; [|done|done].
    etrans; [done|]. by apply stepped_same; [apply Hs1| |].
  - destruct (f_dispose_complete f); [|done]. intros [= <- <-]. by split_and!; [apply stepped_same|apply Hc|].
  - done.
Qed.

Lemma capture_stepped R edges skip s l s' :
  sys_base s → capture_dependents edges skip s = Some (l, s') → stepped R s s'.
Proof.
  intros Hb. unfold capture_dependents. destruct (do _ s) as [s1|] eqn:H1; [|done]. cbn [mbind option_bind].
  intros [= <- <-]. destruct (do_stepped R _ _ _ Hb H1) as [? _]; [by intros ? []|done].
Qed.

(** ** Replacements *)

Lemma era_commit_ok R ch r e s e' s' :
  sys_base s → owner_ok (sy_world s) e → er_owner e = EoNone → er_caller e = EcHeld r → era_commit ch r e s = Some (e', s') →
  stepped R s s' ∧ era_ok (sy_world s') e' ∧ er_source e' = er_source e ∧
  (committed e' → ∃ f, fiber_at_addr s (er_source e) = Some f ∧ f_disposing f = false).
Proof.
  intros Hb Ho Hn Hc. unfold era_commit. destruct (fiber_at_addr s (er_source e)) as [f|] eqn:Hf; [|done]. cbn [mbind option_bind].
  assert (er_attempt e = None) as Ha by (unfold owner_ok in Ho; rewrite Hn in Ho; by destruct Ho).
  assert (∀ error s1, sys_base s1 → stepped R s s1 →
    stepped R s (unhold (er_source e) s1) ∧ era_ok (sy_world s1) (with_caller (EcDone (EraErr error)) e) ∧
    er_source (with_caller (EcDone (EraErr error)) e) = er_source e ∧ ¬ committed (with_caller (EcDone (EraErr error)) e)) as Hrefuse.
  { intros error s1 Hb1 Hs1. assert (¬ committed (with_caller (EcDone (EraErr error)) e)) as Hnc by (unfold committed; cbn; intros H; by apply H).
    split; [etrans; [done|by apply stepped_same]|]. split; [split; [|done]|done]. unfold owner_ok. cbn. by rewrite Hn. }
  destruct (negb (f_alive f)).
  { intros [= <- <-]. destruct (Hrefuse EraClosed s Hb ltac:(by apply stepped_same)) as (? & ? & ? & ?). by do 3 (split; [done|]). }
  destruct (unlocked _ _); [|done]. destruct (capture_dependents _ _ s) as [[l s1]|] eqn:Hcap; [|done]. cbn [mbind option_bind].
  pose proof (capture_stepped R _ _ _ _ _ Hb Hcap) as Hs1. pose proof (sp_base _ _ _ Hs1) as Hb1.
  destruct (list_find _ _) as [[n y]|].
  { intros [= <- <-]. destruct (Hrefuse (EraRecursion y) s1 Hb1 Hs1) as (? & ? & ? & ?). by do 3 (split; [done|]). }
  destruct (claim_terminal f).1 eqn:Hd.
  { intros [= <- <-]. destruct (Hrefuse EraClosed s1 Hb1 Hs1) as (? & ? & ? & ?). by do 3 (split; [done|]). }
  destruct (do _ s1) as [s2|] eqn:H2; [|done]. cbn [mbind option_bind]. intros [= <- <-].
  destruct (do_stepped R _ _ _ Hb1 H2) as [Hs2 Hst]; [by intros ? []|]. destruct (teardown_dooms _ _ _ _ (sb_world _ Hb1) Hst) as [_ Hcl].
  split_and!; [|split; [split; [done|by left]|done]|done|].
  - etrans; [exact Hs1|]. etrans; [exact Hs2|]. by apply stepped_same; [apply Hs2| |].
  - intros _. by exists f.
Qed.

(** What a step of an era keeps: its source, and the fact that it was committed; it only
    becomes committed over a source nobody claimed. *)
Definition era_recording (e : Era) (y : Addr) : Prop := ∃ p, er_owner e = EoSpawn p (SpRecord y).

Record era_stepped (s : System) (e : Era) (s' : System) (e' : Era) : Prop := {
  es_stepped : stepped (era_recording e) s s';
  es_ok : era_ok (sy_world s') e';
  es_source : er_source e' = er_source e;
  es_committed : committed e' → committed e ∨ ∃ f, fiber_at_addr s (er_source e) = Some f ∧ f_disposing f = false;
}.

Lemma caller_step_ok ch e s e' s' :
  sys_base s → era_ok (sy_world s) e → caller_step ch e s = Some (e', s') → era_stepped s e s' e'.
Proof.
  intros Hb [Ho Hc]. pose proof Ho as Ho'. unfold owner_ok in Ho. unfold caller_step.
  destruct (er_caller e) as [|r|r| |r|] eqn:Hcl; try done.
  - destruct (fiber_at_addr s (er_source e)) as [f|] eqn:Hf; [|done]. cbn [mbind option_bind].
    destruct (era_admit _ _ _ _) as [r|error]; intros [= <- <-].
    all: split; [by apply stepped_same|split; [|exact Hc]|done|by left].
    all: unfold owner_ok in *; cbn; unfold waiting in *; destruct (er_owner e); rewrite ?Hcl in *; naive_solver.
  - destruct (slot_free _ _); [|done]. intros [= <- <-]. split; [by apply stepped_same|split; [|exact Hc]|done|by left].
    unfold owner_ok in *; cbn; unfold waiting in *; destruct (er_owner e); rewrite ?Hcl in *; naive_solver.
  - intros Hcm. assert (er_owner e = EoNone) as Hn.
    { unfold waiting in *. destruct (er_owner e); rewrite ?Hcl in *; naive_solver. }
    destruct (era_commit_ok (era_recording e) _ _ _ _ _ _ Hb Ho' Hn Hcl Hcm) as (H1 & H2 & H3 & H4). split; [done..|]. intros H. right. by apply H4.
  - destruct (er_owner e) as [| | | | | | |r| | | | | |] eqn:Hw; try done. intros [= <- <-].
    destruct Ho as (Hr & _ & Hl). split; [by apply stepped_same|split|done|].
    + unfold owner_ok. cbn. exists r. split_and!; [done|by destruct r|done].
    + intros _. apply Hc. unfold committed. by rewrite Hw.
    + intros _. left. unfold committed. by rewrite Hw.
Qed.

Lemma caller_drop_ok e e' w :
  era_ok w e → caller_drop e = Some e' → era_ok w e' ∧ er_source e' = er_source e ∧ (committed e' → committed e).
Proof.
  intros [Ho Hc]. unfold caller_drop. unfold owner_ok in Ho. unfold committed in *.
  destruct (er_caller e) as [|r|r| |r|] eqn:Hcl; try done.
  1,2: intros [= <-]; split; [|done]; split; [|exact Hc]; unfold owner_ok, waiting in *; cbn; destruct (er_owner e); rewrite ?Hcl in *; naive_solver.
  intros [= <-]. destruct (er_owner e) as [|d|d| |p sp|r|d r|r| |y|y d pc|y d|y d|] eqn:Hw.
  8: { destruct Ho as (Hr & _ & Hl). split; [|split; [by destruct r|done]]. split; [|by intros _; apply Hc].
       unfold owner_ok. cbn. destruct r; cbn in *; split_and!; done. }
  all: split; [|split; [done|by cbn; rewrite ?Hw]]; split; [|unfold committed; cbn; rewrite Hw; exact Hc];
    unfold owner_ok, waiting in *; cbn; rewrite Hw; naive_solver.
Qed.

Lemma committed_or_not e : er_owner e = EoNone ∨ committed e.
Proof. unfold committed. destruct (er_owner e); auto. Qed.

Lemma offer_ok w r e :
  result_ok w e r → waiting e → lasts completed w (er_source e) → owner_ok w (offer r e) ∧ er_source (offer r e) = er_source e ∧ committed (offer r e).
Proof.
  intros Hr Hw Hl. unfold offer. destruct Hw as [Hw|Hw]; rewrite Hw.
  - split_and!; [|done|done]. unfold owner_ok. cbn. split_and!; [by destruct r|done|done].
  - split_and!; [|done|by destruct r]. unfold owner_ok. destruct r; cbn in *; by split_and!.
Qed.

Lemma owner_step_ok ch e s e' s' :
  sys_base s → era_ok (sy_world s) e → owner_step ch e s = Some (e', s') → era_stepped s e s' e'.
Proof.
  intros Hb [Ho Hc]. unfold owner_ok in Ho. unfold owner_step, converge_final.
  destruct (committed_or_not e) as [->|Hne]; [done|]. specialize (Hc Hne).
  assert (∀ o, owner_ok (sy_world s) (with_owner o e) → o ≠ EoNone → era_stepped s e s (with_owner o e)) as Hsame.
  { intros o Ho' Hn. split; [by apply stepped_same|by split|done|by left]. }
  destruct (er_owner e) as [|d|d| |p sp|r|d r|r| |y|y d pc|y d|y d|] eqn:Hw; try done.
  - destruct Ho as [Ha Hwt]. destruct (fiber_at_addr s (er_source e)) as [f|] eqn:Hf; [|done]. cbn [mbind option_bind].
    destruct (f_dispose_complete f) eqn:Hcm; [|done]. intros [= <- <-]. apply Hsame; [|done].
    split_and!; [done..|]. by eapply lasts_fiber.
  - destruct d as [|y d]; [intros [= <- <-]; by apply Hsame|].
    destruct (converge_step ch (y :: d) s) as [ys|]; [|done]. cbn [mbind option_bind]. intros [= <- <-]. by apply Hsame.
  - destruct Ho as (Ha & Hwt & Hl). destruct (er_recipe e) as [r|]; [|done]. cbn [mbind option_bind].
    destruct (era_plugin_key r) as [c|]; [|done]. destruct (sy_seals s !! _) as [seal|]; [|done]. cbn [mbind option_bind].
    destruct (into_successor seal (er_change e)) as [[plugin|?] seal']; [|done].
    destruct (ch_panics ch); intros [= <- <-]; (split; [by apply stepped_same|split; [|by intros _]|done|by left]).
    + split_and!; [|done..]. cbn. intros y. by rewrite Ha.
    + by split_and!.
  - destruct Ho as (Ha & Hsp & Hwt & Hl).
    assert (∀ r sp' s1, spawn_step (era_spawning_ctx r) p false ch sp s = Some (sp', s1) →
      era_stepped s e s1 (with_owner (EoSpawn p sp') (with_attempt (attempted sp') e))) as Hstep.
    { intros r sp' s1 H. destruct (spawn_step_ok (era_recording e) _ _ _ _ _ _ _ _ (λ y0 Hy, ex_intro _ p (eq_trans Hw (f_equal (EoSpawn p) Hy))) Hb Hsp H) as (H1 & H2 & _).
      split; [done| |done|by left]. split; [|intros _; eapply closing_later; [apply (sp_since _ _ _ H1)|done]].
      split_and!; [done|done|done|]. eapply completed_later; [apply (sp_since _ _ _ H1)|done]. }
    destruct sp as [|x|x|x|x|x m|x failure|x|o [y|error]].
    1-8: destruct (er_recipe e) as [r|]; [|done]; cbn [mbind option_bind]; intros H;
      (destruct (spawn_step _ _ _ _ _ _) as [[sp' s1]|] eqn:Hstp in H; [|done]); cbn in H; injection H as <- <-; by apply Hstep in Hstp.
    + intros [= <- <-]. apply Hsame; [|done]. destruct o as [x|]; [|done]. destruct Hsp as [-> _]. by split_and!.
    + destruct (map_spawn_failure error) as [failure|]; [|done]. cbn [mbind option_bind]. intros [= <- <-]. apply Hsame; [|done].
      split_and!; [|done..]. intros y Hy. cbn in Hy. rewrite Ha in Hy. cbn in Hy. subst o. done.
  - destruct Ho as (Hr & Hwt & Hl). destruct (capture_dependents _ _ s) as [[ys s1]|] eqn:Hcap; [|done]. cbn [mbind option_bind].
    intros [= <- <-]. pose proof (capture_stepped (era_recording e) _ _ _ _ _ Hb Hcap) as Hs1. pose proof (sp_since _ _ _ Hs1) as Hlt.
    split; [done| |done|by left]. split; [|intros _; by eapply closing_later].
    split_and!; [by apply (result_ok_later Hlt) in Hr; destruct r|done|by eapply completed_later].
  - destruct Ho as (Hr & Hwt & Hl). destruct d as [|y d].
    + intros [= <- <-]. destruct (offer_ok _ _ _ Hr Hwt Hl) as (H1 & H2 & H3).
      split; [by apply stepped_same|split; [done|]|done|by left]. intros _. by rewrite H2.
    + destruct (converge_step ch (y :: d) s) as [ys|]; [|done]. cbn [mbind option_bind]. intros [= <- <-]. by apply Hsame.
Qed.

Lemma cleanup_step_ok ch e s e' s' :
  sys_base s → era_ok (sy_world s) e → cleanup_step ch e s = Some (e', s') → era_stepped s e s' e'.
Proof.
  intros Hb [Ho Hc]. unfold owner_ok in Ho. unfold cleanup_step.
  destruct (committed_or_not e) as [->|Hne]; [done|]. specialize (Hc Hne).
  assert (∀ o s1, stepped (era_recording e) s s1 → owner_ok (sy_world s1) (with_owner o e) → o ≠ EoNone → era_stepped s e s1 (with_owner o e)) as Hsame.
  { intros o s1 Hs Ho' Hn. split; [done| |done|by left]. split; [done|]. intros _.
    eapply closing_later; [apply (sp_since _ _ _ Hs)|done]. }
  assert (stepped (era_recording e) s s) as Hrefl by (by apply stepped_same).
  destruct (er_owner e) as [|d|d| |p sp|r|d r|r| |y|y d pc|y d|y d|] eqn:Hw; try done.
  - intros [= <- <-]. apply Hsame; [done| |done]. destruct Ho as (? & ? & ?). by split_and!.
  - destruct Ho as (Ha & Hg & Hl & Hd & Hn).
    assert (∀ pc' s1, dispose_step false y pc s = Some (pc', s1) → era_stepped s e s1 (with_owner (EoDispose y d pc') e)) as Hstep.
    { intros pc' s1 H. destruct (dispose_step_ok (era_recording e) _ _ _ _ _ _ Hb H) as (H1 & H2 & H3). apply Hsame; [done| |done].
      split_and!; [done|done| |done|by apply H3]. eapply completed_later; [apply (sp_since _ _ _ H1)|done]. }
    destruct pc as [| | | |[[]|[]]].
    1-4: intros H; (destruct (dispose_step _ _ _ _) as [[pc' s1]|] eqn:Hstp in H; [|done]); cbn in H; injection H as <- <-; by apply Hstep in Hstp.
    + intros [= <- <-]. apply Hsame; [done| |done]. by split_and!.
    + done.
  - destruct Ho as (Ha & Hg & Hl & Hd). destruct (capture_dependents _ _ s) as [[ys s1]|] eqn:Hcap; [|done]. cbn [mbind option_bind].
    intros [= <- <-]. pose proof (capture_stepped (era_recording e) _ _ _ _ _ Hb Hcap) as Hs1. pose proof (sp_since _ _ _ Hs1) as Hlt.
    apply Hsame; [done| |done]. split_and!; [done|done|by eapply completed_later..].
  - destruct Ho as (Ha & Hg & Hl & Hd). destruct d as [|y0 d].
    + intros [= <- <-]. apply Hsame; [done| |done]. split_and!; [done|done|]. intros y'. cbn. rewrite Ha. by intros [= <-].
    + destruct (converge_step ch (y0 :: d) s) as [ys|]; [|done]. cbn [mbind option_bind]. intros [= <- <-].
      apply Hsame; [done| |done]. by split_and!.
Qed.

(** ** Restarts and updates *)

Definition committing_input (c : Control) (y : Addr) : Prop :=
  y = ct_target c ∧ ct_caller c = CtHeld ∧ ∃ change, ct_kind c = Updating change.

Lemma control_commit_ok R ch c s c' s' :
  (∀ y, committing_input c y → R y) → sys_base s → ct_caller c = CtHeld → ct_owner c = CoNone → control_step ch c s = Some (c', s') →
  stepped R s s' ∧ control_ok c'.
Proof.
  intros HR Hb Hc Ho. unfold control_step. rewrite Hc. destruct (ct_kind c) as [|change] eqn:Hk.
  - unfold restart_commit. destruct (fiber_at_addr s _) as [f|]; [|done]. cbn [mbind option_bind].
    destruct (negb _); [intros [= <- <-]; split; [by apply stepped_same|by unfold control_ok]|].
    destruct (do _ s) as [s1|] eqn:H1; [|done]. cbn [mbind option_bind]. intros [= <- <-].
    destruct (do_stepped R _ _ _ Hb H1) as [Hs1 _]; [by intros ? []|]. split; [done|]. by unfold control_ok.
  - unfold update_commit. destruct (fiber_at_addr s _) as [f|]; [|done]. cbn [mbind option_bind].
    destruct (negb _); [intros [= <- <-]; split; [by apply stepped_same|by unfold control_ok]|].
    destruct (do _ s) as [s1|] eqn:H1; [|done]. cbn [mbind option_bind].
    destruct (do_stepped R _ _ _ Hb H1) as [Hs1 _]; [by intros ? []|].
    destruct (commit_change _ _ _ _) as [[[]] ]; [|done].
    match goal with |- (do _ ?s2 ≫= _ = _ → _) => assert (stepped R s1 s2) as Hs2 by (apply stepped_same; [apply Hs1|done|done]); set (s2' := s2) in * end.
    destruct (do _ s2') as [s3|] eqn:H3; [|done]. cbn [mbind option_bind]. intros [= <- <-].
    destruct (do_stepped R _ _ _ (sp_base _ _ _ Hs2) H3) as [Hs3 _]; [intros y <-; by apply HR; split_and!; [|..|exists change]|].
    split; [by etrans; [|etrans]|]. unfold control_ok. cbn. by eexists.
Qed.

Lemma control_step_ok R ch c s c' s' :
  (∀ y, committing_input c y → R y) → sys_base s → control_ok c → control_step ch c s = Some (c', s') →
  stepped R s s' ∧ control_ok c'.
Proof.
  intros HR Hb Hok. unfold control_ok in Hok. destruct (ct_caller c) eqn:Hc; [| | |by eapply control_commit_ok| | |by unfold control_step; rewrite Hc..].
  all: unfold control_step; rewrite Hc.
  - destruct (fiber_at_addr s _) as [f|]; [|done]. cbn [mbind option_bind]. destruct (ct_kind c) as [|change] eqn:Hk.
    + unfold restart_admit. repeat case_match; intros; simplify_eq; (split; [by apply stepped_same|]); by unfold control_ok.
    + unfold update_admit. repeat case_match; intros; simplify_eq; (split; [by apply stepped_same|]); unfold control_ok; cbn; eauto.
  - destruct Hok as [Ho [change Hk]]. rewrite Hk. destruct (ch_chain ch) as [[input|]|failure]; intros [= <- <-];
      (split; [by apply stepped_same|]); by unfold control_ok.
  - destruct (slot_free _ _); [|done]. intros [= <- <-]. split; [by apply stepped_same|by unfold control_ok].
  - destruct Hok as [m Ho]. intros [= <- <-]. split; [by apply stepped_same|]. unfold control_ok. cbn. destruct (ch_panics ch); by rewrite Ho.
  - destruct (ct_owner c) as [|m|m|m|o] eqn:Ho; try done. intros [= <- <-]. split; [by apply stepped_same|].
    unfold control_ok. cbn. destruct (ct_kind c), o; cbn; by eexists.
Qed.

Lemma control_owner_ok o c :
  control_ok c → o ≠ CoNone → ct_owner c ≠ CoNone → (∀ r, ct_owner c ≠ CoDone r) → ct_caller c ≠ CtDropping →
  control_ok (with_ct_owner o c).
Proof.
  unfold control_ok. cbn. intros Hok Ho Hn Hd Hc. destruct (ct_caller c) as [| | | | | |r|]; try done.
  - by destruct Hok.
  - destruct r as [[|[]]|[[]|[]]|]; try done; by destruct Hok as (? & ? & _); exfalso; eapply Hd.
Qed.

Lemma control_owner_step_ok R ch c s c' s' :
  sys_base s → control_ok c → control_owner_step ch c s = Some (c', s') → stepped R s s' ∧ control_ok c'.
Proof.
  intros Hb Hok. unfold control_owner_step. destruct (ct_owner c) as [|m|m|m|o] eqn:Ho; try done.
  all: assert (∀ o, o ≠ CoNone → ct_caller c ≠ CtDropping → control_ok (with_ct_owner o c)) as Hnext by (intros; apply control_owner_ok; congruence).
  - destruct (ct_caller c) eqn:Hc; try done; intros [= <- <-]; (split; [by apply stepped_same|]); by apply Hnext.
  - assert (ct_caller c ≠ CtDropping) as Hnd by (intros Hc; unfold control_ok in Hok; rewrite Hc in Hok; destruct Hok; congruence).
    destruct (do _ s) as [s1|] eqn:H1; [|done]. cbn [mbind option_bind]. intros [= <- <-].
    destruct (do_stepped R _ _ _ Hb H1) as [Hs1 _]; [by intros ? []|]. split; [done|]. by apply Hnext.
  - assert (ct_caller c ≠ CtDropping) as Hnd by (intros Hc; unfold control_ok in Hok; rewrite Hc in Hok; destruct Hok; congruence).
    destruct (fiber_at_addr s _) as [f|]; [|done]. cbn [mbind option_bind]. destruct (bool_decide _); [|done].
    destruct (ch_drift ch); intros [= <- <-]; (split; [by apply stepped_same|]); by apply Hnext.
Qed.

Lemma control_drop_ok c c' : control_ok c → control_drop c = Some c' → control_ok c'.
Proof. unfold control_drop. destruct (ct_caller c); try done; intros _ [= <-]; done. Qed.

(** ** Bulk removal *)

Lemma removal_start_ok R ch r s r' s' :
  sys_base s → removal_ok (sy_world s) r → removal_start ch r s = Some (r', s') → stepped R s s' ∧ removal_ok (sy_world s') r'.
Proof.
  intros Hb Hok. unfold removal_start, removal_ok in *. destruct (rm_pc r) as [|rest pc|o]; try done.
  destruct (detach_for_removal _ _ _) as [[[[g|]|x] reg]|]; [| | |done]; cbn [mbind option_bind].
  - destruct (do _ s) as [s1|] eqn:H1; [|done]. cbn [mbind option_bind]. intros [= <- <-].
    destruct (do_stepped R _ _ _ Hb H1) as [Hs1 _]; [by intros ? []|]. split; [done|]. cbn.
    exists g, []. split_and!; [done|done|by intros y ?%elem_of_nil|]. by destruct (dg_fibers g).
  - intros [= <- <-]. split; [by apply stepped_same|]. cbn. intros g y. by rewrite Hok.
  - intros [= <- <-]. split; [by apply stepped_same|done].
Qed.

Lemma dispose_all_ok R r s r' s' :
  sys_base s → removal_ok (sy_world s) r → dispose_all_step r s = Some (r', s') → stepped R s s' ∧ removal_ok (sy_world s') r'.
Proof.
  intros Hb Hok. unfold dispose_all_step, removal_ok in *. destruct (rm_pc r) as [|[|y rest] pc|o]; try done.
  - destruct Hok as (g & finished & Hg & Heq & Hf & _). rewrite Hg. cbn [mbind option_bind].
    destruct (rg_groups _ !! _) as [group|]; [|done]. cbn [mbind option_bind]. destruct (bool_decide _); [|done].
    destruct (do _ s) as [s1|] eqn:H1; [|done]. cbn [mbind option_bind]. intros [= <- <-].
    destruct (do_stepped R _ _ _ Hb H1) as [Hs1 _]; [by intros ? []|]. split; [done|]. cbn. intros g' z Hg' Hz.
    eapply completed_later; [apply (sp_since _ _ _ Hs1)|]. apply Hf. rewrite app_nil_r in Heq. congruence.
  - destruct Hok as (g & finished & Hg & Heq & Hf & Hd & Hn).
    assert (∀ pc' s1, dispose_step false y pc s = Some (pc', s1) →
      stepped R s s1 ∧ ∃ g finished, rm_group r = Some g ∧ dg_fibers g = finished ++ y :: rest ∧
        (∀ y, y ∈ finished → lasts completed (sy_world s1) y) ∧ dispose_ok (sy_world s1) y pc' ∧ pc' ≠ DpDone (Err tt)) as Hstep.
    { intros pc' s1 Hs. destruct (dispose_step_ok R _ _ _ _ _ _ Hb Hs) as (Hst & Hd' & Hn'). split; [done|].
      exists g, finished. split_and!; [done|done| |done|by apply Hn'].
      intros z Hz. eapply completed_later; [apply (sp_since _ _ _ Hst)|by apply Hf]. }
    destruct pc as [| | | |o].
    5: { intros [= <- <-]. split; [by apply stepped_same|]. cbn. exists g, (finished ++ [y]).
         split_and!; [done|by rewrite <- app_assoc| |by destruct rest].
         intros z Hz. apply elem_of_app in Hz as [Hz|Hz]; [by apply Hf|]. apply list_elem_of_singleton in Hz as ->. by destruct o as [[]|[]]. }
    all: destruct (dispose_step _ _ _ s) as [[pc' s1]|] eqn:Hs; [|done]; cbn [mbind option_bind]; intros [= <- <-]; by apply Hstep.
Qed.

(** ** Threads *)

Definition thread_recording (t : Thread) (y : Addr) : Prop :=
  match t with ThSpawn _ _ pc => recording pc y | ThEra e => era_recording e y | ThControl c => committing_input c y | _ => False end.

Record thread_stepped (s : System) (t : Thread) (s' : System) (t' : Thread) : Prop := {
  ts_stepped : stepped (thread_recording t) s s';
  ts_ok : thread_ok (sy_world s') t';
  ts_committed : ∀ e', t' = ThEra e' → committed e' →
    (∃ e, t = ThEra e ∧ committed e ∧ er_source e = er_source e') ∨
    ∃ f, fiber_at_addr s (er_source e') = Some f ∧ f_disposing f = false;
}.

Lemma era_thread_stepped s e s' e' : era_stepped s e s' e' → thread_stepped s (ThEra e) s' (ThEra e').
Proof.
  intros [H1 H2 H3 H4]. split; [done..|]. intros e'' [= <-] Hc.
  destruct (H4 Hc) as [?|(f & Hf & Hd)]; [left; by exists e|right; exists f; by rewrite H3].
Qed.

Lemma caller_of_ok ch t s t' s' :
  sys_base s → thread_ok (sy_world s) t → caller_of ch t s = Some (t', s') → thread_stepped s t s' t'.
Proof.
  intros Hb Ht. destruct t as [ctx p pc|pc|x pc|e|c|r|]; cbn [caller_of]; [| | | | | |done].
  - destruct (spawn_step _ _ _ _ _ s) as [[pc' s1]|] eqn:Hs; [|done]. cbn. intros [= <- <-].
    by destruct (spawn_step_ok (recording pc) _ _ _ _ _ _ _ _ (λ _ H, H) Hb Ht Hs) as (H1 & H2 & _).
  - destruct (guard_step _ s) as [[pc' s1]|] eqn:Hs; [|done]. cbn. intros [= <- <-].
    by destruct (guard_step_ok (λ _, False) _ _ _ _ Hb Ht Hs).
  - destruct (dispose_step _ _ _ s) as [[pc' s1]|] eqn:Hs; [|done]. cbn. intros [= <- <-].
    by destruct (dispose_step_ok (λ _, False) _ _ _ _ _ _ Hb Hs) as (H1 & H2 & _).
  - destruct (caller_step _ _ s) as [[e' s1]|] eqn:Hs; [|done]. cbn. intros [= <- <-].
    apply era_thread_stepped. by eapply caller_step_ok.
  - destruct (control_step _ _ s) as [[c' s1]|] eqn:Hs; [|done]. cbn. intros [= <- <-].
    by destruct (control_step_ok (committing_input c) _ _ _ _ _ (λ _ H, H) Hb Ht Hs).
  - destruct (removal_start _ _ s) as [[r' s1]|] eqn:Hs; [|done]. cbn. intros [= <- <-].
    by destruct (removal_start_ok (λ _, False) _ _ _ _ _ Hb Ht Hs).
Qed.

Lemma owner_of_ok ch t s t' s' :
  sys_base s → thread_ok (sy_world s) t → owner_of ch t s = Some (t', s') → thread_stepped s t s' t'.
Proof.
  intros Hb Ht. destruct t as [ctx p pc|pc|x pc|e|c|r|]; cbn [owner_of]; try done.
  - destruct (owner_step ch e s) as [[e' s1]|] eqn:Hs.
    + cbn. intros [= <- <-]. apply era_thread_stepped. by eapply owner_step_ok.
    + destruct (cleanup_step ch e s) as [[e' s1]|] eqn:Hs'; [|done]. cbn. intros [= <- <-].
      apply era_thread_stepped. by eapply cleanup_step_ok.
  - destruct (control_owner_step _ _ s) as [[c' s1]|] eqn:Hs; [|done]. cbn. intros [= <- <-].
    by destruct (control_owner_step_ok (committing_input c) _ _ _ _ _ Hb Ht Hs).
  - destruct (dispose_all_step _ s) as [[r' s1]|] eqn:Hs; [|done]. cbn. intros [= <- <-].
    by destruct (dispose_all_ok (λ _, False) _ _ _ _ Hb Ht Hs).
Qed.

Lemma drop_of_ok t s t' s' :
  sys_base s → thread_ok (sy_world s) t → drop_of t s = Some (t', s') → thread_stepped s t s' t'.
Proof.
  intros Hb Ht. destruct t as [ctx p pc|pc|x pc|e|c|r|]; cbn [drop_of]; try done.
  - destruct (spawn_drop pc s) as [[g s1]|] eqn:Hs; [|done]. cbn. intros [= <- <-].
    destruct (spawn_drop_ok (recording pc) _ _ _ _ Hb Ht Hs) as [H1 H2]. by destruct g.
  - destruct pc; try done; cbn; intros [= <- <-]; (split; [by apply stepped_same|done|done]).
  - destruct (caller_drop e) as [e'|] eqn:Hs; [|done]. cbn. intros [= <- <-].
    destruct (caller_drop_ok _ _ _ Ht Hs) as (H1 & H2 & H3). apply era_thread_stepped.
    split; [by apply stepped_same|done|done|]. intros Hc. left. by apply H3.
  - destruct (control_drop c) as [c'|] eqn:Hs; [|done]. cbn. intros [= <- <-].
    split; [by apply stepped_same|by eapply control_drop_ok|done].
  - destruct r as [key g []]; try done; cbn. intros [= <- <-]. split; [by apply stepped_same|done|done].
Qed.

(** * Reachable systems *)

Record sys_ok (s : System) : Prop := {
  so_base : sys_base s;
  so_threads : ∀ i t, sy_threads s !! i = Some t → thread_ok (sy_world s) t;
  so_single : ∀ i j e1 e2, sy_threads s !! i = Some (ThEra e1) → sy_threads s !! j = Some (ThEra e2) →
    committed e1 → committed e2 → er_source e1 = er_source e2 → i = j;
}.

Lemma system_new_ok membership main s : system_new membership main = Some s → sys_ok s.
Proof.
  unfold system_new. destruct (world_new membership main) as [w|] eqn:Hw; [|done]. cbn [mbind option_bind]. intros [= <-].
  split; [|done..]. split; [by eapply world_new_ok|].
  unfold world_new in Hw. destruct (Fiber_root main) as [f|] eqn:Hf; [|done]. cbn [mbind option_bind] in Hw. injection Hw as <-.
  assert (f_dispose_complete f = false ∧ f_alive f = true) as [Hc Ha].
  { unfold Fiber_root in Hf. by apply set_state_spec in Hf as (p & -> & _). }
  split; intros x g Hg; change (({[ main := f ]} : gmap Addr Fiber) !! x = Some g) in Hg; apply lookup_singleton_Some in Hg as [<- <-]; congruence.
Qed.

(** A step that leaves the threads alone. *)
Lemma quiet_sys_ok R s s' : sys_ok s → stepped R s s' → sys_ok s'.
Proof.
  intros [Hb Ht Hs] [Hb' Hl _ Hth]. split; [done| |by rewrite Hth].
  intros i t. rewrite Hth. intros H. by eapply thread_ok_later, Ht.
Qed.

(** The step of the thread [i]. *)
Lemma thread_sys_ok i t t' s s' :
  sys_ok s → sy_threads s !! i = Some t → thread_stepped s t s' t' → sys_ok (set_thread i t' s').
Proof.
  intros [Hb Ht Hs] Hi [Hst Hok Hera]. pose proof Hst as [Hb' Hl _ Hth]. split.
  - by destruct Hb'.
  - intros j u. cbn. rewrite Hth. intros [[<- <-]|[_ Hj]]%lookup_insert_Some; [done|]. by eapply thread_ok_later, Ht.
  - assert (∀ j e1 e2, t' = ThEra e1 → j ≠ i → sy_threads s !! j = Some (ThEra e2) →
      committed e1 → committed e2 → er_source e1 = er_source e2 → False) as Hnew.
    { intros j e1 e2 He1 Hne Hj Hc1 Hc2 Heq. destruct (Hera e1 He1 Hc1) as [(e & -> & Hc & Hsrc)|(f & Hf & Hd)].
      - apply Hne. symmetry. eapply Hs; [exact Hi|exact Hj|done|done|congruence].
      - destruct (Ht _ _ Hj) as [_ Hcl]. destruct (Hcl Hc2) as [_ Hcl']. rewrite <- Heq in Hcl'.
        specialize (Hcl' f Hf). unfold closing in Hcl'. congruence. }
    intros j k e1 e2. cbn. rewrite Hth.
    intros [[<- He1]|[Hj1 Hj]]%lookup_insert_Some [[<- He2]|[Hk1 Hk]]%lookup_insert_Some Hc1 Hc2 Heq.
    + done.
    + exfalso. by eapply (Hnew k e1 e2).
    + exfalso. by eapply (Hnew j e2 e1).
    + by eapply Hs.
Qed.

Lemma start_sys_ok i t s s' :
  sys_ok s → start i t s = Some s' → thread_ok (sy_world s) t → (∀ e, t = ThEra e → ¬ committed e) → sys_ok s'.
Proof.
  intros [Hb Ht Hs]. unfold start. destruct (sy_threads s !! i) eqn:Hi; [done|]. intros [= <-] Hok Hera.
  split; [by destruct Hb| |].
  - intros j u. cbn. intros [[<- <-]|[_ Hj]]%lookup_insert_Some; [done|]. by eapply Ht.
  - intros j k e1 e2. cbn. intros [[<- He1]|[_ Hj]]%lookup_insert_Some [[<- He2]|[_ Hk]]%lookup_insert_Some Hc1 Hc2 Heq;
      [done|by destruct (Hera _ He1)|by destruct (Hera _ He2)|]. by eapply Hs.
Qed.

Section reachable.
Variable input_type : TypeId → TypeId.

Lemma sys_step_ok ev s s' : sys_ok s → sys_step input_type ev s = Some s' → sys_ok s'.
Proof.
  intros Hok. pose proof (so_base _ Hok) as Hb. destruct ev as [op|i ctx p input over|i x|i x c input|i x|i x c input|i key|i ch|i ch|i]; cbn [sys_step].
  - destruct (free_op op s); [|done]. intros Hd. eapply (quiet_sys_ok (records op)); [done|].
    by apply (do_stepped (records op) op).
  - intros Hst. by eapply start_sys_ok.
  - destruct (fiber_at_addr s x); [|done]. cbn [mbind option_bind]. intros Hst. by eapply start_sys_ok.
  - destruct (fiber_at_addr s x); [|done]. cbn [mbind option_bind]. intros Hst. eapply start_sys_ok; [done..| |].
    + split; [done|]. by intros [].
    + intros e [= <-] Hc. by apply Hc.
  - unfold start_control. destruct (fiber_at_addr s x) as [f|]; [|done]. cbn [mbind option_bind]. destruct (f_installed f); [|done].
    intros Hst. by eapply start_sys_ok.
  - unfold start_control. destruct (fiber_at_addr s x) as [f|]; [|done]. cbn [mbind option_bind]. destruct (f_installed f); [|done].
    intros Hst. by eapply start_sys_ok.
  - intros Hst. by eapply start_sys_ok.
  - destruct (sy_threads s !! i) as [t|] eqn:Hi; [|done]. cbn [mbind option_bind].
    destruct (caller_of ch t s) as [[t' s1]|] eqn:Hs; [|done]. cbn [mbind option_bind]. intros [= <-].
    eapply thread_sys_ok; [done|exact Hi|]. eapply caller_of_ok; [done|by eapply (so_threads _ Hok)|done].
  - destruct (sy_threads s !! i) as [t|] eqn:Hi; [|done]. cbn [mbind option_bind].
    destruct (owner_of ch t s) as [[t' s1]|] eqn:Hs; [|done]. cbn [mbind option_bind]. intros [= <-].
    eapply thread_sys_ok; [done|exact Hi|]. eapply owner_of_ok; [done|by eapply (so_threads _ Hok)|done].
  - destruct (sy_threads s !! i) as [t|] eqn:Hi; [|done]. cbn [mbind option_bind].
    destruct (drop_of t s) as [[t' s1]|] eqn:Hs; [|done]. cbn [mbind option_bind]. intros [= <-].
    eapply thread_sys_ok; [done|exact Hi|]. eapply drop_of_ok; [done|by eapply (so_threads _ Hok)|done].
Qed.

Lemma sys_run_ok evs s s' : sys_ok s → sys_run input_type evs s = Some s' → sys_ok s'.
Proof.
  revert s. induction evs as [|ev evs IH]; intros s Hok; cbn [sys_run]; [by intros [= <-]|].
  destruct (sys_step input_type ev s) as [s1|] eqn:Hs; [|done]. cbn [mbind option_bind]. apply IH. by eapply sys_step_ok.
Qed.
End reachable.

(** * Nothing is left *)

(** The Registry let go of [x], it owns nothing, and if its memory is still there it is
    Disposed and dead. *)
Definition left_nothing (s : System) (x : Addr) : Prop :=
  (x ∉ snapshot_fibers (gr_registry (graph_of (sy_world s)))) ∧ owns_nothing (sy_world s) x ∧
  ∀ f, fiber_at_addr s x = Some f → fiber_state f = Disposed ∧ f_alive f = false.

Lemma completed_left s x : sys_base s → lasts completed (sy_world s) x → left_nothing s x.
Proof.
  intros [Hok He] [_ Hc]. destruct (wo_registry _ Hok) as [Hwf _].
  assert (∀ f, world_fibers (sy_world s) !! x = Some f → fiber_state f = Disposed ∧ f_residency f = None) as Hend
    by (intros f Hf; by eapply (eo_complete _ He), Hc).
  unfold left_nothing, owns_nothing. split_and!.
  - intros [c Hcl]%(rw_resident _ _ Hwf). unfold claim_of in Hcl. destruct (world_fibers (sy_world s) !! x) as [f|] eqn:Hf; [|done].
    destruct (Hend f eq_refl) as [_ Hr]. cbn in Hcl. congruence.
  - intros f Hf. destruct (Hend f Hf) as [Hst _].
    by apply (parked_quiet _ _ _ _ _ (fi_position _ _ _ _ _ _ _ _ _ _ (wo_fibers _ Hok _ _ Hf))); right; right.
  - destruct (wd_running (sy_world s) !! x) as [c|] eqn:Hrun; [|done].
    destruct (wo_running _ Hok x ltac:(by exists c)) as [f Hf]. destruct (Hend f Hf) as [Hst _].
    pose proof (fi_running _ _ _ _ _ _ _ _ _ _ (wo_fibers _ Hok _ _ Hf) ltac:(by exists c)). congruence.
  - intros k slot Hs Hx. destruct (wo_owners _ Hok _ _ Hs) as [f Hf]. rewrite Hx in Hf. destruct (Hend f Hf) as [Hst _].
    pose proof (parked_quiet _ _ _ _ _ (fi_position _ _ _ _ _ _ _ _ _ _ (wo_fibers _ Hok _ _ Hf)) ltac:(right; by right)) as Hq.
    destruct (quiet_owns_nothing _ _ _ Hok Hf Hq) as (_ & _ & Hn). by apply (Hn k slot).
  - intros f Hf. destruct (Hend f Hf) as [Hst _]. split; [done|].
    by apply (fi_dead _ _ _ _ _ _ _ _ _ _ (wo_fibers _ Hok _ _ Hf)).
Qed.

Section theorems.
Context (input_type : TypeId → TypeId) (membership main : Addr) (evs : list Event) (s0 s : System)
  (Hnew : system_new membership main = Some s0) (Hrun : sys_run input_type evs s0 = Some s).

Lemma reached : sys_ok s.
Proof using All. eapply sys_run_ok; [|done]. by eapply system_new_ok. Qed.

(** [C7] Two eras never overlap: from the moment a replacement has allocated its successor,
    the source is gone: the Registry does not list it, it is Disposed and dead, its journal
    is empty, none of its cleanups runs and it owns no Service slot, whatever else
    happened in between and whatever happens later. *)
Theorem eras_never_overlap (i : nat) (e : Era) (y : Addr) (Hi : sy_threads s !! i = Some (ThEra e)) (Hy : er_attempt e = Some y) :
  left_nothing s (er_source e).
Proof using All.
  pose proof reached as Hok. destruct (so_threads _ Hok _ _ Hi) as [Ho _]. apply completed_left; [apply Hok|].
  unfold owner_ok in Ho. destruct (er_owner e) as [|d|d| |p sp|r|d r|r| |y'|y' d pc|y' d|y' d|]; destruct_and?; try congruence; try done.
  by destruct Ho as (r & _ & _ & ?).
Qed.

(** The successor of a replacement is accounted for: once its owner has finished, a
    caller that got a handle got that of the Fiber the replacement allocated, and in every
    other case (an error, a resumed panic, a caller that went away before the commit,
    before the answer or before taking it) nothing is left of that Fiber. *)
Theorem successor_is_accounted_for (i : nat) (e : Era) (Hi : sy_threads s !! i = Some (ThEra e))
    (Hdone : er_owner e = EoNone ∨ er_owner e = EoTaken ∨ er_owner e = EoClosed) :
  match er_caller e with
  | EcDone (EraHandle y) => er_attempt e = Some y
  | _ => ∀ y, er_attempt e = Some y → left_nothing s y
  end.
Proof using All.
  pose proof reached as Hok. destruct (so_threads _ Hok _ _ Hi) as [Ho _]. unfold owner_ok in Ho.
  assert (∀ y, lasts completed (sy_world s) y → left_nothing s y) as Hl by (intros; apply completed_left; [apply Hok|done]).
  destruct Hdone as [Hd|[Hd|Hd]]; rewrite Hd in Ho.
  - destruct Ho as [Ha Hc]. destruct (er_caller e) as [| | | |[]|]; try done; intros y; by rewrite Ha.
  - destruct Ho as (r & -> & Hr & _). destruct r; [done|intros y Hy; by apply Hl, Hr..].
  - destruct Ho as (-> & _ & Hc). intros y Hy. by apply Hl, Hc.
Qed.

(** One replacement per Fiber: of two replacements of the same source, at least one
    stops before the commit and allocates nothing. *)
Theorem one_replacement_commits (i j : nat) (e1 e2 : Era) (Hi : sy_threads s !! i = Some (ThEra e1))
    (Hj : sy_threads s !! j = Some (ThEra e2)) (Hne : i ≠ j) (Hsrc : er_source e1 = er_source e2) :
  er_owner e1 = EoNone ∧ er_attempt e1 = None ∨ er_owner e2 = EoNone ∧ er_attempt e2 = None.
Proof using All.
  pose proof reached as Hok. destruct (so_threads _ Hok _ _ Hi) as [Ho1 _]. destruct (so_threads _ Hok _ _ Hj) as [Ho2 _].
  unfold owner_ok in *. destruct (committed_or_not e1) as [H1|H1]; [left; rewrite H1 in Ho1; tauto|].
  destruct (committed_or_not e2) as [H2|H2]; [right; rewrite H2 in Ho2; tauto|].
  destruct Hne. by eapply (so_single _ Hok).
Qed.


(** Disposal is a barrier: whoever asked, and however many asked at once, an
    answered disposal finds nothing left of the Fiber. *)
Theorem disposal_is_a_barrier (i : nat) (x : Addr) (Hi : sy_threads s !! i = Some (ThDispose x (DpDone (Ok tt)))) :
  left_nothing s x.
Proof using All.
  pose proof reached as Hok. apply completed_left; [apply Hok|]. exact (so_threads _ Hok _ _ Hi).
Qed.
End theorems.

(** * A creation, its replacement and the disposal of the successor *)

Definition calm_choice : Choice := {| ch_refused := λ _, false; ch_drift := false; ch_settled := true; ch_panics := false; ch_chain := Ok None |}.

Definition plugin_5 : Plugin := {| pl_contract := 5; pl_behaviour := 1; pl_name := "provider"; pl_inject := inject_none |}.

Definition callers (n i : nat) : list Event := replicate n (EvCaller i calm_choice).
Definition owners (n i : nat) : list Event := replicate n (EvOwner i calm_choice).
Definition passes (n : nat) (x : Addr) : list Event := replicate n (EvRuntime (OpDrive x ApplyDone)).

(** Thread 0 creates Fiber 1; thread 1 replaces it by Fiber 4, with another input, while
    thread 2 wants to replace it too, and thread 3 disposes of Fiber 1 at once. *)
Definition creating : list Event := EvSpawn 0 sample_ctx plugin_5 7 inject_none :: callers 5 0 ++ passes 5 1 ++ callers 2 0.
Definition committing : list Event :=
  creating ++ [EvSwap 1 1 5 8; EvSwap 2 1 5 9; EvDispose 3 1] ++ callers 1 2 ++ callers 1 3 ++ callers 3 1.
Definition allocating : list Event := committing ++ passes 7 1 ++ owners 4 1.
Definition replacing : list Event := allocating ++ owners 4 1 ++ passes 5 4 ++ owners 5 1.
Definition replaced : list Event := replacing ++ callers 1 1 ++ callers 2 2 ++ callers 2 3.

Definition blank_system : System := {| sy_world := blank; sy_holds := ∅; sy_seals := ∅; sy_threads := ∅ |}.
Definition sys_sample (evs : list Event) : System := default blank_system (s ← system_new 0 0; sys_run S evs s).
Definition era_at (s : System) (i : nat) : option Era :=
  match sy_threads s !! i with Some (ThEra e) => Some e | _ => None end.

Lemma era_at_spec s i e : era_at s i = Some e → sy_threads s !! i = Some (ThEra e).
Proof. unfold era_at. destruct (sy_threads s !! i) as [[]|]; try done. by intros [= <-]. Qed.

Lemma sys_sample_new : system_new 0 0 = Some (sys_sample []).
Proof. computed. Qed.

Example eras_never_overlap_witness :
  (e ← era_at (sys_sample allocating) 1; er_attempt e) = Some 4 ∧ left_nothing (sys_sample allocating) 1.
Proof.
  split; [computed|].
  destruct (era_at (sys_sample allocating) 1) as [e|] eqn:He; [|by vm_compute in He].
  assert (er_source <$> Some e = Some 1) as [= Hx] by (rewrite <- He; computed). rewrite <- Hx.
  apply (eras_never_overlap S 0 0 allocating (sys_sample []) (sys_sample allocating) sys_sample_new ltac:(computed) 1 e 4).
  - by apply era_at_spec.
  - change (er_attempt e) with (Some e ≫= er_attempt). rewrite <- He. computed.
Defined.

Example successor_is_accounted_for_witness :
  ∃ e, era_at (sys_sample replaced) 1 = Some e ∧ er_caller e = EcDone (EraHandle 4) ∧ er_attempt e = Some 4.
Proof.
  destruct (era_at (sys_sample replaced) 1) as [e|] eqn:He; [|by vm_compute in He].
  assert (er_caller <$> Some e = Some (EcDone (EraHandle 4))) as [= Hc] by (rewrite <- He; computed).
  assert (er_owner <$> Some e = Some EoTaken) as [= Ho] by (rewrite <- He; computed).
  exists e. split; [done|]. split; [done|].
  pose proof (successor_is_accounted_for S 0 0 replaced (sys_sample []) (sys_sample replaced) sys_sample_new ltac:(computed) 1 e
    (era_at_spec _ _ _ He)) as Hs.
  rewrite Hc in Hs. apply Hs. right. by left.
Defined.

Example one_replacement_commits_witness :
  ∃ e1 e2, era_at (sys_sample replaced) 1 = Some e1 ∧ era_at (sys_sample replaced) 2 = Some e2 ∧
    (er_owner e1 = EoNone ∧ er_attempt e1 = None ∨ er_owner e2 = EoNone ∧ er_attempt e2 = None).
Proof.
  destruct (era_at (sys_sample replaced) 1) as [e1|] eqn:H1; [|by vm_compute in H1].
  destruct (era_at (sys_sample replaced) 2) as [e2|] eqn:H2; [|by vm_compute in H2].
  assert (er_source <$> Some e1 = Some 1) as [= Hx1] by (rewrite <- H1; computed).
  assert (er_source <$> Some e2 = Some 1) as [= Hx2] by (rewrite <- H2; computed).
  exists e1, e2. split; [done|]. split; [done|].
  apply (one_replacement_commits S 0 0 replaced (sys_sample []) (sys_sample replaced) sys_sample_new ltac:(computed) 1 2);
    [by apply era_at_spec..|done|congruence].
Defined.


Example disposal_is_a_barrier_witness :
  sy_threads (sys_sample replaced) !! 3 = Some (ThDispose 1 (DpDone (Ok tt))) ∧ left_nothing (sys_sample replaced) 1.
Proof.
  split; [computed|].
  apply (disposal_is_a_barrier S 0 0 replaced (sys_sample []) (sys_sample replaced) sys_sample_new ltac:(computed) 3 1). computed.
Defined.
