(* ===== verification/HandlesSeals.v ===== *)
(** The seals of the plugins (core/plugin.rs) under the operations of a handle
    (Handles.v): a committed replacement finds a compatible seal whose behaviour it may
    move, so its owner reaches none of its panics. *)
From S2P Require Import Prelude Axes BTree Lifecycle Journal EventStore Observation Plugin Fiber Registry Deps Services Generation GenerationInv GenerationOps GenerationEffect GenerationProps GenerationAge Handles HandlesProps.

(** * The panics of an owner *)

(** The owner's next step is the [panic!] on an incompatible seal, the [unreachable!] on
    a plugin that is not typed, the one on an origin's closed generation, or the one of a
    [ready] that meets a transient state at an idle slot. *)
Definition owner_panics (ch : Choice) (e : Era) (s : System) : bool :=
  match er_owner e with
  | EoInput =>
      match er_recipe e with
      | Some r =>
          match era_plugin_key r, sy_seals s !! era_plugin r with
          | Typed _, Some seal => negb (is_ok (into_successor seal (er_change e)).1)
          | _, _ => true
          end
      | None => true
      end
  | EoSpawn _ (SpDone _ (Err error)) => match map_spawn_failure error with Some _ => false | None => true end
  | EoEntry (y :: _) | EoConverge (y :: _) _ | EoRelease _ (y :: _) =>
      match ready_attempt ch y s with Some (Err _) => true | _ => false end
  | _ => false
  end.

(** An idle slot is that of a Fiber at rest. *)
Lemma ready_reachable ch y s : sys_base s → ready_attempt ch y s ≠ Some (Err tt).
Proof.
  intros [Hok _]. unfold ready_attempt. destruct (fiber_at_addr s y) as [f|] eqn:Hf; [|done]. cbn [mbind option_bind].
  destruct (ch_refused ch y); [done|]. destruct (slot_free y s) eqn:Hfree; [|done]. cbn [andb]. destruct (ch_settled ch); [|done].
  apply slot_free_spec in Hfree as [Hd _].
  pose proof (fi_position _ _ _ _ _ _ _ _ _ _ (wo_fibers _ Hok _ _ Hf)) as Hp. rewrite Hd in Hp.
  destruct Hp as (_ & Hst & _). unfold parked in Hst. destruct (fiber_state f); try done; [naive_solver..|].
  by destruct (f_error f).
Qed.

(** * Steps that leave the seals alone *)

Lemma do_seals op s s' : do op s = Some s' → sy_seals s' = sy_seals s.
Proof. unfold do. destruct (step op _); [|done]. by intros [= <-]. Qed.

Ltac same_seals :=
  repeat match goal with
  | H : do _ _ = Some _ |- _ => apply do_seals in H
  | _ => progress simplify_option_eq
  | _ => case_match
  end; try done; cbn in *; try congruence.

Lemma spawn_step_seals ctx p b ch pc s pc' s' :
  spawn_step ctx p b ch pc s = Some (pc', s') → (∀ x, pc ≠ SpRecord x) → sy_seals s' = sy_seals s.
Proof.
  intros H Hne. destruct pc as [|x|x|x|x|x m|x failure|x|]; cbn [spawn_step] in H; [|by destruct (Hne x)|..].
  all: unfold after_pass in H; same_seals.
Qed.

Lemma spawn_drop_seals pc s g s' : spawn_drop pc s = Some (g, s') → sy_seals s' = sy_seals s.
Proof. unfold spawn_drop. intros H. same_seals. Qed.

Lemma guard_step_seals pc s pc' s' : guard_step pc s = Some (pc', s') → sy_seals s' = sy_seals s.
Proof. unfold guard_step. intros H. same_seals. Qed.

Lemma dispose_step_seals refused x pc s pc' s' : dispose_step refused x pc s = Some (pc', s') → sy_seals s' = sy_seals s.
Proof. unfold dispose_step. intros H. same_seals. Qed.

Lemma capture_seals edges skip s l s' : capture_dependents edges skip s = Some (l, s') → sy_seals s' = sy_seals s.
Proof. unfold capture_dependents. intros H. same_seals. Qed.

(** * The seals *)

(** A seal as [PreparedPlugin::from_input] makes it. *)
Definition prepared_ok (input_type : TypeId → TypeId) (p : PreparedPlugin) : Prop :=
  pp_contract p = tp_contract (pp_plugin p) ∧ tp_input_type (pp_plugin p) = input_type (tp_contract (pp_plugin p)) ∧
  is_Some (tp_state (pp_plugin p)).

(** The owner has moved the behaviour out of the seal. *)
Definition consumed (e : Era) : Prop :=
  match er_owner e with EoNone | EoTeardown _ | EoEntry _ | EoInput => False | _ => True end.

Section seals.
Variable input_type : TypeId → TypeId.

(** A recipe captured from the source, for a change of its contract. *)
Definition recipe_ok (m : gmap Addr TypedPlugin) (e : Era) (r : EraRecipe) : Prop :=
  era_plugin r = er_source e ∧ ∃ seal, m !! er_source e = Some seal ∧
    era_plugin_key r = Typed (tp_contract seal) ∧ pc_contract (er_change e) = tp_contract seal.

(** A candidate of its own input type, admitted for the contract of its target. *)
Definition change_ok (m : gmap Addr TypedPlugin) (c : Control) (change : PreparedChange) : Prop :=
  av_type (pc_input change) = input_type (pc_contract change) ∧
  (ct_caller c = CtChain ∨ ct_caller c = CtClaim ∨ ct_caller c = CtHeld →
   ∃ seal, m !! ct_target c = Some seal ∧ pc_contract change = tp_contract seal).

Definition sealed (m : gmap Addr TypedPlugin) (t : Thread) : Prop :=
  match t with
  | ThSpawn _ p _ => prepared_ok input_type p
  | ThEra e =>
      av_type (pc_input (er_change e)) = input_type (pc_contract (er_change e)) ∧
      (∀ r, er_caller e = EcClaim r ∨ er_caller e = EcHeld r ∨ er_recipe e = Some r → recipe_ok m e r) ∧
      (committed e → is_Some (er_recipe e)) ∧
      (∀ p sp, er_owner e = EoSpawn p sp → prepared_ok input_type p ∧ ∀ o, sp ≠ SpDone o (Err InactiveContext))
  | ThControl c => ∀ change, ct_kind c = Updating change → change_ok m c change
  | _ => True
  end.

Record seals_ok (s : System) : Prop := {
  se_fiber : ∀ x f st, fiber_at_addr s x = Some f → f_spawn f = Some st →
    ∃ seal, sy_seals s !! x = Some seal ∧ st_plugin st = x ∧ st_plugin_key st = Typed (tp_contract seal);
  se_seal : ∀ x seal, sy_seals s !! x = Some seal → allocated (sy_world s) x ∧
    ∀ f, fiber_at_addr s x = Some f → is_Some (f_spawn f);
  se_type : ∀ x seal, sy_seals s !! x = Some seal → tp_input_type seal = input_type (tp_contract seal);
  se_moved : ∀ x seal, sy_seals s !! x = Some seal → tp_state seal = None →
    ∃ i e, sy_threads s !! i = Some (ThEra e) ∧ er_source e = x ∧ consumed e;
  se_threads : ∀ i t, sy_threads s !! i = Some t → sealed (sy_seals s) t;
}.

(** Two seals of one plugin. *)
Definition same_kind (p q : TypedPlugin) : Prop := tp_contract q = tp_contract p ∧ tp_input_type q = tp_input_type p.

(** The seals change in place. *)
Definition seals_same (m m' : gmap Addr TypedPlugin) : Prop := ∀ x, option_Forall2 same_kind (m !! x) (m' !! x).

Lemma seals_same_refl m : seals_same m m.
Proof. intros x. by destruct (m !! x); constructor. Qed.

Lemma seals_same_insert m x p q : m !! x = Some p → same_kind p q → seals_same m (<[ x := q ]> m).
Proof.
  intros Hp Hk y. destruct (decide (y = x)) as [->|Hne]; [rewrite Hp, lookup_insert_eq; by constructor|].
  rewrite lookup_insert_ne by done. by destruct (m !! y); constructor.
Qed.

Lemma seals_same_lookup m m' x p : seals_same m m' → m !! x = Some p → ∃ q, m' !! x = Some q ∧ same_kind p q.
Proof. intros Hs Hp. specialize (Hs x). rewrite Hp in Hs. inversion Hs; subst. by eexists. Qed.

Lemma seals_same_lookup_r m m' x q : seals_same m m' → m' !! x = Some q → ∃ p, m !! x = Some p ∧ same_kind p q.
Proof. intros Hs Hp. specialize (Hs x). rewrite Hp in Hs. inversion Hs; subst. by eexists. Qed.

(** Seals that grow keep what threads know of them. *)
Definition seals_grow (m m' : gmap Addr TypedPlugin) : Prop := ∀ x p, m !! x = Some p → ∃ q, m' !! x = Some q ∧ same_kind p q.

Lemma recipe_ok_grow m m' e r : seals_grow m m' → recipe_ok m e r → recipe_ok m' e r.
Proof.
  intros Hg [H1 (seal & Hs & Hk & Hc)]. split; [done|]. destruct (Hg _ _ Hs) as (q & Hq & [Hqc _]).
  exists q. by rewrite Hqc.
Qed.

Lemma sealed_grow m m' t : seals_grow m m' → sealed m t → sealed m' t.
Proof.
  intros Hg. destruct t as [| | |e|c|r|]; cbn; try done.
  - intros (H1 & H2 & H3). split; [done|]. split; [|done]. intros r Hr. by eapply recipe_ok_grow, H2.
  - intros Hc change Hk. destruct (Hc change Hk) as [H1 H2]. split; [done|]. intros Hp.
    destruct (H2 Hp) as (seal & Hs & Ht). destruct (Hg _ _ Hs) as (q & Hq & [Hqc _]). exists q. by rewrite Hqc.
Qed.

(** A step of the Runtime that installs no spawn record, over seals that change in place. *)
Lemma seals_step R s s' :
  seals_ok s → sys_base s → stepped R s s' → (∀ y, ¬ R y) → seals_same (sy_seals s) (sy_seals s') →
  (∀ x f st, fiber_at_addr s' x = Some f → f_spawn f = Some st →
     ∃ seal, sy_seals s' !! x = Some seal ∧ st_plugin st = x ∧ st_plugin_key st = Typed (tp_contract seal)) ∧
  (∀ x seal, sy_seals s' !! x = Some seal → allocated (sy_world s') x ∧
     ∀ f, fiber_at_addr s' x = Some f → is_Some (f_spawn f)) ∧
  (∀ x seal, sy_seals s' !! x = Some seal → tp_input_type seal = input_type (tp_contract seal)).
Proof.
  intros Hok Hb [Hb' Hl Hfr _] HR Hsame.
  assert (∀ x f, fiber_at_addr s' x = Some f → allocated (sy_world s) x →
    ∃ f0, fiber_at_addr s x = Some f0 ∧ f_spawn f = f_spawn f0) as Hold.
  { intros x f Hf Hx. destruct (lt_fiber _ _ _ Hl x f Hx Hf) as (f0 & Hf0 & Ha). exists f0. split; [done|]. by apply Ha. }
  split_and!.
  - intros x f st Hf Hst. destruct (decide (x < root_next (wd_root (sy_world s)))) as [Hx|Hx].
    2: { rewrite (Hfr x f Hx (HR x) Hf) in Hst. done. }
    destruct (Hold x f Hf Hx) as (f0 & Hf0 & Heq). rewrite Heq in Hst.
    destruct (se_fiber _ Hok x f0 st Hf0 Hst) as (seal & Hs & Hp & Hk).
    destruct (seals_same_lookup _ _ _ _ Hsame Hs) as (q & Hq & [Hc _]). exists q. by rewrite Hc.
  - intros x seal Hs. destruct (seals_same_lookup_r _ _ _ _ Hsame Hs) as (p & Hp & _).
    destruct (se_seal _ Hok x p Hp) as [Hx Hf]. split; [by eapply allocated_later|].
    intros f Hf'. destruct (Hold x f Hf' Hx) as (f0 & Hf0 & ->). by apply Hf.
  - intros x seal Hs. destruct (seals_same_lookup_r _ _ _ _ Hsame Hs) as (p & Hp & [Hc Ht]).
    rewrite Hc, Ht. by eapply se_type.
Qed.

(** The three first clauses. *)
Definition seals_core (s : System) : Prop :=
  (∀ x f st, fiber_at_addr s x = Some f → f_spawn f = Some st →
     ∃ seal, sy_seals s !! x = Some seal ∧ st_plugin st = x ∧ st_plugin_key st = Typed (tp_contract seal)) ∧
  (∀ x seal, sy_seals s !! x = Some seal → allocated (sy_world s) x ∧
     ∀ f, fiber_at_addr s x = Some f → is_Some (f_spawn f)) ∧
  (∀ x seal, sy_seals s !! x = Some seal → tp_input_type seal = input_type (tp_contract seal)).

(** The installation of a spawn record, with its seal. *)
Lemma record_step x ctx p s s1 :
  seals_ok s → sys_base s → prepared_ok input_type p → do (OpRecord x ctx p x) s = Some s1 →
  let s' := put_seals (<[ x := pp_plugin p ]> (sy_seals s)) s1 in
  seals_core s' ∧ sy_seals s !! x = None.
Proof.
  intros Hok Hb (Hc & Ht & _) Hdo. pose proof (do_seals _ _ _ Hdo) as Hseals. revert Hdo. unfold do. cbn [step].
  destruct (decide (x = _)); [done|]. unfold spawn_record.
  destruct (root_heap (wd_root (sy_world s)) !! x) as [f|] eqn:Hf; [|done]. cbn [mbind option_bind fresh_occurrence].
  set (incoming := {| st_plugin := x |}). destruct (spawn_install _ _) as [[|] sp] eqn:Hin; [|done].
  destruct (f_spawn f) as [|] eqn:Hsp; [done|]. cbn in Hin. injection Hin as _ <-.
  cbn [mbind option_bind]. intros [= <-].
  assert (sy_seals s !! x = None) as Hnone.
  { destruct (sy_seals s !! x) as [seal|] eqn:Hs; [|done]. destruct (se_seal _ Hok x seal Hs) as [_ Hi].
    destruct (Hi f Hf) as [st Hst]. congruence. }
  split; [|done]. set (s' := put_seals _ _).
  assert (∀ y, fiber_at_addr s' y = alter (set_f_spawn (Some incoming)) x (world_fibers (sy_world s)) !! y) as Hh by done.
  split_and!.
  - intros y g st. rewrite Hh. destruct (decide (y = x)) as [->|Hne].
    + rewrite lookup_alter_eq. change (root_heap (wd_root (sy_world s))) with (world_fibers (sy_world s)) in Hf. rewrite Hf.
      cbn. intros [= <-] [= <-]. exists (pp_plugin p). rewrite lookup_insert_eq. cbn. by rewrite Hc.
    + rewrite lookup_alter_ne by done. intros Hg Hst. destruct (se_fiber _ Hok y g st Hg Hst) as (seal & Hs & ?).
      exists seal. cbn. by rewrite lookup_insert_ne.
  - intros y seal. cbn. intros [[<- <-]|[Hne Hs]]%lookup_insert_Some.
    + split; [|intros g; rewrite Hh, lookup_alter_eq;
               change (root_heap (wd_root (sy_world s))) with (world_fibers (sy_world s)) in Hf; rewrite Hf; by intros [= <-]].
      pose proof (wo_heap _ (sb_world _ Hb) x ltac:(by exists f)). unfold allocated. cbn. lia.
    + destruct (se_seal _ Hok y seal Hs) as [Hx Hg]. split; [unfold allocated in *; cbn; lia|].
      intros g. rewrite Hh, lookup_alter_ne by done. apply Hg.
  - intros y seal. cbn. intros [[<- <-]|[Hne Hs]]%lookup_insert_Some; [done|by eapply se_type].
Qed.

Lemma seals_thread i t t' s s' :
  seals_ok s → sy_threads s !! i = Some t → sy_threads s' = sy_threads s → seals_core s' →
  seals_grow (sy_seals s) (sy_seals s') → sealed (sy_seals s') t' →
  (∀ x seal, sy_seals s' !! x = Some seal → tp_state seal = None →
     (∃ p, sy_seals s !! x = Some p ∧ tp_state p = None) ∨ ∃ e', t' = ThEra e' ∧ er_source e' = x ∧ consumed e') →
  (∀ e, t = ThEra e → consumed e → ∃ e', t' = ThEra e' ∧ er_source e' = er_source e ∧ consumed e') →
  seals_ok (set_thread i t' s').
Proof.
  intros Hok Hi Hth (H1 & H2 & H3) Hg Hsl Hmv Hcs. split; try done.
  - intros x seal Hs Hn. destruct (Hmv x seal Hs Hn) as [(p & Hp & Hpn)|(e' & -> & Hx & Hc)].
    + destruct (se_moved _ Hok x p Hp Hpn) as (j & e & Hj & Hx & Hc). destruct (decide (j = i)) as [->|Hne].
      * assert (t = ThEra e) as -> by congruence. destruct (Hcs e eq_refl Hc) as (e' & -> & Hx' & Hc').
        exists i, e'. cbn. rewrite lookup_insert_eq. split_and!; [done|congruence|done].
      * exists j, e. cbn. by rewrite lookup_insert_ne, Hth.
    + exists i, e'. cbn. by rewrite lookup_insert_eq.
  - intros j u. cbn. rewrite Hth. intros [[<- <-]|[_ Hj]]%lookup_insert_Some; [done|].
    eapply sealed_grow; [exact Hg|]. by eapply se_threads.
Qed.

(** A thread step over seals it leaves alone. *)
Lemma seals_thread_same R i t t' s s' :
  seals_ok s → sys_base s → sy_threads s !! i = Some t → stepped R s s' → (∀ y, ¬ R y) →
  sy_seals s' = sy_seals s → sealed (sy_seals s) t' →
  (∀ e, t = ThEra e → consumed e → ∃ e', t' = ThEra e' ∧ er_source e' = er_source e ∧ consumed e') →
  seals_ok (set_thread i t' s').
Proof.
  intros Hok Hb Hi Hst HR Hs Hsl Hcs.
  assert (seals_same (sy_seals s) (sy_seals s')) as Hsame by (rewrite Hs; apply seals_same_refl).
  apply (seals_thread i t t' s s'); [done|done| | | | | |done].
  - apply Hst.
  - by eapply seals_step.
  - intros x p Hp. by eapply seals_same_lookup.
  - by rewrite Hs.
  - intros x seal. rewrite Hs. intros Hx Hn. left. by exists seal.
Qed.

(** ** Threads *)

Lemma admitted_recipe refused e f s r :
  seals_ok s → fiber_at_addr s (er_source e) = Some f → era_admit refused (er_source e) (er_change e) f = Ok r →
  recipe_ok (sy_seals s) e r.
Proof.
  intros Hok Hf. unfold era_admit. destruct refused; [done|]. destruct (_ || _); [done|].
  destruct (bool_decide _) eqn:Hc; [|done]. apply bool_decide_eq_true_1 in Hc. cbn [negb].
  destruct (f_spawn f) as [st|] eqn:Hst; [|done]. cbn. intros [= <-].
  destruct (se_fiber _ Hok _ _ _ Hf Hst) as (seal & Hs & Hp & Hk). split; [done|]. exists seal. split; [done|]. cbn. split; [done|].
  cbn in Hc. rewrite Hk in Hc. congruence.
Qed.

(** What the step of an era keeps of its seals: they change in place, and only by the
    move of the behaviour. *)
Record era_sealed (s : System) (e : Era) (s' : System) (e' : Era) : Prop := {
  ed_source : er_source e' = er_source e;
  ed_sealed : sealed (sy_seals s) (ThEra e');
  ed_consumed : consumed e → consumed e';
}.

Lemma caller_step_sealed ch e s e' s' :
  seals_ok s → owner_ok (sy_world s) e → sealed (sy_seals s) (ThEra e) → caller_step ch e s = Some (e', s') →
  era_sealed s e s' e' ∧ sy_seals s' = sy_seals s.
Proof.
  intros Hok Ho (H1 & H2 & H3 & H4). unfold caller_step. destruct (er_caller e) as [|r|r| |r|] eqn:Hcl; try done.
  - destruct (fiber_at_addr s (er_source e)) as [f|] eqn:Hf; [|done]. cbn [mbind option_bind].
    destruct (era_admit _ _ _ _) as [r|error] eqn:Ha; intros [= <- <-]; (split; [|done]); (split; [done| |done]);
      (split; [done|]); (split; [|done]); intros r'; cbn.
    + intros [[= <-]|[?|Hr]]; [by eapply admitted_recipe|done|apply H2; auto].
    + intros [?|[?|Hr]]; [done|done|apply H2; auto].
  - destruct (slot_free _ _); [|done]. intros [= <- <-]. split; [|done]. split; [done| |done].
    split; [done|]. split; [|done]. intros r'. cbn. intros [?|[[= <-]|Hr]]; [done|apply H2; auto|apply H2; auto].
  - unfold era_commit. destruct (fiber_at_addr s (er_source e)) as [f|] eqn:Hf; [|done]. cbn [mbind option_bind].
    assert (∀ error s1, sy_seals s1 = sy_seals s →
      era_sealed s e (unhold (er_source e) s1) (with_caller (EcDone (EraErr error)) e) ∧ sy_seals (unhold (er_source e) s1) = sy_seals s) as Hrefuse.
    { intros error s1 Hs. split; [|done]. split; [done| |done]. split; [done|]. split; [|done].
      intros r'. cbn. intros [?|[?|Hr]]; [done|done|apply H2; auto]. }
    destruct (negb (f_alive f)); [intros [= <- <-]; by apply Hrefuse|]. destruct (unlocked _ _); [|done].
    destruct (capture_dependents _ _ s) as [[l s1]|] eqn:Hcap; [|done]. cbn [mbind option_bind].
    apply capture_seals in Hcap. destruct (list_find _ _) as [[n y]|]; [intros [= <- <-]; by apply Hrefuse|].
    destruct (claim_terminal f).1; [intros [= <- <-]; by apply Hrefuse|].
    destruct (do _ s1) as [s2|] eqn:Hdo; [|done]. cbn [mbind option_bind]. apply do_seals in Hdo. intros [= <- <-].
    split; [|cbn; congruence]. split; [done| |].
    + split; [done|]. split; [|split; [by eexists|done]]. intros r'. cbn.
      intros [?|[?|[= <-]]]; [done|done|]. apply H2. auto.
    + unfold owner_ok, waiting in Ho. unfold consumed. rewrite Hcl in Ho. destruct (er_owner e); naive_solver.
  - destruct (er_owner e) as [| | | | | | |r| | | | | |] eqn:Hw; try done. intros [= <- <-]. split; [|done].
    split; [done| |done]. split; [done|]. split; [|split; [|done]].
    + intros r'. cbn. intros [?|[?|Hr]]; [done|done|apply H2; auto].
    + intros _. apply H3. unfold committed. by rewrite Hw.
Qed.

Lemma caller_drop_sealed e e' s :
  sealed (sy_seals s) (ThEra e) → caller_drop e = Some e' → era_sealed s e s e'.
Proof.
  intros (H1 & H2 & H3 & H4). unfold caller_drop.
  assert (∀ o, (∀ p sp, o = EoSpawn p sp → er_owner e = EoSpawn p sp) → (o ≠ EoNone → committed e) →
    (consumed e → consumed (with_owner o e)) → era_sealed s e s (with_caller EcGone (with_owner o e))) as Hgone.
  { intros o Hp Hn Hc. split; [done| |done]. split; [done|]. split; [|split].
    - intros r. cbn. intros [?|[?|Hr]]; [done|done|apply H2; auto].
    - cbn. intros Hc'. by apply H3, Hn.
    - intros p sp Ho. by apply H4, Hp. }
  assert (era_sealed s e s (with_caller EcGone e)) as Hsame.
  { split; [done| |done]. split; [done|]. split; [|done]. intros r. cbn. intros [?|[?|Hr]]; [done|done|apply H2; auto]. }
  destruct (er_caller e) as [|r|r| |r|] eqn:Hcl; try done; try (by intros [= <-]).
  intros [= <-]. destruct (er_owner e) as [|d|d| |p sp|r|d r|r| |y|y d pc|y d|y d|] eqn:Hw; try done.
  apply Hgone; [by destruct r|by intros _; unfold committed; rewrite Hw|by destruct r].
Qed.

Lemma owner_step_sealed ch e s e' s' :
  seals_ok s → sealed (sy_seals s) (ThEra e) → owner_step ch e s = Some (e', s') →
  (∀ y, ¬ era_recording e y) →
  era_sealed s e s' e' ∧
  (sy_seals s' = sy_seals s ∨
   ∃ x p q, sy_seals s' = <[ x := q ]> (sy_seals s) ∧ sy_seals s !! x = Some p ∧ same_kind p q ∧
     x = er_source e ∧ consumed e').
Proof.
  intros Hok (H1 & H2 & H3 & H4) Hst HR. revert Hst. unfold owner_step, converge_final.
  destruct (committed_or_not e) as [->|Hne]; [done|].
  assert (∀ o, (∀ p sp, o = EoSpawn p sp → prepared_ok input_type p ∧ ∀ o, sp ≠ SpDone o (Err InactiveContext)) → (consumed e → consumed (with_owner o e)) →
    ∀ s', era_sealed s e s' (with_owner o e)) as Hsame.
  { intros o Hp Hc s1. split; [done| |done]. split; [done|]. split; [exact H2|]. split; [by intros _; apply H3|exact Hp]. }
  destruct (er_owner e) as [|d|d| |p sp|r|d r|r| |y|y d pc|y d|y d|] eqn:Hw; try done.
  - destruct (fiber_at_addr s (er_source e)) as [f|] eqn:Hf; [|done]. cbn [mbind option_bind].
    destruct (f_dispose_complete f) eqn:Hcm; [|done]. intros [= <- <-]. split; [apply Hsame; [done|by unfold consumed; rewrite Hw]|by left].
  - destruct d as [|y d]; [intros [= <- <-]; split; [apply Hsame; [done|by unfold consumed; rewrite Hw]|by left]|].
    destruct (converge_step ch (y :: d) s) as [ys|]; [|done]. cbn [mbind option_bind]. intros [= <- <-].
    split; [apply Hsame; [done|by unfold consumed; rewrite Hw]|by left].
  - destruct (er_recipe e) as [r|] eqn:Hr; [|done]. cbn [mbind option_bind].
    destruct (H2 r ltac:(auto)) as [Hpl (seal & Hs & Hk & Hc)]. rewrite Hk, Hpl, Hs. cbn [mbind option_bind].
    destruct (into_successor seal (er_change e)) as [[plugin|?] seal'] eqn:Hin; [|done].
    assert (same_kind seal seal' ∧ tp_contract plugin = tp_contract seal ∧ tp_input_type plugin = tp_input_type seal ∧ is_Some (tp_state plugin))
      as (Hsk & Hpc & Hpt & Hps).
    { revert Hin. unfold into_successor. destruct (negb _); [done|]. destruct (negb _); [done|]. destruct (tp_state seal) as [[b c]|]; [|done].
      intros [= <- <-]. by split_and!. }
    assert (prepared_ok input_type {| pp_plugin := plugin; pp_name := era_name r; pp_inject := era_inject r; pp_contract := tp_contract seal |}) as Hprep.
    { split_and!; cbn; [done|rewrite Hpt, Hpc; by eapply se_type|done]. }
    destruct (ch_panics ch); intros [= <- <-]; (split; [apply Hsame; [|done]|right; exists (er_source e), seal, seal'; by split_and!]).
    + done.
    + by intros p sp [= <- <-].
  - destruct (H4 p sp eq_refl) as [Hp Hnd].
    assert (∀ r sp' s1, spawn_step (era_spawning_ctx r) p false ch sp s = Some (sp', s1) →
      era_sealed s e s1 (with_owner (EoSpawn p sp') (with_attempt (attempted sp') e)) ∧ sy_seals s1 = sy_seals s) as Hstep.
    { intros r sp' s1 H. split.
      - split; [done| |done]. split; [done|]. split; [exact H2|]. split; [by intros _; apply H3|].
        intros p' sp0 [= <- <-]. split; [done|]. intros r' ->.
        destruct sp as [|x|x|x|x|x m|x failure|x|]; cbn [spawn_step] in H; unfold after_pass in H; same_seals.
      - eapply spawn_step_seals; [done|]. intros x ->. apply (HR x). by exists p. }
    destruct sp as [|x|x|x|x|x m|x failure|x|o [y|error]].
    1-8: destruct (er_recipe e) as [r|]; [|done]; cbn [mbind option_bind]; intros H;
      (destruct (spawn_step _ _ _ _ _ _) as [[sp' s1]|] eqn:Hstp in H; [|done]); cbn in H; injection H as <- <-;
      apply Hstep in Hstp as [? ?]; split; [done|by left].
    + intros [= <- <-]. split; [by apply Hsame|by left].
    + destruct (map_spawn_failure error) as [failure|]; [|done]. cbn [mbind option_bind]. intros [= <- <-].
      split; [by apply Hsame|by left].
  - destruct (capture_dependents _ _ s) as [[ys s1]|] eqn:Hcap; [|done]. cbn [mbind option_bind]. apply capture_seals in Hcap.
    intros [= <- <-]. split; [by apply Hsame|by left].
  - destruct d as [|y d].
    + intros [= <- <-]. split; [|by left]. unfold offer. destruct (er_caller e); (apply Hsame; [by destruct r|by destruct r]).
    + destruct (converge_step ch (y :: d) s) as [ys|]; [|done]. cbn [mbind option_bind]. intros [= <- <-].
      split; [by apply Hsame|by left].
Qed.

Lemma cleanup_step_sealed ch e s e' s' :
  sealed (sy_seals s) (ThEra e) → cleanup_step ch e s = Some (e', s') → era_sealed s e s' e' ∧ sy_seals s' = sy_seals s.
Proof.
  intros (H1 & H2 & H3 & H4). unfold cleanup_step. destruct (committed_or_not e) as [->|Hne]; [done|].
  assert (∀ o s1, (∀ p sp, o ≠ EoSpawn p sp) → consumed (with_owner o e) → sy_seals s1 = sy_seals s →
    era_sealed s e s1 (with_owner o e) ∧ sy_seals s1 = sy_seals s) as Hsame.
  { intros o s1 Hp Hc Hs. split; [|done]. split; [done| |done]. split; [done|]. split; [exact H2|]. split; [by intros _; apply H3|].
    intros p sp Ho. by destruct (Hp p sp). }
  destruct (er_owner e) as [|d|d| |p sp|r|d r|r| |y|y d pc|y d|y d|] eqn:Hw; try done.
  - intros [= <- <-]. by apply Hsame.
  - destruct pc as [| | | |r].
    1-4: intros H; (destruct (dispose_step _ _ _ _) as [[pc' s1]|] eqn:Hstp in H; [|done]); cbn in H; injection H as <- <-;
      apply dispose_step_seals in Hstp; by apply Hsame.
    intros [= <- <-]. by apply Hsame.
  - destruct (capture_dependents _ _ s) as [[ys s1]|] eqn:Hcap; [|done]. cbn [mbind option_bind]. apply capture_seals in Hcap.
    intros [= <- <-]. by apply Hsame.
  - destruct d as [|y0 d]; [intros [= <- <-]; by apply Hsame|].
    destruct (converge_step ch (y0 :: d) s) as [ys|]; [|done]. cbn [mbind option_bind]. intros [= <- <-]. by apply Hsame.
Qed.

(** ** The system *)

Lemma recording_or_not pc : (∃ x, pc = SpRecord x) ∨ ∀ y, ¬ recording pc y.
Proof. destruct pc; try (right; intros y H; discriminate H). left. by eexists. Qed.

Lemma era_recording_or_not e : (∃ p x, er_owner e = EoSpawn p (SpRecord x)) ∨ ∀ y, ¬ era_recording e y.
Proof.
  destruct (er_owner e) as [| | | |p sp| | | | | | | | |] eqn:Hw; try (right; intros ? [q Hq]; congruence).
  destruct (recording_or_not sp) as [[x ->]|Hn]; [left; by exists p, x|right]. intros y [q Hq]. apply (Hn y).
  unfold recording. congruence.
Qed.

(** The step that records a spawn state, of a creation or of a replacement. *)
Lemma seals_record i t t' x ctx p s s1 :
  seals_ok s → sys_base s → sy_threads s !! i = Some t → prepared_ok input_type p → do (OpRecord x ctx p x) s = Some s1 →
  (∀ m, seals_grow (sy_seals s) m → sealed m t → sealed m t') →
  (∀ e, t = ThEra e → consumed e → ∃ e', t' = ThEra e' ∧ er_source e' = er_source e ∧ consumed e') →
  seals_ok (set_thread i t' (put_seals (<[ x := pp_plugin p ]> (sy_seals s1)) s1)).
Proof.
  intros Hok Hb Hi Hp Hdo Hsl Hcs. pose proof (do_seals _ _ _ Hdo) as Hseals. rewrite Hseals.
  destruct (record_step x ctx p s s1 Hok Hb Hp Hdo) as [Hcore Hnone].
  assert (seals_grow (sy_seals s) (<[ x := pp_plugin p ]> (sy_seals s))) as Hg.
  { intros y q Hq. exists q. rewrite lookup_insert_ne by congruence. by split. }
  apply (seals_thread i t t' s); [done|done| |done|exact Hg| | |done].
  - by destruct (do_spec _ _ _ Hb Hdo) as (_ & _ & _ & ->).
  - apply Hsl; [done|]. eapply sealed_grow; [exact Hg|]. by eapply se_threads.
  - intros y seal. cbn. intros [[<- <-]|[_ Hs]]%lookup_insert_Some Hn; [|left; by exists seal].
    destruct Hp as (_ & _ & [st Hst]). congruence.
Qed.

(** The caller of an era is not polled while its owner installs a record. *)
Lemma caller_not_recording ch e s e' s' : owner_ok (sy_world s) e → caller_step ch e s = Some (e', s') → ∀ y, ¬ era_recording e y.
Proof.
  intros Ho Hs y [p Hp]. unfold owner_ok, waiting in Ho. rewrite Hp in Ho. unfold caller_step in Hs. rewrite Hp in Hs.
  destruct (er_caller e); naive_solver.
Qed.

(** ** Restarts and updates *)

Lemma committing_or_not c : (ct_caller c = CtHeld ∧ ∃ change, ct_kind c = Updating change) ∨ ∀ y, ¬ committing_input c y.
Proof. destruct (ct_caller c) eqn:?, (ct_kind c) as [|change] eqn:?; try (right; intros y (_ & ? & ? & ?); congruence). left. split; [done|]. by exists change. Qed.

Lemma swap_input_kind p change : same_kind p (swap_input p change).2 ∧ (tp_state (swap_input p change).2 = None → tp_state p = None).
Proof. unfold swap_input. repeat case_match; by split. Qed.

(** What the commit of an update does. *)
Lemma update_commit_spec change c s c' s' f :
  fiber_at_addr s (ct_target c) = Some f → f_alive f = true → update_commit change c s = Some (c', s') →
  ∃ st p superseded q n, f_spawn f = Some st ∧ sy_seals s !! st_plugin st = Some p ∧ swap_input p change = (Ok superseded, q) ∧
    sy_seals s' = <[ st_plugin st := q ]> (sy_seals s) ∧ sy_threads s' = sy_threads s ∧ sy_holds s' = sy_holds s ∧
    root_next (wd_root (sy_world s)) ≤ root_next (wd_root (sy_world s')) ∧
    world_fibers (sy_world s') = alter (λ f, set_f_spawn (Some (with_input n st)) (mark_replacing f)) (ct_target c) (world_fibers (sy_world s)) ∧
    ct_kind c' = ct_kind c ∧ ct_caller c' = CtDropping ∧ ct_target c' = ct_target c.
Proof.
  intros Hf Ha. unfold update_commit. rewrite Hf. cbn [mbind option_bind]. rewrite Ha. cbn [negb].
  unfold do at 2. cbn [step]. unfold fiber_at_addr in Hf. rewrite Hf. cbn [mbind option_bind].
  set (s1 := put_world _ s). unfold commit_change. destruct (f_spawn f) as [st|] eqn:Hst; [|done].
  change (sy_seals s1) with (sy_seals s). destruct (sy_seals s !! st_plugin st) as [p|] eqn:Hp; [|done].
  destruct (swap_input p change) as [[superseded|] q] eqn:Hsw; [|done].
  unfold do. cbn [step]. destruct (decide _); [done|]. unfold commit_input.
  assert (world_fibers (sy_world (put_seals (<[st_plugin st:=q]> (sy_seals s)) s1)) !! ct_target c = Some (mark_replacing f)) as Hf1.
  { unfold s1. cbn. unfold world_fibers, on, root_heap. cbn. rewrite lookup_alter_eq. unfold world_fibers, root_heap in Hf. by rewrite Hf. }
  rewrite Hf1. cbn [mbind option_bind f_spawn mark_replacing set_f_replacing]. rewrite Hst. cbn [mbind option_bind fresh_occurrence].
  intros [= <- <-]. exists st, p, superseded, q. eexists. split_and!; try done; [cbn; lia|].
  unfold world_fibers, on, root_heap. cbn. by rewrite alter_alter_eq.
Qed.

Lemma control_commit_seals i ch c s c' s' change :
  sys_ok s → seals_ok s → sy_threads s !! i = Some (ThControl c) → ct_caller c = CtHeld → ct_kind c = Updating change →
  control_step ch c s = Some (c', s') → seals_ok (set_thread i (ThControl c') s').
Proof.
  intros Hsys Hok Hi Hc Hk. pose proof (so_base _ Hsys) as Hb. pose proof (se_threads _ Hok _ _ Hi) as Hsl.
  unfold control_step. rewrite Hc, Hk. intros Hs.
  destruct (fiber_at_addr s (ct_target c)) as [f|] eqn:Hf; [|unfold update_commit in Hs; by rewrite Hf in Hs].
  destruct (f_alive f) eqn:Ha.
  2: { unfold update_commit in Hs. rewrite Hf in Hs. cbn [mbind option_bind] in Hs. rewrite Ha in Hs. cbn in Hs. injection Hs as <- <-.
       eapply (seals_thread_same (λ _, False)); [done..|by apply stepped_same|naive_solver|done| |done].
       intros change' Hk'. cbn in Hk'. destruct (Hsl _ Hk') as [H1 _]. split; [done|]. cbn. naive_solver. }
  destruct (update_commit_spec _ _ _ _ _ _ Hf Ha Hs) as (st & p & sup & q & n & Hst & Hp & Hsw & Hse & Hth & _ & Hn & Hh & Hk' & Hc' & Ht').
  destruct (se_fiber _ Hok _ _ _ Hf Hst) as (seal & Hseal & Hpl & Hkey). rewrite Hpl in *.
  assert (seal = p) as -> by congruence. destruct (swap_input_kind p change) as [Hkind Hmoved]. rewrite Hsw in Hkind, Hmoved. cbn in Hkind, Hmoved.
  assert (seals_same (sy_seals s) (sy_seals s')) as Hsame by (rewrite Hse; by eapply seals_same_insert).
  assert (∀ y g, fiber_at_addr s' y = Some g → ∃ g0, fiber_at_addr s y = Some g0 ∧
    (f_spawn g = f_spawn g0 ∨ y = ct_target c ∧ f_spawn g = Some (with_input n st))) as Hold.
  { intros y g Hg. unfold fiber_at_addr in *. rewrite Hh in Hg. destruct (decide (y = ct_target c)) as [->|Hne].
    - rewrite lookup_alter_eq, Hf in Hg. injection Hg as <-. exists f. split; [done|]. by right.
    - rewrite lookup_alter_ne in Hg by done. exists g. split; [done|]. by left. }
  eapply (seals_thread i (ThControl c)); [done|done|done| | | | |done].
  - split_and!.
    + intros y g st' Hg Hst'. destruct (Hold _ _ Hg) as (g0 & Hg0 & [Heq|[-> Heq]]).
      * rewrite Heq in Hst'. destruct (se_fiber _ Hok y g0 st' Hg0 Hst') as (seal & Hs0 & ? & Hk0).
        destruct (seals_same_lookup _ _ _ _ Hsame Hs0) as (q' & Hq' & [Hqc _]). exists q'. by rewrite Hqc.
      * rewrite Heq in Hst'. injection Hst' as <-. exists q. rewrite Hse, lookup_insert_eq. split_and!; [done|done|].
        cbn. rewrite Hkey. by destruct Hkind as [-> _].
    + intros y z Hz. destruct (seals_same_lookup_r _ _ _ _ Hsame Hz) as (z0 & Hz0 & _). destruct (se_seal _ Hok y z0 Hz0) as [Hy Hg].
      split; [unfold allocated in *; lia|]. intros g Hg'. destruct (Hold _ _ Hg') as (g0 & Hg0 & [->|[_ ->]]); [by apply Hg|by eexists].
    + intros y z Hz. destruct (seals_same_lookup_r _ _ _ _ Hsame Hz) as (z0 & Hz0 & [Hzc Hzt]). rewrite Hzc, Hzt. by eapply se_type.
  - intros y z Hz. by eapply seals_same_lookup.
  - intros change' Hk2. rewrite Hk', Hk in Hk2. destruct (Hsl change Hk) as [H1 _]. injection Hk2 as <-. split; [done|]. rewrite Hc'. naive_solver.
  - intros y z Hz Hzn. left. rewrite Hse in Hz. apply lookup_insert_Some in Hz as [[<- <-]|[_ Hz]]; [exists p; auto|by exists z].
Qed.

Lemma control_step_sealed ch c s c' s' :
  seals_ok s → sealed (sy_seals s) (ThControl c) → (∀ y, ¬ committing_input c y) → control_step ch c s = Some (c', s') →
  sealed (sy_seals s) (ThControl c') ∧ sy_seals s' = sy_seals s.
Proof.
  intros Hok Hsl Hn. unfold control_step. destruct (ct_caller c) as [| | | | | |r|] eqn:Hc; try done.
  - destruct (fiber_at_addr s (ct_target c)) as [f|] eqn:Hf; [|done]. cbn [mbind option_bind]. destruct (ct_kind c) as [|change] eqn:Hk.
    + destruct (restart_admit _ f); intros [= <- <-]; (split; [|done]); intros change'; cbn; congruence.
    + destruct (Hsl change Hk) as [H1 _].
      destruct (update_admit _ _ change f) eqn:Hu; intros [= <- <-]; (split; [|done]); intros change'; cbn; rewrite Hk; intros [= <-]; (split; [done|]);
        [naive_solver|intros _].
      revert Hu. unfold update_admit. destruct (ch_refused _ _); [done|]. destruct (negb (f_alive f)); [done|].
      destruct (bool_decide _) eqn:Hcon; [|done]. intros _. apply bool_decide_eq_true_1 in Hcon. cbn.
      destruct (f_spawn f) as [st|] eqn:Hst; [|done]. destruct (se_fiber _ Hok _ _ _ Hf Hst) as (seal & Hs & _ & Hkey).
      exists seal. split; [done|]. cbn in Hcon. rewrite Hkey in Hcon. congruence.
  - destruct (ct_kind c) as [|change] eqn:Hk; [done|]. destruct (Hsl change Hk) as [H1 H2].
    destruct (ch_chain ch) as [[input|]|failure]; intros [= <- <-]; (split; [|done]); intros change'; cbn; try rewrite Hk; intros [= <-]; (split; [done|]).
    + intros _. by apply H2; left.
    + naive_solver.
    + naive_solver.
  - destruct (slot_free _ _); [|done]. intros [= <- <-]. split; [|done]. intros change' Hk. cbn in Hk. destruct (Hsl change' Hk) as [H1 H2].
    split; [done|]. intros _. by apply H2; right; left.
  - destruct (ct_kind c) as [|change] eqn:Hk; [|by destruct (Hn (ct_target c)); split_and!; [..|exists change]].
    unfold restart_commit. destruct (fiber_at_addr s _) as [f|]; [|done]. cbn [mbind option_bind].
    destruct (negb _); [intros [= <- <-]; split; [intros change'; cbn; congruence|done]|].
    destruct (do _ s) as [s1|] eqn:Hd; [|done]. cbn [mbind option_bind]. intros [= <- <-].
    split; [intros change'; cbn; congruence|by eapply do_seals].
  - intros [= <- <-]. split; [|done]. intros change' Hk. cbn in Hk. destruct (Hsl change' Hk) as [H1 _]. split; [done|]. cbn. destruct (ch_panics ch); naive_solver.
  - destruct (ct_owner c); try done. intros [= <- <-]. split; [|done]. intros change' Hk. cbn in Hk. destruct (Hsl change' Hk) as [H1 _]. split; [done|]. cbn. naive_solver.
Qed.

Lemma control_owner_sealed ch c s c' s' :
  sealed (sy_seals s) (ThControl c) → control_owner_step ch c s = Some (c', s') →
  sealed (sy_seals s) (ThControl c') ∧ sy_seals s' = sy_seals s.
Proof.
  intros Hsl. unfold control_owner_step. destruct (ct_owner c); try done.
  - destruct (ct_caller c) eqn:Hc; intros; simplify_eq; done.
  - destruct (do _ s) as [s1|] eqn:Hd; [|done]. cbn [mbind option_bind]. intros [= <- <-]. split; [done|by eapply do_seals].
  - destruct (fiber_at_addr s _) as [f|]; [|done]. cbn [mbind option_bind]. destruct (bool_decide _); [|done].
    destruct (ch_drift ch); intros [= <- <-]; done.
Qed.

(** ** Bulk removal *)

Lemma removal_start_seals ch r s r' s' : removal_start ch r s = Some (r', s') → sy_seals s' = sy_seals s.
Proof.
  unfold removal_start. destruct (rm_pc r); try done. destruct (detach_for_removal _ _ _) as [[[[g|]|x] reg]|]; try done;
    cbn [mbind option_bind]; try (by intros [= <- <-]).
  destruct (do _ s) as [s1|] eqn:H1; [|done]. cbn [mbind option_bind]. intros [= <- <-]. by eapply do_seals.
Qed.

Lemma dispose_all_seals r s r' s' : dispose_all_step r s = Some (r', s') → sy_seals s' = sy_seals s.
Proof.
  unfold dispose_all_step. destruct (rm_pc r) as [|[|y rest] pc|o]; try done.
  - destruct (rm_group r) as [g|]; [|done]. cbn [mbind option_bind]. destruct (rg_groups _ !! _); [|done]. cbn [mbind option_bind].
    destruct (bool_decide _); [|done]. destruct (do _ s) as [s1|] eqn:H1; [|done]. cbn [mbind option_bind]. intros [= <- <-].
    by eapply do_seals.
  - destruct pc; try (by intros [= <- <-]).
    all: destruct (dispose_step _ _ _ s) as [[pc' s1]|] eqn:Hs; [|done]; cbn [mbind option_bind]; intros [= <- <-]; by eapply dispose_step_seals.
Qed.

Lemma caller_of_seals i ch t s t' s' :
  sys_ok s → seals_ok s → sy_threads s !! i = Some t → caller_of ch t s = Some (t', s') → seals_ok (set_thread i t' s').
Proof.
  intros Hsys Hok Hi Hc. pose proof (so_base _ Hsys) as Hb. pose proof (so_threads _ Hsys _ _ Hi) as Ht.
  pose proof (ts_stepped _ _ _ _ (caller_of_ok _ _ _ _ _ Hb Ht Hc)) as Hts. pose proof (se_threads _ Hok _ _ Hi) as Hsl.
  destruct t as [ctx p pc|pc|x pc|e|c|r|]; cbn [caller_of] in Hc; [| | | | | |done].
  - destruct (spawn_step _ _ _ _ pc s) as [[pc' s1]|] eqn:Hs; [|done]. cbn in Hc. injection Hc as <- <-.
    destruct (recording_or_not pc) as [[x ->]|Hn].
    + cbn [spawn_step] in Hs. destruct (do _ s) as [s2|] eqn:Hdo; [|done]. cbn [mbind option_bind] in Hs. injection Hs as <- <-.
      by eapply seals_record.
    + eapply seals_thread_same; [done..|exact Hts|done| |done|done]. eapply spawn_step_seals; [done|]. intros x ->. by apply (Hn x).
  - destruct (guard_step _ s) as [[pc' s1]|] eqn:Hs; [|done]. cbn in Hc. injection Hc as <- <-.
    eapply seals_thread_same; [done..|exact Hts|by intros y []| |done|done]. by eapply guard_step_seals.
  - destruct (dispose_step _ _ _ s) as [[pc' s1]|] eqn:Hs; [|done]. cbn in Hc. injection Hc as <- <-.
    eapply seals_thread_same; [done..|exact Hts|by intros y []| |done|done]. by eapply dispose_step_seals.
  - destruct (caller_step _ _ s) as [[e' s1]|] eqn:Hs; [|done]. cbn in Hc. injection Hc as <- <-.
    destruct (caller_step_sealed _ _ _ _ _ Hok (proj1 Ht) Hsl Hs) as [[H1 H2 H3] Hse].
    eapply seals_thread_same; [done..|exact Hts| |done|done|].
    + by eapply caller_not_recording; [apply Ht|].
    + intros e0 [= <-] He. exists e'. split_and!; [done|done|by apply H3].
  - destruct (control_step _ _ s) as [[c' s1]|] eqn:Hs; [|done]. cbn in Hc. injection Hc as <- <-.
    destruct (committing_or_not c) as [(Hh & change & Hk)|HR].
    + by eapply control_commit_seals.
    + destruct (control_step_sealed _ _ _ _ _ Hok Hsl HR Hs) as [H1 H2].
      eapply seals_thread_same; [done..|exact Hts|done|done|done|done].
  - destruct (removal_start _ _ s) as [[r' s1]|] eqn:Hs; [|done]. cbn in Hc. injection Hc as <- <-.
    eapply seals_thread_same; [done..|exact Hts|by intros y []|by eapply removal_start_seals|done|done].
Qed.

Lemma owner_of_seals i ch t s t' s' :
  sys_ok s → seals_ok s → sy_threads s !! i = Some t → owner_of ch t s = Some (t', s') → seals_ok (set_thread i t' s').
Proof.
  intros Hsys Hok Hi Hc. pose proof (so_base _ Hsys) as Hb. pose proof (so_threads _ Hsys _ _ Hi) as Ht.
  pose proof (ts_stepped _ _ _ _ (owner_of_ok _ _ _ _ _ Hb Ht Hc)) as Hts. pose proof (se_threads _ Hok _ _ Hi) as Hsl.
  destruct t as [ctx p pc|pc|x pc|e|c|r|]; cbn [owner_of] in Hc; try done.
  3: { destruct (dispose_all_step _ s) as [[r' s1]|] eqn:Hs; [|done]. cbn in Hc. injection Hc as <- <-.
       eapply seals_thread_same; [done..|exact Hts|by intros y []|by eapply dispose_all_seals|done|done]. }
  2: { destruct (control_owner_step _ _ s) as [[c' s1]|] eqn:Hs; [|done]. cbn in Hc. injection Hc as <- <-.
       destruct (control_owner_sealed _ _ _ _ _ Hsl Hs) as [H1 H2].
       destruct (control_owner_step_ok (λ _, False) _ _ _ _ _ Hb Ht Hs) as [Hst _].
       eapply (seals_thread_same (λ _, False)); [done..|exact Hst|naive_solver|done|done|done]. }
  destruct (era_recording_or_not e) as [(p & x & Hw)|HR].
  - (* the record of the successor *)
    unfold owner_step, cleanup_step in Hc. rewrite Hw in Hc. destruct Hsl as (H1 & H2 & H3 & H4).
    destruct (H4 _ _ Hw) as [Hp _]. destruct (er_recipe e) as [r|] eqn:Hr; [|done]. cbn [mbind option_bind spawn_step] in Hc.
    destruct (do _ s) as [s2|] eqn:Hdo; [|done]. cbn [mbind option_bind] in Hc. injection Hc as <- <-.
    eapply seals_record; [done..|exact Hp|exact Hdo| |].
    + intros m Hg Hm. destruct Hm as (M1 & M2 & M3 & M4). split; [done|]. split; [exact M2|]. split; [|].
      * intros _. cbn. by exists r.
      * intros p' sp [= <- <-]. by split.
    + intros e0 [= <-] _. by eexists.
  - destruct (owner_step ch e s) as [[e' s1]|] eqn:Hs.
    + cbn in Hc. injection Hc as <- <-. destruct (owner_step_sealed _ _ _ _ _ Hok Hsl Hs HR) as [[H1 H2 H3] [Hse|Hse]].
      * eapply seals_thread_same; [done..|exact Hts|done|done|done|].
        intros e0 [= <-] He. exists e'. split_and!; [done|done|by apply H3].
      * destruct Hse as (x & p & q & Hse & Hx & Hk & Hsrc & Hc).
        assert (seals_same (sy_seals s) (sy_seals s1)) as Hsame by (rewrite Hse; by eapply seals_same_insert).
        assert (seals_grow (sy_seals s) (sy_seals s1)) as Hg by (intros y z Hy; by eapply seals_same_lookup).
        eapply (seals_thread i (ThEra e) (ThEra e')); [done|done|apply Hts|by eapply seals_step|done|by eapply sealed_grow| |].
        -- intros y seal Hy Hn. destruct (decide (y = x)) as [->|Hne]; [right; exists e'; split_and!; [done|congruence|done]|].
           left. exists seal. rewrite Hse, lookup_insert_ne in Hy by congruence. done.
        -- intros e0 [= <-] He. exists e'. split_and!; [done|done|by apply H3].
    + destruct (cleanup_step ch e s) as [[e' s1]|] eqn:Hs'; [|done]. cbn in Hc. injection Hc as <- <-.
      destruct (cleanup_step_sealed _ _ _ _ _ Hsl Hs') as [[H1 H2 H3] Hse].
      eapply seals_thread_same; [done..|exact Hts|done|done|done|].
      intros e0 [= <-] He. exists e'. split_and!; [done|done|by apply H3].
Qed.

Lemma drop_of_seals i t s t' s' :
  sys_ok s → seals_ok s → sy_threads s !! i = Some t → drop_of t s = Some (t', s') → seals_ok (set_thread i t' s').
Proof.
  intros Hsys Hok Hi Hc. pose proof (so_base _ Hsys) as Hb. pose proof (so_threads _ Hsys _ _ Hi) as Ht.
  pose proof (ts_stepped _ _ _ _ (drop_of_ok _ _ _ _ Hb Ht Hc)) as Hts. pose proof (se_threads _ Hok _ _ Hi) as Hsl.
  destruct t as [ctx p pc|pc|x pc|e|c|r|]; cbn [drop_of] in Hc; try done.
  - destruct (spawn_drop pc s) as [[g s1]|] eqn:Hs; [|done]. cbn in Hc. injection Hc as <- <-.
    eapply seals_thread_same; [done..|exact Hts| |by eapply spawn_drop_seals|by destruct g|done].
    intros y ->. discriminate Hs.
  - assert (t' = ThGone ∧ s' = s) as [-> ->] by (destruct pc; naive_solver).
    eapply (seals_thread_same (λ _, False)); [done..|by apply stepped_same|naive_solver|done|done|done].
  - destruct (caller_drop e) as [e'|] eqn:Hs; [|done]. cbn in Hc. injection Hc as <- <-.
    destruct (caller_drop_sealed _ _ s Hsl Hs) as [H1 H2 H3].
    eapply (seals_thread_same (λ _, False)); [done..|by apply stepped_same|naive_solver|done|done|].
    intros e0 [= <-] He. exists e'. split_and!; [done|done|by apply H3].
  - destruct (control_drop c) as [c'|] eqn:Hs; [|done]. cbn in Hc. injection Hc as <- <-.
    eapply (seals_thread_same (λ _, False)); [done..|by apply stepped_same|naive_solver|done| |done].
    unfold control_drop in Hs. destruct (ct_caller c); try done; injection Hs as <-; intros change Hk; cbn in Hk;
      destruct (Hsl change Hk) as [H1 _]; (split; [done|]); cbn; naive_solver.
  - destruct r as [key g []]; try done; cbn in Hc. injection Hc as <- <-.
    eapply (seals_thread_same (λ _, False)); [done..|by apply stepped_same|naive_solver|done|done|done].
Qed.

(** ** Runs *)

(** A step that leaves the threads alone and swaps seals in place. *)
Lemma seals_quiet R s s' :
  seals_ok s → sys_base s → stepped R s s' → (∀ y, ¬ R y) → seals_same (sy_seals s) (sy_seals s') →
  (∀ x p q, sy_seals s !! x = Some p → sy_seals s' !! x = Some q → tp_state q = None → tp_state p = None) → seals_ok s'.
Proof.
  intros Hok Hb Hst HR Hsame Hm. destruct (seals_step _ _ _ Hok Hb Hst HR Hsame) as (H1 & H2 & H3).
  pose proof (sp_threads _ _ _ Hst) as Hth. split; try done.
  - intros x q Hq Hn. destruct (seals_same_lookup_r _ _ _ _ Hsame Hq) as (p & Hp & _). rewrite Hth.
    by eapply se_moved; [|exact Hp|eapply Hm].
  - intros i t. rewrite Hth. intros Hi. eapply sealed_grow; [|by eapply se_threads].
    intros x p Hp. by eapply seals_same_lookup.
Qed.

Lemma seals_start i t s s' : seals_ok s → start i t s = Some s' → sealed (sy_seals s) t → seals_ok s'.
Proof.
  intros Hok. unfold start. destruct (sy_threads s !! i) eqn:Hi; [done|]. intros [= <-] Hsl. split; try apply Hok.
  - intros x q Hq Hn. destruct (se_moved _ Hok x q Hq Hn) as (j & e & Hj & ?). exists j, e. cbn.
    rewrite lookup_insert_ne by congruence. by split.
  - intros j u. cbn. intros [[<- <-]|[_ Hj]]%lookup_insert_Some; [done|]. by eapply se_threads.
Qed.

Lemma sys_step_seals ev s s' : sys_ok s → seals_ok s → sys_step input_type ev s = Some s' → seals_ok s'.
Proof.
  intros Hsys Hok. pose proof (so_base _ Hsys) as Hb. destruct ev as [op|i ctx p input over|i x|i x c input|i x|i x c input|i key|i ch|i ch|i]; cbn [sys_step].
  - destruct (free_op op s) eqn:Hf; [|done]. intros Hd. assert (∀ y, ¬ records op y) as HR by (intros y; destruct op; cbn in Hf |- *; try discriminate; by intros []).
    destruct (do_stepped (records op) op _ _ Hb Hd) as [Hst _]; [done|]. pose proof (do_seals _ _ _ Hd) as Hse.
    eapply seals_quiet; [done..|rewrite Hse; apply seals_same_refl|]. rewrite Hse. naive_solver.
  - intros Hst. eapply seals_start; [done..|]. cbn. split_and!; [done|done|by eexists].
  - destruct (fiber_at_addr s x); [|done]. cbn [mbind option_bind]. intros Hst. by eapply seals_start.
  - destruct (fiber_at_addr s x); [|done]. cbn [mbind option_bind]. intros Hst. eapply seals_start; [done..|].
    cbn. split_and!; [done|naive_solver|by intros []|done].
  - unfold start_control. destruct (fiber_at_addr s x) as [f|]; [|done]. cbn [mbind option_bind]. destruct (f_installed f); [|done].
    intros Hst. by eapply seals_start.
  - unfold start_control. destruct (fiber_at_addr s x) as [f|]; [|done]. cbn [mbind option_bind]. destruct (f_installed f); [|done].
    intros Hst. eapply seals_start; [done..|]. intros change. cbn. intros [= <-]. split; [done|]. cbn. naive_solver.
  - intros Hst. by eapply seals_start.
  - destruct (sy_threads s !! i) as [t|] eqn:Hi; [|done]. cbn [mbind option_bind].
    destruct (caller_of ch t s) as [[t' s1]|] eqn:Hs; [|done]. cbn [mbind option_bind]. intros [= <-].
    by eapply caller_of_seals.
  - destruct (sy_threads s !! i) as [t|] eqn:Hi; [|done]. cbn [mbind option_bind].
    destruct (owner_of ch t s) as [[t' s1]|] eqn:Hs; [|done]. cbn [mbind option_bind]. intros [= <-].
    by eapply owner_of_seals.
  - destruct (sy_threads s !! i) as [t|] eqn:Hi; [|done]. cbn [mbind option_bind].
    destruct (drop_of t s) as [[t' s1]|] eqn:Hs; [|done]. cbn [mbind option_bind]. intros [= <-].
    by eapply drop_of_seals.
Qed.

Lemma sys_run_seals evs s s' : sys_ok s → seals_ok s → sys_run input_type evs s = Some s' → sys_ok s' ∧ seals_ok s'.
Proof.
  revert s. induction evs as [|ev evs IH]; intros s Hok Hse; cbn [sys_run]; [by intros [= <-]|].
  destruct (sys_step input_type ev s) as [s1|] eqn:Hs; [|done]. cbn [mbind option_bind]. apply IH.
  - by eapply sys_step_ok.
  - by eapply sys_step_seals.
Qed.

Lemma system_new_seals membership main s : system_new membership main = Some s → seals_ok s.
Proof.
  unfold system_new. destruct (world_new membership main) as [w|] eqn:Hw; [|done]. cbn [mbind option_bind]. intros [= <-].
  unfold world_new in Hw. destruct (Fiber_root main) as [f|] eqn:Hf; [|done]. cbn [mbind option_bind] in Hw. injection Hw as <-.
  assert (f_spawn f = None) as Hn by (unfold Fiber_root in Hf; by apply set_state_spec in Hf as (p & -> & _)).
  split; try done. intros x g st Hg. change (({[ main := f ]} : gmap Addr Fiber) !! x = Some g) in Hg.
  apply lookup_singleton_Some in Hg as [<- <-]. by rewrite Hn.
Qed.
End seals.

Section theorems.
Context (input_type : TypeId → TypeId) (membership main : Addr) (evs : list Event) (s0 s : System)
  (Hnew : system_new membership main = Some s0) (Hrun : sys_run input_type evs s0 = Some s).

Lemma reached_seals : sys_ok s ∧ seals_ok input_type s.
Proof using All. eapply sys_run_seals; [by eapply system_new_ok|by eapply system_new_seals|done]. Qed.

(** A committed replacement meets none of the panics of its owner: the admission
    checked the contract, the seal of the source is compatible with the change, however
    often configuration updates swapped its input, its behaviour has not been moved by
    another replacement, the spawn never finds its origin closed, and no awaited Fiber
    rests in a transient state. *)
Theorem replacement_never_panics (i : nat) (e : Era) (ch : Choice) (Hi : sy_threads s !! i = Some (ThEra e)) :
  owner_panics ch e s = false.
Proof using All.
  destruct reached_seals as [Hsys Hok]. pose proof (so_base _ Hsys) as Hb.
  destruct (se_threads _ _ Hok _ _ Hi) as (H1 & H2 & H3 & H4).
  assert (∀ y, match ready_attempt ch y s with Some (Err _) => true | _ => false end = false) as Hready.
  { intros y. pose proof (ready_reachable ch y s Hb) as Hr. destruct (ready_attempt ch y s) as [[r|[]]|]; done. }
  unfold owner_panics. destruct (er_owner e) as [|d|[|y d]| |p sp|r|[|y d] r|r| |y|y d pc|y d|y [|z d]|] eqn:Hw; try done.
  - destruct (H3 ltac:(unfold committed; by rewrite Hw)) as [r Hr]. rewrite Hr.
    destruct (H2 r ltac:(auto)) as [Hpl (seal & Hs & Hk & Hc)]. rewrite Hk, Hpl, Hs.
    apply negb_false_iff. unfold into_successor. rewrite bool_decide_eq_true_2 by done. cbn [negb].
    rewrite bool_decide_eq_true_2 by (rewrite H1, (se_type _ _ Hok _ _ Hs); congruence). cbn [negb].
    destruct (tp_state seal) as [[b c]|] eqn:Hn; [done|exfalso].
    destruct (se_moved _ _ Hok _ _ Hs Hn) as (j & e' & Hj & Hsrc & Hcons).
    assert (j = i) as ->.
    { apply (so_single _ Hsys j i e' e Hj Hi); [|unfold committed; by rewrite Hw|done].
      unfold consumed in Hcons. unfold committed. by destruct (er_owner e'). }
    assert (e' = e) as -> by congruence. unfold consumed in Hcons. by rewrite Hw in Hcons.
  - destruct sp as [| | | | | | | |o [y|error]]; try done. destruct (H4 _ _ eq_refl) as [_ Hn].
    destruct error; try done. by destruct (Hn o).
Qed.
End theorems.

Example replacement_never_panics_witness :
  ∃ e, era_at (sys_sample committing) 1 = Some e ∧ owner_panics calm_choice e (sys_sample committing) = false.
Proof.
  destruct (era_at (sys_sample committing) 1) as [e|] eqn:He; [|by vm_compute in He].
  exists e. split; [done|].
  apply (replacement_never_panics S 0 0 committing (sys_sample []) (sys_sample committing) sys_sample_new ltac:(computed) 1).
  by apply era_at_spec.
Defined.
