(* ===== verification/HandlesSlots.v ===== *)
(** The convergence slots under the operations of handles (Handles.v): which thread holds
    the slot of which Fiber, that there is at most one, and what the others therefore
    cannot do to the Fiber. *)
From S2P Require Import Prelude Axes BTree Lifecycle Journal EventStore Observation Plugin Fiber Registry Deps Services Generation GenerationInv GenerationOps GenerationEffect GenerationProps GenerationAge GenerationPass Handles HandlesProps.

(** * Who holds a slot *)

(** The Fiber whose slot a thread holds, and whether a pass the thread started may be
    under way. *)
Definition grip := option (Addr * bool).

Definition spawn_grip (pc : SpawnPc) : grip :=
  match pc with
  | SpPass x => Some (x, false)
  | SpSettling x _ | SpFailing x _ => Some (x, true)
  | _ => None
  end.

Definition guard_grip (pc : GuardPc) : grip := match pc with GuTeardown x => Some (x, true) | _ => None end.
Definition dispose_grip (x : Addr) (pc : DisposePc) : grip := match pc with DpHeld => Some (x, false) | _ => None end.

Definition era_grip (e : Era) : grip :=
  match er_owner e with
  | EoNone => match er_caller e with EcHeld _ => Some (er_source e, false) | _ => None end
  | EoSpawn _ sp => spawn_grip sp
  | EoDispose y _ pc => dispose_grip y pc
  | _ => None
  end.

Definition control_grip (c : Control) : grip :=
  match ct_owner c with
  | CoNone => match ct_caller c with CtHeld => Some (ct_target c, false) | _ => None end
  | CoInput _ | CoPass _ => Some (ct_target c, false)
  | CoSettling _ => Some (ct_target c, true)
  | CoDone _ => None
  end.

Definition removal_grip (r : Removal) : grip :=
  match rm_pc r with RmMembers (y :: _) pc => dispose_grip y pc | _ => None end.

Definition held (t : Thread) : grip :=
  match t with
  | ThSpawn _ _ pc => spawn_grip pc
  | ThGuard pc => guard_grip pc
  | ThDispose x pc => dispose_grip x pc
  | ThEra e => era_grip e
  | ThControl c => control_grip c
  | ThRemove r => removal_grip r
  | ThGone => None
  end.

Definition holding (g : grip) : option Addr := match g with Some (x, _) => Some x | None => None end.

(** * What a step does *)

(** A slot is kept, claimed while free, or released. *)
Definition slot_moved (g : grip) (s : System) (g' : grip) (s' : System) : Prop :=
  sy_holds s' = sy_holds s ∧ holding g' = holding g ∨
  (∃ x, g = None ∧ (x ∉ sy_holds s) ∧ sy_holds s' = ({[ x ]} ∪ sy_holds s) ∧ holding g' = Some x) ∨
  (∃ x, holding g = Some x ∧ sy_holds s' = sy_holds s ∖ {[ x ]} ∧ g' = None).

(** A step of the Runtime that needs the slot is made by its holder or while it is free. *)
Definition permitted (g : grip) (s : System) (op : Op) : Prop :=
  ∀ x, claims_slot op x → holding g = Some x ∨ x ∉ sy_holds s.

(** A parked failure is taken only to tear the Fiber down in the same step. *)
Definition tells (ops : list Op) : Prop :=
  (∀ op x, op ∈ ops → ¬ takes op x) ∨ ∃ x owns, ops = [OpMark x MkTakeError; OpTeardown x owns].

Definition ran (g : grip) (s s' : System) : Prop :=
  ∃ ops, run ops (sy_world s) = Some (sy_world s') ∧ (∀ op, op ∈ ops → permitted g s op) ∧ tells ops.

(** The holder that has no pass under way finds no driver. *)
Definition kept_idle (g : grip) (s : System) (g' : grip) (s' : System) : Prop :=
  ∀ x, (g = Some (x, false) → wd_drivers (sy_world s) !! x = None) → g' = Some (x, false) → wd_drivers (sy_world s') !! x = None.

Record acted (g : grip) (s : System) (g' : grip) (s' : System) : Prop := {
  ac_slot : slot_moved g s g' s';
  ac_ran : ran g s s';
  ac_idle : kept_idle g s g' s';
}.

Lemma ran_nil g s s' : sy_world s' = sy_world s → ran g s s'.
Proof. intros Hw. exists []. rewrite Hw. split_and!; [done|set_solver|left; set_solver]. Qed.

Lemma do_step op s s' : do op s = Some s' → step op (sy_world s) = Some (sy_world s') ∧ sy_holds s' = sy_holds s ∧ sy_threads s' = sy_threads s.
Proof. unfold do. destruct (step op (sy_world s)) as [w|]; [|done]. cbn [mbind option_bind]. by intros [= <-]. Qed.

Lemma ran_one g op s s1 s' :
  do op s = Some s1 → sy_world s' = sy_world s1 → permitted g s op → (∀ x, ¬ takes op x) → ran g s s'.
Proof.
  intros [Hst _]%do_step Hw Hp Ht. exists [op]. split_and!.
  - cbn [run]. rewrite Hst. cbn [mbind option_bind run]. by rewrite Hw.
  - by intros ? ->%list_elem_of_singleton.
  - left. intros ? x ->%list_elem_of_singleton. apply Ht.
Qed.

Lemma ran_two g op1 op2 s s1 s2 s' :
  do op1 s = Some s1 → step op2 (sy_world s1) = Some (sy_world s2) → sy_world s' = sy_world s2 →
  permitted g s op1 → permitted g s op2 → tells [op1; op2] → ran g s s'.
Proof.
  intros [H1 _]%do_step H2 Hw Hp1 Hp2 Ht. exists [op1; op2]. split_and!; [|set_solver|done].
  cbn [run]. rewrite H1. cbn [mbind option_bind]. rewrite H2. cbn [mbind option_bind]. by rewrite Hw.
Qed.

(** A step that changes neither the Runtime nor the slots. *)
Lemma acted_same g s g' s' :
  sy_world s' = sy_world s → sy_holds s' = sy_holds s → holding g' = holding g → (g' = g ∨ ∀ x, g' ≠ Some (x, false)) → acted g s g' s'.
Proof.
  intros Hw Hh Hg Hi. split; [by left|by apply ran_nil|]. intros x Hidle Hg'. rewrite Hw. destruct Hi as [->|Hi]; [by apply Hidle|by destruct (Hi x)].
Qed.

(** The slot is claimed, or released, and nothing else. *)
Lemma acted_claim x b s s' :
  slot_free x s = true → sy_world s' = sy_world s → sy_holds s' = ({[ x ]} ∪ sy_holds s) → acted None s (Some (x, b)) s'.
Proof.
  intros [Hd Hx]%slot_free_spec Hw Hh. split; [right; left; by exists x|by apply ran_nil|].
  intros y _ [= -> _]. by rewrite Hw.
Qed.

Lemma acted_release x b s s' :
  sy_world s' = sy_world s → sy_holds s' = sy_holds s ∖ {[ x ]} → acted (Some (x, b)) s None s'.
Proof. intros Hw Hh. split; [right; right; by exists x|by apply ran_nil|done]. Qed.

(** One step of the Runtime, with the slot kept; and with the slot released after it. *)
Lemma acted_do g g' op s s1 s' :
  do op s = Some s1 → sy_world s' = sy_world s1 → sy_holds s' = sy_holds s1 → holding g' = holding g →
  permitted g s op → (∀ x, ¬ takes op x) → ((∀ x, ¬ starts op x) ∧ g' = g ∨ ∀ x, g' ≠ Some (x, false)) → acted g s g' s'.
Proof.
  intros Hd Hw Hh Hg Hp Ht Hi. destruct (do_step _ _ _ Hd) as (Hst & Hho & _). split; [left; by rewrite Hh, Hho|by eapply ran_one|].
  intros x Hidle Hg'. destruct Hi as [[Hs ->]|Hi]; [|by destruct (Hi x)]. rewrite Hw. by eapply step_idle, Hidle.
Qed.

Lemma acted_do_release x b op s s1 s' :
  do op s = Some s1 → sy_world s' = sy_world s1 → sy_holds s' = sy_holds s ∖ {[ x ]} →
  permitted (Some (x, b)) s op → (∀ x, ¬ takes op x) → acted (Some (x, b)) s None s'.
Proof. intros Hd Hw Hh Hp Ht. split; [right; right; by exists x|by eapply ran_one|done]. Qed.

Lemma permitted_free g s op : (∀ x, ¬ claims_slot op x) → permitted g s op.
Proof. intros Hn x Hx. by destruct (Hn x). Qed.

(** * Each thread *)

Ltac free_step := apply permitted_free; by intros ? [].
Ltac own_step := intros ? <-; by left.

Lemma spawn_step_acted ctx p b ch pc s pc' s' :
  spawn_step ctx p b ch pc s = Some (pc', s') → acted (spawn_grip pc) s (spawn_grip pc') s'.
Proof.
  destruct pc as [|x|x|x|x|x m|x failure|x|o r]; cbn [spawn_step spawn_grip]; [| | | | | | | |done].
  - destruct (_ && _); [intros [= <- <-]; apply acted_same; auto|].
    destruct (do _ s) as [s1|] eqn:H1; [|done]. cbn [mbind option_bind]. intros [= <- <-].
    eapply acted_do; [exact H1|done|done|done|free_step|by intros x []|by right].
  - destruct (do _ s) as [s1|] eqn:H1; [|done]. cbn [mbind option_bind]. intros [= <- <-].
    eapply acted_do; [exact H1|done|done|done|free_step|by intros y []|by right].
  - destruct (do _ s) as [s1|] eqn:H1; [|done]. cbn [mbind option_bind]. intros [= <- <-].
    eapply acted_do; [exact H1|done|done|done|free_step|by intros y []|by right].
  - destruct (fiber_at_addr s x) as [f|]; [|done]. cbn [mbind option_bind]. destruct (slot_free x s) eqn:Hfree; [|done].
    destruct (f_alive f); intros [= <- <-]; [by apply acted_claim|apply acted_same; auto].
  - destruct (fiber_at_addr s x) as [f|]; [|done]. cbn [mbind option_bind].
    destruct (do _ s) as [s1|] eqn:H1; [|done]. cbn [mbind option_bind]. intros [= <- <-].
    eapply acted_do; [exact H1|done|done|done|own_step|by intros y []|by right].
  - destruct (fiber_at_addr s x) as [f|]; [|done]. cbn [mbind option_bind]. destruct (bool_decide _) eqn:Hd; [|done].
    apply bool_decide_eq_true_1 in Hd. unfold after_pass.
    assert (acted (Some (x, true)) s (Some (x, false)) s) as Hagain.
    { split; [by left|by apply ran_nil|]. intros y _. by intros [= <-]. }
    destruct m; [destruct (ch_drift ch); intros [= <- <-]; [done|by apply acted_release]|].
    destruct (bool_decide (fiber_state f = Failed)); [|destruct (ch_drift ch); intros [= <- <-]; [done|by apply acted_release]].
    destruct (do _ s) as [s1|] eqn:H1; [|done]. cbn [mbind option_bind].
    destruct (do _ s1) as [s2|] eqn:H2; [|done]. cbn [mbind option_bind]. intros [= <- <-].
    destruct (do_step _ _ _ H1) as (_ & Hh1 & _). destruct (do_step _ _ _ H2) as (Hs2 & Hh2 & _). split.
    + left. by rewrite Hh2, Hh1.
    + eapply (ran_two _ _ _ s s1 s2); [exact H1|exact Hs2|done|own_step|own_step|]. right. by exists x, true.
    + by intros y _.
  - destruct (bool_decide _); [|done]. intros [= <- <-]. by apply acted_release.
  - destruct (fiber_at_addr s x) as [f|]; [|done]. cbn [mbind option_bind]. destruct (slot_free x s); [|done].
    destruct (f_alive f); [|intros [= <- <-]; apply acted_same; auto].
    destruct (do _ s) as [s1|] eqn:H1; [|done]. cbn [mbind option_bind]. intros [= <- <-].
    eapply acted_do; [exact H1|done|done|done|free_step|by intros y []|by right].
Qed.

Lemma spawn_drop_acted pc s g s' :
  spawn_drop pc s = Some (g, s') → acted (spawn_grip pc) s (match g with Some g => guard_grip g | None => None end) s'.
Proof.
  destruct pc as [|x|x|x|x|x m|x failure|x|o r]; cbn [spawn_drop spawn_grip]; try done; try (intros [= <- <-]; apply acted_same; by auto).
  all: destruct (do _ s) as [s1|] eqn:H1; [|done]; cbn [mbind option_bind]; intros [= <- <-].
  all: eapply acted_do; [exact H1|done|done|done|own_step|by intros y []|by right].
Qed.

Lemma guard_step_acted pc s pc' s' : guard_step pc s = Some (pc', s') → acted (guard_grip pc) s (guard_grip pc') s'.
Proof.
  destruct pc as [x|x|x|x|x]; cbn [guard_step guard_grip]; [| | | |done].
  - destruct (fiber_at_addr s x) as [f|]; [|done]. cbn [mbind option_bind].
    destruct (claim_terminal f).1; [intros [= <- <-]; apply acted_same; auto|].
    destruct (do _ s) as [s1|] eqn:H1; [|done]. cbn [mbind option_bind]. intros [= <- <-].
    eapply acted_do; [exact H1|done|done|done|free_step|by intros y []|by right].
  - destruct (fiber_at_addr s x) as [f|]; [|done]. cbn [mbind option_bind].
    destruct (f_dispose_complete f); [|done]. intros [= <- <-]. apply acted_same; auto.
  - destruct (fiber_at_addr s x) as [f|]; [|done]. cbn [mbind option_bind]. destruct (slot_free x s) eqn:Hfree; [|done].
    apply slot_free_spec in Hfree as [_ Hx]. destruct (f_alive f); [|intros [= <- <-]; apply acted_same; auto].
    destruct (do _ s) as [s1|] eqn:H1; [|done]. cbn [mbind option_bind]. intros [= <- <-].
    destruct (do_step _ _ _ H1) as (_ & Hh1 & _). split.
    + right; left. exists x. split_and!; [done|done|cbn; by rewrite Hh1|done].
    + eapply ran_one; [exact H1|done|intros y <-; by right|by intros y []].
    + by intros y _.
  - destruct (bool_decide _); [|done]. intros [= <- <-]. by apply acted_release.
Qed.

Lemma dispose_step_acted refused x pc s pc' s' :
  dispose_step refused x pc s = Some (pc', s') → acted (dispose_grip x pc) s (dispose_grip x pc') s'.
Proof.
  unfold dispose_step. destruct (fiber_at_addr s x) as [f|]; [|done]. cbn [mbind option_bind].
  destruct pc as [| | | |r]; cbn [dispose_grip]; [| | | |done].
  - destruct refused; [intros [= <- <-]; apply acted_same; auto|].
    destruct (f_dispose_complete f); intros [= <- <-]; apply acted_same; auto.
  - destruct (slot_free x s) eqn:Hfree; [|done]. intros [= <- <-]. by apply acted_claim.
  - destruct (f_dispose_complete f); [intros [= <- <-]; by apply acted_release|].
    destruct (claim_terminal f).1; [intros [= <- <-]; by apply acted_release|].
    destruct (do _ s) as [s1|] eqn:H1; [|done]. cbn [mbind option_bind]. intros [= <- <-].
    destruct (do_step _ _ _ H1) as (_ & Hh1 & _). eapply acted_do_release; [exact H1|done|cbn; by rewrite Hh1|own_step|by intros y []].
  - destruct (f_dispose_complete f); [|done]. intros [= <- <-]. apply acted_same; auto.
Qed.

(** ** Replacement *)

Lemma capture_acted edges skip s l s' :
  capture_dependents edges skip s = Some (l, s') → acted None s None s' ∧ do (OpQuery edges) s = Some s'.
Proof.
  unfold capture_dependents. destruct (do _ s) as [s1|] eqn:H1; [|done]. cbn [mbind option_bind]. intros [= <- <-]. split; [|done].
  eapply acted_do; [exact H1|done|done|done|free_step|by intros y []|by right].
Qed.

Lemma caller_step_acted ch e s e' s' :
  owner_ok (sy_world s) e → caller_step ch e s = Some (e', s') → acted (era_grip e) s (era_grip e') s'.
Proof.
  intros Ho. unfold caller_step, era_grip.
  assert (match er_caller e with EcStart | EcClaim _ | EcHeld _ => er_owner e = EoNone | _ => True end) as Hown.
  { unfold owner_ok, waiting in Ho. destruct (er_caller e), (er_owner e); try done; naive_solver. }
  destruct (er_caller e) as [|r|r| |r|]; [| | | |done|done].
  - destruct (fiber_at_addr s _) as [f|]; [|done]. cbn [mbind option_bind]. rewrite Hown.
    destruct (era_admit _ _ _ _); intros [= <- <-]; cbn; rewrite Hown; apply acted_same; auto.
  - destruct (slot_free _ s) eqn:Hfree; [|done]. intros [= <- <-]. cbn. rewrite Hown. by apply acted_claim.
  - unfold era_commit. destruct (fiber_at_addr s _) as [f|]; [|done]. cbn [mbind option_bind]. rewrite Hown.
    destruct (negb _); [intros [= <- <-]; cbn; rewrite Hown; by apply acted_release|].
    destruct (unlocked _ _); [|done].
    destruct (capture_dependents _ _ s) as [[deps s1]|] eqn:Hcap; [|done]. cbn [mbind option_bind].
    destruct (capture_acted _ _ _ _ _ Hcap) as [_ Hq]. destruct (do_step _ _ _ Hq) as (Hs1 & Hh1 & _).
    assert (acted (Some (er_source e, false)) s None (unhold (er_source e) s1)) as Hrel.
    { eapply acted_do_release; [exact Hq|done|cbn; by rewrite Hh1|free_step|by intros y []]. }
    destruct (list_find _ deps) as [[i y]|]; [intros [= <- <-]; cbn; by rewrite Hown|].
    destruct (claim_terminal f).1; [intros [= <- <-]; cbn; by rewrite Hown|].
    destruct (do _ s1) as [s2|] eqn:H2; [|done]. cbn [mbind option_bind]. intros [= <- <-]. cbn.
    destruct (do_step _ _ _ H2) as (Hs2 & Hh2 & _). split; [|..].
    + right; right. exists (er_source e). split_and!; [done|cbn; by rewrite Hh2, Hh1|done].
    + eapply (ran_two _ _ _ s s1 s2); [exact Hq|exact Hs2|done|free_step|own_step|].
      left. intros op y. rewrite !elem_of_cons. intros [->|[->|[]%elem_of_nil]]; by intros [].
    + by intros y _.
  - destruct (er_owner e); try done. intros [= <- <-]. cbn. apply acted_same; auto.
Qed.

Lemma caller_drop_acted e e' s : caller_drop e = Some e' → acted (era_grip e) s (era_grip e') s.
Proof.
  unfold caller_drop, era_grip. destruct (er_caller e) as [|r|r| |r|]; try done; intros [= <-]; cbn;
    [apply acted_same; by auto|apply acted_same; by auto|].
  destruct (er_owner e) as [|d|d| |p sp|r|d r|[y|er|]| |y|y d pc|y d|y d|] eqn:Ho; cbn; rewrite ?Ho; apply acted_same; auto.
Qed.

Lemma spawn_started sp : (∀ o r, sp ≠ SpDone o r) ∨ ∃ o r, sp = SpDone o r.
Proof. destruct sp; try (left; congruence). right. eauto. Qed.

Lemma offer_grip r e : era_grip (offer r e) = None.
Proof. unfold offer, era_grip. destruct (er_caller e), r; done. Qed.

Lemma owner_step_acted ch e s e' s' : owner_step ch e s = Some (e', s') → acted (era_grip e) s (era_grip e') s'.
Proof.
  unfold owner_step, era_grip at 1. destruct (er_owner e) as [|d|d| |p sp|r|d r|r| |y|y d pc|y d|y d|] eqn:Ho; try done.
  - destruct (fiber_at_addr s _) as [f|]; [|done]. cbn [mbind option_bind]. destruct (f_dispose_complete f); [|done].
    intros [= <- <-]. apply acted_same; auto.
  - destruct d as [|y d]; [intros [= <- <-]; apply acted_same; auto|].
    destruct (converge_step _ _ s) as [ys|]; [|done]. cbn [mbind option_bind]. intros [= <- <-]. apply acted_same; auto.
  - destruct (er_recipe e) as [r|]; [|done]. cbn [mbind option_bind]. destruct (era_plugin_key r) as [|contract]; [|done].
    destruct (sy_seals s !! _) as [seal|]; [|done]. cbn [mbind option_bind]. destruct (into_successor seal _) as [[plugin|] seal']; [|done].
    destruct (ch_panics ch); intros [= <- <-]; apply acted_same; auto.
  - destruct (spawn_started sp) as [Hn|(o & r & ->)].
    + intros Hs. assert (∃ r sp' s1, er_recipe e = Some r ∧ spawn_step (era_spawning_ctx r) p false ch sp s = Some (sp', s1) ∧
        e' = with_owner (EoSpawn p sp') (with_attempt (attempted sp') e) ∧ s' = s1) as (r & sp' & s1 & _ & Hsp & -> & ->).
      { destruct (er_recipe e) as [r|]; [|by destruct sp as [| | | | | | | |o r']; try done; destruct (Hn o r')].
        destruct sp as [| | | | | | | |o r']; try (by destruct (Hn o r')).
        all: cbn [mbind option_bind] in Hs; destruct (spawn_step _ _ _ _ _ s) as [[sp' s1]|] eqn:Hsp; [|done]; injection Hs as <- <-; by exists r, sp', s1. }
      by eapply spawn_step_acted.
    + destruct r as [y|er]; [intros [= <- <-]; apply acted_same; auto|].
      destruct (map_spawn_failure er); [|done]. cbn [mbind option_bind]. intros [= <- <-]. apply acted_same; auto.
  - destruct (converge_final _ _ _ s) as [[ys s1]|] eqn:Hc; [|done]. cbn [mbind option_bind]. intros [= <- <-].
    by eapply capture_acted.
  - destruct d as [|y d].
    + intros [= <- <-]. rewrite offer_grip. apply acted_same; auto.
    + destruct (converge_step _ _ s) as [ys|]; [|done]. cbn [mbind option_bind]. intros [= <- <-]. apply acted_same; auto.
Qed.

Lemma cleanup_step_acted ch e s e' s' : cleanup_step ch e s = Some (e', s') → acted (era_grip e) s (era_grip e') s'.
Proof.
  unfold cleanup_step, era_grip at 1. destruct (er_owner e) as [|d|d| |p sp|r|d r|r| |y|y d pc|y d|y d|] eqn:Ho; try done.
  - intros [= <- <-]. apply acted_same; auto.
  - destruct pc as [| | | |r].
    5: { intros [= <- <-]. apply acted_same; auto. }
    all: destruct (dispose_step _ _ _ s) as [[pc' s1]|] eqn:Hs; [|done]; cbn [mbind option_bind]; intros [= <- <-].
    all: by eapply dispose_step_acted.
  - destruct (capture_dependents _ _ s) as [[ys s1]|] eqn:Hc; [|done]. cbn [mbind option_bind]. intros [= <- <-].
    by eapply capture_acted.
  - destruct d as [|z d]; [intros [= <- <-]; apply acted_same; auto|].
    destruct (converge_step _ _ s) as [ys|]; [|done]. cbn [mbind option_bind]. intros [= <- <-]. apply acted_same; auto.
Qed.

(** ** Restart and update *)

Lemma restart_commit_acted c s c' s' :
  ct_owner c = CoNone → ct_caller c = CtHeld → restart_commit c s = Some (c', s') →
  acted (Some (ct_target c, false)) s (control_grip c') s'.
Proof.
  intros Ho Hc. unfold restart_commit, control_grip. destruct (fiber_at_addr s _) as [f|]; [|done]. cbn [mbind option_bind].
  destruct (negb _); [intros [= <- <-]; cbn; rewrite Ho; by apply acted_release|].
  destruct (do _ s) as [s1|] eqn:H1; [|done]. cbn [mbind option_bind]. intros [= <- <-].
  eapply acted_do; [exact H1|done|done|done|free_step|by intros y []|left]. split; [|done]. by intros y [].
Qed.

Lemma update_commit_acted change c s c' s' :
  ct_owner c = CoNone → ct_caller c = CtHeld → update_commit change c s = Some (c', s') →
  acted (Some (ct_target c, false)) s (control_grip c') s'.
Proof.
  intros Ho Hc. unfold update_commit, control_grip. destruct (fiber_at_addr s _) as [f|]; [|done]. cbn [mbind option_bind].
  destruct (negb _); [intros [= <- <-]; cbn; rewrite Ho; by apply acted_release|].
  destruct (do _ s) as [s1|] eqn:H1; [|done]. cbn [mbind option_bind].
  destruct (commit_change _ _ _ _) as [[[o|] seals] next]; [|done].
  destruct (do _ (put_seals _ s1)) as [s2|] eqn:H2; [|done]. cbn [mbind option_bind]. intros [= <- <-]. cbn.
  destruct (do_step _ _ _ H1) as (Hs1 & Hh1 & _). destruct (do_step _ _ _ H2) as (Hs2 & Hh2 & _). split.
  - left. by rewrite Hh2.
  - eapply (ran_two _ _ _ s s1 s2); [exact H1|exact Hs2|done|free_step|free_step|].
    left. intros op y. rewrite !elem_of_cons. intros [->|[->|[]%elem_of_nil]]; by intros [].
  - intros y Hidle Hy. specialize (Hidle Hy).
    eapply step_idle; [exact Hs2|by intros []|]. eapply step_idle; [exact Hs1|by intros []|done].
Qed.

Lemma control_step_acted ch c s c' s' :
  control_ok c → control_step ch c s = Some (c', s') → acted (control_grip c) s (control_grip c') s'.
Proof.
  unfold control_ok, control_step, control_grip at 1. destruct (ct_caller c) as [| | | | | |r|] eqn:Hc; [..|done|done]; intros Hok.
  - rewrite Hok. destruct (fiber_at_addr s _) as [f|]; [|done]. cbn [mbind option_bind].
    destruct (ct_kind c); [destruct (restart_admit _ _)|destruct (update_admit _ _ _ _)]; intros [= <- <-];
      unfold control_grip; cbn; rewrite Hok; apply acted_same; auto.
  - destruct Hok as [Hok [change Hk]]. rewrite Hok, Hk. destruct (ch_chain ch) as [[input|]|]; intros [= <- <-];
      unfold control_grip; cbn; rewrite Hok; apply acted_same; auto.
  - rewrite Hok. destruct (slot_free _ s) eqn:Hfree; [|done]. intros [= <- <-]. unfold control_grip. cbn. rewrite Hok. by apply acted_claim.
  - rewrite Hok. destruct (ct_kind c) as [|change]; [by apply restart_commit_acted|by apply update_commit_acted].
  - destruct Hok as [m Hok]. rewrite Hok. intros [= <- <-]. unfold control_grip. cbn. rewrite Hok. apply acted_same; auto.
  - destruct (ct_owner c) as [|m|m|m|o] eqn:Ho; try done. intros [= <- <-]. unfold control_grip. cbn. rewrite Ho. apply acted_same; auto.
Qed.

Lemma control_owner_acted ch c s c' s' :
  control_owner_step ch c s = Some (c', s') → acted (control_grip c) s (control_grip c') s'.
Proof.
  unfold control_owner_step, control_grip at 1. destruct (ct_owner c) as [|m|m|m|o] eqn:Ho; try done.
  - destruct (ct_caller c) eqn:Hc; try done; intros [= <- <-]; apply acted_same; auto.
  - destruct (do _ s) as [s1|] eqn:H1; [|done]. cbn [mbind option_bind]. intros [= <- <-].
    eapply acted_do; [exact H1|done|done|done|own_step|by intros y []|by right].
  - destruct (fiber_at_addr s _) as [f|]; [|done]. cbn [mbind option_bind]. destruct (bool_decide _) eqn:Hd; [|done].
    apply bool_decide_eq_true_1 in Hd. destruct (ch_drift ch); intros [= <- <-]; [|by apply acted_release].
    split; [by left|by apply ran_nil|]. intros y _. by intros [= <-].
Qed.

Lemma control_drop_acted c c' s : control_ok c → control_drop c = Some c' → acted (control_grip c) s (control_grip c') s.
Proof.
  unfold control_ok, control_drop, control_grip. destruct (ct_caller c) as [| | | | | |r|] eqn:Hc; try done; intros Hok [= <-]; cbn.
  - rewrite Hok. apply acted_same; auto.
  - destruct Hok as [-> _]. apply acted_same; auto.
  - rewrite Hok. apply acted_same; auto.
  - destruct (ct_owner c); apply acted_same; auto.
Qed.

(** ** Bulk removal *)

Lemma next_member_grip r rest : rm_pc r = RmMembers rest DpStart → removal_grip r = None.
Proof. unfold removal_grip. intros ->. by destruct rest. Qed.

Lemma removal_start_acted ch r s r' s' : removal_start ch r s = Some (r', s') → acted (removal_grip r) s (removal_grip r') s'.
Proof.
  unfold removal_start, removal_grip at 1. destruct (rm_pc r); try done. destruct (detach_for_removal _ _ _) as [[[[g|]|x] reg]|]; [| | |done];
    cbn [mbind option_bind].
  - destruct (do _ s) as [s1|] eqn:H1; [|done]. cbn [mbind option_bind]. intros [= <- <-]. erewrite next_member_grip by done.
    eapply acted_do; [exact H1|done|done|done|free_step|by intros y []|by right].
  - intros [= <- <-]. apply acted_same; auto.
  - intros [= <- <-]. apply acted_same; auto.
Qed.

Lemma dispose_all_acted r s r' s' : dispose_all_step r s = Some (r', s') → acted (removal_grip r) s (removal_grip r') s'.
Proof.
  unfold dispose_all_step, removal_grip at 1. destruct (rm_pc r) as [|[|y rest] pc|o]; try done.
  - destruct (rm_group r) as [g|]; [|done]. cbn [mbind option_bind]. destruct (rg_groups _ !! _); [|done]. cbn [mbind option_bind].
    destruct (bool_decide _); [|done]. destruct (do _ s) as [s1|] eqn:H1; [|done]. cbn [mbind option_bind]. intros [= <- <-].
    eapply acted_do; [exact H1|done|done|done|free_step|by intros y []|by right].
  - destruct pc as [| | | |o].
    5: { intros [= <- <-]. erewrite next_member_grip by done. apply acted_same; auto. }
    all: destruct (dispose_step _ _ _ s) as [[pc' s1]|] eqn:Hs; [|done]; cbn [mbind option_bind]; intros [= <- <-]; by eapply dispose_step_acted.
Qed.

(** ** Any thread *)

Lemma caller_of_acted ch t s t' s' :
  thread_ok (sy_world s) t → caller_of ch t s = Some (t', s') → acted (held t) s (held t') s'.
Proof.
  intros Ht. destruct t as [ctx p pc|pc|x pc|e|c|r|]; cbn [caller_of held]; [| | | | | |done].
  - destruct (spawn_step _ _ _ _ _ s) as [[pc' s1]|] eqn:Hs; [|done]. intros [= <- <-]. by eapply spawn_step_acted.
  - destruct (guard_step _ s) as [[pc' s1]|] eqn:Hs; [|done]. intros [= <- <-]. by eapply guard_step_acted.
  - destruct (dispose_step _ _ _ s) as [[pc' s1]|] eqn:Hs; [|done]. intros [= <- <-]. by eapply dispose_step_acted.
  - destruct (caller_step _ _ s) as [[e' s1]|] eqn:Hs; [|done]. intros [= <- <-]. eapply caller_step_acted; [apply Ht|done].
  - destruct (control_step _ _ s) as [[c' s1]|] eqn:Hs; [|done]. intros [= <- <-]. by eapply control_step_acted.
  - destruct (removal_start _ _ s) as [[r' s1]|] eqn:Hs; [|done]. intros [= <- <-]. by eapply removal_start_acted.
Qed.

Lemma owner_of_acted ch t s t' s' : owner_of ch t s = Some (t', s') → acted (held t) s (held t') s'.
Proof.
  destruct t as [ctx p pc|pc|x pc|e|c|r|]; cbn [owner_of held]; try done.
  - destruct (owner_step ch e s) as [[e' s1]|] eqn:Hs.
    + intros [= <- <-]. by eapply owner_step_acted.
    + destruct (cleanup_step ch e s) as [[e' s1]|] eqn:Hs'; [|done]. intros [= <- <-]. by eapply cleanup_step_acted.
  - destruct (control_owner_step _ _ s) as [[c' s1]|] eqn:Hs; [|done]. intros [= <- <-]. by eapply control_owner_acted.
  - destruct (dispose_all_step _ s) as [[r' s1]|] eqn:Hs; [|done]. intros [= <- <-]. by eapply dispose_all_acted.
Qed.

Lemma drop_of_acted t s t' s' :
  thread_ok (sy_world s) t → drop_of t s = Some (t', s') → acted (held t) s (held t') s'.
Proof.
  intros Ht. destruct t as [ctx p pc|pc|x pc|e|c|r|]; cbn [drop_of held]; try done.
  - destruct (spawn_drop pc s) as [[g s1]|] eqn:Hs; [|done]. intros [= <- <-]. pose proof (spawn_drop_acted _ _ _ _ Hs) as H. by destruct g.
  - destruct pc; try done; intros [= <- <-]; apply acted_same; auto.
  - destruct (caller_drop e) as [e'|] eqn:Hs; [|done]. intros [= <- <-]. by apply caller_drop_acted.
  - destruct (control_drop c) as [c'|] eqn:Hs; [|done]. intros [= <- <-]. by apply control_drop_acted.
  - destruct r as [key g []]; try done. intros [= <- <-]. apply acted_same; auto.
Qed.

(** * The invariant *)

Record slots_ok (s : System) : Prop := {
  sl_held : ∀ i t x, sy_threads s !! i = Some t → holding (held t) = Some x → x ∈ sy_holds s;
  sl_one : ∀ i j t u x, sy_threads s !! i = Some t → sy_threads s !! j = Some u →
    holding (held t) = Some x → holding (held u) = Some x → i = j;
  sl_idle : ∀ i t x, sy_threads s !! i = Some t → held t = Some (x, false) → wd_drivers (sy_world s) !! x = None;
  sl_told : told (λ _, False) (sy_world s);
}.

Lemma starts_claims op x : starts op x → claims_slot op x.
Proof. by destruct op. Qed.

(** What nobody else starts does not run. *)
Lemma ran_idle g s s' x :
  ran g s s' → x ∈ sy_holds s → holding g ≠ Some x → wd_drivers (sy_world s) !! x = None → wd_drivers (sy_world s') !! x = None.
Proof.
  intros (ops & Hr & Hp & _) Hx Hg. assert (∀ op, op ∈ ops → ¬ starts op x) as Hn.
  { intros op Hop Hst%starts_claims. by destruct (Hp op Hop x Hst). }
  clear Hp. revert Hr Hn. generalize (sy_world s) as w. induction ops as [|op ops IH]; intros w; cbn [run]; [by intros [= <-]|].
  destruct (step op w) as [w1|] eqn:Hs; [|done]. cbn [mbind option_bind]. intros Hr Hn Hd.
  eapply (IH w1); [done|intros; apply Hn; by right|]. eapply step_idle; [done|apply Hn; by left|done].
Qed.

Lemma ran_told g s s' : world_ok (sy_world s) → ran g s s' → told (λ _, False) (sy_world s) → told (λ _, False) (sy_world s').
Proof.
  intros Hok (ops & Hr & _ & [Hn|(x & owns & ->)]).
  - revert Hok Hr Hn. generalize (sy_world s) as w. induction ops as [|op ops IH]; intros w Hok; cbn [run]; [by intros [= <-]|].
    destruct (step op w) as [w1|] eqn:Hs; [|done]. cbn [mbind option_bind]. intros Hr Hn Ht.
    eapply (IH w1); [by eapply step_ok|done|intros o y Hin; apply Hn; by right|].
    eapply step_told; [exact Hok|exact Hs| |done]. intros y. apply Hn. by left.
  - cbn [run] in Hr. destruct (step _ (sy_world s)) as [w1|] eqn:H1; [|done]. cbn [mbind option_bind] in Hr.
    destruct (step _ w1) as [w2|] eqn:H2; [|done]. injection Hr as <-. by eapply taken_told.
Qed.

(** ** It is kept *)

Lemma thread_slots_ok i t t' s s' :
  sys_ok s → slots_ok s → sy_threads s !! i = Some t → sy_threads s' = sy_threads s → acted (held t) s (held t') s' →
  slots_ok (set_thread i t' s').
Proof.
  intros Hsys [Hh Ho Hi Ht] Hti Hth [Hm Hr Hk]. pose proof (sb_world _ (so_base _ Hsys)) as Hok.
  assert (∀ j u x, j ≠ i → sy_threads s !! j = Some u → holding (held u) = Some x → holding (held t) ≠ Some x) as Hother
    by (intros j u x Hne Hj Hu Htx; apply Hne; by eapply Ho).
  split.
  - intros j u x. cbn. rewrite Hth. intros [[<- <-]|[Hne Hj]]%lookup_insert_Some Hx; destruct Hm as [[-> Heq]|[(y & _ & _ & -> & Heq)|(y & Heq & -> & Hg)]].
    + eapply Hh; [exact Hti|congruence].
    + set_solver.
    + by rewrite Hg in Hx.
    + by apply (Hh j u).
    + apply elem_of_union_r. by apply (Hh j u).
    + pose proof (Hh _ _ _ Hj Hx). assert (y ≠ x) by (intros ->; by eapply Hother). set_solver.
  - assert (∀ j u x, i ≠ j → sy_threads s !! j = Some u → holding (held t') = Some x → holding (held u) ≠ Some x) as Hnew.
    { intros j u x Hne Hj Hx Hu. destruct Hm as [[_ Heq]|[(y & _ & Hy & _ & Heq)|(y & _ & _ & Hg)]].
      - by eapply (Hother j u x); [|..|congruence].
      - pose proof (Hh _ _ _ Hj Hu). assert (y = x) as -> by congruence. done.
      - by rewrite Hg in Hx. }
    intros j k u v x. cbn. rewrite Hth.
    intros [[<- <-]|[Hj1 Hj]]%lookup_insert_Some [[<- <-]|[Hk1 Hk']]%lookup_insert_Some Hu Hv; [done| | |by eapply Ho].
    + by destruct (Hnew k v x Hk1 Hk' Hu).
    + by destruct (Hnew j u x Hj1 Hj Hv).
  - intros j u x. cbn. rewrite Hth. intros [[<- <-]|[Hne Hj]]%lookup_insert_Some Hx.
    + apply Hk; [|done]. by apply (Hi i t).
    + assert (holding (held u) = Some x) as Hux by (by rewrite Hx). eapply ran_idle; [exact Hr|by apply (Hh j u)|by apply (Hother j u)|by apply (Hi j u)].
  - by eapply ran_told.
Qed.

(** A step of no thread. *)
Lemma quiet_slots_ok s s' :
  sys_ok s → slots_ok s → sy_threads s' = sy_threads s → sy_holds s' = sy_holds s → ran None s s' → slots_ok s'.
Proof.
  intros Hsys [Hh Ho Hi Ht] Hth Hho Hr. pose proof (sb_world _ (so_base _ Hsys)) as Hok. split.
  - intros i t x. rewrite Hth, Hho. apply Hh.
  - intros i j t u x. rewrite Hth. apply Ho.
  - intros i t x. rewrite Hth. intros Hti Hx. assert (holding (held t) = Some x) as Hux by (by rewrite Hx).
    eapply ran_idle; [exact Hr|by apply (Hh i t)|done|by apply (Hi i t)].
  - by eapply ran_told.
Qed.

Lemma start_slots_ok i t s s' : slots_ok s → start i t s = Some s' → held t = None → slots_ok s'.
Proof.
  intros [Hh Ho Hi Ht]. unfold start. destruct (sy_threads s !! i) eqn:Hn; [done|]. intros [= <-] Hg. split; [..|done].
  - intros j u x. cbn. intros [[<- <-]|[_ Hj]]%lookup_insert_Some; [by rewrite Hg|by apply (Hh j u)].
  - intros j k u v x. cbn. intros [[<- <-]|[_ Hj]]%lookup_insert_Some [[<- <-]|[_ Hk]]%lookup_insert_Some; rewrite ?Hg; try done. by apply (Ho j k u v).
  - intros j u x. cbn. intros [[<- <-]|[_ Hj]]%lookup_insert_Some; [by rewrite Hg|by apply (Hi j u)].
Qed.

Lemma free_op_ran op s s' : free_op op s = true → do op s = Some s' → ran None s s' ∧ sy_holds s' = sy_holds s ∧ sy_threads s' = sy_threads s.
Proof.
  intros Hf Hd. destruct (do_step _ _ _ Hd) as (_ & Hh & Hth). split; [|done]. eapply ran_one; [exact Hd|done| |].
  - intros x Hx. right. destruct op as [| | |y m o| | | | | |y []| | | | | | | | | | |]; cbn in Hf, Hx; try done. subst.
    apply andb_true_iff in Hf as [_ Hf]. by apply bool_decide_eq_true_1 in Hf.
  - intros x Hx. by destruct op as [| | | | | | | | |y []| | | | | | | | | | |].
Qed.

Section reachable.
Variable input_type : TypeId → TypeId.

(** What any step is: one of no thread, the start of one, or one of a thread. *)
Inductive stepping (s s' : System) : Prop :=
| step_quiet (Hr : ran None s s') (Hh : sy_holds s' = sy_holds s) (Ht : sy_threads s' = sy_threads s)
| step_start i t (Hs : start i t s = Some s') (Hg : held t = None)
    (Hc : ∀ c, t = ThControl c → ct_owner c = CoNone ∧ ∃ f, fiber_at_addr s (ct_target c) = Some f ∧ f_installed f = true)
    (Hrm : ∀ r, t = ThRemove r → rm_group r = None)
| step_thread i t t' s1 (Hi : sy_threads s !! i = Some t) (Ha : acted (held t) s (held t') s1) (Ht : sy_threads s1 = sy_threads s)
    (Hs : s' = set_thread i t' s1)
    (Hc : ∀ c', t' = ThControl c' → ∃ c, t = ThControl c ∧
      ((∃ ch, control_step ch c s = Some (c', s1)) ∨ (∃ ch, control_owner_step ch c s = Some (c', s1)) ∨
       control_drop c = Some c' ∧ s1 = s))
    (Hrm : ∀ r', t' = ThRemove r' → ∃ r, t = ThRemove r ∧
      ((∃ ch, removal_start ch r s = Some (r', s1)) ∨ dispose_all_step r s = Some (r', s1))).

(** A thread stays of its kind. *)
Ltac same_kind Hs :=
  cbn in Hs; try done; match type of Hs with ?o ≫= _ = _ => destruct o as [[]|] eqn:?; cbn in Hs; by simplify_eq end.

Lemma caller_of_control ch t s c' s1 :
  caller_of ch t s = Some (ThControl c', s1) → ∃ c, t = ThControl c ∧ control_step ch c s = Some (c', s1).
Proof.
  intros Hs. destruct t as [ctx p pc|pc|x pc|e|c|r|]; [same_kind Hs..| |same_kind Hs|done].
  exists c. split; [done|]. cbn in Hs. destruct (control_step ch c s) as [[]|]; by simplify_eq/=.
Qed.

Lemma caller_of_removal ch t s r' s1 :
  caller_of ch t s = Some (ThRemove r', s1) → ∃ r, t = ThRemove r ∧ removal_start ch r s = Some (r', s1).
Proof.
  intros Hs. destruct t as [ctx p pc|pc|x pc|e|c|r|]; [same_kind Hs..| |done].
  exists r. split; [done|]. cbn in Hs. destruct (removal_start ch r s) as [[]|]; by simplify_eq/=.
Qed.

Lemma owner_of_control ch t s c' s1 :
  owner_of ch t s = Some (ThControl c', s1) → ∃ c, t = ThControl c ∧ control_owner_step ch c s = Some (c', s1).
Proof.
  intros Hs. destruct t as [ctx p pc|pc|x pc|e|c|r|]; try (by same_kind Hs).
  exists c. split; [done|]. cbn in Hs. destruct (control_owner_step ch c s) as [[]|]; by simplify_eq/=.
Qed.

Lemma owner_of_removal ch t s r' s1 :
  owner_of ch t s = Some (ThRemove r', s1) → ∃ r, t = ThRemove r ∧ dispose_all_step r s = Some (r', s1).
Proof.
  intros Hs. destruct t as [ctx p pc|pc|x pc|e|c|r|]; try (by same_kind Hs).
  exists r. split; [done|]. cbn in Hs. destruct (dispose_all_step r s) as [[]|]; by simplify_eq/=.
Qed.

Lemma drop_of_kind t s t' s1 :
  drop_of t s = Some (t', s1) → (∀ c', t' = ThControl c' → ∃ c, t = ThControl c ∧ control_drop c = Some c' ∧ s1 = s) ∧ (∀ r', t' ≠ ThRemove r').
Proof.
  intros Hs. destruct t as [ctx p pc|pc|x pc|e|c|[key g []]|]; cbn in Hs; try done.
  - destruct (spawn_drop pc s) as [[[g|] ?]|]; by simplify_eq/=.
  - destruct pc; by simplify_eq/=.
  - destruct (caller_drop e); by simplify_eq/=.
  - destruct (control_drop c) as [c1|] eqn:Hc; [|done]. simplify_eq/=. split; [|done]. intros c' [= ->]. by exists c.
  - by simplify_eq/=.
Qed.

Lemma sys_step_stepping ev s s' : sys_ok s → sys_step input_type ev s = Some s' → stepping s s'.
Proof.
  intros Hok. pose proof (so_base _ Hok) as Hb. destruct ev as [op|i ctx p input over|i x|i x c input|i x|i x c input|i key|i ch|i ch|i]; cbn [sys_step].
  - destruct (free_op op s) eqn:Hf; [|done]. intros Hd. destruct (free_op_ran _ _ _ Hf Hd) as (? & ? & ?). by apply step_quiet.
  - intros Hst. by eapply step_start.
  - destruct (fiber_at_addr s x); [|done]. intros Hst. by eapply step_start.
  - destruct (fiber_at_addr s x); [|done]. intros Hst. by eapply step_start.
  - unfold start_control. destruct (fiber_at_addr s x) as [f|] eqn:Hx; [|done]. cbn [mbind option_bind]. destruct (f_installed f) eqn:Hin; [|done].
    intros Hst. eapply step_start; [exact Hst|done| |done]. intros c [= <-]. split; [done|by exists f].
  - unfold start_control. destruct (fiber_at_addr s x) as [f|] eqn:Hx; [|done]. cbn [mbind option_bind]. destruct (f_installed f) eqn:Hin; [|done].
    intros Hst. eapply step_start; [exact Hst|done| |done]. intros c' [= <-]. split; [done|by exists f].
  - intros Hst. eapply step_start; [exact Hst|done|done|]. by intros r [= <-].
  - destruct (sy_threads s !! i) as [t|] eqn:Hi; [|done]. cbn [mbind option_bind].
    destruct (caller_of ch t s) as [[t' s1]|] eqn:Hs; [|done]. intros [= <-]. pose proof (so_threads _ Hok _ _ Hi) as Ht.
    eapply step_thread; [exact Hi|by eapply caller_of_acted|by apply (caller_of_ok _ _ _ _ _ Hb Ht Hs)|done| |].
    + intros c' ->. destruct (caller_of_control _ _ _ _ _ Hs) as (c & -> & Hc). exists c. split; [done|left]. by exists ch.
    + intros r' ->. destruct (caller_of_removal _ _ _ _ _ Hs) as (r & -> & Hc). exists r. split; [done|left]. by exists ch.
  - destruct (sy_threads s !! i) as [t|] eqn:Hi; [|done]. cbn [mbind option_bind].
    destruct (owner_of ch t s) as [[t' s1]|] eqn:Hs; [|done]. intros [= <-]. pose proof (so_threads _ Hok _ _ Hi) as Ht.
    eapply step_thread; [exact Hi|by eapply owner_of_acted|by apply (owner_of_ok _ _ _ _ _ Hb Ht Hs)|done| |].
    + intros c' ->. destruct (owner_of_control _ _ _ _ _ Hs) as (c & -> & Hc). exists c. split; [done|right; left]. by exists ch.
    + intros r' ->. destruct (owner_of_removal _ _ _ _ _ Hs) as (r & -> & Hc). exists r. split; [done|by right].
  - destruct (sy_threads s !! i) as [t|] eqn:Hi; [|done]. cbn [mbind option_bind].
    destruct (drop_of t s) as [[t' s1]|] eqn:Hs; [|done]. intros [= <-]. pose proof (so_threads _ Hok _ _ Hi) as Ht.
    destruct (drop_of_kind _ _ _ _ Hs) as [Hc Hr].
    eapply step_thread; [exact Hi|by eapply drop_of_acted|by apply (drop_of_ok _ _ _ _ Hb Ht Hs)|done| |].
    + intros c' ->. destruct (Hc c' eq_refl) as (c & -> & ?). exists c. split; [done|by right; right].
    + intros r' ->. by destruct (Hr r').
Qed.

Lemma stepping_slots_ok s s' : sys_ok s → slots_ok s → stepping s s' → slots_ok s'.
Proof.
  intros Hok Hsl [Hr Hh Ht|i t Hs Hg _ _|i t t' s1 Hi Ha Ht -> _ _].
  - by eapply quiet_slots_ok.
  - by eapply start_slots_ok.
  - by eapply thread_slots_ok.
Qed.

Lemma sys_run_slots evs s s' : sys_ok s → slots_ok s → sys_run input_type evs s = Some s' → sys_ok s' ∧ slots_ok s'.
Proof.
  revert s. induction evs as [|ev evs IH]; intros s Hok Hsl; cbn [sys_run]; [by intros [= <-]|].
  destruct (sys_step input_type ev s) as [s1|] eqn:Hs; [|done]. cbn [mbind option_bind]. apply IH.
  - by eapply sys_step_ok.
  - eapply stepping_slots_ok; [done..|by eapply sys_step_stepping].
Qed.

Lemma system_new_slots membership main s : system_new membership main = Some s → slots_ok s.
Proof.
  unfold system_new. destruct (world_new membership main) as [w|] eqn:Hw; [|done]. cbn [mbind option_bind]. intros [= <-].
  unfold world_new in Hw. destruct (Fiber_root main) as [f|] eqn:Hf; [|done]. cbn [mbind option_bind] in Hw. injection Hw as <-.
  assert (fiber_state f = Active) as Hst by (unfold Fiber_root in Hf; by apply set_state_spec in Hf as (p & -> & Hp)).
  split; try done. intros x g _ Hg. change (({[ main := f ]} : gmap Addr Fiber) !! x = Some g) in Hg.
  apply lookup_singleton_Some in Hg as [<- <-]. congruence.
Qed.
End reachable.

Section theorems.
Context (input_type : TypeId → TypeId) (membership main : Addr) (evs : list Event) (s0 s : System)
  (Hnew : system_new membership main = Some s0) (Hrun : sys_run input_type evs s0 = Some s).

Lemma reached_slots : sys_ok s ∧ slots_ok s.
Proof using All. eapply sys_run_slots; [by eapply system_new_ok|by eapply system_new_slots|done]. Qed.


(** A wait for readiness that finds the slot free and no recheck outstanding answers:
    a Fiber at rest is Active, Pending or Disposed, or it is Failed and its failure is
    still parked, whatever creations and teardowns take failures away. *)
Theorem ready_answers (ch : Choice) (y : Addr) (f : Fiber) (Hf : fiber_at_addr s y = Some f)
    (Hfree : slot_free y s = true) (Hsettled : ch_settled ch = true) :
  ready_attempt ch y s = Some (Ok (
    if ch_refused ch y then Err ReadyRecursion
    else match fiber_state f, f_error f with Failed, Some failure => Err (ReadyApply failure) | st, _ => Ok st end)) ∧
  match fiber_state f with Active | Pending | Disposed => True | Failed => f_error f ≠ None | Loading | Unloading => False end.
Proof using All.
  destruct reached_slots as [Hsys [_ _ _ Ht]]. pose proof (sb_world _ (so_base _ Hsys)) as Hok.
  apply slot_free_spec in Hfree as Hd. destruct Hd as [Hd _].
  pose proof (fi_position _ _ _ _ _ _ _ _ _ _ (wo_fibers _ Hok _ _ Hf)) as Hp. rewrite Hd in Hp. destruct Hp as (_ & Hst & _).
  assert (fiber_state f = Failed → f_error f ≠ None) as Herr.
  { apply (Ht y f); [by intros []|done|]. unfold resting. by rewrite Hd. }
  unfold ready_attempt, parked in *. rewrite Hf, Hfree, Hsettled. cbn [mbind option_bind andb].
  destruct (fiber_state f); try naive_solver; try (by destruct (ch_refused ch y)).
  specialize (Herr eq_refl). destruct (ch_refused ch y), (f_error f); done.
Qed.
End theorems.

(** * A restart and an update *)

Definition accepting (input : nat) : Choice :=
  {| ch_refused := λ _, false; ch_drift := false; ch_settled := true; ch_panics := false; ch_chain := Ok (Some input) |}.

(** Fiber 1 commits a cleanup; thread 1 restarts it, thread 2 updates it. *)
Definition working : list Event :=
  creating ++ (EvRuntime (OpEnter 1 (ReqEffect 3 false)) :: replicate 3 (EvRuntime (OpSection 1))).
Definition restarting : list Event := working ++ [EvRestart 1 1; EvUpdate 2 1 5 8] ++ callers 2 1.
Definition marked : list Event := restarting ++ callers 1 1.
Definition restarted : list Event :=
  marked ++ owners 1 1 ++ passes 4 1 ++ [EvRuntime (OpRunEnd 1)] ++ passes 6 1 ++ owners 1 1 ++ callers 1 1.
Definition refilled : list Event :=
  restarted ++ (EvRuntime (OpEnter 1 (ReqEffect 4 false)) :: replicate 3 (EvRuntime (OpSection 1))).
Definition updating : list Event := restarted ++ replicate 3 (EvCaller 2 (accepting 9)).

Definition control_at (s : System) (i : nat) : option Control :=
  match sy_threads s !! i with Some (ThControl c) => Some c | _ => None end.

Lemma control_at_spec s i c : control_at s i = Some c → sy_threads s !! i = Some (ThControl c).
Proof. unfold control_at. destruct (sy_threads s !! i) as [[]|]; try done. by intros [= <-]. Qed.


Example ready_answers_witness :
  ∃ f, fiber_at_addr (sys_sample restarted) 1 = Some f ∧ fiber_state f = Active ∧
    ready_attempt calm_choice 1 (sys_sample restarted) = Some (Ok (Ok Active)).
Proof.
  destruct (fiber_at_addr (sys_sample restarted) 1) as [f|] eqn:Hf; [|by vm_compute in Hf].
  assert (fiber_state <$> Some f = Some Active) as [= Hs] by (rewrite <- Hf; computed).
  exists f. split; [reflexivity|]. split; [exact Hs|].
  destruct (ready_answers S 0 0 restarted (sys_sample []) (sys_sample restarted) sys_sample_new ltac:(computed) calm_choice 1 f
    Hf ltac:(computed) eq_refl) as [H _]. by rewrite Hs in H.
Defined.
