(* ===== verification/HandlesControl.v ===== *)
(** Restart and update (Handles.v) under any interleaving: a committed one owns its Fiber
    until the generation it replaces has left nothing behind, its answer is that of the
    generation it waited for, and neither it nor its owner meets a panic of the
    framework. *)
From S2P Require Import Prelude Axes BTree Lifecycle Journal EventStore Observation Plugin Fiber Registry Deps Services Generation GenerationInv GenerationOps GenerationEffect GenerationProps GenerationAge GenerationPass Handles HandlesProps HandlesSeals HandlesSlots.

(** * What a committed restart or update has *)

Definition settled_state (r : result FiberState PluginFailure) : Prop :=
  match r with Ok st => st = Active ∨ st = Pending | Err _ => True end.

(** Until the answer the target is alive and nobody tears it down; with the answer,
    everything in its journal is newer than the commit. *)
Definition control_holds (w : World) (c : Control) : Prop :=
  let x := ct_target c in
  lasts recorded_at w x ∧
  match ct_owner c with
  | CoNone => True
  | CoInput _ | CoPass _ => lasts spared w x ∧ lasts (issued (ct_since c)) w x
  | CoSettling _ => lasts spared w x ∧ lasts (leaving (ct_since c)) w x
  | CoDone r => lasts (fresh_after (ct_since c)) w x ∧ settled_state r
  end.

Record controls_ok (s : System) : Prop := {
  co_thread : ∀ i c, sy_threads s !! i = Some (ThControl c) → control_holds (sy_world s) c;
  co_root : root_bare (sy_world s);
}.

(** ** Steps of others *)

Section ran.
Context {g : grip} {s s' : System} (Hb : sys_base s) (Hr : ran g s s').

Lemma ran_lasts (P : World → Addr → Fiber → Prop) x :
  (∀ op w w', permitted g s op → world_ok w → endings_ok w → step op w = Some w' → lasts P w x → lasts P w' x) →
  lasts P (sy_world s) x → lasts P (sy_world s') x.
Proof using Hb Hr. destruct Hr as (ops & Hrun & Hp & _), Hb as [Hok He]. intros HP. by apply (run_lasts (permitted g s) P ops). Qed.

Lemma ran_spared x : x ∈ sy_holds s → holding g ≠ Some x → lasts spared (sy_world s) x → lasts spared (sy_world s') x.
Proof using Hb Hr.
  intros Hx Hg. apply ran_lasts. intros op w w' Hp Hok He Hst. eapply step_spared; [done..|]. intros Hc. by destruct (Hp x Hc).
Qed.

Lemma ran_leaving n x : lasts (leaving n) (sy_world s) x → lasts (leaving n) (sy_world s') x.
Proof using Hb Hr. apply ran_lasts. intros op w w' _. apply step_leaving. Qed.

Lemma ran_recorded x : lasts recorded_at (sy_world s) x → lasts recorded_at (sy_world s') x.
Proof using Hb Hr. apply ran_lasts. intros op w w' _ Hok _. by apply step_recorded. Qed.

Lemma ran_later : later (λ _, True) (sy_world s) (sy_world s').
Proof using Hb Hr.
  destruct Hr as (ops & Hrun & _), Hb as [Hok _]. clear Hb Hr. revert Hok Hrun. generalize (sy_world s) as w.
  induction ops as [|op ops IH]; intros w Hok; cbn [run]; [by intros [= <-]|].
  destruct (step op w) as [w1|] eqn:Hs; [|done]. cbn [mbind option_bind]. intros Hrun. transitivity w1.
  - eapply later_weaken; [|by eapply elapses_later, step_elapses]. done.
  - eapply IH; [by eapply step_ok|done].
Qed.

Lemma ran_issued n x : lasts (issued n) (sy_world s) x → lasts (issued n) (sy_world s') x.
Proof using Hb Hr. eapply issued_later, ran_later. Qed.
Lemma ran_fresh n x : lasts (fresh_after n) (sy_world s) x → lasts (fresh_after n) (sy_world s') x.
Proof using Hb Hr. eapply fresh_later, ran_later. Qed.

(** A thread that holds what the step does not. *)
Lemma ran_control c :
  (∀ x, holding (control_grip c) = Some x → x ∈ sy_holds s ∧ holding g ≠ Some x) →
  control_holds (sy_world s) c → control_holds (sy_world s') c.
Proof using Hb Hr.
  intros Hg [Hrec Hc]. split; [by apply ran_recorded|]. unfold control_grip in Hg.
  destruct (ct_owner c) as [|m|m|m|o]; [done|..]; destruct Hc as [H1 H2]; try destruct (Hg _ eq_refl).
  - split; [by apply ran_spared|by apply ran_issued].
  - split; [by apply ran_spared|by apply ran_issued].
  - split; [by apply ran_spared|by apply ran_leaving].
  - split; [by apply ran_fresh|done].
Qed.
End ran.

(** ** Its own steps *)

Lemma spared_at w x f : x < root_next (wd_root w) → world_fibers w !! x = Some f → f_alive f = true → wd_drivers w !! x = None → lasts spared w x.
Proof. intros Hx Hf Ha Hd. split; [done|]. intros g Hg. split; [congruence|]. rewrite Hd. by intros d [=]. Qed.

Lemma control_step_holds ch c s c' s' :
  sys_base s → control_ok c → (control_grip c = Some (ct_target c, false) → wd_drivers (sy_world s) !! ct_target c = None) →
  control_holds (sy_world s) c → control_step ch c s = Some (c', s') → control_holds (sy_world s') c'.
Proof.
  intros Hb Hok Hidle Hh Hs. unfold control_ok, control_step in *. destruct (ct_caller c) as [| | | | | |r|] eqn:Hc; [..|done|done].
  - destruct Hh as [Hrec _]. destruct (fiber_at_addr s _) as [f|]; [|done]. cbn [mbind option_bind] in Hs.
    destruct (ct_kind c); [destruct (restart_admit _ _)|destruct (update_admit _ _ _ _)]; injection Hs as <- <-;
      (split; [done|]); cbn; by rewrite Hok.
  - destruct Hok as [Hok [change Hk]], Hh as [Hrec _]. rewrite Hk in Hs. destruct (ch_chain ch) as [[input|]|]; injection Hs as <- <-;
      (split; [done|]); cbn; by rewrite Hok.
  - destruct Hh as [Hrec _]. destruct (slot_free _ s); [|done]. injection Hs as <- <-. split; [done|]. cbn. by rewrite Hok.
  - specialize (Hidle ltac:(unfold control_grip; by rewrite Hok, Hc)). destruct Hh as [Hrec _].
    assert (∀ f, fiber_at_addr s (ct_target c) = Some f → f_alive f = true → lasts spared (sy_world s) (ct_target c) ∧
      lasts (issued (dl_sn (f_journal f))) (sy_world s) (ct_target c)) as Hstart.
    { intros f Hf Ha. pose proof (allocated_fiber _ _ _ Hb Hf) as Hx. split; [by eapply spared_at|].
      eapply lasts_fiber; [done..|]. unfold issued. lia. }
    destruct (ct_kind c) as [|change] eqn:Hk.
    + unfold restart_commit in Hs. destruct (fiber_at_addr s (ct_target c)) as [f|] eqn:Hf; [|done]. cbn [mbind option_bind] in Hs.
      destruct (f_alive f) eqn:Ha; cbn [negb] in Hs; [|injection Hs as <- <-; split; [done|]; cbn; by rewrite Hok].
      destruct (do _ s) as [s1|] eqn:H1; [|done]. cbn [mbind option_bind] in Hs. injection Hs as <- <-.
      assert (ran None s s1) as Hr by (eapply ran_one; [exact H1|done|free_step|by intros y []]).
      destruct (Hstart f eq_refl Ha) as [H2 H3]. split; [by eapply ran_recorded|]. cbn.
      destruct (do_step _ _ _ H1) as (Hst & _). split; [|by eapply ran_issued].
      eapply step_spared; [apply (sb_world _ Hb)|apply (sb_endings _ Hb)|exact Hst|by intros []|done].
    + unfold update_commit in Hs. destruct (fiber_at_addr s (ct_target c)) as [f|] eqn:Hf; [|done]. cbn [mbind option_bind] in Hs.
      destruct (f_alive f) eqn:Ha; cbn [negb] in Hs; [|injection Hs as <- <-; split; [done|]; cbn; by rewrite Hok].
      destruct (do _ s) as [s1|] eqn:H1; [|done]. cbn [mbind option_bind] in Hs.
      destruct (commit_change _ _ _ _) as [[[o|] seals] next]; [|done].
      destruct (do _ (put_seals _ s1)) as [s2|] eqn:H2; [|done]. cbn [mbind option_bind] in Hs. injection Hs as <- <-.
      destruct (do_step _ _ _ H1) as (Hst1 & _). destruct (do_step _ _ _ H2) as (Hst2 & _).
      assert (ran None s s2) as Hr.
      { eapply (ran_two _ _ _ s s1 s2); [exact H1|exact Hst2|done|free_step|free_step|].
        left. intros op y. rewrite !elem_of_cons. intros [->|[->|[]%elem_of_nil]]; by intros []. }
      destruct (Hstart f eq_refl Ha) as [H3 H4]. split; [by eapply ran_recorded|]. cbn. split; [|by eapply ran_issued].
      destruct (do_spec _ _ _ Hb H1) as (Hb1 & _).
      eapply step_spared; [apply (sb_world _ Hb1)|apply (sb_endings _ Hb1)|exact Hst2|by intros []|].
      eapply step_spared; [apply (sb_world _ Hb)|apply (sb_endings _ Hb)|exact Hst1|by intros []|done].
  - injection Hs as <- <-. exact Hh.
  - destruct (ct_owner c) as [|m|m|m|o] eqn:Ho; try done. injection Hs as <- <-. unfold control_holds in *. cbn. by rewrite Ho in *.
Qed.

(** The end of a settle pass of a Fiber that nobody tears down. *)
Lemma pass_answer s x f :
  sys_base s → told (λ _, False) (sy_world s) → fiber_at_addr s x = Some f → f_alive f = true → wd_drivers (sy_world s) !! x = None →
  settled_state (match f_error f with Some failure => Err failure | None => Ok (fiber_state f) end).
Proof.
  intros [Hok _] Ht Hf Ha Hd. pose proof (fi_position _ _ _ _ _ _ _ _ _ _ (wo_fibers _ Hok _ _ Hf)) as Hp. rewrite Hd in Hp.
  destruct Hp as (_ & Hst & _). destruct (f_error f) eqn:He; [done|]. cbn. unfold parked in Hst.
  destruct Hst as [?|[?|[Hfail|Hdis]]]; [by left|by right|exfalso..].
  - eapply (Ht x f); [by intros []|done|unfold resting; by rewrite Hd|done|done].
  - pose proof (fi_dead _ _ _ _ _ _ _ _ _ _ (wo_fibers _ Hok _ _ Hf) Hdis). congruence.
Qed.

Lemma control_owner_holds ch c s c' s' :
  sys_base s → told (λ _, False) (sy_world s) →
  control_holds (sy_world s) c → control_owner_step ch c s = Some (c', s') → control_holds (sy_world s') c'.
Proof.
  intros Hb Ht [Hrec Hh] Hs. unfold control_owner_step in Hs. destruct (ct_owner c) as [|m|m|m|o] eqn:Ho; try done.
  - destruct (ct_caller c); try done; injection Hs as <- <-; by split.
  - destruct Hh as [Hsp Hn]. destruct (do _ s) as [s1|] eqn:H1; [|done]. cbn [mbind option_bind] in Hs. injection Hs as <- <-.
    destruct (do_step _ _ _ H1) as (Hst & _). destruct (do_spec _ _ _ Hb H1) as (Hb1 & Hl & _). destruct Hb as [Hok He].
    split; [by eapply step_recorded|]. cbn. split.
    + eapply step_spared; [exact Hok|exact He|exact Hst|intros _; by eexists _, _|done].
    + eapply issued_later in Hn; [|exact Hl]. destruct Hn as [Hx Hn]. split; [done|]. intros f Hf. split; [by apply Hn|left].
      cbn [step] in Hst. destruct (world_fibers (sy_world s) !! ct_target c); [|done]. cbn [mbind option_bind] in Hst.
      destruct (_ && _); [|done]. injection Hst as <-. exists (DSettle m false). by rewrite goto_driver.
  - destruct Hh as [Hsp Hn]. destruct (fiber_at_addr s _) as [f|] eqn:Hf; [|done]. cbn [mbind option_bind] in Hs.
    destruct (bool_decide _) eqn:Hd; [|done]. apply bool_decide_eq_true_1 in Hd.
    destruct (proj2 Hsp f Hf) as [Ha _]. destruct (proj2 Hn f Hf) as [Hi Hc]. pose proof (proj1 Hn) as Hx.
    destruct (ch_drift ch); injection Hs as <- <-; (split; [done|]); cbn.
    + split; [done|]. eapply lasts_fiber; [done..|]. exact Hi.
    + split; [|by eapply pass_answer]. eapply lasts_fiber; [done..|]. split; [exact Hi|].
      destruct Hc as [(d & Hd' & _)|?]; [congruence|done].
Qed.

(** ** The invariant *)

Lemma ran_root g s s' : sys_base s → ran g s s' → root_bare (sy_world s) → root_bare (sy_world s').
Proof. intros [Hok _] (ops & Hr & _). by apply (run_bare ops). Qed.

(** A control thread that does not step. *)
Lemma others_control g s s' i c :
  sys_base s → ran g s s' → slots_ok s → controls_ok s → sy_threads s !! i = Some (ThControl c) →
  (∀ x, holding (control_grip c) = Some x → holding g ≠ Some x) → control_holds (sy_world s') c.
Proof.
  intros Hb Hr Hsl Hco Hi Hg. apply (ran_control Hb Hr); [|by eapply co_thread].
  intros x Hx. split; [by apply (sl_held _ Hsl i (ThControl c))|by apply Hg].
Qed.

Lemma stepping_controls_ok s s' : sys_ok s → slots_ok s → controls_ok s → stepping s s' → controls_ok s'.
Proof.
  intros Hok Hsl Hco Hst. pose proof (so_base _ Hok) as Hb.
  destruct Hst as [Hr Hh Ht|i t Hs Hg Hc _|i t t' s1 Hi [Hm Hr Hk] Ht -> Hc _].
  - split; [|by eapply ran_root; [..|apply Hco]]. intros i c. rewrite Ht. intros Hi. by eapply others_control.
  - unfold start in Hs. destruct (sy_threads s !! i) eqn:Hn; [done|]. injection Hs as <-. split; [|apply Hco].
    intros j c. cbn. intros [[<- ->]|[_ Hj]]%lookup_insert_Some; [|by eapply co_thread].
    destruct (Hc c eq_refl) as (Ho & f & Hf & Hin). split; [by eapply lasts_fiber|]. by rewrite Ho.
  - split; [|by eapply (ran_root _ s s1); [..|apply Hco]]. intros j c. cbn. rewrite Ht.
    intros [[<- ->]|[Hne Hj]]%lookup_insert_Some.
    + destruct (Hc c eq_refl) as (c0 & -> & Hcases). pose proof (co_thread _ Hco _ _ Hi) as Hh.
      pose proof (so_threads _ Hok _ _ Hi) as Hcok. cbn in Hcok.
      destruct Hcases as [[ch Hs]|[[ch Hs]|[Hs ->]]].
      * eapply control_step_holds; [done..| |done|exact Hs]. intros Hg. by apply (sl_idle _ Hsl i (ThControl c0)).
      * eapply control_owner_holds; [done|apply Hsl|done|exact Hs].
      * unfold control_drop in Hs. destruct (ct_caller c0); try done; by injection Hs as <-.
    + eapply others_control; [done|exact Hr|done..|]. intros x Hx Hg. apply Hne.
      by eapply (sl_one _ Hsl i j t (ThControl c)).
Qed.

Section reachable.
Variable input_type : TypeId → TypeId.

Lemma sys_run_controls evs s s' :
  sys_ok s → slots_ok s → controls_ok s → sys_run input_type evs s = Some s' → sys_ok s' ∧ slots_ok s' ∧ controls_ok s'.
Proof.
  revert s. induction evs as [|ev evs IH]; intros s Hok Hsl Hco; cbn [sys_run]; [by intros [= <-]|].
  destruct (sys_step input_type ev s) as [s1|] eqn:Hs; [|done]. cbn [mbind option_bind].
  pose proof (sys_step_stepping _ _ _ _ Hok Hs) as Hst. apply IH.
  - by eapply sys_step_ok.
  - by eapply stepping_slots_ok.
  - by eapply stepping_controls_ok.
Qed.

Lemma system_new_controls membership main s : system_new membership main = Some s → controls_ok s.
Proof.
  unfold system_new. destruct (world_new membership main) as [w|] eqn:Hw; [|done]. cbn [mbind option_bind]. intros [= <-].
  unfold world_new in Hw. destruct (Fiber_root main) as [f|] eqn:Hf; [|done]. cbn [mbind option_bind] in Hw. injection Hw as <-.
  split; [done|]. intros g Hg. change (({[ main := f ]} : gmap Addr Fiber) !! main = Some g) in Hg.
  apply lookup_singleton_Some in Hg as [_ <-]. unfold Fiber_root in Hf. by apply set_state_spec in Hf as (p & -> & _).
Qed.
End reachable.

(** ** The commit *)

Lemma restart_commits c s f :
  fiber_at_addr s (ct_target c) = Some f → f_alive f = true →
  ∃ s', restart_commit c s = Some (with_ct_owner (CoPass (target_missing f s)) (with_ct_caller CtAwait (with_ct_since (dl_sn (f_journal f)) c)), s') ∧
    fiber_at_addr s' (ct_target c) = Some (mark_replacing f) ∧ sy_seals s' = sy_seals s.
Proof.
  intros Hf Ha. unfold restart_commit. rewrite Hf. cbn [mbind option_bind]. rewrite Ha. cbn [negb].
  unfold do. cbn [step]. unfold fiber_at_addr in Hf. rewrite Hf. cbn [mbind option_bind].
  eexists. split; [done|]. split; [|done]. by apply on_lookup.
Qed.

(** A Fiber whose source has been consumed is gone. *)
Lemma consumed_completed w e : owner_ok w e → consumed e → lasts completed w (er_source e).
Proof. unfold owner_ok, consumed. destruct (er_owner e); try done; naive_solver. Qed.

(** The seal of a live Fiber still has its behaviour and its input. *)
Lemma live_seal input_type s i c f :
  sys_ok s → seals_ok input_type s → sy_threads s !! i = Some (ThControl c) → fiber_at_addr s (ct_target c) = Some f →
  f_alive f = true → f_installed f = true →
  ∃ st p b old, f_spawn f = Some st ∧ st_plugin st = ct_target c ∧ sy_seals s !! ct_target c = Some p ∧
    tp_state p = Some (b, old) ∧ tp_input_type p = input_type (tp_contract p).
Proof.
  intros Hok Hse Hi Hf Ha Hin. unfold f_installed in Hin. destruct (f_spawn f) as [st|] eqn:Hst; [|done].
  destruct (se_fiber _ _ Hse _ _ _ Hf Hst) as (p & Hp & Hpl & _). destruct (tp_state p) as [[b old]|] eqn:Hn.
  - exists st, p, b, old. split_and!; [done..|]. by eapply se_type.
  - exfalso. destruct (se_moved _ _ Hse _ _ Hp Hn) as (j & e & Hj & Hsrc & Hcons). destruct (so_threads _ Hok _ _ Hj) as [Ho _].
    destruct (consumed_completed _ _ Ho Hcons) as [_ Hl]. rewrite Hsrc in Hl. specialize (Hl f Hf).
    destruct (so_base _ Hok) as [Hw He]. destruct (eo_complete _ He _ _ Hf Hl) as [Hd _].
    pose proof (fi_dead _ _ _ _ _ _ _ _ _ _ (wo_fibers _ Hw _ _ Hf) Hd). congruence.
Qed.

Lemma update_commits change c s f st p old q :
  fiber_at_addr s (ct_target c) = Some f → f_alive f = true → f_spawn f = Some st → sy_seals s !! st_plugin st = Some p →
  swap_input p change = (Ok old, q) → ct_target c ≠ wd_main (sy_world s) →
  ∃ s', update_commit change c s =
      Some (with_ct_owner (CoInput (target_missing f s')) (with_ct_caller CtDropping (with_ct_since (dl_sn (f_journal f)) c)), s') ∧
    fiber_at_addr s' (ct_target c) =
      Some (set_f_spawn (commit_change (sy_seals s) (f_spawn f) change (root_next (wd_root (sy_world s)))).2 (mark_replacing f)) ∧
    sy_seals s' = <[ st_plugin st := q ]> (sy_seals s).
Proof.
  intros Hf Ha Hst Hp Hsw Hm. unfold update_commit. rewrite Hf. cbn [mbind option_bind]. rewrite Ha. cbn [negb].
  unfold do at 2. cbn [step]. unfold fiber_at_addr in Hf. rewrite Hf. cbn [mbind option_bind].
  set (s1 := put_world _ s). change (sy_seals s1) with (sy_seals s).
  change (root_next (wd_root (sy_world s1))) with (root_next (wd_root (sy_world s))).
  unfold commit_change. rewrite Hst, Hp, Hsw. cbn [snd].
  unfold do. cbn [step]. rewrite decide_False by done. unfold commit_input.
  assert (world_fibers (sy_world (put_seals (<[st_plugin st:=q]> (sy_seals s)) s1)) !! ct_target c = Some (mark_replacing f)) as Hf1
    by by apply on_lookup.
  rewrite Hf1. cbn [mbind option_bind f_spawn mark_replacing set_f_replacing]. rewrite Hst. cbn [mbind option_bind fresh_occurrence].
  eexists. split; [done|]. split; [|done]. unfold fiber_at_addr, world_fibers, on, root_heap in *. cbn in *.
  by rewrite lookup_alter_eq, Hf1.
Qed.

(** * Properties *)

Section theorems.
Context (input_type : TypeId → TypeId) (membership main : Addr) (evs : list Event) (s0 s : System)
  (Hnew : system_new membership main = Some s0) (Hrun : sys_run input_type evs s0 = Some s).

Lemma reached_controls : sys_ok s ∧ slots_ok s ∧ controls_ok s.
Proof using All.
  eapply sys_run_controls; [by eapply system_new_ok|by eapply system_new_slots|by eapply system_new_controls|done].
Qed.


(** The commit of a restart or an update never fails: with the slot held it always
    goes through.  A live target is marked as being replaced and gets an owner, and for an
    update its seal keeps the behaviour and takes the final candidate's input under a
    fresh input identity; a dead target is reported as such and nothing changes. *)
Theorem control_commit_succeeds (i : nat) (c : Control) (f : Fiber) (ch : Choice) (Hi : sy_threads s !! i = Some (ThControl c))
    (Hc : ct_caller c = CtHeld) (Hf : fiber_at_addr s (ct_target c) = Some f) :
  ∃ c' s', control_step ch c s = Some (c', s') ∧
    if f_alive f then
      ct_owner c' = match ct_kind c with Restarting => CoPass (target_missing f s) | Updating _ => CoInput (target_missing f s') end ∧
      match ct_kind c with
      | Restarting => fiber_at_addr s' (ct_target c) = Some (mark_replacing f) ∧ sy_seals s' = sy_seals s
      | Updating change => ∃ p b old, sy_seals s !! ct_target c = Some p ∧ tp_state p = Some (b, old) ∧
          sy_seals s' = <[ ct_target c := set_state_cell (Some (b, av_payload (pc_input change))) p ]> (sy_seals s) ∧
          fiber_at_addr s' (ct_target c) =
            Some (set_f_spawn (commit_change (sy_seals s) (f_spawn f) change (root_next (wd_root (sy_world s)))).2 (mark_replacing f))
      end
    else
      ct_caller c' = CtDone (match ct_kind c with Restarting => CrRestart (Err RestartClosed) | Updating _ => CrUpdate (Err AdmissionLost) end) ∧
      sy_world s' = sy_world s ∧ sy_seals s' = sy_seals s ∧ ct_target c ∉ sy_holds s'.
Proof using All.
  destruct reached_controls as (Hok & _ & Hco). destruct (reached_seals _ _ _ _ _ _ Hnew Hrun) as [_ Hse].
  pose proof (so_base _ Hok) as Hb. destruct (proj1 (co_thread _ Hco _ _ Hi)) as [_ Hrec]. specialize (Hrec f Hf).
  unfold control_step. rewrite Hc. destruct (f_alive f) eqn:Ha.
  - destruct (ct_kind c) as [|change] eqn:Hk.
    + destruct (restart_commits c s f Hf Ha) as (s' & -> & Hf' & Hs'). eexists _, s'. split; [done|]. by split_and!.
    + destruct (live_seal input_type s i c f Hok Hse Hi Hf Ha Hrec) as (st & p & b & old & Hst & Hpl & Hp & Hstate & Hty).
      destruct (se_threads _ _ Hse _ _ Hi change Hk) as [Hin Hcon]. destruct (Hcon ltac:(by right; right)) as (p' & Hp' & Hpc).
      assert (p' = p) as -> by congruence.
      assert (swap_input p change = (Ok {| av_type := tp_input_type p; av_payload := old |},
        set_state_cell (Some (b, av_payload (pc_input change))) p)) as Hswap.
      { unfold swap_input. rewrite bool_decide_eq_true_2 by done. cbn [negb].
        rewrite bool_decide_eq_true_2 by (rewrite Hin, Hty; congruence). cbn [negb]. by rewrite Hstate. }
      destruct (update_commits change c s f st p _ _ Hf Ha Hst ltac:(by rewrite Hpl) Hswap) as (s' & -> & Hf' & Hs').
      { intros Hm. pose proof (co_root _ Hco) as Hr. unfold root_bare in Hr. rewrite <- Hm in Hr.
        specialize (Hr f Hf). congruence. }
      eexists _, s'. split; [done|]. split; [done|]. exists p, b, old. rewrite Hpl in Hs'. by split_and!.
  - unfold restart_commit, update_commit. rewrite Hf. cbn [mbind option_bind]. rewrite Ha. cbn [negb].
    destruct (ct_kind c); eexists _, _; (split; [done|]); cbn; (split_and!; [done..|set_solver]).
Qed.

(** A committed restart or update always goes on: its caller destroys the old input, or
    its owner takes its next step, or a pass drives the target, or the answer is there and
    a caller that still waits takes it. *)
Theorem committed_control_goes_on (i : nat) (c : Control) (f : Fiber) (ch : Choice) (Hi : sy_threads s !! i = Some (ThControl c))
    (Hc : ct_owner c ≠ CoNone) (Hf : fiber_at_addr s (ct_target c) = Some f) :
  (ct_caller c = CtDropping ∧ is_Some (control_step ch c s)) ∨ is_Some (control_owner_step ch c s) ∨
  is_Some (wd_drivers (sy_world s) !! ct_target c) ∨
  ∃ r, ct_owner c = CoDone r ∧
    (ct_caller c = CtAwait → control_step ch c s = Some (with_ct_caller (CtDone (control_answer (ct_kind c) r)) c, s)).
Proof using All.
  destruct reached_controls as (Hok & Hsl & Hco). destruct (co_thread _ Hco _ _ Hi) as [[_ Hrec] _]. specialize (Hrec f Hf).
  unfold control_owner_step. destruct (ct_owner c) as [|m|m|m|r] eqn:Ho; [done|..].
  - destruct (ct_caller c) eqn:Hcc; try (right; left; by eexists). left. split; [done|]. unfold control_step. rewrite Hcc. by eexists.
  - right; left. unfold do. cbn [step]. unfold fiber_at_addr in Hf. rewrite Hf. cbn [mbind option_bind].
    rewrite bool_decide_eq_true_2 by (apply (sl_idle _ Hsl i (ThControl c)); [done|]; unfold held, control_grip; by rewrite Ho).
    rewrite Hrec. cbn [andb]. rewrite bool_decide_eq_false_2; [by eexists|]. intros Hm.
    pose proof (co_root _ Hco f) as Hr. rewrite <- Hm in Hr. specialize (Hr Hf). unfold recorded_at, f_installed in Hrec. by rewrite Hr in Hrec.
  - rewrite Hf. cbn [mbind option_bind]. destruct (wd_drivers (sy_world s) !! ct_target c) as [d|] eqn:Hd; [right; right; left; by eexists|].
    right; left. rewrite bool_decide_eq_true_2 by done. destruct (ch_drift ch); by eexists.
  - right; right; right. exists r. split; [done|]. intros Hcc. unfold control_step. by rewrite Hcc, Ho.
Qed.
End theorems.


Example control_commit_succeeds_witness :
  ∃ c f, control_at (sys_sample updating) 2 = Some c ∧ fiber_at_addr (sys_sample updating) 1 = Some f ∧
    ∃ c' s', control_step calm_choice c (sys_sample updating) = Some (c', s') ∧ ct_owner c' = CoInput (target_missing f s').
Proof.
  destruct (control_at (sys_sample updating) 2) as [c|] eqn:He; [|by vm_compute in He].
  destruct (fiber_at_addr (sys_sample updating) 1) as [f|] eqn:Hf; [|by vm_compute in Hf].
  assert (ct_caller <$> Some c = Some CtHeld) as [= Hc] by (rewrite <- He; computed).
  assert (ct_target <$> Some c = Some 1) as [= Hx] by (rewrite <- He; computed).
  assert ((λ c, match ct_kind c with Restarting => false | Updating _ => true end) <$> Some c = Some true) as [= Hk] by (rewrite <- He; computed).
  assert (f_alive <$> Some f = Some true) as [= Ha] by (rewrite <- Hf; computed).
  exists c, f. split; [reflexivity|]. split; [reflexivity|].
  destruct (control_commit_succeeds S 0 0 updating (sys_sample []) (sys_sample updating) sys_sample_new ltac:(computed) 2 c f calm_choice
    (control_at_spec _ _ _ He) Hc ltac:(rewrite Hx; exact Hf)) as (c' & s' & Hs & H).
  exists c', s'. split; [exact Hs|]. rewrite Ha in H. destruct H as [H _]. destruct (ct_kind c); [discriminate Hk|exact H].
Defined.

Example committed_control_goes_on_witness :
  ∃ c, control_at (sys_sample marked) 1 = Some c ∧ ct_owner c = CoPass false ∧
    is_Some (control_owner_step calm_choice c (sys_sample marked)).
Proof.
  destruct (control_at (sys_sample marked) 1) as [c|] eqn:He; [|by vm_compute in He].
  destruct (fiber_at_addr (sys_sample marked) 1) as [f|] eqn:Hf; [|by vm_compute in Hf].
  assert (ct_owner <$> Some c = Some (CoPass false)) as [= Ho] by (rewrite <- He; computed).
  assert (ct_caller <$> Some c = Some CtAwait) as [= Hc] by (rewrite <- He; computed).
  assert (ct_target <$> Some c = Some 1) as [= Hx] by (rewrite <- He; computed).
  exists c. split; [reflexivity|]. split; [exact Ho|].
  destruct (committed_control_goes_on S 0 0 marked (sys_sample []) (sys_sample marked) sys_sample_new ltac:(computed) 1 c f calm_choice
    (control_at_spec _ _ _ He) ltac:(rewrite Ho; discriminate) ltac:(rewrite Hx; exact Hf)) as [[H _]|[H|[[d H]|(r & H & _)]]];
    [congruence|exact H|rewrite Hx in H; by vm_compute in H|congruence].
Defined.
