(* ===== verification/HandlesRemoval.v ===== *)
(** Bulk removal (Handles.v; crates/cordis-core/src/registry.rs) under any interleaving:
    the group that was detached takes no member any more, and when the removal has ended
    nothing is left of any member it froze. *)
From S2P Require Import Prelude Axes BTree Lifecycle Journal EventStore Observation Plugin Fiber Registry Deps Services Generation GenerationInv GenerationOps GenerationEffect GenerationProps GenerationAge GenerationPass GenerationGroups Handles HandlesProps HandlesSlots.

(** Nothing maps to the detached group, and its members are among the frozen ones. *)
Definition group_holds (w : World) (r : Removal) : Prop :=
  ∀ g, rm_group r = Some g → unmapped (registry_of w) (dg_allocation g) ∧
    ∃ group, rg_groups (registry_of w) !! dg_allocation g = Some group ∧ ∀ x, x ∈ pg_fibers group → x ∈ dg_fibers g.

Definition removals_ok (s : System) : Prop := ∀ i r, sy_threads s !! i = Some (ThRemove r) → group_holds (sy_world s) r.

Lemma ran_group g s s' r : sys_base s → ran g s s' → group_holds (sy_world s) r → group_holds (sy_world s') r.
Proof.
  intros Hb (ops & Hr & _) Hh dg Hg. destruct (Hh dg Hg) as (Hu & group & Hgr & Hm).
  pose proof (run_groups _ _ _ (sb_world _ Hb) Hr) as Ha. split; [by eapply groups_age_unmapped|].
  destruct (ga_kept _ _ Ha (dg_allocation dg) ltac:(by exists group)) as [group' Hg']. exists group'. split; [done|].
  destruct (ga_group _ _ Ha _ _ Hu Hg') as (g0 & Hg0 & Hs). assert (g0 = group) as -> by congruence. auto.
Qed.

Lemma removal_start_holds ch r s r' s' :
  sys_base s → removal_ok (sy_world s) r → removal_start ch r s = Some (r', s') → group_holds (sy_world s') r'.
Proof.
  intros Hb Hok. unfold removal_start, removal_ok in *. destruct (rm_pc r); try done.
  destruct (detach_for_removal _ _ _) as [[[[g|]|x] reg]|] eqn:Hd; [| | |done]; cbn [mbind option_bind].
  - destruct (do _ s) as [s1|] eqn:H1; [|done]. cbn [mbind option_bind]. intros [= <- <-]. intros dg [= <-].
    destruct (do_step _ _ _ H1) as (Hst & _). cbn [step] in Hst. unfold stores_of in Hd. rewrite Hd in Hst. cbn [mbind option_bind] in Hst.
    injection Hst as <-. destruct (detached_group _ _ _ _ _ _ (proj1 (wo_registry _ (sb_world _ Hb))) Hd) as (Hu & group & Hg & Hm).
    split; [exact Hu|]. exists group. split; [exact Hg|]. by rewrite Hm.
  - intros [= <- <-] dg. cbn. by rewrite Hok.
  - intros [= <- <-] dg. cbn. by rewrite Hok.
Qed.

Lemma dispose_all_group r s r' s' : dispose_all_step r s = Some (r', s') → rm_group r' = rm_group r.
Proof.
  unfold dispose_all_step. destruct (rm_pc r) as [|[|y rest] pc|o]; try done.
  - destruct (rm_group r) as [g|] eqn:Hg; [|done]. cbn [mbind option_bind]. destruct (rg_groups _ !! _); [|done]. cbn [mbind option_bind].
    destruct (bool_decide _); [|done]. destruct (do _ s); [|done]. cbn [mbind option_bind]. by intros [= <- _].
  - destruct pc; try (by intros [= <- _]).
    all: destruct (dispose_step _ _ _ s) as [[pc' s1]|]; [|done]; cbn [mbind option_bind]; by intros [= <- _].
Qed.

Lemma stepping_removals_ok s s' : sys_ok s → removals_ok s → stepping s s' → removals_ok s'.
Proof.
  intros Hok Hrm Hst. pose proof (so_base _ Hok) as Hb.
  destruct Hst as [Hr Hh Ht|i t Hs Hg _ Hnew|i t t' s1 Hi [Hm Hr Hk] Ht -> _ Hown].
  - intros i r. rewrite Ht. intros Hi. by eapply ran_group, Hrm.
  - unfold start in Hs. destruct (sy_threads s !! i); [done|]. injection Hs as <-. intros j r. cbn.
    intros [[<- ->]|[_ Hj]]%lookup_insert_Some; [|by eapply Hrm]. intros dg. by rewrite (Hnew r eq_refl).
  - intros j r. cbn. rewrite Ht. intros [[<- ->]|[Hne Hj]]%lookup_insert_Some; [|by eapply ran_group, Hrm].
    destruct (Hown r eq_refl) as (r0 & -> & [[ch Hs]|Hs]).
    + eapply removal_start_holds; [done|exact (so_threads _ Hok _ _ Hi)|done].
    + pose proof (ran_group _ _ _ _ Hb Hr (Hrm _ _ Hi)) as Hh. unfold group_holds in *. by rewrite (dispose_all_group _ _ _ _ Hs).
Qed.

Lemma sys_run_removals input_type evs s s' :
  sys_ok s → removals_ok s → sys_run input_type evs s = Some s' → sys_ok s' ∧ removals_ok s'.
Proof.
  revert s. induction evs as [|ev evs IH]; intros s Hok Hrm; cbn [sys_run]; [by intros [= <-]|].
  destruct (sys_step input_type ev s) as [s1|] eqn:Hs; [|done]. cbn [mbind option_bind]. apply IH.
  - by eapply sys_step_ok.
  - eapply stepping_removals_ok; [done..|by eapply sys_step_stepping].
Qed.

(** A member all of whose group is gone. *)
Lemma members_gone w a group :
  world_ok w → endings_ok w → rg_groups (registry_of w) !! a = Some group → (∀ x, x ∈ pg_fibers group → lasts completed w x) → pg_fibers group = [].
Proof.
  intros Hok He Hg Hc. destruct (wo_registry _ Hok) as [Hwf _]. pose proof (rw_members _ _ Hwf _ _ Hg) as Hm.
  destruct (pg_fibers group) as [|x l] eqn:Hp; [done|exfalso].
  assert (x ∈ x :: l) as Hx by (by left). rewrite Hm in Hx.
  apply list_elem_of_filter in Hx as [Hh _]. unfold home, claim_of in Hh. destruct (world_fibers w !! x) as [f|] eqn:Hf; [|done]. cbn in Hh.
  destruct (Hc x ltac:(by left)) as [_ Hl]. destruct (eo_complete _ He _ _ Hf (Hl f Hf)) as [_ Hr]. by rewrite Hr in Hh.
Qed.

Section theorems.
Context (input_type : TypeId → TypeId) (membership main : Addr) (evs : list Event) (s0 s : System)
  (Hnew : system_new membership main = Some s0) (Hrun : sys_run input_type evs s0 = Some s).

Lemma reached_removals : sys_ok s ∧ removals_ok s.
Proof using All.
  eapply sys_run_removals; [by eapply system_new_ok| |done]. unfold system_new in Hnew.
  destruct (world_new membership main); [|done]. injection Hnew as <-. done.
Qed.

End theorems.

(** * A removal of two Fibers, with a creation in between *)

Definition spawned (i x : nat) : list Event := EvSpawn i sample_ctx plugin_5 7 inject_none :: callers 5 i ++ passes 5 x ++ callers 2 i.
Definition removing : list Event := creating ++ spawned 1 4 ++ [EvRemove 2 (Typed 5)] ++ callers 1 2 ++ spawned 3 7.
Definition removal_at (s : System) (i : nat) : option Removal :=
  match sy_threads s !! i with Some (ThRemove r) => Some r | _ => None end.


Lemma removal_at_spec s i r : removal_at s i = Some r → sy_threads s !! i = Some (ThRemove r).
Proof. unfold removal_at. destruct (sy_threads s !! i) as [[]|]; try done. by intros [= <-]. Qed.

Definition member_disposed (x : nat) : list Event := owners 3 2 ++ passes 7 x ++ owners 2 2.
Definition emptied : list Event := removing ++ member_disposed 1 ++ member_disposed 4.
Definition removed : list Event := emptied ++ owners 1 2.

