(* ===== verification/UpdatePolicies.v ===== *)
(** Typed update policies (crates/cordis-core/src/update.rs): the adapters that erase a
    typed policy, its contained invocation, its registration across the gated seam and
    its removal, and the candidate an accepted update commits. *)
From S2P Require Import Prelude Axes Contained EventStore Journal Plugin Fiber Listener Listening UpdateStore.
From S2P Require Handles.

(** * Typed policies *)

(** How far a future of an Around policy came by itself: to its end, or to the call of
    its continuation, with what it goes on with. *)
Inductive Resumption (S P R : Type) :=
| ResDone (r : R)
| ResCalls (change : P) (k : result P InvocationFailure → Step S R).
Arguments ResDone {S P R} r.
Arguments ResCalls {S P R} change k.

Section policy.
Context {W : Type}.
Abbreviation St := (ControlState W).
Abbreviation Outcome V := (result V InvocationFailure).
Abbreviation UserResult := (result nat UserError).

(** [debug]: whether debug assertions are compiled in; [input_type]: the associated type
    [Plugin::Input] of a contract. *)
Context (debug : bool) (input_type : TypeId → TypeId).

Definition MapperAsyncUser : Type := Context → nat → Step St (Step St UserResult).
Definition MapperSyncUser : Type := Context → nat → Step St UserResult.
Definition AroundPolicyUser : Type := Context → nat → Step St (Step St (Resumption St nat UserResult)).

(** An erased policy constructs a [ControlFuture]. *)
(* @src crates/cordis-core/src/update.rs 31-35 MapperFn *)
Definition MapperFn : Type := PreparedChange → Step St (Step St (Outcome PreparedChange)).
Definition AroundFn : Type := PreparedChange → Step St (Step St (Resumption St PreparedChange (Outcome PreparedChange))).

(* @src crates/cordis-core/src/update.rs 225-232 normalize_returned *)
Definition normalize_returned (error : UserError) : Step St InvocationFailure :=
  diagnostic ← ended (ue_display error);
  mret (default (failure_returned diagnostic) (ue_failure error)).

(* @src crates/cordis-core/src/update.rs 234-240 take_input *)
Definition take_input (contract : TypeId) (change : PreparedChange) : Step St nat :=
  if debug && negb (bool_decide (pc_contract change = contract)) then unwind (PayloadText "assertion `left == right` failed")
  else downcast (input_type contract) "PreparedChange seals one Plugin contract with its Input type" (pc_input change).

(* @src crates/cordis-core/src/update.rs 242-244 reseal *)
Definition reseal (contract : TypeId) (input : nat) : PreparedChange := change_from_input input_type contract input.

(** The end of an adapter. *)
Definition answer (contract : TypeId) (r : UserResult) : Step St (Outcome PreparedChange) :=
  match r with
  | Ok input => mret (Ok (reseal contract input))
  | Err error => failure ← normalize_returned error; mret (Err failure)
  end.

(** The rest of the chain, as the typed continuation answers it. *)
(* @src crates/cordis-core/src/update.rs 260-264 UpdateNext::call *)
Definition UpdateNext_call (contract : TypeId) (output : Outcome PreparedChange) : Step St (Outcome nat) :=
  match output with
  | Err failure => mret (Err failure)
  | Ok change => input ← take_input contract change; mret (Ok input)
  end.

(* @src crates/cordis-core/src/update.rs 286-292 MapperAdapter::into_update_kind *)
Definition mapper_async (f : MapperAsyncUser) (contract : TypeId) (registration : Context) : MapperFn := λ change,
  input ← take_input contract change; fut ← f registration input;
  mret (r ← fut; answer contract r).

(* @src crates/cordis-core/src/update.rs 301-309 MapperAdapter::into_update_kind *)
Definition mapper_sync (f : MapperSyncUser) (contract : TypeId) (registration : Context) : MapperFn := λ change,
  input ← take_input contract change; r ← f registration input;
  result ← answer contract r; mret (mret result).

(* @src crates/cordis-core/src/update.rs 319-329 AroundAdapter::into_update_kind *)
Definition around_policy (f : AroundPolicyUser) (contract : TypeId) (registration : Context) : AroundFn := λ change,
  input ← take_input contract change; fut ← f registration input;
  mret (u ← fut;
        match u with
        | ResDone r => r ← answer contract r; mret (ResDone r)
        | ResCalls input k =>
            mret (ResCalls (reseal contract input)
              (λ output, output ← UpdateNext_call contract output; r ← k output; answer contract r))
        end).

(** [catch_unwind], of the construction of a future or of the future. *)
Definition contained {V} (m : Step St (Outcome V)) (s : St) : Outcome V * St :=
  match m s with
  | (Returned r, s) => (r, s)
  | (Unwound p, s) => (Err (failure_panic (panic_message p)), s)
  end.

(* @src crates/cordis-core/src/update.rs 200-210 invoke_mapper *)
Definition invoke_mapper {P} (callback : P → Step St (Step St (Outcome P))) (change : P) (s : St) : Outcome P * St :=
  match callback change s with
  | (Unwound p, s) => (Err (failure_panic (panic_message p)), s)
  | (Returned future, s) => contained future s
  end.

(* @src crates/cordis-core/src/update.rs 212-223 invoke_around *)
Definition invoke_around {P} (callback : P → Step St (Step St (Resumption St P (Outcome P)))) (change : P) (s : St)
    : AroundRun (P := P) (W := W) :=
  match callback change s with
  | (Unwound p, s) => AroundEnds (Err (failure_panic (panic_message p))) s
  | (Returned future, s) =>
      match future s with
      | (Unwound p, s) => AroundEnds (Err (failure_panic (panic_message p))) s
      | (Returned (ResDone r), s) => AroundEnds r s
      | (Returned (ResCalls change k), s) => AroundCalls change s (λ output, contained (k output))
      end
  end.

(** A policy a client built. *)
Inductive Policy :=
| PolicyMapperAsync (f : MapperAsyncUser)
| PolicyMapperSync (f : MapperSyncUser)
| PolicyAround (f : AroundPolicyUser).

(** The policy behind a handle, the contract it governs and the Context it was
    registered on. *)
Record HeldPolicy := { hp_policy : Policy; hp_contract : TypeId; hp_context : Context }.

Context (closures : nat → HeldPolicy).

Definition policy_kind (cb : nat) : UpdateKind :=
  match hp_policy (closures cb) with PolicyAround _ => UpdateAround cb | _ => UpdateMapper cb end.

(** A Mapper hook holds no Around policy, and conversely. *)
Definition erased_mapper (cb : nat) : PreparedChange → St → Outcome PreparedChange * St :=
  let h := closures cb in
  match hp_policy h with
  | PolicyMapperAsync f => invoke_mapper (mapper_async f (hp_contract h) (hp_context h))
  | PolicyMapperSync f => invoke_mapper (mapper_sync f (hp_contract h) (hp_context h))
  | PolicyAround _ => λ _ s, (Err (failure_panic "not a Mapper policy"), s)
  end.

Definition erased_around (cb : nat) : PreparedChange → St → AroundRun (P := PreparedChange) (W := W) :=
  let h := closures cb in
  match hp_policy h with
  | PolicyAround f => invoke_around (around_policy f (hp_contract h) (hp_context h))
  | _ => λ _ s, AroundEnds (Err (failure_panic "not an Around policy")) s
  end.

(** * The reference: policies that are never erased *)

Definition typed_mapper (cb input : nat) : St → Outcome nat * St :=
  let ctx := hp_context (closures cb) in
  match hp_policy (closures cb) with
  | PolicyMapperAsync f => contained (fut ← f ctx input; r ← fut; finish id r)
  | PolicyMapperSync f => contained (r ← f ctx input; finish id r)
  | PolicyAround _ => λ s, (Err (failure_panic "not a Mapper policy"), s)
  end.

Definition typed_around (cb input : nat) (s : St) : AroundRun (P := nat) (W := W) :=
  match hp_policy (closures cb) with
  | PolicyAround f =>
      match (fut ← f (hp_context (closures cb)) input; fut) s with
      | (Unwound p, s) => AroundEnds (Err (failure_panic (panic_message p))) s
      | (Returned (ResDone r), s) => let '(r, s) := contained (finish id r) s in AroundEnds r s
      | (Returned (ResCalls input k), s) => AroundCalls input s (λ output, contained (r ← k output; finish id r))
      end
  | _ => AroundEnds (Err (failure_panic "not an Around policy")) s
  end.
End policy.

(** * Erasure of a chain *)

Section erasure.
Context {W : Type} (debug : bool) (input_type : TypeId → TypeId) (closures : nat → HeldPolicy (W := W)).
Abbreviation St := (ControlState W).
Abbreviation Outcome V := (result V InvocationFailure).
Abbreviation reseal := (reseal input_type).
Abbreviation erased_mapper := (erased_mapper debug input_type closures).
Abbreviation erased_around := (erased_around debug input_type closures).
Abbreviation typed_mapper := (typed_mapper closures).
Abbreviation typed_around := (typed_around closures).

(** A typed outcome in its erased shape. *)
Definition sealed (contract : TypeId) (r : Outcome nat * St) : Outcome PreparedChange * St := (map_ok (reseal contract) r.1, r.2).

Lemma take_reseal contract v : take_input (W := W) debug input_type contract (reseal contract v) = mret v.
Proof.
  unfold take_input, UpdatePolicies.reseal, change_from_input. cbn. rewrite bool_decide_true by done.
  rewrite andb_false_r. apply (downcast_box (input_type contract)).
Qed.

Lemma next_reseal contract (r : Outcome nat) s :
  UpdateNext_call (W := W) debug input_type contract (map_ok (reseal contract) r) s = (Returned r, s).
Proof. destruct r as [v|failure]; [|done]. cbn. by rewrite take_reseal. Qed.

Lemma answer_finish contract r : answer (W := W) input_type contract r = finish (reseal contract ∘ id) r.
Proof. by destruct r. Qed.

Lemma contained_answer contract r (s : St) : contained (answer input_type contract r) s = sealed contract (contained (finish id r) s).
Proof.
  rewrite answer_finish. unfold contained, sealed. rewrite finish_erased.
  by destruct (finish id r s) as [[]].
Qed.

(** A contained run that ends with an adapter. *)
Lemma contained_bind_answer contract (m : Step St (result nat UserError)) s :
  contained (r ← m; answer input_type contract r) s = sealed contract (contained (r ← m; finish id r) s).
Proof.
  unfold contained at 1 2, mbind, Step_bind. destruct (m s) as [[r|p] s1]; [|done]. apply contained_answer.
Qed.

(** The chain is at a policy of its own contract. *)
Definition governs (contract : TypeId) (kind : UpdateKind) : Prop :=
  ∃ cb, kind = policy_kind closures cb ∧ hp_contract (closures cb) = contract.

Lemma mapper_sealed contract cb v s :
  governs contract (UpdateMapper cb) → erased_mapper cb (reseal contract v) s = sealed contract (typed_mapper cb v s).
Proof.
  intros (cb' & Hk & Hc). unfold policy_kind in Hk.
  assert (cb' = cb) as -> by (by destruct (hp_policy (closures cb')); simplify_eq).
  unfold UpdatePolicies.erased_mapper, UpdatePolicies.typed_mapper. rewrite Hc.
  destruct (hp_policy (closures cb)) as [f|f|f]; [| |done]; clear Hk; unfold invoke_mapper, mapper_async, mapper_sync;
    cbv beta; rewrite take_reseal; unfold mbind at 1, Step_bind at 1; unfold mret at 1, Step_ret at 1; cbv beta.
  - unfold mbind at 1, Step_bind at 1. unfold contained at 2, mbind at 2, Step_bind at 2.
    destruct (f _ v s) as [[fut|p] s1]; [|done]. apply contained_bind_answer.
  - unfold mbind at 1, Step_bind at 1. unfold contained at 2, mbind at 2, Step_bind at 2.
    destruct (f _ v s) as [[r|p] s1]; [|done]. fold (contained (finish id r) s1). rewrite <- contained_answer.
    unfold mbind, Step_bind, contained. by destruct (answer input_type contract r s1) as [[]].
Qed.

(** An Around policy and its erased form go the same way. *)
Inductive same_course (contract : TypeId) : AroundRun (P := PreparedChange) (W := W) → AroundRun (P := nat) (W := W) → Prop :=
| BothEnd r s : same_course contract (AroundEnds (map_ok (reseal contract) r) s) (AroundEnds r s)
| BothCall v s k k' :
    (∀ r s, k (map_ok (reseal contract) r) s = sealed contract (k' r s)) →
    same_course contract (AroundCalls (reseal contract v) s k) (AroundCalls v s k').

Lemma around_sealed contract cb v s :
  governs contract (UpdateAround cb) → same_course contract (erased_around cb (reseal contract v) s) (typed_around cb v s).
Proof.
  intros (cb' & Hk & Hc). unfold policy_kind in Hk.
  assert (cb' = cb) as -> by (by destruct (hp_policy (closures cb')); simplify_eq).
  unfold UpdatePolicies.erased_around, UpdatePolicies.typed_around. rewrite Hc.
  destruct (hp_policy (closures cb)) as [f|f|f]; [done..|]. clear Hk. unfold invoke_around, around_policy. cbv beta.
  rewrite take_reseal. unfold mbind, Step_bind, mret, Step_ret. cbv beta.
  destruct (f _ v s) as [[fut|p] s1]; [|apply (BothEnd _ (Err _))]. destruct (fut s1) as [[[r|input k]|p] s2]; cbv beta.
  - assert (∀ r' : Outcome nat * St, same_course contract (AroundEnds (sealed contract r').1 (sealed contract r').2) (AroundEnds r'.1 r'.2))
      as Hend by (intros [r' s3]; constructor).
    specialize (Hend (contained (finish id r) s2)). rewrite <- contained_answer in Hend. unfold contained in *.
    destruct (answer input_type contract r s2) as [[r''|q] s4], (finish id r s2) as [[r'|p] s3]; exact Hend.
  - constructor. intros r s'. etrans; [|exact (contained_bind_answer contract (k r) s')].
    unfold contained, mbind, Step_bind. by rewrite next_reseal.
  - apply (BothEnd _ (Err _)).
Qed.

Lemma map_err_ok {A B E F} (f : A → B) (g : E → F) (r : result A E) : map_err g (map_ok f r) = map_ok f (map_err g r).
Proof. by destruct r. Qed.

Lemma run_chain_sealed contract hooks v s :
  (∀ h, h ∈ hooks → governs contract (us_kind h)) →
  run_chain erased_mapper erased_around contract hooks (reseal contract v) s =
  let '(r, reached, s) := run_chain typed_mapper typed_around contract hooks v s in (map_ok (reseal contract) r, reached, s).
Proof.
  revert v s. induction hooks as [|h hooks IH]; intros v s Hg; [done|]. cbn [run_chain].
  specialize (λ v s, IH v s (λ h' Hh', Hg h' (list_elem_of_further _ _ _ Hh'))). specialize (Hg h (list_elem_of_here _ _)).
  destruct (update_claim _ _ _) as [[] hs]; cbn [negb]; [|apply IH]. destruct (us_kind h) as [cb|cb].
  - rewrite (mapper_sealed _ _ _ _ Hg). unfold sealed. destruct (typed_mapper cb v _) as [[v'|failure] s1]; cbn; [|done].
    rewrite IH. destruct (run_chain typed_mapper _ _ _ _ s1) as [[r reached] s2]. by rewrite map_err_ok.
  - destruct (around_sealed contract cb v {| uc_hooks := hs; uc_world := uc_world s |} Hg) as [r s1|v' s1 k k' Hk].
    + by rewrite map_err_ok.
    + rewrite IH. destruct (run_chain typed_mapper _ _ _ _ s1) as [[r reached] s2]. rewrite Hk. unfold sealed.
      destruct (k' r s2) as [r' s3]. cbn. by rewrite map_err_ok.
Qed.
End erasure.

(** * Registration *)

(** The Fibers are part of what policies may touch. *)
#[export, program] Instance control_fiber_store {W} `{FiberStore W} : FiberStore (ControlState W) :=
  {| fibers := λ s, fibers (uc_world s);
     update_fiber := λ x g s, {| uc_hooks := uc_hooks s; uc_world := update_fiber x g (uc_world s) |} |}.
Next Obligation. intros W H x g s. apply fibers_update. Qed.

(** The control of a policy's registration. *)
Record PolicyRegistration := { pr_contract : TypeId; pr_id : ListenerRegistrationId; pr_cleanup : Z; pr_owner : Addr }.

Definition with_hooks {W} (s : ControlState W) (hooks : gmap TypeId (list UpdateHook)) : ControlState W :=
  {| uc_hooks := hooks; uc_world := uc_world s |}.

(** * The store under a registration *)

Lemma policies_add contract hook hooks c :
  policies (update_add contract hook hooks) c =
    if decide (c = contract) then (if uh_prepend hook then hook :: policies hooks contract else policies hooks contract ++ [hook])
    else policies hooks c.
Proof.
  unfold policies, update_add. case_decide as Hc; [subst; by rewrite lookup_insert_eq|by rewrite lookup_insert_ne].
Qed.

Lemma update_remove_live contract id h hooks :
  updates_wf hooks → h ∈ policies hooks contract → uh_id h = id →
  (update_remove contract id hooks).1 = true ∧
  ∀ c, policies (update_remove contract id hooks).2 c =
    if decide (c = contract) then filter (λ h, uh_id h ≠ id) (policies hooks contract) else policies hooks c.
Proof.
  intros Hwf Hh Hid. unfold update_remove, policies in Hh |- *. destruct (hooks !! contract) as [l|] eqn:Hl; [|set_solver]. cbn in Hh.
  destruct (remove_first (is_update id) l) as [[h' rest]|] eqn:Hr.
  - apply remove_first_filter in Hr as (_ & _ & ->); [|by eapply Hwf]. split; [done|]. intros c. cbn [snd].
    fold (policies (put_updates contract (filter (λ h, uh_id h ≠ id) l) hooks) c). by rewrite policies_put.
  - pose proof (proj1 (remove_first_None _ _) Hr h Hh) as Hn. unfold is_update in Hn. by apply bool_decide_eq_false in Hn.
Qed.

Lemma update_remove_gone contract id hooks :
  (∀ h, h ∈ policies hooks contract → uh_id h ≠ id) → update_remove contract id hooks = (false, hooks).
Proof.
  intros Hn. unfold update_remove, policies in *. destruct (hooks !! contract) as [l|]; [|done].
  destruct (remove_first (is_update id) l) as [[h rest]|] eqn:Hr; [|done].
  apply remove_first_Some in Hr as (l1 & l2 & -> & _ & Hp & _). unfold is_update in Hp. apply bool_decide_eq_true in Hp.
  destruct (Hn h); [cbn; set_solver|done].
Qed.

Lemma update_add_wf contract hook hooks :
  updates_wf hooks → (∀ h, h ∈ policies hooks contract → uh_id h ≠ uh_id hook) → updates_wf (update_add contract hook hooks).
Proof.
  intros Hwf Hid c l. unfold update_add. rewrite lookup_insert_Some. intros [[<- <-]|[_ Hl]]; [|by eapply Hwf].
  fold (policies hooks contract). assert (NoDup (map uh_id (policies hooks contract))) as Hnd.
  { unfold policies. destruct (hooks !! contract) as [l'|] eqn:Hl; [by eapply Hwf|constructor]. }
  assert (uh_id hook ∉ map uh_id (policies hooks contract)) as Hn.
  { intros (h & Heq & Hh)%list_elem_of_fmap. by destruct (Hid h Hh). }
  destruct (uh_prepend hook); [by constructor|]. rewrite map_app. apply NoDup_app. split_and!; [done| |apply NoDup_singleton].
  intros i Hi. cbn. rewrite list_elem_of_singleton. by intros ->.
Qed.

(** Taking out the policy that was added. *)
Lemma update_add_remove contract hook hooks :
  updates_wf hooks → (∀ c h, h ∈ policies hooks c → uh_id h ≠ uh_id hook) →
  ∃ hooks', update_remove contract (uh_id hook) (update_add contract hook hooks) = (true, hooks') ∧
            ∀ c, policies hooks' c = policies hooks c.
Proof.
  intros Hwf Hid. pose proof (update_add_wf contract hook hooks Hwf (Hid contract)) as Hwf1.
  assert (hook ∈ policies (update_add contract hook hooks) contract) as Hin.
  { rewrite policies_add, decide_True by done. destruct (uh_prepend hook); set_solver. }
  destruct (update_remove_live contract _ hook _ Hwf1 Hin eq_refl) as [Hr Hl].
  destruct (update_remove _ _ _) as [removed hooks']. cbn in Hr. subst removed. exists hooks'. split; [done|].
  intros c. cbn [snd] in Hl. rewrite Hl, !policies_add. case_decide as Hc; [|done]. subst c. rewrite decide_True by done.
  pose proof (filter_all (λ h, uh_id h ≠ uh_id hook) (policies hooks contract) (λ h, Hid contract h)) as Hall.
  destruct (uh_prepend hook); [by rewrite filter_cons_False by naive_solver|].
  by rewrite filter_app, filter_cons_False, filter_nil, app_nil_r by naive_solver.
Qed.

Section registration.
Context {W : Type} `{FiberStore W} (closures : nat → HeldPolicy (W := W)).
Abbreviation St := (ControlState W).

(* @src crates/cordis-core/src/update.rs 332-346 UpdatePublish::publish *)
Definition UpdatePublish (contract : TypeId) (hook : UpdateHook) (s : St) : result unit unit * St :=
  (Ok tt, with_hooks s (update_add contract hook (uc_hooks s))).

(** What the cleanup filed with a policy runs. *)
(* @src crates/cordis-core/src/update.rs 348-356 cleanup *)
Definition policy_cleanup (contract : TypeId) (id : ListenerRegistrationId) (s : St) : St :=
  with_hooks s (update_remove contract id (uc_hooks s)).2.

(** [id] is the fresh identity of the occurrence. *)
(* @src crates/cordis-core/src/update.rs 360-399 Context::on_update *)
Definition on_update (cb : nat) (options : ListenerOptions) (id : ListenerRegistrationId) (s : St)
    : result PolicyRegistration ListenerRegistrationError * St :=
  let contract := hp_contract (closures cb) in
  let ctx := hp_context (closures cb) in
  let hook := on_update_hook ctx (policy_kind closures cb) options id in
  match push_gated (ctx_fiber ctx) (sync_cleanup (CleanUpdate contract id)) (UpdatePublish contract hook) s with
  | (Err _, s) => (Err ListenerInactiveContext, s)
  | (Ok token, s) => (Ok {| pr_contract := contract; pr_id := id; pr_cleanup := token; pr_owner := ctx_fiber ctx |}, s)
  end.

(* @src crates/cordis-core/src/events/listener.rs 126-142 ListenerRegistration::remove *)
Definition policy_remove (r : PolicyRegistration) (s : St) : bool * St :=
  let '(removed, hooks) := update_remove (pr_contract r) (pr_id r) (uc_hooks s) in
  (removed, (claim_cleanup (pr_owner r) (pr_cleanup r) (with_hooks s hooks)).2).

(** A registration is undone by its removal exactly: its policy is filed once, under its
    contract, or nothing happens; after the removal every list of policies and the
    journal are as before, and neither the control nor the cleanup finds anything. *)
Theorem policy_registration_roundtrip (cb : nat) (options : ListenerOptions) (id : ListenerRegistrationId) (s : St) (f : Fiber)
    (Hwf : updates_wf (uc_hooks s)) (Hid : ∀ c h, h ∈ policies (uc_hooks s) c → uh_id h ≠ id)
    (Hf : fibers s !! ctx_fiber (hp_context (closures cb)) = Some f) (Hj : journal_wf (f_journal f)) (Hsn : (dl_sn (f_journal f) < u64_max)%Z) :
  let owner := ctx_fiber (hp_context (closures cb)) in
  let contract := hp_contract (closures cb) in
  let hook := on_update_hook (hp_context (closures cb)) (policy_kind closures cb) options id in
  match on_update cb options id s with
  | (Err e, s1) => s1 = s ∧ e = ListenerInactiveContext ∧ ¬ gate_open f
  | (Ok r, s1) =>
      let '(removed, s2) := policy_remove r s1 in
      gate_open f ∧
      (∀ c h, h ∈ policies (uc_hooks s1) c ↔ h ∈ policies (uc_hooks s) c ∨ c = contract ∧ h = hook) ∧
      removed = true ∧ (∀ c, policies (uc_hooks s2) c = policies (uc_hooks s) c) ∧
      (∃ f2, fibers s2 !! owner = Some f2 ∧ dl_map (f_journal f2) = dl_map (f_journal f)) ∧
      (policy_remove r s2).1 = false ∧ policy_cleanup contract id s2 = s2
  end.
Proof.
  cbv zeta. unfold on_update. rewrite (push_gated_spec _ _ _ s f Hf). destruct (decide (gate_open f)) as [Hg|Hg]; [|done].
  set (contract := hp_contract (closures cb)). set (hook := on_update_hook _ _ _ _). set (owner := ctx_fiber (hp_context (closures cb))) in *.
  unfold UpdatePublish, policy_remove. cbn.
  destruct (update_add_remove contract hook (uc_hooks s) Hwf Hid) as (hooks2 & Hrem & Hback).
  change (uh_id hook) with id in Hrem. rewrite Hrem. unfold claim_cleanup. cbn [fibers update_fiber control_fiber_store uc_world with_hooks].
  rewrite fibers_update, lookup_alter_eq. change (fibers s) with (fibers (uc_world s)) in Hf. rewrite Hf. cbn [fmap option_fmap option_map snd].
  assert (update_remove contract id hooks2 = (false, hooks2)) as Hgone.
  { apply update_remove_gone. intros h. rewrite Hback. apply Hid. }
  split_and!; [done| |done|exact Hback| |by cbn; rewrite Hgone|by unfold policy_cleanup; cbn; rewrite Hgone].
  - intros c h. rewrite policies_add. case_decide as Hc; [subst c|naive_solver]. destruct (lo_prepend options) eqn:Ho; cbn; rewrite Ho; set_solver.
  - cbn. rewrite !fibers_update, lookup_alter_eq, lookup_alter_eq, Hf. eexists. split; [done|]. cbn.
    by apply dl_push_remove.
Qed.
End registration.

Lemma remove_first_policies contract id l hook rest hooks c h :
  hooks !! contract = Some l → remove_first (is_update id) l = Some (hook, rest) →
  h ∈ policies (put_updates contract rest hooks) c → h ∈ policies hooks c.
Proof.
  intros Hl (l1 & l2 & -> & -> & _)%remove_first_Some. rewrite policies_put. case_decide as Hc; [|done]. subst c.
  unfold policies. rewrite Hl. cbn. set_solver.
Qed.

(** * What an update commits *)

(** The operations of the store: registrations through [on_update], removals, claims. *)
Inductive PolicyOp :=
| PoRegister (cb : nat) (options : ListenerOptions) (id : ListenerRegistrationId)
| PoRemove (contract : TypeId) (id : ListenerRegistrationId)
| PoClaim (contract : TypeId) (id : ListenerRegistrationId).

Section committed.
Context {W : Type} (closures : nat → HeldPolicy (W := W)).

Definition policy_step (hooks : gmap TypeId (list UpdateHook)) (op : PolicyOp) : gmap TypeId (list UpdateHook) :=
  match op with
  | PoRegister cb options id =>
      let h := closures cb in update_add (hp_contract h) (on_update_hook (hp_context h) (policy_kind closures cb) options id) hooks
  | PoRemove contract id => (update_remove contract id hooks).2
  | PoClaim contract id => (update_claim contract id hooks).2
  end.

Definition policy_run (ops : list PolicyOp) : gmap TypeId (list UpdateHook) := fold_left policy_step ops UpdateStore_new.

(** Every policy is filed under the contract it was written for. *)
Definition typed_policies (hooks : gmap TypeId (list UpdateHook)) : Prop :=
  ∀ contract h, h ∈ policies hooks contract → governs closures contract (uh_kind h).

Lemma policy_step_typed hooks op : typed_policies hooks → typed_policies (policy_step hooks op).
Proof.
  intros Ht. destruct op as [cb options id|contract id|contract id]; cbn [policy_step]; intros c h.
  - rewrite policies_add. case_decide as Hc; [|apply Ht]. subst c.
    destruct (uh_prepend _); rewrite ?elem_of_cons, ?elem_of_app, ?list_elem_of_singleton;
      (intros [->|Hh] || intros [Hh| ->]); try (by apply Ht); by exists cb.
  - unfold update_remove. destruct (hooks !! contract) as [l|] eqn:Hl; [|apply Ht].
    destruct (remove_first _ l) as [[hook rest]|] eqn:Hr; [|apply Ht]. intros Hh. by eapply Ht, remove_first_policies.
  - unfold update_claim. destruct (hooks !! contract) as [l|] eqn:Hl; [|apply Ht].
    destruct (remove_first _ l) as [[hook rest]|] eqn:Hr; [|apply Ht]. destruct (uh_once hook); [|apply Ht].
    intros Hh. by eapply Ht, remove_first_policies.
Qed.

Lemma policy_run_typed ops : typed_policies (policy_run ops).
Proof.
  unfold policy_run. assert (typed_policies UpdateStore_new) as Hn.
  { intros c h. unfold policies, UpdateStore_new. rewrite lookup_empty. set_solver. }
  revert Hn. generalize UpdateStore_new. induction ops as [|op ops IH]; intros hooks Ht; [done|]. by apply IH, policy_step_typed.
Qed.
End committed.

(** [C36] What an update commits: on any store filled by registrations, removals and claims,
    whatever the policies do to the store and the world and however they panic, the
    control of a change on erased policies gives what it gives on policies that were
    never erased: no [expect] on a downcast fails, no contract is confused, and an
    accepted change is the proposed one with the input the policies agreed on. *)
Theorem update_erasure_is_invisible {W : Type} (debug : bool) (input_type : TypeId → TypeId) (closures : nat → HeldPolicy (W := W))
    (ops : list PolicyOp) (contract : TypeId) (target : option ScopeNode) (input : nat) (w : W) :
  let change := change_from_input input_type contract input in
  let s := {| uc_hooks := policy_run closures ops; uc_world := w |} in
  update_control (erased_mapper debug input_type closures) (erased_around debug input_type closures) contract target change s =
  let '(r, s') := update_control (typed_mapper closures) (typed_around closures) contract target input s in
  (map_ok (option_map (Handles.reseal change)) r, s').
Proof.
  cbv zeta. unfold update_control. cbn [uc_hooks].
  change (change_from_input input_type contract input) with (reseal input_type contract input).
  rewrite run_chain_sealed.
  - destruct (run_chain (typed_mapper closures) _ _ _ _ _) as [[[v|failure] reached] s']; [|done]. by destruct reached.
  - intros h Hh. unfold update_snapshot in Hh. apply list_elem_of_fmap in Hh as (hook & -> & Hh).
    apply list_elem_of_filter in Hh as [_ Hh]. by eapply policy_run_typed.
Qed.
