(* ===== verification/Convergence.v ===== *)
(** One live Fiber between its slot and the Runtime: the threads of Inertia.v, whose
    target is the one [compute_target] reads in the world of Generation.v, whose settle
    passes are the passes of that world, and whose rechecks are committed by its steps.
    Everything else in the world moves freely.

    A step of the world that commits a recheck revision of the Fiber is, for its slot,
    one Service mutation made under the ServiceStore lock by the thread that takes the
    step; that thread owes the kick.  The Fiber is followed from the step that publishes
    its dependency edges to the beginning of its disposal. *)
From S2P Require Import Prelude Inertia Axes BTree Lifecycle Journal EventStore Observation Plugin Fiber Registry Deps Services.
From S2P Require Import Generation GenerationInv GenerationOps GenerationEffect GenerationAge GenerationPass GenerationProps GenerationTarget.

#[export] Instance DependencyEdge_eq_dec : EqDecision DependencyEdge.
Proof. solve_decision. Defined.
#[export] Instance SemanticTarget_eq_dec : EqDecision SemanticTarget.
Proof. solve_decision. Defined.

Abbreviation Slot := (Inertia.State (T := SemanticTarget)).
Abbreviation Thread := (Inertia.PC (T := SemanticTarget)).
Abbreviation Verdict := (Inertia.Choice (T := SemanticTarget)).

(** * The composed system *)

Section system.
Context (x : Addr).

(** The Runtime, and the slot of the Fiber. *)
(* @src crates/cordis-core/src/fiber/mod.rs 492-495 Fiber *)
Record Conv := { cv_world : World; cv_slot : Slot }.

Definition live_target (w : World) : option SemanticTarget := f ← world_fibers w !! x; target_of w f.

(** The Fiber is allocated, and no disposal has begun. *)
Definition live (w : World) : bool :=
  match world_fibers w !! x with Some f => f_alive f && negb (f_disposing f) | None => false end.

Definition committing (target : SemanticTarget) : Verdict :=
  {| ch_live := target; ch_exec := true; ch_fail := false; ch_change := false |}.

(** What a step of the world by the thread [tid] is for the slot: the commit is made with
    the store locked, and the thread goes on to the kick. *)
(* @src crates/cordis-core/src/service.rs 310-323 CommittedServiceDrift::commit *)
Definition observe (tid : nat) (w w' : World) (s : Slot) : option Slot :=
  if decide (f_committed <$> world_fibers w' !! x = f_committed <$> world_fibers w !! x) then Some s
  else target ← live_target w'; run_schedule has_missing [NewMutation tid; Run tid (committing target); Run tid (committing target)] s.

(** The steps of the world that are not taken by a holder of the slot. *)
Definition outside (op : Op) : bool :=
  match op with OpSettle y _ _ | OpRecord y _ _ _ | OpCommit y => negb (bool_decide (y = x)) | _ => true end.

Definition creating (m : Mode) : bool := match m with Creating => true | _ => false end.

(** A step of a thread of the slot, and what it does in the world: a settle pass begins
    with its target and is over when the pass of the world is, and an update commits its
    input.  A mutation is never caught inside the lock. *)
(* @src crates/cordis-core/src/fiber/inertia.rs 523-529 InertiaSlot::initial_spawn_pass *)
Definition thread_event (tid : nat) (ch : Verdict) (c : Conv) : option Conv :=
  let '(w, s) := (cv_world c, cv_slot c) in
  match st_threads s !! tid with
  | None | Some MutLocked | Some (MutCommitted _) => None
  | Some (Claimed Operation) =>
      if ch_change ch then
        w' ← step (OpCommit x) w; target ← live_target w';
        s' ← act has_missing (Run tid {| ch_live := target; ch_exec := ch_exec ch; ch_fail := ch_fail ch; ch_change := true |}) s;
        Some {| cv_world := w'; cv_slot := s' |}
      else s' ← act has_missing (Run tid ch) s; Some {| cv_world := w; cv_slot := s' |}
  | Some (Settling _ _ _) =>
      f ← world_fibers w !! x;
      if decide (wd_drivers w !! x = None) then
        s' ← act has_missing (Run tid {| ch_live := ch_live ch; ch_exec := ch_exec ch; ch_fail := bool_decide (fiber_state f = Failed); ch_change := false |}) s;
        Some {| cv_world := w; cv_slot := s' |}
      else None
  | Some _ =>
      s' ← act has_missing (Run tid ch) s;
      match st_threads s' !! tid with
      | Some (Settling m target _) => w' ← step (OpSettle x (has_missing target) (creating m)) w; Some {| cv_world := w'; cv_slot := s' |}
      | _ => Some {| cv_world := w; cv_slot := s' |}
      end
  end.

Inductive Event := EvWorld (tid : nat) (op : Op) | EvClaim (tid : nat) (p : Purpose) | EvKick (tid : nat) | EvThread (tid : nat) (ch : Verdict).

(** An event leaves the Fiber alive, with no disposal begun on either side. *)
Definition event (e : Event) (c : Conv) : option Conv :=
  c' ← match e with
       | EvWorld tid op =>
           if outside op then w' ← step op (cv_world c); s' ← observe tid (cv_world c) w' (cv_slot c); Some {| cv_world := w'; cv_slot := s' |}
           else None
       | EvClaim tid p => s' ← act has_missing (NewClaim tid p) (cv_slot c); Some {| cv_world := cv_world c; cv_slot := s' |}
       | EvKick tid => s' ← act has_missing (NewKick tid) (cv_slot c); Some {| cv_world := cv_world c; cv_slot := s' |}
       | EvThread tid ch => thread_event tid ch c
       end;
  if live (cv_world c') && Inertia.st_alive (cv_slot c') && negb (st_terminal (cv_slot c')) then Some c' else None.

Definition conv_step (c c' : Conv) : Prop := ∃ e, event e c = Some c'.

(** The edges of the Fiber have just been published; its slot is new. *)
Definition conv_init (c : Conv) : Prop :=
  ∃ membership main ops w0 w target,
    world_new membership main = Some w0 ∧ run ops w0 = Some w ∧ wd_drivers w !! x = None ∧
    step (OpIndex x) w = Some (cv_world c) ∧ live (cv_world c) = true ∧
    live_target (cv_world c) = Some target ∧ cv_slot c = slot_new target.

Definition conv_reachable : Conv → Prop := reachable conv_init conv_step.

Fixpoint follow (es : list Event) (c : Conv) : option Conv :=
  match es with [] => Some c | e :: es => c ← event e c; follow es c end.

Lemma follow_reachable es c c' : conv_reachable c → follow es c = Some c' → conv_reachable c'.
Proof.
  revert c. induction es as [|e es IH]; intros c Hr; cbn [follow]; [by intros [= <-]|].
  destruct (event e c) as [c1|] eqn:He; [|done]. cbn [mbind option_bind]. apply IH. eapply reach_step; [done|by exists e].
Qed.
End system.

(** * What the slot knows of the world *)

Section invariant.
Context (x : Addr).
Implicit Types (w : World) (s : Slot) (t : SemanticTarget).

Definition assigned t (e : DependencyEdge) (o : Addr) : Prop := (e, Some o) ∈ tg_assignments t.

(** One of the assigned occurrences will not be seen again. *)
Definition extinct w t : Prop := ∃ e o, assigned t e o ∧ hidden w (de_realm e, de_service e) o.

(** The target was read for this Fiber, at some time. *)
Definition known w (f : Fiber) t : Prop :=
  (tg_assignments t).*1 = f_edges f ∧
  ∀ e o, assigned t e o → occurrence_at w (de_realm e) (de_service e) = Some o ∨ hidden w (de_realm e, de_service e) o.

(** The Fiber is as a pass towards the target leaves it, unless the target cannot be the
    one the store prescribes. *)
Definition good w (f : Fiber) t : Prop := settled_as (has_missing t) f ∨ extinct w t.

Definition rest w (f : Fiber) (cell applied : option SemanticTarget) : Prop :=
  wd_drivers w !! x = None ∧ (∀ t, cell = Some t → good w f t) ∧ ∀ t, applied = Some t → good w f t.

(** What holds while the slot is held, by the position of its holder. *)
Definition held w (f : Fiber) (cell applied : option SemanticTarget) (pc : Thread) : Prop :=
  match pc with
  | Claimed _ | KickWon | KickRevised _ => rest w f cell applied
  | Again _ | Revised _ _ | Top | TopRevised _ => wd_drivers w !! x = None
  | ExitDrift _ l => wd_drivers w !! x = None ∧ known w f l
  | Settling m t _ =>
      course (has_missing t) x w ∧ known w f t ∧
      match m with
      | Creating => has_missing t = true → ∀ t0, cell = Some t0 → has_missing t0 = true ∨ extinct w t0
      | _ => cell = Some t
      end
  | Checking t _ | ExitStore _ t _ | ExitProbe _ t _ | ExitSettle _ t _ | ExitCas _ t _ | ExitReread _ t =>
      rest w f cell (Some t)
  | ExitObserve _ t _ l => rest w f cell (Some t) ∧ known w f l
  | _ => True
  end.

Lemma target_input w f t : target_of w f = Some t →
  (tg_assignments t) = (λ e, (e, occurrence_at w (de_realm e) (de_service e))) <$> f_edges f.
Proof. unfold target_of, compute_target. destruct (effective_input (f_spawn f)); [|done]. by intros [= <-]. Qed.

Lemma target_known w f t : target_of w f = Some t → known w f t.
Proof.
  intros Ht%target_input. unfold known, assigned. rewrite Ht. split.
  - rewrite <- list_fmap_compose. by apply list_fmap_id.
  - intros e o (e' & [= -> ->] & _)%list_elem_of_fmap. by left.
Qed.

Lemma has_missing_true t : has_missing t = true ↔ ∃ e, (e, None) ∈ tg_assignments t.
Proof.
  unfold has_missing. rewrite existsb_exists. split.
  - intros ([e [o|]] & Hin & ?); [done|]. exists e. by apply list_elem_of_In.
  - intros [e He]. exists (e, None). split; [by apply list_elem_of_In|done].
Qed.

(** A target that is prescribed is not extinct. *)
Lemma target_alive w f t : target_of w f = Some t → ¬ extinct w t.
Proof.
  intros Ht%target_input (e & o & He & Hh). unfold assigned in He. rewrite Ht in He.
  apply list_elem_of_fmap in He as (e' & [= -> Ho] & _). by apply (hidden_unseen _ _ _ _ Hh).
Qed.

(** A target is complete and was read before a Service went missing: it is extinct. *)
Lemma complete_then_missing w f t0 t :
  known w f t0 → target_of w f = Some t → has_missing t = true → has_missing t0 = true ∨ extinct w t0.
Proof.
  intros [Hed Hk] Ht%target_input [e He]%has_missing_true. destruct (has_missing t0) eqn:H0; [by left|right].
  rewrite Ht in He. apply list_elem_of_fmap in He as (e' & [= <- Ho] & He). rewrite <- Hed in He.
  apply list_elem_of_fmap in He as ([e' [o|]] & -> & Hin); cbn in Ho.
  - exists e', o. split; [done|]. destruct (Hk _ _ Hin); [congruence|done].
  - assert (has_missing t0 = true); [|congruence]. apply has_missing_true. by exists e'.
Qed.

(** ** Time passes *)

Lemma moves_cases op : ¬ starts op x → (∃ e, op = OpDrive x e) ∨ op = OpCancel x ∨ ¬ moves op x.
Proof.
  intros Hn. destruct op as [ctx p o|y ctx p seal|y|y m o|y o|y e|y|y|y|y m|edges|y rq|y|i v|i|i|i|doomed key|a|y|y]; cbn in *; eauto.
  - destruct (decide (y = x)) as [->|]; eauto.
  - destruct (decide (y = x)) as [->|]; eauto.
Qed.

Section elapse.
Context (op : Op) (w w' : World) (f f' : Fiber).
Context (Hok : world_ok w) (Hst : step op w = Some w') (Hf : world_fibers w !! x = Some f) (Hf' : world_fibers w' !! x = Some f').

Lemma extinct_step t : extinct w t → extinct w' t.
Proof. intros (e & o & He & Hh). exists e, o. split; [done|]. by eapply step_hidden. Qed.

Lemma known_step t : known w f t → known w' f' t.
Proof.
  intros [Hed Hk]. split.
  - destruct (step_aged _ _ _ _ _ Hok Hst ltac:(by eexists) Hf') as (g & Hg & Ha). simplify_eq. by rewrite (ag_edges _ _ _ _ _ _ _ Ha).
  - intros e o He. destruct (Hk e o He) as [Ho|Hh]; [|right; by eapply step_hidden].
    destruct (decide (occurrence_at w' (de_realm e) (de_service e) = Some o)); [by left|right]. by eapply step_hides.
Qed.

Lemma good_step t : wd_drivers w !! x = None → good w f t → good w' f' t.
Proof.
  intros Hd [Hs|He]; [left|right; by apply extinct_step].
  destruct (step_undriven _ _ _ _ _ _ Hok Hst Hf Hf' Hd) as [Hst' Ha]. unfold settled_as in *. by rewrite Hst', Ha.
Qed.

Lemma rest_step cell applied : ¬ starts op x → rest w f cell applied → rest w' f' cell applied.
Proof. intros Hn (Hd & Hc & Ha). split_and!; [by eapply step_idle|intros t ?; by apply good_step; auto..]. Qed.

Lemma course_step b : f_alive f = true → f_disposing f' = false → ¬ starts op x → course b x w → course b x w'.
Proof.
  intros Ha Hnd Hn Hc. unfold course in Hc. destruct (wd_drivers w !! x) as [d|] eqn:Hd.
  - destruct (moves_cases op Hn) as [[e ->]|[->|Hm]].
    + cbn [step] in Hst. by eapply drive_course.
    + cbn [step] in Hst. rewrite Hd in Hst. cbn [mbind option_bind] in Hst. destruct (cancellable d); [|done]. injection Hst as <-.
      change (alter mark_terminal x (world_fibers w) !! x = Some f') in Hf'. rewrite lookup_alter_eq, Hf in Hf'. by injection Hf' as <-.
    + unfold course. by rewrite (step_drivers _ _ _ _ Hst Hm), Hd.
  - unfold course. rewrite (step_idle _ _ _ _ Hst Hn Hd). intros g Hg. simplify_eq.
    destruct (step_undriven _ _ _ _ _ _ Hok Hst Hf Hf' Hd) as [Hst' Hap]. specialize (Hc f Hf). unfold settled_as in *. by rewrite Hst', Hap.
Qed.

Lemma held_step cell applied pc :
  f_alive f = true → f_disposing f' = false → ¬ starts op x → held w f cell applied pc → held w' f' cell applied pc.
Proof.
  intros Ha Hnd Hn Hh. pose proof known_step as Hk. pose proof extinct_step as He. pose proof rest_step as Hr. pose proof course_step as Hc.
  assert (wd_drivers w !! x = None → wd_drivers w' !! x = None) as Hi by (by intros; eapply step_idle).
  destruct pc; cbn [held] in *; try done; try (by apply Hr); try (by apply Hi).
  - destruct Hh as (H1 & H2 & H3). split_and!; [by apply Hc|by apply Hk|]. destruct m; [done..|]. intros Hm t0 H0. destruct (H3 Hm t0 H0); [by left|right; by apply He].
  - destruct Hh. split; [by apply Hr|by apply Hk].
  - destruct Hh. split; [by apply Hi|by apply Hk].
Qed.
End elapse.
End invariant.

(** * The steps of the slot *)

Section threads.
Context (x : Addr).
Implicit Types (w : World) (s : Slot) (t : SemanticTarget) (pc : Thread).

(** A thread outside the ServiceStore lock does not move the target, unless it commits an
    input. *)
Lemma thread_frame tid pc (ch : Verdict) s next s1 :
  thread_step has_missing tid pc ch s = Some (next, s1) → mutating pc = false →
  st_threads s1 = st_threads s ∧ st_lock s1 = st_lock s ∧
  (pc ≠ Claimed Operation ∨ ch_change ch = false → st_live s1 = st_live s).
Proof.
  intros Hs Hm. destruct pc as [| | | | | | | | | |p|[]| | |[]|[]| | |[]| | | | | | | | | |]; try done; cbn in Hs;
    unfold try_claim, skip_kick in Hs; repeat case_match; simplify_eq; split_and!; try done; by intros [?|?].
Qed.

(** A thread that does not hold the slot moves nothing but the word, or gets it. *)
Lemma outsider_step tid pc (ch : Verdict) s next s1 :
  thread_step has_missing tid pc ch s = Some (next, s1) → owns pc = false → mutating pc = false → st_stolen s1 = false →
  st_cell s1 = st_cell s ∧ Inertia.st_applied s1 = Inertia.st_applied s ∧
  (owns_opt next = false ∧ (st_word s1 = IDLE → st_word s = IDLE) ∨
   st_word s = IDLE ∧ (next = Some KickWon ∨ ∃ p, next = Some (Claimed p))).
Proof.
  intros Hs Ho Hm Hst. destruct pc as [| | | | | | | | | |p|[]| | |[]|[]| | |[]| | | | | | | | | |]; try done; cbn in Hs;
    unfold try_claim, skip_kick in Hs; repeat case_match; simplify_eq; split_and!; try done; try (by left); try (by right; eauto).
  - left. split; [done|congruence].
  - left. split; [done|congruence].
  - left. split; [done|]. cbn in Hst. apply orb_false_iff in Hst as [_ Hi]. by apply negb_false_iff, bool_decide_eq_true in Hi.
Qed.

(** What a step of the holder leaves, before the world begins the pass it asks for. *)
Definition after w (f : Fiber) (cell applied : option SemanticTarget) (next : option Thread) : Prop :=
  match next with
  | Some (Settling m t _) =>
      wd_drivers w !! x = None ∧ known w f t ∧
      match m with
      | Creating => has_missing t = true → ∀ t0, cell = Some t0 → has_missing t0 = true ∨ extinct w t0
      | _ => cell = Some t
      end
  | Some p => if owns p then held x w f cell applied p else rest x w f cell applied
  | None => rest x w f cell applied
  end.

Lemma rest_applied w f cell t : rest x w f cell (Some t) → good w f t.
Proof. intros (_ & _ & H). by apply H. Qed.

Lemma rest_set w f cell applied t : rest x w f cell applied → good w f t → rest x w f (Some t) (Some t).
Proof. intros (Hd & _ & _) Hg. split_and!; [done|by intros ? [= <-]..]. Qed.

(** The end of a pass. *)
Lemma course_settled w f b : world_fibers w !! x = Some f → wd_drivers w !! x = None → course b x w → settled_as b f.
Proof. intros Hf Hd Hc. unfold course in Hc. rewrite Hd in Hc. by apply Hc. Qed.

Lemma pass_ends w f m t r tid (ch : Verdict) s next s1 :
  world_fibers w !! x = Some f → wd_drivers w !! x = None → (∀ t, st_cell s = Some t → known w f t) →
  held x w f (st_cell s) (Inertia.st_applied s) (Settling m t r) → thread_step has_missing tid (Settling m t r) ch s = Some (next, s1) →
  (∀ t, st_cell s1 = Some t → known w f t) ∧ after w f (st_cell s1) (Inertia.st_applied s1) next.
Proof.
  intros Hf Hd Hk (Hc & Hkt & Hcell) Hs. apply (course_settled _ _ _ Hf Hd) in Hc.
  assert (∀ c, (∀ t0, c = Some t0 → good w f t0) → rest x w f c (Some t)) as Hrest by (intros c ?; split_and!; [done..|by intros ? [= <-]; left]).
  destruct m; cbn in Hs.
  - injection Hs as <- <-. split; [done|]. apply Hrest. intros t0. rewrite Hcell. intros [= <-]. by left.
  - injection Hs as <- <-. split; [done|]. apply Hrest. intros t0. rewrite Hcell. intros [= <-]. by left.
  - destruct (has_missing t) eqn:Hm.
    + injection Hs as <- <-. cbn. split.
      * intros t0. destruct (st_cell s) as [t1|] eqn:E; intros [= <-]; [by apply Hk|done].
      * apply Hrest. intros t0. destruct (st_cell s) as [t1|] eqn:E; intros [= <-]; [|left; by rewrite Hm].
        destruct (Hcell eq_refl t1 eq_refl) as [Hm1|?]; [left; by rewrite Hm1|by right].
    + destruct (ch_fail ch); injection Hs as <- <-; (split; [by intros ? [= <-]|]); [done|]. apply Hrest. intros ? [= <-]. left. by rewrite Hm.
Qed.

(** Any other step of the holder. *)
Lemma holder_step w f tid pc (ch : Verdict) s next s1 :
  target_of w f = Some (st_live s) → (∀ t, st_cell s = Some t → known w f t) → pc_ok s pc → st_word s ≠ IDLE → st_terminal s = false →
  owns pc = true → (∀ m t r, pc ≠ Settling m t r) → (pc ≠ Claimed Operation ∨ ch_change ch = false) →
  held x w f (st_cell s) (Inertia.st_applied s) pc → thread_step has_missing tid pc ch s = Some (next, s1) →
  (∀ t, st_cell s1 = Some t → known w f t) ∧ after w f (st_cell s1) (Inertia.st_applied s1) next.
Proof.
  intros Hl Hk Hpc Hw Hte Ho Hns Hch Hh Hs. pose proof (target_known _ _ _ Hl) as Hkl.
  destruct pc as [| | | | | | | | | |p|[]| | |[]|[]| | |m t r| | | | | | | | | |]; try done; cbn in Hs; cbn [held] in Hh;
    try (by destruct (Hns m t r)).
  all: try (by cbn in Hpc; congruence).
  all: unfold abandon, bare_release in Hs; repeat case_match; simplify_eq; cbn; try done.
  all: try (by destruct Hpc).
  all: try match goal with H : st_cell _ = Some _ |- _ => rewrite ?H end.
  all: split; [first [exact Hkl | done | intros ? [= <-]; first [done | by destruct Hh | by apply Hk]]|].
  all: try done; try (by destruct Hh); try (by apply Hh).
  - destruct Hh as (H1 & H2 & _). by split_and!.
  - split_and!; [done..|]. intros Hm t0 H0. by apply (complete_then_missing w f t0 (st_live s1)); auto.
  - split_and!; [done|by apply Hk|done].
  - split; [|by apply Hh]. by apply Hh.
Qed.
End threads.

(** * The invariant *)

Section preserved.
Context (x : Addr).
Implicit Types (w : World) (s : Slot) (t : SemanticTarget) (f : Fiber).

(** What holds of the Fiber as long as the tail of its creation pass has not released the
    slot of another holder. *)
Record guarded w f s : Prop := {
  gd_cell : ∀ t, st_cell s = Some t → known w f t;
  gd_held : ∀ a pa, st_threads s !! a = Some pa → owns pa = true → held x w f (st_cell s) (Inertia.st_applied s) pa;
  gd_idle : st_word s = IDLE → rest x w f (st_cell s) (Inertia.st_applied s);
}.

Record conv_inv (c : Conv) (f : Fiber) : Prop := {
  ci_world : world_ok (cv_world c);
  ci_fiber : world_fibers (cv_world c) !! x = Some f;
  ci_live : f_alive f = true ∧ f_disposing f = false;
  ci_served : x ∈ wd_served (cv_world c);
  ci_target : target_of (cv_world c) f = Some (st_live (cv_slot c));
  ci_slot : slot_reachable has_missing (cv_slot c);
  ci_lock : st_lock (cv_slot c) = None;
  ci_open : st_terminal (cv_slot c) = false;
  ci_guarded : st_stolen (cv_slot c) = false → guarded (cv_world c) f (cv_slot c);
}.

(** A thread that does not hold the slot appears. *)
Lemma guarded_new w f s s' :
  st_cell s' = st_cell s → Inertia.st_applied s' = Inertia.st_applied s → st_word s' = st_word s →
  (∀ a pa, st_threads s' !! a = Some pa → owns pa = false ∨ st_threads s !! a = Some pa) → guarded w f s → guarded w f s'.
Proof.
  intros Hc Ha Hw Ht [H1 H2 H3]. split; rewrite ?Hc, ?Ha, ?Hw; [done| |done].
  intros a pa Hpa Ho. destruct (Ht a pa Hpa) as [?|?]; [congruence|by eapply H2].
Qed.

(** The world moves, and nobody begins a pass of the Fiber. *)
Lemma guarded_world op w w' f f' s :
  world_ok w → step op w = Some w' → world_fibers w !! x = Some f → world_fibers w' !! x = Some f' →
  f_alive f = true → f_disposing f' = false → ¬ starts op x → guarded w f s → guarded w' f' s.
Proof.
  intros Hok Hst Hf Hf' Ha Hd Hn [H1 H2 H3]. split.
  - intros t Ht. by eapply known_step; [..|apply H1].
  - intros a pa Hpa Ho. by eapply held_step; [..|eapply H2].
  - intros Hw. by eapply rest_step; [..|apply H3].
Qed.

(** The world after the step of a holder: it begins the pass the holder asks for. *)
Definition begins w (next : option Thread) w' : Prop :=
  match next with
  | Some (Settling m t _) => step (OpSettle x (has_missing t) (creating m)) w = Some w'
  | _ => w' = w
  end.

Lemma after_held w f w' cell applied p :
  world_ok w → world_fibers w !! x = Some f → begins w (Some p) w' → owns p = true →
  after x w f cell applied (Some p) → held x w' f cell applied p.
Proof.
  intros Hok Hf Hb Ho Ha. destruct p; cbn [begins after] in *; try (subst w'; by rewrite ?Ho in Ha); try done.
  destruct Ha as (Hd & Hk & Hc). cbn [held].
  assert (wd_drivers w' !! x = Some (DSettle (has_missing t) (creating m)) ∧ world_fibers w' !! x = Some f) as [Hd' Hf'].
  { cbn [step] in Hb. rewrite Hf in Hb. cbn [mbind option_bind] in Hb. destruct (_ && _); [|done]. injection Hb as <-. by rewrite goto_driver. }
  split_and!.
  - unfold course. by rewrite Hd'.
  - by eapply known_step.
  - destruct m; [done..|]. intros Hm t0 H0. destruct (Hc Hm t0 H0); [by left|right]. by eapply extinct_step.
Qed.

(** A thread of the slot takes a step. *)
Lemma guarded_thread w f w' s tid pc (ch : Verdict) next s1 :
  world_ok w → world_fibers w !! x = Some f → slot_inv s → slot_inv (set_thread tid next s1) →
  st_threads s !! tid = Some pc → thread_step has_missing tid pc ch s = Some (next, s1) → mutating pc = false → st_stolen s1 = false →
  begins w next w' → guarded w f s →
  (owns pc = true → (∀ t, st_cell s1 = Some t → known w f t) ∧ after x w f (st_cell s1) (Inertia.st_applied s1) next) →
  guarded w' f (set_thread tid next s1).
Proof.
  intros Hok Hf Hi Hi' Ht Hs Hm Hst Hb Hg Hown. destruct (thread_frame _ _ _ _ _ _ Hs Hm) as (Hth & _ & _).
  assert (∀ p, next = Some p → owns p = false → w' = w) as Hstay by (intros p -> Ho; by destruct p).
  assert (∀ b pb, b ≠ tid → st_threads s !! b = Some pb → owns pb = true → owns pc = false) as Hsole.
  { intros b pb Hne Hpb Ho. destruct (owns pc) eqn:E; [|done]. destruct Hne. by eapply (si_unique _ Hi). }
  destruct (owns pc) eqn:Ho.
  - specialize (Hown eq_refl). destruct Hown as [Hcell Haf].
    assert (∀ t, known w f t → known w' f t) as Hkn.
    { intros t Hk. destruct next as [[]|]; cbn [begins] in Hb; subst; try done. eapply known_step; [done..| |done].
      cbn [step] in Hb. rewrite Hf in Hb. cbn [mbind option_bind] in Hb. destruct (_ && _); [|done]. by injection Hb as <-. }
    split.
    + intros t Hc. by apply Hkn, Hcell.
    + intros a pa Hpa Hoa. apply set_thread_lookup in Hpa as [[-> ->]|[Hne Hpa]]; [by eapply after_held|].
      rewrite Hth in Hpa. by discriminate (Hsole a pa Hne Hpa Hoa).
    + intros Hw. assert (owns_opt next = false) as Hno.
      { destruct next as [p|]; [|done]. apply (si_idle _ Hi') with (a := tid); [exact Hw|]. apply set_thread_lookup. by left. }
      destruct next as [p|]; cbn [begins after owns_opt] in *; [|by subst]. rewrite (Hstay p eq_refl Hno).
      destruct p; try done; by rewrite Hno in Haf.
  - destruct (outsider_step _ _ _ _ _ _ Hs Ho Hm Hst) as (Hc & Ha & [[Hno Hw]|[Hw Hn]]).
    + assert (w' = w) as -> by (destruct next as [p|]; [by eapply Hstay|done]). split; cbn; rewrite ?Hc, ?Ha; [apply Hg| |].
      * intros a pa Hpa Hoa. apply (set_thread_lookup tid next s1 a pa) in Hpa as [[-> ->]|[Hne Hpa]]; [cbn in Hno; congruence|].
        rewrite Hth in Hpa. by eapply (gd_held _ _ _ Hg).
      * intros Hw1. by apply (gd_idle _ _ _ Hg), Hw.
    + pose proof (gd_idle _ _ _ Hg Hw) as Hr. assert (w' = w) as -> by (by destruct Hn as [->|[p ->]]). split; cbn; rewrite ?Hc, ?Ha; [apply Hg| |].
      * intros a pa Hpa Hoa. apply (set_thread_lookup tid next s1 a pa) in Hpa as [[-> ->]|[Hne Hpa]].
        { by destruct Hn as [[= ->]|[p [= ->]]]. }
        rewrite Hth in Hpa. by destruct (owner_not_idle _ _ _ Hi Hpa Hoa).
      * intros Hw1. assert (owns_opt next = false) as Hno; [|by destruct Hn as [->|[p ->]]].
        destruct next as [p|]; [|done]. apply (si_idle _ Hi') with (a := tid); [exact Hw1|]. apply set_thread_lookup. by left.
Qed.
End preserved.

(** ** Every event keeps it *)

Section events.
Context (x : Addr).
Implicit Types (w : World) (s : Slot) (t : SemanticTarget) (f : Fiber).

Lemma live_spec w : live x w = true ↔ ∃ f, world_fibers w !! x = Some f ∧ f_alive f = true ∧ f_disposing f = false.
Proof.
  unfold live. destruct (world_fibers w !! x) as [f|]; [|split; [done|by intros (f & ? & _)]].
  rewrite andb_true_iff, negb_true_iff. split; [intros [? ?]; by exists f|intros (g & [= ->] & ?); done].
Qed.

(** The world's part of the invariant, over one step that leaves the Fiber live. *)
Lemma world_inv op c f w' f' :
  conv_inv x c f → step op (cv_world c) = Some w' → world_fibers w' !! x = Some f' → f_disposing f' = false →
  world_ok w' ∧ x ∈ wd_served w' ∧ ¬ (∃ o, op = OpTeardown x o).
Proof.
  intros Hc Hst Hf' Hd. pose proof (ci_world _ _ _ Hc) as Hok. split_and!.
  - by eapply step_ok.
  - eapply step_served; [done|by eapply ci_served|]. intros o Hdr.
    destruct (driven_at _ _ _ _ Hok (ci_fiber _ _ _ Hc) Hdr) as [_ [_ Hdead]]. destruct (ci_live _ _ _ Hc). congruence.
  - intros [o ->]. cbn [step] in Hst. rewrite (ci_fiber _ _ _ Hc) in Hst. cbn [mbind option_bind] in Hst. destruct (_ && _); [|done].
    injection Hst as <-. change (alter mark_terminal x (world_fibers (cv_world c)) !! x = Some f') in Hf'.
    rewrite lookup_alter_eq, (ci_fiber _ _ _ Hc) in Hf'. by injection Hf' as <-.
Qed.

(** A mutation of the store, seen by the slot: the revision is committed, the target is
    another, and a kick is owed. *)
Lemma mutation_effect tid t s s' :
  run_schedule has_missing [NewMutation tid; Run tid (committing t); Run tid (committing t)] s = Some s' →
  st_cell s' = st_cell s ∧ Inertia.st_applied s' = Inertia.st_applied s ∧ st_word s' = st_word s ∧ st_stolen s' = st_stolen s ∧
  st_live s' = t ∧ st_lock s' = None ∧ st_terminal s' = st_terminal s ∧ Inertia.st_alive s' = Inertia.st_alive s ∧
  ∀ a pa, st_threads s' !! a = Some pa → owns pa = false ∨ st_threads s !! a = Some pa.
Proof.
  cbn [run_schedule act]. destruct (st_threads s !! tid) eqn:Ht; [done|]. destruct (st_lock s) eqn:Hl; [done|]. cbn.
  rewrite lookup_insert_eq. cbn. unfold commit_recheck. cbn. destruct (checked_succ _) as [n|]; [|done]. cbn.
  rewrite lookup_insert_eq. cbn. intros [= <-]. cbn. split_and!; try done. intros a pa.
  rewrite !insert_insert_eq. intros [[<- <-]|[_ ?]]%lookup_insert_Some; [by left|by right].
Qed.

Lemma outside_spec op : outside x op = true → ¬ records op x ∧ (starts op x → ∃ o, op = OpTeardown x o).
Proof.
  destruct op as [ctx p o|y ctx p seal|y|y m o|y o|y e|y|y|y|y m|edges|y rq|y|i v|i|i|i|doomed key|a|y|y]; cbn;
    intros H; split; try (by intros []); try (apply negb_true_iff, bool_decide_eq_false in H; done).
  intros ->. by exists o.
Qed.

Lemma world_event_inv tid op c f w' s' :
  conv_inv x c f → outside x op = true → step op (cv_world c) = Some w' → observe x tid (cv_world c) w' (cv_slot c) = Some s' →
  live x w' = true → ∃ f', conv_inv x {| cv_world := w'; cv_slot := s' |} f'.
Proof.
  intros Hc Hout Hst Hobs (f' & Hf' & Ha' & Hd')%live_spec. exists f'.
  destruct (outside_spec _ Hout) as [Hnr Hstart]. destruct (world_inv _ _ _ _ _ Hc Hst Hf' Hd') as (Hok' & Hsv & Hnt).
  assert (¬ starts op x) as Hn by (intros H; by apply Hnt, Hstart).
  assert (st_stolen (cv_slot c) = false → guarded x w' f' (cv_slot c)) as Hg.
  { intros H. eapply guarded_world; [apply Hc|exact Hst|apply Hc|exact Hf'|apply Hc|done|done|by apply Hc]. }
  revert Hobs. unfold observe. rewrite Hf', (ci_fiber _ _ _ Hc). case_decide as Heq.
  - intros [= <-]. split; cbn; try done; try apply Hc. injection Heq as Heq.
    rewrite (step_target op (cv_world c) w' x f f' (ci_world _ _ _ Hc) Hst Hnr (ci_served _ _ _ Hc) (ci_fiber _ _ _ Hc) Hf' Heq). apply Hc.
  - destruct (live_target x w') as [t|] eqn:Ht; [|done]. cbn [mbind option_bind]. intros Hrun.
    destruct (mutation_effect _ _ _ _ Hrun) as (H1 & H2 & H3 & H4 & H5 & H6 & H7 & H8 & H9).
    split; cbn; try done.
    + rewrite H5, <- Ht. unfold live_target. by rewrite Hf'.
    + eapply run_schedule_reachable; [apply Hc|exact Hrun].
    + rewrite H7. apply Hc.
    + rewrite H4. intros H. eapply guarded_new; [done..|by apply Hg].
Qed.

(** A thread that claims or kicks starts. *)
Lemma start_inv a tid pc c f s' :
  conv_inv x c f → act has_missing a (cv_slot c) = Some s' → s' = set_thread tid (Some pc) (cv_slot c) → owns pc = false →
  conv_inv x {| cv_world := cv_world c; cv_slot := s' |} f.
Proof.
  intros Hc Ha -> Ho. assert (slot_reachable has_missing (set_thread tid (Some pc) (cv_slot c))) as Hr by (eapply reach_step; [apply Hc|by exists a]).
  destruct Hc as [H1 H3 H4 H5 H6 H7 H8 H9 H10]. split; cbn; try done.
  intros Hst. apply (guarded_new x _ _ (cv_slot c)); [done..| |by apply H10]. intros b pb [[-> [= <-]]|[_ ?]]%set_thread_lookup; [by left|by right].
Qed.

(** A thread of the slot takes a step, and the world begins the pass it asks for. *)
Lemma thread_inv tid pc (ch : Verdict) c f s' w' :
  conv_inv x c f → st_threads (cv_slot c) !! tid = Some pc → mutating pc = false →
  (pc ≠ Claimed Operation ∨ ch_change ch = false) → ((∃ m t r, pc = Settling m t r) → wd_drivers (cv_world c) !! x = None) →
  act has_missing (Run tid ch) (cv_slot c) = Some s' → st_terminal s' = false → begins x (cv_world c) (st_threads s' !! tid) w' →
  live x w' = true → conv_inv x {| cv_world := w'; cv_slot := s' |} f.
Proof.
  intros Hc Ht Hm Hch Hset Ha Hte Hb Hlv. pose proof (reach_step _ _ _ _ (ci_slot _ _ _ Hc) (ex_intro _ _ Ha)) as Hr.
  pose proof Ha as Ha0. cbn [act] in Ha. rewrite Ht in Ha. destruct (thread_step has_missing tid pc ch (cv_slot c)) as [[next s1]|] eqn:Hs; [|done].
  injection Ha as <-. assert (st_threads (set_thread tid next s1) !! tid = next) as Hnx.
  { cbn. destruct next; [by rewrite lookup_insert_eq|by rewrite lookup_delete_eq]. }
  rewrite Hnx in Hb. destruct (thread_frame _ _ _ _ _ _ Hs Hm) as (_ & Hlk & Hl). specialize (Hl Hch).
  assert (world_fibers w' !! x = Some f ∧ root_stores (wd_root w') = root_stores (wd_root (cv_world c)) ∧
          world_ok w' ∧ x ∈ wd_served w') as (Hf' & Hrt & Hok' & Hsv).
  { assert (w' = cv_world c ∨ ∃ b o, step (OpSettle x b o) (cv_world c) = Some w') as [->|(b & o & Hst)]
      by (destruct next as [[]|]; cbn [begins] in Hb; eauto).
    - split_and!; [apply Hc|done|apply Hc..].
    - assert (world_fibers w' !! x = Some f ∧ root_stores (wd_root w') = root_stores (wd_root (cv_world c))) as [H1 H2].
      { cbn [step] in Hst. rewrite (ci_fiber _ _ _ Hc) in Hst. cbn [mbind option_bind] in Hst. destruct (_ && _); [|done].
        injection Hst as <-. split; [apply (ci_fiber _ _ _ Hc)|done]. }
      destruct (world_inv _ _ _ _ _ Hc Hst H1 (proj2 (ci_live _ _ _ Hc))) as (? & ? & _). by split_and!. }
  split; cbn [cv_world cv_slot]; try done; try apply Hc.
  - unfold target_of. rewrite Hrt. change (st_live (set_thread tid next s1)) with (st_live s1). rewrite Hl. apply Hc.
  - change (st_lock (set_thread tid next s1)) with (st_lock s1). rewrite Hlk. apply Hc.
  - intros Hst. pose proof (act_stolen _ _ _ _ Ha0 Hst) as Hst0.
    pose proof (reachable_inv _ _ (ci_slot _ _ _ Hc) Hst0) as Hi. pose proof (reachable_inv _ _ Hr Hst) as Hi'.
    pose proof (ci_guarded _ _ _ Hc Hst0) as Hg.
    eapply (guarded_thread x (cv_world c) f w' (cv_slot c) tid pc ch next s1); [apply Hc|apply Hc|done..|]. intros Ho. pose proof (gd_held _ _ _ _ Hg _ _ Ht Ho) as Hh.
    pose proof (owner_not_idle _ _ _ Hi Ht Ho) as Hw. destruct (si_pcs _ Hi _ _ Ht) as [Hpc _].
    assert ((∃ m t r, pc = Settling m t r) ∨ ∀ m t r, pc ≠ Settling m t r) as [(m & t & r & ->)|Hns]
      by (destruct pc; eauto).
    + eapply (pass_ends x (cv_world c) f m t r tid ch (cv_slot c)); [apply Hc|apply Hset; eauto|apply Hg|done..].
    + eapply (holder_step x (cv_world c) f tid pc ch (cv_slot c)); [apply Hc|apply Hg|done|done|apply Hc|done..].
Qed.

(** An update commits its input, with the slot held. *)
Lemma commit_inv tid (ch : Verdict) c f w' t s' :
  conv_inv x c f → st_threads (cv_slot c) !! tid = Some (Claimed Operation) → ch_change ch = true → ch_live ch = t →
  step (OpCommit x) (cv_world c) = Some w' → live_target x w' = Some t → act has_missing (Run tid ch) (cv_slot c) = Some s' →
  live x w' = true → Inertia.st_alive s' = true → ∃ f', conv_inv x {| cv_world := w'; cv_slot := s' |} f'.
Proof.
  intros Hc Ht Hch Hl Hst Htg Ha (f' & Hf' & Ha' & Hd')%live_spec Hal. exists f'.
  pose proof (reach_step _ _ _ _ (ci_slot _ _ _ Hc) (ex_intro _ _ Ha)) as Hr.
  destruct (world_inv _ _ _ _ _ Hc Hst Hf' Hd') as (Hok' & Hsv & _).
  cbn [act] in Ha. rewrite Ht in Ha. cbn [thread_step operation_step] in Ha. rewrite Hch in Ha.
  destruct (Inertia.st_alive (cv_slot c)) eqn:Halive; cbn in Ha; injection Ha as <-; [|cbn in Hal; congruence].
  split; cbn; try done; try apply Hc.
  - rewrite Hl. revert Htg. unfold live_target. by rewrite Hf'.
  - intros Hstl. apply (guarded_new x _ _ (cv_slot c)); [done..| |].
    + intros a pa [[-> [= <-]]|[_ ?]]%set_thread_lookup; [by right|by right].
    + eapply guarded_world; [apply Hc|exact Hst|apply Hc|exact Hf'|apply Hc|done|by intros []|by apply Hc].
Qed.

Lemma event_inv e c c' f : conv_inv x c f → event x e c = Some c' → ∃ f', conv_inv x c' f'.
Proof.
  intros Hc. unfold event. destruct (match e with EvWorld _ _ => _ | _ => _ end) as [c1|] eqn:He; [|done]. cbn [mbind option_bind].
  destruct (_ && _ && _) eqn:Hpost; [|done]. intros [= ->]. apply andb_true_iff in Hpost as [[Hlv Hal]%andb_true_iff Hte%negb_true_iff].
  destruct e as [tid op|tid p|tid|tid ch].
  - destruct (outside x op) eqn:Hout; [|done]. destruct (step op (cv_world c)) as [w'|] eqn:Hst; [|done]. cbn [mbind option_bind] in He.
    destruct (observe _ _ _ _ _) as [s'|] eqn:Hobs; [|done]. injection He as <-. by eapply world_event_inv.
  - destruct (act _ _ _) as [s'|] eqn:Ha; [|done]. injection He as <-. exists f. eapply start_inv; [done..| |].
    + cbn [act] in Ha. destruct (st_threads (cv_slot c) !! tid); [done|]. by injection Ha as <-.
    + done.
  - destruct (act _ _ _) as [s'|] eqn:Ha; [|done]. injection He as <-. exists f. eapply start_inv; [done..| |].
    + cbn [act] in Ha. destruct (st_threads (cv_slot c) !! tid); [done|]. by injection Ha as <-.
    + done.
  - unfold thread_event in He. destruct (st_threads (cv_slot c) !! tid) as [pc|] eqn:Ht; [|done].
    assert (∀ (ch' : Verdict) s' w', act has_missing (Run tid ch') (cv_slot c) = Some s' → c' = {| cv_world := w'; cv_slot := s' |} →
      mutating pc = false → (pc ≠ Claimed Operation ∨ ch_change ch' = false) →
      ((∃ m t r, pc = Settling m t r) → wd_drivers (cv_world c) !! x = None) → begins x (cv_world c) (st_threads s' !! tid) w' →
      ∃ f', conv_inv x c' f') as Hrun.
    { intros ch' s' w' Ha -> Hm Hch Hset Hb. exists f. by eapply thread_inv. }
    assert ((s' ← act has_missing (Run tid ch) (cv_slot c);
             match st_threads s' !! tid with
             | Some (Settling m target _) => w' ← step (OpSettle x (has_missing target) (creating m)) (cv_world c); Some {| cv_world := w'; cv_slot := s' |}
             | _ => Some {| cv_world := cv_world c; cv_slot := s' |}
             end) = Some c' → mutating pc = false → pc ≠ Claimed Operation → (∀ m t r, pc ≠ Settling m t r) → ∃ f', conv_inv x c' f') as Hplain.
    { clear He. intros Hp Hm Hop Hns. destruct (act _ _ _) as [s'|] eqn:Ha; [|done]. cbn [mbind option_bind] in Hp.
      assert ((∃ m t r, pc = Settling m t r) → wd_drivers (cv_world c) !! x = None) as Hset by (intros (m & t & r & ->); by destruct (Hns m t r)).
      destruct (st_threads s' !! tid) as [[]|] eqn:Hn;
        try (injection Hp as <-; apply (Hrun ch s' (cv_world c) Ha eq_refl Hm (or_introl Hop) Hset); by rewrite Hn).
      destruct (step _ _) as [w'|] eqn:Hst; [|done]. injection Hp as <-. apply (Hrun ch s' w' Ha eq_refl Hm (or_introl Hop) Hset). rewrite Hn. exact Hst. }
    destruct pc as [| | | | | | | | | | |[]| | | | | | |m t r| | | | | | | | | |]; try done; try (by apply Hplain).
    + destruct (ch_change ch) eqn:Hch.
      * destruct (step _ _) as [w'|] eqn:Hst; [|done]. cbn [mbind option_bind] in He. destruct (live_target x w') as [t|] eqn:Htg; [|done].
        cbn [mbind option_bind] in He. destruct (act _ _ _) as [s'|] eqn:Ha; [|done]. injection He as <-. apply (commit_inv tid _ c f w' t s' Hc Ht) in Ha; done.
      * destruct (act _ _ _) as [s'|] eqn:Ha; [|done]. injection He as <-.
        apply (Hrun ch s' (cv_world c) Ha eq_refl eq_refl); [by right|by intros (? & ? & ? & ?)|].
        cbn [act] in Ha. rewrite Ht in Ha. cbn [thread_step operation_step] in Ha. rewrite Hch in Ha.
        destruct (negb _); injection Ha as <-; cbn; [by rewrite lookup_delete_eq|by rewrite lookup_insert_eq].
    + destruct (world_fibers (cv_world c) !! x) as [g|] eqn:Hg; [|done]. cbn [mbind option_bind] in He. case_decide as Hd; [|done].
      destruct (act _ _ _) as [s'|] eqn:Ha; [|done]. injection He as <-. eapply (Hrun _ s' (cv_world c) Ha eq_refl eq_refl); [by left|done|].
      cbn [act] in Ha. rewrite Ht in Ha. destruct m; cbn [thread_step committed_step creation_step convergence_step] in Ha;
        repeat case_match; simplify_eq; cbn; by rewrite lookup_insert_eq.
Qed.

Lemma init_inv c : conv_init x c → ∃ f, conv_inv x c f.
Proof.
  intros (membership & main & ops & w0 & w & t & Hnew & Hrun & Hd & Hst & (f & Hf & Ha & Hnd)%live_spec & Ht & Hs). exists f.
  pose proof (reached_ok _ _ _ _ _ Hnew Hrun) as Hok. pose proof (step_ok _ _ _ Hok Hst) as Hok'.
  split; try done.
  - revert Hst Hf. cbn [step]. unfold spawn_index. change (gr_fibers (so_graph (root_stores (wd_root w)))) with (world_fibers w).
    destruct (world_fibers w !! x) as [g|] eqn:Hg; [|done]. cbn [mbind option_bind]. destruct (f_installed g); [|done].
    intros [= <-]. destruct (f_alive g) eqn:Hga; cbn; [intros _; set_solver|]. fold (world_fibers w). rewrite Hg. intros [= ->]. congruence.
  - rewrite Hs. cbn. revert Ht. unfold live_target. by rewrite Hf.
  - rewrite Hs. apply slot_new_reachable.
  - by rewrite Hs.
  - by rewrite Hs.
  - rewrite Hs. intros _. split; cbn; try done. intros _. split_and!; try done. exact (step_idle (OpIndex x) _ _ x Hst (λ H, H) Hd).
Qed.

Lemma conv_reachable_inv c : conv_reachable x c → ∃ f, conv_inv x c f.
Proof.
  apply (reachable_invariant _ _ (λ c, ∃ f, conv_inv x c f)); [apply init_inv|]. intros c1 c2 _ [f Hf] [e He]. by eapply event_inv.
Qed.
End events.

(** * Properties *)

Section theorems.
Context (x : Addr) (c : Conv) (Hr : conv_reachable x c).


End theorems.

(** * A consumer and its provider *)

Definition ordinary : Verdict :=
  {| ch_live := {| tg_input := 0; tg_assignments := [] |}; ch_exec := true; ch_fail := false; ch_change := false |}.
Definition thread (tid n : nat) : list Event := replicate n (EvThread tid ordinary).
Definition world (tid : nat) (ops : list Op) : list Event := EvWorld tid <$> ops.

(** The provider has the address 1, the consumer 4. *)
Definition indexed : list Op := creation 1 sample_provider ++ take 2 (creation 4 sample_consumer).

(** The provider applies; the creation pass of the consumer ends Pending. *)
Definition pending_creation : list Event :=
  world 9 ([OpSettle 1 false true] ++ drives 3 1 ++ publication 1 ++ drives 1 1) ++
  [EvClaim 1 Creation] ++ thread 1 4 ++ world 1 (drives 2 4) ++ thread 1 7.

(** The provider becomes Active, which makes its Service visible; the kick settles the
    consumer with a pass of [n] steps. *)
Definition published (n : nat) : list Event :=
  world 2 (drives 1 1) ++ thread 2 13 ++ world 2 (drives n 4) ++ thread 2 7.

(** The creation gives its FiberHandle away. *)
Definition handed_off : list Event := [EvClaim 3 Handoff] ++ thread 3 2 ++ world 3 [OpMark 4 MkHandoff].

Definition start : Conv :=
  let w := default blank (step (OpIndex 4) (sample indexed)) in
  {| cv_world := w; cv_slot := slot_new (default (ch_live ordinary) (live_target 4 w)) |}.

Lemma start_init : conv_init 4 start.
Proof.
  exists 0, 0, indexed, (sample []), (sample indexed), (default (ch_live ordinary) (live_target 4 (cv_world start))).
  split_and!; [exact sample_new|computed..].
Qed.

Definition stage (es : list Event) : Conv := default start (follow 4 es start).

Lemma stage_reachable es : follow 4 es start = Some (stage es) → conv_reachable 4 (stage es).
Proof. apply follow_reachable, reach_init, start_init. Qed.

Definition the_clock : SemanticTarget :=
  {| tg_input := 6; tg_assignments := [({| de_service := "clock"; de_realm := 0 |}, Some 7)] |}.

Definition converged : list Event := pending_creation ++ handed_off ++ published 5.



(** Nothing is left to do: no thread, no recheck, the FiberHandle delivered, every Service
    available; and the Fiber has never been applied. *)
Definition stranded (c : Conv) (t : SemanticTarget) : bool :=
  bool_decide (st_threads (cv_slot c) = ∅) && is_idle (cv_slot c) && negb (has_committed_recheck (cv_slot c)) &&
  negb (st_stolen (cv_slot c)) && bool_decide (Inertia.st_applied (cv_slot c) = Some t) && negb (has_missing t) &&
  match world_fibers (cv_world c) !! 4 with
  | Some f => negb (f_creation_pending f) && bool_decide (fiber_state f = Pending) && negb (f_applied f)
  | None => false
  end.

(** [C28] A creation can hand off a Fiber that is stranded.  When its Services become available
    between the exit of the creation pass, which ended Pending, and the handoff, the
    kicked convergence settles without the first apply, because that still belongs to the
    creation, and its exit acknowledges the recheck; the handoff applies nothing.  The
    Fiber stays Pending with every Service available and nobody left to apply it. *)
Theorem handoff_strands_first_apply :
  ∃ c, conv_reachable 4 c ∧ live_target 4 (cv_world c) = Some the_clock ∧ stranded c the_clock = true.
Proof.
  exists (stage (pending_creation ++ published 2 ++ handed_off)). split_and!; [apply stage_reachable; computed|computed..].
Qed.
